(* ===== verification/_CoqProject ===== *)
-Q . S2P
Prelude.v
Effect.v
Recorded.v
Limit.v
JsString.v
Regex.v
Encoding.v
Pem.v
JsNumber.v
JsDate.v
Json.v
JsonText.v
JsonUnicode.v
JsonPretty.v
Values.v
Ini.v
Config.v
Workers.v
Jobs.v
WasmContracts.v
Codec.v
Manifest.v
Adapters.v
Pool.v
Wasi.v
Component.v
Runtime.v
Lifecycle.v
Trace.v
Sanitizer.v
EncryptUtil.v
KeyTool.v
Scaffold.v
LocalProvider.v
Kms.v
Native.v
Jwt.v
Http.v
Formatter.v
FileSink.v
Logger.v
HttpMiddleware.v
HttpClient.v
Grpc.v
Pkcs11Uri.v
Cryptoki.v
Pkcs11Options.v
Pkcs11Keys.v
Pkcs11Session.v
Pkcs11Repository.v
Ffi.v
