(* ===== verification/Prelude.v ===== *)
(** * forge-deno: a verification library

    forge-deno is a TypeScript toolkit for Deno services.  This library models the parts of it
    that carry logic of their own and proves what makes them correct.  Names follow the source;
    a comment before a definition says which code it is when the name does not.

    ** Parts of the program and where they are modelled

    - Configuration (src/tools/utilities): [Values] is values.ts, typed values, key paths and the
      settings tree; [Ini] is ini.ts, the INI reader; [Config] is config.ts, the loader that
      merges files, overlays and the environment, over an explicit host.  The loader calls the
      reader through [Config.loadIniFiles] and the tree through [Values.mergeSettings].
    - Work (src/tools/workers, src/tools/jobs, mode.ts): [Workers] is the bounded worker loop and
      [Jobs] the scheduler with its shared controls and timers; both are transition systems whose
      events are the calls and the settlings of what the code awaits.  [Limit] holds the numbers a
      counter is compared with.
    - WASM component runtime (src/wasm): [WasmContracts] is errors.ts and contracts.ts; [Codec] is
      codec.ts, the JSON codec of ABI v1 over a heap of host objects; [Manifest] is manifest.ts,
      bundle verification; [Adapters] is adapters.ts; [Pool] is the class InstancePool of
      runtime.ts; [Wasi] is wasi.ts, the imports that deny everything; [Component] is
      component.ts, the factory of generated instances; [Runtime] is the path of one call through
      GoforgeWasmRuntime and [Lifecycle] the state all calls share.  A call goes from [Lifecycle]
      (entry, load) to [Runtime] (attempts), which leases an instance from [Pool], created by
      [Component] from a bundle [Manifest] verified, and reads the answer with [Codec].
      [Native] is native.ts, the native adapter of the contract and its qualification, which
      [Adapters] registers.
    - Cryptography (src/encrypt): [EncryptUtil] is utilities, enums, models and errors.ts;
      [LocalProvider] is local/repository.ts over Web Crypto; [Kms] is common/kms.ts and the
      adapters of AWS KMS, Azure Key Vault and GCP KMS over the clients of their SDKs.
    - PKCS#11 (src/encrypt/pkcs11): [Pkcs11Uri] is uri.ts; [Cryptoki] is cryptoki.ts;
      [Pkcs11Options] is errors.ts and config.ts; [Pkcs11Keys] is keys.ts, public keys and DER;
      [Pkcs11Session] is session.ts: session pool, login, caches of libraries and slots,
      withSession; [Pkcs11Repository] is repository.ts, the provider, over the seam of
      interface.ts; [Ffi] is ffi.ts, which implements that seam with calls of a C library on a
      memory of buffers.
    - Security and HTTP (src/security, src/config, src/telemetry): [Jwt] is jwt.ts, cookies.ts and
      the guards; [Trace] the W3C trace context; [Http] messages, the router of server.ts, security
      headers and the guards as middleware; [HttpMiddleware] the request context and the request
      log; [HttpClient] the REST client; [Grpc] interceptors, server, client and spans.  A request
      goes through the middleware of [Http] to the first route; the guards of [Jwt] store the
      claims its handler reads.
    - Logging (src/logger): [Sanitizer] redacts, [Formatter] writes the line, [FileSink] writes it
      to files that rotate, [Logger] is the logger that composes them.
    - Command line tools (src/cmd): [KeyTool] is deno-openssl, arguments, PEM and the commands over
      recorded output; [Scaffold] is qdeno, the templates and the scaffolder of services.
    The language and its library are modelled once, below the components: [JsString] (UTF-16
    strings, UTF-8, trim, split, case), [Regex] (the anchored patterns the sources test),
    [JsNumber] (IEEE-754 binary64 numbers and their decimal texts), [Json] (values, plain objects
    with their key order, JSON.parse and JSON.stringify), [JsonText] (the grammar of JSON as a syntax
    tree, a reference for [Codec]'s scanner), [JsonUnicode] (JSON through UTF-8), [JsDate] (dates and
    their texts), [JsonPretty] (JSON.stringify with an indentation), [Encoding] (the Base64 package)
    and [Pem] (its lines between dashes).  This file holds the result monad, the step relations and
    the generic lemmas; [Effect] the operations that throw and change a state, [Recorded] those
    whose calls are recorded.

    ** How code is translated

    A function that throws returns [res]; [let*] is the sequence of calls that may throw.  An
    object used as a map is the list of its own properties in key order, and a lookup that follows
    the prototype chain says so ([js_get], [object_prototype]).  What happens between two awaits
    is one transition: a part that awaits is a state with one function per synchronous stretch, an
    event type for the calls and for each promise that settles, and [run], the histories in any
    order.  Ghost fields, named in the comment of their record, only record history.  Code outside
    the repository (the file system, digests, compilers, the token, packages) is a parameter, with
    what is relied on as a named hypothesis and a concrete instance in the witness.

    ** What the theorems show

    - [Manifest], [Component], [Wasi], [Adapters]: only bytes with the recorded digest are used,
      compiled at most once, behind imports that give nothing of the host, and only qualified
      adapters are resolved.
    - [Pool], [Runtime], [Lifecycle], [Pkcs11Session]: bounds, exclusivity, order, absence of lost
      wake-ups, exactly-once release, bounded retries, what a close waits for and that it is never
      stuck otherwise, for every interleaving; with the interleavings that do break a promise as concrete runs.
    - [Codec]: the duplicate-member scanner agrees with the grammar of JSON, accepted answers are
      well formed, and values, responses and Base64 round-trip.
    - [Config], [Values], [Ini]: precedence of the sources, exact results of merging, the INI round
      trip and the exact set of rejected lines.
    - [Workers], [Jobs]: bounds, order, no overlapping executions, timers owned by live controls.
    - [Native]: the adapter answers requests as the contract says, its validators decide what they
      say, and it is qualified exactly when it replays the recorded answers.
    - [LocalProvider], [Kms]: what is encrypted decrypts and what is signed verifies, given what Web
      Crypto and the services document; a GCP verification is the local one; one adapter is made,
      however calls interleave; every rejection is an error of the module.
    - [Pkcs11Uri], [Cryptoki], [Pkcs11Keys]: URIs, attributes and keys round-trip; no PIN in an
      accepted URI.  [Pkcs11Repository]: keys stay in the token, temporary objects are destroyed,
      references are routed, envelopes are shared with the local provider.  [Ffi]: a C library reads
      the structures as they were meant, every call has the arguments of its signature, searches
      are complete and ended, the PIN is wiped.
    - [Jwt], [Http], [Grpc]: a token is accepted exactly when all its parts are right; a handler
      behind a guard runs only with the claims of a verified token; order of middleware and
      dispatch; the bearer token of a client is the one the server checks; one span per call.
      [Trace], [HttpMiddleware], [HttpClient]: trace contexts are valid on the wire and correlated,
      logging keeps the outcome, JSON bodies round-trip.
    - [Sanitizer], [Formatter], [FileSink], [Logger]: secrets do not reach a line, lines are
      canonical, no line is lost by rotation and files stay within their bounds.
    - [KeyTool], [Scaffold]: PEM texts round-trip, with --out no key is printed, the scaffolder
      writes exactly its templates, and both tools end with the exit code 0 or 1.

    ** Bounds and fuel

    Fuel appears where the source loops on a text or a measure.  [Json.json_parse] and
    [Codec.scan_value] take fuel above the length of the text, and their theorems state that this
    is enough; [JsNumber] bounds its digit loops by the size of the number, and the theorems on
    reading back a printed number state the result; [Pool.pump_loop] gets the number of waiters and
    free places, and [Pool.pool_work_conserving] shows that it never stops early;
    [Config.find_up] walks the parents of a path and its theorem states that it ends;
    [Ffi.find_loop] gets the number of batches of 32, and [Ffi.findObjects_complete] shows that this
    is enough, while a loop followed for fewer batches than it makes is [None], a call that goes on;
    [Trace.randomNonZeroHex] gets a number of draws, and [Trace.newTraceparent_valid]
    that it ends with the first draw that is not all zero.

    ** Not modelled

    Cryptographic primitives, the token's C library, the SDKs of the cloud services, fetch, the
    listener of Deno.serve, grpc-js and the OpenTelemetry packages are code outside the repository:
    parameters.  The development scripts under src/tools that read the
    repository, examples, benchmarks and research are not part of the program's logic and are left
    out, as are re-exports and generated tables.  Of the modelled files: freezing of objects and the
    text of error causes where nothing reads them, [config.all] (a structured clone), the collection
    of a buffer while a foreign call still uses it, the context that OpenTelemetry activates during
    a call, and the order of the microtasks of one turn beyond what the events allow. *)

From stdpp Require Export prelude gmap sets list strings.
From Stdlib Require Export Lia.

(** ** The result monad: a call that returns or throws *)

Inductive res (E A : Type) : Type :=
  | Ok (a : A)
  | Err (e : E).
Arguments Ok {E A} a.
Arguments Err {E A} e.

Definition rbind {E A B} (r : res E A) (k : A → res E B) : res E B :=
  match r with
  | Ok a => k a
  | Err e => Err e
  end.

Declare Scope res_scope.
Delimit Scope res_scope with res.
Notation "'let*' x ':=' r 'in' k" := (rbind r (λ x, k))
  (at level 10, x pattern, r at level 100, k at level 200) : res_scope.
Notation "r ';;*' k" := (rbind r (λ _, k))
  (at level 100, k at level 200, right associativity) : res_scope.
Open Scope res_scope.

(** [throw_if c e] is the guard [if (c) throw e]. *)
Definition throw_if {E} (c : bool) (e : E) : res E unit :=
  if c then Err e else Ok tt.

(** [mapM_res f l] is a loop over [l] that stops at the first throw. *)
Fixpoint mapM_res {E A B} (f : A → res E B) (l : list A) : res E (list B) :=
  match l with
  | [] => Ok []
  | x :: l =>
      let* y := f x in
      let* ys := mapM_res f l in
      Ok (y :: ys)
  end.

Fixpoint foldM_res {E A S} (f : S → A → res E S) (s : S) (l : list A) : res E S :=
  match l with
  | [] => Ok s
  | x :: l => let* s' := f s x in foldM_res f s' l
  end.

Definition is_ok {E A} (r : res E A) : bool :=
  match r with Ok _ => true | Err _ => false end.

Lemma rbind_Ok {E A B} (r : res E A) (k : A → res E B) b :
  rbind r k = Ok b ↔ ∃ a, r = Ok a ∧ k a = Ok b.
Proof. destruct r; simpl; naive_solver. Qed.

Lemma rbind_Err {E A B} (r : res E A) (k : A → res E B) e :
  rbind r k = Err e ↔ r = Err e ∨ ∃ a, r = Ok a ∧ k a = Err e.
Proof. destruct r; simpl; naive_solver. Qed.

Lemma throw_if_Ok {E} c (e : E) u : throw_if c e = Ok u ↔ c = false.
Proof. destruct u, c; simpl; naive_solver. Qed.

Lemma throw_if_Err {E} c (e e' : E) : throw_if c e = Err e' ↔ c = true ∧ e = e'.
Proof. destruct c; simpl; naive_solver. Qed.

Lemma mapM_res_Forall2 {E A B} (f : A → res E B) l l' :
  mapM_res f l = Ok l' ↔ Forall2 (λ x y, f x = Ok y) l l'.
Proof.
  revert l'; induction l as [|x l IH]; intros l'; simpl.
  - split; [intros [= <-]; constructor | by inversion 1].
  - rewrite rbind_Ok. split.
    + intros (y & Hy & H2). apply rbind_Ok in H2 as (ys & Hys & [= <-]).
      constructor; [done | by apply IH].
    + inversion 1 as [|? y ? ys Hy Hys]; subst.
      exists y; split; [done|]. apply rbind_Ok. exists ys.
      split; [by apply IH | done].
Qed.

Lemma mapM_res_length {E A B} (f : A → res E B) l l' :
  mapM_res f l = Ok l' → length l' = length l.
Proof. intros H%mapM_res_Forall2. symmetry. by eapply Forall2_length. Qed.

Lemma mapM_res_id {E A} (f : A → res E A) l :
  Forall (λ x, f x = Ok x) l → mapM_res f l = Ok l.
Proof.
  intros H. apply mapM_res_Forall2. by apply Forall_Forall2_diag.
Qed.

Lemma foldM_res_invariant {E A S} (f : S → A → res E S) (P : S → Prop) l s s' :
  (∀ s x s', x ∈ l → P s → f s x = Ok s' → P s') →
  P s → foldM_res f s l = Ok s' → P s'.
Proof.
  revert s; induction l as [|x l IH]; intros s Hf HP; simpl.
  - by intros [= <-].
  - intros (s1 & H1 & H2)%rbind_Ok. eapply IH, H2.
    + intros ??? ?. apply Hf. by constructor.
    + eapply Hf, H1; [by constructor | done].
Qed.

(** Split every bind, guard and case of an equation [_ = Ok _] in the context. *)
Ltac res_inv :=
  repeat match goal with
  | H : rbind _ _ = Ok _ |- _ => apply rbind_Ok in H as (? & ? & ?)
  | H : throw_if _ _ = Ok _ |- _ => apply throw_if_Ok in H
  | H : Ok _ = Ok _ |- _ => injection H as ?
  | H : Err _ = Err _ |- _ => injection H as ?
  | H : Ok _ = Err _ |- _ => discriminate H
  | H : Err _ = Ok _ |- _ => discriminate H
  | H : (if ?b then _ else _) = Ok _ |- _ => destruct b eqn:?
  | H : (match ?b with _ => _ end) = Ok _ |- _ => destruct b eqn:?
  end.

(** Boolean connectives in the context as propositions. *)
Ltac bool_inv :=
  repeat match goal with
  | H : _ && _ = true |- _ => apply andb_true_iff in H as [? ?]
  | H : _ || _ = false |- _ => apply orb_false_iff in H as [? ?]
  | H : negb _ = true |- _ => apply negb_true_iff in H
  | H : negb _ = false |- _ => apply negb_false_iff in H
  | H : bool_decide _ = true |- _ => apply bool_decide_eq_true in H
  | H : bool_decide _ = false |- _ => apply bool_decide_eq_false in H
  end.

(** ** Step relations: finite executions of a labelled transition function *)

Section runs.
Context {S L : Type} (step : S → L → S → Prop).

Inductive run : S → list L → S → Prop :=
  | run_nil s : run s [] s
  | run_snoc s ls s1 l s2 : run s ls s1 → step s1 l s2 → run s (ls ++ [l]) s2.

Lemma run_invariant (P : S → Prop) s ls s' :
  (∀ s l s', P s → step s l s' → P s') → P s → run s ls s' → P s'.
Proof. intros Hstep Hs Hr. induction Hr; eauto. Qed.
End runs.
#[export] Hint Constructors run : core.

(** The run of a partial transition function on a history. *)
Definition exec {S L} (f : S → L → option S) (s : S) (ls : list L) : option S :=
  foldl (λ o l, s ← o; f s l) (Some s) ls.

Lemma exec_run {S L} (f : S → L → option S) s ls : ∀ s',
  exec f s ls = Some s' → run (λ s l s', f s l = Some s') s ls s'.
Proof.
  induction ls as [|l ls IH] using rev_ind; intros s' H; [injection H as <-; constructor|].
  unfold exec in H. rewrite foldl_snoc in H. apply bind_Some in H as (s1 & H1 & H). econstructor; [by apply IH|done].
Qed.

(** ** Lists *)

(** [drop_first P l] removes the first element satisfying [P]. *)
Fixpoint drop_first {A} (P : A → bool) (l : list A) : list A :=
  match l with
  | [] => []
  | x :: l => if P x then l else x :: drop_first P l
  end.

Lemma drop_first_sublist {A} (P : A → bool) l : drop_first P l `sublist_of` l.
Proof.
  induction l as [|x l IH]; simpl; [done|]. destruct (P x).
  - by apply sublist_cons.
  - by apply sublist_skip.
Qed.

Fixpoint find_first {A} (P : A → bool) (l : list A) : option A :=
  match l with
  | [] => None
  | x :: l => if P x then Some x else find_first P l
  end.

Lemma find_first_Some {A} (P : A → bool) l x :
  find_first P l = Some x → x ∈ l ∧ P x = true.
Proof.
  induction l as [|y l IH]; simpl; [done|]. destruct (P y) eqn:E.
  - intros [= <-]. split; [by constructor | done].
  - intros [? ?]%IH. split; [by constructor | done].
Qed.

Lemma find_first_None {A} (P : A → bool) l :
  find_first P l = None ↔ Forall (λ x, P x = false) l.
Proof.
  induction l as [|y l IH]; simpl; [split; [constructor|done]|].
  destruct (P y) eqn:E; rewrite Forall_cons, ?IH, E; intuition discriminate.
Qed.

Lemma drop_S_app {A} (l k : list A) x : drop (S (length l)) (l ++ x :: k) = k.
Proof. by induction l. Qed.

Lemma Forall_sublist {A} (P : A → Prop) l k : Forall P k → l `sublist_of` k → Forall P l.
Proof. rewrite !Forall_forall. intros H Hs x Hx. by apply H, (elem_of_sublist l). Qed.

Lemma Forall2_impl_in {A B} (P Q : A → B → Prop) l k :
  (∀ x y, x ∈ l → y ∈ k → P x y → Q x y) → Forall2 P l k → Forall2 Q l k.
Proof.
  intros H HF. induction HF as [|x y l k Hxy _ IH]; constructor.
  - apply H; [by left..|done].
  - apply IH. intros x' y' ??. apply H; by right.
Qed.

(** [count P l] is [l.filter(P).length]. *)
Fixpoint count {A} (P : A → bool) (l : list A) : nat :=
  match l with
  | [] => 0
  | x :: l => (if P x then 1 else 0) + count P l
  end.

Lemma count_app {A} (P : A → bool) l k : count P (l ++ k) = count P l + count P k.
Proof. induction l; simpl; lia. Qed.

Lemma count_le {A} (P : A → bool) l : count P l ≤ length l.
Proof. induction l as [|x l IH]; simpl; [done|]. destruct (P x); lia. Qed.

(** Insertion sort for a boolean order: [Array.prototype.sort], which is stable. *)
Section sort.
Context {A : Type} (leb : A → A → bool).

Fixpoint insert_sorted (x : A) (l : list A) : list A :=
  match l with
  | [] => [x]
  | y :: k => if leb x y then x :: l else y :: insert_sorted x k
  end.

Definition sort (l : list A) : list A := foldr insert_sorted [] l.

Lemma insert_sorted_perm x l : insert_sorted x l ≡ₚ x :: l.
Proof.
  induction l as [|y l IH]; simpl; [done|]. destruct (leb x y); [done|].
  rewrite IH. apply Permutation_swap.
Qed.

Lemma sort_perm l : sort l ≡ₚ l.
Proof.
  induction l as [|x l IH]; simpl; [done|]. by rewrite insert_sorted_perm, IH.
Qed.

Lemma elem_of_sort x l : x ∈ sort l ↔ x ∈ l.
Proof. by rewrite sort_perm. Qed.

Lemma length_sort l : length (sort l) = length l.
Proof. by rewrite sort_perm. Qed.
End sort.

Create HintDb forge discriminated.
Lemma drop_first_split {A} (P : A → bool) l x : find_first P l = Some x →
  ∃ l1 l2, l = l1 ++ x :: l2 ∧ drop_first P l = l1 ++ l2 ∧ P x = true.
Proof.
  induction l as [|y l IH]; simpl; [done|]. destruct (P y) eqn:E.
  - intros [= <-]. by exists [], l.
  - intros (l1 & l2 & -> & -> & ?)%IH. by exists (y :: l1), l2.
Qed.

(** The list without the first occurrence of a number. *)
Definition drop_nat (e : nat) (l : list nat) : list nat := drop_first (λ x, x =? e) l.

Lemma drop_nat_perm e l : e ∈ l → l ≡ₚ e :: drop_nat e l.
Proof.
  intros H. destruct (find_first (λ x, x =? e) l) as [x|] eqn:E.
  - unfold drop_nat. apply drop_first_split in E as (l1 & l2 & -> & -> & ->%Nat.eqb_eq).
    symmetry. apply Permutation_middle.
  - apply find_first_None in E. rewrite Forall_forall in E. specialize (E e H). by rewrite Nat.eqb_refl in E.
Qed.

#[export] Hint Resolve sort_perm insert_sorted_perm drop_first_sublist count_le : forge.
