(* ===== verification/Effect.v ===== *)
(** * Operations that throw and change a state

    [eff E S A]: from a state, what the operation returns or throws and the state after it.  The
    state is kept when it throws, as objects are in JavaScript. *)

From S2P Require Export Prelude.

Definition eff (E S A : Type) : Type := S → res E A * S.

Section eff.
Context {E S : Type}.

Definition eret {A} (a : A) : eff E S A := λ s, (Ok a, s).
Definition ethrow {A} (e : E) : eff E S A := λ s, (Err e, s).
Definition elift {A} (r : res E A) : eff E S A := λ s, (r, s).
Definition ebind {A B} (m : eff E S A) (k : A → eff E S B) : eff E S B :=
  λ s, let (r, s') := m s in match r with Ok a => k a s' | Err e => (Err e, s') end.
(** [try { m } catch (e) { k e }]. *)
Definition ecatch {A} (m : eff E S A) (k : E → eff E S A) : eff E S A :=
  λ s, let (r, s') := m s in match r with Ok a => (Ok a, s') | Err e => k e s' end.
(** [try { m } finally { c }]: what [c] throws takes the place of the result. *)
Definition efinally {A} (m : eff E S A) (c : eff E S unit) : eff E S A :=
  λ s, let (r, s1) := m s in let (r', s2) := c s1 in (match r' with Ok _ => r | Err e => Err e end, s2).
Definition emap {A B} (f : A → B) (m : eff E S A) : eff E S B := λ s, let (r, s') := m s in (rbind r (λ a, Ok (f a)), s').
Definition eread {A} (f : S → A) : eff E S A := λ s, (Ok (f s), s).
Definition emodify (f : S → S) : eff E S unit := λ s, (Ok tt, f s).

Lemma ebind_Ok {A B} (m : eff E S A) (k : A → eff E S B) s b s2 :
  ebind m k s = (Ok b, s2) ↔ ∃ a s1, m s = (Ok a, s1) ∧ k a s1 = (Ok b, s2).
Proof. unfold ebind. destruct (m s) as [[a|e] s1]; naive_solver. Qed.

Lemma elift_Ok {A} (r : res E A) (s : S) a s' : elift r s = (Ok a, s') ↔ r = Ok a ∧ s' = s.
Proof. unfold elift. naive_solver. Qed.

Lemma emap_Err {A B} (f : A → B) (m : eff E S A) s e s' : emap f m s = (Err e, s') → m s = (Err e, s').
Proof. unfold emap. destruct (m s) as [[?|?] ?]; simpl; naive_solver. Qed.
End eff.

Notation "'eff*' x ':=' m 'in' k" := (ebind m (λ x, k)) (at level 10, x pattern, m at level 100, k at level 200).
