(* ===== verification/Recorded.v ===== *)
(** * Operations with recorded calls

    The state of a client of injected functions: the calls it made, in order, and the world behind
    them.  [records m Q] says what an operation records and how that goes with its result. *)

From S2P Require Export Effect.
Local Open Scope nat_scope.

Record recorded (E W : Type) := { rc_log : list E; rc_world : W }.
Arguments rc_log {E W}. Arguments rc_world {E W}.

Section recorded.
Context {X E W : Type}.

(** An operation of the world, unrecorded. *)
Definition world {A} (m : eff X W A) : eff X (recorded E W) A :=
  λ s, let (r, w) := m (rc_world s) in (r, {| rc_log := rc_log s; rc_world := w |}).
Definition record (e : E) : eff X (recorded E W) unit := emodify (λ s, {| rc_log := rc_log s ++ [e]; rc_world := rc_world s |}).

(** What an operation records, and how that goes with its result. *)
Definition records {A} (m : eff X (recorded E W) A) (Q : res X A → list E → Prop) : Prop :=
  ∀ s r s', m s = (r, s') → ∃ new, rc_log s' = rc_log s ++ new ∧ Q r new.

Lemma records_ret {A} (a : A) : records (eret a) (λ r new, r = Ok a ∧ new = []).
Proof. intros s r s' [= <- <-]. exists []. by rewrite app_nil_r. Qed.

Lemma records_lift {A} (r : res X A) : records (elift r) (λ r' new, r' = r ∧ new = []).
Proof. intros s r' s' [= <- <-]. exists []. by rewrite app_nil_r. Qed.

Lemma records_world {A} (m : eff X W A) : records (world m) (λ _ new, new = []).
Proof. intros s r s'. unfold world. destruct (m _). intros [= <- <-]. exists []. by rewrite app_nil_r. Qed.

Lemma records_call e : records (record e) (λ r new, r = Ok tt ∧ new = [e]).
Proof. intros s r s' [= <- <-]. by exists [e]. Qed.

Lemma records_bind {A B} (m : eff X (recorded E W) A) (k : A → eff X (recorded E W) B) Q R : records m Q →
  (∀ e new, Q (Err e) new → R (Err e) new) → (∀ a new, Q (Ok a) new → records (k a) (λ r more, R r (new ++ more))) → records (ebind m k) R.
Proof.
  intros Hm He Hk s r s'. unfold ebind. destruct (m s) as [[a|e] s1] eqn:Es; apply Hm in Es as (new & El & Hq).
  - intros H. apply (Hk a new Hq) in H as (more & El' & Hr). exists (new ++ more). by rewrite El', El, app_assoc.
  - intros [= <- <-]. exists new. auto.
Qed.

Lemma records_catch {A} (m : eff X (recorded E W) A) (k : X → eff X (recorded E W) A) Q R : records m Q →
  (∀ a new, Q (Ok a) new → R (Ok a) new) → (∀ e new, Q (Err e) new → records (k e) (λ r more, R r (new ++ more))) → records (ecatch m k) R.
Proof.
  intros Hm Ha Hk s r s'. unfold ecatch. destruct (m s) as [[a|e] s1] eqn:Es; apply Hm in Es as (new & El & Hq).
  - intros [= <- <-]. exists new. auto.
  - intros H. apply (Hk e new Hq) in H as (more & El' & Hr). exists (new ++ more). by rewrite El', El, app_assoc.
Qed.

Lemma records_impl {A} (m : eff X (recorded E W) A) (Q R : res X A → list E → Prop) : records m Q → (∀ r new, Q r new → R r new) → records m R.
Proof. intros Hm HQ s r s' (new & El & Hq)%Hm. eauto. Qed.
End recorded.
