(* ===== verification/Limit.v ===== *)
(** * Limits: the numbers a counter is compared with

    The worker loop and the session pool compare a counter with a number a caller gave, which
    need not be an integer. *)

From S2P Require Export Prelude.
From Stdlib Require Import QArith Qminmax.
Local Open Scope nat_scope.

(** A JavaScript number that is only compared and capped. *)
Inductive num : Type :=
  | NFin (q : Q)
  | NPosInf
  | NNegInf
  | NNan.

(** [n < x] for a counter [n]. *)
Definition below (n : nat) (x : num) : bool :=
  match x with
  | NFin q => negb (Qle_bool q (inject_Z (Z.of_nat n)))
  | NPosInf => true
  | NNegInf | NNan => false
  end.

(** [Math.min(x, 1)]. *)
Definition min_one (x : num) : num :=
  match x with
  | NFin q => NFin (if Qle_bool q 1 then q else 1)
  | NPosInf => NFin 1
  | NNegInf => NNegInf
  | NNan => NNan
  end.

(** [Math.max(x, 1)]. *)
Definition max_one (x : num) : num :=
  match x with
  | NFin q => NFin (if Qle_bool q 1 then 1 else q)
  | NPosInf => NPosInf
  | NNegInf => NFin 1
  | NNan => NNan
  end.

(** [Math.min(x, y)]. *)
Definition limit_min (x y : num) : num :=
  match x, y with
  | NNan, _ | _, NNan => NNan
  | NNegInf, _ | _, NNegInf => NNegInf
  | NPosInf, z | z, NPosInf => z
  | NFin p, NFin q => NFin (if Qle_bool p q then p else q)
  end.

(** [x > 0]. *)
Definition exceeds_zero (x : num) : bool := below 0 x.

Lemma below_min_one n x : below n (min_one x) = true → n = 0 ∧ below n x = true.
Proof.
  destruct x as [q| | |]; simpl; try done.
  - intros H. apply negb_true_iff in H.
    destruct (Qle_bool q 1) eqn:E.
    + split; [|by rewrite H]. destruct n as [|n]; [done|]. exfalso.
      assert (Hq : (q <= inject_Z (Z.of_nat (S n)))%Q).
      { apply Qle_bool_iff in E. eapply Qle_trans; [exact E|]. unfold Qle. simpl. lia. }
      apply Qle_bool_iff in Hq. congruence.
    + assert (Hn : n = 0).
      { destruct n as [|n]; [done|]. exfalso.
        assert (H1 : Qle_bool 1 (inject_Z (Z.of_nat (S n))) = true)
          by (apply Qle_bool_iff; unfold Qle; simpl; lia).
        congruence. }
      split; [done|]. subst. apply negb_true_iff.
      destruct (Qle_bool q (inject_Z (Z.of_nat 0))) eqn:E0; [|done].
      apply Qle_bool_iff in E0.
      assert (H1 : (q <= 1)%Q) by (eapply Qle_trans; [exact E0|]; unfold Qle; simpl; lia).
      apply Qle_bool_iff in H1. congruence.
  - intros H. split; [|done]. destruct n as [|n]; [done|]. exfalso. apply negb_true_iff in H.
    assert (H1 : Qle_bool 1 (inject_Z (Z.of_nat (S n))) = true)
      by (apply Qle_bool_iff; unfold Qle; simpl; lia).
    congruence.
Qed.

Lemma below_mono n m x : below m x = true → n ≤ m → below n x = true.
Proof.
  destruct x as [q| | |]; simpl; try done. rewrite !negb_true_iff, <- !not_true_iff_false, !Qle_bool_iff.
  intros H Hn Hq. apply H. eapply Qle_trans; [exact Hq|]. rewrite <- Zle_Qle. lia.
Qed.

Lemma not_below_mono n m x : below n x = false → n ≤ m → below m x = false.
Proof. intros H Hn. destruct (below m x) eqn:E; [|done]. by rewrite (below_mono n m x) in H. Qed.

(** A limit of at least one lets a first one in. *)
Lemma below_max_one x : x ≠ NNan → below 0 (max_one x) = true.
Proof.
  intros Hx. destruct x as [q| | |]; try done. simpl. destruct (Qle_bool q 1) eqn:E; [done|].
  apply negb_true_iff, not_true_iff_false. rewrite Qle_bool_iff. apply not_true_iff_false in E. rewrite Qle_bool_iff in E.
  intros H. apply E. eapply Qle_trans; [exact H|]. unfold Qle; simpl; lia.
Qed.
