(* ===== verification/JsString.v ===== *)
(** * JavaScript strings

    A JavaScript string is a sequence of 16-bit code units, [jstr].  This file
    gives the [String.prototype] operations the sources call, the default sort
    order, and the UTF-8 coders [TextEncoder] and [TextDecoder]. *)

From S2P Require Export Prelude.
From Stdlib Require Export Ascii NArith ZifyBool ZifyN.
Local Open Scope N_scope.

Notation jstr := (list N).

(** A string literal of the source (all of them are ASCII). *)
Definition js (s : string) : jstr := map N_of_ascii (String.list_ascii_of_string s).

(** ** Characters *)

Definition in_range (lo hi c : N) : bool := (lo <=? c) && (c <=? hi).

Definition is_digit (c : N) : bool := in_range 48 57 c.
Definition is_lower (c : N) : bool := in_range 97 122 c.
Definition is_upper (c : N) : bool := in_range 65 90 c.
Definition is_alnum (c : N) : bool := is_digit c || is_lower c || is_upper c.

(** WhiteSpace and LineTerminator of ECMA-262: what [trim] removes and [\s] matches. *)
Definition is_space (c : N) : bool :=
  in_range 9 13 c || (c =? 32) || (c =? 160) || (c =? 5760) || in_range 8192 8202 c
  || (c =? 8232) || (c =? 8233) || (c =? 8239) || (c =? 8287) || (c =? 12288) || (c =? 65279).

(** [\p{Cc}]: the control characters. *)
Definition is_control (c : N) : bool := in_range 0 31 c || in_range 127 159 c.

Definition is_ascii (s : jstr) : bool := forallb (λ c, c <? 128) s.

Definition ascii_lower (c : N) : N := if is_upper c then c + 32 else c.
Definition ascii_upper (c : N) : N := if is_lower c then c - 32 else c.

(** [toLowerCase] and [toUpperCase] use the Unicode case tables of the engine.
    The sources rely on their ASCII part and on lower-casing being idempotent;
    the rest of the tables is a parameter. *)
Class CaseMapping := {
  toLowerCase : jstr → jstr;
  toUpperCase : jstr → jstr;
  toLowerCase_ascii s : is_ascii s = true → toLowerCase s = map ascii_lower s;
  toUpperCase_ascii s : is_ascii s = true → toUpperCase s = map ascii_upper s;
  toLowerCase_idem s : toLowerCase (toLowerCase s) = toLowerCase s;
}.

Lemma ascii_lower_idem c : ascii_lower (ascii_lower c) = ascii_lower c.
Proof. unfold ascii_lower, is_upper, in_range. repeat case_match; lia. Qed.

(** The tables restricted to ASCII; every other character maps to itself. *)
Program Definition ascii_case : CaseMapping :=
  {| toLowerCase := map ascii_lower; toUpperCase := map ascii_upper |}.
Next Obligation. done. Qed.
Next Obligation. done. Qed.
Next Obligation.
  intros s. rewrite map_map. apply map_ext. intros c. apply ascii_lower_idem.
Qed.

(** ** Searching and slicing *)

Fixpoint trim_start (s : jstr) : jstr :=
  match s with
  | [] => []
  | c :: s' => if is_space c then trim_start s' else s
  end.

Definition trim_end (s : jstr) : jstr := rev (trim_start (rev s)).
Definition trim (s : jstr) : jstr := trim_end (trim_start s).

Fixpoint startsWith (s p : jstr) : bool :=
  match p, s with
  | [], _ => true
  | _, [] => false
  | a :: p, b :: s => (a =? b) && startsWith s p
  end.

Definition endsWith (s p : jstr) : bool := startsWith (rev s) (rev p).

(** [s.indexOf(c)] for a one-character [c]; [None] is [-1]. *)
Fixpoint indexOf (s : jstr) (c : N) : option nat :=
  match s with
  | [] => None
  | x :: s => if x =? c then Some 0%nat else S <$> indexOf s c
  end.

Definition lastIndexOf (s : jstr) (c : N) : option nat :=
  match indexOf (rev s) c with
  | None => None
  | Some i => Some (length s - 1 - i)%nat
  end.

Definition includes_char (s : jstr) (c : N) : bool := bool_decide (c ∈ s).

(** [s.includes(p)]. *)
Fixpoint includes (s p : jstr) : bool :=
  startsWith s p || match s with [] => false | _ :: s => includes s p end.

(** [s.split(c)] for a one-character separator. *)
Fixpoint split_on (c : N) (s : jstr) : list jstr :=
  match s with
  | [] => [[]]
  | x :: s =>
      if x =? c then [] :: split_on c s
      else match split_on c s with
           | [] => [[x]]
           | p :: ps => (x :: p) :: ps
           end
  end.

(** [l.join(sep)]. *)
Fixpoint join (sep : jstr) (l : list jstr) : jstr :=
  match l with
  | [] => []
  | [p] => p
  | p :: l => p ++ sep ++ join sep l
  end.

(** [s.slice(i, j)] for non-negative indices. *)
Definition slice (s : jstr) (i j : nat) : jstr := take (j - i) (drop i s).

(** The default order of [Array.prototype.sort]: by UTF-16 code units. *)
Fixpoint jstr_leb (s t : jstr) : bool :=
  match s, t with
  | [], _ => true
  | _, [] => false
  | a :: s, b :: t => if a =? b then jstr_leb s t else a <? b
  end.

Definition sort_strings (l : list jstr) : list jstr := sort jstr_leb l.

(** ** Number formatting in base 16 *)

Definition hex_digit (upper : bool) (n : N) : N :=
  if n <? 10 then 48 + n else (if upper then 55 else 87) + n.

(** [byte.toString(16).padStart(2, "0")]. *)
Definition hex_byte (upper : bool) (b : N) : jstr :=
  [hex_digit upper (b / 16); hex_digit upper (b mod 16)].

Definition is_hex (c : N) : bool := is_digit c || in_range 97 102 c || in_range 65 70 c.

Definition hex_value (c : N) : N :=
  if is_digit c then c - 48 else if in_range 97 102 c then c - 87 else c - 55.

(** ** Unicode *)

Definition is_high (c : N) : bool := in_range 55296 56319 c.
Definition is_low (c : N) : bool := in_range 56320 57343 c.
Definition is_surrogate (c : N) : bool := in_range 55296 57343 c.

(** Scalar values of a string; a lone surrogate becomes U+FFFD ([USVString]). *)
Fixpoint scalars (s : jstr) : list N :=
  match s with
  | [] => []
  | c :: s' =>
      if is_high c then
        match s' with
        | d :: s'' =>
            if is_low d then (65536 + (c - 55296) * 1024 + (d - 56320)) :: scalars s''
            else 65533 :: scalars s'
        | [] => [65533]
        end
      else if is_low c then 65533 :: scalars s' else c :: scalars s'
  end.

Definition utf16_of_scalar (c : N) : jstr :=
  if c <? 65536 then [c]
  else [55296 + (c - 65536) / 1024; 56320 + (c - 65536) mod 1024].

Definition utf8_of_scalar (c : N) : list N :=
  if c <? 128 then [c]
  else if c <? 2048 then [192 + c / 64; 128 + c mod 64]
  else if c <? 65536 then [224 + c / 4096; 128 + (c / 64) mod 64; 128 + c mod 64]
  else [240 + c / 262144; 128 + (c / 4096) mod 64; 128 + (c / 64) mod 64; 128 + c mod 64].

(** [new TextEncoder().encode(s)]. *)
Definition utf8_encode (s : jstr) : list N := flat_map utf8_of_scalar (scalars s).

(** The WHATWG UTF-8 decoder: how many continuation bytes are still needed, the
    bits read so far, and the range the next byte must lie in. *)
Record utf8_state := Utf8 { u_needed : nat; u_cp : N; u_lower : N; u_upper : N }.

Definition utf8_init : utf8_state := Utf8 0 0 128 191.

(** A byte read with no continuation pending; [None] is a decoding error. *)
Definition utf8_start (b : N) : list (option N) * utf8_state :=
  if b <? 128 then ([Some b], utf8_init)
  else if in_range 194 223 b then ([], Utf8 1 (b - 192) 128 191)
  else if in_range 224 239 b then
    ([], Utf8 2 (b - 224) (if b =? 224 then 160 else 128) (if b =? 237 then 159 else 191))
  else if in_range 240 244 b then
    ([], Utf8 3 (b - 240) (if b =? 240 then 144 else 128) (if b =? 244 then 143 else 191))
  else ([None], utf8_init).

Definition utf8_next (st : utf8_state) (b : N) : list (option N) * utf8_state :=
  match u_needed st with
  | 0%nat => utf8_start b
  | S n =>
      if in_range (u_lower st) (u_upper st) b then
        let cp := u_cp st * 64 + (b - 128) in
        match n with
        | 0%nat => ([Some cp], utf8_init)
        | _ => ([], Utf8 n cp 128 191)
        end
      else let '(out, st') := utf8_start b in (None :: out, st')
  end.

Fixpoint utf8_run (st : utf8_state) (bs : list N) : list (option N) :=
  match bs with
  | [] => match u_needed st with 0%nat => [] | _ => [None] end
  | b :: bs => let '(out, st') := utf8_next st b in out ++ utf8_run st' bs
  end.

Definition strip_bom (bs : list N) : list N :=
  match bs with
  | 239 :: 187 :: 191 :: bs' => bs'
  | _ => bs
  end.

(** [new TextDecoder().decode(bs)]: errors become U+FFFD. *)
Definition utf8_decode (bs : list N) : jstr :=
  flat_map (λ o, utf16_of_scalar (default 65533 o)) (utf8_run utf8_init (strip_bom bs)).

(** [new TextDecoder("utf-8", { fatal: true }).decode(bs)]. *)
Definition utf8_decode_fatal (bs : list N) : option jstr :=
  flat_map utf16_of_scalar <$> mapM id (utf8_run utf8_init (strip_bom bs)).

(** ** Laws *)

Lemma startsWith_prefix s p : startsWith s p = true ↔ p `prefix_of` s.
Proof.
  revert s; induction p as [|a p IH]; intros [|b s]; simpl.
  - split; [intros; by apply prefix_nil | done].
  - split; [intros; by apply prefix_nil | done].
  - split; [done | by intros ?%prefix_nil_not].
  - rewrite andb_true_iff, N.eqb_eq, IH. split.
    + intros [-> ?]. by apply prefix_cons.
    + intros H. split; [by eapply prefix_cons_inv_1 | by eapply prefix_cons_inv_2].
Qed.

Lemma startsWith_app p s : startsWith (p ++ s) p = true.
Proof. apply startsWith_prefix. by exists s. Qed.

Lemma indexOf_Some s c i :
  indexOf s c = Some i → s = take i s ++ c :: drop (S i) s ∧ c ∉ take i s.
Proof.
  revert i; induction s as [|x s IH]; intros i; simpl; [done|].
  destruct (x =? c) eqn:E.
  - intros [= <-]. apply N.eqb_eq in E as ->. simpl. split; [done | set_solver].
  - intros (j & Hj & ->)%fmap_Some. apply IH in Hj as [Hs Hn]. simpl. split.
    + by f_equal.
    + apply N.eqb_neq in E. set_solver.
Qed.

Lemma indexOf_None s c : indexOf s c = None ↔ c ∉ s.
Proof.
  induction s as [|x s IH]; simpl; [set_solver|].
  destruct (x =? c) eqn:E.
  - apply N.eqb_eq in E as ->. split; [done | set_solver].
  - apply N.eqb_neq in E. rewrite fmap_None, IH, not_elem_of_cons. naive_solver.
Qed.

Lemma indexOf_app s c t : c ∉ s → indexOf (s ++ c :: t) c = Some (length s).
Proof.
  induction s as [|x s IH]; simpl; intros H; [by rewrite N.eqb_refl|].
  apply not_elem_of_cons in H as [Hne Hs].
  destruct (x =? c) eqn:E; [apply N.eqb_eq in E; congruence|]. by rewrite IH.
Qed.

Lemma split_on_ne c s : split_on c s ≠ [].
Proof. destruct s as [|x s]; simpl; [done|]. repeat case_match; done. Qed.

Lemma split_on_no_sep c s : Forall (λ p, c ∉ p) (split_on c s).
Proof.
  induction s as [|x s IH]; simpl; [constructor; [set_solver | done]|].
  destruct (x =? c) eqn:E; [constructor; [set_solver | done]|].
  apply N.eqb_neq in E.
  destruct (split_on c s) as [|p ps]; [constructor; set_solver|].
  inversion IH; subst. constructor; [set_solver | done].
Qed.

Lemma split_on_plain c s : c ∉ s → split_on c s = [s].
Proof.
  induction s as [|x s IH]; simpl; intros H; [done|].
  apply not_elem_of_cons in H as [Hne Hs]. rewrite IH by done.
  destruct (x =? c) eqn:E; [apply N.eqb_eq in E; congruence | done].
Qed.

Lemma split_on_app c p s : c ∉ p → split_on c (p ++ c :: s) = p :: split_on c s.
Proof.
  induction p as [|x p IH]; simpl; intros H; [by rewrite N.eqb_refl|].
  apply not_elem_of_cons in H as [Hne Hs]. rewrite IH by done.
  destruct (x =? c) eqn:E; [apply N.eqb_eq in E; congruence | done].
Qed.

Lemma split_on_join c l :
  l ≠ [] → Forall (λ p, c ∉ p) l → split_on c (join [c] l) = l.
Proof.
  induction l as [|p l IH]; [done|]. intros _ [Hp Hl]%Forall_cons.
  destruct l as [|q l]; [by apply split_on_plain|].
  change (join [c] (p :: q :: l)) with (p ++ c :: join [c] (q :: l)).
  rewrite split_on_app by done. by rewrite IH.
Qed.

Lemma join_split_on c s : join [c] (split_on c s) = s.
Proof.
  induction s as [|x s IH]; [done|]. simpl.
  pose proof (split_on_ne c s) as Hne.
  destruct (x =? c) eqn:E.
  - apply N.eqb_eq in E as ->. destruct (split_on c s); [done|]. simpl in *. by rewrite IH.
  - destruct (split_on c s) as [|p ps]; [done|]. simpl in *. destruct ps; simpl in *; by rewrite IH.
Qed.

Lemma trim_start_suffix s : trim_start s `suffix_of` s.
Proof.
  induction s as [|c s IH]; simpl; [done|]. destruct (is_space c); [|done].
  by apply suffix_cons_r.
Qed.

Lemma trim_start_head s c t : trim_start s = c :: t → is_space c = false.
Proof.
  induction s as [|x s IH]; simpl; [done|]. destruct (is_space x) eqn:E; [done|].
  by intros [= -> ->].
Qed.

Lemma trim_start_fix s : (∀ c t, s = c :: t → is_space c = false) → trim_start s = s.
Proof. destruct s as [|c s]; simpl; [done|]. intros H. by rewrite (H c s). Qed.

Lemma trim_start_idem s : trim_start (trim_start s) = trim_start s.
Proof. apply trim_start_fix, trim_start_head. Qed.

Lemma trim_start_split s : ∃ w, s = w ++ trim_start s ∧ Forall (λ c, is_space c = true) w.
Proof.
  induction s as [|c s IH]; simpl; [by exists []|].
  destruct (is_space c) eqn:E; [|by exists []].
  destruct IH as (w & Hs & Hw). exists (c :: w). simpl. split; [by f_equal | by constructor].
Qed.

Lemma trim_start_app s t : trim_start s ≠ [] → trim_start (s ++ t) = trim_start s ++ t.
Proof.
  induction s as [|c s IH]; simpl; [done|]. destruct (is_space c); [done|done].
Qed.

Lemma trim_end_split s : ∃ w, s = trim_end s ++ w ∧ Forall (λ c, is_space c = true) w.
Proof.
  destruct (trim_start_split (rev s)) as (w & Hs & Hw). exists (rev w). split.
  - unfold trim_end. rewrite <- rev_app_distr, <- Hs. by rewrite rev_involutive.
  - by apply Forall_rev.
Qed.

Lemma trim_end_idem s : trim_end (trim_end s) = trim_end s.
Proof. unfold trim_end. by rewrite rev_involutive, trim_start_idem. Qed.

Lemma trim_start_end s : trim_start s = s → trim_start (trim_end s) = trim_end s.
Proof.
  intros H. apply trim_start_fix. intros c t E.
  destruct (trim_end_split s) as (w & Hs & _). rewrite E in Hs.
  apply (trim_start_head s c (t ++ w)). by rewrite H.
Qed.

Lemma trim_idem s : trim (trim s) = trim s.
Proof.
  unfold trim. rewrite (trim_start_end (trim_start s)) by apply trim_start_idem.
  apply trim_end_idem.
Qed.

(** A string with no space at either end is its own trim. *)
Lemma trim_fix s :
  (∀ c t, s = c :: t → is_space c = false) →
  (∀ c t, s = t ++ [c] → is_space c = false) → trim s = s.
Proof.
  intros Hh Ht. unfold trim. rewrite (trim_start_fix s) by done.
  unfold trim_end. rewrite trim_start_fix; [by rewrite rev_involutive|].
  intros c t E. apply (Ht c (rev t)). rewrite <- (rev_involutive s), E. done.
Qed.

Lemma trim_no_space s : Forall (λ c, is_space c = false) s → trim s = s.
Proof.
  intros H. apply trim_fix.
  - intros c t ->. by inversion H.
  - intros c t ->. apply Forall_app in H as [_ H]. by inversion H.
Qed.

Lemma jstr_leb_refl s : jstr_leb s s = true.
Proof. induction s; simpl; [done|]. by rewrite N.eqb_refl. Qed.

Lemma jstr_leb_total s t : jstr_leb s t = true ∨ jstr_leb t s = true.
Proof.
  revert t; induction s as [|a s IH]; intros [|b t]; simpl; auto.
  rewrite (N.eqb_sym b a). destruct (a =? b) eqn:E; [apply IH | lia].
Qed.

Lemma jstr_leb_antisym s t : jstr_leb s t = true → jstr_leb t s = true → s = t.
Proof.
  revert t; induction s as [|a s IH]; intros [|b t]; simpl; auto; try done.
  rewrite (N.eqb_sym b a). destruct (a =? b) eqn:E; [|lia].
  intros. apply N.eqb_eq in E as ->. f_equal. by apply IH.
Qed.

Lemma jstr_leb_trans s t u :
  jstr_leb s t = true → jstr_leb t u = true → jstr_leb s u = true.
Proof.
  revert t u; induction s as [|a s IH]; intros [|b t] [|c u]; simpl; try done.
  destruct (a =? b) eqn:E1; destruct (b =? c) eqn:E2; destruct (a =? c) eqn:E3; try lia.
  apply IH.
Qed.

(** ** Hexadecimal bytes *)

Lemma hex_byte_value up b : b < 256 →
  is_hex (hex_digit up (b / 16)) = true ∧ is_hex (hex_digit up (b mod 16)) = true ∧
  hex_value (hex_digit up (b / 16)) * 16 + hex_value (hex_digit up (b mod 16)) = b.
Proof.
  intros Hb.
  assert (H1 : b / 16 < 16) by (apply N.Div0.div_lt_upper_bound; lia).
  assert (H2 : b mod 16 < 16) by (apply N.mod_lt; lia).
  pose proof (N.div_mod b 16 ltac:(lia)) as H3.
  revert H1 H2 H3. generalize (b / 16) (b mod 16). intros x y ? ? ?.
  unfold is_hex, hex_value, hex_digit, is_digit, in_range.
  destruct up; repeat case_match; lia.
Qed.

(** ** UTF-8 *)

Definition is_scalar (c : N) : bool := (c <? 1114112) && negb (is_surrogate c).

(** Resolve the guards of an [if] by arithmetic. *)
Ltac decide_ifs :=
  repeat match goal with
  | |- context [if ?b then _ else _] =>
      first [ replace b with true by (unfold in_range; lia)
            | replace b with false by (unfold in_range; lia) ]
  end.

Lemma utf8_run_1 b bs : b < 128 →
  utf8_run utf8_init (b :: bs) = Some b :: utf8_run utf8_init bs.
Proof. intros. simpl. unfold utf8_next, utf8_start; simpl. by decide_ifs. Qed.

Lemma utf8_run_2 x y bs : 2 <= x < 32 → y < 64 →
  utf8_run utf8_init (192 + x :: 128 + y :: bs) = Some (x * 64 + y) :: utf8_run utf8_init bs.
Proof.
  intros. simpl. unfold utf8_next at 1, utf8_start; simpl. decide_ifs.
  unfold utf8_next; simpl. decide_ifs. simpl. do 2 f_equal; lia.
Qed.

Lemma utf8_run_3 x y z bs : x < 16 → y < 64 → z < 64 →
  (x = 0 → 32 <= y) → (x = 13 → y < 32) →
  utf8_run utf8_init (224 + x :: 128 + y :: 128 + z :: bs)
  = Some ((x * 64 + y) * 64 + z) :: utf8_run utf8_init bs.
Proof.
  intros. simpl. unfold utf8_next at 1, utf8_start; simpl. decide_ifs.
  unfold utf8_next at 1; simpl.
  replace (in_range _ _ (128 + y)) with true by (unfold in_range; repeat case_match; lia).
  unfold utf8_next; simpl. decide_ifs. simpl. do 2 f_equal; lia.
Qed.

Lemma utf8_run_4 x y z w bs : x <= 4 → y < 64 → z < 64 → w < 64 →
  (x = 0 → 16 <= y) → (x = 4 → y < 16) →
  utf8_run utf8_init (240 + x :: 128 + y :: 128 + z :: 128 + w :: bs)
  = Some (((x * 64 + y) * 64 + z) * 64 + w) :: utf8_run utf8_init bs.
Proof.
  intros. simpl. unfold utf8_next at 1, utf8_start; simpl. decide_ifs.
  unfold utf8_next at 1; simpl.
  replace (in_range _ _ (128 + y)) with true by (unfold in_range; repeat case_match; lia).
  unfold utf8_next at 1; simpl. decide_ifs.
  unfold utf8_next; simpl. decide_ifs. simpl. do 2 f_equal; lia.
Qed.

Lemma utf8_run_scalar c bs : is_scalar c = true →
  utf8_run utf8_init (utf8_of_scalar c ++ bs) = Some c :: utf8_run utf8_init bs.
Proof.
  unfold is_scalar, is_surrogate, utf8_of_scalar, in_range. intros Hc.
  pose proof (N.div_mod c 64 ltac:(lia)) as E1.
  pose proof (N.mod_lt c 64 ltac:(lia)) as L1.
  pose proof (N.div_mod (c / 64) 64 ltac:(lia)) as E2.
  pose proof (N.mod_lt (c / 64) 64 ltac:(lia)) as L2.
  pose proof (N.div_mod (c / 4096) 64 ltac:(lia)) as E3.
  pose proof (N.mod_lt (c / 4096) 64 ltac:(lia)) as L3.
  replace (c / 64 / 64) with (c / 4096) in E2 by (rewrite N.Div0.div_div; done).
  replace (c / 4096 / 64) with (c / 262144) in E3 by (rewrite N.Div0.div_div; done).
  revert E1 L1 E2 L2 E3 L3.
  generalize (c / 64) (c mod 64) ((c / 64) mod 64) (c / 4096) ((c / 4096) mod 64) (c / 262144).
  intros q1 r1 r2 q2 r3 q3 E1 L1 E2 L2 E3 L3.
  destruct (c <? 128) eqn:H1; [|destruct (c <? 2048) eqn:H2; [|destruct (c <? 65536) eqn:H3]];
    cbn [app].
  - by rewrite utf8_run_1 by lia.
  - rewrite utf8_run_2 by lia. do 2 f_equal; lia.
  - rewrite utf8_run_3 by lia. do 2 f_equal; lia.
  - rewrite utf8_run_4 by lia. do 2 f_equal; lia.
Qed.

Lemma utf8_run_scalars cs : Forall (λ c, is_scalar c = true) cs →
  utf8_run utf8_init (flat_map utf8_of_scalar cs) = map Some cs.
Proof.
  induction 1 as [|c cs Hc _ IH]; simpl; [done|]. by rewrite utf8_run_scalar, IH.
Qed.

(** A string whose code units are 16 bits wide and whose surrogates are paired. *)
Fixpoint well_formed (s : jstr) : bool :=
  match s with
  | [] => true
  | c :: s' =>
      (c <? 65536) &&
      if is_high c then
        match s' with
        | d :: s'' => is_low d && well_formed s''
        | [] => false
        end
      else negb (is_low c) && well_formed s'
  end.

(** Induction over the code points of a well-formed string. *)
Lemma well_formed_ind (P : jstr → Prop) :
  P [] →
  (∀ c s, c < 65536 → is_surrogate c = false → well_formed s = true → P s → P (c :: s)) →
  (∀ c d s, is_high c = true → is_low d = true → well_formed s = true → P s → P (c :: d :: s)) →
  ∀ s, well_formed s = true → P s.
Proof.
  intros Hn H1 H2 s. remember (length s) as n eqn:En. revert s En.
  induction (Nat.lt_wf_0 n) as [n _ IH]. intros s En Hs.
  destruct s as [|c s]; [done|]. simpl in Hs. apply andb_true_iff in Hs as [Hc Hs].
  destruct (is_high c) eqn:Eh.
  - destruct s as [|d s]; [done|]. apply andb_true_iff in Hs as [Hd Hs].
    apply H2; [done..|]. eapply IH; [|done|done]. simpl in *; lia.
  - apply andb_true_iff in Hs as [Hl Hs]. apply H1; [lia| |done|].
    + revert Eh Hl. unfold is_high, is_low, is_surrogate, in_range. lia.
    + eapply IH; [|done|done]. simpl in *; lia.
Qed.

Lemma scalars_wf s : well_formed s = true → Forall (λ c, is_scalar c = true) (scalars s).
Proof.
  revert s. apply well_formed_ind; simpl.
  - constructor.
  - intros c s Hc Hs _ IH.
    replace (is_high c) with false by (unfold is_surrogate, is_high, in_range in *; lia).
    replace (is_low c) with false by (unfold is_surrogate, is_low, in_range in *; lia).
    constructor; [unfold is_scalar; lia | done].
  - intros c d s Hc Hd _ IH. rewrite Hc, Hd. constructor; [|done].
    unfold is_scalar, is_surrogate, is_high, is_low, in_range in *. lia.
Qed.

Lemma utf16_scalars s : well_formed s = true → flat_map utf16_of_scalar (scalars s) = s.
Proof.
  revert s. apply well_formed_ind; simpl.
  - done.
  - intros c s Hc Hs _ IH.
    replace (is_high c) with false by (unfold is_surrogate, is_high, in_range in *; lia).
    replace (is_low c) with false by (unfold is_surrogate, is_low, in_range in *; lia).
    simpl. rewrite IH. unfold utf16_of_scalar. case_match; [done | lia].
  - intros c d s Hc Hd _ IH. rewrite Hc, Hd. simpl. rewrite IH.
    unfold utf16_of_scalar, is_high, is_low, in_range in *. case_match; [lia|].
    replace (65536 + (c - 55296) * 1024 + (d - 56320) - 65536)
      with ((d - 56320) + (c - 55296) * 1024) by lia.
    rewrite N.div_add, N.Div0.mod_add, N.div_small, N.mod_small by lia.
    simpl. f_equal; [lia|]. f_equal. lia.
Qed.

(** [TextEncoder] and [TextDecoder] are inverse on well-formed strings, up to the
    byte-order mark the decoder drops. *)
Lemma utf8_roundtrip s : well_formed s = true →
  strip_bom (utf8_encode s) = utf8_encode s →
  utf8_decode (utf8_encode s) = s ∧ utf8_decode_fatal (utf8_encode s) = Some s.
Proof.
  intros Hs Hb. unfold utf8_decode, utf8_decode_fatal. rewrite Hb.
  unfold utf8_encode. rewrite utf8_run_scalars by by apply scalars_wf. split.
  - rewrite flat_map_concat_map, map_map. simpl.
    rewrite <- flat_map_concat_map. by apply utf16_scalars.
  - replace (mapM id (map Some (scalars s))) with (Some (scalars s)).
    + simpl. by rewrite utf16_scalars.
    + induction (scalars s) as [|c cs IH]; simpl; [done|]. by rewrite <- IH.
Qed.

Lemma is_ascii_well_formed s : is_ascii s = true → well_formed s = true ∧ utf8_encode s = s.
Proof.
  unfold is_ascii, utf8_encode. induction s as [|c s IH]; simpl; [done|].
  intros [Hc Hs]%andb_true_iff. destruct (IH Hs) as [Hw He].
  replace (is_high c) with false by (unfold is_high, in_range; lia).
  replace (is_low c) with false by (unfold is_low, in_range; lia). split.
  - rewrite Hw. lia.
  - simpl. rewrite He. unfold utf8_of_scalar. by rewrite Hc.
Qed.

Lemma is_ascii_Forall s : is_ascii s = true ↔ Forall (λ c, (c < 128)%N) s.
Proof.
  unfold is_ascii. rewrite forallb_forall, Forall_forall.
  setoid_rewrite list_elem_of_In. setoid_rewrite N.ltb_lt. done.
Qed.

Lemma utf8_of_scalar_bytes c : is_scalar c = true → Forall (λ b, b < 256)%N (utf8_of_scalar c).
Proof.
  unfold is_scalar. intros [Hc%N.ltb_lt _]%andb_true_iff. unfold utf8_of_scalar.
  pose proof (N.mod_lt c 64 ltac:(lia)). pose proof (N.mod_lt (c / 64) 64 ltac:(lia)).
  pose proof (N.mod_lt (c / 4096) 64 ltac:(lia)).
  pose proof (N.Div0.div_lt_upper_bound c 262144 5 ltac:(lia)).
  destruct (N.ltb_spec c 128); [repeat constructor; lia|].
  destruct (N.ltb_spec c 2048).
  { pose proof (N.Div0.div_lt_upper_bound c 64 32 ltac:(lia)). repeat constructor; lia. }
  destruct (N.ltb_spec c 65536).
  { pose proof (N.Div0.div_lt_upper_bound c 4096 16 ltac:(lia)). repeat constructor; lia. }
  repeat constructor; lia.
Qed.

Lemma utf8_encode_bytes s : well_formed s = true → Forall (λ b, b < 256)%N (utf8_encode s).
Proof.
  intros H%scalars_wf. unfold utf8_encode. induction H as [|c cs Hc _ IH]; [constructor|].
  simpl. apply Forall_app. split; [by apply utf8_of_scalar_bytes|done].
Qed.

Lemma well_formed_app s t : well_formed s = true → well_formed t = true → well_formed (s ++ t) = true.
Proof.
  intros Hs Ht. revert s Hs. apply well_formed_ind; [done| |].
  - intros c s Hc Hsur _ IH. simpl. unfold is_surrogate, is_high, is_low, in_range in *.
    replace ((55296 <=? c) && (c <=? 56319)) with false by lia. rewrite IH. lia.
  - intros c d s Hc Hd _ IH. simpl. rewrite Hc, Hd, IH. unfold is_high, in_range in Hc. lia.
Qed.

#[export] Hint Resolve startsWith_app split_on_ne trim_idem jstr_leb_refl : forge.
