(* ===== verification/Regex.v ===== *)
(** * Regular expressions

    The sources validate names, versions and digests with anchored patterns
    [/^...$/].  A pattern is a value of [regex], [matches] decides it by
    Brzozowski derivatives, and [matches_lang] states that the decision agrees
    with the language of the pattern. *)

From S2P Require Export JsString.

Inductive regex : Type :=
  | RVoid
  | REps
  | RClass (p : N → bool)
  | RAlt (r s : regex)
  | RCat (r s : regex)
  | RStar (r : regex).

Declare Scope regex_scope.
Delimit Scope regex_scope with re.
Bind Scope regex_scope with regex.
Infix "⊕" := RAlt (at level 50, left associativity) : regex_scope.
Infix "⋅" := RCat (at level 45, right associativity) : regex_scope.
Notation "r ^*" := (RStar r) (at level 30, format "r ^*") : regex_scope.
Open Scope regex_scope.

Definition RChar (c : N) : regex := RClass (N.eqb c).

(** A literal part of a pattern. *)
Definition RLit (s : string) : regex := foldr (λ c r, RChar c ⋅ r) REps (js s).

Definition RPlus (r : regex) : regex := r ⋅ r^*.
Definition ROpt (r : regex) : regex := r ⊕ REps.
Definition RRep (n : nat) (r : regex) : regex := Nat.iter n (RCat r) REps.

(** A character class [[...]] that lists its characters. *)
Definition ROneOf (s : string) : regex := RClass (λ c, bool_decide (c ∈ js s)).

Fixpoint nullable (r : regex) : bool :=
  match r with
  | RVoid => false
  | REps => true
  | RClass _ => false
  | RAlt r s => nullable r || nullable s
  | RCat r s => nullable r && nullable s
  | RStar _ => true
  end.

(** Smart constructors keep derivatives small. *)
Definition alt (r s : regex) : regex :=
  match r, s with RVoid, _ => s | _, RVoid => r | _, _ => RAlt r s end.
Definition cat (r s : regex) : regex :=
  match r, s with RVoid, _ => RVoid | REps, _ => s | _, _ => RCat r s end.

Fixpoint deriv (c : N) (r : regex) : regex :=
  match r with
  | RVoid | REps => RVoid
  | RClass p => if p c then REps else RVoid
  | RAlt r s => alt (deriv c r) (deriv c s)
  | RCat r s =>
      if nullable r then alt (cat (deriv c r) s) (deriv c s) else cat (deriv c r) s
  | RStar r' => cat (deriv c r') (RStar r')
  end.

(** [new RegExp("^" + r + "$").test(s)]. *)
Fixpoint matches (r : regex) (s : jstr) : bool :=
  match s with
  | [] => nullable r
  | c :: s => matches (deriv c r) s
  end.

(** ** The language of a pattern *)

Inductive lang : regex → jstr → Prop :=
  | L_eps : lang REps []
  | L_class p c : p c = true → lang (RClass p) [c]
  | L_alt_l r s w : lang r w → lang (RAlt r s) w
  | L_alt_r r s w : lang s w → lang (RAlt r s) w
  | L_cat r s u v : lang r u → lang s v → lang (RCat r s) (u ++ v)
  | L_star_nil r : lang (RStar r) []
  | L_star_app r u v : u ≠ [] → lang r u → lang (RStar r) v → lang (RStar r) (u ++ v).
#[export] Hint Constructors lang : forge.

Lemma lang_void w : lang RVoid w ↔ False.
Proof. split; [by inversion 1 | done]. Qed.

Lemma lang_eps_inv w : lang REps w ↔ w = [].
Proof. split; [by inversion 1 | intros ->; constructor]. Qed.

Lemma lang_class p w : lang (RClass p) w ↔ ∃ c, w = [c] ∧ p c = true.
Proof. split; [inversion 1; eauto | intros (c & -> & ?); by constructor]. Qed.

Lemma lang_alt r s w : lang (RAlt r s) w ↔ lang r w ∨ lang s w.
Proof. split; [inversion 1; auto | intros [?|?]; auto with forge]. Qed.

Lemma lang_cat r s w : lang (RCat r s) w ↔ ∃ u v, w = u ++ v ∧ lang r u ∧ lang s v.
Proof. split; [inversion 1; eauto | intros (u & v & -> & ? & ?); by constructor]. Qed.

Lemma lang_star_cons r c w :
  lang (RStar r) (c :: w) ↔ ∃ u v, w = u ++ v ∧ lang r (c :: u) ∧ lang (RStar r) v.
Proof.
  split.
  - inversion 1 as [| | | | | |? u v Hne Hu Hv E]; subst. destruct u as [|d u]; [done|].
    simplify_eq/=. eauto.
  - intros (u & v & -> & Hu & Hv). rewrite app_comm_cons. by constructor.
Qed.

Lemma nullable_lang r : nullable r = true ↔ lang r [].
Proof.
  induction r as [| |p|r1 IH1 r2 IH2|r1 IH1 r2 IH2|r IH]; simpl.
  - rewrite lang_void. done.
  - rewrite lang_eps_inv. done.
  - rewrite lang_class. split; [done | intros (c & ? & _); done].
  - rewrite orb_true_iff, lang_alt, IH1, IH2. done.
  - rewrite andb_true_iff, lang_cat, IH1, IH2. split.
    + intros [? ?]. exists [], []. done.
    + intros (u & v & E & ? & ?). by destruct u, v.
  - split; [constructor | done].
Qed.

Lemma lang_alt_smart r s w : lang (alt r s) w ↔ lang r w ∨ lang s w.
Proof.
  destruct r, s; simpl; rewrite ?lang_alt, ?lang_void; tauto.
Qed.

Lemma lang_cat_smart r s w : lang (cat r s) w ↔ ∃ u v, w = u ++ v ∧ lang r u ∧ lang s v.
Proof.
  destruct r; simpl; rewrite ?lang_cat; try done.
  - rewrite lang_void. split; [done | intros (u & v & _ & H & _); by apply lang_void in H].
  - split.
    + intros H. exists [], w. split; [done | split; [constructor | done]].
    + intros (u & v & -> & H & ?). by apply lang_eps_inv in H as ->.
Qed.

Lemma deriv_lang c r w : lang (deriv c r) w ↔ lang r (c :: w).
Proof.
  revert w; induction r as [| |p|r1 IH1 r2 IH2|r1 IH1 r2 IH2|r IH]; intros w; simpl.
  - by rewrite !lang_void.
  - rewrite lang_void, lang_eps_inv. done.
  - rewrite lang_class. destruct (p c) eqn:E.
    + rewrite lang_eps_inv. split; [intros ->; eauto | by intros (d & [= _ ->] & _)].
    + rewrite lang_void. split; [done | intros (d & [= -> ->] & ?); congruence].
  - by rewrite lang_alt_smart, lang_alt, IH1, IH2.
  - assert (Hc : lang (cat (deriv c r1) r2) w ↔
                 ∃ u v, w = u ++ v ∧ lang r1 (c :: u) ∧ lang r2 v).
    { rewrite lang_cat_smart. by setoid_rewrite IH1. }
    rewrite lang_cat. destruct (nullable r1) eqn:En.
    + rewrite lang_alt_smart, Hc, IH2. apply nullable_lang in En. split.
      * intros [(u & v & -> & ? & ?)|?]; [exists (c :: u), v | exists [], (c :: w)]; done.
      * intros ([|d u] & v & E & ? & ?); simplify_eq/=; eauto 10.
    + rewrite Hc. split.
      * intros (u & v & -> & ? & ?). by exists (c :: u), v.
      * intros ([|d u] & v & E & Hu & ?); simplify_eq/=; [|eauto].
        apply nullable_lang in Hu. congruence.
  - rewrite lang_cat_smart, lang_star_cons. by setoid_rewrite IH.
Qed.

(** The matcher decides the language of the pattern. *)
Lemma matches_lang r s : matches r s = true ↔ lang r s.
Proof.
  revert r; induction s as [|c s IH]; intros r; simpl; [apply nullable_lang|].
  by rewrite IH, deriv_lang.
Qed.

(** ** The characters a pattern admits *)

Fixpoint alphabet (r : regex) (c : N) : bool :=
  match r with
  | RVoid | REps => false
  | RClass p => p c
  | RAlt r s | RCat r s => alphabet r c || alphabet s c
  | RStar r => alphabet r c
  end.

Lemma lang_alphabet r s : lang r s → Forall (λ c, alphabet r c = true) s.
Proof.
  induction 1; simpl; try (by repeat constructor).
  - eapply Forall_impl; [done|]. intros c ->. done.
  - eapply Forall_impl; [done|]. intros c ->. apply orb_true_r.
  - apply Forall_app; split; (eapply Forall_impl; [done|]); intros c ->; [done | apply orb_true_r].
  - by apply Forall_app.
Qed.

Lemma matches_alphabet r s c : matches r s = true → c ∈ s → alphabet r c = true.
Proof.
  intros H%matches_lang%lang_alphabet Hc. by eapply Forall_forall in H.
Qed.

Lemma matches_cat r s u v :
  matches r u = true → matches s v = true → matches (r ⋅ s) (u ++ v) = true.
Proof. rewrite !matches_lang. by constructor. Qed.

Lemma matches_star_app r u v :
  matches r u = true → matches (r^*) v = true → matches (r^*) (u ++ v) = true.
Proof.
  rewrite !matches_lang. intros. destruct u as [|c u]; [done|]. by constructor.
Qed.

(** The length of a fixed repetition of a class. *)
Lemma lang_rep_length n p s : lang (RRep n (RClass p)) s → length s = n.
Proof.
  unfold RRep. revert s; induction n as [|n IH]; simpl; intros s.
  - by intros ->%lang_eps_inv.
  - intros (u & v & -> & (c & -> & _)%lang_class & Hv)%lang_cat. simpl. by f_equal; apply IH.
Qed.

(** Shared classes: [[a-z]], [[0-9]], [[a-z0-9]]. *)
Definition r_lower : regex := RClass is_lower.
Definition r_digit : regex := RClass is_digit.
Definition r_lower_digit : regex := RClass (λ c, is_lower c || is_digit c).

(** A decimal number with no leading zero: [0] or a digit 1-9 and further digits. *)
Definition r_decimal : regex := RChar 48 ⊕ (RClass (in_range 49 57) ⋅ r_digit^*).
