(* ===== verification/Encoding.v ===== *)
(** * The Base64 package

    [encodeBase64] and [decodeBase64] of the package of standard encodings: the decoder throws on
    malformed input. *)

From S2P Require Export JsString.

Class Base64 := {
  encodeBase64 : list N → jstr;
  decodeBase64 : jstr → option (list N);
}.

(** What the package documents: decoding undoes encoding. *)
Definition base64_inverse (B : Base64) : Prop := ∀ bs, Forall (λ b, (b < 256)%N) bs → decodeBase64 (encodeBase64 bs) = Some bs.

(** What the package documents beside [base64_inverse]: texts of ASCII characters, and the empty
    text for no bytes. *)
Definition base64_text (B : Base64) : Prop := encodeBase64 [] = [] ∧ ∀ bs, is_ascii (encodeBase64 bs) = true.

(** ** A concrete codec

    Hexadecimal text has the laws of Base64. *)

Fixpoint hex_decode (s : jstr) : option (list N) :=
  match s with
  | [] => Some []
  | a :: b :: s => if is_hex a && is_hex b then ((hex_value a * 16 + hex_value b)%N ::.) <$> hex_decode s else None
  | _ => None
  end.

Lemma hex_decode_encode bs : Forall (λ b, b < 256)%N bs → hex_decode (flat_map (hex_byte false) bs) = Some bs.
Proof.
  induction 1 as [|b bs Hb _ IH]; [done|]. destruct (hex_byte_value false b Hb) as (H1 & H2 & H3).
  simpl. rewrite H1, H2, IH. simpl. by rewrite H3.
Qed.

Module Hex.
#[export] Instance codec : Base64 :=
  {| encodeBase64 bs := flat_map (λ b, hex_byte false (b mod 256)) bs; decodeBase64 := hex_decode |}.

Lemma inverse : base64_inverse codec.
Proof.
  intros bs Hb. simpl. rewrite <- (hex_decode_encode bs Hb). f_equal. induction Hb as [|b bs Hb _ IH]; [done|].
  cbn [flat_map]. by rewrite N.mod_small, IH by done.
Qed.

Lemma hex_ascii c : is_hex c = true → (c <? 128)%N = true.
Proof. unfold is_hex, is_digit, in_range. lia. Qed.

Lemma text : base64_text codec.
Proof.
  split; [done|]. intros bs. unfold is_ascii. simpl. apply forallb_forall. intros c (b & _ & Hc)%in_flat_map.
  destruct (hex_byte_value false (b mod 256)) as (H1 & H2 & _); [by apply N.mod_lt|].
  unfold hex_byte in Hc. destruct Hc as [<-|[<-|[]]]; by apply hex_ascii.
Qed.
End Hex.
