(* ===== verification/Pem.v ===== *)
(** * PEM texts

    Base64 between lines of dashes, and the removal of those lines that [encrypt/gcp-kms] and
    [cmd/deno-openssl] do with two regular expressions: [P] is the class of the label in them. *)

From S2P Require Export Encoding.
Local Open Scope nat_scope.

Section markers.
Context (P : N → bool).

(** The length of a match of [-----[P]+-----] at the start, 0 when there is none: the class has no
    dash, so it is matched to its end. *)
Fixpoint label_length (s : jstr) : nat :=
  match s with c :: s => if P c then S (label_length s) else 0 | [] => 0 end.
Definition marker_length (s : jstr) : nat :=
  if startsWith s (js "-----") then
    let n := label_length (drop 5 s) in
    if negb (n =? 0) && startsWith (drop n (drop 5 s)) (js "-----") then 5 + n + 5 else 0
  else 0.

(** [s.replace(/-----[P]+-----/g, "")]: [skip] units of a match are still to go. *)
Fixpoint remove_markers (skip : nat) (s : jstr) : jstr :=
  match s with
  | [] => []
  | c :: t =>
      match skip with
      | S n => remove_markers n t
      | O => match marker_length s with O => c :: remove_markers 0 t | S n => remove_markers n t end
      end
  end.

(** A PEM text: a header and a footer of a label around lines. *)
Definition pem_block (label : jstr) (lines : list jstr) : jstr :=
  js "-----" ++ js "BEGIN " ++ label ++ js "-----" ++ [10%N] ++ concat (map (λ l, l ++ [10%N]) lines) ++
  js "-----" ++ js "END " ++ label ++ js "-----" ++ [10%N].

Context (HP : P 45%N = false) (HBE : forallb P (js "BEGIN END ") = true).

Lemma label_length_app l t : forallb P l = true → P (hd 0%N t) = false → label_length (l ++ t) = length l.
Proof.
  intros Hl Ht. induction l as [|c l IH]; simpl in *; [destruct t; simpl in *; [done|by rewrite Ht]|].
  bool_inv. by rewrite H, IH.
Qed.

Lemma remove_skip n s t : length s = n → remove_markers n (s ++ t) = remove_markers 0 t.
Proof. intros <-. by induction s. Qed.

Lemma remove_marker label t : forallb P label = true → label ≠ [] →
  remove_markers 0 (js "-----" ++ label ++ js "-----" ++ t) = remove_markers 0 t.
Proof.
  intros Hl Hne. set (s := js "-----" ++ label ++ js "-----" ++ t).
  assert (marker_length s = 5 + length label + 5) as E.
  { unfold marker_length, s. rewrite startsWith_app. cbn [app drop js map]. 
    change (drop 5 (js "-----" ++ label ++ js "-----" ++ t)) with (label ++ js "-----" ++ t).
    rewrite label_length_app by done. rewrite drop_app_length, startsWith_app. by destruct label. }
  assert (s = 45%N :: js "----" ++ label ++ js "-----" ++ t) as Es by done. rewrite Es. cbn [remove_markers]. rewrite <- Es, E.
  cbn [Nat.add]. rewrite !(assoc_L (++)). apply remove_skip. rewrite !length_app. simpl. lia.
Qed.

Lemma remove_plain s t : Forall (λ c, c ≠ 45%N) s → remove_markers 0 (s ++ t) = s ++ remove_markers 0 t.
Proof.
  induction 1 as [|c s Hc _ IH]; [done|]. cbn [app remove_markers]. unfold marker_length.
  replace (startsWith (c :: s ++ t) (js "-----")) with false; [by rewrite IH|].
  symmetry. apply not_true_iff_false. intros [r E]%startsWith_prefix. by injection E.
Qed.

Lemma pem_lines label lines : forallb P label = true → Forall (Forall (λ c, c ≠ 45%N ∧ is_space c = false)) lines →
  filter (λ c, is_space c = false) (remove_markers 0 (pem_block label lines)) = concat lines.
Proof.
  intros Hl Hlines. unfold pem_block.
  assert (∀ w, forallb P w = true → forallb P (w ++ label) = true) as Hw by (intros w E; by rewrite forallb_app, E, Hl).
  assert (forallb P (js "BEGIN ") = true ∧ forallb P (js "END ") = true) as [HB HE].
  { change (js "BEGIN END ") with (js "BEGIN " ++ js "END ") in HBE. rewrite forallb_app in HBE. by apply andb_true_iff. }
  rewrite (assoc_L (++) (js "BEGIN ")), remove_marker by auto.
  assert (Forall (λ c, c ≠ 45%N) ([10%N] ++ concat (map (λ l, l ++ [10%N]) lines))) as Hp.
  { apply Forall_app; split; [by repeat constructor|]. clear Hl. induction Hlines as [|l ls Hln _ IH]; [constructor|].
    cbn. apply Forall_app; split; [|done]. apply Forall_app; split; [|by repeat constructor].
    eapply Forall_impl; [exact Hln|]. by intros c [? _]. }
  rewrite (assoc_L (++) [10%N]), (remove_plain _ _ Hp), (assoc_L (++) (js "END ")), remove_marker by auto.
  rewrite filter_app. change (filter _ (remove_markers 0 [10%N])) with (@nil N). rewrite app_nil_r, filter_app. cbn [app filter].
  change (filter (λ c, is_space c = false) [10%N]) with (@nil N). cbn [app].
  clear Hp Hl. induction Hlines as [|l ls Hln _ IH]; [done|]. cbn [map concat]. rewrite !filter_app, IH.
  change (filter (λ c, is_space c = false) [10%N]) with (@nil N). rewrite app_nil_r. f_equal.
  induction Hln as [|c l [_ Hc] _ IHl]; [done|]. rewrite filter_cons_True by done. by rewrite IHl.
Qed.

End markers.
