(* ===== verification/JsNumber.v ===== *)
(** * JavaScript numbers

    A number is an IEEE-754 binary64 value, the [spec_float] of the Standard
    Library at precision 53.  Decimal literals are converted with a single
    rounding of the exact quotient, and [num_to_string] is
    [Number.prototype.toString]: the shortest decimal that reads back as the
    same number. *)

From S2P Require Export JsString.
From Stdlib Require Export SpecFloat.
From Stdlib Require Import ZArith.
Local Open Scope Z_scope.

Notation dbl := spec_float.
Definition dprec : Z := 53.
Definition demax : Z := 1024.

#[export] Instance dbl_eq_dec : EqDecision dbl.
Proof. solve_decision. Defined.

Definition dbl_of_Z (z : Z) : dbl := binary_normalize dprec demax z 0 false.

(** The number nearest to [(-1)^neg * m * 10^e]. *)
Definition dbl_of_decimal (neg : bool) (m : N) (e : Z) : dbl :=
  match m with
  | N0 => S754_zero neg
  | Npos p =>
      match e with
      | Zneg q => SFdiv dprec demax (S754_finite neg p 0) (S754_finite false (10 ^ q) 0)
      | Zpos q => SFdiv dprec demax (S754_finite neg (p * 10 ^ q) 0) (S754_finite false 1 0)
      | Z0 => SFdiv dprec demax (S754_finite neg p 0) (S754_finite false 1 0)
      end
  end.

Definition isFinite (d : dbl) : bool :=
  match d with S754_zero _ | S754_finite _ _ _ => true | _ => false end.

Definition isNaN (d : dbl) : bool := match d with S754_nan => true | _ => false end.

(** The exact value of a number that is an integer. *)
Definition dbl_to_Z (d : dbl) : option Z :=
  match d with
  | S754_zero _ => Some 0
  | S754_finite s m e =>
      let sg (z : Z) := if s then - z else z in
      if 0 <=? e then Some (sg (Zpos m * 2 ^ e))
      else if Zpos m mod 2 ^ (- e) =? 0 then Some (sg (Zpos m / 2 ^ (- e)))
      else None
  | _ => None
  end.

Definition isInteger (d : dbl) : bool := match dbl_to_Z d with Some _ => true | None => false end.

(** [Number.isSafeInteger]: an integer of magnitude at most [2^53 - 1]. *)
Definition isSafeInteger (d : dbl) : bool :=
  match dbl_to_Z d with Some z => Z.abs z <=? 2 ^ 53 - 1 | None => false end.

(** IEEE comparisons: [=] identifies the zeros and is false on NaN. *)
Definition num_eqb (a b : dbl) : bool := SFeqb a b.
Definition num_ltb (a b : dbl) : bool := SFltb a b.
Definition num_leb (a b : dbl) : bool := SFleb a b.

(** [Math.floor]. *)
Definition num_floor (d : dbl) : dbl :=
  match d with
  | S754_finite s m e =>
      if 0 <=? e then d
      else
        let z := (if s then Zneg m else Zpos m) / 2 ^ (- e) in
        if z =? 0 then S754_zero s else dbl_of_Z z
  | _ => d
  end.

Definition num_add (a b : dbl) : dbl := SFadd dprec demax a b.
Definition num_sub (a b : dbl) : dbl := SFsub dprec demax a b.
Definition num_mul (a b : dbl) : dbl := SFmul dprec demax a b.

Definition num_min (a b : dbl) : dbl :=
  if isNaN a || isNaN b then S754_nan else if num_ltb b a then b else a.
Definition num_max (a b : dbl) : dbl :=
  if isNaN a || isNaN b then S754_nan else if num_ltb a b then b else a.

(** ** Reading decimal literals *)

Fixpoint span_digits (s : jstr) : jstr * jstr :=
  match s with
  | [] => ([], [])
  | c :: s' =>
      if is_digit c then let '(d, r) := span_digits s' in (c :: d, r) else ([], s)
  end.

Definition digits_value (ds : jstr) : N := foldl (λ a c, a * 10 + (c - 48))%N 0%N ds.

(** An optional exponent [[eE][+-]?\d+]: its value and the rest of the input. *)
Definition scan_exponent (s : jstr) : Z * jstr :=
  match s with
  | c :: s1 =>
      if (c =? 101)%N || (c =? 69)%N then
        let '(neg, s2) := match s1 with
                          | d :: s2 => if (d =? 45)%N then (true, s2)
                                       else if (d =? 43)%N then (false, s2) else (false, s1)
                          | [] => (false, s1)
                          end in
        match span_digits s2 with
        | ([], _) => (0, s)
        | (ds, r) => ((if neg then - Z.of_N (digits_value ds) else Z.of_N (digits_value ds)), r)
        end
      else (0, s)
  | [] => (0, s)
  end.

(** The number of an integer part, a fraction part and an exponent. *)
Definition decimal_number (neg : bool) (ip fp : jstr) (e : Z) : dbl :=
  dbl_of_decimal neg (digits_value (ip ++ fp)) (e - Z.of_nat (length fp)).

(** [StrUnsignedDecimalLiteral] of ECMA-262, with the sign already read; the
    literal must end the input. *)
Definition unsigned_decimal (neg : bool) (s : jstr) : dbl :=
  if bool_decide (s = js "Infinity") then S754_infinity neg
  else
    let '(ip, r) := span_digits s in
    let '(fp, r2) := match r with
                     | c :: r1 => if (c =? 46)%N then span_digits r1 else ([], r)
                     | [] => ([], r)
                     end in
    let '(e, r3) := scan_exponent r2 in
    match ip ++ fp, r3 with
    | _ :: _, [] => decimal_number neg ip fp e
    | _, _ => S754_nan
    end.

Definition radix_digit (c : N) : N :=
  if is_digit c then c - 48 else if in_range 97 122 c then c - 87
  else if in_range 65 90 c then c - 55 else 36.

Definition radix_number (b : N) (s : jstr) : dbl :=
  match s with
  | [] => S754_nan
  | _ => if forallb (λ c, radix_digit c <? b)%N s
         then dbl_of_Z (Z.of_N (foldl (λ a c, a * b + radix_digit c)%N 0%N s))
         else S754_nan
  end.

(** [Number(s)] for a string. *)
Definition string_to_number (s : jstr) : dbl :=
  match trim s with
  | [] => S754_zero false
  | c :: r =>
      let t := c :: r in
      match c, r with
      | 48%N, x :: ds =>
          if (x =? 120)%N || (x =? 88)%N then radix_number 16 ds
          else if (x =? 111)%N || (x =? 79)%N then radix_number 8 ds
          else if (x =? 98)%N || (x =? 66)%N then radix_number 2 ds
          else unsigned_decimal false t
      | 45%N, _ => unsigned_decimal true r
      | 43%N, _ => unsigned_decimal false r
      | _, _ => unsigned_decimal false t
      end
  end.

(** ** Printing *)

Definition digit_char (n : N) : N := (48 + n)%N.

(** The decimal digits of a natural number. *)
Fixpoint dec_digits (fuel : nat) (n : N) : jstr :=
  match fuel with
  | O => []
  | S fuel => if (n <? 10)%N then [digit_char n]
              else dec_digits fuel (n / 10) ++ [digit_char (n mod 10)]
  end.
Definition nat_to_string (n : N) : jstr := dec_digits (S (N.size_nat n)) n.

Definition int_to_string (z : Z) : jstr :=
  match z with
  | Zneg p => 45%N :: nat_to_string (Npos p)
  | _ => nat_to_string (Z.to_N z)
  end.

(** A positive rational [num / den] scaled by a power of ten. *)
Definition scale10 (num den : Z) (k : Z) : Z * Z :=
  if 0 <=? k then (num * 10 ^ k, den) else (num, den * 10 ^ (- k)).

(** The exponent [n] with [10^(n-1) <= num/den < 10^n]. *)
Fixpoint dec_exponent (fuel : nat) (num den : Z) (n : Z) : Z :=
  match fuel with
  | O => n
  | S fuel =>
      let '(a, b) := scale10 num den (- n) in
      if b <=? a then dec_exponent fuel num den (n + 1)
      else if a * 10 <? b then dec_exponent fuel num den (n - 1)
      else n
  end.

(** The shortest [k]-digit decimal [s * 10^(n-k)] that reads back as [d]. *)
Fixpoint shortest (fuel : nat) (d : dbl) (num den : Z) (n k : Z) : Z * Z * Z :=
  match fuel with
  | O => (0, n, k)
  | S fuel =>
      let '(a, b) := scale10 num den (k - n) in
      let lo := a / b in
      let reads z := bool_decide (dbl_of_decimal false (Z.to_N z) (n - k) = d) in
      let pick z := if z =? 10 ^ k then (10 ^ (k - 1), n + 1, k) else (z, n, k) in
      match (0 <? lo) && reads lo, reads (lo + 1) with
      | true, true => if 2 * (a - lo * b) <=? b then pick lo else pick (lo + 1)
      | true, false => pick lo
      | false, true => pick (lo + 1)
      | false, false => shortest fuel d num den n (k + 1)
      end
  end.

Definition format_decimal (s n k : Z) : jstr :=
  let ds := nat_to_string (Z.to_N s) in
  let zeros (j : Z) := replicate (Z.to_nat j) 48%N in
  if (k <=? n) && (n <=? 21) then ds ++ zeros (n - k)
  else if (0 <? n) && (n <=? 21) then take (Z.to_nat n) ds ++ 46%N :: drop (Z.to_nat n) ds
  else if (-6 <? n) && (n <=? 0) then js "0." ++ zeros (- n) ++ ds
  else
    let e := n - 1 in
    let es := (if 0 <=? e then js "e+" else js "e-") ++ nat_to_string (Z.to_N (Z.abs e)) in
    match ds with
    | [c] => c :: es
    | c :: r => c :: 46%N :: r ++ es
    | [] => es
    end.

(** [String(d)]. *)
Definition num_to_string (d : dbl) : jstr :=
  match d with
  | S754_nan => js "NaN"
  | S754_infinity s => if s then js "-Infinity" else js "Infinity"
  | S754_zero _ => js "0"
  | S754_finite sg m e =>
      let '(num, den) := if 0 <=? e then (Zpos m * 2 ^ e, 1) else (Zpos m, 2 ^ (- e)) in
      let n := dec_exponent 700 num den 1 in
      let '(s, n, k) := shortest 20 (S754_finite false m e) num den n 1 in
      (if sg then [45%N] else []) ++ format_decimal s n k
  end.

(** ** Checks on concrete numbers *)

Example num_shortest :
  map (λ s, bool_decide (num_to_string (string_to_number (js s)) = js s))
    ["0.1"; "1e+23"; "123456789012345680000"; "1e-7"; "0.000001";
     "-2.5"; "9007199254740993"; "100"; "NaN"; "Infinity"]%string
  = [true; true; true; true; true; true; false; true; true; true].
Proof. vm_compute. reflexivity. Qed.

Example num_read :
  map (λ s, dbl_to_Z (string_to_number (js s)))
    [" 42 "; "0x1F"; "0b101"; "1e3"; ""; "-0"; "12px"; "1_0"; "."; "+5."; "1e400"]%string
  = [Some 42; Some 31; Some 5; Some 1000; Some 0; Some 0; None; None; None; Some 5; None].
Proof. vm_compute. reflexivity. Qed.

Lemma span_digits_app ds r :
  Forall (λ c, is_digit c = true) ds →
  (∀ c r', r = c :: r' → is_digit c = false) → span_digits (ds ++ r) = (ds, r).
Proof.
  intros Hds Hr. induction Hds as [|c ds Hc _ IH]; simpl.
  - destruct r as [|c r]; [done|]. simpl. by rewrite (Hr c r).
  - by rewrite Hc, IH.
Qed.

Lemma span_digits_spec s ds r : span_digits s = (ds, r) →
  s = ds ++ r ∧ Forall (λ c, is_digit c = true) ds.
Proof.
  revert ds r; induction s as [|c s IH]; simpl; intros ds r; [by intros [= <- <-]|].
  destruct (is_digit c) eqn:E.
  - destruct (span_digits s) as [d r'] eqn:E'. intros [= <- <-].
    destruct (IH _ _ eq_refl) as [-> ?]. split; [done | by constructor].
  - by intros [= <- <-].
Qed.

(** ** Products of finite numbers are numbers *)

Lemma shr_1_nonneg r : 0 <= shr_m r → 0 <= shr_m (shr_1 r).
Proof. destruct r as [[|[p|p|]|[p|p|]] b c]; simpl; lia. Qed.

Lemma shr_nonneg r e n : 0 <= shr_m r → 0 <= shr_m (shr r e n).1.
Proof.
  intros Hr. destruct n as [|p|p]; simpl; [done| |done]. revert r Hr.
  induction p as [p IH|p IH|]; intros r Hr; simpl; auto using shr_1_nonneg.
Qed.

Lemma shr_fexp_nonneg m e l : 0 <= m → 0 <= shr_m (shr_fexp dprec demax m e l).1.
Proof. intros Hm. apply shr_nonneg. by destruct l as [|[]]. Qed.

Lemma binary_round_aux_number s m e : 0 <= m → isNaN (binary_round_aux dprec demax s m e loc_Exact) = false.
Proof.
  intros Hm. unfold binary_round_aux. pose proof (shr_fexp_nonneg m e loc_Exact Hm) as H1.
  destruct (shr_fexp dprec demax m e loc_Exact) as [r1 e1]. simpl in H1.
  assert (H2 : 0 <= round_nearest_even (shr_m r1) (loc_of_shr_record r1)).
  { unfold round_nearest_even. repeat case_match; lia. }
  pose proof (shr_fexp_nonneg _ e1 loc_Exact H2) as H3.
  destruct (shr_fexp dprec demax (round_nearest_even _ _) e1 loc_Exact) as [r2 e2]. simpl in H3.
  destruct (shr_m r2); [done| |lia]. by destruct (e2 <=? demax - dprec).
Qed.

Lemma num_mul_number a b : isFinite a = true → isFinite b = true → isNaN (num_mul a b) = false.
Proof.
  destruct a, b; try done. intros _ _. unfold num_mul, SFmul. apply binary_round_aux_number. lia.
Qed.

Lemma isFinite_number a : isFinite a = true → isNaN a = false.
Proof. by destruct a. Qed.

Lemma num_compare_refl a : isNaN a = false → SFcompare a a = Some Eq.
Proof.
  destruct a as [s|s| |s m e]; simpl; try done; [by destruct s|].
  intros _. rewrite Z.compare_refl. change (Pos.compare_cont Eq m m) with (m ?= m)%positive.
  rewrite Pos.compare_refl. by destruct s.
Qed.

Lemma num_leb_refl a : isNaN a = false → num_leb a a = true.
Proof. intros H. unfold num_leb, SFleb. by rewrite num_compare_refl. Qed.

Lemma num_ltb_leb a b : num_ltb a b = true → num_leb a b = true.
Proof. unfold num_ltb, num_leb, SFltb, SFleb. by destruct (SFcompare a b) as [[]|]. Qed.

(** [Math.min(a, b) <= a]. *)
Lemma num_min_l a b : isNaN a = false → isNaN b = false → num_leb (num_min a b) a = true.
Proof.
  intros Ha Hb. unfold num_min. rewrite Ha, Hb. simpl. destruct (num_ltb b a) eqn:E.
  - by apply num_ltb_leb.
  - by apply num_leb_refl.
Qed.

(** ** Small integers are exact *)

Lemma digits2_shift n p : digits2_pos (Pos.iter xO p n) = (digits2_pos p + n)%positive.
Proof. induction n using Pos.peano_ind; [simpl; lia|]. rewrite Pos.iter_succ. simpl. rewrite IHn. lia. Qed.

Lemma iter_xO_Z n p : Z.pos (Pos.iter xO p n) = Z.pos p * 2 ^ Z.pos n.
Proof.
  induction n using Pos.peano_ind; [simpl; lia|]. rewrite Pos.iter_succ.
  change (Z.pos (Pos.iter xO p n)~0) with (2 * Z.pos (Pos.iter xO p n)). rewrite IHn, Pos2Z.inj_succ, Z.pow_succ_r by lia. lia.
Qed.

Lemma digits2_bound p : 2 ^ (Z.pos (digits2_pos p) - 1) <= Z.pos p < 2 ^ Z.pos (digits2_pos p).
Proof.
  induction p as [p IH|p IH|]; [| |simpl; lia]; cbn [digits2_pos]; rewrite Pos2Z.inj_succ, Z.pow_succ_r by lia;
    replace (Z.succ (Z.pos (digits2_pos p)) - 1) with (Z.succ (Z.pos (digits2_pos p) - 1)) by lia; rewrite Z.pow_succ_r by lia; lia.
Qed.

(** An integer of at most 53 bits is a number, exactly. *)
Lemma dbl_of_pos_exact s p : Z.pos p < 2 ^ 53 → 
  ∃ m e, binary_round dprec demax s p 0 = S754_finite s m e ∧ e <= 0 ∧ Z.pos m = Z.pos p * 2 ^ (- e).
Proof.
  intros Hp. pose proof (digits2_bound p) as [Hd _]. set (dg := digits2_pos p) in *.
  assert (Hdg : Z.pos dg <= 53) by (apply Z.le_ngt; intros Hlt; assert (2 ^ 53 <= 2 ^ (Z.pos dg - 1)) by (apply Z.pow_le_mono_r; lia); lia).
  unfold binary_round. fold dg. 
  assert (Hf : fexp dprec demax (Z.pos dg + 0) = Z.pos dg - 53) by (unfold fexp, dprec, demax, emin; lia).
  rewrite Hf. unfold shl_align.
  assert (Haux : ∀ mz, digits2_pos mz = 53%positive → ∀ ez, ez = Z.pos dg - 53 → binary_round_aux dprec demax s (Z.pos mz) ez loc_Exact = S754_finite s mz ez).
  { intros mz Hmz ez Hez. unfold binary_round_aux.
    assert (Hs : ∀ l, shr_fexp dprec demax (Z.pos mz) ez l = (shr_record_of_loc (Z.pos mz) l, ez)).
    { intros l. unfold shr_fexp. simpl. rewrite Hmz. replace (fexp dprec demax (53 + ez) - ez) with 0; [done|].
      unfold fexp, dprec, demax, emin. lia. }
    rewrite Hs. simpl. rewrite Hs. simpl. replace (ez <=? demax - dprec) with true; [done|]. unfold demax, dprec. lia. }
  destruct (Z.pos dg - 53 - 0) as [|q|q] eqn:Eq; [| lia|].
  - exists p, 0. split_and!; [|lia|lia]. replace 0 with (Z.pos dg - 53) by lia. apply Haux; [|done]. fold dg. lia.
  - exists (shift_pos q p), (Z.pos dg - 53). rewrite Haux; [|unfold shift_pos; rewrite digits2_shift; fold dg; lia|done].
    split_and!; [done|lia|]. unfold shift_pos. rewrite iter_xO_Z. f_equal. f_equal. lia.
Qed.

Lemma dbl_to_of_Z z : Z.abs z < 2 ^ 53 → dbl_to_Z (dbl_of_Z z) = Some z.
Proof.
  intros Hz. unfold dbl_of_Z, binary_normalize.
  assert (Hx : ∀ s p, Z.pos p < 2 ^ 53 → dbl_to_Z (binary_round dprec demax s p 0) = Some (if s then - Z.pos p else Z.pos p)).
  { intros s p Hp. destruct (dbl_of_pos_exact s p Hp) as (m & e & -> & He & Hm). simpl.
    destruct (0 <=? e) eqn:E0.
    - assert (e = 0) as -> by lia. simpl in Hm. destruct s; f_equal; lia.
    - assert (Hpw : 0 < 2 ^ (- e)) by (apply Z.pow_pos_nonneg; lia).
      rewrite Hm, Z.mod_mul, Z.div_mul by lia. by destruct s. }
  destruct z as [|p|p]; [done| |]; rewrite Hx; [done|lia|done|lia].
Qed.
