(* ===== verification/JsDate.v ===== *)
(** * Dates

    A point in time is a number of milliseconds since the epoch.  [toISOString] is the one of
    ECMAScript for the years 0 to 9999, in the proleptic Gregorian calendar. *)

From S2P Require Export JsNumber.
Local Open Scope Z_scope.

Record civil := { cv_year : Z; cv_month : Z; cv_day : Z }.

(** The date of a day counted from 1 March of the year 0, by 400-year eras. *)
Definition year_of_era (doe : Z) : Z := (doe - doe / 1460 + doe / 36524 - doe / 146096) / 365.
Definition days_before (yoe : Z) : Z := 365 * yoe + yoe / 4 - yoe / 100.

Definition civil_from_days (days : Z) : civil :=
  let z := days + 719468 in
  let era := z / 146097 in
  let doe := z mod 146097 in
  let yoe := year_of_era doe in
  let doy := doe - days_before yoe in
  let mp := (5 * doy + 2) / 153 in
  let m := if mp <? 10 then mp + 3 else mp - 9 in
  {| cv_year := yoe + era * 400 + (if m <=? 2 then 1 else 0); cv_month := m; cv_day := doy - (153 * mp + 2) / 5 + 1 |}.

Definition days_from_civil (c : civil) : Z :=
  let y := cv_year c - (if cv_month c <=? 2 then 1 else 0) in
  let era := y / 400 in
  let yoe := y mod 400 in
  let mp := if cv_month c <=? 2 then cv_month c + 9 else cv_month c - 3 in
  era * 146097 + days_before yoe + ((153 * mp + 2) / 5 + cv_day c - 1) - 719468.

Lemma year_of_era_range doe : 0 <= doe < 146097 → 0 <= year_of_era doe < 400.
Proof. unfold year_of_era. intros H. split; Z.to_euclidean_division_equations; lia. Qed.

Lemma day_of_year_range doe : 0 <= doe < 146097 → 0 <= doe - days_before (year_of_era doe) < 366.
Proof.
  intros H. pose proof (year_of_era_range doe H) as Hy. unfold year_of_era, days_before in *.
  split; Z.to_euclidean_division_equations; lia.
Qed.

Lemma civil_inverse days : days_from_civil (civil_from_days days) = days.
Proof.
  unfold civil_from_days. set (z := days + 719468). set (era := z / 146097). set (doe := z mod 146097).
  assert (Hd : 0 <= doe < 146097) by (apply Z.mod_pos_bound; lia).
  assert (Hz : z = era * 146097 + doe) by (unfold era, doe; rewrite Z.mul_comm; apply Z.div_mod; lia).
  pose proof (year_of_era_range doe Hd) as Hy. pose proof (day_of_year_range doe Hd) as Hdoy.
  set (yoe := year_of_era doe) in *. set (doy := doe - days_before yoe) in *. set (mp := (5 * doy + 2) / 153).
  assert (Hmp : 0 <= mp < 12) by (unfold mp; Z.to_euclidean_division_equations; lia).
  unfold days_from_civil. cbn [cv_year cv_month cv_day].
  assert (Em : (if (if mp <? 10 then mp + 3 else mp - 9) <=? 2 then (if mp <? 10 then mp + 3 else mp - 9) + 9
                else (if mp <? 10 then mp + 3 else mp - 9) - 3) = mp).
  { destruct (Z.ltb_spec mp 10); case_match; lia. }
  rewrite Em. set (two := (if mp <? 10 then mp + 3 else mp - 9) <=? 2).
  replace (yoe + era * 400 + (if two then 1 else 0) - (if two then 1 else 0)) with (yoe + era * 400) by lia.
  rewrite Z.div_add, Z.mod_add, Z.div_small, Z.mod_small by lia.
  replace ((153 * mp + 2) / 5 + (doy - (153 * mp + 2) / 5 + 1) - 1) with doy by lia. unfold doy. lia.
Qed.

Lemma civil_from_days_inj d d' : civil_from_days d = civil_from_days d' → d = d'.
Proof. intros E. by rewrite <- (civil_inverse d), E, civil_inverse. Qed.

Lemma civil_range days : 1 <= cv_month (civil_from_days days) <= 12 ∧ 1 <= cv_day (civil_from_days days) <= 31.
Proof.
  unfold civil_from_days. set (z := days + 719468). set (doe := z mod 146097).
  assert (Hd : 0 <= doe < 146097) by (apply Z.mod_pos_bound; lia).
  pose proof (day_of_year_range doe Hd) as Hdoy. set (doy := doe - days_before (year_of_era doe)) in *.
  cbn [cv_month cv_day]. assert (Hmp : 0 <= (5 * doy + 2) / 153 < 12) by (Z.to_euclidean_division_equations; lia).
  split; [case_match; lia|]. Z.to_euclidean_division_equations; lia.
Qed.

(** ** Fixed-width decimals *)

Fixpoint fixed (w : nat) (n : Z) : jstr :=
  match w with
  | O => []
  | S w => fixed w (n / 10) ++ [Z.to_N (48 + n mod 10)]
  end.

Lemma fixed_length w n : length (fixed w n) = w.
Proof. revert n. induction w as [|w IH]; intros n; simpl; [done|]. rewrite length_app, IH. simpl. lia. Qed.

Lemma fixed_inj w n m : 0 <= n < 10 ^ Z.of_nat w → 0 <= m < 10 ^ Z.of_nat w → fixed w n = fixed w m → n = m.
Proof.
  revert n m. induction w as [|w IH]; intros n m Hn Hm E; [simpl in *; lia|].
  rewrite Nat2Z.inj_succ, Z.pow_succ_r in Hn, Hm by lia. simpl in E. apply app_inj_tail in E as [E1 E2].
  apply IH in E1; [|split; [apply Z.div_pos; lia|apply Z.div_lt_upper_bound; lia]..].
  pose proof (Z.mod_pos_bound n 10). pose proof (Z.mod_pos_bound m 10).
  rewrite (Z.div_mod n 10), (Z.div_mod m 10) by lia. lia.
Qed.

(** ** ISO 8601 *)

Definition MILLIS_PER_DAY : Z := 86400000.

(** [new Date(ms).toISOString()] without the final Z: the part before the T and the fields after. *)
Definition iso_fields_of (c : civil) (r : Z) : list (nat * Z) :=
  [(4%nat, cv_year c); (2%nat, cv_month c); (2%nat, cv_day c);
   (2%nat, r / 3600000); (2%nat, r / 60000 mod 60); (2%nat, r / 1000 mod 60); (3%nat, r mod 1000)].
Definition iso_fields (ms : Z) : list (nat * Z) :=
  iso_fields_of (civil_from_days (ms / MILLIS_PER_DAY)) (ms mod MILLIS_PER_DAY).

(** The fields between the given separators. *)
Fixpoint print_fields (fs : list (nat * Z)) (seps : list N) : jstr :=
  match fs, seps with
  | (w, n) :: fs, c :: seps => fixed w n ++ c :: print_fields fs seps
  | (w, n) :: _, [] => fixed w n
  | [], _ => []
  end.

Definition toISOString (ms : Z) : jstr := print_fields (iso_fields ms) (js "--T::.Z").

Lemma print_fields_inj seps fs fs' : map fst fs = map fst fs' → (length fs <= S (length seps))%nat →
  Forall (λ p, 0 <= p.2 < 10 ^ Z.of_nat p.1) fs → Forall (λ p, 0 <= p.2 < 10 ^ Z.of_nat p.1) fs' →
  print_fields fs seps = print_fields fs' seps → fs = fs'.
Proof.
  revert fs fs'. induction seps as [|c seps IH]; intros [|[w n] fs] [|[w' n'] fs'] Hw Hl Hf Hf' E; try done; simpl in *;
    injection Hw as -> Hw; apply Forall_cons in Hf as [Hn Hf], Hf' as [Hn' Hf'].
  - destruct fs; [|simpl in Hl; lia]. destruct fs'; [|done]. simpl in *. f_equal. f_equal. by eapply fixed_inj.
  - apply app_inj_1 in E as [E1 E2]; [|by rewrite !fixed_length]. injection E2 as E2.
    f_equal; [f_equal; by eapply fixed_inj|]. apply IH; try done. lia.
Qed.

(** The years whose number has four digits. *)
Definition iso_year (ms : Z) : Prop := 0 <= cv_year (civil_from_days (ms / MILLIS_PER_DAY)) < 10000.

(** To the end of the year 9999. *)
Lemma iso_year_range ms : 0 <= ms < 253402300800000 → iso_year ms.
Proof.
  intros Hms. unfold iso_year, MILLIS_PER_DAY. 
  assert (Hd : 0 <= ms / 86400000 < 2932897) by (Z.to_euclidean_division_equations; lia).
  revert Hd. generalize (ms / 86400000). clear Hms ms. intros d Hd. unfold civil_from_days. cbn [cv_year].
  set (z := d + 719468). set (era := z / 146097). set (doe := z mod 146097).
  assert (Hdoe : 0 <= doe < 146097) by (apply Z.mod_pos_bound; lia).
  assert (Hz : z = era * 146097 + doe) by (unfold era, doe; rewrite Z.mul_comm; apply Z.div_mod; lia).
  pose proof (year_of_era_range doe Hdoe) as Hy. assert (Hera : 4 <= era <= 24) by lia. clearbody era doe.
  destruct (decide (era = 24 ∧ year_of_era doe = 399)) as [[-> E]|Hne]; [|repeat case_match; lia].
  rewrite E. change (days_before 399) with 145731.
  assert (Hmp : (5 * (doe - 145731) + 2) / 153 < 10) by (Z.to_euclidean_division_equations; lia).
  assert (Hnn : 0 <= (5 * (doe - 145731) + 2) / 153).
  { pose proof (day_of_year_range doe Hdoe) as Hr. rewrite E in Hr. change (days_before 399) with 145731 in Hr. apply Z.div_pos; lia. }
  repeat case_match; lia.
Qed.

Lemma iso_fields_range ms : iso_year ms → Forall (λ p, 0 <= p.2 < 10 ^ Z.of_nat p.1) (iso_fields ms).
Proof.
  intros Hy. pose proof (civil_range (ms / MILLIS_PER_DAY)) as [Hm Hd].
  assert (Hr : 0 <= ms mod MILLIS_PER_DAY < 86400000) by (apply Z.mod_pos_bound; done).
  unfold iso_year in Hy. unfold iso_fields, iso_fields_of. revert Hr Hy Hm Hd. generalize (ms mod MILLIS_PER_DAY) (civil_from_days (ms / MILLIS_PER_DAY)).
  intros r c Hr Hy Hm Hd. rewrite !Forall_cons. simpl. split_and!; try apply List.Forall_nil; Z.to_euclidean_division_equations; lia.
Qed.

Lemma iso_fields_of_inj c r c' r' : 0 <= r < 86400000 → 0 <= r' < 86400000 →
  iso_fields_of c r = iso_fields_of c' r' → c = c' ∧ r = r'.
Proof.
  intros Hr Hr' E. unfold iso_fields_of in E. injection E as E1 E2 E3 E4 E5 E6 E7. split.
  - destruct c, c'. simpl in *. congruence.
  - Z.to_euclidean_division_equations; lia.
Qed.

(** Two points in time with the same text are the same. *)
Lemma toISOString_inj a b : iso_year a → iso_year b → toISOString a = toISOString b → a = b.
Proof.
  intros Ha Hb E. apply print_fields_inj in E; [|done|simpl; lia|by apply iso_fields_range..].
  apply iso_fields_of_inj in E as [Ed Er]; [|apply Z.mod_pos_bound; done..]. apply civil_from_days_inj in Ed.
  rewrite (Z.div_mod a MILLIS_PER_DAY), (Z.div_mod b MILLIS_PER_DAY) by done. congruence.
Qed.

(** The text with other separators, without the last character. *)
Lemma print_fields_map (g : N → N) fs seps : (∀ c, (48 <= c < 58)%N → g c = c) →
  map g (print_fields fs seps) = print_fields fs (map g seps).
Proof.
  intros Hg. assert (Hf : ∀ w n, map g (fixed w n) = fixed w n).
  { induction w as [|w IH]; intros n; simpl; [done|]. rewrite map_app, IH. simpl. rewrite Hg; [done|].
    pose proof (Z.mod_pos_bound n 10). lia. }
  revert seps. induction fs as [|[w n] fs IH]; intros [|c seps]; simpl; try done. by rewrite map_app, Hf, map_cons, IH.
Qed.

Lemma print_fields_last fs seps c : length fs = S (length seps) → print_fields fs (seps ++ [c]) = print_fields fs seps ++ [c].
Proof.
  revert seps. induction fs as [|[w n] fs IH]; intros [|d seps] Hl; simpl in *; try lia; [destruct fs; [done|simpl in Hl; lia]|].
  rewrite IH by lia. by rewrite <- app_assoc.
Qed.

Example iso_epoch : toISOString 0 = js "1970-01-01T00:00:00.000Z" ∧
  toISOString 951827696789 = js "2000-02-29T12:34:56.789Z" ∧ toISOString 253402300799999 = js "9999-12-31T23:59:59.999Z".
Proof. split_and!; reflexivity. Qed.

(** ** Padded decimals *)

Local Open Scope nat_scope.

Lemma fixed_zero w : fixed w 0 = replicate w 48%N.
Proof.
  induction w as [|w IH]; [done|]. cbn [fixed]. change (0 / 10)%Z with 0%Z. rewrite IH.
  change [Z.to_N (48 + 0 mod 10)] with (replicate 1 48%N). rewrite <- replicate_add. f_equal. lia.
Qed.

Lemma size_nat_bound n : (n < 2 ^ N.of_nat (S (N.size_nat n)))%N.
Proof.
  destruct n as [|p]; [simpl; lia|]. simpl N.size_nat.
  assert (H : (N.pos p < 2 ^ N.of_nat (Pos.size_nat p))%N).
  { induction p as [p IH|p IH|]; [| |simpl; lia]; cbn [Pos.size_nat]; rewrite Nat2N.inj_succ, N.pow_succ_r'; lia. }
  rewrite Nat2N.inj_succ, N.pow_succ_r'. lia.
Qed.

(** The digits of a number, padded with zeros. *)
Lemma dec_digits_fixed w : ∀ fuel n, (n < 2 ^ N.of_nat fuel)%N → 0 < fuel → (Z.of_N n < 10 ^ Z.of_nat (S w))%Z →
  replicate (S w - length (dec_digits fuel n)) 48%N ++ dec_digits fuel n = fixed (S w) (Z.of_N n).
Proof.
  induction w as [|w IH]; intros [|fuel] n Hf H0 Hn; try lia; cbn [dec_digits].
  - change (10 ^ Z.of_nat 1)%Z with 10%Z in Hn. replace (n <? 10)%N with true by lia. simpl. unfold digit_char. rewrite Z.mod_small by lia.
    f_equal. lia.
  - destruct (n <? 10)%N eqn:E.
    + change (fixed (S (S w)) (Z.of_N n)) with (fixed (S w) (Z.of_N n / 10) ++ [Z.to_N (48 + Z.of_N n mod 10)]).
      rewrite Z.div_small, Z.mod_small, fixed_zero by lia. simpl length. replace (S (S w) - 1) with (S w) by lia. f_equal. unfold digit_char. f_equal. lia.
    + change (fixed (S (S w)) (Z.of_N n)) with (fixed (S w) (Z.of_N n / 10) ++ [Z.to_N (48 + Z.of_N n mod 10)]).
      rewrite Nat2N.inj_succ, N.pow_succ_r' in Hf.
      assert (Hfu : 0 < fuel) by (destruct fuel; [simpl in Hf; lia|lia]).
      assert (Hd : (n / 10 < 2 ^ N.of_nat fuel)%N) by (apply N.Div0.div_lt_upper_bound; lia).
      change 10%Z with (Z.of_N 10). rewrite <- (N2Z.inj_div n 10), <- (N2Z.inj_mod n 10).
      rewrite Nat2Z.inj_succ, Z.pow_succ_r in Hn by lia.
      rewrite <- (IH fuel (n / 10)%N Hd Hfu) by (rewrite N2Z.inj_div; apply Z.div_lt_upper_bound; lia).
      rewrite length_app. simpl length. rewrite <- app_assoc. f_equal; [f_equal; lia|]. f_equal. unfold digit_char. f_equal. lia.
Qed.
