(* ===== verification/Json.v ===== *)
(** * JavaScript values, plain objects and JSON

    [jsval] is a tree of JavaScript data.  A plain object is the list of its own
    enumerable string-keyed properties in property order ([props]): integer keys
    first, ascending, then the others in order of insertion.  [json_parse] and
    [json_stringify] are [JSON.parse] and [JSON.stringify]. *)

From S2P Require Export JsNumber.
Local Open Scope nat_scope.

(** ** Property lists *)

(** Array-index keys: canonical decimal strings of integers below [2^32 - 1]. *)
Definition array_index (k : jstr) : option N :=
  match k with
  | [] => None
  | c :: r =>
      if forallb is_digit k && ((length k <=? 10) && (negb (c =? 48)%N || bool_decide (r = [])))
      then let n := digits_value k in if (n <? 4294967295)%N then Some n else None
      else None
  end.

Section props.
Context {V : Type}.
Notation props := (list (jstr * V)).

(** [o[k]] for an own property. *)
Fixpoint own_get (k : jstr) (o : props) : option V :=
  match o with
  | [] => None
  | (k', v) :: o => if bool_decide (k = k') then Some v else own_get k o
  end.

Definition keys (o : props) : list jstr := map fst o.

(** Where a new key goes: index keys before larger index keys and string keys. *)
Fixpoint insert_key (k : jstr) (v : V) (o : props) : props :=
  match o with
  | [] => [(k, v)]
  | (k', v') :: o' =>
      let before :=
        match array_index k, array_index k' with
        | Some n, Some n' => (n <? n')%N
        | Some _, None => true
        | None, _ => false
        end in
      if before then (k, v) :: o else (k', v') :: insert_key k v o'
  end.

Fixpoint update_key (k : jstr) (v : V) (o : props) : props :=
  match o with
  | [] => []
  | (k', v') :: o' =>
      if bool_decide (k = k') then (k', v) :: o' else (k', v') :: update_key k v o'
  end.

(** [o[k] = v]. *)
Definition obj_set (k : jstr) (v : V) (o : props) : props :=
  match own_get k o with
  | Some _ => update_key k v o
  | None => insert_key k v o
  end.

Lemma own_get_insert k v o k' : own_get k o = None →
  own_get k' (insert_key k v o) = if bool_decide (k' = k) then Some v else own_get k' o.
Proof.
  induction o as [|[j w] o IH]; simpl; intros Hn; [done|].
  case_bool_decide as Hkj; [done|].
  destruct (match array_index k with Some n => _ | None => _ end); simpl.
  - repeat case_bool_decide; simplify_eq; done.
  - rewrite IH by done. repeat case_bool_decide; simplify_eq; done.
Qed.

Lemma own_get_update k v o k' : is_Some (own_get k o) →
  own_get k' (update_key k v o) = if bool_decide (k' = k) then Some v else own_get k' o.
Proof.
  induction o as [|[j w] o IH]; simpl; intros Hn; [by destruct Hn|].
  case_bool_decide as Hkj; simpl.
  - subst. repeat case_bool_decide; simplify_eq; done.
  - rewrite IH by done. repeat case_bool_decide; simplify_eq; done.
Qed.

Lemma own_get_set k v o k' :
  own_get k' (obj_set k v o) = if bool_decide (k' = k) then Some v else own_get k' o.
Proof.
  unfold obj_set. destruct (own_get k o) eqn:E.
  - apply own_get_update. eauto.
  - by apply own_get_insert.
Qed.

Lemma own_get_set_eq k v o : own_get k (obj_set k v o) = Some v.
Proof. rewrite own_get_set. by case_bool_decide. Qed.

Lemma own_get_set_ne k v o k' : k' ≠ k → own_get k' (obj_set k v o) = own_get k' o.
Proof. intros. rewrite own_get_set. by case_bool_decide. Qed.

Lemma own_get_None k o : own_get k o = None ↔ k ∉ keys o.
Proof.
  induction o as [|[j w] o IH]; simpl; [set_solver|].
  case_bool_decide; subst; [set_solver|]. rewrite IH. set_solver.
Qed.

Lemma own_get_elem k v o : own_get k o = Some v → (k, v) ∈ o.
Proof.
  induction o as [|[j w] o IH]; simpl; [done|].
  case_bool_decide; subst; [intros [= ->]; by constructor | by constructor; apply IH].
Qed.

Lemma elem_own_get k v o : NoDup (keys o) → (k, v) ∈ o → own_get k o = Some v.
Proof.
  induction o as [|[j w] o IH]; simpl; intros Hnd Hin; [by inversion Hin|].
  inversion Hnd; subst. apply elem_of_cons in Hin as [[= <- <-]|Hin].
  - by rewrite bool_decide_eq_true_2.
  - rewrite bool_decide_eq_false_2; [by apply IH|]. intros ->.
    match goal with H : _ ∉ _ |- _ => apply H end. apply list_elem_of_fmap. by exists (j, v).
Qed.

Lemma keys_insert k v o : keys (insert_key k v o) ≡ₚ k :: keys o.
Proof.
  induction o as [|[j w] o IH]; simpl; [done|].
  destruct (match array_index k with Some n => _ | None => _ end); simpl; [done|].
  rewrite IH. apply Permutation_swap.
Qed.

Lemma keys_update k v o : keys (update_key k v o) = keys o.
Proof.
  induction o as [|[j w] o IH]; simpl; [done|].
  case_bool_decide; simpl; [done|]. by f_equal.
Qed.

Lemma keys_set_NoDup k v o : NoDup (keys o) → NoDup (keys (obj_set k v o)).
Proof.
  unfold obj_set. intros Hnd. destruct (own_get k o) eqn:E.
  - by rewrite keys_update.
  - rewrite keys_insert. constructor; [by apply own_get_None | done].
Qed.

Lemma elem_of_keys_set k v o j : j ∈ keys (obj_set k v o) ↔ j = k ∨ j ∈ keys o.
Proof.
  unfold obj_set. destruct (own_get k o) as [w|] eqn:E.
  - rewrite keys_update. split; [auto|]. intros [->|?]; [|done].
    apply own_get_elem in E. apply list_elem_of_fmap. by exists (k, w).
  - rewrite keys_insert, elem_of_cons. done.
Qed.

Lemma elem_of_set k v o p : p ∈ obj_set k v o → p = (k, v) ∨ p ∈ o.
Proof.
  unfold obj_set. destruct (own_get k o).
  - induction o as [|[j w] o IH]; simpl; [auto|]. case_bool_decide; subst; set_solver.
  - induction o as [|[j w] o IH]; simpl; [set_solver|].
    destruct (match array_index k with Some n => _ | None => _ end); set_solver.
Qed.

(** Property order is kept: a list in property order is rebuilt by its own
    insertions. *)
Definition of_entries (l : props) : props := foldl (λ o p, obj_set p.1 p.2 o) [] l.
End props.
#[export] Hint Resolve keys_set_NoDup : forge.

(** ** Values *)

Inductive jsval : Type :=
  | VUndef
  | VNull
  | VBool (b : bool)
  | VNum (d : dbl)
  | VStr (s : jstr)
  | VArr (l : list jsval)
  | VObj (o : list (jstr * jsval))
  | VFun (name : jstr).

Section jsval_ind.
Context (P : jsval → Prop).
Context (HU : P VUndef) (HN : P VNull) (HB : ∀ b, P (VBool b)) (HD : ∀ d, P (VNum d))
  (HS : ∀ s, P (VStr s)) (HA : ∀ l, Forall P l → P (VArr l))
  (HO : ∀ o, Forall (λ p, P p.2) o → P (VObj o)) (HF : ∀ f, P (VFun f)).

Fixpoint jsval_ind' (v : jsval) : P v :=
  match v with
  | VUndef => HU
  | VNull => HN
  | VBool b => HB b
  | VNum d => HD d
  | VStr s => HS s
  | VArr l => HA l ((fix go l := match l return Forall P l with
                                 | [] => Forall_nil_2 P
                                 | v :: l => Forall_cons_2 P v l (jsval_ind' v) (go l)
                                 end) l)
  | VObj o => HO o ((fix go o := match o return Forall (λ p, P p.2) o with
                                 | [] => Forall_nil_2 _
                                 | p :: o => Forall_cons_2 _ p o (jsval_ind' p.2) (go o)
                                 end) o)
  | VFun f => HF f
  end.
End jsval_ind.

(** ** [JSON.parse] *)

Definition is_json_space (c : N) : bool :=
  ((c =? 9) || (c =? 10) || (c =? 13) || (c =? 32))%N.

Fixpoint skip_space (s : jstr) : jstr :=
  match s with
  | [] => []
  | c :: s' => if is_json_space c then skip_space s' else s
  end.

Definition json_escape (c : N) : option N :=
  (if c =? 34 then Some 34 else if c =? 92 then Some 92 else if c =? 47 then Some 47
   else if c =? 98 then Some 8 else if c =? 102 then Some 12 else if c =? 110 then Some 10
   else if c =? 114 then Some 13 else if c =? 116 then Some 9 else None)%N.

(** The rest of a string token, after its opening quote. *)
Fixpoint json_string (s : jstr) : option (jstr * jstr) :=
  match s with
  | [] => None
  | c :: s' =>
      if (c =? 34)%N then Some ([], s')
      else if (c <? 32)%N then None
      else if (c =? 92)%N then
        match s' with
        | e :: s2 =>
            if (e =? 117)%N then
              match s2 with
              | a :: b :: c :: d :: s3 =>
                  if is_hex a && is_hex b && is_hex c && is_hex d then
                    '(t, r) ← json_string s3;
                    Some ((hex_value a * 4096 + hex_value b * 256
                           + hex_value c * 16 + hex_value d)%N :: t, r)
                  else None
              | _ => None
              end
            else x ← json_escape e; '(t, r) ← json_string s2; Some (x :: t, r)
        | [] => None
        end
      else '(t, r) ← json_string s'; Some (c :: t, r)
  end.

(** The exponent part of a number, when there is one: it needs a digit. *)
Definition json_exponent (s : jstr) : option (Z * jstr) :=
  match s with
  | c :: _ =>
      if (c =? 101)%N || (c =? 69)%N then
        match scan_exponent s with
        | (e, r) => if bool_decide (r = s) then None else Some (e, r)
        end
      else Some (0%Z, s)
  | [] => Some (0%Z, s)
  end.

(** A number after its sign. *)
Definition json_unsigned (neg : bool) (s : jstr) : option (dbl * jstr) :=
  let '(ip, r) := span_digits s in
  match ip with
  | [] => None
  | c :: ip' =>
      if (c =? 48)%N && negb (bool_decide (ip' = [])) then None
      else
        let whole := '(e, r3) ← json_exponent r; Some (decimal_number neg ip [] e, r3) in
        match r with
        | d :: r1 =>
            if (d =? 46)%N then
              match span_digits r1 with
              | ([], _) => None
              | (fp, r2) => '(e, r3) ← json_exponent r2; Some (decimal_number neg ip fp e, r3)
              end
            else whole
        | [] => whole
        end
  end.

Definition json_number (s : jstr) : option (dbl * jstr) :=
  match s with
  | [] => None
  | c :: s' => if (c =? 45)%N then json_unsigned true s' else json_unsigned false s
  end.

Definition json_literal (s : jstr) : option (jsval * jstr) :=
  if startsWith s (js "true") then Some (VBool true, drop 4 s)
  else if startsWith s (js "false") then Some (VBool false, drop 5 s)
  else if startsWith s (js "null") then Some (VNull, drop 4 s)
  else '(d, r) ← json_number s; Some (VNum d, r).

Fixpoint json_value (fuel : nat) (s : jstr) : option (jsval * jstr) :=
  match fuel with
  | O => None
  | S fuel =>
      match skip_space s with
      | [] => None
      | c :: r =>
          if (c =? 123)%N then
            match skip_space r with
            | [] => None
            | d :: r' => if (d =? 125)%N then Some (VObj [], r') else json_members fuel [] (d :: r')
            end
          else if (c =? 91)%N then
            match skip_space r with
            | [] => None
            | d :: r' => if (d =? 93)%N then Some (VArr [], r') else json_elements fuel [] (d :: r')
            end
          else if (c =? 34)%N then '(t, r') ← json_string r; Some (VStr t, r')
          else json_literal (c :: r)
      end
  end
with json_members (fuel : nat) (acc : list (jstr * jsval)) (s : jstr) : option (jsval * jstr) :=
  match fuel with
  | O => None
  | S fuel =>
      match skip_space s with
      | [] => None
      | q :: r =>
          if (q =? 34)%N then
            '(k, r1) ← json_string r;
            match skip_space r1 with
            | [] => None
            | e :: r2 =>
                if (e =? 58)%N then
                  '(v, r3) ← json_value fuel r2;
                  match skip_space r3 with
                  | [] => None
                  | d :: r4 =>
                      if (d =? 44)%N then json_members fuel (obj_set k v acc) r4
                      else if (d =? 125)%N then Some (VObj (obj_set k v acc), r4)
                      else None
                  end
                else None
            end
          else None
      end
  end
with json_elements (fuel : nat) (acc : list jsval) (s : jstr) : option (jsval * jstr) :=
  match fuel with
  | O => None
  | S fuel =>
      '(v, r) ← json_value fuel s;
      match skip_space r with
      | [] => None
      | d :: r1 =>
          if (d =? 44)%N then json_elements fuel (acc ++ [v]) r1
          else if (d =? 93)%N then Some (VArr (acc ++ [v]), r1)
          else None
      end
  end.

(** Every recursive call consumes a character at least every second call. *)
Definition json_fuel (s : jstr) : nat := 2 * length s + 2.

(** [JSON.parse(s)]; [None] is a SyntaxError. *)
Definition json_parse (s : jstr) : option jsval :=
  '(v, r) ← json_value (json_fuel s) s;
  match skip_space r with [] => Some v | _ => None end.

(** ** [JSON.stringify] *)

Definition hex4 (c : N) : jstr := hex_byte false (c / 256) ++ hex_byte false (c mod 256).

(** One code unit of a quoted string; [next] decides whether a surrogate is paired. *)
Definition json_quote_char (c : N) : jstr :=
  (if c =? 34 then [92; 34] else if c =? 92 then [92; 92]
   else if c =? 8 then [92; 98] else if c =? 12 then [92; 102] else if c =? 10 then [92; 110]
   else if c =? 13 then [92; 114] else if c =? 9 then [92; 116]
   else if c <? 32 then 92 :: 117 :: hex4 c else [c])%N.

Fixpoint json_quote_body (s : jstr) : jstr :=
  match s with
  | [] => []
  | c :: s' =>
      if is_high c then
        match s' with
        | d :: s'' => if is_low d then c :: d :: json_quote_body s''
                      else (92 :: 117 :: hex4 c)%N ++ json_quote_body s'
        | [] => (92 :: 117 :: hex4 c)%N
        end
      else if is_low c then (92 :: 117 :: hex4 c)%N ++ json_quote_body s'
      else json_quote_char c ++ json_quote_body s'
  end.

(** [JSON.stringify(s)] for a string. *)
Definition json_quote (s : jstr) : jstr := (34 :: json_quote_body s ++ [34])%N.

(** [JSON.stringify(v)]; [None] is [undefined]. *)
Fixpoint json_stringify (v : jsval) : option jstr :=
  match v with
  | VUndef | VFun _ => None
  | VNull => Some (js "null")
  | VBool b => Some (if b then js "true" else js "false")
  | VNum d => Some (if isFinite d then num_to_string d else js "null")
  | VStr s => Some (json_quote s)
  | VArr l =>
      Some (91%N :: join [44%N] (map (λ v, default (js "null") (json_stringify v)) l) ++ [93%N])
  | VObj o =>
      Some (123%N :: join [44%N] (omap (λ p, t ← json_stringify p.2;
                                              Some (json_quote p.1 ++ 58%N :: t)) o) ++ [125%N])
  end.

(** ** Property reads *)

(** The properties every ordinary object inherits from [Object.prototype].  Deno
    removes the [__proto__] accessor, so that name is an ordinary key. *)
Definition object_prototype : list jstr :=
  map js ["constructor"; "__defineGetter__"; "__defineSetter__"; "hasOwnProperty";
          "__lookupGetter__"; "__lookupSetter__"; "isPrototypeOf"; "propertyIsEnumerable";
          "toString"; "valueOf"; "toLocaleString"]%string.

(** [o[k]] on an object literal: an own property, else an inherited function. *)
Definition js_get (o : list (jstr * jsval)) (k : jstr) : jsval :=
  match own_get k o with
  | Some v => v
  | None => if bool_decide (k ∈ object_prototype) then VFun k else VUndef
  end.

(** [String(v)]. *)
Fixpoint js_String (v : jsval) : jstr :=
  match v with
  | VUndef => js "undefined"
  | VNull => js "null"
  | VBool b => if b then js "true" else js "false"
  | VNum d => num_to_string d
  | VStr s => s
  | VArr l =>
      join [44%N] (map (λ v, match v with VUndef | VNull => [] | _ => js_String v end) l)
  | VObj _ => js "[object Object]"
  | VFun f => js "function " ++ f ++ js "() { [native code] }"
  end.

(** Truthiness: [false] on the values [!] turns into [true]. *)
Definition truthy (v : jsval) : bool :=
  match v with
  | VUndef | VNull => false
  | VBool b => b
  | VNum d => negb (isNaN d || num_eqb d (dbl_of_Z 0))
  | VStr s => negb (bool_decide (s = []))
  | VArr _ | VObj _ | VFun _ => true
  end.

Lemma js_get_obj o k c : js_get o k = VObj c ↔ own_get k o = Some (VObj c).
Proof.
  unfold js_get. destruct (own_get k o); [split; congruence|].
  case_bool_decide; split; done.
Qed.

Lemma js_get_set o k v k' :
  js_get (obj_set k v o) k' = if bool_decide (k' = k) then v else js_get o k'.
Proof. unfold js_get. rewrite own_get_set. by case_bool_decide. Qed.

(** Every object of a value has distinct keys. *)
Fixpoint wf_val (v : jsval) : Prop :=
  match v with
  | VArr l => foldr (λ v P, wf_val v ∧ P) True l
  | VObj o => NoDup (keys o) ∧ foldr (λ p P, wf_val p.2 ∧ P) True o
  | _ => True
  end.

Lemma wf_val_obj o : wf_val (VObj o) ↔ NoDup (keys o) ∧ Forall (λ p, wf_val p.2) o.
Proof.
  simpl. assert (foldr (λ p P, wf_val p.2 ∧ P) True o ↔ Forall (λ p, wf_val p.2) o) as ->; [|done].
  induction o as [|p o IH]; simpl; [by split; constructor|]. by rewrite Forall_cons, IH.
Qed.

Lemma wf_val_arr l : wf_val (VArr l) ↔ Forall wf_val l.
Proof.
  simpl. induction l as [|p l IH]; simpl; [by split; constructor|]. by rewrite Forall_cons, IH.
Qed.

Fixpoint wf_valb (v : jsval) : bool :=
  match v with
  | VArr l => forallb wf_valb l
  | VObj o => bool_decide (NoDup (keys o)) && forallb (λ p, wf_valb p.2) o
  | _ => true
  end.

Lemma wf_valb_correct v : wf_valb v = true → wf_val v.
Proof.
  induction v as [| | | | |l IH|o IH|] using jsval_ind'; try done.
  - intros H. apply wf_val_arr. cbn [wf_valb] in H. rewrite forallb_forall in H.
    rewrite Forall_forall in *. intros x Hx. apply IH; [done|]. by apply H, list_elem_of_In.
  - intros H. apply wf_val_obj. cbn [wf_valb] in H. apply andb_true_iff in H as [Hn H].
    apply bool_decide_eq_true in Hn. split; [done|]. rewrite forallb_forall in H.
    rewrite Forall_forall in *. intros x Hx. apply IH; [done|]. by apply H, list_elem_of_In.
Qed.

(** ** Well-formed values *)

Lemma wf_set o k v : wf_val (VObj o) → wf_val v → wf_val (VObj (obj_set k v o)).
Proof.
  rewrite !wf_val_obj. intros [Hn Hf] Hv. split; [by apply keys_set_NoDup|].
  rewrite Forall_forall in *. intros p [->|Hp]%elem_of_set; [done | by apply Hf].
Qed.

Lemma wf_empty : wf_val (VObj []).
Proof. apply wf_val_obj. split; constructor. Qed.

Lemma wf_get o k v : wf_val (VObj o) → own_get k o = Some v → wf_val v.
Proof.
  rewrite wf_val_obj. intros [_ Hf] H%own_get_elem. rewrite Forall_forall in Hf.
  by apply Hf in H.
Qed.

Lemma wf_js_get o k : wf_val (VObj o) → wf_val (js_get o k).
Proof.
  intros Ho. unfold js_get. destruct (own_get k o) eqn:E; [by eapply wf_get|].
  by case_bool_decide.
Qed.

#[export] Hint Resolve wf_set wf_empty wf_get wf_js_get : forge.

Lemma json_literal_wf s v r : json_literal s = Some (v, r) → wf_val v.
Proof.
  unfold json_literal. intros H. repeat (case_match; simplify_eq/=; [done|]).
  apply bind_Some in H as ([d r'] & _ & [= <- _]). done.
Qed.

Lemma json_value_wf fuel :
  (∀ s v r, json_value fuel s = Some (v, r) → wf_val v) ∧
  (∀ acc s v r, wf_val (VObj acc) → json_members fuel acc s = Some (v, r) → wf_val v) ∧
  (∀ acc s v r, Forall wf_val acc → json_elements fuel acc s = Some (v, r) → wf_val v).
Proof.
  induction fuel as [|fuel (IHv & IHm & IHe)]; [by split_and!|]. split_and!.
  - intros s v r. simpl. intros H.
    repeat (case_match; simplify_eq; try (by eapply IHm; [apply wf_empty | eassumption]);
            try (by eapply IHe; [constructor | eassumption]); try (by apply json_literal_wf in H);
            try (by apply wf_empty); try (by apply wf_val_arr)).
    all: apply bind_Some in H as ([? ?] & _ & [= <- _]); done.
  - intros acc s v r Ha. simpl. intros H.
    repeat (case_match; simplify_eq).
    all: apply bind_Some in H as ([k r1] & _ & H).
    all: repeat (case_match; simplify_eq).
    all: apply bind_Some in H as ([w r2] & Hw & H); apply IHv in Hw.
    all: assert (wf_val (VObj (obj_set k w acc))) by by apply wf_set.
    all: repeat (case_match; simplify_eq; try done; try (by eapply IHm)).
  - intros acc s v r Ha. simpl. intros ([w r2] & Hw & H)%bind_Some. apply IHv in Hw.
    assert (Forall wf_val (acc ++ [w])) by (apply Forall_app; split; [done | by constructor]).
    repeat (case_match; simplify_eq; try (by apply wf_val_arr); try (by eapply IHe)).
Qed.

Lemma json_parse_wf s v : json_parse s = Some v → wf_val v.
Proof.
  unfold json_parse. intros ([w r] & Hw & H)%bind_Some.
  case_match; simplify_eq. by apply (proj1 (json_value_wf _)) in Hw.
Qed.
