(* ===== verification/JsonText.v ===== *)
(** * JSON text as a concrete syntax tree

    [cst] is the syntax tree of a JSON text, white space and duplicate members included.
    [json_parse] accepts exactly the texts of such trees ([json_parse_cst]), a printed
    value is the text of one ([cst_of]), and parsing a text gives the value of its tree
    ([json_parse_text]); printing and parsing are therefore inverse
    ([json_parse_stringify]). *)

From S2P Require Export Json.
Local Open Scope nat_scope.

(** ** Property order *)

(** [k] does not go before [k'] when it is inserted. *)
Definition key_after (k k' : jstr) : bool :=
  match array_index k, array_index k' with
  | Some n, Some n' => negb (n <? n')%N
  | Some _, None => false
  | None, _ => true
  end.

Fixpoint in_order (ks : list jstr) : bool :=
  match ks with
  | [] => true
  | k :: ks => forallb (λ k', key_after k' k && bool_decide (k ≠ k')) ks && in_order ks
  end.

Section order.
Context {V : Type}.
Implicit Types o : list (jstr * V).

(** The own properties of an object, as the engine lists them. *)
Definition ordered o : Prop := in_order (keys o) = true.

Lemma in_order_app ks k : in_order (ks ++ [k])
  = in_order ks && forallb (λ k', key_after k k' && bool_decide (k' ≠ k)) ks.
Proof.
  induction ks as [|k' ks IH]; simpl; [done|]. rewrite forallb_app, IH. simpl.
  rewrite andb_true_r.
  generalize (forallb (λ k'0, key_after k'0 k' && bool_decide (k' ≠ k'0)) ks).
  generalize (forallb (λ k'0, key_after k k'0 && bool_decide (k'0 ≠ k)) ks).
  intros b1 b2. by destruct b1, b2, (in_order ks), (key_after k k'), (bool_decide (k' ≠ k)).
Qed.

Lemma insert_key_last k v o :
  forallb (λ k', key_after k k') (keys o) = true → insert_key k v o = o ++ [(k, v)].
Proof.
  induction o as [|[k' v'] o IH]; simpl; [done|]. intros [H1 H2]%andb_true_iff.
  assert ((match array_index k, array_index k' with
           | Some n, Some n' => (n <? n')%N | Some _, None => true | None, _ => false end) = false) as ->.
  { unfold key_after in H1. destruct (array_index k), (array_index k'); try done.
    by apply negb_true_iff. }
  by rewrite IH.
Qed.

Lemma ordered_snoc_set k v o : ordered (o ++ [(k, v)]) → obj_set k v o = o ++ [(k, v)].
Proof.
  unfold ordered, keys. rewrite map_app. simpl. rewrite in_order_app.
  intros [_ H]%andb_true_iff. unfold obj_set.
  rewrite forallb_forall in H. replace (own_get k o) with (@None V).
  - apply insert_key_last, forallb_forall. intros k' Hk. by apply H, andb_true_iff in Hk as [? _].
  - symmetry. apply own_get_None. intros Hk. apply list_elem_of_In, H, andb_true_iff in Hk as [_ Hk].
    by apply bool_decide_eq_true in Hk.
Qed.

Lemma ordered_prefix o o' : ordered (o ++ o') → ordered o.
Proof.
  revert o; induction o' as [|p o' IH]; intros o H; [by rewrite app_nil_r in H|].
  replace (o ++ p :: o') with ((o ++ [p]) ++ o') in H by by rewrite <- app_assoc.
  apply IH in H. unfold ordered, keys in *. rewrite map_app in H. simpl in H.
  rewrite in_order_app in H. by apply andb_true_iff in H as [? _].
Qed.

Lemma foldl_set_ordered o o' :
  ordered (o' ++ o) → foldl (λ o p, obj_set p.1 p.2 o) o' o = o' ++ o.
Proof.
  revert o'; induction o as [|[k v] o IH]; intros o' H; simpl; [by rewrite app_nil_r|].
  replace (o' ++ (k, v) :: o) with ((o' ++ [(k, v)]) ++ o) in * by by rewrite <- app_assoc.
  rewrite ordered_snoc_set by by eapply ordered_prefix. by apply IH.
Qed.

(** An object rebuilt from its own entries is the same object. *)
Lemma of_entries_ordered o : ordered o → of_entries o = o.
Proof. apply (foldl_set_ordered o []). Qed.

Lemma in_order_NoDup ks : in_order ks = true → NoDup ks.
Proof.
  induction ks as [|k ks IH]; simpl; [constructor|]. intros [H1 H2]%andb_true_iff.
  constructor; [|by apply IH]. intros Hk. rewrite forallb_forall in H1.
  apply list_elem_of_In, H1, andb_true_iff in Hk as [_ Hk]. by apply bool_decide_eq_true in Hk.
Qed.

Lemma key_after_flip k k' : key_after k k' = false → key_after k' k = true.
Proof. unfold key_after. destruct (array_index k), (array_index k'); try done. lia. Qed.

Lemma key_after_trans a b c :
  key_after a b = true → key_after b c = true → key_after a c = true.
Proof. unfold key_after. destruct (array_index a), (array_index b), (array_index c); try done. lia. Qed.

Lemma ordered_insert k v o : k ∉ keys o → ordered o → ordered (insert_key k v o).
Proof.
  unfold ordered. induction o as [|[k' v'] o IH]; [done|]. intros Hn H.
  cbn [keys map fst in_order] in H, Hn. apply andb_true_iff in H as [H1 H2].
  fold (keys o) in *. rewrite forallb_forall in H1.
  simpl. destruct (match array_index k, array_index k' with
           | Some n, Some n' => (n <? n')%N | Some _, None => true | None, _ => false end) eqn:E.
  - assert (Hk : key_after k k' = false).
    { unfold key_after. destruct (array_index k), (array_index k'); try done. lia. }
    apply key_after_flip in Hk.
    cbn [keys map fst in_order]. fold (keys o). apply andb_true_iff. split.
    + simpl. rewrite Hk. apply andb_true_iff. split.
      * apply bool_decide_eq_true. set_solver.
      * apply forallb_forall. intros x Hx. pose proof (H1 x Hx) as [Hx' _]%andb_true_iff.
        apply andb_true_iff. split; [by eapply key_after_trans|].
        apply bool_decide_eq_true. intros ->. apply Hn. apply list_elem_of_In in Hx. set_solver.
    + apply andb_true_iff. split; [|done]. by apply forallb_forall.
  - assert (Hk : key_after k k' = true).
    { unfold key_after. destruct (array_index k), (array_index k'); try done. lia. }
    cbn [keys map fst in_order]. fold (keys (insert_key k v o)). apply andb_true_iff. split.
    + apply forallb_forall. intros x Hx. apply list_elem_of_In in Hx. rewrite keys_insert in Hx.
      apply elem_of_cons in Hx as [->|Hx]; [|by apply H1, list_elem_of_In].
      rewrite Hk. apply bool_decide_eq_true. set_solver.
    + apply IH; [set_solver | done].
Qed.

Lemma ordered_set k v o : ordered o → ordered (obj_set k v o).
Proof.
  intros H. unfold obj_set. destruct (own_get k o) eqn:E.
  - unfold ordered. by rewrite keys_update.
  - apply ordered_insert; [by apply own_get_None | done].
Qed.

Lemma ordered_entries o : ordered (of_entries o).
Proof.
  unfold of_entries. assert (H : @ordered [])  by done. revert H. generalize (@nil (jstr * V)).
  induction o as [|p o IH]; intros o0 H; simpl; [done|]. by apply IH, ordered_set.
Qed.

Lemma insert_key_perm k v o : insert_key k v o ≡ₚ (k, v) :: o.
Proof. induction o as [|[k' v'] o IH]; simpl; [done|]. case_match; [done|]. rewrite IH. constructor. Qed.

(** Distinct keys are kept with their values, in the order of the engine. *)
Lemma of_entries_perm o : NoDup (keys o) → of_entries o ≡ₚ o.
Proof.
  intros H. unfold of_entries.
  assert (E : ∀ acc, NoDup (keys (acc ++ o)) → foldl (λ o p, obj_set p.1 p.2 o) acc o ≡ₚ acc ++ o); [|by apply (E [])].
  clear H. induction o as [|[k v] o IH]; intros acc Hn; cbn [foldl]; [by rewrite app_nil_r|].
  assert (Hp : obj_set k v acc ≡ₚ acc ++ [(k, v)]).
  { unfold obj_set. replace (own_get k acc) with (@None V); [by rewrite insert_key_perm, Permutation_cons_append|].
    symmetry. apply own_get_None. unfold keys in Hn. rewrite map_app, map_cons in Hn. apply NoDup_app in Hn as (_ & Hn & _).
    intros Hk. apply (Hn k Hk). by left. }
  cbn [fst snd]. rewrite IH; [by rewrite Hp, <- app_assoc|].
  assert (E : keys (obj_set k v acc ++ o) ≡ₚ keys (acc ++ (k, v) :: o)) by (unfold keys; apply Permutation_map; by rewrite Hp, <- app_assoc).
  by rewrite E.
Qed.
End order.
#[export] Hint Resolve ordered_set ordered_entries in_order_NoDup : forge.

(** ** String tokens *)

(** [raw_ok raw s]: the text between quotes and the string it denotes. *)
Inductive raw_ok : jstr → jstr → Prop :=
  | raw_nil : raw_ok [] []
  | raw_char c raw s : c ≠ 34%N → c ≠ 92%N → (32 <= c)%N → raw_ok raw s → raw_ok (c :: raw) (c :: s)
  | raw_escape e x raw s : e ≠ 117%N → json_escape e = Some x →
      raw_ok raw s → raw_ok (92%N :: e :: raw) (x :: s)
  | raw_unicode a b c d raw s :
      is_hex a = true → is_hex b = true → is_hex c = true → is_hex d = true → raw_ok raw s →
      raw_ok (92%N :: 117%N :: a :: b :: c :: d :: raw)
             ((hex_value a * 4096 + hex_value b * 256 + hex_value c * 16 + hex_value d)%N :: s).
#[export] Hint Constructors raw_ok : forge.

Lemma json_string_raw raw s r : raw_ok raw s → json_string (raw ++ 34%N :: r) = Some (s, r).
Proof.
  induction 1 as [|c raw s H1 H2 H3 _ IH|e x raw s H1 H2 _ IH|a b c d raw s Ha Hb Hc Hd _ IH]; simpl.
  - done.
  - replace (c =? 34)%N with false by lia. replace (c <? 32)%N with false by lia.
    replace (c =? 92)%N with false by lia. by rewrite IH.
  - replace (e =? 117)%N with false by lia. by rewrite H2, IH.
  - by rewrite Ha, Hb, Hc, Hd, IH.
Qed.

Lemma json_string_inv n t s r : length t ≤ n → json_string t = Some (s, r) →
  ∃ raw, raw_ok raw s ∧ t = raw ++ 34%N :: r.
Proof.
  revert t s r; induction n as [|n IH]; intros [|c t] s r Hn; simpl; try (simpl in Hn; lia); try done.
  destruct (c =? 34)%N eqn:E1;
    [intros [= <- <-]; exists []; split; [apply raw_nil | simpl; f_equal; lia]|].
  destruct (c <? 32)%N eqn:E2; [done|]. destruct (c =? 92)%N eqn:E3.
  - destruct t as [|e t]; [done|]. destruct (e =? 117)%N eqn:E4.
    + destruct t as [|a [|b [|c' [|d t]]]]; try done.
      destruct (is_hex a && is_hex b && is_hex c' && is_hex d) eqn:Eh; [|done]. bool_inv.
      intros ([s' r'] & Hj & [= <- <-])%bind_Some.
      apply IH in Hj as (raw & Hraw & ->); [|simpl in *; lia].
      exists (92 :: 117 :: a :: b :: c' :: d :: raw)%N. split; [by constructor|].
      simpl. repeat f_equal; lia.
    + intros (x & Hx & ([s' r'] & H & [= <- <-])%bind_Some)%bind_Some.
      apply IH in H as (raw & Hraw & ->); [|simpl in *; lia].
      exists (92 :: e :: raw)%N. split; [constructor; [lia|done|done]|]. simpl. f_equal; lia.
  - intros ([s' r'] & H & [= <- <-])%bind_Some.
    apply IH in H as (raw & Hraw & ->); [|simpl in *; lia].
    exists (c :: raw). split; [constructor; [lia|lia|lia|done]|done].
Qed.

Lemma raw_ok_app raw s raw' s' : raw_ok raw s → raw_ok raw' s' → raw_ok (raw ++ raw') (s ++ s').
Proof. induction 1; simpl; eauto with forge. Qed.

Lemma is_hex_digit up n : (n < 16)%N → is_hex (hex_digit up n) = true ∧ hex_value (hex_digit up n) = n.
Proof.
  intros H. unfold is_hex, hex_digit, hex_value, is_digit, in_range.
  destruct up; destruct (n <? 10)%N eqn:E;
    split; repeat match goal with |- context [(?a <=? ?b)%N] =>
      first [replace (a <=? b)%N with true by lia | replace (a <=? b)%N with false by lia] end;
    simpl; try done; lia.
Qed.

Lemma raw_ok_hex4 c raw s : (c < 65536)%N → raw_ok raw s →
  raw_ok (92 :: 117 :: hex4 c ++ raw)%N (c :: s).
Proof.
  intros Hc H. unfold hex4, hex_byte. simpl.
  set (x1 := (c / 256 / 16)%N). set (x2 := ((c / 256) mod 16)%N).
  set (x3 := ((c mod 256) / 16)%N). set (x4 := ((c mod 256) mod 16)%N).
  assert (x1 < 16 ∧ x2 < 16 ∧ x3 < 16 ∧ x4 < 16 ∧ c = x1 * 4096 + x2 * 256 + x3 * 16 + x4)%N
    as (H1 & H2 & H3 & H4 & E).
  { unfold x1, x2, x3, x4.
    pose proof (N.div_mod c 256). pose proof (N.div_mod (c / 256) 16).
    pose proof (N.div_mod (c mod 256) 16). pose proof (N.mod_lt c 256).
    pose proof (N.mod_lt (c / 256) 16). pose proof (N.mod_lt (c mod 256) 16).
    assert (c / 256 < 256)%N by (apply N.Div0.div_lt_upper_bound; lia).
    assert (c / 256 / 16 < 16)%N by (apply N.Div0.div_lt_upper_bound; lia).
    assert (c mod 256 / 16 < 16)%N by (apply N.Div0.div_lt_upper_bound; lia). lia. }
  pose proof (is_hex_digit false x1 H1) as [G1 V1]. pose proof (is_hex_digit false x2 H2) as [G2 V2].
  pose proof (is_hex_digit false x3 H3) as [G3 V3]. pose proof (is_hex_digit false x4 H4) as [G4 V4].
  pose proof (raw_unicode _ _ _ _ _ _ G1 G2 G3 G4 H) as G. by rewrite V1, V2, V3, V4, <- E in G.
Qed.

(** Code units are sixteen bits wide. *)
Definition code_units (s : jstr) : Prop := Forall (λ c, (c < 65536)%N) s.

Lemma raw_ok_quote_char c raw s : is_surrogate c = false →
  raw_ok raw s → raw_ok (json_quote_char c ++ raw) (c :: s).
Proof.
  intros Hs H. unfold json_quote_char.
  repeat match goal with |- context [(if (c =? ?k)%N then _ else _)] =>
    destruct (c =? k)%N eqn:?; [assert (c = k) as -> by lia; apply (raw_escape _ _ _ _); [lia|done|done]|] end.
  destruct (c <? 32)%N eqn:E.
  - apply raw_ok_hex4; [lia | done].
  - constructor; [lia|lia|lia|done].
Qed.

Lemma raw_ok_quote s : code_units s → raw_ok (json_quote_body s) s.
Proof.
  assert (Hgen : ∀ n s, length s ≤ n → code_units s → raw_ok (json_quote_body s) s).
  { clear s. induction n as [|n IH]; intros [|c s] Hn Hu; try (simpl in Hn; lia); [constructor..|].
    apply Forall_cons in Hu as [Hc Hu]. cbn [json_quote_body].
    destruct (is_high c) eqn:Eh.
    - destruct s as [|d s]; [by apply (raw_ok_hex4 c [] []); [lia | constructor]|].
      destruct (is_low d) eqn:El.
      + unfold is_high, is_low, in_range in *. apply Forall_cons in Hu as [_ Hu].
        constructor; [lia|lia|lia|]. constructor; [lia|lia|lia|]. apply IH; [simpl in *; lia | done].
      + apply (raw_ok_hex4 c (json_quote_body (d :: s))); [done|].
        apply (IH (d :: s)); [simpl in *; lia | done].
    - destruct (is_low c) eqn:El.
      + apply (raw_ok_hex4 c (json_quote_body s)); [done|]. apply IH; [simpl in *; lia | done].
      + apply raw_ok_quote_char; [|apply IH; [simpl in *; lia | done]].
        unfold is_surrogate, is_high, is_low, in_range in *. lia. }
  apply (Hgen (length s)). lia.
Qed.

(** ** Syntax trees *)

(** The key of a member: white space, the text between the quotes, the string, and the
    white space before the colon. *)
Record mkey := { k_pre : jstr; k_raw : jstr; k_str : jstr; k_post : jstr }.

(** Every node has its leading and trailing white space; [wi] is the white space inside
    an empty array or object. *)
Inductive cst : Type :=
  | CLit (w t : jstr) (v : jsval) (w' : jstr)
  | CStr (w raw s : jstr) (w' : jstr)
  | CArr (w wi : jstr) (l : list cst) (w' : jstr)
  | CObj (w wi : jstr) (ms : list (mkey * cst)) (w' : jstr).

Section cst_ind.
Context (P : cst → Prop).
Context (HL : ∀ w t v w', P (CLit w t v w')) (HS : ∀ w raw s w', P (CStr w raw s w'))
  (HA : ∀ w wi l w', Forall P l → P (CArr w wi l w'))
  (HO : ∀ w wi ms w', Forall (λ m, P m.2) ms → P (CObj w wi ms w')).

Fixpoint cst_ind' (t : cst) : P t :=
  match t with
  | CLit w t v w' => HL w t v w'
  | CStr w raw s w' => HS w raw s w'
  | CArr w wi l w' => HA w wi l w' ((fix go l := match l return Forall P l with
                                   | [] => Forall_nil_2 P
                                   | t :: l => Forall_cons_2 P t l (cst_ind' t) (go l)
                                   end) l)
  | CObj w wi ms w' => HO w wi ms w' ((fix go ms := match ms return Forall (λ m, P m.2) ms with
                                   | [] => Forall_nil_2 _
                                   | m :: ms => Forall_cons_2 _ m ms (cst_ind' m.2) (go ms)
                                   end) ms)
  end.
End cst_ind.

Definition quoted (raw : jstr) : jstr := 34%N :: raw ++ [34%N].

Definition key_text (k : mkey) : jstr := k_pre k ++ quoted (k_raw k) ++ k_post k ++ [58%N].

Fixpoint text (t : cst) : jstr :=
  match t with
  | CLit w t _ w' => w ++ t ++ w'
  | CStr w raw _ w' => w ++ quoted raw ++ w'
  | CArr w wi l w' =>
      w ++ 91%N :: (match l with [] => wi | _ => join [44%N] (map text l) end) ++ 93%N :: w'
  | CObj w wi ms w' =>
      w ++ 123%N :: (match ms with
                     | [] => wi
                     | _ => join [44%N] (map (λ m, key_text m.1 ++ text m.2) ms)
                     end) ++ 125%N :: w'
  end.

(** The value [JSON.parse] gives: a repeated member overwrites the earlier one. *)
Fixpoint value (t : cst) : jsval :=
  match t with
  | CLit _ _ v _ => v
  | CStr _ _ s _ => VStr s
  | CArr _ _ l _ => VArr (map value l)
  | CObj _ _ ms _ => VObj (of_entries (map (λ m, (k_str m.1, value m.2)) ms))
  end.

Definition spaces (w : jstr) : Prop := Forall (λ c, is_json_space c = true) w.

(** The characters of numbers and of [true], [false] and [null]. *)
Definition lit_char (c : N) : bool := is_digit c || is_lower c || is_upper c
  || (c =? 43)%N || (c =? 45)%N || (c =? 46)%N.
Definition lit_ok (t : jstr) : Prop := t ≠ [] ∧ Forall (λ c, lit_char c = true) t.

Definition key_ok (k : mkey) : Prop := spaces (k_pre k) ∧ raw_ok (k_raw k) (k_str k) ∧ spaces (k_post k).

(** The shape of a text of JSON tokens. *)
Fixpoint tokens_ok (t : cst) : Prop :=
  match t with
  | CLit w t _ w' => spaces w ∧ lit_ok t ∧ spaces w'
  | CStr w raw s w' => spaces w ∧ raw_ok raw s ∧ spaces w'
  | CArr w wi l w' => spaces w ∧ spaces wi ∧ spaces w' ∧ foldr (λ t P, tokens_ok t ∧ P) True l
  | CObj w wi ms w' =>
      spaces w ∧ spaces wi ∧ spaces w' ∧ foldr (λ m P, (key_ok m.1 ∧ tokens_ok m.2) ∧ P) True ms
  end.

Lemma foldr_and_Forall {A} (P : A → Prop) l : foldr (λ x Q, P x ∧ Q) True l ↔ Forall P l.
Proof. induction l; simpl; [by split; constructor|]. by rewrite Forall_cons, IHl. Qed.

(** Add white space in front of, or after, a node. *)
Definition before (u : jstr) (t : cst) : cst :=
  match t with
  | CLit w t v w' => CLit (u ++ w) t v w'
  | CStr w raw s w' => CStr (u ++ w) raw s w'
  | CArr w wi l w' => CArr (u ++ w) wi l w'
  | CObj w wi ms w' => CObj (u ++ w) wi ms w'
  end.
Definition after (u : jstr) (t : cst) : cst :=
  match t with
  | CLit w t v w' => CLit w t v (w' ++ u)
  | CStr w raw s w' => CStr w raw s (w' ++ u)
  | CArr w wi l w' => CArr w wi l (w' ++ u)
  | CObj w wi ms w' => CObj w wi ms (w' ++ u)
  end.

Lemma text_before u t : text (before u t) = u ++ text t.
Proof. destruct t; simpl; by rewrite <- app_assoc. Qed.
Lemma text_after u t : text (after u t) = text t ++ u.
Proof.
  destruct t; unfold quoted; simpl; rewrite <- ?app_assoc; f_equal; simpl;
    rewrite <- ?app_assoc; simpl; rewrite <- ?app_assoc; done.
Qed.
Lemma value_before u t : value (before u t) = value t.
Proof. by destruct t. Qed.
Lemma value_after u t : value (after u t) = value t.
Proof. by destruct t. Qed.
Lemma tokens_before u t : spaces u → tokens_ok t → tokens_ok (before u t).
Proof. destruct t; simpl; intros; destruct_and?; split_and?; try done; by apply Forall_app. Qed.
Lemma tokens_after u t : spaces u → tokens_ok t → tokens_ok (after u t).
Proof. destruct t; simpl; intros; destruct_and?; split_and?; try done; by apply Forall_app. Qed.

Lemma skip_space_split s : ∃ w, spaces w ∧ s = w ++ skip_space s.
Proof.
  induction s as [|c s (w & Hw & E)]; simpl; [by exists []; split; [constructor|]|].
  destruct (is_json_space c) eqn:Ec.
  - exists (c :: w). split; [by constructor|]. by rewrite E at 1.
  - exists []. split; [constructor | done].
Qed.

Lemma skip_space_app w s : spaces w → skip_space (w ++ s) = skip_space s.
Proof. induction 1 as [|c w Hc _ IH]; simpl; [done|]. by rewrite Hc. Qed.

Lemma skip_space_all w : spaces w → skip_space w = [].
Proof. intros H. pose proof (skip_space_app w [] H) as E. by rewrite app_nil_r in E. Qed.

(** *** A literal takes literal characters *)

Lemma digits_lit ds : Forall (λ c, is_digit c = true) ds → Forall (λ c, lit_char c = true) ds.
Proof. intros Hds. eapply Forall_impl; [exact Hds|]. intros c H. unfold lit_char. by rewrite H. Qed.

Lemma json_exponent_split s e r : json_exponent s = Some (e, r) →
  ∃ t, s = t ++ r ∧ Forall (λ c, lit_char c = true) t.
Proof.
  unfold json_exponent, scan_exponent. destruct s as [|c s]; [intros [= <- <-]; by exists []|].
  destruct ((c =? 101)%N || (c =? 69)%N) eqn:Ec; [|intros [= <- <-]; by exists []].
  assert (Hc : lit_char c = true).
  { apply orb_true_iff in Ec as [?|?]; assert (Hx : c = 101%N ∨ c = 69%N) by lia;
      by destruct Hx as [-> | ->]. }
  set (p := match s with [] => (false, s) | d :: s2 => _ end).
  assert (Hp : ∃ sg, s = sg ++ p.2 ∧ Forall (λ c, lit_char c = true) sg).
  { unfold p. destruct s as [|d s2]; [by exists []|].
    destruct (d =? 45)%N eqn:?; [assert (d = 45%N) as -> by lia; exists [45%N]; split; [done|by repeat constructor]|].
    destruct (d =? 43)%N eqn:?; [assert (d = 43%N) as -> by lia; exists [43%N]; split; [done|by repeat constructor]|].
    by exists []. }
  destruct Hp as (sg & Es & Hsg). destruct p as [neg s2]. simpl in Es.
  destruct (span_digits s2) as [ds r'] eqn:Ed. apply span_digits_spec in Ed as [-> Hds].
  destruct ds as [|d ds].
  - by rewrite bool_decide_eq_true_2.
  - case_bool_decide; [done|]. intros [= _ <-]. exists (c :: sg ++ d :: ds). split.
    + simpl. rewrite Es, <- app_assoc. done.
    + constructor; [done|]. apply Forall_app. split; [done | by apply digits_lit].
Qed.

Lemma json_unsigned_split neg s d r : json_unsigned neg s = Some (d, r) → ∃ t, s = t ++ r ∧ lit_ok t.
Proof.
  unfold json_unsigned.
  destruct (span_digits s) as [ip r1] eqn:E1. apply span_digits_spec in E1 as [-> Hip].
  destruct ip as [|c ip]; [done|]. destruct (_ && _); [done|]. cbn zeta.
  assert (Hend : ∀ fp u v, Forall (λ c, lit_char c = true) u → r1 = u ++ v →
    ('(e, r3) ← json_exponent v; Some (decimal_number neg (c :: ip) fp e, r3)) = Some (d, r) →
    ∃ t, (c :: ip) ++ r1 = t ++ r ∧ lit_ok t).
  { intros fp u v Hu -> ([e r3] & (t & -> & Ht)%json_exponent_split & [= _ <-])%bind_Some.
    exists ((c :: ip) ++ u ++ t). split; [by rewrite <- !app_assoc|]. split; [done|].
    repeat (apply Forall_app; split; try done). by apply digits_lit. }
  destruct r1 as [|d0 r1]; [by apply (Hend [] [] [])|].
  destruct (N.eqb_spec d0 46) as [->|]; [|by apply (Hend [] [] (d0 :: r1))].
  destruct (span_digits r1) as [fp r2] eqn:E2. apply span_digits_spec in E2 as [-> Hfp].
  destruct fp as [|f fp]; [done|]. apply (Hend (f :: fp) (46%N :: f :: fp) r2); [|done].
  constructor; [done|]. by apply digits_lit.
Qed.

Lemma json_number_split s d r : json_number s = Some (d, r) → ∃ t, s = t ++ r ∧ lit_ok t.
Proof.
  destruct s as [|c s]; [done|]. simpl. destruct (N.eqb_spec c 45) as [->|].
  - intros (t & -> & _ & Ht)%json_unsigned_split. exists (45%N :: t). split; [done|].
    split; [done | by constructor].
  - apply json_unsigned_split.
Qed.

Lemma json_literal_split s v r : json_literal s = Some (v, r) → ∃ t, s = t ++ r ∧ lit_ok t.
Proof.
  assert (Hw : ∀ w, startsWith s (js w) = true → lit_ok (js w) →
    ∃ t, s = t ++ drop (length (js w)) s ∧ lit_ok t).
  { intros w [k ->]%startsWith_prefix Hl. exists (js w). by rewrite drop_app_length. }
  unfold json_literal. intros H.
  destruct (startsWith s (js "true")) eqn:E1; [injection H as <- <-; apply (Hw "true"%string E1); split; [done | by repeat constructor]|].
  destruct (startsWith s (js "false")) eqn:E2; [injection H as <- <-; apply (Hw "false"%string E2); split; [done | by repeat constructor]|].
  destruct (startsWith s (js "null")) eqn:E3; [injection H as <- <-; apply (Hw "null"%string E3); split; [done | by repeat constructor]|].
  apply bind_Some in H as ([d r'] & Hd & [= <- <-]). by apply json_number_split in Hd.
Qed.

(** *** Every text [JSON.parse] accepts is the text of a tree *)

Definition member_text (m : mkey * cst) : jstr := key_text m.1 ++ text m.2.
Definition member_value (m : mkey * cst) : jstr * jsval := (k_str m.1, value m.2).

Lemma text_arr w wi t l w' :
  text (CArr w wi (t :: l) w') = w ++ 91%N :: join [44%N] (map text (t :: l)) ++ 93%N :: w'.
Proof. done. Qed.
Lemma text_obj w wi m ms w' :
  text (CObj w wi (m :: ms) w') = w ++ 123%N :: join [44%N] (map member_text (m :: ms)) ++ 125%N :: w'.
Proof. done. Qed.

Lemma join_cons2 sep x y l : join sep (x :: y :: l) = x ++ sep ++ join sep (y :: l).
Proof. done. Qed.

Definition tree_of (s : jstr) (v : jsval) (r : jstr) : Prop :=
  ∃ t, s = text t ++ r ∧ value t = v ∧ tokens_ok t.
Definition members_of (acc : list (jstr * jsval)) (s : jstr) (v : jsval) (r : jstr) : Prop :=
  ∃ m ms, s = join [44%N] (map member_text (m :: ms)) ++ 125%N :: r
    ∧ v = VObj (foldl (λ o p, obj_set p.1 p.2 o) acc (map member_value (m :: ms)))
    ∧ Forall (λ m, key_ok m.1 ∧ tokens_ok m.2) (m :: ms).
Definition elements_of (acc : list jsval) (s : jstr) (v : jsval) (r : jstr) : Prop :=
  ∃ t l, s = join [44%N] (map text (t :: l)) ++ 93%N :: r
    ∧ v = VArr (acc ++ map value (t :: l)) ∧ Forall tokens_ok (t :: l).

Lemma tree_before w s v r : spaces w → tree_of s v r → tree_of (w ++ s) v r.
Proof.
  intros Hw (t & -> & <- & Ht). exists (before w t).
  rewrite text_before, value_before, <- app_assoc. split_and!; [done..|by apply tokens_before].
Qed.

Lemma tree_skip s v r : tree_of s v r → tree_of s v (skip_space r).
Proof.
  intros (t & -> & <- & Ht). destruct (skip_space_split r) as (w & Hw & E).
  exists (after w t). rewrite text_after, value_after, <- app_assoc, <- E.
  split_and!; [done..|by apply tokens_after].
Qed.

Lemma member_text_mk pre raw k post t :
  member_text ({| k_pre := pre; k_raw := raw; k_str := k; k_post := post |}, t)
  = pre ++ 34%N :: raw ++ 34%N :: post ++ 58%N :: text t.
Proof.
  unfold member_text, key_text, quoted. simpl. repeat (rewrite <- ?app_assoc; simpl). done.
Qed.

(** Right-nest a text. *)
Ltac text_norm := repeat (rewrite <- ?app_assoc; cbn [app]).

Lemma member_text_pre w k c :
  member_text ({| k_pre := w ++ k_pre k; k_raw := k_raw k; k_str := k_str k; k_post := k_post k |}, c)
  = w ++ member_text (k, c).
Proof. unfold member_text, key_text. cbn [fst snd k_pre k_raw k_post]. by text_norm. Qed.

Lemma members_cons acc pre raw k post s v r w x :
  spaces pre → raw_ok raw k → spaces post → tree_of s x (44%N :: r) →
  members_of (obj_set k x acc) r v w →
  members_of acc (pre ++ 34%N :: raw ++ 34%N :: post ++ 58%N :: s) v w.
Proof.
  intros Hpre Hraw Hpost (t & -> & <- & Ht) (m & ms & -> & -> & Hms).
  exists ({| k_pre := pre; k_raw := raw; k_str := k; k_post := post |}, t), (m :: ms).
  split_and!; [|done|by constructor].
  rewrite !map_cons, join_cons2, member_text_mk. by text_norm.
Qed.

Lemma members_last acc pre raw k post s r x :
  spaces pre → raw_ok raw k → spaces post → tree_of s x (125%N :: r) →
  members_of acc (pre ++ 34%N :: raw ++ 34%N :: post ++ 58%N :: s) (VObj (obj_set k x acc)) r.
Proof.
  intros Hpre Hraw Hpost (t & -> & <- & Ht).
  exists ({| k_pre := pre; k_raw := raw; k_str := k; k_post := post |}, t), [].
  split_and!; [|done|by constructor].
  cbn [map join]. rewrite member_text_mk. by text_norm.
Qed.

Lemma elements_cons acc s x r v w :
  tree_of s x (44%N :: r) → elements_of (acc ++ [x]) r v w → elements_of acc s v w.
Proof.
  intros (t & -> & <- & Ht) (t' & l & -> & -> & Hl). exists t, (t' :: l).
  split_and!; [|by rewrite <- app_assoc|by constructor].
  rewrite !map_cons, join_cons2, <- !app_assoc. done.
Qed.

Lemma string_tree s t r : json_string s = Some (t, r) → tree_of (34%N :: s) (VStr t) r.
Proof.
  intros (raw & Hraw & ->)%(json_string_inv _ _ _ _ (le_n _)).
  exists (CStr [] raw t []). unfold quoted. simpl. rewrite app_nil_r, <- app_assoc.
  repeat split; try done; constructor.
Qed.

Lemma object_tree fuel s v r :
  (∀ acc s v r, json_members fuel acc s = Some (v, r) → members_of acc s v r) →
  match skip_space s with
  | [] => None
  | d :: r' => if (d =? 125)%N then Some (VObj [], r') else json_members fuel [] (d :: r')
  end = Some (v, r) → tree_of (123%N :: s) v r.
Proof.
  intros IH. destruct (skip_space_split s) as (w & Hw & E).
  destruct (skip_space s) as [|d s']; [done|]. subst s.
  destruct (N.eqb_spec d 125) as [->|].
  - intros [= <- <-]. exists (CObj [] w [] []). simpl. text_norm.
    repeat split; try done; constructor.
  - intros ([k c] & ms & E & -> & Hms)%IH. rewrite E. apply Forall_cons in Hms as [[Hk Hc] Hms].
    exists (CObj [] [] (({| k_pre := w ++ k_pre k; k_raw := k_raw k; k_str := k_str k;
                            k_post := k_post k |}, c) :: ms) []).
    split; [|split; [done|]].
    + rewrite text_obj. destruct ms as [|m' ms].
      * cbn [map join]. rewrite member_text_pre. by text_norm.
      * rewrite !map_cons, !join_cons2, member_text_pre. by text_norm.
    + destruct Hk as (H1 & H2 & H3). simpl. split_and!; try apply Forall_nil_2; try done.
      * repeat split; try done. by apply Forall_app.
      * by apply foldr_and_Forall.
Qed.

Lemma array_tree fuel s v r :
  (∀ acc s v r, json_elements fuel acc s = Some (v, r) → elements_of acc s v r) →
  match skip_space s with
  | [] => None
  | d :: r' => if (d =? 93)%N then Some (VArr [], r') else json_elements fuel [] (d :: r')
  end = Some (v, r) → tree_of (91%N :: s) v r.
Proof.
  intros IH. destruct (skip_space_split s) as (w & Hw & E).
  destruct (skip_space s) as [|d s']; [done|]. subst s.
  destruct (N.eqb_spec d 93) as [->|].
  - intros [= <- <-]. exists (CArr [] w [] []). simpl. text_norm.
    repeat split; try done; constructor.
  - intros (t & l & E & -> & Hl)%IH. rewrite E. apply Forall_cons in Hl as [Ht Hl].
    exists (CArr [] [] (before w t :: l) []). split; [|split].
    + rewrite text_arr. destruct l as [|t' l].
      * cbn [map join]. rewrite text_before. by text_norm.
      * rewrite !map_cons, !join_cons2, text_before. by text_norm.
    + simpl. by rewrite value_before.
    + simpl. split_and!; try apply Forall_nil_2; [by apply tokens_before|by apply foldr_and_Forall].
Qed.

Lemma json_value_tree fuel :
  (∀ s v r, json_value fuel s = Some (v, r) → tree_of s v r) ∧
  (∀ acc s v r, json_members fuel acc s = Some (v, r) → members_of acc s v r) ∧
  (∀ acc s v r, json_elements fuel acc s = Some (v, r) → elements_of acc s v r).
Proof.
  induction fuel as [|fuel (IHv & IHm & IHe)]; [by split_and!|]. split_and!.
  - intros s v r. simpl. destruct (skip_space_split s) as (w & Hw & E).
    destruct (skip_space s) as [|c s'] eqn:Es; [done|]. subst s. clear Es.
    intros H. apply tree_before; [done|].
    destruct (N.eqb_spec c 123) as [->|]; [|destruct (N.eqb_spec c 91) as [->|];
      [|destruct (N.eqb_spec c 34) as [->|]]].
    + by eapply object_tree.
    + by eapply array_tree.
    + apply bind_Some in H as ([t r'] & Ht & [= <- <-]). by apply string_tree.
    + apply json_literal_split in H as (t & E & Ht). exists (CLit [] t v []).
      simpl. rewrite app_nil_r. split_and!; [done|done|apply Forall_nil_2|done|apply Forall_nil_2].
  - intros acc s v r. simpl. destruct (skip_space_split s) as (w & Hw & E).
    destruct (skip_space s) as [|c s'] eqn:Es; [done|]. subst s. clear Es.
    destruct (N.eqb_spec c 34) as [->|]; [|done]. intros ([k r1] & Hk & H)%bind_Some.
    apply (json_string_inv _ _ _ _ (le_n _)) in Hk as (raw & Hraw & ->).
    destruct (skip_space_split r1) as (w1 & Hw1 & E1).
    destruct (skip_space r1) as [|c r2]; [done|]. subst r1.
    destruct (N.eqb_spec c 58) as [->|]; [|done].
    apply bind_Some in H as ([x r3] & Hx & H). apply IHv, tree_skip in Hx.
    destruct (skip_space r3) as [|c r4]; [done|].
    destruct (N.eqb_spec c 44) as [->|]; [by eapply members_cons; eauto|].
    destruct (N.eqb_spec c 125) as [->|]; [|done]. simplify_eq. by apply members_last.
  - intros acc s v r. simpl. intros ([x r1] & Hx & H)%bind_Some. apply IHv, tree_skip in Hx.
    destruct (skip_space r1) as [|c r2]; [done|].
    destruct (N.eqb_spec c 44) as [->|]; [by eapply elements_cons; eauto|].
    destruct (N.eqb_spec c 93) as [->|]; [|done]. simplify_eq.
    destruct Hx as (t & -> & <- & Ht). exists t, [].
    split_and!; [done | done | by constructor].
Qed.

(** Every text [JSON.parse] accepts is that of a tree of its value. *)
Lemma json_parse_cst s v : json_parse s = Some v → ∃ t, text t = s ∧ value t = v ∧ tokens_ok t.
Proof.
  unfold json_parse. intros ([x r] & Hx & H)%bind_Some.
  apply (proj1 (json_value_tree _)), tree_skip in Hx as (t & -> & <- & Ht).
  destruct (skip_space r); [|done]. simplify_eq. exists t. by rewrite app_nil_r.
Qed.

(** *** The text of a tree parses to its value *)

(** What may follow a number: the end, white space, a comma or a closing bracket. *)
Definition delim (r : jstr) : bool :=
  match r with
  | [] => true
  | c :: _ => is_json_space c || (c =? 44)%N || (c =? 93)%N || (c =? 125)%N
  end.

Definition lit_parses (t : jstr) (v : jsval) : Prop :=
  ∀ r, delim r = true → json_literal (t ++ r) = Some (v, r).

Fixpoint literals_ok (t : cst) : Prop :=
  match t with
  | CLit _ t v _ => lit_parses t v
  | CStr _ _ _ _ => True
  | CArr _ _ l _ => foldr (λ t P, literals_ok t ∧ P) True l
  | CObj _ _ ms _ => foldr (λ m P, literals_ok m.2 ∧ P) True ms
  end.

Definition post (t : cst) : jstr :=
  match t with CLit _ _ _ w => w | CStr _ _ _ w => w | CArr _ _ _ w => w | CObj _ _ _ w => w end.

Lemma lit_char_not c : lit_char c = true →
  c ≠ 34%N ∧ c ≠ 91%N ∧ c ≠ 123%N ∧ c ≠ 44%N ∧ c ≠ 93%N ∧ c ≠ 125%N ∧ is_json_space c = false
  ∧ is_space c = false.
Proof.
  intros H. assert (Hc : (33 < c < 123 ∧ c ≠ 34 ∧ c ≠ 44 ∧ c ≠ 91 ∧ c ≠ 93)%N).
  { unfold lit_char, is_digit, is_lower, is_upper, in_range in H. lia. }
  unfold is_json_space, is_space, in_range. split_and!; lia.
Qed.

(** The head of a node after its leading white space. *)
Lemma text_length_pos t : tokens_ok t → 0 < length (text t).
Proof.
  destruct t as [w t v w'| | |]; simpl; intros H; rewrite !length_app; simpl; try lia.
  destruct H as (_ & [Hne _] & _). destruct t; [done | simpl; lia].
Qed.

Lemma skip_space_idem s : skip_space (skip_space s) = skip_space s.
Proof. induction s as [|c s IH]; simpl; [done|]. destruct (is_json_space c) eqn:E; [done|]. simpl. by rewrite E. Qed.

Lemma json_value_skip f s : json_value f (skip_space s) = json_value f s.
Proof. destruct f; [done|]. simpl. by rewrite skip_space_idem. Qed.
Lemma json_elements_skip f acc s : json_elements f acc (skip_space s) = json_elements f acc s.
Proof. destruct f; [done|]. cbn [json_elements]. by rewrite json_value_skip. Qed.
Lemma json_members_skip f acc s : json_members f acc (skip_space s) = json_members f acc s.
Proof. destruct f; [done|]. simpl. by rewrite skip_space_idem. Qed.

(** The first character of a node that is not white space. *)
Lemma text_head t r : tokens_ok t → ∃ c s, skip_space (text t ++ r) = c :: s ∧ c ≠ 93%N ∧ c ≠ 125%N.
Proof.
  destruct t as [w t v w'|w raw s w'|w wi l w'|w wi ms w']; simpl; intros H; destruct H as (Hw & H);
    rewrite <- app_assoc, (skip_space_app _ _ Hw); [|simpl; eauto..].
  destruct H as ([Hne Hcs] & _). destruct t as [|c t]; [done|].
  apply Forall_cons in Hcs as [Hc _]. apply lit_char_not in Hc as (? & ? & ? & ? & ? & ? & Hsp & _).
  simpl. rewrite Hsp. eauto.
Qed.

Lemma member_head m r : key_ok m.1 → ∃ s, skip_space (member_text m ++ r) = 34%N :: s.
Proof.
  destruct m as [[pre raw k post] t]. intros (H & _). simpl in H.
  rewrite member_text_mk, <- app_assoc, skip_space_app by done. simpl. eauto.
Qed.

Lemma delim_spaces w r : spaces w → delim r = true → delim (w ++ r) = true.
Proof. intros [|c w' Hc _] Hr; [done|]. simpl. by rewrite Hc. Qed.

(** A tree parses with [fuel] in front of any delimiter. *)
Definition tree_parses (fuel : nat) (t : cst) : Prop :=
  ∀ r, delim r = true → json_value fuel (text t ++ r) = Some (value t, post t ++ r).

Lemma post_spaces t : tokens_ok t → spaces (post t).
Proof. destruct t; simpl; tauto. Qed.

Lemma join_length_cons (x : jstr) l : l ≠ [] → length (join [44%N] (x :: l)) = length x + S (length (join [44%N] l)).
Proof. destruct l; [done|]. intros _. rewrite join_cons2, !length_app. simpl. lia. Qed.

(** Compute one step of the parser on known characters. *)
Ltac json_step := cbn [mbind option_bind app skip_space is_json_space N.eqb Pos.eqb orb].

Lemma elements_parse l t acc r fuel :
  Forall (λ t, tokens_ok t ∧ ∀ f, 2 * length (text t) ≤ f → tree_parses f t) (t :: l) →
  2 * length (join [44%N] (map text (t :: l))) + 1 ≤ fuel →
  json_elements fuel acc (join [44%N] (map text (t :: l)) ++ 93%N :: r)
  = Some (VArr (acc ++ map value (t :: l)), r).
Proof.
  revert t acc fuel; induction l as [|t' l IH]; intros t acc fuel HF Hf;
    apply Forall_cons in HF as [[Ht Hp] Hl]; (destruct fuel as [|fuel]; [lia|]);
    pose proof (post_spaces t Ht) as Hw.
  - cbn [map join] in *. cbn [json_elements].
    rewrite (Hp fuel) by first [lia | done]. simpl. rewrite (skip_space_app _ _ Hw). done.
  - rewrite !map_cons, join_cons2, <- !app_assoc. cbn [json_elements].
    rewrite map_cons, join_length_cons in Hf by done.
    rewrite (Hp fuel) by first [lia | done]. json_step. rewrite (skip_space_app _ _ Hw). json_step.
    change (text t' :: map text l) with (map text (t' :: l)).
    rewrite IH by first [done | lia]. by rewrite <- app_assoc.
Qed.

Lemma members_parse ms m acc r fuel :
  Forall (λ m, key_ok m.1 ∧ tokens_ok m.2 ∧ ∀ f, 2 * length (text m.2) ≤ f → tree_parses f m.2) (m :: ms) →
  2 * length (join [44%N] (map member_text (m :: ms))) + 1 ≤ fuel →
  json_members fuel acc (join [44%N] (map member_text (m :: ms)) ++ 125%N :: r)
  = Some (VObj (foldl (λ o p, obj_set p.1 p.2 o) acc (map member_value (m :: ms))), r).
Proof.
  assert (Hstep : ∀ m acc fuel s, key_ok m.1 → tokens_ok m.2 →
    (∀ f, 2 * length (text m.2) ≤ f → tree_parses f m.2) → 2 * length (member_text m) ≤ fuel →
    delim s = true → json_members (S fuel) acc (member_text m ++ s) =
      match skip_space s with
      | [] => None
      | d :: r4 => if (d =? 44)%N then json_members fuel (obj_set (k_str m.1) (value m.2) acc) r4
                   else if (d =? 125)%N then Some (VObj (obj_set (k_str m.1) (value m.2) acc), r4)
                   else None
      end).
  { clear. intros [[pre raw k post] t] acc fuel s (H1 & H2 & H3) Ht Hp Hf Hs.
    rewrite member_text_mk in *. cbn [fst snd k_pre k_raw k_str k_post] in *.
    rewrite <- app_assoc. cbn [json_members]. rewrite skip_space_app by done. cbn [app skip_space].
    change (is_json_space 34) with false. cbn match. change (34 =? 34)%N with true. cbn match.
    rewrite <- app_assoc. cbn [app]. rewrite (json_string_raw raw k) by done. simpl.
    rewrite <- app_assoc, skip_space_app by done. simpl.
    rewrite (Hp fuel); [|rewrite !length_app in Hf; simpl in Hf; rewrite !length_app in Hf; simpl in Hf; rewrite length_app in Hf; simpl in Hf; lia|done].
    simpl. by rewrite (skip_space_app _ _ (post_spaces t Ht)). }
  revert m acc fuel; induction ms as [|m' ms IH]; intros m acc fuel HF Hf;
    apply Forall_cons in HF as [(Hk & Ht & Hp) Hl]; (destruct fuel as [|fuel]; [lia|]).
  - cbn [map join] in *. rewrite Hstep by first [done | lia]. done.
  - rewrite !map_cons, join_cons2, <- !app_assoc.
    rewrite map_cons, join_length_cons in Hf by done.
    rewrite Hstep by first [done | lia]. json_step.
    change (member_text m' :: map member_text ms) with (map member_text (m' :: ms)).
    rewrite IH by first [done | lia]. done.
Qed.

Lemma tree_parse t : tokens_ok t → literals_ok t →
  ∀ f, 2 * length (text t) ≤ f → tree_parses f t.
Proof.
  induction t as [w t v w'|w raw s w'|w wi l w' IH|w wi ms w' IH] using cst_ind'; intros Hok Hlit f Hf r Hr;
    pose proof (text_length_pos _ Hok) as Hpos; (destruct f as [|f]; [lia|]).
  - destruct Hok as (Hw & [Hne Hcs] & Hw'). cbn [text value post].
    rewrite <- !app_assoc. cbn [json_value]. rewrite skip_space_app by done.
    destruct t as [|c t]; [done|]. pose proof (proj1 (proj1 (Forall_cons _ _ _) Hcs)) as Hc.
    apply lit_char_not in Hc as (? & ? & ? & ? & ? & ? & Hsp & _). simpl. rewrite Hsp.
    replace (c =? 123)%N with false by lia. replace (c =? 91)%N with false by lia.
    replace (c =? 34)%N with false by lia. apply (Hlit (w' ++ r)). by apply delim_spaces.
  - destruct Hok as (Hw & Hraw & Hw'). cbn [text value post]. unfold quoted.
    rewrite <- !app_assoc. cbn [json_value]. rewrite skip_space_app by done. simpl.
    rewrite <- app_assoc. cbn [app]. by rewrite (json_string_raw raw s).
  - destruct Hok as (Hw & Hwi & Hw' & Hl). apply foldr_and_Forall in Hl, Hlit.
    destruct l as [|t l].
    + cbn [text value post]. rewrite <- app_assoc. cbn [json_value]. rewrite skip_space_app by done.
      simpl. rewrite <- app_assoc, skip_space_app by done. done.
    + rewrite text_arr in *. cbn [post].
      rewrite <- app_assoc. cbn [json_value]. rewrite skip_space_app by done. cbn [app skip_space].
      change (is_json_space 91) with false. cbn match. change (91 =? 123)%N with false. cbn match.
      change (91 =? 91)%N with true. cbn match. rewrite <- app_assoc. cbn [app].
      assert (HF : Forall (λ t, tokens_ok t ∧ ∀ f, 2 * length (text t) ≤ f → tree_parses f t) (t :: l)).
      { rewrite Forall_forall in *. intros x Hx. split; [by apply Hl|]. by apply IH; [| apply Hl | apply Hlit]. }
      assert (Hfu : 2 * length (join [44%N] (map text (t :: l))) + 1 ≤ f).
      { rewrite !length_app in Hf. cbn [length] in Hf. rewrite length_app in Hf. cbn [length] in Hf. lia. }
      pose proof (elements_parse l t [] (w' ++ r) f HF Hfu) as E.
      rewrite <- json_elements_skip in E. apply Forall_cons in Hl as [Ht _].
      assert (∃ c s, skip_space (join [44%N] (map text (t :: l)) ++ 93%N :: w' ++ r) = c :: s ∧ c ≠ 93%N)
        as (c & s & Es & Hc).
      { destruct l as [|t' l].
        - edestruct (text_head t) as (c & s & Es & ? & ?); [done|]. by exists c, s.
        - rewrite !map_cons, join_cons2, <- app_assoc.
          edestruct (text_head t) as (c & s & Es & ? & ?); [done|]. by exists c, s. }
      rewrite Es in E |- *. replace (c =? 93)%N with false by lia. exact E.
  - destruct Hok as (Hw & Hwi & Hw' & Hl). apply foldr_and_Forall in Hl, Hlit.
    destruct ms as [|m ms].
    + cbn [text value post]. rewrite <- app_assoc. cbn [json_value]. rewrite skip_space_app by done.
      simpl. rewrite <- app_assoc, skip_space_app by done. done.
    + rewrite text_obj in *. cbn [post].
      rewrite <- app_assoc. cbn [json_value]. rewrite skip_space_app by done. cbn [app skip_space].
      change (is_json_space 123) with false. cbn match. change (123 =? 123)%N with true. cbn match.
      rewrite <- app_assoc. cbn [app].
      assert (HF : Forall (λ m, key_ok m.1 ∧ tokens_ok m.2 ∧
                              ∀ f, 2 * length (text m.2) ≤ f → tree_parses f m.2) (m :: ms)).
      { rewrite Forall_forall in *. intros x Hx. destruct (Hl _ Hx). split_and!; [done..|].
        by apply IH; [| | apply Hlit]. }
      assert (Hfu : 2 * length (join [44%N] (map member_text (m :: ms))) + 1 ≤ f).
      { rewrite !length_app in Hf. cbn [length] in Hf. rewrite length_app in Hf. cbn [length] in Hf. lia. }
      pose proof (members_parse ms m [] (w' ++ r) f HF Hfu) as E.
      rewrite <- json_members_skip in E. apply Forall_cons in Hl as [[Hk _] _].
      assert (∃ s, skip_space (join [44%N] (map member_text (m :: ms)) ++ 125%N :: w' ++ r) = 34%N :: s)
        as (s & Es).
      { destruct ms as [|m' ms]; [by apply member_head|].
        rewrite !map_cons, join_cons2, <- app_assoc. by apply member_head. }
      rewrite Es in E |- *. change (34 =? 125)%N with false. exact E.
Qed.

(** [JSON.parse] inverts [text]. *)
Lemma json_parse_text t : tokens_ok t → literals_ok t → json_parse (text t) = Some (value t).
Proof.
  intros Hok Hlit. unfold json_parse, json_fuel.
  pose proof (tree_parse t Hok Hlit (2 * length (text t) + 2) ltac:(lia) [] eq_refl) as E.
  rewrite app_nil_r in E. rewrite E. simpl. rewrite app_nil_r.
  by rewrite (skip_space_all _ (post_spaces t Hok)).
Qed.

(** ** Printed values *)

Lemma span_digits_delim s ds r' r : delim r = true → span_digits s = (ds, r') →
  span_digits (s ++ r) = (ds, r' ++ r).
Proof.
  intros Hr. revert ds r'; induction s as [|c s IH]; simpl; intros ds r'.
  - intros [= <- <-]. destruct r as [|c r]; [done|]. simpl in *.
    replace (is_digit c) with false; [done|]. unfold is_json_space, is_digit, in_range in *. lia.
  - destruct (is_digit c); [|by intros [= <- <-]].
    destruct (span_digits s) as [d r1]. intros [= <- <-]. by rewrite (IH d r1).
Qed.

Lemma json_exponent_delim s e r : delim r = true → json_exponent s = Some (e, []) →
  json_exponent (s ++ r) = Some (e, r).
Proof.
  intros Hr. unfold json_exponent at 1. destruct s as [|c s].
  - intros [= <-]. destruct r as [|c r]; [done|]. cbn [app]. unfold json_exponent.
    replace ((c =? 101)%N || (c =? 69)%N) with false; [done|]. simpl in Hr. unfold is_json_space in Hr. lia.
  - destruct ((c =? 101)%N || (c =? 69)%N) eqn:Ec; [|done].
    unfold json_exponent. cbn [app]. rewrite Ec. unfold scan_exponent. rewrite Ec.
    assert (Hend : ∀ (neg : bool) u,
      match (match span_digits u with
             | ([], _) => (0%Z, c :: s)
             | (ds, r) => (if neg then (- Z.of_N (digits_value ds))%Z else Z.of_N (digits_value ds), r)
             end) with (e, r) => if bool_decide (r = c :: s) then None else Some (e, r) end = Some (e, []) →
      match (match span_digits (u ++ r) with
             | ([], _) => (0%Z, c :: s ++ r)
             | (ds, r) => (if neg then (- Z.of_N (digits_value ds))%Z else Z.of_N (digits_value ds), r)
             end) with (e, r') => if bool_decide (r' = c :: s ++ r) then None else Some (e, r') end = Some (e, r)).
    { intros neg u. destruct (span_digits u) as [ds r1] eqn:Eu.
      rewrite (span_digits_delim _ _ _ _ Hr Eu). destruct ds as [|d ds].
      - by rewrite bool_decide_eq_true_2.
      - case_bool_decide; [done|]. intros [= <- ->]. rewrite bool_decide_eq_false_2; [done|].
        intros Heq. apply (f_equal length) in Heq. simpl in Heq. rewrite length_app in Heq. lia. }
    destruct s as [|d s]; [simpl; by rewrite bool_decide_eq_true_2|]. cbn [app].
    destruct (d =? 45)%N; [apply (Hend true s)|].
    destruct (d =? 43)%N; [apply (Hend false s) | apply (Hend false (d :: s))].
Qed.

Lemma json_unsigned_delim neg s d r : delim r = true → json_unsigned neg s = Some (d, []) →
  json_unsigned neg (s ++ r) = Some (d, r).
Proof.
  intros Hr. unfold json_unsigned. destruct (span_digits s) as [ip r1] eqn:E1.
  rewrite (span_digits_delim _ _ _ _ Hr E1). destruct ip as [|c' ip']; [done|].
  destruct (_ && _); [done|]. cbn zeta. destruct r1 as [|x r1].
  - intros ([e r3] & He & [= <- ->])%bind_Some. apply (json_exponent_delim _ _ _ Hr) in He.
    cbn [app] in *. destruct r as [|y r]; [by rewrite He|]. rewrite He.
    replace (y =? 46)%N with false; [done|]. simpl in Hr. unfold is_json_space in Hr. lia.
  - cbn [app]. destruct (x =? 46)%N.
    + destruct (span_digits r1) as [fp r2] eqn:E2. rewrite (span_digits_delim _ _ _ _ Hr E2).
      destruct fp; [done|]. intros ([e r3] & He & [= <- ->])%bind_Some.
      by rewrite (json_exponent_delim _ _ _ Hr He).
    + intros ([e r3] & He & [= <- ->])%bind_Some. apply (json_exponent_delim _ _ _ Hr) in He.
      cbn [app] in He. by rewrite He.
Qed.

Lemma json_number_delim s d r : delim r = true → json_number s = Some (d, []) →
  json_number (s ++ r) = Some (d, r).
Proof.
  intros Hr. destruct s as [|c s]; [done|]. simpl. destruct (c =? 45)%N; [by apply json_unsigned_delim|].
  by apply (json_unsigned_delim false (c :: s)).
Qed.

(** The number is finite and its printed form reads back as the same number: true of
    every finite number but negative zero, which prints as zero. *)
Definition num_faithful (d : dbl) : bool :=
  isFinite d && bool_decide (json_number (num_to_string d) = Some (d, [])).

Lemma num_literal d : num_faithful d = true →
  lit_ok (num_to_string d) ∧ lit_parses (num_to_string d) (VNum d).
Proof.
  intros [_ Hd%bool_decide_eq_true]%andb_true_iff. split.
  - apply json_number_split in Hd as (t & E & Ht). rewrite app_nil_r in E. by rewrite E.
  - intros r Hr. pose proof (json_number_delim _ _ _ Hr Hd) as E. unfold json_literal.
    assert (Hs : ∃ c s, num_to_string d = c :: s ∧ c ≠ 116%N ∧ c ≠ 102%N ∧ c ≠ 110%N).
    { destruct (num_to_string d) as [|c s]; [done|]. exists c, s. split; [done|].
      simpl in Hd. destruct (c =? 45)%N eqn:Ec; [split_and!; lia|].
      unfold json_unsigned in Hd. cbn [span_digits] in Hd. destruct (is_digit c) eqn:Ed; [|done].
      unfold is_digit, in_range in Ed. split_and!; lia. }
    destruct Hs as (c & s & Es & ? & ? & ?). rewrite Es in *. cbn [app] in *.
    assert (Hsw : ∀ x w, c ≠ x → startsWith (c :: s ++ r) (x :: w) = false).
    { intros x w Hx. simpl. by replace (x =? c)%N with false by lia. }
    change (js "true") with (116%N :: js "rue"). change (js "false") with (102%N :: js "alse").
    change (js "null") with (110%N :: js "ull"). rewrite !Hsw by done. by rewrite E.
Qed.

(** Values [JSON.stringify] prints faithfully: data without [undefined] or functions,
    whose numbers print back and whose objects list their properties in order. *)
Fixpoint json_data (v : jsval) : Prop :=
  match v with
  | VUndef | VFun _ => False
  | VNull | VBool _ => True
  | VNum d => num_faithful d = true
  | VStr s => code_units s
  | VArr l => foldr (λ v P, json_data v ∧ P) True l
  | VObj o => ordered o ∧ foldr (λ p P, (code_units p.1 ∧ json_data p.2) ∧ P) True o
  end.

Fixpoint json_datab (v : jsval) : bool :=
  match v with
  | VUndef | VFun _ => false
  | VNull | VBool _ => true
  | VNum d => num_faithful d
  | VStr s => forallb (λ c, c <? 65536)%N s
  | VArr l => forallb json_datab l
  | VObj o => in_order (keys o) && forallb (λ p, forallb (λ c, c <? 65536)%N p.1 && json_datab p.2) o
  end.

Lemma code_unitsb s : forallb (λ c, c <? 65536)%N s = true → code_units s.
Proof.
  intros H. apply Forall_forall. intros c Hc. rewrite forallb_forall in H.
  apply list_elem_of_In, H in Hc. lia.
Qed.

Lemma json_datab_correct v : json_datab v = true → json_data v.
Proof.
  induction v as [| | | |s|l IH|o IH|] using jsval_ind'; try done.
  - apply code_unitsb.
  - intros H. apply foldr_and_Forall. cbn [json_datab] in H. rewrite forallb_forall in H.
    rewrite Forall_forall in *. intros v Hv. by apply IH, H, list_elem_of_In.
  - intros [Ho H]%andb_true_iff. split; [done|]. apply foldr_and_Forall. rewrite forallb_forall in H.
    rewrite Forall_forall in *. intros p Hp. pose proof (IH p Hp) as IHp.
    apply list_elem_of_In, H, andb_true_iff in Hp as [Hk Hv]. split; [by apply code_unitsb | by apply IHp].
Qed.

(** The tree [JSON.stringify] prints: no white space. *)
Definition plain_key (k : jstr) : mkey :=
  {| k_pre := []; k_raw := json_quote_body k; k_str := k; k_post := [] |}.

Fixpoint cst_of (v : jsval) : cst :=
  match v with
  | VUndef | VFun _ | VNull => CLit [] (js "null") VNull []
  | VBool b => CLit [] (if b then js "true" else js "false") (VBool b) []
  | VNum d => CLit [] (num_to_string d) (VNum d) []
  | VStr s => CStr [] (json_quote_body s) s []
  | VArr l => CArr [] [] (map cst_of l) []
  | VObj o => CObj [] [] (map (λ p, (plain_key p.1, cst_of p.2)) o) []
  end.

Lemma text_cst_of v : json_data v → json_stringify v = Some (text (cst_of v)).
Proof.
  induction v as [| |b|d|s|l IH|o IH|] using jsval_ind'; intros Hv; try done.
  - destruct b; done.
  - simpl in *. rewrite app_nil_r. apply andb_true_iff in Hv as [-> _]. done.
  - simpl. unfold json_quote, quoted. by rewrite app_nil_r.
  - apply foldr_and_Forall in Hv. simpl. repeat f_equal.
    assert (E : map (λ v, default (js "null") (json_stringify v)) l = map text (map cst_of l)).
    { rewrite map_map. apply map_ext_in. intros v Hin%list_elem_of_In.
      rewrite Forall_forall in *. by rewrite (IH v Hin (Hv v Hin)). }
    rewrite E. by destruct l.
  - destruct Hv as [_ Hv]. apply foldr_and_Forall in Hv. cbn [json_stringify cst_of text]. repeat f_equal.
    assert (E : omap (λ p, t ← json_stringify p.2; Some (json_quote p.1 ++ 58%N :: t)) o
                = map member_text (map (λ p, (plain_key p.1, cst_of p.2)) o)).
    { clear -IH Hv. induction o as [|[k v] o IHo]; [done|].
      apply Forall_cons in IH as [IHv IH]. apply Forall_cons in Hv as [[_ Hd] Hv].
      simpl in Hd, IHv. cbn [omap list_omap map fst snd]. rewrite (IHv Hd). cbn [mbind option_bind].
      fold (omap (M:=list) (λ p : jstr * jsval, t ← json_stringify p.2; Some (json_quote p.1 ++ 58%N :: t)) o).
      rewrite IHo by done. f_equal. unfold member_text, key_text, json_quote, quoted, plain_key. simpl. by text_norm. }
    rewrite E. by destruct o.
Qed.

Lemma value_cst_of v : json_data v → value (cst_of v) = v.
Proof.
  induction v as [| | | | |l IH|o IH|] using jsval_ind'; intros Hv; try done.
  - apply foldr_and_Forall in Hv. simpl. f_equal. rewrite map_map.
    rewrite <- (map_id l) at 2. apply map_ext_in. intros v Hin%list_elem_of_In.
    rewrite Forall_forall in *. by apply IH, Hv.
  - destruct Hv as [Ho Hv]. apply foldr_and_Forall in Hv. simpl. f_equal. rewrite map_map.
    rewrite (map_ext_in _ id), map_id; [by apply of_entries_ordered|].
    intros [k v] Hin%list_elem_of_In. rewrite Forall_forall in *.
    destruct (Hv _ Hin) as [_ Hd]. cbn [fst snd k_str plain_key] in *.
    pose proof (IH (k, v) Hin Hd) as E. cbn [snd] in E. by rewrite E.
Qed.

Lemma tokens_cst_of v : json_data v → tokens_ok (cst_of v).
Proof.
  assert (Hw : spaces []) by constructor.
  induction v as [| |b|d|s|l IH|o IH|] using jsval_ind'; intros Hv; try done.
  - simpl. repeat split; try done. by repeat constructor.
  - destruct b; simpl; repeat split; try done; by repeat constructor.
  - simpl. split_and!; [done | by apply num_literal | done].
  - simpl. split_and!; [done | by apply raw_ok_quote | done].
  - apply foldr_and_Forall in Hv. simpl. split_and!; try done. apply foldr_and_Forall, Forall_map.
    rewrite Forall_forall in *. intros v Hin. by apply IH, Hv.
  - destruct Hv as [_ Hv]. apply foldr_and_Forall in Hv. simpl. split_and!; try done.
    apply foldr_and_Forall, Forall_map. rewrite Forall_forall in *. intros [k v] Hin.
    destruct (Hv _ Hin) as [Hk Hd]. simpl in *. split; [|by apply (IH (k, v))].
    repeat split; try done. by apply raw_ok_quote.
Qed.

Lemma literals_cst_of v : json_data v → literals_ok (cst_of v).
Proof.
  induction v as [| |b|d|s|l IH|o IH|] using jsval_ind'; intros Hv; try done.
  - by intros [|c r] _.
  - by intros [|c r] _; destruct b.
  - by apply num_literal.
  - apply foldr_and_Forall in Hv. simpl. apply foldr_and_Forall, Forall_map.
    rewrite Forall_forall in *. intros v Hin. by apply IH, Hv.
  - destruct Hv as [_ Hv]. apply foldr_and_Forall in Hv. simpl.
    apply foldr_and_Forall, Forall_map. rewrite Forall_forall in *. intros [k v] Hin.
    destruct (Hv _ Hin) as [Hk Hd]. by apply (IH (k, v)).
Qed.

(** Printing and parsing give back the value. *)
Lemma json_parse_stringify v s : json_data v → json_stringify v = Some s → json_parse s = Some v.
Proof.
  intros Hv. rewrite text_cst_of by done. intros [= <-].
  rewrite json_parse_text by auto using tokens_cst_of, literals_cst_of.
  by rewrite value_cst_of.
Qed.

(** ** What the parser gives

    Values without [undefined] or functions whose objects list their properties in order. *)
Fixpoint parsed (t : jsval) : Prop :=
  match t with
  | VUndef | VFun _ => False
  | VArr ts => foldr (λ t P, parsed t ∧ P) True ts
  | VObj ts => ordered ts ∧ foldr (λ p P, parsed p.2 ∧ P) True ts
  | _ => True
  end.

Lemma json_data_parsed t : json_data t → parsed t.
Proof.
  induction t as [| | | | |ts IH|ts IH|] using jsval_ind'; try done.
  - intros H%foldr_and_Forall. apply foldr_and_Forall. rewrite Forall_forall in *.
    intros t Ht. by apply IH, H.
  - intros [Ho H%foldr_and_Forall]. split; [done|]. apply foldr_and_Forall.
    rewrite Forall_forall in *. intros p Hp. destruct (H p Hp). by apply IH.
Qed.

Lemma json_literal_parsed s v r : json_literal s = Some (v, r) → parsed v.
Proof.
  unfold json_literal. intros H. repeat (case_match; simplify_eq/=; [done|]).
  apply bind_Some in H as ([d r'] & _ & [= <- _]). done.
Qed.

Lemma parsed_obj o : parsed (VObj o) ↔ ordered o ∧ Forall (λ p, parsed p.2) o.
Proof. split; intros [Ho H]; (split; [done|]); by apply foldr_and_Forall. Qed.

Lemma parsed_set o k v : parsed (VObj o) → parsed v → parsed (VObj (obj_set k v o)).
Proof.
  intros [Ho H]%parsed_obj Hv. apply parsed_obj. split; [by apply ordered_set|].
  rewrite Forall_forall in *. intros p [->|Hp]%elem_of_set; [done | by apply H].
Qed.

Lemma json_value_parsed fuel :
  (∀ s v r, json_value fuel s = Some (v, r) → parsed v) ∧
  (∀ acc s v r, parsed (VObj acc) → json_members fuel acc s = Some (v, r) → parsed v) ∧
  (∀ acc s v r, Forall parsed acc → json_elements fuel acc s = Some (v, r) → parsed v).
Proof.
  assert (He : parsed (VObj [])) by done.
  assert (Harr : ∀ l, Forall parsed l → parsed (VArr l)) by (intros l; apply foldr_and_Forall).
  induction fuel as [|fuel (IHv & IHm & IHe)]; [by split_and!|]. split_and!.
  - intros s v r. simpl. intros H.
    repeat (case_match; simplify_eq; try (by eapply IHm; [apply He | eassumption]);
            try (by eapply IHe; [constructor | eassumption]); try (by apply json_literal_parsed in H)).
    all: try done. all: apply bind_Some in H as ([? ?] & _ & [= <- _]); done.
  - intros acc s v r Ha. simpl. intros H. repeat (case_match; simplify_eq).
    all: apply bind_Some in H as ([k r1] & _ & H). all: repeat (case_match; simplify_eq).
    all: apply bind_Some in H as ([w r2] & Hw & H); apply IHv in Hw.
    all: assert (parsed (VObj (obj_set k w acc))) by by apply parsed_set.
    all: repeat (case_match; simplify_eq; try done; try (by eapply IHm)).
  - intros acc s v r Ha. simpl. intros ([w r2] & Hw & H)%bind_Some. apply IHv in Hw.
    assert (Forall parsed (acc ++ [w])) by (apply Forall_app; split; [done | by constructor]).
    repeat (case_match; simplify_eq; try (by apply Harr); try (by eapply IHe)).
Qed.

Lemma json_parse_parsed s v : json_parse s = Some v → parsed v.
Proof.
  unfold json_parse. intros ([w r] & Hw & H)%bind_Some.
  case_match; simplify_eq. by apply (proj1 (json_value_parsed _)) in Hw.
Qed.
