(* ===== verification/JsonUnicode.v ===== *)
(** * JSON text is well-formed Unicode

    [JSON.stringify] escapes lone surrogates, so what it prints survives UTF-8. *)

From S2P Require Export JsonText.
Local Open Scope nat_scope.

Lemma ascii_wf s : Forall (λ c, (c < 128)%N) s → well_formed s = true.
Proof. intros H. by apply is_ascii_well_formed, is_ascii_Forall. Qed.

(** ** Numbers *)

Lemma digit_char_ascii n : (n < 10)%N → (digit_char n < 128)%N.
Proof. unfold digit_char. lia. Qed.

Lemma dec_digits_ascii fuel n : Forall (λ c, (c < 128)%N) (dec_digits fuel n).
Proof.
  revert n. induction fuel as [|fuel IH]; intros n; simpl; [constructor|].
  pose proof (N.mod_lt n 10 ltac:(lia)). case_match.
  - repeat constructor. unfold digit_char. lia.
  - apply Forall_app. split; [apply IH|]. repeat constructor. unfold digit_char. lia.
Qed.

Lemma zeros_ascii n : Forall (λ c, (c < 128)%N) (replicate n 48%N).
Proof. apply Forall_replicate. lia. Qed.

Lemma js_ascii s : is_ascii (js s) = true → Forall (λ c, (c < 128)%N) (js s).
Proof. by rewrite is_ascii_Forall. Qed.

Lemma format_decimal_ascii s n k : Forall (λ c, (c < 128)%N) (format_decimal s n k).
Proof.
  unfold format_decimal. set (ds := nat_to_string (Z.to_N s)).
  assert (Hd : Forall (λ c, (c < 128)%N) ds) by apply dec_digits_ascii.
  case_match; [apply Forall_app; split; [done|apply zeros_ascii]|].
  case_match; [apply Forall_app; split; [by apply Forall_take|constructor; [lia|by apply Forall_drop]]|].
  case_match; [repeat (apply Forall_app; split); [by apply js_ascii|apply zeros_ascii|done]|].
  set (es := (if 0 <=? n - 1 then js "e+" else js "e-")%Z ++ nat_to_string (Z.to_N (Z.abs (n - 1)))).
  assert (He : Forall (λ c, (c < 128)%N) es).
  { apply Forall_app. split; [by case_match; apply js_ascii|apply dec_digits_ascii]. }
  destruct ds as [|c [|c' r]]; [done|..]; apply Forall_cons in Hd as [Hc Hd]; constructor; try done.
  constructor; [lia|]. by apply Forall_app.
Qed.

Lemma num_to_string_ascii d : Forall (λ c, (c < 128)%N) (num_to_string d).
Proof.
  destruct d as [s|s| |s m e]; try (by apply js_ascii); try (destruct s; by apply js_ascii).
  unfold num_to_string. repeat case_match; apply Forall_app; split; try apply format_decimal_ascii; repeat constructor; lia.
Qed.

(** ** Quoted strings *)

Lemma hex_digit_ascii up n : (n < 16)%N → (hex_digit up n < 128)%N.
Proof. unfold hex_digit. destruct up; repeat case_match; lia. Qed.

Lemma hex4_ascii c : (c < 65536)%N → Forall (λ c, (c < 128)%N) (hex4 c).
Proof.
  intros Hc. unfold hex4, hex_byte. pose proof (N.Div0.div_lt_upper_bound c 256 256 ltac:(lia)).
  pose proof (N.mod_lt c 256 ltac:(lia)). pose proof (N.mod_lt (c / 256) 16 ltac:(lia)).
  pose proof (N.mod_lt (c mod 256) 16 ltac:(lia)).
  repeat constructor; apply hex_digit_ascii; try done; apply N.Div0.div_lt_upper_bound; lia.
Qed.

Lemma escape_ascii c : (c < 65536)%N → Forall (λ c, (c < 128)%N) (92 :: 117 :: hex4 c)%N.
Proof. intros Hc. constructor; [lia|]. constructor; [lia|]. by apply hex4_ascii. Qed.

Lemma quote_char_wf c : (c < 65536)%N → is_surrogate c = false → well_formed (json_quote_char c) = true.
Proof.
  intros Hc Hs. unfold json_quote_char. repeat (case_match; [apply ascii_wf; try (repeat constructor; lia); by apply escape_ascii|]).
  simpl. replace (is_high c) with false by (unfold is_surrogate, is_high, in_range in *; lia).
  replace (is_low c) with false by (unfold is_surrogate, is_low, in_range in *; lia). simpl. lia.
Qed.

Lemma quote_body_wf s : code_units s → well_formed (json_quote_body s) = true.
Proof.
  remember (length s) as n eqn:En. revert s En. induction (Nat.lt_wf_0 n) as [n _ IH]. intros s En Hs.
  destruct s as [|c s]; [done|]. apply Forall_cons in Hs as [Hc Hs]. cbn [json_quote_body].
  assert (Hrest : well_formed (json_quote_body s) = true) by (eapply IH; [|done|done]; simpl in *; lia).
  destruct (is_high c) eqn:Eh; [destruct s as [|d s]; [by apply ascii_wf, escape_ascii|destruct (is_low d) eqn:El]|].
  - apply Forall_cons in Hs as [Hd Hs]. simpl. rewrite Eh, El.
    assert (Hr : well_formed (json_quote_body s) = true) by (eapply IH; [|done|done]; simpl in *; lia).
    rewrite Hr. unfold is_high, in_range in Eh. lia.
  - apply well_formed_app; [by apply ascii_wf, escape_ascii|done].
  - destruct (is_low c) eqn:El; (apply well_formed_app; [|done]); [by apply ascii_wf, escape_ascii|].
    apply quote_char_wf; [done|]. unfold is_surrogate, is_high, is_low, in_range in *. lia.
Qed.

Lemma quote_wf s : code_units s → well_formed (json_quote s) = true.
Proof. intros Hs. apply (well_formed_app [34%N]); [done|]. apply well_formed_app; [by apply quote_body_wf|done]. Qed.

(** ** Values *)

Lemma join_wf c l : (c < 128)%N → Forall (λ s, well_formed s = true) l → well_formed (join [c] l) = true.
Proof.
  intros Hc. induction 1 as [|s l Hs Hl IH]; [done|]. destruct l as [|t l]; [done|]. cbn [join].
  apply well_formed_app; [done|]. apply well_formed_app; [apply ascii_wf; by repeat constructor|exact IH].
Qed.

(** The values whose strings are 16-bit. *)
Fixpoint units (v : jsval) : Prop :=
  match v with
  | VStr s => code_units s
  | VArr l => foldr (λ v P, units v ∧ P) True l
  | VObj o => foldr (λ p P, (code_units p.1 ∧ units p.2) ∧ P) True o
  | _ => True
  end.

Lemma stringify_wf v : units v → ∀ s, json_stringify v = Some s → well_formed s = true.
Proof.
  induction v as [| |b|d|s|l IH|o IH|] using jsval_ind'; intros Hu t Ht; simpl in Ht; try done.
  - by injection Ht as <-.
  - injection Ht as <-. by destruct b.
  - injection Ht as <-. destruct (isFinite d); [|done]. apply ascii_wf, num_to_string_ascii.
  - injection Ht as <-. by apply quote_wf.
  - injection Ht as <-. apply foldr_and_Forall in Hu. apply (well_formed_app [91%N]); [done|].
    apply well_formed_app; [|done]. apply join_wf; [lia|]. apply Forall_map.
    rewrite Forall_forall in IH, Hu. apply Forall_forall. intros v Hv. simpl. destruct (json_stringify v) as [w|] eqn:E; [|done]. exact (IH _ Hv (Hu _ Hv) _ E).
  - injection Ht as <-. apply foldr_and_Forall in Hu. apply (well_formed_app [123%N]); [done|].
    apply well_formed_app; [|done]. apply join_wf; [lia|]. rewrite Forall_forall in IH, Hu. apply Forall_forall. intros w Hw.
    apply list_elem_of_omap in Hw as (p & Hp & E). apply bind_Some in E as (u & Eu & [= <-]).
    destruct (Hu _ Hp) as [Hk Hv]. apply well_formed_app; [by apply quote_wf|].
    apply (well_formed_app [58%N]); [done|]. exact (IH _ Hp Hv _ Eu).
Qed.

Lemma json_data_units v : json_data v → units v.
Proof.
  induction v as [| |b|d|s|l IH|o IH|] using jsval_ind'; intros Hd; try done; simpl in *.
  - apply foldr_and_Forall in Hd. apply foldr_and_Forall. rewrite Forall_forall in *. naive_solver.
  - destruct Hd as [_ Hd]. apply foldr_and_Forall in Hd. apply foldr_and_Forall. rewrite Forall_forall in *. naive_solver.
Qed.

(** What is encoded as UTF-8 is decoded and parsed back: data prints to a text that survives
    [TextEncoder], [TextDecoder] and [JSON.parse]. *)
Lemma json_utf8_roundtrip v s : json_data v → json_stringify v = Some s →
  strip_bom (utf8_encode s) = utf8_encode s → json_parse (utf8_decode (utf8_encode s)) = Some v.
Proof.
  intros Hd Hs Hb. pose proof (stringify_wf v (json_data_units _ Hd) _ Hs) as Hw.
  rewrite (proj1 (utf8_roundtrip s Hw Hb)). by apply json_parse_stringify.
Qed.
