(* ===== verification/JsonPretty.v ===== *)
(** * [JSON.stringify] with an indentation of two

    The text the command line tools and the development scripts write: every member on its own
    line, two more spaces a level. *)

From S2P Require Export JsonUnicode.
Local Open Scope nat_scope.

(** [JSON.stringify(v, null, 2)]; [nl] is the line break with the indentation reached. *)
Fixpoint json_pretty_at (nl : jstr) (v : jsval) : option jstr :=
  let inner := nl ++ js "  " in
  let block (open close : N) (items : list jstr) : jstr :=
    match items with
    | [] => [open; close]
    | _ => open :: inner ++ join (44%N :: inner) items ++ nl ++ [close]
    end in
  match v with
  | VArr l => Some (block 91%N 93%N (map (λ v, default (js "null") (json_pretty_at inner v)) l))
  | VObj o =>
      Some (block 123%N 125%N (omap (λ p, t ← json_pretty_at inner p.2; Some (json_quote p.1 ++ js ": " ++ t)) o))
  | _ => json_stringify v
  end.

Definition json_pretty (v : jsval) : option jstr := json_pretty_at [10%N] v.

(** ** The tree of the text *)

Fixpoint map_last {A} (f : A → A) (l : list A) : list A :=
  match l with [] => [] | [x] => [f x] | x :: l => x :: map_last f l end.

Lemma map_last_Forall {A} (P : A → Prop) f l : (∀ x, P x → P (f x)) → Forall P l → Forall P (map_last f l).
Proof.
  intros Hf. induction 1 as [|x l Hx Hl IH]; [constructor|]. destruct l as [|y l]; [by repeat constructor; apply Hf|].
  constructor; done.
Qed.

Lemma map_map_last {A B} (g : A → B) f l : (∀ x, g (f x) = g x) → map g (map_last f l) = map g l.
Proof. intros Hf. induction l as [|x l IH]; [done|]. destruct l as [|y l]; [by simpl; rewrite Hf|]. change (map_last f (x :: y :: l)) with (x :: map_last f (y :: l)). cbn [map]. by rewrite IH. Qed.

Lemma join_map_last {A} (g : A → jstr) (f : A → A) sep u l : (∀ x, g (f x) = g x ++ u) → l ≠ [] →
  join sep (map g (map_last f l)) = join sep (map g l) ++ u.
Proof.
  intros Hf. induction l as [|x l IH]; [done|]. intros _. destruct l as [|y l]; [by simpl; rewrite Hf|].
  change (map_last f (x :: y :: l)) with (x :: map_last f (y :: l)).
  destruct (map_last f (y :: l)) as [|z l'] eqn:E; [by destruct l|].
  cbn [map] in *. rewrite !join_cons2. rewrite IH by done. by rewrite <- !app_assoc.
Qed.

(** Every item after a separator and the line break. *)
Lemma join_map_front {A} (g : A → jstr) u l : l ≠ [] →
  join [44%N] (map (λ x, u ++ g x) l) = u ++ join (44%N :: u) (map g l).
Proof.
  induction l as [|x l IH]; [done|]. intros _. destruct l as [|y l]; [done|].
  change (map (λ x, u ++ g x) (x :: y :: l)) with ((u ++ g x) :: (u ++ g y) :: map (λ x, u ++ g x) l).
  change (map g (x :: y :: l)) with (g x :: g y :: map g l). rewrite !join_cons2.
  change ((u ++ g y) :: map (λ x, u ++ g x) l) with (map (λ x, u ++ g x) (y :: l)). rewrite IH by done.
  change (g y :: map g l) with (map g (y :: l)). rewrite <- !app_assoc. done.
Qed.

Definition line_key (nl k : jstr) : mkey := {| k_pre := nl; k_raw := json_quote_body k; k_str := k; k_post := [] |}.

Fixpoint pretty_cst (nl : jstr) (v : jsval) : cst :=
  let inner := nl ++ js "  " in
  match v with
  | VArr l => CArr [] [] (map_last (after nl) (map (λ v, before inner (pretty_cst inner v)) l)) []
  | VObj o => CObj [] [] (map_last (λ m, (m.1, after nl m.2))
                (map (λ p, (line_key inner p.1, before (js " ") (pretty_cst inner p.2))) o)) []
  | _ => cst_of v
  end.

Lemma spaces_inner nl : spaces nl → spaces (nl ++ js "  ").
Proof. intros H. apply Forall_app. split; [done|]. by repeat constructor. Qed.

Lemma map_last_ne {A} (f : A → A) l : l ≠ [] → map_last f l ≠ [].
Proof. by destruct l as [|x [|y l]]. Qed.

Lemma text_items w wi ts w' : ts ≠ [] → text (CArr w wi ts w') = w ++ 91%N :: join [44%N] (map text ts) ++ 93%N :: w'.
Proof. by destruct ts. Qed.

Lemma text_members w wi ms w' : ms ≠ [] → text (CObj w wi ms w') = w ++ 123%N :: join [44%N] (map member_text ms) ++ 125%N :: w'.
Proof. by destruct ms. Qed.

Lemma member_text_after nl m : member_text (m.1, after nl m.2) = member_text m ++ nl.
Proof. unfold member_text. cbn [fst snd]. by rewrite text_after, app_assoc. Qed.

Lemma member_text_line nl k t : member_text (line_key nl k, before (js " ") t) = nl ++ json_quote k ++ js ": " ++ text t.
Proof. unfold member_text, key_text, line_key, json_quote, quoted. cbn [fst snd k_pre k_raw k_post]. rewrite text_before. simpl. rewrite <- !app_assoc. simpl. by rewrite <- !app_assoc. Qed.

Lemma text_pretty v : ∀ nl, json_data v → json_pretty_at nl v = Some (text (pretty_cst nl v)).
Proof.
  induction v as [| |b|d|s|l IH|o IH|] using jsval_ind'; intros nl Hv; try exact (text_cst_of _ Hv).
  - apply foldr_and_Forall in Hv. cbn [json_pretty_at pretty_cst]. f_equal. set (inner := nl ++ js "  ").
    assert (map (λ v, default (js "null") (json_pretty_at inner v)) l = map (λ v, text (pretty_cst inner v)) l) as ->.
    { apply map_ext_in. intros v Hin%list_elem_of_In. rewrite Forall_forall in *. by rewrite (IH v Hin _ (Hv v Hin)). }
    destruct l as [|v l]; [done|]. remember (v :: l) as vs eqn:Evs. assert (vs ≠ []) as Hne by (by subst).
    rewrite text_items by (apply map_last_ne; by subst). rewrite (join_map_last text _ _ nl) by first [apply text_after | by subst].
    rewrite map_map. rewrite (map_ext (λ v, text (before inner (pretty_cst inner v))) (λ v, inner ++ text (pretty_cst inner v))) by (intros; apply text_before).
    rewrite join_map_front by done. subst vs. cbn [map app]. by rewrite <- !app_assoc.
  - destruct Hv as [_ Hv]. apply foldr_and_Forall in Hv. cbn [json_pretty_at pretty_cst]. f_equal. set (inner := nl ++ js "  ").
    assert (omap (λ p, t ← json_pretty_at inner p.2; Some (json_quote p.1 ++ js ": " ++ t)) o
            = map (λ p, json_quote p.1 ++ js ": " ++ text (pretty_cst inner p.2)) o) as ->.
    { clear -IH Hv. induction o as [|[k v] o IHo]; [done|]. apply Forall_cons in IH as [IHv IH]. apply Forall_cons in Hv as [[_ Hd] Hv].
      specialize (IHo IH Hv). cbn [omap list_omap map fst snd] in *. rewrite (IHv _ Hd). cbn [mbind option_bind]. by rewrite <- IHo. }
    destruct o as [|p o]; [done|]. remember (p :: o) as ps eqn:Eps. assert (ps ≠ []) as Hne by (by subst).
    rewrite text_members by (apply map_last_ne; by subst).
    rewrite (join_map_last member_text _ _ nl) by first [apply member_text_after | by subst].
    rewrite map_map. rewrite (map_ext (λ p, member_text (line_key inner p.1, before (js " ") (pretty_cst inner p.2))) (λ p, inner ++ json_quote p.1 ++ js ": " ++ text (pretty_cst inner p.2))) by (intros; apply member_text_line).
    rewrite join_map_front by done. subst ps. cbn [map app]. by rewrite <- !app_assoc.
Qed.

Lemma value_pretty v : ∀ nl, json_data v → value (pretty_cst nl v) = v.
Proof.
  induction v as [| | | | |l IH|o IH|] using jsval_ind'; intros nl Hv; try exact (value_cst_of _ Hv).
  - apply foldr_and_Forall in Hv. cbn [pretty_cst value]. f_equal. rewrite map_map_last by (intros; apply value_after).
    rewrite map_map. rewrite <- (map_id l) at 2. apply map_ext_in. intros v Hin%list_elem_of_In.
    rewrite value_before. rewrite Forall_forall in *. by apply IH, Hv.
  - destruct Hv as [Ho Hv]. apply foldr_and_Forall in Hv. cbn [pretty_cst value]. f_equal.
    rewrite map_map_last by (intros; cbn [fst snd]; by rewrite value_after). rewrite map_map.
    rewrite (map_ext_in _ id), map_id; [by apply of_entries_ordered|].
    intros [k v] Hin%list_elem_of_In. rewrite Forall_forall in *. destruct (Hv _ Hin) as [_ Hd]. cbn [fst snd k_str line_key] in *.
    rewrite value_before. pose proof (IH (k, v) Hin (nl ++ js "  ") Hd) as E. cbn [snd] in E. by rewrite E.
Qed.

Lemma tokens_pretty v : ∀ nl, spaces nl → json_data v → tokens_ok (pretty_cst nl v).
Proof.
  assert (Hw : spaces []) by constructor.
  induction v as [| | | | |l IH|o IH|] using jsval_ind'; intros nl Hnl Hv; try exact (tokens_cst_of _ Hv);
    pose proof (spaces_inner nl Hnl) as Hin'.
  - apply foldr_and_Forall in Hv. cbn [pretty_cst tokens_ok]. split_and!; try done. apply foldr_and_Forall.
    apply map_last_Forall; [intros; by apply tokens_after|]. apply Forall_map.
    rewrite Forall_forall in *. intros v Hin. apply tokens_before; [done|]. by apply IH, Hv.
  - destruct Hv as [_ Hv]. apply foldr_and_Forall in Hv. cbn [pretty_cst tokens_ok]. split_and!; try done. apply foldr_and_Forall.
    apply map_last_Forall; [intros m [? ?]; split; [done|]; by apply tokens_after|]. apply Forall_map.
    rewrite Forall_forall in *. intros [k v] Hin. destruct (Hv _ Hin) as [Hk Hd]. cbn [fst snd] in *.
    split; [|apply tokens_before; [by repeat constructor|by apply (IH (k, v))]]. repeat split; try done. by apply raw_ok_quote.
Qed.

Lemma literals_before u t : literals_ok (before u t) ↔ literals_ok t.
Proof. by destruct t. Qed.
Lemma literals_after u t : literals_ok (after u t) ↔ literals_ok t.
Proof. by destruct t. Qed.

Lemma literals_pretty v : ∀ nl, json_data v → literals_ok (pretty_cst nl v).
Proof.
  induction v as [| | | | |l IH|o IH|] using jsval_ind'; intros nl Hv; try exact (literals_cst_of _ Hv).
  - apply foldr_and_Forall in Hv. cbn [pretty_cst literals_ok]. apply foldr_and_Forall.
    apply map_last_Forall; [intros; by apply literals_after|]. apply Forall_map.
    rewrite Forall_forall in *. intros v Hin. apply literals_before. by apply IH, Hv.
  - destruct Hv as [_ Hv]. apply foldr_and_Forall in Hv. cbn [pretty_cst literals_ok]. apply foldr_and_Forall.
    apply map_last_Forall; [intros; by apply literals_after|]. apply Forall_map.
    rewrite Forall_forall in *. intros [k v] Hin. destruct (Hv _ Hin) as [_ Hd]. cbn [snd] in *. apply literals_before. by apply (IH (k, v)).
Qed.

(** Data printed on lines parses back. *)
Lemma json_parse_pretty v s w : json_data v → json_pretty v = Some s → spaces w → json_parse (s ++ w) = Some v.
Proof.
  intros Hv. assert (spaces [10%N]) as Hnl by (by repeat constructor). unfold json_pretty. rewrite text_pretty by done. intros [= <-] Hw.
  rewrite <- text_after. rewrite json_parse_text.
  - by rewrite value_after, value_pretty.
  - apply tokens_after; [done|]. by apply tokens_pretty.
  - apply literals_after. by apply literals_pretty.
Qed.
