(* ===== verification/Values.v ===== *)
(** * tools/utilities/values.ts: value typing and key paths

    The conversion rules and the settings tree shared by the configuration
    sources.  A settings tree is a [jsval] object; the functions below thread the
    tree the source mutates. *)

From S2P Require Export Json Regex.

Local Open Scope nat_scope.

Notation settings := (list (jstr * jsval)).

Section values.
Context {CM : CaseMapping}.

Definition non_empty (s : jstr) : bool := negb (bool_decide (s = [])).

Definition splitCommaSeparated (raw : jstr) : list jstr :=
  if bool_decide (raw = []) then []
  else List.filter non_empty (map trim (split_on 44 raw)).

Definition parseBoolean (value : jstr) : option bool :=
  let v := toLowerCase (trim value) in
  if bool_decide (v ∈ [js "1"; js "t"; js "true"]) then Some true
  else if bool_decide (v ∈ [js "0"; js "f"; js "false"]) then Some false
  else None.

(** An optional sign, digits with an optional point, an optional exponent; the
    flag [i] only concerns the letter of the exponent. *)
Definition scalarPattern : regex :=
  ROpt (ROneOf "+-")
  ⋅ (RPlus r_digit ⋅ ROpt (RChar 46) ⋅ r_digit^* ⊕ RChar 46 ⋅ RPlus r_digit)
  ⋅ ROpt (ROneOf "eE" ⋅ ROpt (ROneOf "+-") ⋅ RPlus r_digit).

Definition inferScalar (raw : jstr) : jsval :=
  let value := trim raw in
  if bool_decide (value = []) then VStr []
  else
    let lower := toLowerCase value in
    if bool_decide (lower = js "true") then VBool true
    else if bool_decide (lower = js "false") then VBool false
    else
      let parsed := string_to_number value in
      if isFinite parsed && matches scalarPattern value then VNum parsed
      else VStr value.

Definition parseList (value : jstr) (stringsOnly : bool) : list jsval :=
  let typed items := if stringsOnly then map VStr items else map inferScalar items in
  let bare :=
    if startsWith value [91%N] && endsWith value [93%N]
    then typed (splitCommaSeparated (slice value 1 (length value - 1)))
    else typed (splitCommaSeparated value) in
  if startsWith value [91%N] then
    match json_parse value with
    | Some (VArr decoded) =>
        if stringsOnly then map (λ item, VStr (js_String item)) decoded else decoded
    | _ => bare
    end
  else bare.

Definition is_string (v : jsval) : bool := match v with VStr _ => true | _ => false end.

Definition parseEnvValue (raw : jstr) (template : jsval) : jsval :=
  let value := trim raw in
  match template with
  | VBool _ => match parseBoolean value with Some b => VBool b | None => VStr value end
  | VNum _ =>
      let parsed := string_to_number value in
      if isFinite parsed then VNum parsed else VStr value
  | VArr l => VArr (parseList value (forallb is_string l))
  | _ => VStr value
  end.

Definition envNameFromPath (path : list jstr) : jstr :=
  join [95%N] (map toUpperCase (List.filter non_empty (map trim path))).

Definition splitKey (key : jstr) : list jstr :=
  List.filter non_empty (map (λ part, toLowerCase (trim part)) (split_on 46 key)).

Definition isSettings (v : jsval) : bool := match v with VObj _ => true | _ => false end.

Fixpoint readPath (node : jsval) (path : list jstr) : jsval :=
  match path with
  | [] => node
  | part :: path =>
      match node with
      | VObj o => readPath (js_get o part) path
      | _ => VUndef
      end
  end.

Fixpoint writePath (s : settings) (path : list jstr) (value : jsval) : settings :=
  match path with
  | [] => s
  | [part] => obj_set part value s
  | part :: path =>
      match js_get s part with
      | VObj child => obj_set part (VObj (writePath child path value)) s
      | _ => obj_set part (VObj (writePath [] path value)) s
      end
  end.

(** [mergeSettings target source]: [source] is a settings object. *)
Fixpoint merge_value (target : settings) (source : jsval) : settings :=
  match source with
  | VObj s =>
      (fix go (target : settings) (s : settings) : settings :=
         match s with
         | [] => target
         | (key, value) :: s =>
             go (match js_get target key, value with
                 | VObj existing, VObj _ => obj_set key (VObj (merge_value existing value)) target
                 | _, _ => obj_set key value target
                 end) s
         end) target s
  | _ => target
  end.

Definition merge_entry (target : settings) (p : jstr * jsval) : settings :=
  match js_get target p.1, p.2 with
  | VObj existing, VObj _ => obj_set p.1 (VObj (merge_value existing p.2)) target
  | _, _ => obj_set p.1 p.2 target
  end.

Definition mergeSettings (target source : settings) : settings :=
  foldl merge_entry target source.

(** The (path, value) pairs [forEachLeaf] visits, in order. *)
Fixpoint leaves (path : list jstr) (v : jsval) : list (list jstr * jsval) :=
  match v with
  | VObj o => (fix go (o : settings) :=
                 match o with
                 | [] => []
                 | (key, value) :: o =>
                     (if isSettings value then leaves (path ++ [key]) value
                      else [(path ++ [key], value)]) ++ go o
                 end) o
  | _ => []
  end.

Definition forEachLeaf {S} (visit : S → list jstr → jsval → S) (s : settings) (st : S) : S :=
  foldl (λ st p, visit st p.1 p.2) st (leaves [] (VObj s)).

(** Lower-cases every key; a later key that collides replaces the value. *)
Fixpoint insensitive (v : jsval) : jsval :=
  match v with
  | VArr l => VArr (map insensitive l)
  | VObj o => VObj ((fix go (acc : settings) (o : settings) : settings :=
                       match o with
                       | [] => acc
                       | (key, nested) :: o => go (obj_set (toLowerCase key) (insensitive nested) acc) o
                       end) [] o)
  | _ => v
  end.
End values.

Lemma merge_value_obj t s : merge_value t (VObj s) = mergeSettings t s.
Proof.
  unfold mergeSettings. simpl. revert t.
  induction s as [|[k v] s IH]; intros t; simpl; [done|]. by rewrite <- IH.
Qed.

(** ** Laws of the settings tree *)

Lemma readPath_app v p q : readPath v (p ++ q) = readPath (readPath v p) q.
Proof.
  revert v; induction p as [|k p IH]; intros v; simpl; [done|].
  destruct v; try (by destruct q); apply IH.
Qed.

(** One level of [writePath] on a path of at least two segments. *)
Lemma writePath_cons s k k' p v :
  writePath s (k :: k' :: p) v
  = obj_set k (VObj (writePath (match js_get s k with VObj c => c | _ => [] end) (k' :: p) v)) s.
Proof. simpl. by destruct (js_get s k). Qed.

Lemma readPath_writePath s p v : p ≠ [] → readPath (VObj (writePath s p v)) p = v.
Proof.
  revert s; induction p as [|k p IH]; intros s Hp; [done|].
  destruct p as [|k' p].
  - simpl. by rewrite js_get_set, bool_decide_eq_true_2.
  - rewrite writePath_cons. cbn [readPath].
    rewrite js_get_set, bool_decide_eq_true_2 by done. by apply IH.
Qed.

(** Reading through an absent own key gives nothing. *)
Lemma readPath_missing k q : k ∉ object_prototype → readPath (VObj []) (k :: q) = VUndef.
Proof.
  intros Hk. simpl. unfold js_get. simpl. rewrite bool_decide_eq_false_2 by done.
  by destruct q.
Qed.

Lemma readPath_nonobj v k q : isSettings v = false → readPath v (k :: q) = VUndef.
Proof. by destruct v. Qed.

Lemma readPath_writePath_diverge s c a b p q v :
  a ≠ b → b ∉ object_prototype →
  readPath (VObj (writePath s (c ++ a :: p) v)) (c ++ b :: q)
  = readPath (VObj s) (c ++ b :: q).
Proof.
  intros Hab Hb. revert s; induction c as [|k c IH]; intros s; cbn [app].
  - destruct p as [|k' p]; [|rewrite writePath_cons]; simpl;
      by rewrite js_get_set, bool_decide_eq_false_2.
  - assert (∃ x y, c ++ a :: p = x :: y) as (x & y & E) by (destruct c; simpl; eauto).
    rewrite E, writePath_cons, <- E. cbn [readPath].
    rewrite js_get_set, bool_decide_eq_true_2 by done. rewrite IH.
    destruct (js_get s k) eqn:Ek; try done.
    all: destruct c as [|k2 c]; cbn [app]; rewrite ?readPath_missing by done; try done.
    all: simpl; unfold js_get; simpl; case_bool_decide; by destruct c.
Qed.

(** A merge only looks at the key it writes. *)
Lemma js_get_merge_entry t p k :
  js_get (merge_entry t p) k
  = if bool_decide (k = p.1)
    then match js_get t k, p.2 with
         | VObj e, VObj c => VObj (mergeSettings e c)
         | _, v => v
         end
    else js_get t k.
Proof.
  unfold merge_entry. destruct p as [k' v]; simpl.
  destruct (js_get t k') eqn:Ek; destruct v as [| | | | | |c|];
    rewrite js_get_set; case_bool_decide; subst; rewrite ?Ek; try done.
  by rewrite merge_value_obj.
Qed.

Lemma mergeSettings_get t s k : NoDup (keys s) →
  js_get (mergeSettings t s) k
  = match own_get k s with
    | None => js_get t k
    | Some v => match js_get t k, v with
                | VObj e, VObj c => VObj (mergeSettings e c)
                | _, _ => v
                end
    end.
Proof.
  unfold mergeSettings. revert t; induction s as [|[k' v] s IH]; intros t Hnd; simpl; [done|].
  inversion Hnd as [|? ? Hk' Hs]; subst. rewrite IH by done.
  rewrite js_get_merge_entry. simpl. case_bool_decide; subst.
  - apply own_get_None in Hk'. rewrite Hk'. by destruct (js_get t k'), v.
  - done.
Qed.

(** ** Leaves *)

Lemma leaves_obj p o :
  leaves p (VObj o)
  = o ≫= λ kv, if isSettings kv.2 then leaves (p ++ [kv.1]) kv.2 else [(p ++ [kv.1], kv.2)].
Proof.
  simpl. induction o as [|[k v] o IH]; simpl; [done|]. by rewrite IH.
Qed.

(** Reading own properties only. *)
Fixpoint own_read (v : jsval) (q : list jstr) : option jsval :=
  match q with
  | [] => Some v
  | k :: q => match v with VObj o => x ← own_get k o; own_read x q | _ => None end
  end.

Lemma own_read_readPath v q w : own_read v q = Some w → readPath v q = w.
Proof.
  revert v; induction q as [|k q IH]; intros v; simpl; [by intros [= ->]|].
  destruct v as [| | | | | |o|]; try done. intros (x & Hx & Hr)%bind_Some.
  unfold js_get. rewrite Hx. by apply IH.
Qed.

(** The paths visited below [p] extend [p] by a path that reads the value. *)
Lemma leaves_sound v p q w : wf_val v → (q, w) ∈ leaves p v →
  ∃ q', q = p ++ q' ∧ q' ≠ [] ∧ own_read v q' = Some w ∧ isSettings w = false.
Proof.
  revert p q w. induction v as [| | | | | |o IH|] using jsval_ind'; intros p q w Hwf Hin;
    try (by inversion Hin).
  rewrite leaves_obj in Hin. apply list_elem_of_bind in Hin as ([k x] & Hin & Hx).
  apply wf_val_obj in Hwf as [Hnd Hwf].
  pose proof (elem_own_get _ _ _ Hnd Hx) as Hg.
  rewrite Forall_forall in IH, Hwf. specialize (IH _ Hx). specialize (Hwf _ Hx). simpl in *.
  destruct (isSettings x) eqn:Es.
  - apply IH in Hin as (q' & -> & Hne & Hr & Hw); [|done].
    exists (k :: q'). rewrite <- app_assoc. simpl. by rewrite Hg.
  - apply list_elem_of_singleton in Hin as [= -> ->]. exists [k]. simpl. by rewrite Hg.
Qed.

(** Every own path to a leaf is visited. *)
Lemma leaves_complete v p q w : own_read v q = Some w → q ≠ [] → isSettings w = false →
  (p ++ q, w) ∈ leaves p v.
Proof.
  revert p v; induction q as [|k q IH]; intros p v Hr Hne Hw; [done|]. simpl in Hr.
  destruct v as [| | | | | |o|]; try done. apply bind_Some in Hr as (x & Hx & Hr).
  rewrite leaves_obj. apply list_elem_of_bind. exists (k, x). split; [|by apply own_get_elem].
  destruct q as [|k2 q].
  - simpl in Hr. injection Hr as ->. simpl. rewrite Hw. by apply list_elem_of_singleton.
  - destruct x as [| | | | | |o'|]; try done. cbn [isSettings snd fst].
    replace (p ++ k :: k2 :: q) with ((p ++ [k]) ++ k2 :: q) by by rewrite <- app_assoc.
    by apply IH.
Qed.

(** The leaves of the source win a merge. *)
Lemma mergeSettings_own t s q w : wf_val (VObj s) → q ≠ [] →
  own_read (VObj s) q = Some w → isSettings w = false →
  readPath (VObj (mergeSettings t s)) q = w.
Proof.
  revert t s; induction q as [|k q IH]; intros t s Hwf Hne Hr Hw; [done|].
  apply wf_val_obj in Hwf as [Hnd Hwf]. cbn [readPath own_read] in *.
  apply bind_Some in Hr as (x & Hx & Hr).
  rewrite mergeSettings_get, Hx by done.
  rewrite Forall_forall in Hwf. specialize (Hwf _ (own_get_elem _ _ _ Hx)). simpl in Hwf.
  destruct q as [|k2 q].
  - injection Hr as ->. by destruct (js_get t k), w.
  - destruct x as [| | | | | |c|]; try done.
    destruct (js_get t k) as [| | | | | |e|]; try (by apply own_read_readPath).
    by apply IH.
Qed.

(** A path the source does not declare, at any prefix, keeps its target value. *)
Lemma mergeSettings_frame t s q : wf_val (VObj s) → q ≠ [] →
  (∀ n w, 0 < n → own_read (VObj s) (take n q) = Some w → isSettings w = true ∧ n < length q ∧
          isSettings (readPath (VObj t) (take n q)) = true) →
  readPath (VObj (mergeSettings t s)) q = readPath (VObj t) q.
Proof.
  revert t s; induction q as [|k q IH]; intros t s Hwf Hne Hq; [done|].
  apply wf_val_obj in Hwf as [Hnd Hwf]. cbn [readPath].
  rewrite mergeSettings_get by done. destruct (own_get k s) as [x|] eqn:Hx; [|done].
  rewrite Forall_forall in Hwf. specialize (Hwf _ (own_get_elem _ _ _ Hx)). simpl in Hwf.
  destruct (Hq 1 x) as (Hs & Hl & Ht); [lia| |].
  { simpl. rewrite Hx. by destruct q. }
  simpl in Ht, Hl. destruct x as [| | | | | |c|]; try done.
  destruct (js_get t k) as [| | | | | |e|] eqn:Et; try done.
  apply IH; [done | destruct q; simpl in Hl; [lia | done] |]. intros n w Hn Hr.
  destruct (Hq (S n) w) as (? & ? & Ht'); [lia| |].
  { simpl. by rewrite Hx. }
  simpl in *. rewrite Et in Ht'. split; [done|]. split; [lia | done].
Qed.

(** ** Key normal form *)

Section normal_keys.
Context {CM : CaseMapping}.

(** A segment [splitKey] leaves unchanged. *)
Definition normal_part (p : jstr) : Prop :=
  p ≠ [] ∧ 46%N ∉ p ∧ trim p = p ∧ toLowerCase p = p.

Lemma splitKey_join path : Forall normal_part path → splitKey (join [46%N] path) = path.
Proof.
  intros H. destruct path as [|p path]; [by unfold splitKey; simpl; rewrite toLowerCase_ascii|].
  unfold splitKey. rewrite split_on_join; [|done|].
  - induction H as [|q l (Hne & _ & Ht & Hl) _ IH]; [done|]. simpl.
    rewrite Ht, Hl. unfold non_empty. rewrite bool_decide_eq_false_2 by done. simpl. by f_equal.
  - eapply Forall_impl; [done|]. by intros q (_ & ? & _).
Qed.

Lemma is_space_lower c : is_space (ascii_lower c) = is_space c.
Proof. unfold ascii_lower, is_upper, is_space, in_range. case_match; lia. Qed.

Lemma trim_start_lower s : trim_start (map ascii_lower s) = map ascii_lower (trim_start s).
Proof.
  induction s as [|c s IH]; simpl; [done|]. rewrite is_space_lower. by destruct (is_space c).
Qed.

Lemma trim_lower s : trim (map ascii_lower s) = map ascii_lower (trim s).
Proof.
  unfold trim, trim_end. by rewrite trim_start_lower, <- map_rev, trim_start_lower, <- map_rev.
Qed.

Lemma trim_incl s : Forall (λ c, c ∈ s) (trim s).
Proof.
  apply Forall_forall. intros c Hc. unfold trim in Hc.
  destruct (trim_end_split (trim_start s)) as (w & Hw & _).
  destruct (trim_start_split s) as (w' & Hw' & _).
  rewrite Hw'. apply elem_of_app; right. rewrite Hw. apply elem_of_app; by left.
Qed.

Lemma split_on_incl sep s p : p ∈ split_on sep s → Forall (λ c, c ∈ s) p.
Proof.
  intros Hp. apply Forall_forall. intros c Hc. rewrite <- (join_split_on sep s).
  induction (split_on sep s) as [|q l IH]; [by inversion Hp|].
  apply elem_of_cons in Hp as [->|Hp].
  - destruct l; [done|]. simpl. apply elem_of_app; by left.
  - destruct l; [by inversion Hp|]. specialize (IH Hp). simpl in *.
    apply elem_of_app; right. by constructor.
Qed.

Lemma splitKey_parts key : is_ascii key = true → Forall normal_part (splitKey key).
Proof.
  intros Ha. apply is_ascii_Forall in Ha. unfold splitKey.
  apply Forall_forall. intros p Hp.
  apply list_elem_of_In, filter_In in Hp as [Hp Hne]. apply in_map_iff in Hp as (q & <- & Hq).
  apply list_elem_of_In in Hq.
  pose proof (split_on_incl _ _ _ Hq) as Hi.
  pose proof (proj1 (Forall_forall _ _) (split_on_no_sep 46 key) _ Hq) as Hd. simpl in Hd.
  assert (Hat : is_ascii (trim q) = true).
  { apply is_ascii_Forall, Forall_forall. intros c Hc.
    pose proof (proj1 (Forall_forall _ _) (trim_incl q) _ Hc) as Hcq.
    apply (proj1 (Forall_forall _ _) Ha), (proj1 (Forall_forall _ _) Hi), Hcq. }
  rewrite (toLowerCase_ascii (trim q)) in * by done.
  repeat split.
  - intros E. rewrite E in Hne. done.
  - intros (c & Hc & Hin)%list_elem_of_fmap.
    pose proof (proj1 (Forall_forall _ _) (trim_incl q) _ Hin) as Hcq. simpl in Hcq.
    unfold ascii_lower, is_upper, in_range in Hc. case_match; [lia|]. by subst.
  - by rewrite trim_lower, trim_idem.
  - rewrite toLowerCase_ascii.
    + rewrite map_map. apply map_ext. apply ascii_lower_idem.
    + apply is_ascii_Forall, Forall_fmap. apply is_ascii_Forall in Hat.
      eapply Forall_impl; [done|]. intros c Hc. simpl in *.
      unfold ascii_lower, is_upper, in_range. case_match; lia.
Qed.
End normal_keys.

(** ** Lower-cased trees *)

Fixpoint all_keys (P : jstr → Prop) (v : jsval) : Prop :=
  match v with
  | VArr l => foldr (λ v Q, all_keys P v ∧ Q) True l
  | VObj o => foldr (λ p Q, (P p.1 ∧ all_keys P p.2) ∧ Q) True o
  | _ => True
  end.

Lemma all_keys_obj P o : all_keys P (VObj o) ↔ Forall (λ p, P p.1 ∧ all_keys P p.2) o.
Proof.
  simpl. induction o as [|p o IH]; simpl; [by split; constructor|]. by rewrite Forall_cons, IH.
Qed.

Lemma all_keys_arr P l : all_keys P (VArr l) ↔ Forall (all_keys P) l.
Proof.
  simpl. induction l as [|p l IH]; simpl; [by split; constructor|]. by rewrite Forall_cons, IH.
Qed.

Section insensitive.
Context {CM : CaseMapping}.

Definition insensitive_entry (acc : settings) (p : jstr * jsval) : settings :=
  obj_set (toLowerCase p.1) (insensitive p.2) acc.

Lemma insensitive_obj o : insensitive (VObj o) = VObj (foldl insensitive_entry [] o).
Proof.
  simpl. f_equal. generalize (@nil (jstr * jsval)) as acc.
  induction o as [|[k v] o IH]; intros acc; simpl; [done|]. by rewrite IH.
Qed.

Lemma insensitive_lower v : all_keys (λ k, toLowerCase k = k) (insensitive v) ∧ wf_val (insensitive v).
Proof.
  induction v as [| | | | |l IH|o IH|] using jsval_ind'; try done.
  - change (insensitive (VArr l)) with (VArr (map insensitive l)).
    rewrite all_keys_arr, wf_val_arr. rewrite !Forall_fmap.
    split; (eapply Forall_impl; [done|]); by intros v [? ?].
  - rewrite insensitive_obj, all_keys_obj, wf_val_obj.
    assert (∀ acc, Forall (λ p, toLowerCase p.1 = p.1 ∧ all_keys (λ k, toLowerCase k = k) p.2) acc →
              NoDup (keys acc) → Forall (λ p, wf_val p.2) acc →
              Forall (λ p, toLowerCase p.1 = p.1 ∧ all_keys (λ k, toLowerCase k = k) p.2)
                (foldl insensitive_entry acc o)
              ∧ NoDup (keys (foldl insensitive_entry acc o))
              ∧ Forall (λ p, wf_val p.2) (foldl insensitive_entry acc o)) as H;
      [|apply H; constructor].
    induction IH as [|[k v] o [Hv Hw] _ IHo]; intros acc Ha Hn Hf; simpl; [done|].
    apply IHo; unfold insensitive_entry; simpl in *.
    + rewrite Forall_forall in *. intros p [->|Hp]%elem_of_set; [|by apply Ha].
      simpl. by rewrite toLowerCase_idem.
    + by apply keys_set_NoDup.
    + rewrite Forall_forall in *. intros p [->|Hp]%elem_of_set; [done | by apply Hf].
Qed.

Lemma insensitive_entries_other acc o k :
  (∀ p, p ∈ o → toLowerCase p.1 ≠ k) →
  own_get k (foldl insensitive_entry acc o) = own_get k acc.
Proof.
  revert acc; induction o as [|p o IH]; intros acc Hk; simpl; [done|].
  rewrite IH by (intros; apply Hk; by constructor).
  unfold insensitive_entry. rewrite own_get_set_ne; [done|].
  intros ->. by apply (Hk p); [constructor|].
Qed.

Lemma insensitive_last l k v r :
  (∀ p, p ∈ r → toLowerCase p.1 ≠ toLowerCase k) →
  own_get (toLowerCase k) (foldl insensitive_entry [] (l ++ (k, v) :: r)) = Some (insensitive v).
Proof.
  intros Hr. rewrite foldl_app. simpl. rewrite insensitive_entries_other by done.
  unfold insensitive_entry at 1. simpl. by rewrite own_get_set_eq.
Qed.
End insensitive.

(** ** Properties *)

(** Writing a key path makes exactly that path readable: a later read of the
    same path returns the value written, whatever the tree held before (scalars on
    the way are replaced by records), and a read of any path that diverges from it
    at some segment sees what it saw before. *)
Theorem writePath_readback s c a b p q v :
  a ≠ b → b ∉ object_prototype →
  readPath (VObj (writePath s (c ++ a :: p) v)) (c ++ a :: p) = v ∧
  readPath (VObj (writePath s (c ++ a :: p) v)) (c ++ b :: q) = readPath (VObj s) (c ++ b :: q).
Proof.
  intros Hab Hb. split.
  - apply readPath_writePath. by destruct c.
  - by apply readPath_writePath_diverge.
Qed.

Lemma writePath_readback_witness :
  readPath (VObj (writePath [(js "server", VObj [(js "host", VStr (js "h"))])]
                    ([js "server"] ++ js "port" :: []) (VBool true)))
    ([js "server"] ++ js "host" :: []) = VStr (js "h").
Proof.
  refine (eq_trans (proj2 (writePath_readback _ [js "server"] (js "port") (js "host") [] [] _ _ _)) _).
  - discriminate.
  - apply (bool_decide_eq_false_1 (js "host" ∈ object_prototype)). vm_compute. reflexivity.
  - vm_compute. reflexivity.
Defined.

(** In a merge the source wins and nothing else changes: every leaf the source
    declares is read back from the merged tree with the source's value, and a path
    that the source only crosses through records both trees have, or does not
    mention, keeps the target's value. *)
Theorem mergeSettings_source_wins t s : wf_val (VObj s) →
  (∀ q w, (q, w) ∈ leaves [] (VObj s) → readPath (VObj (mergeSettings t s)) q = w) ∧
  (∀ q, q ≠ [] →
     (∀ n w, 0 < n → own_read (VObj s) (take n q) = Some w →
        isSettings w = true ∧ n < length q ∧ isSettings (readPath (VObj t) (take n q)) = true) →
     readPath (VObj (mergeSettings t s)) q = readPath (VObj t) q).
Proof.
  intros Hwf. split.
  - intros q w Hin. destruct (leaves_sound _ _ _ _ Hwf Hin) as (q' & -> & ? & ? & ?).
    by apply mergeSettings_own.
  - intros q Hne Hq. by apply mergeSettings_frame.
Qed.

Definition witness_target : settings :=
  [(js "app", VObj [(js "name", VStr (js "a")); (js "port", VNum (dbl_of_Z 1))])].
Definition witness_source : settings := [(js "app", VObj [(js "port", VNum (dbl_of_Z 8080))])].

Lemma mergeSettings_source_wins_witness :
  readPath (VObj (mergeSettings witness_target witness_source)) [js "app"; js "port"]
  = VNum (dbl_of_Z 8080).
Proof.
  refine (proj1 (mergeSettings_source_wins witness_target witness_source _) _ _ _).
  - apply wf_valb_correct. vm_compute. reflexivity.
  - unfold witness_source. rewrite leaves_obj. simpl. by constructor.
Defined.

(** [forEachLeaf] visits every leaf of a tree, only leaves, and each under the
    path that reads it. *)
Theorem forEachLeaf_exact s q w : wf_val (VObj s) →
  (q, w) ∈ forEachLeaf (λ acc p v, acc ++ [(p, v)]) s []
  ↔ own_read (VObj s) q = Some w ∧ q ≠ [] ∧ isSettings w = false.
Proof.
  intros Hwf. unfold forEachLeaf.
  assert (∀ l acc, foldl (λ acc (p : list jstr * jsval), acc ++ [(p.1, p.2)]) acc l = acc ++ l) as ->.
  { induction l as [|[p v] l IH]; intros acc; simpl; [by rewrite app_nil_r|].
    by rewrite IH, <- app_assoc. }
  cbn [app]. split.
  - intros Hin. by destruct (leaves_sound _ _ _ _ Hwf Hin) as (q' & -> & ? & ? & ?).
  - intros (? & ? & ?). by apply (leaves_complete (VObj s) []).
Qed.

Lemma forEachLeaf_exact_witness :
  ([js "app"; js "name"], VStr (js "a"))
    ∈ forEachLeaf (λ acc p v, acc ++ [(p, v)]) witness_target [].
Proof.
  refine (proj2 (forEachLeaf_exact witness_target _ _ _) _).
  - apply wf_valb_correct. vm_compute. reflexivity.
  - done.
Defined.

(** An overlay value is typed by the value it overrides: over a boolean or a
    number it becomes a boolean or a finite number, or stays the trimmed text when it
    cannot be read as one; over a list it becomes a list, of strings when the
    overridden list only holds strings; over anything else it stays text. *)
Theorem parseEnvValue_type {CM : CaseMapping} raw template :
  match template with
  | VBool _ => (∃ b, parseBoolean (trim raw) = Some b ∧ parseEnvValue raw template = VBool b)
               ∨ parseBoolean (trim raw) = None ∧ parseEnvValue raw template = VStr (trim raw)
  | VNum _ => (∃ d, d = string_to_number (trim raw) ∧ isFinite d = true
                    ∧ parseEnvValue raw template = VNum d)
              ∨ isFinite (string_to_number (trim raw)) = false
                ∧ parseEnvValue raw template = VStr (trim raw)
  | VArr l => ∃ l', parseEnvValue raw template = VArr l'
                    ∧ (Forall (λ v, is_string v = true) l → Forall (λ v, is_string v = true) l')
  | _ => parseEnvValue raw template = VStr (trim raw)
  end.
Proof.
  destruct template as [| |b|d|s|l|o|f]; unfold parseEnvValue; try done.
  - destruct (parseBoolean (trim raw)); eauto.
  - destruct (isFinite _) eqn:E; eauto.
  - eexists; split; [done|]. intros Hl.
    assert (forallb is_string l = true) as ->.
    { apply forallb_forall. intros x Hx. rewrite Forall_forall in Hl.
      by apply Hl, list_elem_of_In. }
    unfold parseList. repeat case_match; try discriminate;
      try (apply Forall_fmap, Forall_true; done).
Qed.

(** [splitKey] has a normal form: on an ASCII key it yields non-empty, trimmed,
    lower-case segments without dots, and joining the segments with dots and
    splitting again gives the same path, so a path survives its dotted spelling. *)
Theorem splitKey_normal {CM : CaseMapping} key : is_ascii key = true →
  Forall normal_part (splitKey key) ∧ splitKey (join [46%N] (splitKey key)) = splitKey key.
Proof.
  intros Ha. pose proof (splitKey_parts key Ha). split; [done|]. by apply splitKey_join.
Qed.

Lemma splitKey_normal_witness :
  let key := js " Server.. HTTP .Port" in
  splitKey (CM := ascii_case) (join [46%N] (splitKey (CM := ascii_case) key))
  = [js "server"; js "http"; js "port"].
Proof.
  intros key.
  refine (eq_trans (proj2 (splitKey_normal (CM := ascii_case) key _)) _);
    vm_compute; reflexivity.
Defined.

(** [insensitive] makes lookups case-insensitive: every key of the result is
    lower-case and no object has a key twice, and the lower-case form of a key reads
    the lower-cased value of the last entry that spells it. *)
Theorem insensitive_lookup {CM : CaseMapping} l k v r :
  (∀ p, p ∈ r → toLowerCase p.1 ≠ toLowerCase k) →
  ∃ o, insensitive (VObj (l ++ (k, v) :: r)) = VObj o
       ∧ all_keys (λ k, toLowerCase k = k) (VObj o) ∧ wf_val (VObj o)
       ∧ own_get (toLowerCase k) o = Some (insensitive v).
Proof.
  intros Hr. rewrite insensitive_obj. eexists. split; [done|].
  pose proof (insensitive_lower (VObj (l ++ (k, v) :: r))) as [Hk Hw].
  rewrite insensitive_obj in Hk, Hw. split; [done|]. split; [done|].
  by apply insensitive_last.
Qed.

Lemma insensitive_lookup_witness :
  ∃ o, insensitive (CM := ascii_case) (VObj ([(js "A", VNull)] ++ (js "a", VBool true) :: [])) = VObj o
       ∧ own_get (js "a") o = Some (VBool true).
Proof.
  destruct (insensitive_lookup (CM := ascii_case) [(js "A", VNull)] (js "a") (VBool true) [])
    as (o & Ho & _ & _ & Hg); [intros p Hp; inversion Hp|].
  exists o. split; [exact Ho | exact Hg].
Defined.

(** The documentation says that an overlay never changes the type of a setting; text
    that is not a number replaces a number by a string. *)
Theorem parseEnvValue_changes_type :
  parseEnvValue (CM := ascii_case) (js "fast") (VNum (dbl_of_Z 8080)) = VStr (js "fast").
Proof. vm_compute. reflexivity. Qed.
