(* ===== verification/Ini.v ===== *)
(** * tools/utilities/ini.ts: the INI reader

    [parseIni] reads a file line by line, threading the settings tree and the
    current section.  An error is the message of the raised [Error]. *)

From S2P Require Export Values.
Local Open Scope nat_scope.

(** [content.split(/\r?\n/)]. *)
Definition chop_cr (s : jstr) : jstr :=
  match rev s with
  | 13%N :: r => rev r
  | _ => s
  end.

Fixpoint chop_all_but_last (l : list jstr) : list jstr :=
  match l with
  | [] => []
  | [s] => [s]
  | s :: l => chop_cr s :: chop_all_but_last l
  end.

Definition split_lines (content : jstr) : list jstr := chop_all_but_last (split_on 10 content).

Section ini.
Context {CM : CaseMapping}.
(** What an earlier source declared for a dotted key, and the file name. *)
Context (declared : jstr → jsval) (source : option jstr).

Definition is_comment (s : jstr) : bool :=
  startsWith s (js ";") || startsWith s (js "#").

(** [iniError source line message] for a one-based line. *)
Definition iniError (line : nat) (message : jstr) : jstr :=
  match source with
  | None => js "line " ++ nat_to_string (N.of_nat line)
  | Some src => src ++ js ": line " ++ nat_to_string (N.of_nat line)
  end ++ js ": " ++ message.

Definition parseSection (text : jstr) (at_ : jstr → jstr) : res jstr (list jstr) :=
  match indexOf text 93 with
  | None => Err (at_ (js "unterminated section header " ++ json_quote text))
  | Some end_ =>
      let rest := trim (drop (S end_) text) in
      if negb (bool_decide (rest = [])) && negb (is_comment rest)
      then Err (at_ (js "unexpected " ++ json_quote rest ++ js " after section header"))
      else Ok (splitKey (slice text 1 end_))
  end.

Fixpoint readExisting (node : jsval) (path : list jstr) : jsval :=
  match path with
  | [] => node
  | part :: path =>
      match node with
      | VObj o => readExisting (js_get o part) path
      | _ => VUndef
      end
  end.

Definition asList (v : jsval) : list jsval := match v with VArr l => l | _ => [v] end.

Definition setIniValue (s : settings) (path : list jstr) (value : jsval) : settings :=
  match readExisting (VObj s) path with
  | VUndef => writePath s path value
  | existing => writePath s path (VArr (asList existing ++ asList value))
  end.

(** The text up to a [;] or [#] that follows a space or a tab. *)
Fixpoint strip_after (previous : N) (s : jstr) : jstr :=
  match s with
  | [] => []
  | c :: s =>
      if ((c =? 59) || (c =? 35))%N && ((previous =? 32) || (previous =? 9))%N then []
      else c :: strip_after c s
  end.

Definition stripComment (value : jstr) : jstr :=
  match value with
  | [] => []
  | c :: s => c :: strip_after c s
  end.

(** The value without quotes or comment, and whether it was quoted. *)
Definition trimIniValue (raw : jstr) : jstr * bool :=
  match trim raw with
  | [] => ([], false)
  | quote :: rest =>
      let plain := (trim (stripComment (quote :: rest)), false) in
      if ((quote =? 34) || (quote =? 39))%N then
        match indexOf rest quote with
        | Some end_ => (take end_ rest, true)
        | None => plain
        end
      else plain
  end.

Definition parseIniValue (raw : jstr) (template : jsval) : jsval :=
  let '(value, quoted) := trimIniValue raw in
  if quoted then VStr value
  else if startsWith value [91%N] && endsWith value [93%N] then VArr (parseList value false)
  else match template with
       | VUndef | VNull => inferScalar value
       | _ => parseEnvValue value template
       end.

Record ini_state := { i_settings : settings; i_section : list jstr }.

(** One line; [n] is its one-based number. *)
Definition parse_line (n : nat) (st : ini_state) (line : jstr) : res jstr ini_state :=
  let text := trim line in
  if bool_decide (text = []) || is_comment text then Ok st
  else if startsWith text [91%N] then
    let* section := parseSection text (iniError n) in
    Ok {| i_settings := i_settings st; i_section := section |}
  else
    match indexOf text 61 with
    | None => Err (iniError n (js "expected [section] or key = value, got " ++ json_quote text))
    | Some separator =>
        match splitKey (take separator text) with
        | [] => Err (iniError n (js "missing key name in " ++ json_quote text))
        | leaf =>
            let path := i_section st ++ leaf in
            let value := parseIniValue (drop (S separator) text) (declared (join [46%N] path)) in
            Ok {| i_settings := setIniValue (i_settings st) path value;
                  i_section := i_section st |}
        end
    end.

Fixpoint parse_lines (n : nat) (st : ini_state) (lines : list jstr) : res jstr ini_state :=
  match lines with
  | [] => Ok st
  | line :: lines => let* st := parse_line n st line in parse_lines (S n) st lines
  end.

Definition parseIni (content : jstr) : res jstr settings :=
  let* st := parse_lines 1 {| i_settings := []; i_section := [] |} (split_lines content) in
  Ok (i_settings st).

(** ** Which lines are accepted *)

(** A line the reader accepts, whatever came before it. *)
Definition line_ok (line : jstr) : bool :=
  let text := trim line in
  bool_decide (text = []) || is_comment text ||
  if startsWith text [91%N] then
    match indexOf text 93 with
    | None => false
    | Some i => let rest := trim (drop (S i) text) in bool_decide (rest = []) || is_comment rest
    end
  else
    match indexOf text 61 with
    | None => false
    | Some i => negb (bool_decide (splitKey (take i text) = []))
    end.

Lemma parse_line_ok n st line : is_ok (parse_line n st line) = line_ok line.
Proof.
  unfold parse_line, line_ok, parseSection.
  destruct (bool_decide (trim line = []) || is_comment (trim line)); [done|]. simpl.
  destruct (startsWith (trim line) [91%N]).
  - destruct (indexOf (trim line) 93) as [i|]; [|done].
    destruct (bool_decide _), (is_comment _); done.
  - destruct (indexOf (trim line) 61) as [i|]; [|done].
    by destruct (splitKey (take i (trim line))).
Qed.

Lemma parse_line_error n st line e : parse_line n st line = Err e → ∃ m, e = iniError n m.
Proof.
  unfold parse_line, parseSection. intros H.
  repeat (case_match; simplify_eq/=; eauto).
Qed.

Lemma parse_lines_app n st l1 l2 :
  parse_lines n st (l1 ++ l2)
  = let* st := parse_lines n st l1 in parse_lines (n + length l1) st l2.
Proof.
  revert n st; induction l1 as [|x l1 IH]; intros n st; simpl; [by rewrite Nat.add_0_r|].
  destruct (parse_line n st x) as [st'|]; simpl; [|done].
  rewrite IH. by replace (S n + length l1) with (n + S (length l1)) by lia.
Qed.

Lemma parse_lines_ok n st lines : is_ok (parse_lines n st lines) = forallb line_ok lines.
Proof.
  revert n st; induction lines as [|x l IH]; intros n st; simpl; [done|].
  pose proof (parse_line_ok n st x) as Hx. destruct (parse_line n st x); simpl in *;
    rewrite <- Hx; [apply IH | done].
Qed.

Lemma parse_lines_error n st lines e : parse_lines n st lines = Err e →
  ∃ i line m, lines !! i = Some line ∧ line_ok line = false
              ∧ Forall (λ l, line_ok l = true) (take i lines) ∧ e = iniError (n + i) m.
Proof.
  revert n st; induction lines as [|x l IH]; intros n st; simpl; [done|].
  pose proof (parse_line_ok n st x) as Hx.
  destruct (parse_line n st x) as [st'|e'] eqn:E; simpl in *.
  - intros (i & line & m & Hi & Hl & Ht & ->)%IH. exists (S i), line, m. simpl.
    split; [done|]. split; [done|]. split; [by constructor|].
    by replace (n + S i) with (S n + i) by lia.
  - intros [= ->]. destruct (parse_line_error _ _ _ _ E) as [m ->].
    exists 0, x, m. simpl. rewrite Nat.add_0_r. by split_and!.
Qed.
End ini.

Lemma readExisting_readPath v p : readExisting v p = readPath v p.
Proof. revert v; induction p as [|k p IH]; intros v; simpl; [done|]. destruct v; auto. Qed.

Lemma readPath_setIniValue s p v : p ≠ [] →
  readPath (VObj (setIniValue s p v)) p
  = match readPath (VObj s) p with
    | VUndef => v
    | existing => VArr (asList existing ++ asList v)
    end.
Proof.
  intros Hp. unfold setIniValue. rewrite (readExisting_readPath (VObj s) p).
  destruct (readPath (VObj s) p); by apply readPath_writePath.
Qed.

(** Two paths that differ at some segment. *)
Definition diverge (p q : list jstr) : Prop :=
  ∃ c a b p' q', p = c ++ a :: p' ∧ q = c ++ b :: q' ∧ a ≠ b.

Lemma readPath_setIniValue_diverge s p q v :
  diverge p q → Forall (λ k, k ∉ object_prototype) q →
  readPath (VObj (setIniValue s p v)) q = readPath (VObj s) q.
Proof.
  intros (c & a & b & p' & q' & -> & -> & Hab) Hq.
  apply Forall_app in Hq as [_ Hq]. apply Forall_cons in Hq as [Hb _].
  unfold setIniValue.
  destruct (readExisting (VObj s) (c ++ a :: p')); by apply readPath_writePath_diverge.
Qed.

(** ** Rendering quoted entries *)

Definition render_entry (e : list jstr * jstr) : jstr :=
  join [46%N] e.1 ++ 61%N :: 34%N :: e.2 ++ [34%N].

Section render.
Context {CM : CaseMapping}.

(** A path that can be written as a key, and a value that can be quoted. *)
Definition key_path (p : list jstr) : Prop :=
  p ≠ [] ∧ Forall normal_part p ∧ Forall (λ k, k ∉ object_prototype) p ∧
  61%N ∉ join [46%N] p ∧ 10%N ∉ join [46%N] p ∧
  (∀ c s, join [46%N] p = c :: s → c ∉ js "[;#").

Definition plain_entry (e : list jstr * jstr) : Prop :=
  key_path e.1 ∧ 34%N ∉ e.2 ∧ 10%N ∉ e.2.

Lemma join_head p c s : Forall normal_part p → join [46%N] p = c :: s → is_space c = false.
Proof.
  intros Hp E. destruct p as [|k p]; [done|]. apply Forall_cons in Hp as [(Hne & _ & Ht & _) _].
  destruct k as [|d k]; [done|].
  assert (c = d) as -> by (destruct p; simpl in E; congruence).
  destruct (is_space d) eqn:Ed; [|done]. exfalso.
  unfold trim in Ht. simpl in Ht. rewrite Ed in Ht.
  destruct (trim_end_split (trim_start k)) as (w & Hw & _).
  destruct (trim_start_split k) as (w' & Hw' & _).
  apply (f_equal length) in Hw, Hw'. rewrite Ht, length_app in Hw. rewrite length_app in Hw'.
  simpl in Hw. lia.
Qed.

Lemma join_ne p : p ≠ [] → Forall normal_part p → join [46%N] p ≠ [].
Proof.
  intros Hp Hn E. destruct p as [|k p]; [done|]. apply Forall_cons in Hn as [(Hne & _) _].
  destruct p; simpl in E; [done|]. by apply app_nil in E as [-> _].
Qed.

Lemma render_trim e : plain_entry e → trim (render_entry e) = render_entry e.
Proof.
  intros ((Hne & Hn & _) & _). apply trim_fix.
  - intros c t E. unfold render_entry in E.
    destruct (join [46%N] e.1) as [|d s] eqn:Ej; [by apply join_ne in Ej|].
    simpl in E. injection E as -> _. by eapply join_head.
  - intros c t E. unfold render_entry in E.
    assert (join [46%N] e.1 ++ 61%N :: 34%N :: e.2 ++ [34%N]
            = (join [46%N] e.1 ++ 61%N :: 34%N :: e.2) ++ [34%N]) as Ea by by rewrite <- app_assoc.
    rewrite Ea in E. by apply app_inj_tail in E as [_ <-].
Qed.

Lemma trim_quoted v : 34%N ∉ v → trimIniValue (34%N :: v ++ [34%N]) = (v, true).
Proof.
  intros Hv. unfold trimIniValue. rewrite trim_fix.
  - simpl. rewrite indexOf_app by done. by rewrite take_app_length.
  - by intros c t [= <- _].
  - intros c t E. rewrite app_comm_cons in E. by apply app_inj_tail in E as [_ <-].
Qed.

Lemma render_starts e : plain_entry e →
  render_entry e ≠ [] ∧ is_comment (render_entry e) = false
  ∧ startsWith (render_entry e) [91%N] = false.
Proof.
  intros ((Hne & Hn & _ & _ & _ & Hh) & _). unfold render_entry.
  destruct (join [46%N] e.1) as [|c s] eqn:Ej; [by apply join_ne in Ej|].
  specialize (Hh c s eq_refl). unfold is_comment.
  change (js "[;#") with [91; 59; 35]%N in Hh.
  change (js ";") with [59%N]. change (js "#") with [35%N]. cbn [startsWith app].
  rewrite !not_elem_of_cons in Hh. destruct Hh as (? & ? & ? & _). split; [done|].
  split; [apply orb_false_iff; split|]; apply andb_false_iff; left; apply N.eqb_neq; congruence.
Qed.

Lemma parse_line_render declared source n st e : plain_entry e →
  parse_line declared source n st (render_entry e)
  = Ok {| i_settings := setIniValue (i_settings st) (i_section st ++ e.1) (VStr e.2);
          i_section := i_section st |}.
Proof.
  intros Hp. unfold parse_line. rewrite render_trim by done.
  destruct (render_starts e Hp) as (Hr & -> & ->).
  rewrite bool_decide_eq_false_2 by done. simpl.
  destruct Hp as ((Hne & Hn & _ & H61 & _) & Hv & _).
  unfold render_entry at 1. rewrite indexOf_app by done.
  unfold render_entry. rewrite take_app_length, drop_S_app, splitKey_join by done.
  destruct (e.1) eqn:E; [done|]. rewrite <- E. unfold parseIniValue. by rewrite trim_quoted.
Qed.

Lemma chop_all_plain l : Forall (λ s, ∀ t, s ≠ t ++ [13%N]) l → chop_all_but_last l = l.
Proof.
  assert (Hc : ∀ s, (∀ t, s ≠ t ++ [13%N]) → chop_cr s = s).
  { intros s Hs. unfold chop_cr. destruct (rev s) as [|c r] eqn:E; [done|].
    assert (s = rev r ++ [c]) as -> by (rewrite <- (rev_involutive s), E; done).
    repeat (case_match; try done). subst. by destruct (Hs (rev r)). }
  induction 1 as [|s l Hs _ IH]; [done|]. destruct l as [|j l]; [done|].
  change (chop_cr s :: chop_all_but_last (j :: l) = s :: j :: l).
  by rewrite IH, Hc.
Qed.

Lemma render_line e : plain_entry e → 10%N ∉ render_entry e ∧ ∀ t, render_entry e ≠ t ++ [13%N].
Proof.
  intros ((_ & _ & _ & _ & H10 & _) & _ & Hv). unfold render_entry. split.
  - rewrite !not_elem_of_app, !not_elem_of_cons, !not_elem_of_app. set_solver.
  - intros t E.
    assert (join [46%N] e.1 ++ 61%N :: 34%N :: e.2 ++ [34%N]
            = (join [46%N] e.1 ++ 61%N :: 34%N :: e.2) ++ [34%N]) as Ea by by rewrite <- app_assoc.
    rewrite Ea in E. by apply app_inj_tail in E as [_ ?].
Qed.

Lemma parse_lines_render declared source n st es : Forall plain_entry es → i_section st = [] →
  parse_lines declared source n st (map render_entry es)
  = Ok {| i_settings := foldl (λ s e, setIniValue s e.1 (VStr e.2)) (i_settings st) es;
          i_section := [] |}.
Proof.
  intros H. revert n st. induction H as [|e es He _ IH]; intros n [s sec] Hs; simpl in *; subst.
  - done.
  - rewrite parse_line_render by done. simpl. by apply (IH (S n) {| i_settings := _; i_section := [] |}).
Qed.

Lemma parseIni_render declared source es : Forall plain_entry es → es ≠ [] →
  parseIni declared source (join [10%N] (map render_entry es))
  = Ok (foldl (λ s e, setIniValue s e.1 (VStr e.2)) [] es).
Proof.
  intros H Hne. unfold parseIni, split_lines.
  rewrite split_on_join, chop_all_plain.
  - by rewrite parse_lines_render.
  - apply Forall_fmap. eapply Forall_impl; [done|]. intros e He. exact (proj2 (render_line e He)).
  - by destruct es.
  - apply Forall_fmap. eapply Forall_impl; [done|]. intros e He. exact (proj1 (render_line e He)).
Qed.

(** Entries on pairwise diverging paths are all read back. *)
Lemma entries_readback es :
  Forall (λ e : list jstr * jstr, e.1 ≠ [] ∧ Forall (λ k, k ∉ object_prototype) e.1) es →
  ForallOrdPairs (λ e f, diverge e.1 f.1 ∧ diverge f.1 e.1) es →
  ∀ s, Forall (λ e, readPath (VObj s) e.1 = VUndef) es →
  Forall (λ e, readPath (VObj (foldl (λ s e, setIniValue s e.1 (VStr e.2)) s es)) e.1 = VStr e.2) es.
Proof.
  intros Hp Hd s Hs.
  cut (Forall (λ e, readPath (VObj (foldl (λ s e, setIniValue s e.1 (VStr e.2)) s es)) e.1 = VStr e.2) es
       ∧ ∀ q, Forall (λ k, k ∉ object_prototype) q → Forall (λ e : list jstr * jstr, diverge e.1 q) es →
         readPath (VObj (foldl (λ s e, setIniValue s e.1 (VStr e.2)) s es)) q = readPath (VObj s) q);
    [by intros [? _]|].
  revert s Hs. induction Hd as [|e es He Hd IH]; intros s Hs; simpl; [split; [constructor|done]|].
  apply Forall_cons in Hp as [[Hne Hpe] Hp]. apply Forall_cons in Hs as [Hse Hs].
  rewrite List.Forall_forall in He.
  destruct (IH Hp (setIniValue s e.1 (VStr e.2))) as [IH1 IH2].
  { apply Forall_forall. intros f Hf. rewrite Forall_forall in Hs, Hp.
    rewrite readPath_setIniValue_diverge; [by apply Hs | | by apply Hp].
    by apply He, list_elem_of_In. }
  split.
  - constructor; [|done]. rewrite IH2; [|done|].
    + by rewrite readPath_setIniValue, Hse.
    + apply Forall_forall. intros f Hf. by apply He, list_elem_of_In.
  - intros q Hq [Hqe Hqs]%Forall_cons. rewrite IH2 by done.
    by rewrite readPath_setIniValue_diverge.
Qed.
End render.

(** ** Properties *)

(** A malformed file raises and names the line: parsing succeeds exactly when
    every line is blank, a comment, a section header or a key with a value, and
    otherwise the error carries the number of the first line that is none of these. *)
Theorem parseIni_malformed {CM : CaseMapping} declared source content :
  is_ok (parseIni declared source content) = forallb line_ok (split_lines content) ∧
  ∀ e, parseIni declared source content = Err e →
    ∃ i line m, split_lines content !! i = Some line ∧ line_ok line = false
      ∧ Forall (λ l, line_ok l = true) (take i (split_lines content))
      ∧ e = iniError source (S i) m.
Proof.
  unfold parseIni. split.
  - rewrite <- (parse_lines_ok declared source 1 {| i_settings := []; i_section := [] |}).
    by destruct (parse_lines _ _ _ _ _).
  - intros e He. apply rbind_Err in He as [He|(st & _ & He)]; [|done].
    by apply parse_lines_error in He.
Qed.

Lemma parseIni_malformed_witness :
  ∃ i line m, split_lines (js "[server]" ++ [13; 10]%N ++ js "port") !! i = Some line
    ∧ line_ok (CM := ascii_case) line = false
    ∧ js "app.ini: line 2: expected [section] or key = value, got " ++ json_quote (js "port")
      = iniError (Some (js "app.ini")) (S i) m.
Proof.
  destruct (proj2 (parseIni_malformed (CM := ascii_case) (λ _, VUndef) (Some (js "app.ini"))
                     (js "[server]" ++ [13; 10]%N ++ js "port"))
              (js "app.ini: line 2: expected [section] or key = value, got " ++ json_quote (js "port")))
    as (i & line & m & Hi & Hl & _ & He); [vm_compute; reflexivity|].
  exists i, line, m. split; [exact Hi|]. split; [exact Hl | exact He].
Defined.

(** Quoted entries round-trip: rendering entries as [a.b="v"] lines and parsing
    the text succeeds whatever earlier sources declared, and when no entry's path is
    another's or lies below it, every path reads back exactly its text. *)
Theorem parseIni_roundtrip {CM : CaseMapping} declared source es :
  Forall plain_entry es → es ≠ [] →
  ForallOrdPairs (λ e f, diverge e.1 f.1 ∧ diverge f.1 e.1) es →
  ∃ s, parseIni declared source (join [10%N] (map render_entry es)) = Ok s
       ∧ Forall (λ e, readPath (VObj s) e.1 = VStr e.2) es.
Proof.
  intros He Hne Hd. rewrite parseIni_render by done. eexists; split; [done|].
  apply entries_readback; [|done|].
  - eapply Forall_impl; [done|]. intros e ((? & _ & ? & _) & _). done.
  - eapply Forall_impl; [done|]. intros e ((Hp & _ & Hk & _) & _).
    destruct (e.1) as [|k p]; [done|]. apply Forall_cons in Hk as [Hk _].
    by apply readPath_missing.
Qed.

Lemma parseIni_roundtrip_witness :
  ∃ s, parseIni (CM := ascii_case) (λ _, VUndef) None
         (join [10%N] (map render_entry [([js "server"; js "host"], js "[::1] ; x");
                                         ([js "server"; js "port"], js "8080")])) = Ok s
       ∧ Forall (λ e : list jstr * jstr, readPath (VObj s) e.1 = VStr e.2)
           [([js "server"; js "host"], js "[::1] ; x"); ([js "server"; js "port"], js "8080")].
Proof.
  apply (parseIni_roundtrip (CM := ascii_case)).
  - assert (∀ (P : list jstr * jstr) b, b = true → (b = true → plain_entry (CM := ascii_case) P) →
              plain_entry (CM := ascii_case) P) as H by (intros; auto).
    assert (Hn : ∀ p : jstr, bool_decide (p ≠ []) && bool_decide (46%N ∉ p)
                 && bool_decide (trim p = p) && bool_decide (map ascii_lower p = p) = true →
                 normal_part (CM := ascii_case) p).
    { intros p Hp. bool_inv. repeat split; done. }
    repeat constructor; try (apply Hn; vm_compute; reflexivity);
      try (apply (bool_decide_eq_true_1 (_ ∉ _)); vm_compute; reflexivity); try discriminate.
    all: try (intros c s E; vm_compute in E; injection E as <- _;
      apply (bool_decide_eq_true_1 (_ ∉ _)); vm_compute; reflexivity).
  - discriminate.
  - repeat constructor; exists [js "server"]; do 2 eexists; exists [], []; repeat split; discriminate.
Defined.

(** A key's value is appended when the key repeats: storing under a path that
    holds nothing writes the value, and under a path that holds something writes the
    list of the old and the new values; other paths are not touched. *)
Theorem setIniValue_appends s p v q : p ≠ [] →
  readPath (VObj (setIniValue s p v)) p
  = match readPath (VObj s) p with
    | VUndef => v
    | existing => VArr (asList existing ++ asList v)
    end ∧
  (diverge p q → Forall (λ k, k ∉ object_prototype) q →
   readPath (VObj (setIniValue s p v)) q = readPath (VObj s) q).
Proof.
  intros Hp. split; [by apply readPath_setIniValue | by apply readPath_setIniValue_diverge].
Qed.

Lemma setIniValue_appends_witness :
  readPath (VObj (setIniValue [(js "skip", VStr (js "a"))] [js "skip"] (VStr (js "b")))) [js "skip"]
  = VArr [VStr (js "a"); VStr (js "b")].
Proof.
  refine (proj1 (setIniValue_appends [(js "skip", VStr (js "a"))] [js "skip"] (VStr (js "b")) [] _)).
  discriminate.
Defined.

(** The inherited property [constructor] counts as an existing value: a file with the
    single line [constructor = 1] declares a list that starts with a function. *)
Theorem ini_constructor_key :
  parseIni (CM := ascii_case) (λ _, VUndef) None (js "constructor = 1")
  = Ok [(js "constructor", VArr [VFun (js "constructor"); VNum (dbl_of_Z 1)])].
Proof. vm_compute. reflexivity. Qed.
