(* ===== verification/Config.v ===== *)
(** * tools/utilities/config.ts: the configuration loader

    [loadEnv] resolves the configuration directory, merges the sources in order and
    applies the environment.  The file system and the process environment are an
    explicit [host]; the YAML and dotenv parsers, which are packages the source
    imports, are parameters. *)

From S2P Require Export Ini.
Local Open Scope nat_scope.

(** What [Deno.readTextFile] does with a path. *)
Inductive read_result :=
  | ReadText (content : jstr)
  | ReadNotFound
  | ReadFailed.

Record host := {
  h_read : jstr → read_result;
  (** [Deno.statSync(path).isFile], false when it throws *)
  h_is_file : jstr → bool;
  (** [Deno.cwd()], [None] when it throws *)
  h_cwd : option jstr;
  (** the variables this process may read and write *)
  h_env_read : jstr → bool;
  h_env_write : jstr → bool;
}.

(** The process environment. *)
Notation environ := (list (jstr * jstr)).

Inductive config_error :=
  | NoConfiguration (dir : jstr)
  | NotAMapping (file : jstr)
  | MalformedFile (file : jstr)
  | MalformedIni (message : jstr)
  | UnreadableFile (path : jstr).

Inductive file_format := FYaml | FJson.

Definition APPLICATION_FILES : list (jstr * file_format) :=
  [(js "application.yml", FYaml); (js "application.yaml", FYaml); (js "application.json", FJson)].
Definition DEFAULT_INI : jstr := js "default.ini".
Definition RESOURCES_DIR : jstr := js "resources".
Definition APP_NAME_KEY : jstr := js "app.name".
Definition APP_NAME_ENV : jstr := js "APP_NAME".

(** ** Paths *)

Definition is_sep (c : N) : bool := ((c =? 47) || (c =? 92))%N.

(** [s.replace(/[\/\\]+$/, "")]. *)
Fixpoint drop_seps (s : jstr) : jstr :=
  match s with
  | [] => []
  | c :: s' => if is_sep c then drop_seps s' else s
  end.
Definition strip_seps (s : jstr) : jstr := rev (drop_seps (rev s)).

Definition joinPath (directory name : jstr) : jstr :=
  match directory with
  | [] => name
  | _ => strip_seps directory ++ js "/" ++ name
  end.

Definition max_index (a b : option nat) : option nat :=
  match a, b with
  | Some i, Some j => Some (Nat.max i j)
  | Some i, None | None, Some i => Some i
  | None, None => None
  end.

Definition parentPath (directory : jstr) : jstr :=
  let trimmed := strip_seps directory in
  match max_index (lastIndexOf trimmed 47) (lastIndexOf trimmed 92) with
  | None => trimmed
  | Some O => js "/"
  | Some i => take i trimmed
  end.

Definition isAbsolutePath (path : jstr) : bool :=
  startsWith path (js "/") || startsWith path [92%N]
  || match path with
     | c :: 58%N :: s :: _ => (is_lower c || is_upper c) && is_sep s
     | _ => false
     end.

Section config.
Context {CM : CaseMapping}.
Context (yaml_parse : jstr → option jsval) (dotenv_parse : jstr → list (jstr * jstr)).
Context (h : host).

Definition fileExists (path : jstr) : bool := h_is_file h path.

Definition readEnv (env : environ) (name : jstr) : option jstr :=
  if h_env_read h name then own_get name env else None.

Definition trySetEnv (env : environ) (name value : jstr) : environ :=
  if h_env_write h name then obj_set name value env else env.

Definition currentDirectory : jstr := default [] (h_cwd h).

Definition readOptionalFile (path : jstr) : res config_error (option jstr) :=
  match h_read h path with
  | ReadText c => Ok (Some c)
  | ReadNotFound => Ok None
  | ReadFailed => Err (UnreadableFile path)
  end.

Definition iniFileName (appName : option jstr) : option jstr :=
  let name := trim (default [] appName) in
  if bool_decide (name ∈ [[]; js "."; js ".."]) then None
  else if includes_char name 47 || includes_char name 92 then None
  else
    let file := name ++ js ".ini" in
    if bool_decide (toLowerCase file = DEFAULT_INI) then None else Some file.

Definition hasIniFile (env : environ) (directory : jstr) : bool :=
  fileExists (joinPath directory DEFAULT_INI)
  || match iniFileName (readEnv env APP_NAME_ENV) with
     | Some name => fileExists (joinPath directory name)
     | None => false
     end.

Definition hasConfigFiles (env : environ) (directory : jstr) : bool :=
  existsb (λ f, fileExists (joinPath directory f.1)) APPLICATION_FILES || hasIniFile env directory.

(** The loop of [findResourcesDir]; the outer [None] is fuel running out, which
    [findResourcesDir_total] excludes. *)
Fixpoint find_up (fuel : nat) (env : environ) (directory : jstr) : option (option jstr) :=
  match fuel with
  | O => None
  | S fuel =>
      match directory with
      | [] => Some None
      | _ =>
          let candidate := joinPath directory RESOURCES_DIR in
          if hasConfigFiles env candidate then Some (Some candidate)
          else
            let parent := parentPath directory in
            if bool_decide (parent = directory) then Some None
            else find_up fuel env parent
      end
  end.

Definition findResourcesDir (env : environ) (start : jstr) : option jstr :=
  let directory := if isAbsolutePath start then start else joinPath currentDirectory start in
  default None (find_up (S (length directory)) env directory).

Definition resolveConfigDir (env : environ) (prefixPath : jstr) : jstr :=
  let start := if bool_decide (trim prefixPath = []) then currentDirectory else prefixPath in
  if hasConfigFiles env start then start
  else match findResourcesDir env start with
       | Some resources => resources
       | None => joinPath start RESOURCES_DIR
       end.

Definition parseJson (content file : jstr) : res config_error jsval :=
  match json_parse content with Some v => Ok v | None => Err (MalformedFile file) end.

(** [parse(content) ?? {}]. *)
Definition parseYaml (content file : jstr) : res config_error jsval :=
  match yaml_parse content with
  | Some (VUndef | VNull) => Ok (VObj [])
  | Some v => Ok v
  | None => Err (MalformedFile file)
  end.

Fixpoint read_first (configDir : jstr) (files : list (jstr * file_format))
    : res config_error (option settings) :=
  match files with
  | [] => Ok None
  | (name, format) :: files =>
      let* content := readOptionalFile (joinPath configDir name) in
      match content with
      | None => read_first configDir files
      | Some content =>
          let* raw := match format with
                      | FYaml => parseYaml content name
                      | FJson => parseJson content name
                      end in
          match insensitive raw with
          | VObj parsed => Ok (Some parsed)
          | _ => Err (NotAMapping name)
          end
      end
  end.

Definition readApplicationFile (env : environ) (configDir : jstr) : res config_error settings :=
  let* found := read_first configDir APPLICATION_FILES in
  match found with
  | Some parsed => Ok parsed
  | None => if hasIniFile env configDir then Ok [] else Err (NoConfiguration configDir)
  end.

Definition mergeIniFile (path source : jstr) (s : settings) : res config_error settings :=
  let* content := readOptionalFile path in
  match content with
  | None => Ok s
  | Some content =>
      match parseIni (λ key, readPath (VObj s) (splitKey key)) (Some source) content with
      | Ok parsed => Ok (mergeSettings s parsed)
      | Err message => Err (MalformedIni message)
      end
  end.

Definition applicationIniName (env : environ) (s : settings) : option jstr :=
  match iniFileName (readEnv env APP_NAME_ENV) with
  | Some name => Some name
  | None =>
      match readPath (VObj s) (splitKey APP_NAME_KEY) with
      | VStr declared => iniFileName (Some declared)
      | _ => iniFileName None
      end
  end.

Definition loadIniFiles (env : environ) (configDir : jstr) (s : settings)
    : res config_error settings :=
  let* s := mergeIniFile (joinPath configDir DEFAULT_INI) DEFAULT_INI s in
  match applicationIniName env s with
  | None => Ok s
  | Some name => mergeIniFile (joinPath configDir name) name s
  end.

Definition env_files (s : settings) : list jstr :=
  match readPath (VObj s) [js "env"; js "files"] with
  | VArr declared => map js_String declared
  | VStr declared => splitCommaSeparated declared
  | _ => []
  end.

(** One variable of a [.env] file: into the overlay, and into the process. *)
Definition load_variable (export : bool) (st : environ * environ) (kv : jstr * jstr)
    : environ * environ :=
  (obj_set kv.1 kv.2 st.1, if export then trySetEnv st.2 kv.1 kv.2 else st.2).

Definition load_env_file (configDir : jstr) (export : bool) (st : environ * environ) (file : jstr)
    : res config_error (environ * environ) :=
  let name := trim file in
  if bool_decide (name = []) then Ok st
  else
    let* content := readOptionalFile (if isAbsolutePath name then name else joinPath configDir name) in
    match content with
    | None => Ok st
    | Some content => Ok (foldl (load_variable export) st (dotenv_parse content))
    end.

(** The overlay and the process environment afterwards. *)
Definition loadEnvFiles (env : environ) (configDir : jstr) (s : settings) (export : bool)
    : res config_error (environ * environ) :=
  foldM_res (load_env_file configDir export) ([], env) (env_files s).

Definition env_value (env overlay : environ) (path : list jstr) : option jstr :=
  let name := envNameFromPath path in
  match own_get name overlay with
  | Some raw => Some raw
  | None => readEnv env name
  end.

Definition override_leaf (env overlay : environ) (s : settings) (path : list jstr) (value : jsval)
    : settings :=
  match env_value env overlay path with
  | None => s
  | Some raw => writePath s path (parseEnvValue raw value)
  end.

Definition applyEnvOverrides (env overlay : environ) (s : settings) : settings :=
  forEachLeaf (override_leaf env overlay) s s.

Record load_options := { environmentOverrides : bool; exportEnvFiles : bool }.

(** [loadEnv]: the new current configuration and the process environment. *)
Definition loadEnv (env : environ) (prefixPath : jstr) (o : load_options)
    : res config_error (settings * environ) :=
  let configDir := resolveConfigDir env prefixPath in
  let* s := readApplicationFile env configDir in
  let* s := loadIniFiles env configDir s in
  let* st := loadEnvFiles env configDir s (exportEnvFiles o) in
  let '(overlay, env) := st in
  Ok (if environmentOverrides o then applyEnvOverrides env overlay s else s, env).
End config.

(** ** The accessors of [createConfig] over its settings tree *)

Section accessors.
Context {CM : CaseMapping}.

Definition config_get (s : settings) (key : jstr) : jsval := readPath (VObj s) (splitKey key).

Definition getString (s : settings) (key fallback : jstr) : jstr :=
  match config_get s key with
  | VStr v => v
  | VNum _ | VBool _ => js_String (config_get s key)
  | _ => fallback
  end.

Definition getNumber (s : settings) (key : jstr) (fallback : dbl) : dbl :=
  match config_get s key with
  | VNum d => d
  | VBool b => if b then dbl_of_Z 1 else S754_zero false
  | VStr v =>
      let parsed := string_to_number (trim v) in
      if negb (bool_decide (trim v = [])) && isFinite parsed then parsed else fallback
  | _ => fallback
  end.

(** [value !== 0]: both zeros are false, NaN is true. *)
Definition num_nonzero (d : dbl) : bool := match d with S754_zero _ => false | _ => true end.

Definition getBoolean (s : settings) (key : jstr) (fallback : bool) : bool :=
  match config_get s key with
  | VBool b => b
  | VNum d => num_nonzero d
  | VStr v => default fallback (parseBoolean v)
  | _ => fallback
  end.

Definition getStringList (s : settings) (key : jstr) (fallback : list jstr) : list jstr :=
  match config_get s key with
  | VArr l => map js_String l
  | VStr v => splitCommaSeparated v
  | _ => fallback
  end.

Definition config_has (s : settings) (key : jstr) : bool :=
  match config_get s key with VUndef => false | _ => true end.

Definition config_set (s : settings) (key : jstr) (value : jsval) : settings :=
  writePath s (splitKey key) value.
End accessors.

(** ** Walking up the directory tree *)

Lemma drop_seps_suffix s : drop_seps s `suffix_of` s.
Proof.
  induction s as [|c s IH]; simpl; [done|]. destruct (is_sep c); [by apply suffix_cons_r | done].
Qed.

Lemma drop_seps_head s c t : drop_seps s = c :: t → is_sep c = false.
Proof.
  induction s as [|x s IH]; simpl; [done|]. destruct (is_sep x) eqn:E; [done|]. by intros [= -> ->].
Qed.

Lemma strip_seps_length s : length (strip_seps s) ≤ length s.
Proof.
  unfold strip_seps. rewrite length_rev.
  destruct (drop_seps_suffix (rev s)) as [w Hw]. apply (f_equal length) in Hw.
  rewrite length_rev, length_app in Hw. lia.
Qed.

Lemma strip_seps_last s t c : strip_seps s = t ++ [c] → is_sep c = false.
Proof.
  unfold strip_seps. intros E. apply (f_equal (@rev N)) in E.
  rewrite rev_involutive, rev_app_distr in E. by apply drop_seps_head in E.
Qed.

Lemma indexOf_lt s c i : indexOf s c = Some i → i < length s.
Proof.
  intros [H _]%indexOf_Some. apply (f_equal length) in H.
  rewrite length_app in H. simpl in H. rewrite length_take in H. lia.
Qed.

Lemma lastIndexOf_Some s c i : lastIndexOf s c = Some i → i < length s ∧ c ∈ s.
Proof.
  unfold lastIndexOf. destruct (indexOf (rev s) c) as [j|] eqn:E; [|done]. intros [= <-].
  pose proof (indexOf_lt _ _ _ E) as Hj. rewrite length_rev in Hj. split; [lia|].
  apply indexOf_Some in E as [E _]. apply list_elem_of_In, in_rev.
  rewrite E. apply list_elem_of_In. set_solver.
Qed.

Lemma parentPath_shorter d : parentPath d ≠ d → length (parentPath d) < length d.
Proof.
  unfold parentPath. pose proof (strip_seps_length d) as Hl. intros Hne.
  assert (Hm : ∀ i, max_index (lastIndexOf (strip_seps d) 47) (lastIndexOf (strip_seps d) 92) = Some i →
               i < length (strip_seps d) ∧ ∃ c, is_sep c = true ∧ c ∈ strip_seps d).
  { intros i. destruct (lastIndexOf (strip_seps d) 47) as [a|] eqn:Ea;
      destruct (lastIndexOf (strip_seps d) 92) as [b|] eqn:Eb; intros [= <-].
    all: try (apply lastIndexOf_Some in Ea as [??]); try (apply lastIndexOf_Some in Eb as [??]).
    all: split; [lia | eexists; split; [|eassumption]; done]. }
  destruct (max_index _ _) as [[|i]|] eqn:Em.
  - destruct (Hm 0 eq_refl) as (Hp & c & Hc & Hin). simpl.
    destruct (strip_seps d) as [|x [|y t]] eqn:Es; simpl in *; [lia| |lia].
    apply list_elem_of_singleton in Hin as ->.
    assert (is_sep x = false) by by eapply (strip_seps_last d []). congruence.
  - destruct (Hm (S i) eq_refl) as [Hp _]. rewrite length_take. lia.
  - destruct (decide (length (strip_seps d) = length d)) as [E|]; [|lia].
    exfalso. apply Hne. unfold strip_seps in *.
    destruct (drop_seps_suffix (rev d)) as [w Hw].
    assert (w = []) as ->.
    { apply (f_equal length) in Hw. rewrite length_app in Hw. rewrite length_rev in *.
      destruct w; [done | simpl in *; lia]. }
    simpl in Hw. by rewrite <- Hw, rev_involutive.
Qed.

Section walk.
Context {CM : CaseMapping} (h : host) (env : environ).

Lemma find_up_total fuel d : length d < fuel → find_up h fuel env d ≠ None.
Proof.
  revert d; induction fuel as [|fuel IH]; intros d Hd; [lia|]. simpl.
  destruct d as [|c d]; [done|].
  destruct (hasConfigFiles h env _); [done|]. case_bool_decide as Hp; [done|].
  apply IH. apply parentPath_shorter in Hp. lia.
Qed.

(** The directories the walk looks at. *)
Inductive ancestor : jstr → jstr → Prop :=
  | anc_self d : d ≠ [] → ancestor d d
  | anc_up d a : d ≠ [] → parentPath d ≠ d → ancestor (parentPath d) a → ancestor d a.

Lemma find_up_spec fuel d r : find_up h fuel env d = Some r →
  match r with
  | Some c => ∃ a, ancestor d a ∧ c = joinPath a RESOURCES_DIR ∧ hasConfigFiles h env c = true
  | None => ∀ a, ancestor d a → hasConfigFiles h env (joinPath a RESOURCES_DIR) = false
  end.
Proof.
  revert d; induction fuel as [|fuel IH]; intros d; [done|]. simpl.
  destruct d as [|c0 d0] eqn:Ed; [intros [= <-]; by inversion 1|]. rewrite <- Ed.
  assert (Hd : d ≠ []) by (by rewrite Ed). clear c0 d0 Ed.
  destruct (hasConfigFiles h env _) eqn:Eh.
  - intros [= <-]. exists d. split; [by constructor | done].
  - case_bool_decide as Hp.
    + intros [= <-] a Ha. inversion Ha; subst; done.
    + intros Hr%IH. destruct r as [c|].
      * destruct Hr as (a & ? & ? & ?). exists a. split; [by apply anc_up | done].
      * intros a Ha. inversion Ha; subst; auto.
Qed.
End walk.

(** ** Environment overrides *)

Lemma own_read_obj_cons o k q : own_read (VObj o) (k :: q) = own_get k o ≫= λ x, own_read x q.
Proof. done. Qed.

Lemma own_read_writePath s p v : p ≠ [] → own_read (VObj (writePath s p v)) p = Some v.
Proof.
  revert s; induction p as [|k p IH]; intros s Hp; [done|].
  destruct p as [|k' p]; [simpl; by rewrite own_get_set_eq|].
  rewrite writePath_cons, own_read_obj_cons, own_get_set_eq. by apply IH.
Qed.

Lemma own_read_writePath_diverge s p q v w :
  own_read (VObj s) p = Some w → diverge p q →
  own_read (VObj (writePath s p v)) q = own_read (VObj s) q.
Proof.
  intros Hr (c & a & b & p' & q' & -> & -> & Hab). revert s Hr.
  induction c as [|k c IH]; intros s Hr; cbn [app] in *.
  - destruct p' as [|k' p']; [cbn [writePath]|rewrite writePath_cons]; rewrite !own_read_obj_cons;
      by rewrite own_get_set_ne.
  - assert (∃ x y, c ++ a :: p' = x :: y) as (x & y & E) by (destruct c; simpl; eauto).
    rewrite own_read_obj_cons in Hr. apply bind_Some in Hr as (u & Hu & Hr).
    rewrite E, writePath_cons, !own_read_obj_cons, own_get_set_eq, Hu, <- E. cbn [mbind option_bind].
    unfold js_get. rewrite Hu. destruct u as [| | | | | |o|]; try (by rewrite E in Hr). by apply IH.
Qed.

Lemma leaf_paths_diverge v p q x y :
  own_read v p = Some x → own_read v q = Some y →
  isSettings x = false → isSettings y = false → p ≠ q → diverge p q.
Proof.
  revert v q. induction p as [|a p IH]; intros v [|b q] Hp Hq Hx Hy Hne; simpl in *.
  - done.
  - injection Hp as ->. by destruct x.
  - injection Hq as ->. by destruct y.
  - destruct v as [| | | | | |o|]; try done.
    apply bind_Some in Hp as (u & Hu & Hp). apply bind_Some in Hq as (u' & Hu' & Hq).
    destruct (decide (a = b)) as [->|Hab].
    + assert (u' = u) as -> by congruence.
      destruct (IH u q) as (c & a' & b' & p' & q' & -> & -> & ?); [done..|congruence|].
      by exists (b :: c), a', b', p', q'.
    + by exists [], a, b, p, q.
Qed.

Lemma diverge_sym p q : diverge p q → diverge q p.
Proof. intros (c & a & b & p' & q' & -> & -> & ?). exists c, b, a, q', p'. auto. Qed.

Section overrides.
Context {CM : CaseMapping} (h : host) (env overlay : environ).

Definition overridden (path : list jstr) (w : jsval) : jsval :=
  match env_value h env overlay path with
  | None => w
  | Some raw => parseEnvValue raw w
  end.

(** Writing over leaves one after the other, each on a tree where it still is. *)
Lemma override_fold l s :
  (∀ p w, (p, w) ∈ l → p ≠ [] ∧ own_read (VObj s) p = Some w) →
  NoDup (map fst l) →
  (∀ p w q w', (p, w) ∈ l → (q, w') ∈ l → p ≠ q → diverge p q) →
  ∀ p w, own_read (VObj s) p = Some w →
    (∀ q w', (q, w') ∈ l → p = q ∨ diverge q p) →
    own_read (VObj (foldl (λ s e, override_leaf h env overlay s e.1 e.2) s l)) p
    = Some (if bool_decide (p ∈ map fst l) then overridden p w else w).
Proof.
  revert s; induction l as [|[q u] l IH]; intros s Hl Hnd Hdv p w Hp Hpd; [done|].
  cbn [foldl fst snd map] in *. inversion Hnd as [|?? Hq Hnd']; subst.
  destruct (Hl q u) as [Hqne Hqu]; [by constructor|].
  assert (Hstep : ∀ r x, own_read (VObj s) r = Some x → diverge q r →
            own_read (VObj (override_leaf h env overlay s q u)) r = Some x).
  { intros r x Hr Hd. unfold override_leaf. destruct (env_value _ _ _ q); [|done].
    by erewrite own_read_writePath_diverge. }
  assert (Hself : own_read (VObj (override_leaf h env overlay s q u)) q = Some (overridden q u)).
  { unfold override_leaf, overridden. destruct (env_value _ _ _ q); [|done].
    by apply own_read_writePath. }
  assert (Hrest : ∀ r x, (r, x) ∈ l → q ≠ r).
  { intros r x Hr ->. apply Hq. apply list_elem_of_fmap. by exists (r, x). }
  assert (Hl' : ∀ r x, (r, x) ∈ l →
            r ≠ [] ∧ own_read (VObj (override_leaf h env overlay s q u)) r = Some x).
  { intros r x Hr. destruct (Hl r x) as [??]; [by constructor|]. split; [done|].
    apply Hstep; [done|]. eapply (Hdv q u r x); [by constructor | by constructor |]. eauto. }
  destruct (Hpd q u) as [->|Hd]; [by constructor| |].
  - assert (w = u) as -> by congruence.
    rewrite (IH _ Hl' Hnd') with (w := overridden q u); [| |done|].
    + rewrite bool_decide_eq_false_2 by done. rewrite bool_decide_eq_true_2; [done|]. by constructor.
    + intros ???? Ha Hb. eapply Hdv; by constructor.
    + intros r x Hr. right. apply diverge_sym. eapply (Hdv q u r x); [by constructor|by constructor|]. eauto.
  - rewrite (IH _ Hl' Hnd') with (w := w); [| |by apply Hstep|].
    + f_equal. repeat case_bool_decide; try done; set_unfold; [naive_solver|].
      destruct H0 as [->|?]; [|done]. destruct Hd as (c & a & b & p' & q' & E1 & E2 & ?).
      rewrite E1 in E2. by simplify_list_eq.
    + intros ???? Ha Hb. eapply Hdv; by constructor.
    + intros r x Hr. apply (Hpd r x). by constructor.
Qed.
End overrides.

(** ** Well-formedness of the merged tree *)

Lemma wf_writePath s p v : wf_val (VObj s) → wf_val v → wf_val (VObj (writePath s p v)).
Proof.
  revert s; induction p as [|k p IH]; intros s Hs Hv; [done|].
  destruct p as [|k' p]; [by apply wf_set|]. rewrite writePath_cons. apply wf_set; [done|].
  apply IH; [|done]. pose proof (wf_js_get s k Hs) as Hk.
  destruct (js_get s k); try (apply wf_empty); done.
Qed.

Lemma wf_mergeSettings t s : wf_val (VObj t) → wf_val (VObj s) → wf_val (VObj (mergeSettings t s)).
Proof.
  intros Ht Hs. rewrite <- merge_value_obj. revert t Ht Hs. generalize (VObj s) as v. clear s.
  induction v as [| | | | | |o IH|] using jsval_ind'; intros t Ht Hv; try done.
  rewrite merge_value_obj. apply wf_val_obj in Hv as [_ Hv]. unfold mergeSettings.
  revert t Ht. induction IH as [|[k v] o Hk _ IHo]; intros t Ht; [done|].
  apply Forall_cons in Hv as [Hkv Hv]. simpl in *. apply IHo; [done|].
  unfold merge_entry. simpl. pose proof (wf_js_get t k Ht) as Hj.
  destruct (js_get t k), v; try (by apply wf_set).
  apply wf_set; [done|]. by apply Hk.
Qed.

Section wf_parsers.
Context {CM : CaseMapping}.

Lemma wf_inferScalar raw : wf_val (inferScalar raw).
Proof. unfold inferScalar. repeat case_match; done. Qed.

Lemma wf_parseList value b : Forall wf_val (parseList value b).
Proof.
  assert (Hi : ∀ l, Forall wf_val (map inferScalar l))
    by (intros; apply Forall_fmap, Forall_true; intros; apply wf_inferScalar).
  assert (Hs : ∀ l, Forall wf_val (map VStr l)) by (intros; apply Forall_fmap, Forall_true; done).
  unfold parseList.
  destruct (startsWith value [91%N]); simpl; [|by repeat case_match].
  destruct (json_parse value) as [v|] eqn:E; [|by repeat case_match].
  apply json_parse_wf in E. destruct v as [| | | | |l|o|]; try (by repeat case_match).
  apply wf_val_arr in E. destruct b; [|done]. apply Forall_fmap, Forall_true. done.
Qed.

Lemma wf_parseEnvValue raw t : wf_val (parseEnvValue raw t).
Proof.
  unfold parseEnvValue. destruct t; try done; try (by case_match).
  apply wf_val_arr, wf_parseList.
Qed.

Lemma wf_parseIniValue raw t : wf_val (parseIniValue raw t).
Proof.
  unfold parseIniValue. destruct (trimIniValue raw) as [v q]. destruct q; [done|].
  case_match; [apply wf_val_arr, wf_parseList|].
  destruct t; first [apply wf_inferScalar | apply wf_parseEnvValue].
Qed.

Lemma wf_readPath v p : wf_val v → wf_val (readPath v p).
Proof.
  revert v; induction p as [|k p IH]; intros v Hv; [done|]. simpl.
  destruct v; try done. apply IH. by apply wf_js_get.
Qed.

Lemma wf_setIniValue s p v : wf_val (VObj s) → wf_val v → wf_val (VObj (setIniValue s p v)).
Proof.
  intros Hs Hv. unfold setIniValue. rewrite (readExisting_readPath (VObj s) p).
  assert (Hl : ∀ x, wf_val x → Forall wf_val (asList x)).
  { intros x Hx. destruct x; cbn [asList]; try (by apply Forall_singleton). by apply wf_val_arr. }
  pose proof (wf_readPath _ p Hs) as Hr.
  destruct (readPath (VObj s) p); (apply wf_writePath; [done|]); try done;
    apply wf_val_arr, Forall_app; split; by apply Hl.
Qed.

Lemma wf_parse_lines declared source n st lines st' : wf_val (VObj (i_settings st)) →
  parse_lines declared source n st lines = Ok st' → wf_val (VObj (i_settings st')).
Proof.
  revert n st; induction lines as [|x l IH]; intros n st Hw; simpl; [by intros [= <-]|].
  intros (st1 & H1 & H2)%rbind_Ok. eapply IH, H2. clear IH H2. unfold parse_line in H1.
  case_match; [by simplify_eq|].
  case_match; [apply rbind_Ok in H1 as (sec & _ & [= <-]); done|].
  repeat (case_match; simplify_eq). apply wf_setIniValue; [done | apply wf_parseIniValue].
Qed.

Lemma wf_parseIni declared source content s : parseIni declared source content = Ok s → wf_val (VObj s).
Proof.
  unfold parseIni. intros (st & Hst & [= <-])%rbind_Ok.
  eapply wf_parse_lines; [|done]. apply wf_empty.
Qed.
End wf_parsers.

(** Two leaves of a tree are visited under different paths. *)
Lemma leaves_NoDup v p : wf_val v → NoDup (map fst (leaves p v)).
Proof.
  revert p. induction v as [| | | | | |o IH|] using jsval_ind'; intros p Hwf; try constructor.
  rewrite leaves_obj. apply wf_val_obj in Hwf as [Hnd Hwf].
  induction IH as [|[k x] o Hx _ IHo]; [constructor|].
  inversion Hnd as [|?? Hk Hnd']; subst. apply Forall_cons in Hwf as [Hwx Hwo].
  cbn [mbind list_bind fst snd] in *. rewrite map_app. apply NoDup_app. split_and!.
  - destruct (isSettings x); [by apply Hx | apply NoDup_singleton].
  - intros q Hq Hq'.
    assert (Hhd : ∃ q0, q = p ++ k :: q0).
    { destruct (isSettings x) eqn:Es.
      - apply list_elem_of_fmap in Hq as ([q1 w] & -> & Hin).
        destruct (leaves_sound _ _ _ _ Hwx Hin) as (q' & -> & _).
        exists q'. by rewrite <- app_assoc.
      - simpl in Hq. apply list_elem_of_singleton in Hq as ->. by exists []. }
    destruct Hhd as [q0 ->].
    apply list_elem_of_fmap in Hq' as ([q1 w] & E & Hin). simpl in E. subst.
    rewrite <- leaves_obj in Hin.
    assert (Hwf : wf_val (VObj o)) by by apply wf_val_obj.
    destruct (leaves_sound _ _ _ _ Hwf Hin) as (q' & Eq & _ & Hr & _).
    apply app_inv_head in Eq as <-. simpl in Hr. apply bind_Some in Hr as (y & Hy & _).
    apply Hk. apply own_get_elem in Hy. apply list_elem_of_fmap. by exists (k, y).
  - by apply IHo.
Qed.

Section pipeline.
Context {CM : CaseMapping}.
Context (yaml_parse : jstr → option jsval) (dotenv_parse : jstr → list (jstr * jstr)).
Context (h : host).

Lemma read_first_wf dir files s : read_first yaml_parse h dir files = Ok (Some s) → wf_val (VObj s).
Proof.
  induction files as [|[name f] files IH]; simpl; [done|].
  intros (c & _ & H)%rbind_Ok. destruct c as [c|]; [|by apply IH].
  apply rbind_Ok in H as (raw & _ & H).
  pose proof (proj2 (insensitive_lower raw)) as Hw.
  destruct (insensitive raw); by simplify_eq.
Qed.

Lemma readApplicationFile_wf env dir s :
  readApplicationFile yaml_parse h env dir = Ok s → wf_val (VObj s).
Proof.
  unfold readApplicationFile. intros ([p|] & Hp & H)%rbind_Ok.
  - injection H as <-. by eapply read_first_wf.
  - case_match; simplify_eq. apply wf_empty.
Qed.

Lemma mergeIniFile_wf path src s s' : wf_val (VObj s) → mergeIniFile h path src s = Ok s' → wf_val (VObj s').
Proof.
  intros Hs. unfold mergeIniFile. intros ([c|] & _ & H)%rbind_Ok; [|by simplify_eq].
  destruct (parseIni _ _ c) as [p|] eqn:Ep; [|done]. injection H as <-.
  apply wf_mergeSettings; [done|]. by eapply wf_parseIni.
Qed.

Lemma loadIniFiles_wf env dir s s' : wf_val (VObj s) → loadIniFiles h env dir s = Ok s' → wf_val (VObj s').
Proof.
  intros Hs. unfold loadIniFiles. intros (s1 & H1 & H)%rbind_Ok.
  apply mergeIniFile_wf in H1; [|done]. case_match; [by eapply mergeIniFile_wf | by simplify_eq].
Qed.

Lemma applyEnvOverrides_read env overlay s q w : wf_val (VObj s) →
  own_read (VObj s) q = Some w → isSettings w = false → q ≠ [] →
  own_read (VObj (applyEnvOverrides h env overlay s)) q = Some (overridden h env overlay q w).
Proof.
  intros Hwf Hq Hw Hne. unfold applyEnvOverrides, forEachLeaf.
  assert (Hin : (q, w) ∈ leaves [] (VObj s)) by by apply (leaves_complete (VObj s) []).
  assert (Hs : ∀ p x, (p, x) ∈ leaves [] (VObj s) →
            p ≠ [] ∧ own_read (VObj s) p = Some x ∧ isSettings x = false).
  { intros p x Hp. destruct (leaves_sound _ _ _ _ Hwf Hp) as (? & -> & ? & ? & ?). done. }
  rewrite (override_fold h env overlay) with (w := w); [| | | | done |].
  - rewrite bool_decide_eq_true_2; [done|]. apply list_elem_of_fmap. by exists (q, w).
  - intros p x Hp. apply Hs in Hp. naive_solver.
  - by apply leaves_NoDup.
  - intros p x q' x' Hp Hq' Hd. apply Hs in Hp as (_ & Hp & Hx), Hq' as (_ & Hq' & Hx').
    exact (leaf_paths_diverge _ _ _ _ _ Hp Hq' Hx Hx' Hd).
  - intros p x Hp. apply Hs in Hp as (_ & Hp & Hx).
    destruct (decide (q = p)) as [|Hd]; [by left|]. right.
    apply (leaf_paths_diverge (VObj s) p q x w); done.
Qed.
End pipeline.

(** ** Properties *)

(** The walk for a [resources] directory terminates and is right: it never runs
    out of the fuel its start gives it; when it returns a directory, that is the
    [resources] child of an ancestor and holds configuration; when it returns nothing,
    no ancestor has one. *)
Theorem findResourcesDir_correct {CM : CaseMapping} h env start :
  let d := if isAbsolutePath start then start else joinPath (currentDirectory h) start in
  find_up h (S (length d)) env d = Some (findResourcesDir h env start) ∧
  match findResourcesDir h env start with
  | Some c => ∃ a, ancestor d a ∧ c = joinPath a RESOURCES_DIR ∧ hasConfigFiles h env c = true
  | None => ∀ a, ancestor d a → hasConfigFiles h env (joinPath a RESOURCES_DIR) = false
  end.
Proof.
  intros d. unfold findResourcesDir. fold d.
  destruct (find_up h (S (length d)) env d) as [r|] eqn:E.
  - simpl. split; [done|]. by eapply find_up_spec.
  - exfalso. eapply find_up_total, E. lia.
Qed.

(** C36. The environment wins over every file and only refines what the files
    declare: after a successful [loadEnv], every leaf of the merged files reads as the
    value of its environment variable typed by that leaf when the variable is set (a
    variable of the [.env] files before the process), and unchanged otherwise or when
    overrides are off. *)
Theorem loadEnv_precedence {CM : CaseMapping} yaml_parse dotenv_parse h env prefix o s env' :
  loadEnv yaml_parse dotenv_parse h env prefix o = Ok (s, env') →
  ∃ app files overlay,
    readApplicationFile yaml_parse h env (resolveConfigDir h env prefix) = Ok app ∧
    loadIniFiles h env (resolveConfigDir h env prefix) app = Ok files ∧
    loadEnvFiles dotenv_parse h env (resolveConfigDir h env prefix) files (exportEnvFiles o)
      = Ok (overlay, env') ∧
    ∀ q w, (q, w) ∈ leaves [] (VObj files) →
      readPath (VObj s) q
      = match (if environmentOverrides o then env_value h env' overlay q else None) with
        | Some raw => parseEnvValue raw w
        | None => w
        end.
Proof.
  unfold loadEnv. intros (app & Happ & H)%rbind_Ok.
  apply rbind_Ok in H as (files & Hf & H). apply rbind_Ok in H as ([overlay env1] & He & H).
  injection H as <- <-. exists app, files, overlay. split_and!; [done..|].
  assert (Hwf : wf_val (VObj files)).
  { eapply loadIniFiles_wf, Hf. by eapply readApplicationFile_wf. }
  intros q w Hin. destruct (leaves_sound _ _ _ _ Hwf Hin) as (q' & -> & Hne & Hr & Hw). simpl.
  apply own_read_readPath. destruct (environmentOverrides o); [|done].
  by rewrite (applyEnvOverrides_read h env1 overlay files q' w).
Qed.

(** A file system with one JSON file and one INI overlay. *)
Definition demo_host : host :=
  {| h_read p :=
       if bool_decide (p = js "/app/application.json")
       then ReadText (js "{ " ++ json_quote (js "Port") ++ js ": 80 }")
       else if bool_decide (p = js "/app/default.ini") then ReadText (js "port = 8080")
       else ReadNotFound;
     h_is_file p := bool_decide (p = js "/app/application.json");
     h_cwd := Some (js "/app"); h_env_read _ := true; h_env_write _ := true |}.

Lemma loadEnv_precedence_witness :
  ∃ s, loadEnv (CM := ascii_case) (λ _, None) (λ _, []) demo_host [(js "PORT", js "9090")] []
         {| environmentOverrides := true; exportEnvFiles := true |}
       = Ok (s, [(js "PORT", js "9090")])
       ∧ readPath (VObj s) [js "port"] = VNum (dbl_of_Z 9090).
Proof.
  eexists. split; [vm_compute; reflexivity|].
  destruct (loadEnv_precedence (CM := ascii_case) (λ _, None) (λ _, []) demo_host
              [(js "PORT", js "9090")] [] {| environmentOverrides := true; exportEnvFiles := true |}
              [(js "port", VNum (dbl_of_Z 9090))] [(js "PORT", js "9090")])
    as (app & files & overlay & Happ & Hf & He & Hq); [vm_compute; reflexivity|].
  vm_compute in Happ. injection Happ as <-. vm_compute in Hf. injection Hf as <-.
  vm_compute in He. injection He as <-.
  refine (eq_trans (Hq [js "port"] (VNum (dbl_of_Z 8080)) _) _).
  - vm_compute. constructor.
  - vm_compute. reflexivity.
Defined.

(** The INI overlays apply in order: the leaves of [<app.name>.ini] win over
    everything read before, the application name being looked up after [default.ini],
    and the leaves of [default.ini] win over the application file. *)
Theorem loadIniFiles_order {CM : CaseMapping} h env dir a cd d name cn n :
  h_read h (joinPath dir DEFAULT_INI) = ReadText cd →
  parseIni (λ key, readPath (VObj a) (splitKey key)) (Some DEFAULT_INI) cd = Ok d →
  applicationIniName h env (mergeSettings a d) = Some name →
  h_read h (joinPath dir name) = ReadText cn →
  parseIni (λ key, readPath (VObj (mergeSettings a d)) (splitKey key)) (Some name) cn = Ok n →
  ∃ s, loadIniFiles h env dir a = Ok s ∧
    (∀ q w, (q, w) ∈ leaves [] (VObj n) → readPath (VObj s) q = w) ∧
    (∀ q w, (q, w) ∈ leaves [] (VObj d) →
       (∀ k, 0 < k → own_read (VObj n) (take k q) = None) → readPath (VObj s) q = w).
Proof.
  intros Hd Hpd Hname Hn Hpn. exists (mergeSettings (mergeSettings a d) n).
  pose proof (wf_parseIni _ _ _ _ Hpd) as Hwd. pose proof (wf_parseIni _ _ _ _ Hpn) as Hwn.
  split_and!.
  - unfold loadIniFiles, mergeIniFile, readOptionalFile. rewrite Hd. simpl. rewrite Hpd. simpl.
    rewrite Hname, Hn. simpl. by rewrite Hpn.
  - intros q w Hin. destruct (leaves_sound _ _ _ _ Hwn Hin) as (q' & -> & ? & ? & ?).
    by apply mergeSettings_own.
  - intros q w Hin Hq. destruct (leaves_sound _ _ _ _ Hwd Hin) as (q' & -> & ? & ? & ?).
    simpl in *. rewrite mergeSettings_frame; [by apply mergeSettings_own | done | done |].
    intros k x Hk Hx. rewrite Hq in Hx; done.
Qed.

Lemma loadIniFiles_order_witness :
  ∃ s, loadIniFiles (CM := ascii_case)
         {| h_read p := if bool_decide (p = js "/c/default.ini")
                        then ReadText (js "app.name = shop" ++ [10%N] ++ js "port = 1")
                        else if bool_decide (p = js "/c/shop.ini") then ReadText (js "port = 2")
                        else ReadNotFound;
            h_is_file _ := false; h_cwd := None; h_env_read _ := false; h_env_write _ := false |}
         [] (js "/c") [] = Ok s ∧ readPath (VObj s) [js "port"] = VNum (dbl_of_Z 2).
Proof.
  destruct (loadIniFiles_order (CM := ascii_case)
         {| h_read p := if bool_decide (p = js "/c/default.ini")
                        then ReadText (js "app.name = shop" ++ [10%N] ++ js "port = 1")
                        else if bool_decide (p = js "/c/shop.ini") then ReadText (js "port = 2")
                        else ReadNotFound;
            h_is_file _ := false; h_cwd := None; h_env_read _ := false; h_env_write _ := false |}
         [] (js "/c") [] (js "app.name = shop" ++ [10%N] ++ js "port = 1")
         [(js "app", VObj [(js "name", VStr (js "shop"))]); (js "port", VNum (dbl_of_Z 1))]
         (js "shop.ini") (js "port = 2") [(js "port", VNum (dbl_of_Z 2))])
    as (s & Hs & Hn & _); try (vm_compute; reflexivity).
  exists s. split; [exact Hs|]. apply Hn. constructor.
Defined.

(** [app.name] cannot select a file outside the configuration directory: an
    overlay name that is accepted has no path separator, is neither a dot nor a
    dot-dot segment, ends in [.ini] and is not the shared overlay again. *)
Theorem iniFileName_confined {CM : CaseMapping} appName file :
  iniFileName appName = Some file →
  Forall (λ c, is_sep c = false) file ∧ file ∉ [[]; js "."; js ".."] ∧
  endsWith file (js ".ini") = true ∧ toLowerCase file ≠ DEFAULT_INI.
Proof.
  unfold iniFileName. set (name := trim (default [] appName)).
  case_bool_decide as Hn; [done|]. destruct (includes_char name 47 || includes_char name 92) eqn:Hs; [done|].
  case_bool_decide as Hl; [done|]. intros [= <-].
  apply orb_false_iff in Hs as [H1%bool_decide_eq_false H2%bool_decide_eq_false]. split_and!.
  - apply Forall_app. split; [|by repeat constructor].
    apply Forall_forall. intros c Hc. unfold is_sep.
    destruct (N.eqb_spec c 47); [by subst|]. destruct (N.eqb_spec c 92); [by subst|]. done.
  - intros Hin. assert (length (name ++ js ".ini") <= 2) as Hlen.
    { repeat (apply elem_of_cons in Hin as [->|Hin]; [simpl; lia|]). by inversion Hin. }
    rewrite length_app in Hlen. simpl in Hlen. lia.
  - unfold endsWith. rewrite rev_app_distr. apply startsWith_app.
  - done.
Qed.

Lemma iniFileName_confined_witness :
  iniFileName (CM := ascii_case) (Some (js "../../etc/passwd")) = None ∧
  toLowerCase (CaseMapping := ascii_case) (js "shop.ini") ≠ DEFAULT_INI.
Proof.
  split; [vm_compute; reflexivity|].
  apply (iniFileName_confined (CM := ascii_case) (Some (js "shop"))). vm_compute. reflexivity.
Defined.

(** An override through [set] is what every accessor then sees: after
    [set(key, value)] the key reads back as the value, is present, and as text,
    number, boolean or list it is that value's own conversion. *)
Theorem config_set_get {CM : CaseMapping} s key v : splitKey key ≠ [] →
  config_get (config_set s key v) key = v ∧
  (∀ t, v = VStr t → getString (config_set s key v) key [] = t
        ∧ getStringList (config_set s key v) key [] = splitCommaSeparated t) ∧
  (∀ d f, v = VNum d → getNumber (config_set s key v) key f = d) ∧
  (∀ b f, v = VBool b → getBoolean (config_set s key v) key f = b) ∧
  (v ≠ VUndef → config_has (config_set s key v) key = true).
Proof.
  intros Hk. assert (config_get (config_set s key v) key = v) as E
    by by apply readPath_writePath.
  unfold getString, getStringList, getNumber, getBoolean, config_has. rewrite !E.
  split_and!; [done|naive_solver..|by destruct v].
Qed.

Lemma config_set_get_witness :
  getNumber (CM := ascii_case) (config_set (CM := ascii_case) [] (js "Server.Port") (VNum (dbl_of_Z 7)))
    (js "Server.Port") (dbl_of_Z 0) = dbl_of_Z 7.
Proof.
  refine (proj1 (proj2 (proj2 (config_set_get (CM := ascii_case) _ _ _ _))) _ _ _);
    [vm_compute; discriminate | reflexivity].
Defined.

(** An empty configuration claims to have the key [constructor]. *)
Theorem config_has_constructor : config_has (CM := ascii_case) [] (js "constructor") = true.
Proof. vm_compute. reflexivity. Qed.
