(* ===== verification/Workers.v ===== *)
(** * tools/workers/workers.ts: the bounded worker loop

    The module's variables are the record [workers].  Each exported function is a
    transition on it, and so is the settling of a task in flight, which is the
    [finally] callback of the dispatch.  [w_inflight] and [w_log] are ghost state:
    the tasks dispatched and not settled, and every dispatch in order. *)

From Stdlib Require Import QArith Qminmax.
From S2P Require Export Limit.
Local Open Scope nat_scope.

Section workers.
Context {task : Type}.
(** [Math.max(1, navigator.hardwareConcurrency)]. *)
Context (DEFAULT_WORKER_LIMIT : num).

Record workers := {
  limit : num;
  queue : list task;
  active : nat;
  running : bool;
  parallel : bool;
  w_inflight : list task;
  w_log : list task;
}.

Definition init : workers :=
  {| limit := DEFAULT_WORKER_LIMIT; queue := []; active := 0; running := false;
     parallel := true; w_inflight := []; w_log := [] |}.

Definition slots (w : workers) : num := if parallel w then limit w else min_one (limit w).

(** One turn of the loop of [pump]: [const task = queue.shift(); active++]. *)
Definition dispatch (w : workers) (t : task) (rest : list task) : workers :=
  {| limit := limit w; queue := rest; active := S (active w); running := running w;
     parallel := parallel w; w_inflight := w_inflight w ++ [t]; w_log := w_log w ++ [t] |}.

(** The [while] of [pump], by recursion on the queue it shifts. *)
Fixpoint pump_loop (q : list task) (w : workers) : workers :=
  match q with
  | [] => w
  | t :: rest =>
      if running w && below (active w) (slots w)
      then pump_loop rest (dispatch w t rest)
      else w
  end.

Definition pump (w : workers) : workers := pump_loop (queue w) w.

Definition set_queue (q : list task) (w : workers) : workers :=
  {| limit := limit w; queue := q; active := active w; running := running w;
     parallel := parallel w; w_inflight := w_inflight w; w_log := w_log w |}.
Definition set_running (b : bool) (w : workers) : workers :=
  {| limit := limit w; queue := queue w; active := active w; running := b;
     parallel := parallel w; w_inflight := w_inflight w; w_log := w_log w |}.
Definition set_limit (l : num) (w : workers) : workers :=
  {| limit := l; queue := queue w; active := active w; running := running w;
     parallel := parallel w; w_inflight := w_inflight w; w_log := w_log w |}.
Definition set_parallel (b : bool) (w : workers) : workers :=
  {| limit := limit w; queue := queue w; active := active w; running := running w;
     parallel := b; w_inflight := w_inflight w; w_log := w_log w |}.

Definition pump_if_running (w : workers) : workers := if running w then pump w else w.

Definition addTask (t : task) (w : workers) : workers :=
  pump_if_running (set_queue (queue w ++ [t]) w).
Definition setWorkersLimit (l : num) (w : workers) : workers := pump_if_running (set_limit l w).
Definition setParallelism (b : bool) (w : workers) : workers := pump_if_running (set_parallel b w).
Definition runWorkers (w : workers) : workers :=
  if running w then w else pump (set_running true w).
Definition stopWorkers (w : workers) : workers := set_running false w.
Definition restartWorkers (w : workers) : workers := runWorkers (stopWorkers w).
Definition resetWorkers (w : workers) : workers :=
  set_parallel true (set_limit DEFAULT_WORKER_LIMIT (set_queue [] (stopWorkers w))).

(** The [finally] callback of the [i]-th task in flight. *)
Definition settle (i : nat) (w : workers) : workers :=
  pump_if_running
    {| limit := limit w; queue := queue w; active := active w - 1; running := running w;
       parallel := parallel w; w_inflight := delete i (w_inflight w); w_log := w_log w |}.

Inductive event :=
  | EAdd (t : task)
  | ELimit (l : num)
  | EParallel (b : bool)
  | ERun
  | EStop
  | ERestart
  | EReset
  | ESettle (i : nat).

(** Events happen one at a time; only a task in flight settles. *)
Inductive step : workers → event → workers → Prop :=
  | step_add w t : step w (EAdd t) (addTask t w)
  | step_limit w l : step w (ELimit l) (setWorkersLimit l w)
  | step_parallel w b : step w (EParallel b) (setParallelism b w)
  | step_run w : step w ERun (runWorkers w)
  | step_stop w : step w EStop (stopWorkers w)
  | step_restart w : step w ERestart (restartWorkers w)
  | step_reset w : step w EReset (resetWorkers w)
  | step_settle w i : i < length (w_inflight w) → step w (ESettle i) (settle i w).

Definition reachable (w : workers) : Prop := ∃ es, run step init es w.

(** ** The loop *)

(** What a call of [pump] does: it dispatches a prefix of the queue in order, each
    task while a slot was free, and stops with an empty queue or no free slot. *)
Record pumped (w w' : workers) (ts : list task) : Prop := {
  p_limit : limit w' = limit w;
  p_running : running w' = running w;
  p_parallel : parallel w' = parallel w;
  p_queue : queue w = ts ++ queue w';
  p_active : active w' = active w + length ts;
  p_inflight : w_inflight w' = w_inflight w ++ ts;
  p_log : w_log w' = w_log w ++ ts;
  p_slots : ts ≠ [] → below (active w' - 1) (slots w) = true;
  p_idle : running w = true → queue w' = [] ∨ below (active w') (slots w) = false;
}.

Lemma pump_loop_spec q w : queue w = q → ∃ ts, pumped w (pump_loop q w) ts.
Proof.
  revert w; induction q as [|t q IH]; intros w Hq; cbn [pump_loop].
  - exists []. split; rewrite ?app_nil_r; simpl; auto with lia.
  - destruct (running w && below (active w) (slots w)) eqn:E.
    + apply andb_true_iff in E as [Er Eb].
      destruct (IH (dispatch w t q) eq_refl) as [ts [H1 H2 H3 H4 H5 H6 H7 H8 H9]].
      exists (t :: ts). simpl in *. split.
      1-3: done.
      * by rewrite Hq, H4 at 1.
      * simpl. lia.
      * by rewrite H6, <- app_assoc.
      * by rewrite H7, <- app_assoc.
      * intros _. destruct ts as [|u ts]; [|by apply H8].
        simpl in H5. by replace (active (pump_loop q (dispatch w t q)) - 1) with (active w) by lia.
      * done.
    + exists []. split; rewrite ?app_nil_r; simpl; try done; try lia.
      intros Hr. right. by rewrite Hr in E.
Qed.

Lemma pump_spec w : ∃ ts, pumped w (pump w) ts.
Proof. by apply pump_loop_spec. Qed.

Lemma pump_if_running_spec w : ∃ ts, pumped w (pump_if_running w) ts.
Proof.
  unfold pump_if_running. destruct (running w) eqn:E; [apply pump_spec|].
  exists []. split; rewrite ?app_nil_r; simpl; try done; try lia; congruence.
Qed.

(** ** The invariant of every reachable state *)

Record winv (w : workers) : Prop := {
  wi_active : active w = length (w_inflight w);
  (** nothing waits while a slot is free *)
  wi_busy : running w = true → queue w = [] ∨ below (active w) (slots w) = false;
}.

Lemma pumped_slots w w' ts : pumped w w' ts → slots w' = slots w.
Proof. intros [H1 _ H3 _ _ _ _ _ _]. unfold slots. by rewrite H1, H3. Qed.

Lemma pumped_winv w w' ts : pumped w w' ts → active w = length (w_inflight w) → winv w'.
Proof.
  intros Hp Ha. pose proof (pumped_slots _ _ _ Hp) as Hs. destruct Hp. split.
  - by rewrite p_active0, p_inflight0, length_app, Ha.
  - rewrite Hs, p_running0. done.
Qed.

Lemma pump_if_running_winv w : active w = length (w_inflight w) → winv (pump_if_running w).
Proof. destruct (pump_if_running_spec w) as [ts Hp]. by eapply pumped_winv. Qed.

Lemma runWorkers_winv w : winv w → winv (runWorkers w).
Proof.
  intros Hw. unfold runWorkers. destruct (running w); [done|].
  destruct (pump_spec (set_running true w)) as [ts Hp]. eapply pumped_winv; [done|].
  simpl. by destruct Hw.
Qed.

Lemma step_winv w e w' : winv w → step w e w' → winv w'.
Proof.
  intros Hw Hs. destruct Hs; try (by apply pump_if_running_winv; destruct Hw).
  - by apply runWorkers_winv.
  - split; [by destruct Hw | done].
  - apply runWorkers_winv. split; [by destruct Hw | done].
  - split; [by destruct Hw | done].
  - apply pump_if_running_winv. simpl. destruct Hw as [-> _].
    rewrite length_delete; [done | by apply lookup_lt_is_Some_2].
Qed.

Lemma reachable_winv w : reachable w → winv w.
Proof.
  intros [es Hr]. eapply run_invariant; [apply step_winv| |done]. split; done.
Qed.

(** Every transition dispatches a list of tasks, in queue order. *)
Definition dispatched (w w' : workers) (ts : list task) : Prop :=
  w_log w' = w_log w ++ ts ∧ (ts ≠ [] → below (active w' - 1) (slots w') = true).

Lemma pumped_dispatched w w0 w' ts : pumped w0 w' ts → w_log w0 = w_log w → dispatched w w' ts.
Proof.
  intros Hp Hl. split; [by rewrite (p_log _ _ _ Hp), Hl|].
  rewrite (pumped_slots _ _ _ Hp). apply (p_slots _ _ _ Hp).
Qed.

Lemma step_dispatched w e w' : step w e w' → ∃ ts, dispatched w w' ts.
Proof.
  assert (Hnil : ∀ w w', w_log w' = w_log w → dispatched w w' []).
  { intros ?? E. split; [by rewrite E, app_nil_r | done]. }
  assert (Hrun : ∀ w w0, w_log w0 = w_log w → ∃ ts, dispatched w (runWorkers w0) ts).
  { intros w1 w0 E. unfold runWorkers. destruct (running w0); [eauto|].
    destruct (pump_spec (set_running true w0)) as [ts Hp]. exists ts. by eapply pumped_dispatched. }
  intros Hs. destruct Hs; try (by apply Hrun); try (by exists []; apply Hnil).
  all: match goal with |- ∃ ts, dispatched _ ?f ts => unfold addTask, setWorkersLimit, setParallelism, settle end.
  all: match goal with |- ∃ ts, dispatched _ (pump_if_running ?x) ts =>
         destruct (pump_if_running_spec x) as [ts' Hp']; exists ts'; by eapply pumped_dispatched end.
Qed.

(** The tasks accepted and not dropped: a reset drops what is still queued. *)
Definition accept (acc : list task) (w : workers) (e : event) : list task :=
  match e with
  | EAdd t => acc ++ [t]
  | EReset => w_log w
  | _ => acc
  end.

Inductive history : list task → workers → Prop :=
  | hist_init : history [] init
  | hist_step acc w e w' : history acc w → step w e w' → history (accept acc w e) w'.

Lemma history_fifo acc w : history acc w → acc = w_log w ++ queue w.
Proof.
  assert (Hp : ∀ w w' ts, pumped w w' ts → w_log w' ++ queue w' = w_log w ++ queue w).
  { intros ??? []. by rewrite p_log0, p_queue0, <- app_assoc. }
  assert (Hr : ∀ w, w_log (pump_if_running w) ++ queue (pump_if_running w) = w_log w ++ queue w).
  { intros w0. destruct (pump_if_running_spec w0) as [ts H]. by apply Hp in H. }
  assert (Hrun : ∀ w, w_log (runWorkers w) ++ queue (runWorkers w) = w_log w ++ queue w).
  { intros w0. unfold runWorkers. destruct (running w0); [done|].
    destruct (pump_spec (set_running true w0)) as [ts H]. by apply Hp in H. }
  induction 1 as [|acc w e w' _ IH Hs]; [done|].
  destruct Hs; simpl; unfold addTask, setWorkersLimit, setParallelism, settle, restartWorkers;
    rewrite ?Hr, ?Hrun, ?IH; simpl; rewrite ?app_assoc, ?app_nil_r; done.
Qed.
End workers.
Arguments workers : clear implicits.
Arguments event : clear implicits.

(** ** Properties *)

(** The pool never stalls and its counter is exact: in every state reachable by
    any interleaving of calls and settling tasks, the counter is the number of tasks
    in flight, and while the loop runs a task only waits when no slot is free. *)
Theorem workers_work_conserving {task} dl (w : workers task) : reachable dl w →
  active w = length (w_inflight w) ∧
  (running w = true → queue w = [] ∨ below (active w) (slots w) = false).
Proof. intros H%reachable_winv. by destruct H. Qed.

Definition three_tasks : workers nat :=
  addTask 3 (addTask 2 (runWorkers (addTask 1 (init (NFin 2))))).

Lemma workers_work_conserving_witness :
  active three_tasks = length (w_inflight three_tasks) ∧ queue three_tasks = [3].
Proof.
  split; [|vm_compute; reflexivity].
  apply (workers_work_conserving (NFin 2) three_tasks).
  eexists.
  eapply run_snoc; [|apply step_add]. eapply run_snoc; [|apply step_add].
  eapply run_snoc; [|apply step_run]. eapply run_snoc; [apply run_nil|apply step_add].
Defined.

(** No event starts a task beyond the limit in force: whenever an event
    dispatches tasks, the last one found fewer tasks in flight than the slots of the
    current limit and mode, and in sequential mode it is then the only one in flight. *)
Theorem workers_bounded {task} dl (w : workers task) e w' :
  step dl w e w' →
  ∃ ts, w_log w' = w_log w ++ ts ∧
    (ts ≠ [] → below (active w' - 1) (limit w') = true
               ∧ (parallel w' = false → active w' <= 1)).
Proof.
  intros Hs. destruct (step_dispatched dl w e w' Hs) as (ts & Hl & Hb). exists ts. split; [done|].
  intros Hts. specialize (Hb Hts). unfold slots in Hb. destruct (parallel w') eqn:E; [done|].
  apply below_min_one in Hb as [H1 H2]. split; [done | intros _; lia].
Qed.

Lemma workers_bounded_witness :
  ∃ ts, w_log (runWorkers (addTask 1 (init (NFin 2)))) = w_log (addTask 1 (init (NFin 2))) ++ ts
        ∧ (ts ≠ [] → active (runWorkers (addTask 1 (init (NFin 2)))) = 1).
Proof.
  destruct (workers_bounded (NFin 2) (addTask 1 (init (NFin 2))) ERun
              (runWorkers (addTask 1 (init (NFin 2))))) as (ts & Hl & _); [apply step_run|].
  exists ts. split; [exact Hl | intros _; vm_compute; reflexivity].
Defined.

(** Tasks start in the order they were added and none is lost: along any
    execution, the tasks accepted since the last reset dropped its queue are exactly
    the dispatched ones, in order, followed by the ones still queued. *)
Theorem workers_fifo {task} dl acc (w : workers task) :
  history dl acc w → acc = w_log w ++ queue w.
Proof. apply history_fifo. Qed.

Lemma workers_fifo_witness :
  [1; 2] = w_log (addTask 2 (addTask 1 (init (NFin 2)))) ++ queue (addTask 2 (addTask 1 (init (NFin 2)))).
Proof.
  apply (workers_fifo (NFin 2)).
  refine (hist_step _ [1] _ (EAdd 2) _ _ (step_add _ _ _)).
  refine (hist_step _ [] _ (EAdd 1) _ _ (step_add _ _ _)). apply hist_init.
Defined.
