(* ===== verification/Jobs.v ===== *)
(** * tools/jobs/jobs.ts and tools/utilities/mode.ts: the job scheduler

    A [JobControl] is a shared object: the instance's map refers to it, and so do its
    timer and an execution in flight, which may outlive the map entry.  The world
    therefore keeps the controls in a store and everything else refers to them by
    index.  Ticks of armed timers and settling executions are transitions beside the
    exported functions.  [w_executions] is ghost state: the controls whose callback
    is executing, one entry per execution. *)

From S2P Require Export JsString.
Local Open Scope nat_scope.

(** ** Cron triggers *)

Record CronTrigger := {
  t_year : option Z; t_month : option Z; t_day : option Z;
  t_hour : Z; t_minute : Z; t_second : Z;
}.

(** The fields of a [Date] the scheduler reads, in local time, and [Date.now()]. *)
Record date := {
  getFullYear : Z; getMonth : Z; getDate : Z;
  getHours : Z; getMinutes : Z; getSeconds : Z; now_ms : Z;
}.

Definition component (o : option Z) (v : Z) : bool :=
  match o with None => true | Some x => (v =? x)%Z end.

Definition matchesTrigger (d : date) (t : CronTrigger) : bool :=
  component (t_year t) (getFullYear d) && component (t_month t) (getMonth d + 1)
  && component (t_day t) (getDate d)
  && ((getHours d =? t_hour t)%Z && (getMinutes d =? t_minute t)%Z && (getSeconds d =? t_second t)%Z).

(** ** Controls, instances and the module state *)

(** What the [tick] closure of a control captured. *)
Inductive tick_kind :=
  | TInterval
  | TCron (trigger : CronTrigger) (intervalMs : Z) (lastFired : Z).

Record JobControl := {
  c_id : jstr;
  c_kind : tick_kind;
  c_intervalMs : Z;
  c_paused : bool;
  c_stopped : bool;
  c_running : bool;
  c_timer : bool;  (* timer !== undefined *)
}.

Record Jobs := { j_controls : list (jstr * nat); j_started : bool }.

Record world := {
  w_mode : bool;                (* modeTest *)
  w_store : list JobControl;
  w_jobs : list Jobs;           (* every instance ever constructed *)
  w_registry : list nat;        (* the registry set, in insertion order *)
  w_executions : list nat;
}.

Definition CRON_RESOLUTION_MS : Z := 1000.

(** [const defaultJobs = new Jobs()] is instance 0. *)
Definition world0 : world :=
  {| w_mode := false; w_store := []; w_jobs := [{| j_controls := []; j_started := false |}];
     w_registry := [0]; w_executions := [] |}.

Definition set_store (s : list JobControl) (w : world) : world :=
  {| w_mode := w_mode w; w_store := s; w_jobs := w_jobs w; w_registry := w_registry w;
     w_executions := w_executions w |}.
Definition set_jobs (j : list Jobs) (w : world) : world :=
  {| w_mode := w_mode w; w_store := w_store w; w_jobs := j; w_registry := w_registry w;
     w_executions := w_executions w |}.
Definition set_registry (r : list nat) (w : world) : world :=
  {| w_mode := w_mode w; w_store := w_store w; w_jobs := w_jobs w; w_registry := r;
     w_executions := w_executions w |}.
Definition set_executions (e : list nat) (w : world) : world :=
  {| w_mode := w_mode w; w_store := w_store w; w_jobs := w_jobs w; w_registry := w_registry w;
     w_executions := e |}.
Definition set_mode (b : bool) (w : world) : world :=
  {| w_mode := b; w_store := w_store w; w_jobs := w_jobs w; w_registry := w_registry w;
     w_executions := w_executions w |}.

Definition set_timer (b : bool) (c : JobControl) : JobControl :=
  {| c_id := c_id c; c_kind := c_kind c; c_intervalMs := c_intervalMs c; c_paused := c_paused c;
     c_stopped := c_stopped c; c_running := c_running c; c_timer := b |}.
Definition set_paused (b : bool) (c : JobControl) : JobControl :=
  {| c_id := c_id c; c_kind := c_kind c; c_intervalMs := c_intervalMs c; c_paused := b;
     c_stopped := c_stopped c; c_running := c_running c; c_timer := c_timer c |}.
Definition set_stopped (b : bool) (c : JobControl) : JobControl :=
  {| c_id := c_id c; c_kind := c_kind c; c_intervalMs := c_intervalMs c; c_paused := c_paused c;
     c_stopped := b; c_running := c_running c; c_timer := c_timer c |}.
Definition set_running (b : bool) (c : JobControl) : JobControl :=
  {| c_id := c_id c; c_kind := c_kind c; c_intervalMs := c_intervalMs c; c_paused := c_paused c;
     c_stopped := c_stopped c; c_running := b; c_timer := c_timer c |}.
Definition set_kind (k : tick_kind) (c : JobControl) : JobControl :=
  {| c_id := c_id c; c_kind := k; c_intervalMs := c_intervalMs c; c_paused := c_paused c;
     c_stopped := c_stopped c; c_running := c_running c; c_timer := c_timer c |}.

Definition update (o : nat) (f : JobControl → JobControl) (w : world) : world :=
  set_store (alter f o (w_store w)) w.
Definition update_all (os : list nat) (f : JobControl → JobControl) (w : world) : world :=
  foldl (λ w o, update o f w) w os.

Definition instance (j : nat) (w : world) : Jobs :=
  default {| j_controls := []; j_started := false |} (w_jobs w !! j).
Definition update_instance (j : nat) (f : Jobs → Jobs) (w : world) : world :=
  set_jobs (alter f j (w_jobs w)) w.

(** [Map.prototype.get] and [delete]. *)
Definition map_get (id : jstr) (m : list (jstr * nat)) : option nat :=
  snd <$> find_first (λ p, bool_decide (p.1 = id)) m.
Definition map_delete (id : jstr) (m : list (jstr * nat)) : list (jstr * nat) :=
  List.filter (λ p, negb (bool_decide (p.1 = id))) m.

Definition arm : JobControl → JobControl := set_timer true.
Definition disarm : JobControl → JobControl := set_timer false.

(** [registerInterval] and [registerCron] up to the control they build. *)
Definition register (j : nat) (id : jstr) (kind : tick_kind) (interval : Z) (w : world) : world :=
  let o := length (w_store w) in
  let control := {| c_id := id; c_kind := kind; c_intervalMs := interval; c_paused := false;
                    c_stopped := false; c_running := false; c_timer := false |} in
  let w := set_store (w_store w ++ [control]) w in
  let w := update_instance j (λ i, {| j_controls := j_controls i ++ [(id, o)];
                                      j_started := j_started i |}) w in
  if j_started (instance j w) && negb (w_mode w) then update o arm w else w.

Definition registerInterval (j : nat) (id : jstr) (intervalMs : Z) (w : world) : world :=
  register j id TInterval intervalMs w.
Definition registerCron (j : nat) (id : jstr) (trigger : CronTrigger) (intervalMs : Z) (w : world)
    : world :=
  register j id (TCron trigger intervalMs 0) CRON_RESOLUTION_MS w.

(** A duplicate identifier throws and changes nothing. *)
Definition has_id (j : nat) (id : jstr) (w : world) : bool :=
  match map_get id (j_controls (instance j w)) with Some _ => true | None => false end.

Definition jobWithID (j : nat) (id : jstr) (intervalMs : Z) (w : world) : res jstr world :=
  if has_id j id w then Err (js "jobs: duplicate job id: " ++ id)
  else Ok (registerInterval j id intervalMs w).
Definition cronJobWithID (j : nat) (id : jstr) (t : CronTrigger) (intervalMs : Z) (w : world)
    : res jstr world :=
  if has_id j id w then Err (js "jobs: duplicate job id: " ++ id)
  else Ok (registerCron j id t intervalMs w).

Definition control_ids (j : nat) (w : world) : list nat := map snd (j_controls (instance j w)).

Definition startJobs (j : nat) (w : world) : world :=
  if j_started (instance j w) || w_mode w then w
  else
    let w := update_instance j (λ i, {| j_controls := j_controls i; j_started := true |}) w in
    update_all (control_ids j w) arm w.

Definition stopJob (j : nat) (id : jstr) (w : world) : world :=
  match map_get id (j_controls (instance j w)) with
  | None => w
  | Some o =>
      let w := update o (λ c, disarm (set_stopped true c)) w in
      update_instance j (λ i, {| j_controls := map_delete id (j_controls i);
                                 j_started := j_started i |}) w
  end.

Definition pauseJob (j : nat) (id : jstr) (w : world) : world :=
  match map_get id (j_controls (instance j w)) with
  | None => w
  | Some o => update o (set_paused true) w
  end.
Definition resumeJob (j : nat) (id : jstr) (w : world) : world :=
  match map_get id (j_controls (instance j w)) with
  | None => w
  | Some o => update o (set_paused false) w
  end.

Definition stopTimers (j : nat) (w : world) : world :=
  let w := update_all (control_ids j w) disarm w in
  update_instance j (λ i, {| j_controls := j_controls i; j_started := false |}) w.

Definition destroy (j : nat) (w : world) : world :=
  let w := stopTimers j w in
  let w := foldl (λ w p, stopJob j p.1 w) w (j_controls (instance j w)) in
  set_registry (List.filter (λ i, negb (i =? j)) (w_registry w)) w.

(** The closure [restarters.get(this)]. *)
Definition restart (j : nat) (w : world) : world := startJobs j (stopTimers j w).

(** [new Jobs()]. *)
Definition new_jobs (w : world) : world :=
  set_registry (w_registry w ++ [length (w_jobs w)])
    (set_jobs (w_jobs w ++ [{| j_controls := []; j_started := false |}]) w).

(** [registry.add(defaultJobs)]. *)
Definition registry_add (j : nat) (w : world) : world :=
  if bool_decide (j ∈ w_registry w) then w else set_registry (w_registry w ++ [j]) w.

Definition stopAllJobs (w : world) : world :=
  registry_add 0 (foldl (λ w j, destroy j w) w (w_registry w)).

Record JobStatus := { s_id : jstr; s_cron : bool; s_paused : bool; s_stopped : bool; s_running : bool }.

Definition status_of (c : JobControl) : JobStatus :=
  {| s_id := c_id c; s_cron := match c_kind c with TInterval => false | TCron _ _ _ => true end;
     s_paused := c_paused c; s_stopped := c_stopped c; s_running := c_running c |}.
Definition checkStatus (j : nat) (w : world) : list JobStatus :=
  omap (λ o, status_of <$> w_store w !! o) (control_ids j w).
Definition checkStatusJobs (w : world) : list JobStatus :=
  w_registry w ≫= λ j, checkStatus j w.

(** ** Ticks and executions *)

(** [execute] up to its first await. *)
Definition execute (o : nat) (w : world) : world :=
  match w_store w !! o with
  | None => w
  | Some c =>
      if c_paused c || c_stopped c || c_running c then w
      else set_executions (w_executions w ++ [o]) (update o (set_running true) w)
  end.

(** The [tick] closure, at a date. *)
Definition tick (o : nat) (d : date) (w : world) : world :=
  match w_store w !! o with
  | None => w
  | Some c =>
      match c_kind c with
      | TInterval => execute o w
      | TCron trigger intervalMs lastFired =>
          if negb (matchesTrigger d trigger) then w
          else if (0 <? intervalMs)%Z && (now_ms d - lastFired <? intervalMs)%Z then w
          else execute o (update o (set_kind (TCron trigger intervalMs (now_ms d))) w)
      end
  end.

(** The [finally] of [execute], once the callback has really settled. *)
Definition settle (i : nat) (w : world) : world :=
  match w_executions w !! i with
  | None => w
  | Some o => set_executions (delete i (w_executions w)) (update o (set_running false) w)
  end.

Inductive event :=
  | ENew
  | EJob (j : nat) (id : jstr) (intervalMs : Z)
  | ECron (j : nat) (id : jstr) (t : CronTrigger) (intervalMs : Z)
  | EStart (j : nat)
  | EStop (j : nat) (id : jstr)
  | EPause (j : nat) (id : jstr)
  | EResume (j : nat) (id : jstr)
  | EDestroy (j : nat)
  | ERestart
  | EStopAll
  | EMode (b : bool)
  | ETick (o : nat) (d : date)
  | ESettle (i : nat).

(** A tick needs an armed timer; a call with a duplicate identifier throws and leaves
    the world as it was.  [job] and [cronJob] are the [WithID] calls with an
    identifier that [crypto.randomUUID] made fresh. *)
Inductive step : world → event → world → Prop :=
  | step_new w : step w ENew (new_jobs w)
  | step_job w j id ms w' : j < length (w_jobs w) → jobWithID j id ms w = Ok w' → step w (EJob j id ms) w'
  | step_cron w j id t ms w' :
      j < length (w_jobs w) → cronJobWithID j id t ms w = Ok w' → step w (ECron j id t ms) w'
  | step_start w j : step w (EStart j) (startJobs j w)
  | step_stop w j id : step w (EStop j id) (stopJob j id w)
  | step_pause w j id : step w (EPause j id) (pauseJob j id w)
  | step_resume w j id : step w (EResume j id) (resumeJob j id w)
  | step_destroy w j : step w (EDestroy j) (destroy j w)
  | step_restart w : step w ERestart (restart 0 w)
  | step_stop_all w : step w EStopAll (stopAllJobs w)
  | step_mode w b : step w (EMode b) (set_mode b w)
  | step_tick w o d c : w_store w !! o = Some c → c_timer c = true → step w (ETick o d) (tick o d w)
  | step_settle w i : i < length (w_executions w) → step w (ESettle i) (settle i w).

Definition reachable (w : world) : Prop := ∃ es, run step world0 es w.

(** ** The execution invariant: a running flag per execution *)

Definition exec_inv (w : world) : Prop :=
  NoDup (w_executions w) ∧
  ∀ o, o ∈ w_executions w ↔ ∃ c, w_store w !! o = Some c ∧ c_running c = true.

(** Updates that keep the running flags keep the invariant. *)
Lemma exec_inv_update o f w :
  (∀ c, c_running (f c) = c_running c) → exec_inv w → exec_inv (update o f w).
Proof.
  intros Hf [Hn He]. split; [done|]. intros o'. simpl. rewrite He.
  rewrite list_lookup_alter. case_decide as Ho; [rewrite Ho|done]. destruct (w_store w !! o') as [c|]; simpl.
  - split; intros (c' & E & Hc); simplify_eq/=; eexists; (split; [done|]); by rewrite ?Hf in *.
  - split; by intros (? & ? & _).
Qed.

Lemma exec_inv_update_all os f w :
  (∀ c, c_running (f c) = c_running c) → exec_inv w → exec_inv (update_all os f w).
Proof.
  intros Hf. unfold update_all. revert w. induction os as [|o os IH]; intros w Hw; simpl; [done|].
  by apply IH, exec_inv_update.
Qed.

Lemma exec_inv_same w w' :
  w_store w' = w_store w → w_executions w' = w_executions w → exec_inv w → exec_inv w'.
Proof. unfold exec_inv. by intros -> ->. Qed.

Lemma exec_inv_register j id k ms w : exec_inv w → exec_inv (register j id k ms w).
Proof.
  intros [Hn He]. unfold register.
  assert (H : ∀ w', w_store w' = w_store w ++ [{| c_id := id; c_kind := k; c_intervalMs := ms;
                      c_paused := false; c_stopped := false; c_running := false; c_timer := false |}] →
             w_executions w' = w_executions w → exec_inv w').
  { intros w' Es Ee. split; [by rewrite Ee|]. intros o. rewrite Ee, Es, He. split.
    - intros (c & Hc & Hr). exists c. split; [by apply lookup_app_l_Some | done].
    - intros (c & [Hc|[_ Hc]]%lookup_app_Some & Hr); [by exists c|].
      apply list_lookup_singleton_Some in Hc as [_ <-]. done. }
  case_match; [apply exec_inv_update; [done|]|]; by apply H.
Qed.

Lemma exec_inv_startJobs j w : exec_inv w → exec_inv (startJobs j w).
Proof.
  intros Hw. unfold startJobs. case_match; [done|]. by apply exec_inv_update_all.
Qed.

Lemma exec_inv_stopTimers j w : exec_inv w → exec_inv (stopTimers j w).
Proof.
  intros Hw. unfold stopTimers.
  apply (exec_inv_update_all (control_ids j w) disarm) in Hw; [|done].
  by eapply exec_inv_same; [..|exact Hw].
Qed.

Lemma exec_inv_stopJob j id w : exec_inv w → exec_inv (stopJob j id w).
Proof.
  intros Hw. unfold stopJob. destruct (map_get id _) as [o|]; [|done].
  apply (exec_inv_update o (λ c, disarm (set_stopped true c))) in Hw; [|done].
  by eapply exec_inv_same; [..|exact Hw].
Qed.

Lemma exec_inv_fold_stop j l w : exec_inv w →
  exec_inv (foldl (λ w (p : jstr * nat), stopJob j p.1 w) w l).
Proof.
  revert w; induction l as [|p l IH]; intros w Hw; simpl; [done|]. by apply IH, exec_inv_stopJob.
Qed.

Lemma exec_inv_destroy j w : exec_inv w → exec_inv (destroy j w).
Proof.
  intros Hw. unfold destroy. by apply (exec_inv_same
    (foldl (λ w (p : jstr * nat), stopJob j p.1 w) (stopTimers j w)
       (j_controls (instance j (stopTimers j w))))); [..|apply exec_inv_fold_stop, exec_inv_stopTimers].
Qed.

Lemma exec_inv_execute o w : exec_inv w → exec_inv (execute o w).
Proof.
  intros Hw. unfold execute. destruct (w_store w !! o) as [c|] eqn:Hc; [|done].
  destruct (c_paused c || c_stopped c || c_running c) eqn:Eg; [done|].
  apply orb_false_iff in Eg as [_ Er]. destruct Hw as [Hn He].
  assert (Hno : o ∉ w_executions w) by (intros (c' & ? & ?)%He; congruence).
  split; simpl.
  - apply NoDup_app. split_and!; [done| |apply NoDup_singleton].
    intros x Hx ->%list_elem_of_singleton. done.
  - intros o'. rewrite elem_of_app, list_elem_of_singleton, He, list_lookup_alter.
    case_decide as Ho; subst.
    + rewrite Hc. simpl. split; [eauto|]. by right.
    + split; [intros [?|?]; [done|congruence] | by left].
Qed.

Lemma exec_inv_settle i w : exec_inv w → exec_inv (settle i w).
Proof.
  intros [Hn He]. unfold settle. destruct (w_executions w !! i) as [o|] eqn:Hi; [|done].
  pose proof (delete_Permutation _ _ _ Hi) as Hp. rewrite Hp in Hn.
  inversion Hn as [|? ? Ho Hn']; subst. split; [done|]. simpl. intros o'.
  assert (o' ∈ w_executions w ↔ o' = o ∨ o' ∈ delete i (w_executions w)) as Hm
    by by rewrite Hp at 1; rewrite elem_of_cons.
  rewrite list_lookup_alter. case_decide as E; subst.
  - destruct (w_store w !! o') as [c|]; simpl.
    + split; [done | intros (c' & [= <-] & ?); done].
    + split; [done | by intros (? & ? & _)].
  - rewrite <- He, Hm. split; [auto | intros [?|?]; [congruence | done]].
Qed.

Lemma step_exec_inv w e w' : exec_inv w → step w e w' → exec_inv w'.
Proof.
  intros Hw Hs. destruct Hs as [w|w j id ms w' _ Hj|w j id t ms w' _ Hj|w j|w j id|w j id|w j id|w j|w|w|w b|w o d c Hc Ht|w i Hi].
  - by eapply exec_inv_same.
  - unfold jobWithID in Hj. case_match; simplify_eq. by apply exec_inv_register.
  - unfold cronJobWithID in Hj. case_match; simplify_eq. by apply exec_inv_register.
  - by apply exec_inv_startJobs.
  - by apply exec_inv_stopJob.
  - unfold pauseJob. case_match; [by apply exec_inv_update | done].
  - unfold resumeJob. case_match; [by apply exec_inv_update | done].
  - by apply exec_inv_destroy.
  - by apply exec_inv_startJobs, exec_inv_stopTimers.
  - unfold stopAllJobs, registry_add.
    assert (H : exec_inv (foldl (λ w j, destroy j w) w (w_registry w))).
    { generalize (w_registry w) as l. intros l. revert w Hw.
      induction l as [|j l IH]; intros w Hw; simpl; [done|]. by apply IH, exec_inv_destroy. }
    case_match; [done | by eapply exec_inv_same].
  - by eapply exec_inv_same.
  - unfold tick. rewrite Hc. destruct (c_kind c); [by apply exec_inv_execute|].
    repeat (case_match; [done|]). by apply exec_inv_execute, exec_inv_update.
  - by apply exec_inv_settle.
Qed.

(** ** The timer invariant: who may tick *)

Definition ids (i : Jobs) : list nat := map snd (j_controls i).

Record timer_inv (w : world) : Prop := {
  ti_valid j i o : w_jobs w !! j = Some i → o ∈ ids i → o < length (w_store w);
  ti_owner j j' i i' o : w_jobs w !! j = Some i → w_jobs w !! j' = Some i' →
    o ∈ ids i → o ∈ ids i' → j = j';
  ti_keys j i : w_jobs w !! j = Some i → NoDup (map fst (j_controls i)) ∧ NoDup (ids i);
  (** an armed timer belongs to a started instance that still holds the control *)
  ti_armed o c : w_store w !! o = Some c → c_timer c = true →
    ∃ j i, w_jobs w !! j = Some i ∧ j_started i = true ∧ o ∈ ids i;
  (** a stopped control has left every instance *)
  ti_stopped o c j i : w_store w !! o = Some c → c_stopped c = true →
    w_jobs w !! j = Some i → o ∉ ids i;
}.

Lemma timer_inv_same w w' :
  w_store w' = w_store w → w_jobs w' = w_jobs w → timer_inv w → timer_inv w'.
Proof. intros Es Ej []. split; rewrite ?Es, ?Ej; eauto. Qed.

(** Updates that arm nothing and keep the stopped flags. *)
Lemma timer_inv_update o f w :
  (∀ c, c_stopped (f c) = c_stopped c) → (∀ c, c_timer (f c) = true → c_timer c = true) →
  timer_inv w → timer_inv (update o f w).
Proof.
  intros Hs Ht [Hv Ho Hk Ha Hst]. split; simpl.
  - intros ???. rewrite length_alter. apply Hv.
  - done.
  - done.
  - intros o' c. rewrite list_lookup_alter. case_decide; [subst|apply Ha].
    intros (c0 & Hc & ->)%fmap_Some Hc'. eapply Ha; eauto.
  - intros o' c j i. rewrite list_lookup_alter. case_decide; [subst|apply Hst].
    intros (c0 & Hc & ->)%fmap_Some Hc'. rewrite Hs in Hc'. eapply Hst; eauto.
Qed.

Lemma timer_inv_update_all os f w :
  (∀ c, c_stopped (f c) = c_stopped c) → (∀ c, c_timer (f c) = true → c_timer c = true) →
  timer_inv w → timer_inv (update_all os f w).
Proof.
  intros Hs Ht. unfold update_all. revert w. induction os as [|o os IH]; intros w Hw; simpl; [done|].
  by apply IH, timer_inv_update.
Qed.

Lemma timer_inv_arm o j i w : w_jobs w !! j = Some i → j_started i = true → o ∈ ids i →
  timer_inv w → timer_inv (update o arm w).
Proof.
  intros Hj Hi Ho [Hv How Hk Ha Hst]. split; simpl.
  - intros ???. rewrite length_alter. apply Hv.
  - done.
  - done.
  - intros o' c. rewrite list_lookup_alter. case_decide as E; [subst; intros _ _; by exists j, i | apply Ha].
  - intros o' c j' i'. rewrite list_lookup_alter. case_decide; [subst|apply Hst].
    intros (c0 & Hc & ->)%fmap_Some Hc'. eapply Hst; eauto.
Qed.

Lemma timer_inv_arm_all os j i w : w_jobs w !! j = Some i → j_started i = true →
  Forall (λ o, o ∈ ids i) os → timer_inv w → timer_inv (update_all os arm w).
Proof.
  intros Hj Hi Hos. unfold update_all. revert w Hj. induction Hos as [|o os Ho _ IH]; intros w Hj Hw; simpl.
  - done.
  - apply IH; [done|]. by eapply timer_inv_arm.
Qed.

(** Marking an instance started keeps the invariant. *)
Lemma timer_inv_start j w : timer_inv w →
  timer_inv (update_instance j (λ i, {| j_controls := j_controls i; j_started := true |}) w).
Proof.
  intros [Hv How Hk Ha Hst]. split; simpl.
  - intros j' i o. rewrite list_lookup_alter. case_decide; [subst|apply Hv].
    intros (i0 & Hi & ->)%fmap_Some. exact (Hv _ _ _ Hi).
  - intros j1 j2 i1 i2 o. rewrite !list_lookup_alter. repeat case_decide; subst;
      intros H1 H2; repeat match goal with H : _ <$> _ = Some _ |- _ =>
        apply fmap_Some in H as (? & ? & ->) end; eauto.
  - intros j' i. rewrite list_lookup_alter. case_decide; [subst|apply Hk].
    intros (i0 & Hi & ->)%fmap_Some. exact (Hk _ _ Hi).
  - intros o c Hc Ht. destruct (Ha o c Hc Ht) as (j' & i & Hi & Hs & Ho).
    exists j'. rewrite list_lookup_alter. case_decide; [subst|eauto]. rewrite Hi. simpl. eauto.
  - intros o c j' i Hc Ht. rewrite list_lookup_alter. case_decide; [subst|eauto].
    intros (i0 & Hi & ->)%fmap_Some. exact (Hst _ _ _ _ Hc Ht Hi).
Qed.

Lemma instance_lookup j w i : w_jobs w !! j = Some i → instance j w = i.
Proof. intros H. unfold instance. by rewrite H. Qed.

Lemma timer_inv_startJobs j w : timer_inv w → timer_inv (startJobs j w).
Proof.
  intros Hw. unfold startJobs. case_match; [done|].
  destruct (w_jobs w !! j) as [i|] eqn:Hj.
  - eapply timer_inv_arm_all; [| |apply Forall_forall|by apply timer_inv_start].
    + simpl. rewrite list_lookup_alter, decide_True, Hj by done. done.
    + done.
    + intros o Ho. unfold control_ids, instance in Ho. simpl in Ho.
      rewrite list_lookup_alter, decide_True, Hj in Ho by done. done.
  - unfold control_ids, instance. simpl. rewrite list_lookup_alter, decide_True, Hj by done. simpl.
    by apply timer_inv_start.
Qed.

(** Disarmed controls. *)
Definition unarmed (os : list nat) (w : world) : Prop :=
  ∀ o c, o ∈ os → w_store w !! o = Some c → c_timer c = false.

Lemma update_all_disarm os w : unarmed os (update_all os disarm w) ∧
  w_jobs (update_all os disarm w) = w_jobs w.
Proof.
  assert (H : ∀ os w o c, w_store (update_all os disarm w) !! o = Some c →
            (o ∈ os ∨ ∃ c0, w_store w !! o = Some c0 ∧ c_timer c0 = false) → c_timer c = false).
  { clear. unfold update_all. induction os as [|p os IH]; intros w o c; simpl.
    - intros Hc [Ho|(c0 & Hc0 & ?)]; [by inversion Ho | congruence].
    - intros Hc Ho. eapply IH; [done|]. simpl. rewrite list_lookup_alter.
      case_decide; subst.
      + right. destruct (w_store w !! o) as [c0|] eqn:E; [by eexists|].
        destruct Ho as [Ho|(? & ? & _)]; [|done]. simpl.
        exfalso. assert (Hl : ∀ os w, length (w_store (foldl (λ w o, update o disarm w) w os)) = length (w_store w)).
        { clear. induction os as [|q os IHo]; intros w; simpl; [done|]. by rewrite IHo; simpl; rewrite length_alter. }
        apply lookup_lt_Some in Hc. rewrite Hl in Hc. simpl in Hc. rewrite length_alter in Hc.
        apply lookup_ge_None in E. lia.
      + destruct Ho as [[?|?]%elem_of_cons|?]; [congruence | by left | by right]. }
  split; [intros o c Ho Hc; eapply H; eauto|].
  unfold update_all. clear. revert w. induction os as [|p os IH]; intros w; simpl; [done|]. by rewrite IH.
Qed.

Lemma timer_inv_stopTimers j w : timer_inv w → timer_inv (stopTimers j w).
Proof.
  intros Hw. unfold stopTimers.
  destruct (update_all_disarm (control_ids j w) w) as [Hu Hj].
  assert (Hw' : timer_inv (update_all (control_ids j w) disarm w)) by by apply timer_inv_update_all.
  revert Hu Hj Hw'. generalize (update_all (control_ids j w) disarm w) as w1. intros w1 Hu Hj Hw1.
  destruct Hw1 as [Hv How Hk Ha Hst]. split; simpl.
  - intros j' i o. rewrite list_lookup_alter. case_decide; [subst|apply Hv].
    intros (i0 & Hi & ->)%fmap_Some. exact (Hv _ _ _ Hi).
  - intros j1 j2 i1 i2 o. rewrite !list_lookup_alter. repeat case_decide; subst;
      intros H1 H2; repeat match goal with H : _ <$> _ = Some _ |- _ =>
        apply fmap_Some in H as (? & ? & ->) end; eauto.
  - intros j' i. rewrite list_lookup_alter. case_decide; [subst|apply Hk].
    intros (i0 & Hi & ->)%fmap_Some. exact (Hk _ _ Hi).
  - intros o c Hc Ht. destruct (Ha o c Hc Ht) as (j' & i & Hi & Hs & Ho).
    destruct (decide (j' = j)) as [->|Hne].
    + exfalso. rewrite (Hu o c) in Ht; [done| |done].
      unfold control_ids. rewrite <- (instance_lookup j w1 i Hi) in Ho.
      unfold instance in *. by rewrite <- Hj.
    + exists j', i. rewrite list_lookup_alter, decide_False by done. done.
  - intros o c j' i Hc Ht. rewrite list_lookup_alter. case_decide; [subst|eauto].
    intros (i0 & Hi & ->)%fmap_Some. exact (Hst _ _ _ _ Hc Ht Hi).
Qed.

Lemma find_first_Some_in {A} (P : A → bool) l x : x ∈ l → P x = true → ∃ y, find_first P l = Some y.
Proof.
  intros Hx HP. destruct (find_first P l) eqn:E; [eauto|].
  apply find_first_None in E. rewrite Forall_forall in E. rewrite (E x) in HP; done.
Qed.

Lemma map_get_in id m o : map_get id m = Some o → (id, o) ∈ m.
Proof.
  unfold map_get. intros (p & Hp & ->)%fmap_Some. apply find_first_Some in Hp as [Hp <-%bool_decide_eq_true].
  by destruct p.
Qed.

Lemma map_delete_elem id m p : p ∈ map_delete id m ↔ p ∈ m ∧ p.1 ≠ id.
Proof.
  unfold map_delete. rewrite !list_elem_of_In, filter_In. split.
  - intros [? H]. apply negb_true_iff, bool_decide_eq_false in H. done.
  - intros [? H]. split; [done|]. by rewrite bool_decide_eq_false_2.
Qed.

Lemma NoDup_map_filter {A B} (f : A → B) (P : A → bool) l : NoDup (map f l) → NoDup (map f (List.filter P l)).
Proof.
  induction l as [|x l IH]; simpl; intros H; [done|]. inversion H as [|? ? Hx Hl]; subst.
  destruct (P x); simpl; [|auto]. constructor; [|auto].
  intros (y & E & Hy)%list_elem_of_fmap. apply Hx. apply list_elem_of_fmap.
  exists y. split; [done|]. by apply list_elem_of_In, filter_In in Hy as [?%list_elem_of_In _].
Qed.

Lemma timer_inv_stopJob j id w : timer_inv w → timer_inv (stopJob j id w).
Proof.
  intros [Hv How Hk Ha Hst]. unfold stopJob. destruct (map_get id _) as [o|] eqn:Hg; [|done].
  destruct (w_jobs w !! j) as [i|] eqn:Hj.
  2: { unfold instance in Hg. by rewrite Hj in Hg. }
  rewrite (instance_lookup _ _ _ Hj) in Hg. apply map_get_in in Hg.
  assert (Hoi : o ∈ ids i) by (apply list_elem_of_fmap; by exists (id, o)).
  destruct (Hk j i Hj) as [Hk1 Hk2].
  assert (Hnew : ∀ j' i', w_jobs (update_instance j (λ i, {| j_controls := map_delete id (j_controls i);
             j_started := j_started i |}) (update o (λ c, disarm (set_stopped true c)) w)) !! j' = Some i' →
             ∃ i0, w_jobs w !! j' = Some i0 ∧ j_started i' = j_started i0 ∧
                   (∀ p, p ∈ ids i' → p ∈ ids i0 ∧ p ≠ o) ∧ (∀ p, p ∈ ids i0 → p ≠ o → p ∈ ids i') ∧
                   NoDup (map fst (j_controls i')) ∧ NoDup (ids i')).
  { intros j' i'. simpl. rewrite list_lookup_alter. case_decide as Hjj; [subst j'|].
    - rewrite Hj. simpl. intros [= <-]. exists i. simpl. split_and!; try done.
      + intros p (q & -> & Hq)%list_elem_of_fmap. apply map_delete_elem in Hq as [Hq Hne].
        split; [apply list_elem_of_fmap; by exists q|]. intros E. destruct q as [k p]; simpl in *. subst.
        apply Hne. clear -Hk2 Hq Hg. unfold ids in Hk2.
        induction (j_controls i) as [|x l IH]; [by inversion Hq|]. simpl in Hk2.
        inversion Hk2 as [|? ? Hx Hl]; subst.
        apply elem_of_cons in Hq as [<-|Hq], Hg as [Hg|Hg]; simplify_eq/=; auto.
        * exfalso. apply Hx, list_elem_of_fmap. by exists (id, o).
        * exfalso. apply Hx, list_elem_of_fmap. by exists (k, o).
      + intros p (q & -> & Hq)%list_elem_of_fmap Hne. apply list_elem_of_fmap. exists q. split; [done|].
        apply map_delete_elem. split; [done|]. intros E. apply Hne.
        destruct q as [k p]; simpl in *; subst k. clear -Hk1 Hq Hg.
        induction (j_controls i) as [|x l IH]; [by inversion Hq|]. simpl in Hk1.
        inversion Hk1 as [|? ? Hx Hl]; subst.
        apply elem_of_cons in Hq as [<-|Hq], Hg as [Hg|Hg]; simplify_eq/=; auto.
        * exfalso. apply Hx, list_elem_of_fmap. by exists (id, o).
        * exfalso. apply Hx, list_elem_of_fmap. by exists (id, p).
      + by apply NoDup_map_filter.
      + by apply NoDup_map_filter.
    - intros Hi'. exists i'. split_and!; try done; [|apply Hk in Hi'; apply Hi'..].
      intros p Hp. split; [done|]. intros ->. by apply Hjj, (How j j' i i' o). }
  split.
  - intros j' i' p Hi' Hp. apply Hnew in Hi' as (i0 & Hi0 & _ & Hin & _). simpl. rewrite length_alter.
    eapply Hv; [done|]. by apply Hin.
  - intros j1 j2 i1 i2 p H1 H2 Hp1 Hp2. apply Hnew in H1 as (i1' & ? & _ & H1 & _), H2 as (i2' & ? & _ & H2 & _).
    eapply How; [done..|by apply H1|by apply H2].
  - intros j' i' Hi'. apply Hnew in Hi' as (i0 & _ & _ & _ & _ & ? & ?). done.
  - intros p c. simpl. rewrite list_lookup_alter. case_decide as Hop.
    + intros (c0 & _ & ->)%fmap_Some. done.
    + intros Hc Ht. destruct (Ha p c Hc Ht) as (j' & i' & Hi' & Hs & Hp).
      exists j'. simpl. rewrite list_lookup_alter. case_decide as Hjj; [subst j'|by exists i'].
      assert (i' = i) as -> by congruence. rewrite Hj. simpl. eexists. split; [done|]. split; [done|].
      assert (Hx : w_jobs (update_instance j (λ i, {| j_controls := map_delete id (j_controls i);
             j_started := j_started i |}) (update o (λ c, disarm (set_stopped true c)) w)) !! j
             = Some {| j_controls := map_delete id (j_controls i); j_started := j_started i |})
        by (simpl; by rewrite list_lookup_alter, decide_True, Hj by done).
      apply Hnew in Hx as (i0 & Hi0 & _ & _ & Hx & _). assert (i0 = i) as -> by congruence.
      apply Hx; [done|congruence].
  - intros p c j' i'. simpl. rewrite list_lookup_alter. intros Hc Ht Hi' Hp.
    apply Hnew in Hi' as (i0 & Hi0 & _ & Hx & _). apply Hx in Hp as [Hp Hpo].
    case_decide as Hop; [congruence|]. by eapply Hst.
Qed.

Lemma timer_inv_destroy j w : timer_inv w → timer_inv (destroy j w).
Proof.
  intros Hw. unfold destroy. apply (timer_inv_same
    (foldl (λ w (p : jstr * nat), stopJob j p.1 w) (stopTimers j w)
       (j_controls (instance j (stopTimers j w))))); [done..|].
  apply (timer_inv_stopTimers j) in Hw. revert Hw.
  generalize (j_controls (instance j (stopTimers j w))) as l. generalize (stopTimers j w). intros w1 l.
  revert w1. induction l as [|p l IH]; intros w1 Hw1; simpl; [done|]. by apply IH, timer_inv_stopJob.
Qed.

Lemma has_id_false j id w i : has_id j id w = false → w_jobs w !! j = Some i →
  id ∉ map fst (j_controls i).
Proof.
  unfold has_id. intros Hh Hj. rewrite (instance_lookup _ _ _ Hj) in Hh.
  destruct (map_get id (j_controls i)) as [o|] eqn:E; [done|].
  intros (p & -> & Hp)%list_elem_of_fmap. unfold map_get in E. apply fmap_None in E.
  apply find_first_None in E. rewrite Forall_forall in E. specialize (E p Hp). simpl in E.
  by apply bool_decide_eq_false in E.
Qed.

Lemma timer_inv_register j id k ms w : j < length (w_jobs w) → has_id j id w = false →
  timer_inv w → timer_inv (register j id k ms w).
Proof.
  intros Hjl Hh [Hv How Hk Ha Hst].
  destruct (lookup_lt_is_Some_2 _ _ Hjl) as [i Hj].
  pose proof (has_id_false _ _ _ _ Hh Hj) as Hid.
  set (o := length (w_store w)).
  set (c0 := {| c_id := id; c_kind := k; c_intervalMs := ms; c_paused := false;
                c_stopped := false; c_running := false; c_timer := false |}).
  set (i1 := {| j_controls := j_controls i ++ [(id, o)]; j_started := j_started i |}).
  set (w1 := update_instance j (λ i, {| j_controls := j_controls i ++ [(id, o)];
               j_started := j_started i |}) (set_store (w_store w ++ [c0]) w)).
  assert (Hj1 : w_jobs w1 !! j = Some i1) by (simpl; by rewrite list_lookup_alter, decide_True, Hj by done).
  assert (Hids : ids i1 = ids i ++ [o]) by (unfold ids; simpl; by rewrite map_app).
  assert (Hfresh : ∀ j' i', w_jobs w !! j' = Some i' → o ∉ ids i').
  { intros j' i' Hi' Ho. apply (Hv _ _ _ Hi') in Ho. unfold o in Ho. lia. }
  assert (Hother : ∀ j' i', w_jobs w1 !! j' = Some i' → j' = j ∧ i' = i1 ∨ j' ≠ j ∧ w_jobs w !! j' = Some i').
  { intros j' i' Hi'. destruct (decide (j' = j)) as [->|]; [left; split; [done|congruence]|right].
    simpl in Hi'. by rewrite list_lookup_alter, decide_False in Hi' by done. }
  assert (Hw1 : timer_inv w1).
  { split.
    - intros j' i' p Hi' Hp. simpl. rewrite length_app. simpl.
      apply Hother in Hi' as [[-> ->]|[_ Hi']]; [|specialize (Hv _ _ _ Hi' Hp); lia].
      rewrite Hids in Hp. apply elem_of_app in Hp as [Hp|Hp].
      + specialize (Hv _ _ _ Hj Hp). lia.
      + apply list_elem_of_singleton in Hp as ->. unfold o. lia.
    - intros ja jb ia ib p Hia Hib Hpa Hpb.
      apply Hother in Hia as [[-> ->]|[Ha' Hia]], Hib as [[-> ->]|[Hb' Hib]]; try done.
      + rewrite Hids in Hpa. apply elem_of_app in Hpa as [Hpa|Hpa%list_elem_of_singleton]; [by eapply How|].
        subst p. by apply Hfresh in Hib.
      + rewrite Hids in Hpb. apply elem_of_app in Hpb as [Hpb|Hpb%list_elem_of_singleton]; [by eapply How|].
        subst p. by apply Hfresh in Hia.
      + by eapply How.
    - intros j' i' Hi'. apply Hother in Hi' as [[-> ->]|[_ Hi']]; [|by eapply Hk].
      destruct (Hk _ _ Hj) as [Hk1 Hk2]. rewrite Hids. simpl. rewrite map_app. simpl.
      split; apply NoDup_app; (split_and!; [done| |apply NoDup_singleton]).
      + intros x Hx ->%list_elem_of_singleton. done.
      + intros x Hx ->%list_elem_of_singleton. by apply Hfresh in Hj.
    - intros p c. simpl. intros [Hc|[_ Hc]]%lookup_app_Some Ht.
      + destruct (Ha _ _ Hc Ht) as (j' & i' & Hi' & Hs & Hp).
        destruct (decide (j' = j)) as [->|].
        * assert (i' = i) as -> by congruence. exists j, i1. rewrite Hids. split; [done|].
          split; [done|]. apply elem_of_app. by left.
        * exists j', i'. by rewrite list_lookup_alter, decide_False by done.
      + apply list_lookup_singleton_Some in Hc as [_ <-]. done.
    - intros p c j' i' Hc Ht Hi' Hp. simpl in Hc.
      apply lookup_app_Some in Hc as [Hc|[_ Hc]].
      + apply Hother in Hi' as [[-> ->]|[_ Hi']]; [|by eapply Hst].
        rewrite Hids in Hp. apply elem_of_app in Hp as [Hp|Hp%list_elem_of_singleton]; [by eapply Hst|].
        subst p. apply lookup_lt_Some in Hc. unfold o in Hc. lia.
      + apply list_lookup_singleton_Some in Hc as [_ <-]. done. }
  unfold register. fold c0 o w1. case_match eqn:Es; [|done].
  apply andb_true_iff in Es as [Es _]. rewrite (instance_lookup _ _ _ Hj1) in Es.
  eapply timer_inv_arm; [done..| |done]. rewrite Hids. apply elem_of_app. right. by constructor.
Qed.

Lemma timer_inv_execute o w : timer_inv w → timer_inv (execute o w).
Proof.
  intros Hw. unfold execute. repeat (case_match; try done).
  apply (timer_inv_same (update o (set_running true) w)); [done..|]. by apply timer_inv_update.
Qed.

Lemma timer_inv_new w : timer_inv w → timer_inv (new_jobs w).
Proof.
  intros [Hv How Hk Ha Hst].
  assert (H : ∀ j i, w_jobs (new_jobs w) !! j = Some i → w_jobs w !! j = Some i ∨ j_controls i = []).
  { intros j i. simpl. intros [?|[_ Hi]]%lookup_app_Some; [by left|].
    apply list_lookup_singleton_Some in Hi as [_ <-]. by right. }
  assert (Hn : ∀ i o, j_controls i = [] → o ∈ ids i → False).
  { unfold ids. intros i o -> Ho. by inversion Ho. }
  split.
  - intros j i o [Hi|Hi]%H Ho; [by eapply Hv | by eapply Hn in Ho].
  - intros j j' i i' o [Hi|Hi]%H [Hi'|Hi']%H Ho Ho'; try (by eapply How);
      exfalso; eauto.
  - intros j i [Hi|Hi]%H; [by eapply Hk|]. unfold ids. rewrite Hi. split; constructor.
  - intros o c Hc Ht. destruct (Ha o c Hc Ht) as (j & i & Hi & ?).
    exists j, i. split; [|done]. simpl. by apply lookup_app_l_Some.
  - intros o c j i Hc Ht [Hi|Hi]%H Ho; [by eapply Hst | by eapply Hn in Ho].
Qed.

Lemma step_timer_inv w e w' : timer_inv w → step w e w' → timer_inv w'.
Proof.
  intros Hw Hs. destruct Hs as [w|w j id ms w' Hl Hj|w j id t ms w' Hl Hj|w j|w j id|w j id|w j id|w j|w|w|w b|w o d c Hc Ht|w i Hi].
  - by apply timer_inv_new.
  - unfold jobWithID in Hj. case_match; simplify_eq. by apply timer_inv_register.
  - unfold cronJobWithID in Hj. case_match; simplify_eq. by apply timer_inv_register.
  - by apply timer_inv_startJobs.
  - by apply timer_inv_stopJob.
  - unfold pauseJob. case_match; [by apply timer_inv_update | done].
  - unfold resumeJob. case_match; [by apply timer_inv_update | done].
  - by apply timer_inv_destroy.
  - by apply timer_inv_startJobs, timer_inv_stopTimers.
  - unfold stopAllJobs, registry_add.
    assert (H : timer_inv (foldl (λ w j, destroy j w) w (w_registry w))).
    { generalize (w_registry w) as l. intros l. revert w Hw.
      induction l as [|j l IH]; intros w Hw; simpl; [done|]. by apply IH, timer_inv_destroy. }
    case_match; [done | by eapply timer_inv_same; [..|exact H]].
  - by eapply timer_inv_same; [..|exact Hw].
  - unfold tick. rewrite Hc. destruct (c_kind c); [by apply timer_inv_execute|].
    repeat (case_match; [done|]). by apply timer_inv_execute, timer_inv_update.
  - unfold settle. destruct (w_executions w !! i) as [o|]; [|done].
    apply (timer_inv_update o (set_running false)) in Hw; [|done..].
    by eapply timer_inv_same; [..|exact Hw].
Qed.

Lemma reachable_inv w : reachable w → exec_inv w ∧ timer_inv w.
Proof.
  intros [es Hr]. eapply (run_invariant step (λ w, exec_inv w ∧ timer_inv w)); [| |done].
  - intros s l s' [? ?] ?. split; [by eapply step_exec_inv | by eapply step_timer_inv].
  - split.
    + split; [constructor|]. intros o. split; [by inversion 1 | by intros (? & ? & _)].
    + split; simpl; try done.
      * intros [|j] i o; [|done]. intros [= <-] Ho. by inversion Ho.
      * intros [|j] [|j'] i i' o; try done.
      * intros [|j] i; [|done]. intros [= <-]. split; constructor.
Qed.

(** ** Stopping everything *)

Lemma stopJob_jobs j id w :
  w_jobs (stopJob j id w) = alter (λ i, {| j_controls := map_delete id (j_controls i);
                                           j_started := j_started i |}) j (w_jobs w)
  ∨ w_jobs (stopJob j id w) = w_jobs w ∧ map_get id (j_controls (instance j w)) = None.
Proof. unfold stopJob. destruct (map_get id _) eqn:E; [by left | by right]. Qed.

Lemma instance_alter j f w w' : w_jobs w' = alter f j (w_jobs w) →
  (∀ i, w_jobs w !! j = Some i → instance j w' = f i) ∧ (∀ j', j' ≠ j → instance j' w' = instance j' w).
Proof.
  intros E. unfold instance. rewrite E. split.
  - intros i Hi. rewrite list_lookup_alter, decide_True, Hi by done. done.
  - intros j' Hj. by rewrite list_lookup_alter, decide_False by done.
Qed.

(** Stopping every listed identifier removes those entries. *)
Lemma fold_stop_controls j l w :
  let w' := foldl (λ w (p : jstr * nat), stopJob j p.1 w) w l in
  (∀ p, p ∈ j_controls (instance j w') → p ∈ j_controls (instance j w) ∧ p.1 ∉ map fst l) ∧
  j_started (instance j w') = j_started (instance j w) ∧
  (∀ j', j' ≠ j → instance j' w' = instance j' w) ∧ w_registry w' = w_registry w.
Proof.
  revert w; induction l as [|q l IH]; intros w; simpl.
  { split_and!; try done. intros p Hp. split; [done|]. by inversion 1. }
  destruct (IH (stopJob j q.1 w)) as (Hc & Hs & Ho & Hr).
  assert (Hreg : w_registry (stopJob j q.1 w) = w_registry w) by (unfold stopJob; by case_match).
  destruct (stopJob_jobs j q.1 w) as [E|[E Hn]].
  - destruct (instance_alter _ _ _ _ E) as [Hj Hj']. destruct (w_jobs w !! j) as [i|] eqn:Hi.
    + specialize (Hj i eq_refl). rewrite (instance_lookup _ _ _ Hi) in *. split_and!.
      * intros p Hp. apply Hc in Hp as [Hp Hn]. rewrite Hj in Hp. simpl in Hp.
        apply map_delete_elem in Hp as [Hp Hne]. split; [done|]. by rewrite not_elem_of_cons.
      * by rewrite Hs, Hj.
      * intros j' Hjj. rewrite Ho by done. by apply Hj'.
      * by rewrite Hr.
    + assert (Ei : instance j w = {| j_controls := []; j_started := false |}) by (unfold instance; by rewrite Hi).
      assert (Ei' : instance j (stopJob j q.1 w) = {| j_controls := []; j_started := false |}).
      { unfold instance. by rewrite E, list_lookup_alter, decide_True, Hi by done. }
      rewrite Ei, Ei' in *. split_and!.
      * intros p Hp. apply Hc in Hp as [Hp _]. by inversion Hp.
      * done.
      * intros j' Hjj. rewrite Ho by done. by apply Hj'.
      * by rewrite Hr.
  - assert (Ei : ∀ j', instance j' (stopJob j q.1 w) = instance j' w) by (intros; unfold instance; by rewrite E).
    rewrite Ei in *. split_and!.
    + intros p Hp. apply Hc in Hp as [Hp Hnl]. split; [done|]. rewrite not_elem_of_cons. split; [|done].
      intros Ep. unfold map_get in Hn. apply fmap_None, find_first_None in Hn.
      rewrite Forall_forall in Hn. specialize (Hn p Hp). simpl in Hn.
      by rewrite bool_decide_eq_true_2 in Hn.
    + done.
    + intros j' Hjj. by rewrite Ho, Ei.
    + by rewrite Hr.
Qed.

Lemma stopTimers_instance j w :
  j_controls (instance j (stopTimers j w)) = j_controls (instance j w) ∧
  j_started (instance j (stopTimers j w)) = false ∧
  (∀ j', j' ≠ j → instance j' (stopTimers j w) = instance j' w) ∧
  w_registry (stopTimers j w) = w_registry w.
Proof.
  unfold stopTimers. destruct (update_all_disarm (control_ids j w) w) as [_ Hj].
  assert (Hr : ∀ os w, w_registry (update_all os disarm w) = w_registry w).
  { unfold update_all. induction os as [|o os IH]; intros w1; simpl; [done|]. by rewrite IH. }
  unfold instance. simpl. rewrite Hj, Hr. split_and!; try done.
  - rewrite list_lookup_alter, decide_True by done. by destruct (w_jobs w !! j).
  - rewrite list_lookup_alter, decide_True by done. by destruct (w_jobs w !! j).
  - intros j' Hne. by rewrite list_lookup_alter, decide_False by done.
Qed.

Lemma destroy_spec j w :
  instance j (destroy j w) = {| j_controls := []; j_started := false |} ∧
  (∀ j', j' ≠ j → instance j' (destroy j w) = instance j' w) ∧
  w_registry (destroy j w) = List.filter (λ i, negb (i =? j)) (w_registry w).
Proof.
  destruct (stopTimers_instance j w) as (Hc & Hs & Ho & Hr). unfold destroy.
  destruct (fold_stop_controls j (j_controls (instance j (stopTimers j w))) (stopTimers j w))
    as (Hc' & Hs' & Ho' & Hr').
  set (w' := foldl _ _ _) in *.
  change (instance j (set_registry _ w')) with (instance j w').
  split_and!.
  - destruct (instance j w') as [cs st] eqn:E. simpl in *. rewrite Hs in Hs'. rewrite Hs'. f_equal.
    destruct cs as [|p cs]; [done|]. destruct (Hc' p) as [Hin Hn]; [by constructor|].
    destruct Hn. apply list_elem_of_fmap. by exists p.
  - intros j' Hj. change (instance j' w' = instance j' w). by rewrite Ho', Ho.
  - simpl. by rewrite Hr', Hr.
Qed.

Lemma fold_destroy_spec l w :
  let w' := foldl (λ w j, destroy j w) w l in
  (∀ j, j ∈ l → instance j w' = {| j_controls := []; j_started := false |}) ∧
  (∀ j, j ∉ l → instance j w' = instance j w) ∧
  (∀ j, j ∈ w_registry w' ↔ j ∈ w_registry w ∧ j ∉ l).
Proof.
  revert w; induction l as [|q l IH]; intros w; simpl.
  { split_and!; [by inversion 1|done|]. intros j. split; [|by intros [? _]]. intros ?.
    split; [done|]. by inversion 1. }
  destruct (destroy_spec q w) as (Hq & Ho & Hr). destruct (IH (destroy q w)) as (H1 & H2 & H3).
  split_and!.
  - intros j [->|Hj]%elem_of_cons; [|by apply H1].
    destruct (decide (q ∈ l)) as [?|Hn]; [by apply H1|]. by rewrite H2.
  - intros j [Hne Hj]%not_elem_of_cons. by rewrite H2, Ho.
  - intros j. rewrite H3, Hr, not_elem_of_cons, list_elem_of_In, filter_In, <- list_elem_of_In.
    destruct (Nat.eqb_spec j q); naive_solver.
Qed.

(** ** Properties *)

(** A job never overlaps itself: in every reachable world no control has two
    executions in flight, and a control's running flag is set exactly while its
    callback is executing, whatever was stopped, restarted or re-registered. *)
Theorem jobs_no_overlap w : reachable w →
  NoDup (w_executions w) ∧
  ∀ o c, w_store w !! o = Some c → (c_running c = true ↔ o ∈ w_executions w).
Proof.
  intros [[Hn He] _]%reachable_inv. split; [done|]. intros o c Hc. rewrite He.
  split; [eauto|]. intros (c' & Hc' & ?). by simplify_eq.
Qed.

Definition demo_date (ms : Z) : date :=
  {| getFullYear := 2026; getMonth := 0; getDate := 1; getHours := 0; getMinutes := 0;
     getSeconds := 0; now_ms := ms |}.

Definition demo_jobs : world :=
  tick 0 (demo_date 1000) (tick 0 (demo_date 500)
    (startJobs 0 (registerInterval 0 (js "a") 500 world0))).

Lemma demo_jobs_reachable : reachable demo_jobs.
Proof.
  eexists. eapply run_snoc; [|eapply step_tick; vm_compute; reflexivity].
  eapply run_snoc; [|eapply step_tick; vm_compute; reflexivity].
  eapply run_snoc; [|apply step_start]. eapply run_snoc; [apply run_nil|].
  apply (step_job _ 0 (js "a") 500); [simpl; lia | vm_compute; reflexivity].
Qed.

Lemma jobs_no_overlap_witness : NoDup (w_executions demo_jobs) ∧ w_executions demo_jobs = [0].
Proof.
  split; [apply (jobs_no_overlap demo_jobs), demo_jobs_reachable | vm_compute; reflexivity].
Defined.

(** Timers are owned: in every reachable world an armed timer belongs to a
    control that some started instance still holds and that is not stopped, and a
    stopped control neither has a timer nor starts its callback again. *)
Theorem jobs_timers_owned w o c : reachable w → w_store w !! o = Some c →
  (c_timer c = true →
     c_stopped c = false ∧ ∃ j, j_started (instance j w) = true ∧ o ∈ control_ids j w) ∧
  (c_stopped c = true → c_timer c = false ∧ w_executions (execute o w) = w_executions w).
Proof.
  intros [_ [_ _ _ Ha Hst]]%reachable_inv Hc. split.
  - intros Ht. destruct (Ha _ _ Hc Ht) as (j & i & Hi & Hs & Ho). split.
    + destruct (c_stopped c) eqn:E; [|done]. by destruct (Hst _ _ _ _ Hc E Hi).
    + exists j. unfold control_ids. by rewrite (instance_lookup _ _ _ Hi).
  - intros Hs. split.
    + destruct (c_timer c) eqn:E; [|done]. destruct (Ha _ _ Hc E) as (j & i & Hi & _ & Ho).
      by destruct (Hst _ _ _ _ Hc Hs Hi).
    + unfold execute. rewrite Hc, Hs. by destruct (c_paused c).
Qed.

Lemma jobs_timers_owned_witness :
  ∃ j, j_started (instance j demo_jobs) = true ∧ 0 ∈ control_ids j demo_jobs.
Proof.
  destruct (w_store demo_jobs !! 0) as [c|] eqn:E; [|vm_compute in E; discriminate].
  refine (proj2 (proj1 (jobs_timers_owned demo_jobs 0 c demo_jobs_reachable E) _)).
  vm_compute in E. injection E as <-. reflexivity.
Defined.

(** [stopAllJobs] leaves nothing running in any registered instance: each one
    has no job and is not started, only the package default stays registered, and the
    status of all registered jobs is empty. *)
Theorem stopAllJobs_silences w : 0 ∈ w_registry w →
  (∀ j, j ∈ w_registry w → j_controls (instance j (stopAllJobs w)) = []
        ∧ j_started (instance j (stopAllJobs w)) = false) ∧
  w_registry (stopAllJobs w) = [0] ∧ checkStatusJobs (stopAllJobs w) = [].
Proof.
  intros H0. destruct (fold_destroy_spec (w_registry w) w) as (Hd & _ & Hr).
  set (w' := foldl _ _ _) in *. assert (Hr' : w_registry w' = []).
  { destruct (w_registry w') as [|j l] eqn:E; [done|].
    destruct (proj1 (Hr j)) as [? ?]; [by constructor | done]. }
  assert (Hall : stopAllJobs w = set_registry [0] w').
  { unfold stopAllJobs, registry_add. fold w'. rewrite Hr'. done. }
  rewrite Hall. split_and!.
  - intros j Hj. change (instance j (set_registry [0] w')) with (instance j w'). by rewrite Hd.
  - done.
  - unfold checkStatusJobs, checkStatus, control_ids. simpl.
    change (instance 0 (set_registry [0] w')) with (instance 0 w'). by rewrite (Hd 0).
Qed.

Lemma stopAllJobs_silences_witness : checkStatusJobs (stopAllJobs demo_jobs) = [].
Proof. apply (stopAllJobs_silences demo_jobs). vm_compute. constructor. Defined.

(** A tick starts the callback exactly when it is due: the control is neither
    paused, stopped nor already running, and for a cron control the date matches the
    trigger and at least the minimum interval has passed since it last fired. *)
Theorem tick_starts_when_due o d w c : w_store w !! o = Some c →
  w_executions (tick o d w)
  = if negb (c_paused c || c_stopped c || c_running c)
       && match c_kind c with
          | TInterval => true
          | TCron t interval last =>
              matchesTrigger d t && ((interval <=? 0)%Z || (interval <=? now_ms d - last)%Z)
          end
    then w_executions w ++ [o] else w_executions w.
Proof.
  intros Hc. unfold tick. rewrite Hc. destruct (c_kind c) as [|t interval last] eqn:Ek.
  - unfold execute. rewrite Hc, andb_true_r. by destruct (c_paused c || c_stopped c || c_running c).
  - destruct (matchesTrigger d t); simpl; [|by rewrite andb_false_r].
    destruct ((0 <? interval)%Z && (now_ms d - last <? interval)%Z) eqn:E.
    + replace ((interval <=? 0)%Z || (interval <=? now_ms d - last)%Z) with false by lia.
      by rewrite andb_false_r.
    + replace ((interval <=? 0)%Z || (interval <=? now_ms d - last)%Z) with true by lia.
      rewrite andb_true_r. unfold execute. simpl. rewrite list_lookup_alter, decide_True, Hc by done.
      simpl. by destruct (c_paused c || c_stopped c || c_running c).
Qed.

Lemma tick_starts_when_due_witness :
  w_executions (tick 0 (demo_date 500) (startJobs 0 (registerInterval 0 (js "a") 500 world0))) = [0].
Proof.
  refine (eq_trans (tick_starts_when_due 0 (demo_date 500)
            (startJobs 0 (registerInterval 0 (js "a") 500 world0))
            {| c_id := js "a"; c_kind := TInterval; c_intervalMs := 500; c_paused := false;
               c_stopped := false; c_running := false; c_timer := true |} _) _);
    vm_compute; reflexivity.
Defined.

(** A destroyed instance can be used again, but it is no longer registered, so
    [stopAllJobs] does not stop it. *)
Theorem destroyed_instance_survives :
  let w := startJobs 1 (registerInterval 1 (js "a") 500 (destroy 1 (new_jobs world0))) in
  (∃ c, w_store (stopAllJobs w) !! 0 = Some c ∧ c_timer c = true).
Proof. eexists. split; vm_compute; reflexivity. Qed.
