(* ===== verification/WasmContracts.v ===== *)
(** * wasm/errors.ts and wasm/contracts.ts: the error taxonomy and the ABI v1 contracts

    An error value is the record [WasmRuntimeError]; its class is the [name] its
    constructor writes.  The [cause] an error carries is not observed by the code and is
    left out.  The contracts are records with the fields of the interfaces. *)

From S2P Require Export Json.
Local Open Scope nat_scope.

(** ** wasm/errors.ts *)

Module WasmErrorCode.
Definition ManifestInvalid : jstr := js "WASM_MANIFEST_INVALID".
Definition IntegrityFailed : jstr := js "WASM_INTEGRITY_FAILED".
Definition Incompatible : jstr := js "WASM_INCOMPATIBLE".
Definition CodecInvalid : jstr := js "WASM_CODEC_INVALID".
Definition Closed : jstr := js "WASM_CLOSED".
Definition Cancelled : jstr := js "WASM_CANCELLED".
Definition DeadlineExceeded : jstr := js "WASM_DEADLINE_EXCEEDED".
Definition PoolUnavailable : jstr := js "WASM_POOL_UNAVAILABLE".
Definition AdapterRejected : jstr := js "WASM_ADAPTER_REJECTED".
Definition InvocationFailed : jstr := js "WASM_INVOCATION_FAILED".
Definition GuestFailed : jstr := js "WASM_GUEST_FAILED".
Definition CapabilityDenied : jstr := js "WASM_CAPABILITY_DENIED".

(** The values of the table, in its order. *)
Definition all : list jstr :=
  [ManifestInvalid; IntegrityFailed; Incompatible; CodecInvalid; Closed; Cancelled;
   DeadlineExceeded; PoolUnavailable; AdapterRejected; InvocationFailed; GuestFailed;
   CapabilityDenied].
End WasmErrorCode.

Inductive WasmErrorStage :=
  | StManifest | StIntegrity | StCompatibility | StCodec | StLifecycle
  | StPool | StAdapter | StInvoke | StGuest | StCapability.

#[export] Instance stage_eq_dec : EqDecision WasmErrorStage.
Proof. solve_decision. Defined.

(** The classes of the module; the constructors write the class name into [name]. *)
Inductive WasmErrorName :=
  | WasmRuntimeErrorN | WasmManifestErrorN | WasmIntegrityErrorN | WasmCompatibilityErrorN
  | WasmCodecErrorN | WasmClosedErrorN | WasmCancelledErrorN | WasmDeadlineExceededErrorN
  | WasmPoolErrorN | WasmAdapterErrorN | WasmInvocationErrorN | WasmCapabilityDeniedErrorN
  | WasmGuestErrorN.

#[export] Instance error_name_eq_dec : EqDecision WasmErrorName.
Proof. solve_decision. Defined.

Record WasmRuntimeError := {
  e_name : WasmErrorName;
  e_code : jstr;
  e_stage : WasmErrorStage;
  e_message : jstr;
  e_retryable : bool;
  e_field : option jstr;       (* WasmGuestError.field *)
  e_capability : option jstr;  (* WasmCapabilityDeniedError.capability *)
}.

#[export] Instance wasm_error_eq_dec : EqDecision WasmRuntimeError.
Proof. solve_decision. Defined.

(** The base constructor; [options.retryable ?? false]. *)
Definition wasmRuntimeError (name : WasmErrorName) (code : jstr) (stage : WasmErrorStage)
    (message : jstr) (retryable : option bool) : WasmRuntimeError :=
  {| e_name := name; e_code := code; e_stage := stage; e_message := message;
     e_retryable := default false retryable; e_field := None; e_capability := None |}.

Definition wasmManifestError (m : jstr) : WasmRuntimeError :=
  wasmRuntimeError WasmManifestErrorN WasmErrorCode.ManifestInvalid StManifest m None.
Definition wasmIntegrityError (m : jstr) : WasmRuntimeError :=
  wasmRuntimeError WasmIntegrityErrorN WasmErrorCode.IntegrityFailed StIntegrity m None.
Definition wasmCompatibilityError (m : jstr) : WasmRuntimeError :=
  wasmRuntimeError WasmCompatibilityErrorN WasmErrorCode.Incompatible StCompatibility m None.
Definition wasmCodecError (m : jstr) : WasmRuntimeError :=
  wasmRuntimeError WasmCodecErrorN WasmErrorCode.CodecInvalid StCodec m None.
Definition closed_message : jstr := js "the GoForge component runtime is closed".
Definition wasmClosedError (m : option jstr) : WasmRuntimeError :=
  wasmRuntimeError WasmClosedErrorN WasmErrorCode.Closed StLifecycle (default closed_message m) None.
Definition wasmCancelledError : WasmRuntimeError :=
  wasmRuntimeError WasmCancelledErrorN WasmErrorCode.Cancelled StLifecycle
    (js "the GoForge component call was cancelled") None.
Definition wasmDeadlineExceededError : WasmRuntimeError :=
  wasmRuntimeError WasmDeadlineExceededErrorN WasmErrorCode.DeadlineExceeded StLifecycle
    (js "the GoForge component call exceeded its deadline") None.
Definition wasmPoolError (m : jstr) (retryable : option bool) : WasmRuntimeError :=
  wasmRuntimeError WasmPoolErrorN WasmErrorCode.PoolUnavailable StPool m retryable.
Definition wasmAdapterError (m : jstr) (retryable : option bool) : WasmRuntimeError :=
  wasmRuntimeError WasmAdapterErrorN WasmErrorCode.AdapterRejected StAdapter m retryable.
Definition wasmInvocationError (m : jstr) (retryable : option bool) : WasmRuntimeError :=
  wasmRuntimeError WasmInvocationErrorN WasmErrorCode.InvocationFailed StInvoke m retryable.

Definition wasmCapabilityDeniedError (capability : jstr) : WasmRuntimeError :=
  {| e_name := WasmCapabilityDeniedErrorN; e_code := WasmErrorCode.CapabilityDenied;
     e_stage := StCapability;
     e_message := js "the GoForge component host denies the " ++ capability ++ js " capability";
     e_retryable := false; e_field := None; e_capability := Some capability |}.

(** [code || WasmErrorCode.GuestFailed]: an empty code is replaced. *)
Definition wasmGuestError (code message : jstr) (field : option jstr) (retryable : option bool)
    : WasmRuntimeError :=
  {| e_name := WasmGuestErrorN;
     e_code := match code with [] => WasmErrorCode.GuestFailed | _ => code end;
     e_stage := StGuest; e_message := message; e_retryable := default false retryable;
     e_field := field; e_capability := None |}.

(** ** wasm/contracts.ts *)

Definition GOFORGE_ABI_V1 : jstr := js "goforge.abi.v1".
Definition GOFORGE_PORTABLE_PACKAGE : jstr := js "pointerbyte:goforge".
Definition GOFORGE_PORTABLE_VERSION : jstr := js "0.1.0".
Definition GOFORGE_PORTABLE_MANIFEST_SCHEMA_V1 : jstr := js "goforge.manifest.v1".
Definition GOFORGE_BUNDLE_MANIFEST_SCHEMA_V1 : jstr := js "goforge.bundle-manifest.v1".

Definition GOFORGE_ABI_V1_OPERATIONS : list jstr :=
  map js ["text.normalize"; "text.validate"; "crypto.sha256"; "crypto.hmac-sha256";
          "crypto.aes-gcm.encrypt"; "crypto.aes-gcm.decrypt"; "encoding.base64.encode";
          "encoding.base64.decode"]%string.

Definition GOFORGE_ABI_V1_OPERATION_CAPABILITIES : list (jstr * jstr) :=
  [(js "text.normalize", js "portable.normalize");
   (js "text.validate", js "portable.validate");
   (js "crypto.sha256", js "crypto.sha256");
   (js "crypto.hmac-sha256", js "crypto.hmac-sha256");
   (js "crypto.aes-gcm.encrypt", js "crypto.aes-gcm");
   (js "crypto.aes-gcm.decrypt", js "crypto.aes-gcm");
   (js "encoding.base64.encode", js "encoding.base64");
   (js "encoding.base64.decode", js "encoding.base64")].

Record WasmArtifactDescriptor := { d_path : jstr; d_sha256 : jstr }.

Record WasmOperationContract := {
  oc_capability : jstr;
  oc_retrySafe : bool;
  oc_securitySensitive : bool;
  oc_nativeAdapters : option (list jstr);
}.

Record WasmBundleManifestV1 := {
  m_schema : jstr;
  m_abi : jstr;
  m_componentVersion : jstr;
  m_witPackage : jstr;
  m_source : WasmArtifactDescriptor;
  m_glue : WasmArtifactDescriptor;
  m_coreModules : list (jstr * WasmArtifactDescriptor);
  m_capabilities : list jstr;
  m_operations : list (jstr * WasmOperationContract);
}.

Record WasmCompatibility := {
  wc_componentVersion : jstr;
  wc_witPackage : jstr;
  wc_abi : option jstr;
  wc_bundleSchema : option jstr;
  wc_abiVersion : option jstr;
  wc_schemaVersion : option jstr;
}.

Record WasmBundleLocator := { l_manifestPath : jstr; l_manifestSha256 : jstr }.

Record VerifiedWasmBundle := {
  vb_manifest : WasmBundleManifestV1;
  vb_manifestBytes : list N;
  vb_sourceBytes : list N;
  vb_glueBytes : list N;
  vb_coreModuleBytes : list (jstr * list N);
}.

Record AbiRequestMetadataV1 := {
  md_deadline_unix_ms : option dbl;
  md_cancellation_token : option jstr;
  md_required_capabilities : option (list jstr);
}.

Record AbiRequestV1 := {
  rq_id : jstr;
  rq_operation : jstr;
  rq_metadata : option AbiRequestMetadataV1;
  rq_payload : jsval;
}.

Record AbiExecutionStateV1 := {
  es_clockChecked : bool;
  es_nowUnixMilliseconds : dbl;
  es_cancellationChecked : bool;
  es_cancellationToken : jstr;
  es_cancellationRequested : bool;
}.

(** [None] is [undefined], which only an inherited catalog entry gives. *)
Record AbiErrorV1 := {
  ae_code : jstr; ae_message : option jstr; ae_retryable : option bool; ae_field : option jstr;
}.

(** Both variants carry the ABI discriminator, which the code always writes as
    [GOFORGE_ABI_V1]. *)
Inductive AbiResponseV1 :=
  | AbiSuccess (id : jstr) (result : jsval)
  | AbiFailure (id : jstr) (error : AbiErrorV1).

Inductive WasmExecutionTarget :=
  | TComponent
  | TNative (adapter : jstr).

Record WasmRetryPolicy := {
  rp_maxAttempts : dbl;
  rp_initialDelayMs : dbl;
  rp_maxDelayMs : dbl;
  rp_transientCodes : list jstr;
}.

Inductive WasmRuntimeState := RIdle | RLoading | RReady | RDegraded | RClosing | RClosed.

#[export] Instance runtime_state_eq_dec : EqDecision WasmRuntimeState.
Proof. solve_decision. Defined.

Inductive WasmEventType :=
  | LoadStart | LoadSuccess | LoadFailure | CallQueued | CallStart | CallSuccess
  | CallFailure | CallRetry | RuntimeClose.

#[export] Instance event_type_eq_dec : EqDecision WasmEventType.
Proof. solve_decision. Defined.

(** Every canonical operation has a capability, and every entry of the table is an
    operation. *)
Lemma operations_capabilities : map fst GOFORGE_ABI_V1_OPERATION_CAPABILITIES = GOFORGE_ABI_V1_OPERATIONS.
Proof. reflexivity. Qed.

Lemma error_codes_distinct : NoDup WasmErrorCode.all.
Proof. apply (bool_decide_unpack _). vm_compute. exact I. Qed.
