(* ===== verification/Codec.v ===== *)
(** * wasm/codec.ts: the strict JSON codec of ABI v1

    An [unknown] argument is a value of [uval]; its objects live in a heap, so they can be
    shared and cyclic, and [copyAbiValue] returns a detached tree of [jsval].  The scanner
    [assertUniqueAbiJsonObjectFields] works on the part of the text that is left; its loops
    carry fuel, and [scan_total] shows that the fuel given is enough.  The Base64 package
    is the class [Base64]. *)

From S2P Require Export JsonText WasmContracts Regex Encoding.
Local Open Scope nat_scope.

(** ** Values and objects *)

Inductive uval : Type :=
  | UUndef | UNull
  | UBool (b : bool) | UNum (d : dbl) | UStr (s : jstr)
  | UFun | USymbol | UBigInt
  | URef (l : nat).

#[export] Instance uval_eq_dec : EqDecision uval.
Proof. solve_decision. Defined.

Inductive binary_kind := BUint8Array | BArrayBuffer | BView.

(** [ORec np o] is a record with prototype [null] when [np], else [Object.prototype];
    [OInst] is an object with another prototype. *)
Inductive uobj : Type :=
  | OArr (l : list uval)
  | ORec (null_proto : bool) (o : list (jstr * uval))
  | OBin (k : binary_kind) (bytes : list N)
  | OInst (o : list (jstr * uval)).

Notation heap := (list uobj).

(** What a call throws: an error of the runtime, or one of the language's own. *)
Inductive exn : Type :=
  | XWasm (e : WasmRuntimeError)
  | XSyntaxError
  | XTypeError
  | XRangeError
  | XFuel.

Definition codec_err {A} (m : jstr) : res exn A := Err (XWasm (wasmCodecError m)).

(** [o[k]] on a record. *)
Definition u_get (np : bool) (o : list (jstr * uval)) (k : jstr) : uval :=
  match own_get k o with
  | Some v => v
  | None => if negb np && bool_decide (k ∈ object_prototype) then UFun else UUndef
  end.

(** [k in o]. *)
Definition u_in (np : bool) (o : list (jstr * uval)) (k : jstr) : bool :=
  bool_decide (k ∈ keys o) || (negb np && bool_decide (k ∈ object_prototype)).

(** [v === s] for a string, [v === b] for a boolean. *)
Definition is_str (v : uval) (s : jstr) : bool := bool_decide (v = UStr s).
Definition is_bool (v : uval) (b : bool) : bool := bool_decide (v = UBool b).

(** [JSON.stringify(v)] on the heap, for the error messages: a reference cycle and a
    bigint throw a TypeError.  A path without repetition has at most [length h] objects. *)
Fixpoint u_tree (fuel : nat) (h : heap) (v : uval) : res exn jsval :=
  match v with
  | UUndef | UFun | USymbol => Ok VUndef
  | UNull => Ok VNull
  | UBool b => Ok (VBool b)
  | UNum d => Ok (VNum d)
  | UStr s => Ok (VStr s)
  | UBigInt => Err XTypeError
  | URef l =>
      match fuel with
      | O => Err XTypeError
      | S fuel =>
          match h !! l with
          | Some (OArr us) => let* ts := mapM_res (u_tree fuel h) us in Ok (VArr ts)
          | Some (ORec _ o) | Some (OInst o) =>
              let* ts := mapM_res (λ p, let* t := u_tree fuel h p.2 in Ok (p.1, t)) o in Ok (VObj ts)
          | Some (OBin BUint8Array bytes) =>
              Ok (VObj (imap (λ i b, (nat_to_string (N.of_nat i), VNum (dbl_of_Z (Z.of_N b)))) bytes))
          | Some (OBin _ _) => Ok (VObj [])
          | None => Ok VUndef
          end
      end
  end.

Definition u_stringify (h : heap) (v : uval) : res exn (option jstr) :=
  let* t := u_tree (S (length h)) h v in Ok (json_stringify t).

(** [`${JSON.stringify(v)}`]. *)
Definition u_show (h : heap) (v : uval) : res exn jstr :=
  let* s := u_stringify h v in Ok (default (js "undefined") s).

(** The objects [JSON.parse] creates for a value. *)
Fixpoint alloc (v : jsval) (h : heap) : heap * uval :=
  let refs l h := foldl (λ (p : heap * list uval) (f : heap → heap * uval),
                           let '(h, u) := f p.1 in (h, p.2 ++ [u])) (h, []) l in
  match v with
  | VUndef => (h, UUndef)
  | VNull => (h, UNull)
  | VBool b => (h, UBool b)
  | VNum d => (h, UNum d)
  | VStr s => (h, UStr s)
  | VFun _ => (h, UFun)
  | VArr l =>
      let '(h, us) := refs (map alloc l) h in (h ++ [OArr us], URef (length h))
  | VObj o =>
      let '(h, us) := refs (map (λ p, alloc p.2) o) h in
      (h ++ [ORec false (zip (map fst o) us)], URef (length h))
  end.

(** ** Limits and tables *)

Definition MAX_REQUEST_BYTES : N := 2 ^ 20.
Definition MAX_RESPONSE_BYTES : N := 2 ^ 20.
Definition MAX_BINARY_BYTES : N := 512 * 2 ^ 10.
Definition MAX_ID_BYTES : N := 128.
Definition MAX_CANCELLATION_TOKEN_BYTES : N := 256.
Definition MAX_REQUIRED_CAPABILITIES : nat := 32.
Definition MAX_JSON_DEPTH : nat := 32.

Local Open Scope regex_scope.
Definition capabilityPattern : regex :=
  RPlus (RClass (λ c, is_lower c || is_digit c || (c =? 46)%N || (c =? 45)%N)).
Definition errorCodePattern : regex :=
  r_lower ⋅ r_lower_digit^* ⋅ (RChar 95 ⋅ RPlus r_lower_digit)^*.
Definition base64_char (c : N) : bool := is_alnum c || (c =? 43)%N || (c =? 47)%N.
Definition base64Pattern : regex :=
  (RRep 4 (RClass base64_char))^* ⋅
  ROpt ((RRep 2 (RClass base64_char) ⋅ RLit "==") ⊕ (RRep 3 (RClass base64_char) ⋅ RLit "=")).
Local Close Scope regex_scope.

Definition GOFORGE_ABI_V1_ERROR_CODES : list jstr :=
  map js ["invalid_json"; "unknown_field"; "duplicate_field"; "request_too_large";
          "response_too_large"; "invalid_abi"; "invalid_request"; "unknown_operation";
          "capability_unavailable"; "execution_state_required"; "deadline_exceeded";
          "cancellation_requested"; "invalid_base64"; "invalid_utf8"; "input_too_large";
          "invalid_key"; "invalid_nonce"; "authentication_failed"; "internal"]%string.

Record GoforgeAbiErrorDefinitionV1 := { def_message : jstr; def_retryable : bool }.

Definition define (code message : string) (retryable : bool) : jstr * GoforgeAbiErrorDefinitionV1 :=
  (js code, {| def_message := js message; def_retryable := retryable |}).

Definition GOFORGE_ABI_ERROR_CATALOG : list (jstr * GoforgeAbiErrorDefinitionV1) :=
  [define "invalid_json" "JSON is malformed or not canonical ABI input" false;
   define "unknown_field" "JSON contains an unknown field" false;
   define "duplicate_field" "JSON contains a duplicate object field" false;
   define "request_too_large" "request exceeds the configured byte limit" false;
   define "response_too_large" "response exceeds the configured byte limit" false;
   define "invalid_abi" "request ABI version is unsupported" false;
   define "invalid_request" "request does not satisfy the ABI contract" false;
   define "unknown_operation" "operation is unsupported" false;
   define "capability_unavailable" "required capability is unavailable" false;
   define "execution_state_required" "host did not provide checked execution state" false;
   define "deadline_exceeded" "request deadline has been exceeded" true;
   define "cancellation_requested" "request cancellation was requested" false;
   define "invalid_base64" "value is not canonical standard padded Base64" false;
   define "invalid_utf8" "value is not valid UTF-8" false;
   define "input_too_large" "operation input exceeds the configured byte limit" false;
   define "invalid_key" "cryptographic key has an invalid length" false;
   define "invalid_nonce" "AES-GCM nonce must be exactly 12 bytes" false;
   define "authentication_failed" "AES-GCM authentication failed" false;
   define "internal" "portable operation failed without a safe public detail" false].

(** [GOFORGE_ABI_ERROR_CATALOG[code]]: the message and the flag of the entry.  An inherited
    name finds a function of [Object.prototype], whose [message] and [retryable] are
    undefined. *)
Definition catalog (code : jstr) : option (option jstr * option bool) :=
  match own_get code GOFORGE_ABI_ERROR_CATALOG with
  | Some d => Some (Some (def_message d), Some (def_retryable d))
  | None => if bool_decide (code ∈ object_prototype) then Some (None, None) else None
  end.

(** ** Guards *)

Definition utf8_length (s : jstr) : N := N.of_nat (length (utf8_encode s)).

(** [/\p{Cc}/u.test(s)]. *)
Definition has_control (s : jstr) : bool := existsb is_control s.

Definition bounded_text (max : N) (v : uval) : option jstr :=
  match v with
  | UStr s => if bool_decide (s = []) || (max <? utf8_length s)%N || has_control s then None else Some s
  | _ => None
  end.

Definition assertIdentifier (v : uval) (path : jstr) : res exn jstr :=
  match bounded_text MAX_ID_BYTES v with
  | Some s => Ok s
  | None => codec_err (path ++ js " must be a non-empty control-free UTF-8 string of at most 128 bytes")
  end.

Definition assertToken (v : uval) : res exn jstr :=
  match bounded_text MAX_CANCELLATION_TOKEN_BYTES v with
  | Some s => Ok s
  | None => codec_err (js "metadata.cancellation_token is invalid")
  end.

Definition assertErrorField (v : uval) : res exn jstr :=
  match bounded_text 512 v with
  | Some s => Ok s
  | None => codec_err (js "response.error.field is invalid")
  end.

(** The record a reference names, with its prototype flag. *)
Definition requireRecord (h : heap) (v : uval) (path : jstr) : res exn (bool * list (jstr * uval)) :=
  match v with
  | URef l =>
      match h !! l with
      | Some (ORec np o) => Ok (np, o)
      | Some (OBin _ _) | Some (OInst _) => codec_err (path ++ js " must be a plain object")
      | _ => codec_err (path ++ js " must be an object")
      end
  | _ => codec_err (path ++ js " must be an object")
  end.

Definition requireExactKeys (o : list (jstr * uval)) (expected : list jstr) (path : jstr)
    : res exn unit :=
  let actual := sort_strings (keys o) in
  let wanted := sort_strings expected in
  if bool_decide (actual = wanted) then Ok tt
  else codec_err (path ++ js " has unsupported or missing fields").

(** ** Copying a value *)

Definition reserved_key (k : jstr) : bool :=
  bool_decide (k ∈ [js "__proto__"; js "constructor"; js "prototype"]).

Definition index_path (path : jstr) (i : nat) : jstr :=
  path ++ js "[" ++ nat_to_string (N.of_nat i) ++ js "]".
Definition member_path (path key : jstr) : jstr := path ++ js "." ++ key.

(** [copyAbiValue(value, seen, path, depth)] with [room = MAX_JSON_DEPTH + 1 - depth]:
    the depth check fails exactly when no room is left. *)
Fixpoint copyAbiValue (room : nat) (h : heap) (seen : list nat) (path : jstr) (v : uval)
    : res exn jsval :=
  match room with
  | O => codec_err (js "ABI data exceeds maximum nesting depth 32")
  | S room =>
      match v with
      | UNull => Ok VNull
      | UStr s => Ok (VStr s)
      | UBool b => Ok (VBool b)
      | UNum d =>
          if isFinite d then Ok (VNum d) else codec_err (path ++ js " is not a finite number")
      | UUndef => codec_err (path ++ js " contains unsupported undefined data")
      | UFun => codec_err (path ++ js " contains unsupported function data")
      | USymbol => codec_err (path ++ js " contains unsupported symbol data")
      | UBigInt => codec_err (path ++ js " contains unsupported bigint data")
      | URef l =>
          match h !! l with
          | Some (OBin _ _) =>
              codec_err (path ++ js " contains binary data; encode its contract field as Base64")
          | Some ob =>
              if bool_decide (l ∈ seen) then codec_err (path ++ js " contains a reference cycle")
              else
                match ob with
                | OArr us =>
                    let* ts := mapM_res (λ '(i, u), copyAbiValue room h (l :: seen) (index_path path i) u)
                                 (imap pair us) in
                    Ok (VArr ts)
                | ORec _ o =>
                    let* ts := foldM_res (λ acc '(k, u),
                                 if reserved_key k then codec_err (path ++ js " contains a reserved object key")
                                 else let* t := copyAbiValue room h (l :: seen) (member_path path k) u in
                                      Ok (obj_set k t acc)) [] o in
                    Ok (VObj ts)
                | _ => codec_err (path ++ js " must contain only plain records")
                end
          | None => codec_err (path ++ js " contains unsupported undefined data")
          end
      end
  end.

Definition encodeAbiValue (h : heap) (v : uval) : res exn jsval :=
  copyAbiValue (S MAX_JSON_DEPTH) h [] (js "$") v.
Definition decodeAbiValue (h : heap) (v : uval) : res exn jsval :=
  copyAbiValue (S MAX_JSON_DEPTH) h [] (js "$") v.

(** ** Requests *)

(** [new Set([...Object.values(CAPABILITIES), "control.deadline", "control.cancellation"])]. *)
Definition known_capabilities : list jstr :=
  map snd GOFORGE_ABI_V1_OPERATION_CAPABILITIES ++ [js "control.deadline"; js "control.cancellation"].

Definition check_capability (seen : list jstr) (v : uval) : res exn (list jstr) :=
  match v with
  | UStr c =>
      if negb (matches capabilityPattern c) || bool_decide (c ∈ seen)
      then codec_err (js "metadata.required_capabilities is invalid or duplicated")
      else if negb (bool_decide (c ∈ known_capabilities))
      then codec_err (js "required capability " ++ json_quote c ++ js " is unavailable")
      else Ok (seen ++ [c])
  | _ => codec_err (js "metadata.required_capabilities is invalid or duplicated")
  end.

Definition metadata_fields : list jstr :=
  map js ["deadline_unix_ms"; "cancellation_token"; "required_capabilities"]%string.

Definition metadata_deadline (v : uval) : res exn (option dbl) :=
  match v with
  | UUndef => Ok None
  | UNum d => if isSafeInteger d && num_ltb (S754_zero false) d then Ok (Some d)
              else codec_err (js "metadata.deadline_unix_ms must be a positive safe integer")
  | _ => codec_err (js "metadata.deadline_unix_ms must be a positive safe integer")
  end.

Definition metadata_token (v : uval) : res exn (option jstr) :=
  match v with
  | UUndef => Ok None
  | _ => let* s := assertToken v in Ok (Some s)
  end.

Definition metadata_capabilities (h : heap) (v : uval) : res exn (option (list jstr)) :=
  let limit := codec_err (js "metadata.required_capabilities exceeds the ABI limit") in
  match v with
  | UUndef => Ok None
  | URef l =>
      match h !! l with
      | Some (OArr us) =>
          if MAX_REQUIRED_CAPABILITIES <? length us then limit
          else let* cs := foldM_res check_capability [] us in Ok (Some cs)
      | _ => limit
      end
  | _ => limit
  end.

Definition normalizeMetadata (h : heap) (v : uval) : res exn AbiRequestMetadataV1 :=
  let* (np, o) := requireRecord h v (js "metadata") in
  let* _ := mapM_res (λ k, if bool_decide (k ∈ metadata_fields) then Ok tt
                           else codec_err (js "metadata contains unknown field " ++ k)) (keys o) in
  let* d := metadata_deadline (u_get np o (js "deadline_unix_ms")) in
  let* t := metadata_token (u_get np o (js "cancellation_token")) in
  let* c := metadata_capabilities h (u_get np o (js "required_capabilities")) in
  Ok {| md_deadline_unix_ms := d; md_cancellation_token := t; md_required_capabilities := c |}.

(** The fields that are present, in the order the code assigns them. *)
Definition metadata_json (m : AbiRequestMetadataV1) : jsval :=
  VObj (match md_deadline_unix_ms m with Some d => [(js "deadline_unix_ms", VNum d)] | None => [] end
        ++ match md_cancellation_token m with Some t => [(js "cancellation_token", VStr t)] | None => [] end
        ++ match md_required_capabilities m with
           | Some cs => [(js "required_capabilities", VArr (map VStr cs))]
           | None => []
           end).

Definition operation_known (op : jstr) : bool := bool_decide (op ∈ GOFORGE_ABI_V1_OPERATIONS).

(** [metadata] is [None] when the argument is undefined. *)
Definition createAbiRequest (h : heap) (id operation : jstr) (payload : uval) (metadata : option uval)
    : res exn AbiRequestV1 :=
  let* _ := assertIdentifier (UStr id) (js "id") in
  if negb (operation_known operation)
  then codec_err (js "unsupported ABI operation " ++ json_quote operation)
  else
    let* md := match metadata with
               | None => Ok None
               | Some m => let* md := normalizeMetadata h m in Ok (Some md)
               end in
    let* p := encodeAbiValue h payload in
    Ok {| rq_id := id; rq_operation := operation; rq_metadata := md; rq_payload := p |}.

(** The request object, with the field order of Go's struct. *)
Definition request_json (r : AbiRequestV1) : jsval :=
  VObj ([(js "abi", VStr GOFORGE_ABI_V1); (js "id", VStr (rq_id r));
         (js "operation", VStr (rq_operation r))]
        ++ match rq_metadata r with Some m => [(js "metadata", metadata_json m)] | None => [] end
        ++ [(js "payload", rq_payload r)]).

Definition validateRequestEnvelope (h : heap) (request : uval) : res exn unit :=
  let* (np, o) := requireRecord h request (js "request") in
  let metadata := u_get np o (js "metadata") in
  let expected := map js (if bool_decide (metadata = UUndef)
                          then ["abi"; "id"; "operation"; "payload"]
                          else ["abi"; "id"; "operation"; "metadata"; "payload"])%string in
  let* _ := requireExactKeys o expected (js "request") in
  if negb (is_str (u_get np o (js "abi")) GOFORGE_ABI_V1)
  then codec_err (js "request ABI is unsupported")
  else
    let* _ := assertIdentifier (u_get np o (js "id")) (js "id") in
    if negb (match u_get np o (js "operation") with UStr op => operation_known op | _ => false end)
    then codec_err (js "request operation is unsupported")
    else
      let* _ := (if bool_decide (metadata = UUndef) then Ok tt
                 else let* _ := normalizeMetadata h metadata in Ok tt) in
      let* _ := encodeAbiValue h (u_get np o (js "payload")) in
      Ok tt.

Definition serializeAbiRequest (h : heap) (request : uval) : res exn jstr :=
  let* _ := validateRequestEnvelope h request in
  let* json := u_show h request in
  if (MAX_REQUEST_BYTES <? utf8_length json)%N
  then codec_err (js "request exceeds the ABI byte limit")
  else Ok json.

(** ** Responses *)

Definition createAbiSuccessResponse (h : heap) (id : jstr) (result : uval) : res exn AbiResponseV1 :=
  let* _ := assertIdentifier (UStr id) (js "id") in
  let* r := encodeAbiValue h result in
  Ok (AbiSuccess id r).

(** The argument [error] of [createAbiFailureResponse]. *)
Record failure_input := {
  fi_code : jstr; fi_field : option jstr; fi_message : option jstr; fi_retryable : option bool;
}.

Definition createAbiFailureResponse (id : jstr) (e : failure_input) : res exn AbiResponseV1 :=
  let* _ := assertIdentifier (UStr id) (js "id") in
  match catalog (fi_code e) with
  | None => codec_err (js "unknown ABI error code " ++ json_quote (fi_code e))
  | Some (message, retryable) =>
      if match fi_message e with Some m => negb (bool_decide (Some m = message)) | None => false end
      then codec_err (js "ABI error message does not match the GoForge v1 catalog")
      else if match fi_retryable e with Some r => negb (bool_decide (Some r = retryable)) | None => false end
      then codec_err (js "ABI error retryability does not match the GoForge v1 catalog")
      else
        let* field := match fi_field e with
                      | None => Ok None
                      | Some f => let* f := assertErrorField (UStr f) in Ok (Some f)
                      end in
        Ok (AbiFailure id {| ae_code := fi_code e; ae_message := message; ae_retryable := retryable;
                             ae_field := field |})
  end.

(** [v !== x] where [x] is a string or undefined, a boolean or undefined. *)
Definition same_str (v : uval) (x : option jstr) : bool :=
  bool_decide (v = match x with Some s => UStr s | None => UUndef end).
Definition same_bool (v : uval) (x : option bool) : bool :=
  bool_decide (v = match x with Some b => UBool b | None => UUndef end).

Definition validateAbiFailure (h : heap) (np : bool) (o : list (jstr * uval)) (id : jstr)
    : res exn AbiResponseV1 :=
  let* (enp, e) := requireRecord h (u_get np o (js "error")) (js "response.error") in
  let has_field := u_in enp e (js "field") in
  let allowed := map js ["code"; "message"; "retryable"]%string
                 ++ (if has_field then [js "field"] else []) in
  let* _ := requireExactKeys e allowed (js "response.error") in
  let bad_code := codec_err (js "response.error.code must be lowercase snake_case") in
  match u_get enp e (js "code") with
  | UStr code =>
      if negb (matches errorCodePattern code) then bad_code
      else
        match catalog code with
        | None => codec_err (js "response.error.code " ++ code ++ js " is not in ABI v1")
        | Some (message, retryable) =>
            if negb (same_str (u_get enp e (js "message")) message)
            then codec_err (js "response.error.message does not match the ABI v1 catalog")
            else if negb (same_bool (u_get enp e (js "retryable")) retryable)
            then codec_err (js "response.error.retryable does not match the ABI v1 catalog")
            else
              let* field := (if has_field
                             then let* f := assertErrorField (u_get enp e (js "field")) in Ok (Some f)
                             else Ok None) in
              Ok (AbiFailure id {| ae_code := code; ae_message := message;
                                   ae_retryable := retryable; ae_field := field |})
        end
  | _ => bad_code
  end.

Definition validateAbiResponse (h : heap) (value : uval) (expectedId : jstr) : res exn AbiResponseV1 :=
  let* _ := assertIdentifier (UStr expectedId) (js "id") in
  let* (np, o) := requireRecord h value (js "response") in
  let ok := u_get np o (js "ok") in
  let* _ := requireExactKeys o
              (map js (if is_bool ok true then ["abi"; "id"; "ok"; "result"]
                       else ["abi"; "id"; "ok"; "error"])%string) (js "response") in
  if negb (is_str (u_get np o (js "abi")) GOFORGE_ABI_V1)
  then let* shown := u_show h (u_get np o (js "abi")) in
       codec_err (js "unsupported response ABI " ++ shown)
  else if negb (is_str (u_get np o (js "id")) expectedId)
  then codec_err (js "component response id does not match the request")
  else if is_bool ok true
  then let* r := encodeAbiValue h (u_get np o (js "result")) in Ok (AbiSuccess expectedId r)
  else if negb (is_bool ok false)
  then codec_err (js "response.ok must be a boolean discriminator")
  else validateAbiFailure h np o expectedId.

(** ** The duplicate-field scanner *)

(** The rest after the closing quote of a string token, from after its opening quote. *)
Fixpoint string_end (s : jstr) : option jstr :=
  match s with
  | [] => None
  | c :: s' =>
      if (c =? 92)%N then match s' with [] => None | _ :: s'' => string_end s'' end
      else if (c =? 34)%N then Some s'
      else string_end s'
  end.

(** [stringToken()]: the key and the rest.  The token ends with a quote, so a text that
    [JSON.parse] accepts is a string. *)
Definition stringToken (s : jstr) : res exn (jstr * jstr) :=
  match string_end (drop 1 s) with
  | None => codec_err (js "component response contains an unterminated string")
  | Some rest =>
      match json_parse (take (length s - length rest) s) with
      | Some (VStr key) => Ok (key, rest)
      | _ => Err XSyntaxError
      end
  end.

(** [[\s,}\]]]. *)
Definition ends_literal (c : N) : bool := is_space c || (c =? 44)%N || (c =? 125)%N || (c =? 93)%N.

Fixpoint skip_literal (s : jstr) : jstr :=
  match s with
  | [] => []
  | c :: s' => if ends_literal c then s else skip_literal s'
  end.

(** [value(depth)] and the loops of [object] and [array], on the text that is left. *)
Fixpoint scan_value (fuel depth : nat) (s : jstr) : res exn jstr :=
  match fuel with
  | O => Err XFuel
  | S fuel =>
      if MAX_JSON_DEPTH <? depth then codec_err (js "response exceeds maximum JSON depth 32")
      else
        match skip_space s with
        | [] => Ok []
        | c :: r =>
            if (c =? 123)%N then
              match skip_space r with
              | [] => Ok []
              | d :: r' => if (d =? 125)%N then Ok r' else scan_members fuel (S depth) [] (d :: r')
              end
            else if (c =? 91)%N then
              match skip_space r with
              | [] => Ok []
              | d :: r' => if (d =? 93)%N then Ok r' else scan_elements fuel (S depth) (d :: r')
              end
            else if (c =? 34)%N then let* (_, rest) := stringToken (c :: r) in Ok rest
            else Ok (skip_literal (c :: r))
        end
  end
with scan_members (fuel depth : nat) (fields : list jstr) (s : jstr) : res exn jstr :=
  match fuel with
  | O => Err XFuel
  | S fuel =>
      if bool_decide (s = []) then Ok []
      else
        let* (key, r) := stringToken (skip_space s) in
        if bool_decide (key ∈ fields)
        then codec_err (js "component response contains a duplicate object field")
        else
          let* r := scan_value fuel depth (drop 1 (skip_space r)) in
          match skip_space r with
          | [] => Ok []
          | d :: r' => if (d =? 125)%N then Ok r' else scan_members fuel depth (key :: fields) r'
          end
  end
with scan_elements (fuel depth : nat) (s : jstr) : res exn jstr :=
  match fuel with
  | O => Err XFuel
  | S fuel =>
      if bool_decide (s = []) then Ok []
      else
        let* r := scan_value fuel depth s in
        match skip_space r with
        | [] => Ok []
        | d :: r' => if (d =? 93)%N then Ok r' else scan_elements fuel depth r'
        end
  end.

Definition assertUniqueAbiJsonObjectFields (json : jstr) : res exn unit :=
  let* _ := scan_value (2 * length json + 2) 0 json in Ok tt.

(** [JSON.parse] and the scanner, with the [catch] that wraps what is not a codec error. *)
Definition parseAbiResponse (json expectedId : jstr) : res exn AbiResponseV1 :=
  if (MAX_RESPONSE_BYTES <? utf8_length json)%N
  then codec_err (js "component response exceeds the ABI byte limit")
  else
    let invalid := codec_err (js "component response is not valid JSON") in
    match json_parse json with
    | None => invalid
    | Some v =>
        match assertUniqueAbiJsonObjectFields json with
        | Ok _ => let '(h, u) := alloc v [] in validateAbiResponse h u expectedId
        | Err (XWasm e) => Err (XWasm e)
        | Err _ => invalid
        end
    end.

(** ** Base64 *)

Section base64.
Context `{Base64}.

Definition encodeAbiBase64 (h : heap) (v : uval) : res exn jstr :=
  match v with
  | URef l =>
      match h !! l with
      | Some (OBin _ bytes) =>
          if (MAX_BINARY_BYTES <? N.of_nat (length bytes))%N
          then codec_err (js "Base64 input exceeds the ABI binary limit")
          else Ok (encodeBase64 bytes)
      | _ => codec_err (js "Base64 input must be an ArrayBuffer or typed-array view")
      end
  | _ => codec_err (js "Base64 input must be an ArrayBuffer or typed-array view")
  end.

Definition assertCanonicalBase64 (value path : jstr) : res exn unit :=
  if negb (length value mod 4 =? 0) || negb (matches base64Pattern value)
  then codec_err (path ++ js " is not canonical RFC 4648 padded Base64")
  else
    match decodeBase64 value with
    | Some decoded =>
        if bool_decide (encodeBase64 decoded = value) then Ok tt
        else codec_err (path ++ js " is invalid Base64")
    | None => codec_err (path ++ js " is invalid Base64")
    end.

Definition decodeAbiBase64 (value : jstr) : res exn (list N) :=
  let* _ := assertCanonicalBase64 value (js "Base64 value") in
  match decodeBase64 value with
  | Some bytes =>
      if (MAX_BINARY_BYTES <? N.of_nat (length bytes))%N
      then codec_err (js "Base64 value exceeds the ABI binary limit")
      else Ok bytes
  | None => Err XTypeError
  end.
End base64.

(** ** The scanner: termination *)

Lemma string_end_length s r : string_end s = Some r → length r < length s.
Proof.
  assert (H : ∀ n s r, length s ≤ n → string_end s = Some r → length r < length s).
  { clear. induction n as [|n IH]; intros [|c s] r Hn; simpl; try (simpl in Hn; lia); try done.
    destruct (c =? 92)%N.
    - destruct s as [|d s]; [done|]. intros Hr. apply IH in Hr; simpl in *; lia.
    - destruct (c =? 34)%N; [intros [= <-]; lia|]. intros Hr. apply IH in Hr; simpl in *; lia. }
  by apply (H (length s)).
Qed.

Lemma stringToken_length s k r : stringToken s = Ok (k, r) → length r < length s.
Proof.
  unfold stringToken. destruct (string_end (drop 1 s)) as [rest|] eqn:E; [|done].
  intros H. assert (r = rest) as -> by (repeat case_match; congruence).
  apply string_end_length in E. rewrite length_drop in E. lia.
Qed.

Lemma stringToken_fuel s : stringToken s ≠ Err XFuel.
Proof. unfold stringToken. by repeat case_match. Qed.

Lemma skip_space_length s : length (skip_space s) ≤ length s.
Proof. induction s as [|c s IH]; simpl; [done|]. destruct (is_json_space c); simpl; lia. Qed.

Lemma skip_literal_length s : length (skip_literal s) ≤ length s.
Proof. induction s as [|c s IH]; simpl; [done|]. destruct (ends_literal c); simpl; lia. Qed.

(** A result with enough fuel: never out of fuel, and the rest is no longer than [n]. *)
Definition settled (n : nat) (x : res exn jstr) : Prop :=
  x ≠ Err XFuel ∧ ∀ r, x = Ok r → length r ≤ n.

Lemma settled_ok n r : length r ≤ n → settled n (Ok r).
Proof. intros H. split; [done|]. by intros ? [= <-]. Qed.
Lemma settled_codec n m : settled n (codec_err m).
Proof. by split. Qed.
Lemma settled_bind {A} n (x : res exn A) k :
  x ≠ Err XFuel → (∀ a, x = Ok a → settled n (k a)) → settled n (rbind x k).
Proof. intros Hx Hk. destruct x as [a|e]; simpl; [by apply Hk|]. split; [congruence | done]. Qed.
Lemma settled_le n m x : settled n x → n ≤ m → settled m x.
Proof. intros [H1 H2] Hle. split; [done|]. intros r Hr. specialize (H2 r Hr). lia. Qed.

Lemma scan_settled fuel :
  (∀ d s, 2 * length s + 2 ≤ fuel → settled (length s) (scan_value fuel d s)) ∧
  (∀ d fs s, 2 * length s + 1 ≤ fuel → settled (length s) (scan_members fuel d fs s)) ∧
  (∀ d s, 2 * length s + 3 ≤ fuel → settled (length s) (scan_elements fuel d s)).
Proof.
  induction fuel as [|fuel (IHv & IHm & IHe)]; [split_and!; intros; lia|]. split_and!.
  - intros d s Hf. cbn [scan_value]. destruct (MAX_JSON_DEPTH <? d); [apply settled_codec|].
    pose proof (skip_space_length s) as Hs.
    destruct (skip_space s) as [|c r]; [apply settled_ok; simpl; lia|]. simpl in Hs.
    pose proof (skip_space_length r) as Hr.
    destruct (c =? 123)%N; [|destruct (c =? 91)%N; [|destruct (c =? 34)%N]].
    + destruct (skip_space r) as [|e r']; [apply settled_ok; simpl; lia|].
      destruct (e =? 125)%N; [apply settled_ok; simpl in *; lia|].
      eapply settled_le; [apply IHm; simpl in *; lia | simpl in *; lia].
    + destruct (skip_space r) as [|e r']; [apply settled_ok; simpl; lia|].
      destruct (e =? 93)%N; [apply settled_ok; simpl in *; lia|].
      eapply settled_le; [apply IHe; simpl in *; lia | simpl in *; lia].
    + apply settled_bind; [apply stringToken_fuel|]. intros [k rest] Hk%stringToken_length.
      apply settled_ok. simpl in *. lia.
    + apply settled_ok. pose proof (skip_literal_length (c :: r)). simpl length in *. lia.
  - intros d fs s Hf. cbn [scan_members]. case_bool_decide; [apply settled_ok; simpl; lia|].
    apply settled_bind; [apply stringToken_fuel|]. intros [k r] Hk%stringToken_length.
    pose proof (skip_space_length s) as Hs. case_bool_decide; [apply settled_codec|].
    pose proof (skip_space_length r) as Hr.
    assert (Hl : length (drop 1 (skip_space r)) ≤ length r) by (rewrite length_drop; lia).
    destruct (IHv d (drop 1 (skip_space r)) ltac:(lia)) as [Hn Hle].
    apply settled_bind; [done|]. intros r2 Hr2. specialize (Hle _ Hr2).
    pose proof (skip_space_length r2) as Hr2'.
    destruct (skip_space r2) as [|e r3]; [apply settled_ok; simpl; lia|].
    destruct (e =? 125)%N; [apply settled_ok; simpl in *; lia|].
    eapply settled_le; [apply IHm; simpl in *; lia | simpl in *; lia].
  - intros d s Hf. cbn [scan_elements]. case_bool_decide; [apply settled_ok; simpl; lia|].
    destruct (IHv d s ltac:(lia)) as [Hn Hle].
    apply settled_bind; [done|]. intros r2 Hr2. specialize (Hle _ Hr2).
    pose proof (skip_space_length r2) as Hr2'.
    destruct (skip_space r2) as [|e r3]; [apply settled_ok; simpl; lia|].
    destruct (e =? 93)%N; [apply settled_ok; simpl in *; lia|].
    eapply settled_le; [apply IHe; simpl in *; lia | simpl in *; lia].
Qed.

(** The scanner ends on every text, JSON or not. *)
Lemma scan_total json : assertUniqueAbiJsonObjectFields json ≠ Err XFuel.
Proof.
  unfold assertUniqueAbiJsonObjectFields.
  destruct (proj1 (scan_settled _) 0 json (le_n _)) as [H _].
  destruct (scan_value _ _ _); [done|]. simpl. congruence.
Qed.

(** ** The scanner on the text of a tree *)

(** No object repeats a member and no value is nested deeper than the limit. *)
Fixpoint lossless (depth : nat) (t : cst) : bool :=
  (depth <=? MAX_JSON_DEPTH) &&
  match t with
  | CLit _ _ _ _ | CStr _ _ _ _ => true
  | CArr _ _ l _ => forallb (lossless (S depth)) l
  | CObj _ _ ms _ =>
      bool_decide (NoDup (map (λ m, k_str m.1) ms)) && forallb (λ m, lossless (S depth) m.2) ms
  end.

(** The call succeeds with [r] when [b], and throws a codec error otherwise. *)
Definition outcome {A} (b : bool) (x : res exn A) (r : A) : Prop :=
  if b then x = Ok r else ∃ m, x = codec_err m.

Lemma outcome_err {A} (r : A) m : outcome false (codec_err m) r.
Proof. by exists m. Qed.

Lemma outcome_bind {A B} b b' (x : res exn A) a (k : A → res exn B) r :
  outcome b x a → (b = true → outcome b' (k a) r) → outcome (b && b') (rbind x k) r.
Proof.
  intros Hx Hk. destruct b; simpl in *; [rewrite Hx; by apply Hk|].
  destruct Hx as [m ->]. by exists m.
Qed.

Lemma string_end_raw raw s r : raw_ok raw s → string_end (raw ++ 34%N :: r) = Some r.
Proof.
  induction 1 as [|c raw s H1 H2 H3 _ IH|e x raw s H1 H2 _ IH|a b c d raw s Ha Hb Hc Hd _ IH]; simpl.
  - done.
  - by replace (c =? 92)%N with false by lia; replace (c =? 34)%N with false by lia.
  - done.
  - assert (Hh : ∀ c, is_hex c = true → (c =? 92)%N = false ∧ (c =? 34)%N = false).
    { intros x. unfold is_hex, is_digit, in_range. lia. }
    destruct (Hh a Ha) as [-> ->], (Hh b Hb) as [-> ->], (Hh c Hc) as [-> ->], (Hh d Hd) as [-> ->].
    done.
Qed.

Lemma stringToken_raw raw s r : raw_ok raw s → stringToken (34%N :: raw ++ 34%N :: r) = Ok (s, r).
Proof.
  intros H. unfold stringToken. simpl drop. rewrite drop_0, (string_end_raw raw s r H).
  replace (take _ _) with (text (CStr [] raw s [])).
  - rewrite json_parse_text; [done| |done]. repeat split; try done; constructor.
  - cbn [text]. unfold quoted. rewrite app_nil_r. cbn [app].
    change (34%N :: raw ++ 34%N :: r) with ((34%N :: raw) ++ ([34%N] ++ r)).
    rewrite (app_assoc (34%N :: raw)), take_app_length'; [done|].
    rewrite !length_app. simpl. lia.
Qed.

Lemma lit_ends c : lit_char c = true → ends_literal c = false.
Proof.
  intros H. destruct (lit_char_not c H) as (? & ? & ? & ? & ? & ? & ? & Hs).
  unfold ends_literal. rewrite Hs. simpl. lia.
Qed.

Lemma skip_literal_lit t r : Forall (λ c, lit_char c = true) t → delim r = true →
  skip_literal (t ++ r) = r.
Proof.
  intros Ht Hr. induction Ht as [|c t Hc _ IH]; simpl; [|by rewrite (lit_ends c Hc)].
  destruct r as [|c r]; [done|]. simpl in *. unfold ends_literal, is_space, is_json_space, in_range in *.
  by replace (_ || _) with true by lia.
Qed.

Definition scans (t : cst) : Prop := ∀ fuel d r,
  2 * length (text t ++ r) + 2 ≤ fuel → delim r = true →
  outcome (lossless d t) (scan_value fuel d (text t ++ r)) (post t ++ r).

Lemma forallb_outcome_snoc {A} b (x : res exn A) r : outcome b x r → outcome (b && true) x r.
Proof. by rewrite andb_true_r. Qed.

Lemma text_not_nil t r : tokens_ok t → text t ++ r ≠ [].
Proof. intros H. pose proof (text_length_pos t H). by destruct (text t); simpl in *; [lia|]. Qed.

Lemma elements_scan l t d r fuel :
  Forall (λ t, tokens_ok t ∧ scans t) (t :: l) →
  2 * length (join [44%N] (map text (t :: l)) ++ 93%N :: r) + 3 ≤ fuel →
  outcome (forallb (lossless d) (t :: l))
    (scan_elements fuel d (join [44%N] (map text (t :: l)) ++ 93%N :: r)) r.
Proof.
  revert t fuel; induction l as [|t' l IH]; intros t fuel HF Hf;
    apply Forall_cons in HF as [[Ht Hp] Hl]; (destruct fuel as [|fuel]; [lia|]);
    pose proof (post_spaces t Ht) as Hw.
  - cbn [map join forallb] in *. cbn [scan_elements].
    rewrite bool_decide_eq_false_2 by by apply text_not_nil.
    eapply outcome_bind; [apply (Hp fuel); [lia | done]|]. intros _.
    rewrite (skip_space_app _ _ Hw). done.
  - rewrite !map_cons, join_cons2, <- !app_assoc in *. cbn [scan_elements forallb].
    rewrite bool_decide_eq_false_2 by by apply text_not_nil.
    eapply outcome_bind; [apply (Hp fuel); [lia | done]|]. intros _.
    rewrite (skip_space_app _ _ Hw). cbn [app skip_space is_json_space N.eqb Pos.eqb orb].
    apply (IH t'); [done|].
    rewrite length_app in Hf. cbn [length app] in Hf. rewrite map_cons. lia.
Qed.

Lemma members_scan ms m d fs r fuel :
  Forall (λ m, key_ok m.1 ∧ tokens_ok m.2 ∧ scans m.2) (m :: ms) →
  2 * length (join [44%N] (map member_text (m :: ms)) ++ 125%N :: r) + 1 ≤ fuel →
  outcome (bool_decide (NoDup (map (λ m, k_str m.1) (m :: ms)) ∧
                        Forall (λ m, k_str m.1 ∉ fs) (m :: ms))
           && forallb (λ m, lossless d m.2) (m :: ms))
    (scan_members fuel d fs (join [44%N] (map member_text (m :: ms)) ++ 125%N :: r)) r.
Proof.
  assert (Hstep : ∀ m d fs fuel s, key_ok m.1 → tokens_ok m.2 → scans m.2 →
    2 * length (member_text m ++ s) + 1 ≤ S fuel → delim s = true →
    scan_members (S fuel) d fs (member_text m ++ s) =
      if bool_decide (k_str m.1 ∈ fs)
      then codec_err (js "component response contains a duplicate object field")
      else let* r := scan_value fuel d (text m.2 ++ s) in
           match skip_space r with
           | [] => Ok []
           | d' :: r' => if (d' =? 125)%N then Ok r' else scan_members fuel d (k_str m.1 :: fs) r'
           end).
  { clear. intros [[pre raw k post] t] d fs fuel s (H1 & H2 & H3) Ht Hp Hf Hs.
    rewrite member_text_mk in *. cbn [fst snd k_pre k_raw k_str k_post] in *.
    rewrite <- app_assoc. cbn [scan_members].
    rewrite bool_decide_eq_false_2 by by destruct pre.
    rewrite skip_space_app by done. cbn [app skip_space is_json_space N.eqb Pos.eqb orb].
    rewrite <- app_assoc. cbn [app]. rewrite (stringToken_raw raw k) by done. cbn [rbind].
    case_bool_decide; [done|]. rewrite <- app_assoc, skip_space_app by done.
    cbn [app skip_space is_json_space N.eqb Pos.eqb orb drop]. by rewrite drop_0. }
  revert m fs fuel; induction ms as [|m' ms IH]; intros m fs fuel HF Hf;
    apply Forall_cons in HF as [(Hk & Ht & Hp) Hl]; (destruct fuel as [|fuel]; [lia|]);
    pose proof (post_spaces _ Ht) as Hw.
  - cbn [map join] in *. rewrite Hstep by first [done | lia].
    destruct (decide (k_str m.1 ∈ fs)) as [Hin|Hin];
      [rewrite (bool_decide_eq_true_2 (k_str m.1 ∈ fs)) by done
      |rewrite (bool_decide_eq_false_2 (k_str m.1 ∈ fs)) by done].
    + rewrite bool_decide_eq_false_2; [by apply outcome_err|]. intros [_ HF].
      by apply Forall_cons in HF as [? _].
    + rewrite bool_decide_eq_true_2 by (split; [apply NoDup_singleton | by constructor]).
      cbn [forallb andb]. eapply outcome_bind; [apply (Hp fuel); [|done]|].
      { destruct m as [[pre raw k post] t]. rewrite member_text_mk in Hf. cbn [snd] in *.
        rewrite !length_app in Hf. cbn [length] in Hf. rewrite !length_app in Hf. cbn [length] in Hf.
        rewrite !length_app in Hf. cbn [length] in Hf. rewrite length_app. cbn [length]. lia. }
      intros _. rewrite (skip_space_app _ _ Hw). done.
  - rewrite !map_cons, join_cons2, <- !app_assoc in *. rewrite Hstep by first [done | lia].
    destruct (decide (k_str m.1 ∈ fs)) as [Hin|Hin];
      [rewrite (bool_decide_eq_true_2 (k_str m.1 ∈ fs)) by done
      |rewrite (bool_decide_eq_false_2 (k_str m.1 ∈ fs)) by done].
    + rewrite bool_decide_eq_false_2; [by apply outcome_err|]. intros [_ HF].
      by apply Forall_cons in HF as [? _].
    + assert (Hb : bool_decide (NoDup (k_str m.1 :: k_str m'.1 :: map (λ m, k_str m.1) ms) ∧
                                Forall (λ m, k_str m.1 ∉ fs) (m :: m' :: ms))
        = bool_decide (NoDup (map (λ m, k_str m.1) (m' :: ms)) ∧
                       Forall (λ m0, k_str m0.1 ∉ k_str m.1 :: fs) (m' :: ms))).
      { apply bool_decide_ext. rewrite NoDup_cons, (Forall_cons _ m). cbn [map].
        split.
        - intros ((H1 & H2) & _ & H3). split; [done|]. rewrite Forall_forall in *. intros x Hx.
          rewrite not_elem_of_cons. split; [|by apply H3]. intros Heq. apply H1. rewrite <- Heq.
          change (k_str m'.1 :: map (λ m, k_str m.1) ms) with (map (λ m, k_str m.1) (m' :: ms)).
          apply list_elem_of_fmap. eauto.
        - intros (H2 & H3). rewrite Forall_forall in H3. split_and!; [|done|done|].
          + intros Hx. change (k_str m'.1 :: map (λ m, k_str m.1) ms) with (map (λ m, k_str m.1) (m' :: ms)) in Hx.
            apply list_elem_of_fmap in Hx as (x & Heq & Hx). apply H3 in Hx. set_solver.
          + rewrite Forall_forall. intros x Hx. apply H3 in Hx. set_solver. }
      rewrite Hb. cbn [forallb].
      rewrite (andb_comm _ (lossless d m.2 && _)), <- andb_assoc.
      eapply outcome_bind; [apply (Hp fuel); [|done]|].
      { destruct m as [[pre raw k post] t]. rewrite member_text_mk in Hf. cbn [snd] in *.
        rewrite !length_app in Hf. cbn [length] in Hf. rewrite !length_app in Hf. cbn [length] in Hf.
        rewrite !length_app in Hf. cbn [length] in Hf. rewrite !length_app. cbn [length app] in *.
        repeat (rewrite ?length_app in Hf |- *; cbn [length app] in Hf |- *). lia. }
      intros _. rewrite (skip_space_app _ _ Hw), andb_comm.
      cbn [app skip_space is_json_space N.eqb Pos.eqb orb].
      apply (IH m'); [done|]. rewrite length_app in Hf. cbn [length app] in Hf. rewrite map_cons. lia.
Qed.

Lemma scan_value_skip f d s : scan_value f d (skip_space s) = scan_value f d s.
Proof. destruct f; [done|]. cbn [scan_value]. by rewrite skip_space_idem. Qed.
Lemma scan_elements_skip f d s : skip_space s ≠ [] → scan_elements f d (skip_space s) = scan_elements f d s.
Proof.
  intros H. destruct f; [done|]. cbn [scan_elements]. rewrite scan_value_skip.
  rewrite !bool_decide_eq_false_2; [done| |done]. by destruct s.
Qed.
Lemma scan_members_skip f d fs s : skip_space s ≠ [] → scan_members f d fs (skip_space s) = scan_members f d fs s.
Proof.
  intros H. destruct f; [done|]. cbn [scan_members]. rewrite skip_space_idem.
  rewrite !bool_decide_eq_false_2; [done| |done]. by destruct s.
Qed.

Lemma tree_scans t : tokens_ok t → scans t.
Proof.
  induction t as [w t v w'|w raw s w'|w wi l w' IH|w wi ms w' IH] using cst_ind'; intros Hok f d r Hf Hr;
    (destruct f as [|f]; [lia|]); unfold outcome; cbn [lossless scan_value];
    (destruct (MAX_JSON_DEPTH <? d) eqn:Ed;
     [replace (d <=? MAX_JSON_DEPTH) with false by lia; by eexists
     |replace (d <=? MAX_JSON_DEPTH) with true by lia; cbn [andb]]).
  - destruct Hok as (Hw & [Hne Hcs] & Hw'). cbn [text post].
    rewrite <- !app_assoc. rewrite skip_space_app by done.
    pose proof (skip_literal_lit t (w' ++ r) Hcs (delim_spaces _ _ Hw' Hr)) as E.
    destruct t as [|c t]; [done|]. pose proof (proj1 (proj1 (Forall_cons _ _ _) Hcs)) as Hc.
    apply lit_char_not in Hc as (? & ? & ? & ? & ? & ? & Hsp & _).
    cbn [app skip_space] in *. rewrite Hsp.
    replace (c =? 123)%N with false by lia. replace (c =? 91)%N with false by lia.
    replace (c =? 34)%N with false by lia. by rewrite E.
  - destruct Hok as (Hw & Hraw & Hw'). cbn [text post]. unfold quoted.
    rewrite <- !app_assoc. rewrite skip_space_app by done.
    cbn [app skip_space is_json_space N.eqb Pos.eqb orb]. rewrite <- app_assoc. cbn [app].
    by rewrite (stringToken_raw raw s).
  - destruct Hok as (Hw & Hwi & Hw' & Hl). apply foldr_and_Forall in Hl.
    destruct l as [|t l].
    + cbn [text post]. rewrite <- app_assoc, skip_space_app by done.
      cbn [app skip_space is_json_space N.eqb Pos.eqb orb]. rewrite <- app_assoc, skip_space_app by done. done.
    + rewrite text_arr in *. cbn [post]. rewrite <- app_assoc, skip_space_app by done.
      cbn [app skip_space is_json_space N.eqb Pos.eqb orb]. rewrite <- app_assoc. cbn [app].
      assert (HF : Forall (λ t, tokens_ok t ∧ scans t) (t :: l)).
      { rewrite Forall_forall in *. intros x Hx. split; [by apply Hl|]. by apply IH, Hl. }
      rewrite !length_app in Hf. cbn [length] in Hf. rewrite length_app in Hf. cbn [length] in Hf.
      pose proof (elements_scan l t (S d) (w' ++ r) f HF) as E.
      rewrite !length_app in E. cbn [length] in E. rewrite length_app in E. specialize (E ltac:(lia)).
      apply Forall_cons in Hl as [Ht _].
      assert (∃ c s, skip_space (join [44%N] (map text (t :: l)) ++ 93%N :: w' ++ r) = c :: s ∧ c ≠ 93%N)
        as (c & s & Es & Hc).
      { destruct l as [|t' l].
        - edestruct (text_head t) as (c & s & Es & ? & ?); [done|]. by exists c, s.
        - rewrite !map_cons, join_cons2, <- app_assoc.
          edestruct (text_head t) as (c & s & Es & ? & ?); [done|]. by exists c, s. }
      rewrite <- scan_elements_skip in E by (rewrite Es; done).
      rewrite Es in E |- *. replace (c =? 93)%N with false by lia. exact E.
  - destruct Hok as (Hw & Hwi & Hw' & Hl). apply foldr_and_Forall in Hl.
    destruct ms as [|m ms].
    + cbn [text post]. rewrite <- app_assoc, skip_space_app by done.
      cbn [app skip_space is_json_space N.eqb Pos.eqb orb]. rewrite <- app_assoc, skip_space_app by done. done.
    + rewrite text_obj in *. cbn [post]. rewrite <- app_assoc, skip_space_app by done.
      cbn [app skip_space is_json_space N.eqb Pos.eqb orb]. rewrite <- app_assoc. cbn [app].
      assert (HF : Forall (λ m, key_ok m.1 ∧ tokens_ok m.2 ∧ scans m.2) (m :: ms)).
      { rewrite Forall_forall in *. intros x Hx. destruct (Hl _ Hx). split_and!; [done..|]. by apply IH. }
      rewrite !length_app in Hf. cbn [length] in Hf. rewrite length_app in Hf. cbn [length] in Hf.
      pose proof (members_scan ms m (S d) [] (w' ++ r) f HF) as E.
      rewrite !length_app in E. cbn [length] in E. rewrite length_app in E. specialize (E ltac:(lia)).
      apply Forall_cons in Hl as [[Hk _] _].
      assert (∃ s, skip_space (join [44%N] (map member_text (m :: ms)) ++ 125%N :: w' ++ r) = 34%N :: s)
        as (s & Es).
      { destruct ms as [|m' ms]; [by apply member_head|].
        rewrite !map_cons, join_cons2, <- app_assoc. by apply member_head. }
      rewrite <- scan_members_skip in E by (rewrite Es; done).
      rewrite Es in E |- *. change (34 =? 125)%N with false. cbn match.
      erewrite bool_decide_ext; [exact E|]. split; [|tauto]. intros Hn. split; [done|].
      apply Forall_true. intros x. apply not_elem_of_nil.
Qed.

Lemma scan_text t : tokens_ok t → outcome (lossless 0 t) (assertUniqueAbiJsonObjectFields (text t)) tt.
Proof.
  intros Ht. unfold assertUniqueAbiJsonObjectFields. rewrite <- (andb_true_r (lossless 0 t)).
  pose proof (tree_scans t Ht (2 * length (text t) + 2) 0 []) as E. rewrite app_nil_r in E.
  by eapply outcome_bind; [apply E|].
Qed.

(** C34. On a text that [JSON.parse] accepts, the scanner answers exactly whether parsing
    lost nothing: the text is that of a syntax tree of the parsed value, and the scanner
    returns when no object of the tree repeats a member name (escapes resolved) and no
    value is nested more than 32 deep, and throws a codec error otherwise. *)
Theorem scanner_correct json v : json_parse json = Some v →
  ∃ t, text t = json ∧ value t = v ∧ tokens_ok t ∧
    outcome (lossless 0 t) (assertUniqueAbiJsonObjectFields json) tt.
Proof.
  intros (t & <- & Hv & Ht)%json_parse_cst. exists t. split_and!; [done..|]. by apply scan_text.
Qed.

Lemma scanner_correct_witness :
  ∃ t, text t = js "[1, {}]" ∧ value t = VArr [VNum (dbl_of_Z 1); VObj []] ∧ tokens_ok t ∧
    outcome (lossless 0 t) (assertUniqueAbiJsonObjectFields (js "[1, {}]")) tt.
Proof. apply (scanner_correct (js "[1, {}]")). vm_compute. reflexivity. Defined.

(** ** Copying: the tree an object graph unfolds to *)

(** [reads h t v]: the value [v] is plain data that unfolds to the finite tree [t]. *)
Fixpoint reads (h : heap) (t : jsval) (v : uval) : Prop :=
  match t with
  | VUndef | VFun _ => False
  | VNull => v = UNull
  | VBool b => v = UBool b
  | VNum d => v = UNum d
  | VStr s => v = UStr s
  | VArr ts => ∃ l us, v = URef l ∧ h !! l = Some (OArr us) ∧
      (fix go ts us := match ts, us with
                       | [], [] => True
                       | t :: ts, u :: us => reads h t u ∧ go ts us
                       | _, _ => False
                       end) ts us
  | VObj ts => ∃ l np o, v = URef l ∧ h !! l = Some (ORec np o) ∧
      (fix go ts o := match ts, o with
                      | [], [] => True
                      | p :: ts, q :: o => (p.1 = q.1 ∧ reads h p.2 q.2) ∧ go ts o
                      | _, _ => False
                      end) ts o
  end.

Lemma reads_arr h ts v : reads h (VArr ts) v ↔
  ∃ l us, v = URef l ∧ h !! l = Some (OArr us) ∧ Forall2 (reads h) ts us.
Proof.
  simpl. split; intros (l & us & -> & Hl & H); exists l, us; (split_and!; [done..|]); clear Hl.
  - revert us H. induction ts as [|t ts IH]; intros [|u us] H; try done.
    destruct H as [H1 H2]. constructor; [done | by apply IH].
  - induction H; simpl; done.
Qed.

Definition reads_member (h : heap) (p : jstr * jsval) (q : jstr * uval) : Prop :=
  p.1 = q.1 ∧ reads h p.2 q.2.

Lemma reads_obj h ts v : reads h (VObj ts) v ↔
  ∃ l np o, v = URef l ∧ h !! l = Some (ORec np o) ∧ Forall2 (reads_member h) ts o.
Proof.
  simpl. split; intros (l & np & o & -> & Hl & H); exists l, np, o; (split_and!; [done..|]); clear Hl.
  - revert o H. induction ts as [|t ts IH]; intros [|u o] H; try done.
    destruct H as [H1 H2]. constructor; [done | by apply IH].
  - induction H; simpl; done.
Qed.
#[global] Arguments reads : simpl never.

(** What the copy accepts of a tree: finite numbers and no reserved key. *)
Fixpoint abi_value (t : jsval) : bool :=
  match t with
  | VUndef | VFun _ => false
  | VNull | VBool _ | VStr _ => true
  | VNum d => isFinite d
  | VArr ts => forallb abi_value ts
  | VObj ts => forallb (λ p, negb (reserved_key p.1) && abi_value p.2) ts
  end.

(** The nesting of a tree; an empty array or object has height 0. *)
Fixpoint height (t : jsval) : nat :=
  match t with
  | VArr ts => foldr (λ t n, Nat.max (S (height t)) n) 0 ts
  | VObj ts => foldr (λ p n, Nat.max (S (height p.2)) n) 0 ts
  | _ => 0
  end.

Lemma foldr_max_le {A} (f : A → nat) l n : foldr (λ x m, Nat.max (S (f x)) m) 0 l ≤ n ↔
  Forall (λ x, f x < n) l.
Proof.
  induction l as [|x l IH]; simpl; [split; [constructor | lia]|].
  rewrite Forall_cons, <- IH. lia.
Qed.

(** Every record of the heap lists its properties in order. *)
Definition heap_ok (h : heap) : Prop := ∀ l np o, h !! l = Some (ORec np o) → ordered o.

Lemma Forall2_keys h ts o : Forall2 (reads_member h) ts o → keys ts = keys o.
Proof. induction 1 as [|p q ts o [H _] _ IH]; [done|]. unfold keys in *. simpl. by rewrite H, IH. Qed.

Lemma copy_record_ok room h seen path acc o ts :
  foldM_res (λ acc '(k, u),
      if reserved_key k then codec_err (path ++ js " contains a reserved object key")
      else let* t := copyAbiValue room h seen (member_path path k) u in Ok (obj_set k t acc)) acc o = Ok ts ↔
  ∃ us, ts = foldl (λ o p, obj_set p.1 p.2 o) acc us ∧
    Forall2 (λ p q, p.1 = q.1 ∧ reserved_key p.1 = false ∧
                    copyAbiValue room h seen (member_path path q.1) q.2 = Ok p.2) us o.
Proof.
  revert acc; induction o as [|[k u] o IH]; intros acc; simpl.
  - split; [intros [= <-]; by exists []|]. by intros (us & -> & ->%Forall2_nil_inv_r).
  - rewrite rbind_Ok. split.
    + intros (acc' & H1 & H2). destruct (reserved_key k) eqn:Er; [done|].
      apply rbind_Ok in H1 as (t & Ht & [= <-]). apply IH in H2 as (us & -> & Hus).
      exists ((k, t) :: us). split; [done|]. by constructor.
    + intros (us & -> & Hus). apply Forall2_cons_inv_r in Hus as ([k' t] & us' & (Hk & Hr & Ht) & Hus & ->).
      simpl in *. subst k'. rewrite Hr, Ht. eexists. split; [done|]. apply IH. eauto.
Qed.

Lemma imap_pair_Forall2 {A B} (P : nat → A → B → Prop) (l : list A) (k : list B) :
  Forall2 (λ p y, P p.1 p.2 y) (imap pair l) k ↔
  length l = length k ∧ ∀ i x y, l !! i = Some x → k !! i = Some y → P i x y.
Proof.
  rewrite Forall2_same_length_lookup, length_imap. split; intros [Hl H]; (split; [done|]).
  - intros i x y Hx Hy. apply (H i (i, x) y); [by rewrite list_lookup_imap, Hx | done].
  - intros i [j x] y Hx Hy. rewrite list_lookup_imap in Hx.
    destruct (l !! i) eqn:E; [|done]. injection Hx as <- <-. by apply H.
Qed.

Lemma copy_array_ok room h seen path us ts :
  mapM_res (λ '(i, u), copyAbiValue room h seen (index_path path i) u) (imap pair us) = Ok ts ↔
  length us = length ts ∧
  ∀ i u t, us !! i = Some u → ts !! i = Some t →
    copyAbiValue room h seen (index_path path i) u = Ok t.
Proof.
  rewrite mapM_res_Forall2.
  rewrite <- (imap_pair_Forall2 (λ i u t, copyAbiValue room h seen (index_path path i) u = Ok t)).
  split; intros H; (eapply Forall2_impl; [exact H|]); by intros [i u] t.
Qed.

Lemma copy_sound room h seen path v t : heap_ok h →
  copyAbiValue room h seen path v = Ok t → reads h t v ∧ abi_value t = true ∧ height t < room.
Proof.
  intros Hh. revert seen path v t; induction room as [|room IH]; intros seen path v t; [done|].
  cbn [copyAbiValue]. destruct v as [| |b|d|s| | | |l]; try done;
    try (intros [= <-]; by (split_and!; [..|simpl; lia])).
  - destruct (isFinite d) eqn:E; [|done]. intros [= <-]. by (split_and!; [..|simpl; lia]).
  - destruct (h !! l) as [[us|np o| |]|] eqn:El; try done.
    all: case_bool_decide; [done|]; try done.
    + intros (ts & [Hlen Hts]%copy_array_ok & [= <-])%rbind_Ok.
      assert (HF : Forall2 (λ t u, reads h t u ∧ abi_value t = true ∧ height t < room) ts us).
      { apply Forall2_same_length_lookup. split; [done|]. intros i t u Ht Hu. eapply IH, Hts; eauto. }
      split_and!.
      * apply reads_arr. exists l, us. split_and!; [done..|]. eapply Forall2_impl; [exact HF | naive_solver].
      * simpl. apply forallb_forall. intros t Ht%list_elem_of_In%list_elem_of_lookup.
        destruct Ht as [i Hi]. destruct (Forall2_lookup_l _ _ _ _ _ HF Hi) as (? & _ & ?). naive_solver.
      * simpl. apply Nat.lt_succ_r, foldr_max_le, Forall_lookup. intros i t Hi.
        destruct (Forall2_lookup_l _ _ _ _ _ HF Hi) as (? & _ & ?). naive_solver.
    + intros (ts & (us & -> & Hus)%copy_record_ok & [= <-])%rbind_Ok.
      assert (HF : Forall2 (λ p q, reads_member h p q ∧ reserved_key p.1 = false ∧
                              abi_value p.2 = true ∧ height p.2 < room) us o).
      { eapply Forall2_impl; [exact Hus|]. intros p q (Hk & Hr & Hc).
        apply IH in Hc as (? & ? & ?). done. }
      assert (Hord : ordered us).
      { unfold ordered. rewrite (Forall2_keys h us o); [by eapply Hh|].
        eapply Forall2_impl; [exact HF | naive_solver]. }
      change (foldl _ [] us) with (of_entries us). rewrite of_entries_ordered by done. split_and!.
      * apply reads_obj. exists l, np, o. split_and!; [done..|].
        eapply Forall2_impl; [exact HF | naive_solver].
      * simpl. apply forallb_forall. intros t Ht%list_elem_of_In%list_elem_of_lookup.
        destruct Ht as [i Hi]. destruct (Forall2_lookup_l _ _ _ _ _ HF Hi) as (? & _ & _ & Hr & Ha & _).
        by rewrite Hr, Ha.
      * simpl. apply Nat.lt_succ_r, (foldr_max_le (λ p : jstr * jsval, height p.2)), Forall_lookup.
        intros i t Hi. destruct (Forall2_lookup_l _ _ _ _ _ HF Hi) as (? & _ & ?). naive_solver.
Qed.

(** A value unfolds to at most one tree. *)
Lemma reads_functional h t t' v : reads h t v → reads h t' v → t = t'.
Proof.
  revert t' v; induction t as [| |b|d|s|ts IH|ts IH|] using jsval_ind'; intros t' v H H';
    try (unfold reads in H; subst; destruct t'; unfold reads in H'; naive_solver).
  - apply reads_arr in H as (l & us & -> & Hl & HF).
    destruct t' as [| | | | |ts'|ts'|]; try (by inversion H').
    + apply reads_arr in H' as (l' & us' & [= <-] & Hl' & HF'). rewrite Hl in Hl'. injection Hl' as <-.
      f_equal. clear Hl. revert ts' us HF HF'.
      induction IH as [|t ts Ht _ IH]; intros ts' us HF HF'.
      * apply Forall2_nil_inv_l in HF as ->. by apply Forall2_nil_inv_r in HF'.
      * apply Forall2_cons_inv_l in HF as (u & us' & H1 & H2 & ->).
        apply Forall2_cons_inv_r in HF' as (t' & ts'' & H1' & H2' & ->). f_equal; eauto.
    + apply reads_obj in H' as (? & ? & ? & [= <-] & Hl' & _). congruence.
  - apply reads_obj in H as (l & np & o & -> & Hl & HF).
    destruct t' as [| | | | |ts'|ts'|]; try (by inversion H').
    + apply reads_arr in H' as (? & ? & [= <-] & Hl' & _). congruence.
    + apply reads_obj in H' as (l' & np' & o' & [= <-] & Hl' & HF'). rewrite Hl in Hl'. injection Hl' as <- <-.
      f_equal. clear Hl. revert ts' o HF HF'.
      induction IH as [|[k t] ts Ht _ IH]; intros ts' o HF HF'.
      * apply Forall2_nil_inv_l in HF as ->. by apply Forall2_nil_inv_r in HF'.
      * apply Forall2_cons_inv_l in HF as (u & us' & [Hk H1] & H2 & ->).
        apply Forall2_cons_inv_r in HF' as ([k' t'] & ts'' & [Hk' H1'] & H2' & ->). simpl in *.
        f_equal; [|by eauto]. f_equal; [congruence | eauto].
Qed.

Fixpoint tree_size (t : jsval) : nat :=
  match t with
  | VArr ts => S (foldr (λ t n, tree_size t + n) 0 ts)
  | VObj ts => S (foldr (λ p n, tree_size p.2 + n) 0 ts)
  | _ => 1
  end.

Lemma foldr_sum_elem {A} (f : A → nat) l x : x ∈ l → f x ≤ foldr (λ x n, f x + n) 0 l.
Proof. induction 1; simpl; lia. Qed.

(** The objects on the path unfold to larger trees. *)
Definition above (h : heap) (n : nat) (seen : list nat) : Prop :=
  Forall (λ l, ∃ t, reads h t (URef l) ∧ n < tree_size t) seen.

Lemma above_fresh h seen l t : reads h t (URef l) → above h (tree_size t) seen → l ∉ seen.
Proof.
  intros Ht Ha Hin. unfold above in Ha; rewrite Forall_forall in Ha. destruct (Ha l Hin) as (t' & Ht' & Hs).
  rewrite (reads_functional h t' t (URef l) Ht' Ht) in Hs. lia.
Qed.

Lemma above_cons h seen l t n : reads h t (URef l) → above h (tree_size t) seen → n < tree_size t →
  above h n (l :: seen).
Proof.
  intros Ht Ha Hn. constructor; [eauto|]. eapply Forall_impl; [exact Ha|].
  intros x (t' & ? & ?). exists t'. split; [done | lia].
Qed.

Lemma copy_complete h t : heap_ok h → ∀ room seen path v,
  reads h t v → abi_value t = true → height t < room → above h (tree_size t) seen →
  copyAbiValue room h seen path v = Ok t.
Proof.
  intros Hh. induction t as [| |b|d|s|ts IH|ts IH|] using jsval_ind';
    intros [|room] seen path v Hr Ha Hht Hab; try lia; try (unfold reads in Hr; done).
  - unfold reads in Hr. by subst.
  - unfold reads in Hr. by subst.
  - unfold reads in Hr. subst. simpl in *. by rewrite Ha.
  - unfold reads in Hr. by subst.
  - pose proof Hr as (l & us & -> & Hl & HF)%reads_arr. cbn [copyAbiValue]. rewrite Hl.
    rewrite bool_decide_eq_false_2 by by eapply above_fresh.
    apply rbind_Ok. exists ts. split; [|done]. apply copy_array_ok.
    split; [symmetry; by eapply Forall2_length|]. intros i u t Hu Ht.
    rewrite Forall_lookup in IH. eapply IH; [exact Ht|..].
    + by eapply Forall2_lookup_lr in HF.
    + simpl in Ha. rewrite forallb_forall in Ha. apply Ha, list_elem_of_In, list_elem_of_lookup. eauto.
    + simpl in Hht. apply Nat.lt_succ_r, foldr_max_le in Hht. rewrite Forall_lookup in Hht. eauto.
    + eapply above_cons; [done..|]. simpl. apply Nat.lt_succ_r, foldr_sum_elem, list_elem_of_lookup. eauto.
  - pose proof Hr as (l & np & o & -> & Hl & HF)%reads_obj. cbn [copyAbiValue]. rewrite Hl.
    rewrite bool_decide_eq_false_2 by by eapply above_fresh.
    apply rbind_Ok. exists ts. split; [|done]. apply copy_record_ok. exists ts. split.
    + symmetry. apply of_entries_ordered. unfold ordered. rewrite (Forall2_keys h ts o) by done. by eapply Hh.
    + apply Forall2_same_length_lookup. split; [by eapply Forall2_length|]. intros i p q Hp Hq.
      pose proof (Forall2_lookup_lr _ _ _ _ _ _ HF Hp Hq) as [Hk Hv].
      simpl in Ha. rewrite forallb_forall in Ha.
      assert (Hin : In p ts) by (apply list_elem_of_In, list_elem_of_lookup; eauto).
      apply Ha, andb_true_iff in Hin as [Hres%negb_true_iff Hav]. split_and!; [done..|].
      rewrite Forall_lookup in IH. eapply IH; [exact Hp|done|done|..].
      * simpl in Hht. apply Nat.lt_succ_r, (foldr_max_le (λ p : jstr * jsval, height p.2)) in Hht.
        rewrite Forall_lookup in Hht. eauto.
      * eapply above_cons; [done..|]. simpl. apply Nat.lt_succ_r.
        apply (foldr_sum_elem (λ p : jstr * jsval, tree_size p.2)), list_elem_of_lookup. eauto.
Qed.

(** [copyAbiValue] accepts exactly plain data that unfolds to a finite tree of finite
    numbers, without reserved keys and at most 32 deep, and returns that tree, detached
    from the caller's objects.  Cyclic objects have no unfolding: they always throw. *)
Theorem copyAbiValue_exact h v t : heap_ok h →
  encodeAbiValue h v = Ok t ↔ reads h t v ∧ abi_value t = true ∧ height t ≤ 32.
Proof.
  intros Hh. unfold encodeAbiValue. split.
  - intros (H1 & H2 & H3)%copy_sound; [|done]. unfold MAX_JSON_DEPTH in H3. split_and!; [done..|lia].
  - intros (H1 & H2 & H3). apply copy_complete; [done..|unfold MAX_JSON_DEPTH; lia|constructor].
Qed.

(** A shared object is copied twice. *)
Definition shared_heap : heap := [OArr [UNum (dbl_of_Z 1)]; ORec true [(js "a", URef 0); (js "b", URef 0)]].

Lemma shared_heap_ok : heap_ok shared_heap.
Proof.
  intros [|[|l]] np o; simpl; try done. intros [= <- <-]. vm_compute. reflexivity.
Qed.

Lemma copyAbiValue_exact_witness :
  let one := VArr [VNum (dbl_of_Z 1)] in
  reads shared_heap (VObj [(js "a", one); (js "b", one)]) (URef 1).
Proof.
  apply (copyAbiValue_exact shared_heap (URef 1) (VObj [(js "a", VArr [VNum (dbl_of_Z 1)]); (js "b", VArr [VNum (dbl_of_Z 1)])])
           shared_heap_ok). vm_compute. reflexivity.
Defined.

(** An array that contains itself throws. *)
Example cyclic_throws : ∃ m, encodeAbiValue [OArr [URef 0]] (URef 0) = codec_err m.
Proof. eexists. vm_compute. reflexivity. Qed.

(** ** Allocating the objects of a parsed text *)

Lemma reads_mono h h' t v : h `prefix_of` h' → reads h t v → reads h' t v.
Proof.
  intros [k ->]. revert v; induction t as [| |b|d|s|ts IH|ts IH|] using jsval_ind'; intros v H; try exact H.
  - apply reads_arr in H as (l & us & -> & Hl & HF). apply reads_arr. exists l, us.
    split_and!; [done|by apply lookup_app_l_Some|]. clear Hl.
    induction HF; constructor; apply Forall_cons in IH as [? ?]; eauto.
  - apply reads_obj in H as (l & np & o & -> & Hl & HF). apply reads_obj. exists l, np, o.
    split_and!; [done|by apply lookup_app_l_Some|]. clear Hl.
    induction HF as [|p q ts o [Hk Hp] _ IHF]; constructor; apply Forall_cons in IH as [? ?];
      [split; eauto | eauto].
Qed.

Definition allocated (h : heap) (t : jsval) (h' : heap) (u : uval) : Prop :=
  h `prefix_of` h' ∧ (heap_ok h → heap_ok h') ∧ reads h' t u.

Lemma heap_ok_snoc h ob : heap_ok h → (∀ np o, ob = ORec np o → ordered o) → heap_ok (h ++ [ob]).
Proof.
  intros Hh Hob l np o Hl. apply lookup_app_Some in Hl as [Hl|[_ Hl]]; [by eapply Hh|].
  apply list_lookup_singleton_Some in Hl as [_ Heq]. eauto.
Qed.

Definition alloc_list (fs : list (heap → heap * uval)) (h : heap) (us : list uval) : heap * list uval :=
  foldl (λ (p : heap * list uval) f, let '(h, u) := f p.1 in (h, p.2 ++ [u])) (h, us) fs.

Lemma alloc_list_spec ts h us h' us' :
  Forall (λ t, ∀ h h' u, alloc t h = (h', u) → allocated h t h' u) ts →
  alloc_list (map alloc ts) h us = (h', us') →
  h `prefix_of` h' ∧ (heap_ok h → heap_ok h') ∧ ∃ ks, us' = us ++ ks ∧ Forall2 (reads h') ts ks.
Proof.
  intros HF. revert h us; induction HF as [|t ts Ht _ IH]; intros h us; simpl.
  - intros [= <- <-]. split_and!; [done..|]. exists []. by rewrite app_nil_r.
  - unfold alloc_list. cbn [foldl fst]. destruct (alloc t h) as [h1 u] eqn:E. cbn [snd].
    fold (alloc_list (map alloc ts) h1 (us ++ [u])). apply Ht in E as (Hp & Ho & Hr).
    intros (Hp' & Ho' & ks & -> & Hks)%IH. split_and!; [by etrans|tauto|].
    exists (u :: ks). rewrite <- app_assoc. split; [done|]. constructor; [by eapply reads_mono | done].
Qed.

Lemma alloc_spec t : parsed t → ∀ h h' u, alloc t h = (h', u) → allocated h t h' u.
Proof.
  unfold allocated. induction t as [| |b|d|s|ts IH|ts IH|] using jsval_ind'; intros Hp h h' u; try done;
    try (intros [= <- <-]; split_and!; [done|done|reflexivity]).
  - apply foldr_and_Forall in Hp.
    assert (HF : Forall (λ t, ∀ h h' u, alloc t h = (h', u) → allocated h t h' u) ts).
    { rewrite Forall_forall in *. intros t Ht. by apply IH, Hp. }
    cbn [alloc]. fold (alloc_list (map alloc ts) h []).
    destruct (alloc_list (map alloc ts) h []) as [h1 us] eqn:E. intros [= <- <-].
    apply alloc_list_spec in E as (Hpre & Ho & ks & -> & Hks); [|done]. split_and!.
    + etrans; [exact Hpre | by eexists].
    + intros Hh. apply heap_ok_snoc; [by apply Ho | done].
    + apply reads_arr. exists (length h1), ks. split_and!; [done|by rewrite lookup_app_r, Nat.sub_diag|].
      eapply Forall2_impl; [exact Hks|]. intros. eapply reads_mono; [by eexists | done].
  - destruct Hp as [Hord Hp]. apply foldr_and_Forall in Hp.
    assert (HF : Forall (λ t, ∀ h h' u, alloc t h = (h', u) → allocated h t h' u) (map snd ts)).
    { rewrite Forall_map. rewrite Forall_forall in *. intros t Ht. by apply IH, Hp. }
    cbn [alloc]. rewrite <- (map_map snd alloc). fold (alloc_list (map alloc (map snd ts)) h []).
    destruct (alloc_list _ h []) as [h1 us] eqn:E. intros [= <- <-].
    apply alloc_list_spec in E as (Hpre & Ho & ks & -> & Hks); [|done]. cbn [app].
    assert (Hm : Forall2 (reads_member (h1 ++ [ORec false (zip (map fst ts) ks)])) ts (zip (map fst ts) ks)).
    { clear -Hks. generalize [ORec false (zip (map fst ts) ks)]. intros ob. revert ks Hks.
      induction ts as [|[k t] ts IH]; intros ks Hks.
      - by apply Forall2_nil_inv_l in Hks as ->; constructor.
      - apply Forall2_cons_inv_l in Hks as (u & ks' & H1 & H2 & ->). simpl. constructor; [|by apply IH].
        split; [done|]. eapply reads_mono; [by eexists | done]. }
    split_and!.
    + etrans; [exact Hpre | by eexists].
    + intros Hh. apply heap_ok_snoc; [by apply Ho|]. intros np o [= <- <-].
      unfold ordered. by rewrite <- (Forall2_keys _ _ _ Hm).
    + apply reads_obj. exists (length h1), false, (zip (map fst ts) ks).
      split_and!; [done|by rewrite lookup_app_r, Nat.sub_diag|done].
Qed.

(** Reading the record of an allocated object. *)
Lemma reads_record h ts v path : reads h (VObj ts) v →
  ∃ np o, requireRecord h v path = Ok (np, o) ∧ keys o = keys ts ∧
    ∀ k t, own_get k ts = Some t → ∃ u, own_get k o = Some u ∧ reads h t u.
Proof.
  intros (l & np & o & -> & Hl & HF)%reads_obj. exists np, o. cbn [requireRecord]. rewrite Hl.
  split_and!; [done|symmetry; by eapply Forall2_keys|]. clear Hl.
  induction HF as [|[k t] [k' u] ts o [Hk Hr] _ IH]; intros j s; simpl in *; [done|]. subst k'.
  case_bool_decide; [intros [= <-]; eauto | apply IH].
Qed.

(** ** Responses: printing and parsing *)

(** The object a response is. *)
Definition error_json (e : AbiErrorV1) : jsval :=
  VObj ([(js "code", VStr (ae_code e));
         (js "message", match ae_message e with Some m => VStr m | None => VUndef end);
         (js "retryable", match ae_retryable e with Some b => VBool b | None => VUndef end)]
        ++ match ae_field e with Some f => [(js "field", VStr f)] | None => [] end).

Definition response_json (r : AbiResponseV1) : jsval :=
  match r with
  | AbiSuccess id result =>
      VObj [(js "abi", VStr GOFORGE_ABI_V1); (js "id", VStr id); (js "ok", VBool true);
            (js "result", result)]
  | AbiFailure id e =>
      VObj [(js "abi", VStr GOFORGE_ABI_V1); (js "id", VStr id); (js "ok", VBool false);
            (js "error", error_json e)]
  end.

Lemma forallb_height {A} (f : A → nat) l d m :
  (d <=? m) && forallb (λ x, S d + f x <=? m) l
  = (d + foldr (λ x n, Nat.max (S (f x)) n) 0 l <=? m).
Proof. induction l as [|x l IH]; cbn [forallb foldr] in *; [rewrite andb_true_r; f_equal; lia|]; destruct (forallb _ l); lia. Qed.

Lemma lossless_cst_of v : json_data v → ∀ d, lossless d (cst_of v) = (d + height v <=? MAX_JSON_DEPTH).
Proof.
  induction v as [| |b|x|s|l IH|o IH|] using jsval_ind'; intros Hv d; try done;
    try (simpl; rewrite andb_true_r; f_equal; lia).
  - apply foldr_and_Forall in Hv. cbn [lossless cst_of height]. rewrite <- (forallb_height height).
    f_equal. clear -IH Hv. induction l as [|v l IHl]; [done|].
    apply Forall_cons in IH as [IHv IH]. apply Forall_cons in Hv as [Hd Hv].
    cbn [map forallb]. by rewrite IHv, IHl.
  - destruct Hv as [Ho Hv]. apply foldr_and_Forall in Hv. cbn [lossless cst_of height].
    rewrite <- (forallb_height (λ p : jstr * jsval, height p.2)). f_equal.
    rewrite bool_decide_eq_true_2.
    + clear -IH Hv. induction o as [|[k v] o IHo]; [done|].
      apply Forall_cons in IH as [IHv IH]. apply Forall_cons in Hv as [[_ Hd] Hv].
      cbn [map forallb fst snd andb] in *. rewrite (IHv Hd). f_equal. by apply IHo.
    + rewrite map_map. by apply in_order_NoDup.
Qed.

(** The scanner accepts what [JSON.stringify] prints of a value of bounded nesting. *)
Lemma scan_stringify v s : json_data v → height v ≤ MAX_JSON_DEPTH → json_stringify v = Some s →
  assertUniqueAbiJsonObjectFields s = Ok tt.
Proof.
  intros Hv Hh. rewrite text_cst_of by done. intros [= <-].
  pose proof (scan_text (cst_of v) (tokens_cst_of v Hv)) as E.
  rewrite (lossless_cst_of v Hv 0) in E. by replace (0 + height v <=? MAX_JSON_DEPTH) with true in E by lia.
Qed.

(** What both constructors guarantee of a response for the request [id]. *)
Definition response_for (id : jstr) (r : AbiResponseV1) : Prop :=
  assertIdentifier (UStr id) (js "id") = Ok id ∧
  match r with
  | AbiSuccess i result => i = id ∧ abi_value result = true ∧ height result ≤ 32
  | AbiFailure i e =>
      i = id ∧ (∃ d, own_get (ae_code e) GOFORGE_ABI_ERROR_CATALOG = Some d
                     ∧ ae_message e = Some (def_message d) ∧ ae_retryable e = Some (def_retryable d)) ∧
      ∀ f, ae_field e = Some f → assertErrorField (UStr f) = Ok f
  end.

Lemma assertIdentifier_Ok v p s : assertIdentifier v p = Ok s → v = UStr s.
Proof. unfold assertIdentifier, bounded_text. destruct v; try done. by destruct (_ || _); [|intros [= ->]]. Qed.
Lemma assertErrorField_Ok v s : assertErrorField v = Ok s → v = UStr s.
Proof. unfold assertErrorField, bounded_text. destruct v; try done. by destruct (_ || _); [|intros [= ->]]. Qed.

Lemma createAbiSuccessResponse_for h id v r : heap_ok h →
  createAbiSuccessResponse h id v = Ok r → response_for id r.
Proof.
  intros Hh (i & Hi & (t & Ht & [= <-])%rbind_Ok)%rbind_Ok.
  pose proof (assertIdentifier_Ok _ _ _ Hi) as [= <-]. split; [done|].
  apply copy_sound in Ht as (_ & H2 & H3); [|done]. unfold MAX_JSON_DEPTH in H3. split_and!; [done..|lia].
Qed.

Lemma catalog_code code : code ∈ GOFORGE_ABI_V1_ERROR_CODES →
  ∃ d, own_get code GOFORGE_ABI_ERROR_CATALOG = Some d.
Proof.
  intros H. destruct (own_get code GOFORGE_ABI_ERROR_CATALOG) eqn:E; [eauto|].
  apply own_get_None in E. by destruct E.
Qed.

Lemma createAbiFailureResponse_for id e r : fi_code e ∈ GOFORGE_ABI_V1_ERROR_CODES →
  createAbiFailureResponse id e = Ok r → response_for id r.
Proof.
  intros (d & Hd)%catalog_code (i & Hi & H)%rbind_Ok.
  pose proof (assertIdentifier_Ok _ _ _ Hi) as [= <-]. unfold catalog in H. rewrite Hd in H.
  destruct (match fi_message e with Some _ => _ | None => _ end); [done|].
  destruct (match fi_retryable e with Some _ => _ | None => _ end); [done|].
  apply rbind_Ok in H as (f & Hf & [= <-]). split; [done|]. simpl. split_and!; [done|eauto|].
  intros g ->. destruct (fi_field e) as [f'|]; [|done].
  apply rbind_Ok in Hf as (f'' & Hf & [= <-]). by pose proof (assertErrorField_Ok _ _ Hf) as [= <-].
Qed.

Lemma catalog_codes_match : forallb (λ p, matches errorCodePattern p.1) GOFORGE_ABI_ERROR_CATALOG = true.
Proof. vm_compute. reflexivity. Qed.

Lemma catalog_matches code d : own_get code GOFORGE_ABI_ERROR_CATALOG = Some d →
  matches errorCodePattern code = true ∧ catalog code = Some (Some (def_message d), Some (def_retryable d)).
Proof.
  intros H. split; [|by unfold catalog; rewrite H].
  apply own_get_elem in H. pose proof catalog_codes_match as Hc. rewrite forallb_forall in Hc.
  by apply list_elem_of_In, Hc in H.
Qed.

Lemma u_get_own np o k u : own_get k o = Some u → u_get np o k = u.
Proof. intros H. unfold u_get. by rewrite H. Qed.

Lemma u_get_reads {h ts o} np k t :
  (∀ k t, own_get k ts = Some t → ∃ u, own_get k o = Some u ∧ reads h t u) →
  own_get k ts = Some t → reads h t (u_get np o k).
Proof. intros H Hk. destruct (H k t Hk) as (u & Hu & Hr). by rewrite (u_get_own np o k u Hu). Qed.

Lemma exact_keys_ok o ks wanted path : keys o = ks → sort_strings ks = sort_strings wanted →
  requireExactKeys o wanted path = Ok tt.
Proof. intros Hk H. unfold requireExactKeys. by rewrite Hk, bool_decide_eq_true_2. Qed.

Lemma validate_success h u id result : heap_ok h → response_for id (AbiSuccess id result) →
  reads h (response_json (AbiSuccess id result)) u →
  validateAbiResponse h u id = Ok (AbiSuccess id result).
Proof.
  intros Hh (Hid & _ & Ha & Hht) Hr. cbn [response_json] in Hr.
  destruct (reads_record _ _ _ (js "response") Hr) as (np & o & Hreq & Hk & Hg).
  pose proof (u_get_reads np (js "abi") _ Hg eq_refl) as Habi.
  pose proof (u_get_reads np (js "id") _ Hg eq_refl) as Hi.
  pose proof (u_get_reads np (js "ok") _ Hg eq_refl) as Hok.
  pose proof (u_get_reads np (js "result") _ Hg eq_refl) as Hres.
  unfold reads in Habi, Hi, Hok. unfold validateAbiResponse. rewrite Hid. cbn [rbind]. rewrite Hreq.
  cbn [rbind]. rewrite Hok, Habi, Hi. unfold is_bool, is_str.
  rewrite !(bool_decide_eq_true_2 (_ = _)) by done.
  rewrite (exact_keys_ok _ _ _ _ Hk) by (vm_compute; reflexivity). cbn [rbind negb].
  unfold encodeAbiValue. rewrite (copy_complete h result Hh) by first [done | unfold MAX_JSON_DEPTH; lia | constructor].
  done.
Qed.

Lemma validate_failure h u id e : response_for id (AbiFailure id e) →
  reads h (response_json (AbiFailure id e)) u →
  validateAbiResponse h u id = Ok (AbiFailure id e).
Proof.
  intros (Hid & _ & (d & Hd & Hm & Hrt) & Hf) Hr. cbn [response_json] in Hr.
  destruct (reads_record _ _ _ (js "response") Hr) as (np & o & Hreq & Hk & Hg).
  pose proof (u_get_reads np (js "abi") _ Hg eq_refl) as Habi.
  pose proof (u_get_reads np (js "id") _ Hg eq_refl) as Hi.
  pose proof (u_get_reads np (js "ok") _ Hg eq_refl) as Hok.
  pose proof (u_get_reads np (js "error") _ Hg eq_refl) as Herr.
  unfold reads in Habi, Hi, Hok. unfold validateAbiResponse. rewrite Hid. cbn [rbind]. rewrite Hreq.
  cbn [rbind]. rewrite Hok, Habi, Hi. unfold is_bool, is_str.
  rewrite (bool_decide_eq_false_2 (UBool false = UBool true)) by done.
  rewrite !(bool_decide_eq_true_2 (_ = _)) by done.
  rewrite (exact_keys_ok _ _ _ _ Hk) by (vm_compute; reflexivity). cbn [rbind negb].
  destruct e as [code msg rt fld]. simpl in Hd, Hm, Hrt, Hf. subst msg rt.
  destruct (catalog_matches code d Hd) as [Hpat Hcat].
  unfold validateAbiFailure, error_json in *. cbn [ae_code ae_message ae_retryable ae_field] in *.
  destruct (reads_record _ _ _ (js "response.error") Herr) as (enp & e & Hreq' & Hk' & Hg').
  pose proof (u_get_reads enp (js "code") _ Hg' eq_refl) as Hc.
  pose proof (u_get_reads enp (js "message") _ Hg' eq_refl) as Hms.
  pose proof (u_get_reads enp (js "retryable") _ Hg' eq_refl) as Hre.
  unfold reads in Hc, Hms, Hre. rewrite Hreq'. cbn [rbind].
  assert (Hin : u_in enp e (js "field") = match fld with Some _ => true | None => false end).
  { unfold u_in. rewrite Hk'.
    replace (bool_decide (js "field" ∈ object_prototype)) with false by reflexivity.
    rewrite andb_false_r, orb_false_r. by destruct fld. }
  rewrite Hin. rewrite (exact_keys_ok _ _ _ _ Hk') by (destruct fld; vm_compute; reflexivity).
  cbn [rbind]. rewrite Hc, Hpat, Hcat, Hms, Hre. unfold same_str, same_bool.
  rewrite !(bool_decide_eq_true_2 (_ = _)) by done. cbn [negb].
  destruct fld as [f|]; [|done].
  pose proof (u_get_reads enp (js "field") _ Hg' eq_refl) as Hfr. unfold reads in Hfr.
  by rewrite Hfr, (Hf f).
Qed.

(** A response made by either constructor, its printed form, and the data it carries. *)
Definition created (h : heap) (id : jstr) (r : AbiResponseV1) : Prop :=
  (∃ v, createAbiSuccessResponse h id v = Ok r) ∨
  (∃ e, fi_code e ∈ GOFORGE_ABI_V1_ERROR_CODES ∧ createAbiFailureResponse id e = Ok r).

(** C35. Round trip: a response made by [createAbiSuccessResponse] or
    [createAbiFailureResponse] and printed with [JSON.stringify] parses back to itself,
    when its data print faithfully (no negative zero), the text has at most 1 MiB, and the whole
    response, which is one level deeper than the result, is at most 32 deep. *)
Theorem response_roundtrip h id r json : heap_ok h → created h id r →
  json_data (response_json r) → height (response_json r) ≤ 32 →
  json_stringify (response_json r) = Some json → (utf8_length json <= MAX_RESPONSE_BYTES)%N →
  parseAbiResponse json id = Ok r.
Proof.
  intros Hh Hc Hd Hht Hj Hlen.
  assert (Hr : response_for id r).
  { destruct Hc as [[v Hv]|(e & He & Hv)];
      [by eapply createAbiSuccessResponse_for | by eapply createAbiFailureResponse_for]. }
  unfold parseAbiResponse. replace (_ <? _)%N with false by lia.
  rewrite (json_parse_stringify _ _ Hd Hj), (scan_stringify _ _ Hd Hht Hj).
  destruct (alloc (response_json r) []) as [h' u] eqn:Ea.
  apply alloc_spec in Ea as (_ & Hok & Hreads); [|by apply json_data_parsed].
  destruct r as [i result|i e]; pose proof Hr as (_ & -> & _).
  - apply validate_success; [by apply Hok; intros ??? | done | done].
  - by apply validate_failure.
Qed.

Lemma response_roundtrip_witness :
  parseAbiResponse (default [] (json_stringify (response_json (AbiSuccess (js "r1") (VObj [(js "n", VNum (dbl_of_Z 3))])))))
    (js "r1") = Ok (AbiSuccess (js "r1") (VObj [(js "n", VNum (dbl_of_Z 3))])).
Proof.
  apply (response_roundtrip [ORec true [(js "n", UNum (dbl_of_Z 3))]] (js "r1")).
  - intros [|[|l]] np o; simpl; try done. intros [= <- <-]. vm_compute. reflexivity.
  - left. exists (URef 0). vm_compute. reflexivity.
  - apply json_datab_correct. vm_compute. reflexivity.
  - vm_compute. lia.
  - vm_compute. reflexivity.
  - vm_compute. discriminate.
Defined.

(** A result of the depth that [createAbiSuccessResponse] still accepts makes a response that is one
    level deeper, which [parseAbiResponse] rejects; so the round trip asks for the depth of the whole
    response. *)
Definition arrays (n : nat) : jsval := Nat.iter n (λ v, VArr [v]) VNull.

Example deep_result_rejected :
  height (arrays 32) = 32 ∧
  (let '(h, v) := alloc (arrays 32) [] in createAbiSuccessResponse h (js "r1") v) = Ok (AbiSuccess (js "r1") (arrays 32)) ∧
  is_ok (parseAbiResponse (default [] (json_stringify (response_json (AbiSuccess (js "r1") (arrays 32))))) (js "r1")) = false ∧
  is_ok (parseAbiResponse (default [] (json_stringify (response_json (AbiSuccess (js "r1") (arrays 31))))) (js "r1")) = true.
Proof. split_and!; vm_compute; reflexivity. Qed.

(** ** What an accepted response is *)

(** A value unfolds to some tree. *)
Definition readable (h : heap) (v : uval) : Prop := ∃ t, reads h t v.

Lemma requireRecord_readable h v path np o : readable h v → requireRecord h v path = Ok (np, o) →
  ∀ k u, own_get k o = Some u → readable h u.
Proof.
  intros [t Ht] H. unfold requireRecord in H. destruct v as [| | | | | | | |l]; try done.
  destruct (h !! l) as [[|np' o'| |]|] eqn:El; try done. injection H as <- <-. intros k u Hk.
  destruct t as [| | | | |ts|ts|]; try (unfold reads in Ht; done).
  - apply reads_arr in Ht as (? & ? & [= <-] & Hl & _). congruence.
  - apply reads_obj in Ht as (? & ? & ? & [= <-] & Hl & HF). rewrite El in Hl. injection Hl as <- <-.
    clear El. induction HF as [|[j t] [j' u'] ts o' [Hj Hr] _ IH]; simpl in *; [done|].
    case_bool_decide; [|by apply IH]. injection Hk as ->. by exists t.
Qed.

Lemma requireExactKeys_get o wanted path k : requireExactKeys o wanted path = Ok tt → k ∈ wanted →
  ∃ u, own_get k o = Some u.
Proof.
  unfold requireExactKeys. case_bool_decide as E; [|done]. intros _ Hk.
  destruct (own_get k o) eqn:Eo; [eauto|]. apply own_get_None in Eo. destruct Eo.
  unfold sort_strings in E. rewrite <- (elem_of_sort jstr_leb), E. by apply elem_of_sort.
Qed.

Lemma not_readable_undef h : ¬ readable h UUndef.
Proof.
  intros [t Ht]. destruct t; try (unfold reads in Ht; done).
  - by apply reads_arr in Ht as (? & ? & ? & _).
  - by apply reads_obj in Ht as (? & ? & ? & ? & _).
Qed.

Lemma assertErrorField_sound v f : assertErrorField v = Ok f → assertErrorField (UStr f) = Ok f.
Proof. intros H. by rewrite (assertErrorField_Ok _ _ H) in H. Qed.

Lemma validateAbiFailure_sound h np o id r :
  (∀ k u, own_get k o = Some u → readable h u) → (∃ u, own_get (js "error") o = Some u) →
  assertIdentifier (UStr id) (js "id") = Ok id →
  validateAbiFailure h np o id = Ok r → response_for id r.
Proof.
  intros Hrd [eu Heu] Hid. unfold validateAbiFailure. rewrite (u_get_own np _ _ _ Heu).
  intros ([enp e] & Hreq & H)%rbind_Ok. apply rbind_Ok in H as ([] & Hkeys & H).
  pose proof (requireRecord_readable _ _ _ _ _ (Hrd _ _ Heu) Hreq) as Hrd'.
  destruct (requireExactKeys_get _ _ _ (js "message") Hkeys) as [mu Hmu]; [set_solver|].
  destruct (u_get enp e (js "code")) as [| | | |code| | | |]; try done.
  destruct (matches errorCodePattern code); [|done]. cbn [negb] in H.
  destruct (catalog code) as [[message retryable]|] eqn:Ecat; [|done].
  destruct (same_str _ message) eqn:Em; [|done]. cbn [negb] in H.
  destruct (same_bool _ retryable) eqn:Er; [|done]. cbn [negb] in H.
  apply rbind_Ok in H as (fld & Hf & [= <-]). split; [done|]. cbn [ae_code ae_message ae_retryable ae_field].
  split_and!; [done| |].
  - unfold catalog in Ecat. destruct (own_get code GOFORGE_ABI_ERROR_CATALOG) as [d|]; [naive_solver|].
    case_bool_decide; [|done]. injection Ecat as <- <-.
    unfold same_str in Em. apply bool_decide_eq_true in Em. rewrite (u_get_own enp _ _ _ Hmu) in Em. subst mu.
    by destruct (not_readable_undef h (Hrd' _ _ Hmu)).
  - intros f ->. destruct (u_in _ _ _); [|done]. apply rbind_Ok in Hf as (f' & Hf & [= <-]).
    by eapply assertErrorField_sound.
Qed.

Lemma validateAbiResponse_sound h u id r : heap_ok h → readable h u →
  validateAbiResponse h u id = Ok r → response_for id r.
Proof.
  intros Hh Hu. unfold validateAbiResponse. intros (i & Hi & H)%rbind_Ok.
  pose proof (assertIdentifier_Ok _ _ _ Hi) as [= <-].
  apply rbind_Ok in H as ([np o] & Hreq & H). apply rbind_Ok in H as ([] & Hkeys & H).
  pose proof (requireRecord_readable _ _ _ _ _ Hu Hreq) as Hrd.
  destruct (is_str (u_get np o (js "abi")) GOFORGE_ABI_V1); cbn [negb] in H;
    [|by apply rbind_Ok in H as (? & _ & ?)].
  destruct (is_str (u_get np o (js "id")) id); [|done]. cbn [negb] in H.
  destruct (is_bool (u_get np o (js "ok")) true).
  - apply rbind_Ok in H as (t & Ht & [= <-]). split; [done|].
    apply copy_sound in Ht as (_ & H2 & H3); [|done]. unfold MAX_JSON_DEPTH in H3. split_and!; [done..|lia].
  - destruct (is_bool (u_get np o (js "ok")) false); [|done]. cbn [negb] in H.
    eapply validateAbiFailure_sound; [exact Hrd| |done|exact H].
    eapply requireExactKeys_get; [exact Hkeys|]. set_solver.
Qed.

(** C37. Whatever text the guest returns, an accepted response echoes the request's
    identifier, its result is finite plain data at most 32 deep, its error is an entry of
    the catalog with exactly the catalog's message and flag, and the text named no member
    twice. *)
Theorem parseAbiResponse_sound json id r : parseAbiResponse json id = Ok r →
  response_for id r ∧ (utf8_length json <= MAX_RESPONSE_BYTES)%N ∧
  ∃ t, text t = json ∧ lossless 0 t = true.
Proof.
  unfold parseAbiResponse. destruct (_ <? _)%N eqn:El; [done|].
  destruct (json_parse json) as [v|] eqn:Ej; [|done].
  pose proof (json_parse_cst _ _ Ej) as (t & <- & Hv & Ht).
  pose proof (scan_text t Ht) as Hs. destruct (lossless 0 t) eqn:Et.
  - rewrite Hs. destruct (alloc v []) as [h u] eqn:Ea. intros H.
    apply alloc_spec in Ea as (_ & Hok & Hr); [|by eapply json_parse_parsed].
    split_and!; [|lia|by exists t]. eapply validateAbiResponse_sound; [|by exists v|done].
    apply Hok. by intros ???.
  - destruct Hs as [m ->]. done.
Qed.

Lemma parseAbiResponse_sound_witness :
  response_for (js "r") (AbiFailure (js "r") {| ae_code := js "internal";
    ae_message := Some (js "portable operation failed without a safe public detail");
    ae_retryable := Some false; ae_field := None |}).
Proof.
  refine (proj1 (parseAbiResponse_sound (default [] (json_stringify (response_json (AbiFailure (js "r")
    {| ae_code := js "internal";
       ae_message := Some (js "portable operation failed without a safe public detail");
       ae_retryable := Some false; ae_field := None |})))) _ _ _)). vm_compute. reflexivity.
Defined.

(** A response that an adapter returns as an object can carry an error that is not in the
    catalog: the name of an inherited property, with an undefined message and flag. *)
Theorem inherited_error_accepted :
  validateAbiResponse
    [ORec false [(js "code", UStr (js "constructor")); (js "message", UUndef); (js "retryable", UUndef)];
     ORec false [(js "abi", UStr GOFORGE_ABI_V1); (js "id", UStr (js "r")); (js "ok", UBool false);
                 (js "error", URef 0)]] (URef 1) (js "r")
  = Ok (AbiFailure (js "r") {| ae_code := js "constructor"; ae_message := None; ae_retryable := None;
                               ae_field := None |}).
Proof. vm_compute. reflexivity. Qed.

(** ** Requests: creating and serializing *)

(** Objects on the longest path of a tree. *)
Fixpoint levels (t : jsval) : nat :=
  match t with
  | VArr ts => S (foldr (λ t n, Nat.max (levels t) n) 0 ts)
  | VObj ts => S (foldr (λ p n, Nat.max (levels p.2) n) 0 ts)
  | _ => 0
  end.

Lemma foldr_max_levels {A} (f : A → nat) l n : foldr (λ x m, Nat.max (f x) m) 0 l ≤ n ↔
  Forall (λ x, f x ≤ n) l.
Proof. induction l as [|x l IH]; simpl; [split; [constructor | lia]|]. rewrite Forall_cons, <- IH. lia. Qed.

Lemma alloc_list_length ts h us h' us' :
  Forall (λ t, ∀ h h' u, alloc t h = (h', u) → length h + levels t ≤ length h') ts →
  alloc_list (map alloc ts) h us = (h', us') →
  length h + foldr (λ t n, Nat.max (levels t) n) 0 ts ≤ length h'.
Proof.
  intros HF. revert h us; induction HF as [|t ts Ht _ IH]; intros h us; simpl.
  - intros [= <- <-]. lia.
  - unfold alloc_list. cbn [foldl fst]. destruct (alloc t h) as [h1 u] eqn:E. cbn [snd].
    fold (alloc_list (map alloc ts) h1 (us ++ [u])). apply Ht in E. intros H%IH. lia.
Qed.

Lemma alloc_length t : ∀ h h' u, alloc t h = (h', u) → length h + levels t ≤ length h'.
Proof.
  induction t as [| |b|d|s|ts IH|ts IH|] using jsval_ind'; intros h h' u;
    try (intros [= <- <-]; simpl; lia).
  - cbn [alloc]. fold (alloc_list (map alloc ts) h []).
    destruct (alloc_list (map alloc ts) h []) as [h1 us] eqn:E. intros [= <- <-].
    apply alloc_list_length in E; [|done]. rewrite length_app. simpl. lia.
  - cbn [alloc]. rewrite <- (map_map snd alloc). fold (alloc_list (map alloc (map snd ts)) h []).
    destruct (alloc_list _ h []) as [h1 us] eqn:E. intros [= <- <-].
    apply alloc_list_length in E; [|by apply Forall_map].
    assert (foldr (λ t n, Nat.max (levels t) n) 0 (map snd ts)
            = foldr (λ p n, Nat.max (levels p.2) n) 0 ts) as Ef
      by (clear; induction ts as [|p ts IH]; simpl; [done | by rewrite IH]).
    rewrite length_app. cbn [levels length]. lia.
Qed.

Lemma u_tree_reads h t : ∀ v fuel, reads h t v → levels t ≤ fuel → u_tree fuel h v = Ok t.
Proof.
  induction t as [| |b|d|s|ts IH|ts IH|] using jsval_ind'; intros v fuel Hr Hf;
    try (unfold reads in Hr; subst; by destruct fuel).
  - apply reads_arr in Hr as (l & us & -> & Hl & HF). simpl in Hf. destruct fuel as [|fuel]; [lia|].
    simpl. rewrite Hl. apply le_S_n, foldr_max_levels in Hf.
    rewrite (proj2 (mapM_res_Forall2 _ us ts)); [done|].
    apply Forall2_flip. apply Forall2_same_length_lookup. split; [by eapply Forall2_length|].
    intros i t u Ht Hu. rewrite Forall_lookup in IH, Hf. eapply IH; eauto.
    by eapply Forall2_lookup_lr in HF.
  - apply reads_obj in Hr as (l & np & o & -> & Hl & HF). simpl in Hf. destruct fuel as [|fuel]; [lia|].
    simpl. rewrite Hl. apply le_S_n, (foldr_max_levels (λ p : jstr * jsval, levels p.2)) in Hf.
    rewrite (proj2 (mapM_res_Forall2 _ o ts)); [done|].
    apply Forall2_flip. apply Forall2_same_length_lookup. split; [by eapply Forall2_length|].
    intros i [k t] [k' u] Ht Hu. pose proof (Forall2_lookup_lr _ _ _ _ _ _ HF Ht Hu) as [Hk Hr].
    rewrite Forall_lookup in IH, Hf. simpl in *. subst k'.
    pose proof (IH _ _ Ht u fuel Hr (Hf _ _ Ht)) as E. simpl in E. by rewrite E.
Qed.

Lemma check_capabilities_again us cs : ∀ seen, foldM_res check_capability seen us = Ok cs →
  ∃ new, cs = seen ++ new ∧ length new = length us ∧ foldM_res check_capability seen (map UStr new) = Ok cs.
Proof.
  induction us as [|u us IH]; intros seen; simpl.
  - intros [= <-]. exists []. by rewrite app_nil_r.
  - intros (seen' & Hc & H)%rbind_Ok. pose proof Hc as Hc'. unfold check_capability in Hc.
    destruct u as [| | | |c| | | |]; try done. destruct (_ || _); [done|].
    destruct (negb _); [done|]. injection Hc as <-. apply IH in H as (new & -> & Hlen & H).
    exists (c :: new). rewrite <- app_assoc. split_and!; [done|simpl; lia|].
    cbn [map foldM_res]. rewrite Hc'. cbn [rbind]. by rewrite H, <- app_assoc.
Qed.

Lemma reads_strings h cs us : Forall2 (reads h) (map VStr cs) us → us = map UStr cs.
Proof.
  revert us; induction cs as [|c cs IH]; intros us H; simpl in H.
  - by apply Forall2_nil_inv_l in H.
  - apply Forall2_cons_inv_l in H as (u & us' & Hu & H & ->). unfold reads in Hu. subst u.
    simpl. f_equal. by apply IH.
Qed.

(** Metadata the codec produced: the checks pass again. *)
Definition metadata_ok (md : AbiRequestMetadataV1) : Prop :=
  (∀ d, md_deadline_unix_ms md = Some d → metadata_deadline (UNum d) = Ok (Some d)) ∧
  (∀ t, md_cancellation_token md = Some t → assertToken (UStr t) = Ok t) ∧
  (∀ cs, md_required_capabilities md = Some cs →
    length cs ≤ MAX_REQUIRED_CAPABILITIES ∧ foldM_res check_capability [] (map UStr cs) = Ok cs).

Lemma normalizeMetadata_ok h v md : normalizeMetadata h v = Ok md → metadata_ok md.
Proof.
  unfold normalizeMetadata. intros ([np o] & _ & H)%rbind_Ok.
  apply rbind_Ok in H as (? & _ & H). apply rbind_Ok in H as (d & Hd & H).
  apply rbind_Ok in H as (t & Ht & H). apply rbind_Ok in H as (c & Hc & [= <-]). split_and!; simpl.
  - intros d' ->. unfold metadata_deadline in Hd.
    destruct (u_get np o (js "deadline_unix_ms")); try done. destruct (_ && _) eqn:E; [|done].
    injection Hd as <-. unfold metadata_deadline. by rewrite E.
  - intros t' ->. unfold metadata_token in Ht.
    destruct (u_get np o (js "cancellation_token")) as [| | | |s| | | |]; try done;
      apply rbind_Ok in Ht as (t & Ht & [= <-]); try done.
    assert (s = t) as -> by (unfold assertToken, bounded_text in Ht; by destruct (_ || _); [|injection Ht]).
    done.
  - intros cs ->. unfold metadata_capabilities in Hc.
    destruct (u_get np o (js "required_capabilities")); try done.
    destruct (h !! l) as [[us| | |]|]; try done. destruct (_ <? _) eqn:E; [done|].
    apply rbind_Ok in Hc as (cs' & Hcs & [= ->]).
    apply check_capabilities_again in Hcs as (new & -> & Hlen & Hcs). split; [simpl; lia | done].
Qed.

Lemma u_get_missing np k o ks : keys o = ks → k ∉ ks → k ∉ object_prototype → u_get np o k = UUndef.
Proof.
  intros <- Hk Hp. unfold u_get. rewrite (proj2 (own_get_None k o) Hk).
  rewrite bool_decide_eq_false_2 by done. by rewrite andb_false_r.
Qed.

Lemma normalizeMetadata_again h u md : metadata_ok md → reads h (metadata_json md) u →
  normalizeMetadata h u = Ok md.
Proof.
  intros (Hd & Ht & Hc) Hr. unfold metadata_json in Hr.
  destruct (reads_record _ _ _ (js "metadata") Hr) as (np & o & Hreq & Hk & Hg).
  unfold normalizeMetadata. rewrite Hreq. cbn [rbind].
  destruct md as [d t c]. cbn [md_deadline_unix_ms md_cancellation_token md_required_capabilities] in *.
  assert (Hm : mapM_res (λ k, if bool_decide (k ∈ metadata_fields) then @Ok exn unit tt
                 else codec_err (js "metadata contains unknown field " ++ k)) (keys o)
               = Ok (map (λ _, tt) (keys o))).
  { rewrite Hk. by destruct d, t, c. }
  rewrite Hm. cbn [rbind]. clear Hm.
  assert (Ed : metadata_deadline (u_get np o (js "deadline_unix_ms")) = Ok d).
  { destruct d as [d|].
    - pose proof (u_get_reads np (js "deadline_unix_ms") (VNum d) Hg eq_refl) as H. unfold reads in H.
      rewrite H. by apply Hd.
    - rewrite (u_get_missing np _ o _ Hk); [done| |by apply (bool_decide_unpack _)]. by destruct t, c; apply (bool_decide_unpack _). }
  rewrite Ed. cbn [rbind].
  assert (Et : metadata_token (u_get np o (js "cancellation_token")) = Ok t).
  { destruct t as [t|].
    - pose proof (u_get_reads np (js "cancellation_token") (VStr t) Hg ltac:(by destruct d)) as H.
      unfold reads in H. rewrite H. unfold metadata_token. by rewrite (Ht t).
    - rewrite (u_get_missing np _ o _ Hk); [done| |by apply (bool_decide_unpack _)]. by destruct d, c; apply (bool_decide_unpack _). }
  rewrite Et. cbn [rbind].
  assert (Ec : metadata_capabilities h (u_get np o (js "required_capabilities")) = Ok c).
  { destruct c as [cs|].
    - pose proof (u_get_reads np (js "required_capabilities") (VArr (map VStr cs)) Hg ltac:(by destruct d, t)) as H.
      apply reads_arr in H as (l & us & -> & Hl & HF). apply reads_strings in HF as ->.
      unfold metadata_capabilities. rewrite Hl, length_map. destruct (Hc cs eq_refl) as [H1 H2].
      replace (_ <? _) with false by lia. by rewrite H2.
    - rewrite (u_get_missing np _ o _ Hk); [done| |by apply (bool_decide_unpack _)]. by destruct d, t; apply (bool_decide_unpack _). }
  by rewrite Ec.
Qed.

Lemma createAbiRequest_spec h id op p md rq : heap_ok h →
  createAbiRequest h id op p md = Ok rq →
  rq_id rq = id ∧ rq_operation rq = op ∧ assertIdentifier (UStr id) (js "id") = Ok id ∧
  operation_known op = true ∧ abi_value (rq_payload rq) = true ∧ height (rq_payload rq) ≤ 32 ∧
  ∀ m, rq_metadata rq = Some m → metadata_ok m.
Proof.
  intros Hh (i & Hi & H)%rbind_Ok. pose proof (assertIdentifier_Ok _ _ _ Hi) as [= <-].
  destruct (operation_known op) eqn:Eo; [|done]. cbn [negb] in H.
  apply rbind_Ok in H as (m & Hm & H). apply rbind_Ok in H as (t & Ht & [= <-]).
  apply copy_sound in Ht as (_ & H2 & H3); [|done]. unfold MAX_JSON_DEPTH in H3.
  cbn [rq_id rq_operation rq_payload rq_metadata]. split_and!; [done..|lia|].
  intros m' ->. destruct md as [u|]; [|done]. apply rbind_Ok in Hm as (m & Hm & [= ->]).
  by eapply normalizeMetadata_ok.
Qed.

Lemma validateRequest_ok h u rq : heap_ok h → reads h (request_json rq) u →
  assertIdentifier (UStr (rq_id rq)) (js "id") = Ok (rq_id rq) →
  operation_known (rq_operation rq) = true → abi_value (rq_payload rq) = true →
  height (rq_payload rq) ≤ 32 → (∀ m, rq_metadata rq = Some m → metadata_ok m) →
  validateRequestEnvelope h u = Ok tt.
Proof.
  intros Hh Hr Hid Hop Ha Hht Hmd. destruct rq as [id op md p].
  cbn [rq_id rq_operation rq_payload rq_metadata] in *. unfold request_json in Hr.
  cbn [rq_id rq_operation rq_payload rq_metadata] in Hr.
  destruct (reads_record _ _ _ (js "request") Hr) as (np & o & Hreq & Hk & Hg).
  pose proof (u_get_reads np (js "abi") _ Hg eq_refl) as Habi.
  pose proof (u_get_reads np (js "id") _ Hg eq_refl) as Hi.
  pose proof (u_get_reads np (js "operation") _ Hg eq_refl) as Hopr.
  pose proof (u_get_reads np (js "payload") p Hg ltac:(by destruct md)) as Hp.
  unfold reads in Habi, Hi, Hopr. unfold validateRequestEnvelope. rewrite Hreq. cbn [rbind].
  rewrite Habi, Hi, Hopr, Hid. unfold is_str. rewrite (bool_decide_eq_true_2 (UStr _ = _)) by done.
  cbn [negb rbind]. rewrite Hop. cbn [negb].
  assert (Hcopy : encodeAbiValue h (u_get np o (js "payload")) = Ok p).
  { apply (copy_complete h p Hh); [done..|unfold MAX_JSON_DEPTH; lia|constructor]. }
  destruct md as [m|].
  - pose proof (u_get_reads np (js "metadata") (metadata_json m) Hg eq_refl) as Hm.
    assert (Hu : u_get np o (js "metadata") ≠ UUndef).
    { intros E. rewrite E in Hm. by eapply not_readable_undef; exists (metadata_json m). }
    rewrite !(bool_decide_eq_false_2 (_ = UUndef)) by done.
    rewrite (exact_keys_ok _ _ _ _ Hk) by (vm_compute; reflexivity). cbn [rbind].
    rewrite (normalizeMetadata_again _ _ m) by auto. cbn [rbind]. by rewrite Hcopy.
  - rewrite (u_get_missing np (js "metadata") o _ Hk) by by apply (bool_decide_unpack _).
    rewrite !(bool_decide_eq_true_2 (UUndef = UUndef)) by done.
    rewrite (exact_keys_ok _ _ _ _ Hk) by (vm_compute; reflexivity). cbn [rbind]. by rewrite Hcopy.
Qed.

(** A request that [createAbiRequest] made always passes [serializeAbiRequest]'s
    validation: the result is its JSON text, fields in the order of Go's struct, which
    parses back to the same request, unless the text exceeds the byte limit, and then the
    call throws a codec error. *)
Theorem request_serializes h id op p md rq h' u json : heap_ok h →
  createAbiRequest h id op p md = Ok rq → json_data (request_json rq) →
  alloc (request_json rq) [] = (h', u) → json_stringify (request_json rq) = Some json →
  serializeAbiRequest h' u = (if (MAX_REQUEST_BYTES <? utf8_length json)%N
                              then codec_err (js "request exceeds the ABI byte limit") else Ok json)
  ∧ json_parse json = Some (request_json rq).
Proof.
  intros Hh Hc Hd Ha Hj. split; [|by apply json_parse_stringify].
  apply createAbiRequest_spec in Hc as (<- & <- & Hid & Hop & Hav & Hht & Hmd); [|done].
  pose proof (alloc_length _ _ _ _ Ha) as Hlen.
  apply alloc_spec in Ha as (_ & Hok & Hr); [|by apply json_data_parsed].
  assert (Hh' : heap_ok h') by (apply Hok; by intros ???).
  unfold serializeAbiRequest. rewrite (validateRequest_ok h' u rq) by done. cbn [rbind].
  unfold u_show, u_stringify. rewrite (u_tree_reads h' (request_json rq)) by (done || (simpl in *; lia)).
  cbn [rbind]. rewrite Hj. done.
Qed.

Definition demo_metadata : uval := URef 1.
Definition demo_heap : heap :=
  [ORec true [(js "data", UStr (js "aGk="))];
   ORec false [(js "deadline_unix_ms", UNum (dbl_of_Z 5)); (js "required_capabilities", URef 2)];
   OArr [UStr (js "crypto.sha256")]].

Lemma demo_heap_ok : heap_ok demo_heap.
Proof.
  intros [|[|[|l]]] np o; simpl; try done; intros [= <- <-]; vm_compute; reflexivity.
Qed.

Definition demo_request : AbiRequestV1 :=
  {| rq_id := js "r1"; rq_operation := js "crypto.sha256";
     rq_metadata := Some {| md_deadline_unix_ms := Some (dbl_of_Z 5); md_cancellation_token := None;
                            md_required_capabilities := Some [js "crypto.sha256"] |};
     rq_payload := VObj [(js "data", VStr (js "aGk="))] |}.

Lemma request_serializes_witness :
  let '(h', u) := alloc (request_json demo_request) [] in
  is_ok (serializeAbiRequest h' u) = true.
Proof.
  destruct (alloc (request_json demo_request) []) as [h' u] eqn:E.
  rewrite (proj1 (request_serializes demo_heap (js "r1") (js "crypto.sha256") (URef 0) (Some demo_metadata)
    demo_request h' u (default [] (json_stringify (request_json demo_request))) demo_heap_ok
    ltac:(vm_compute; reflexivity) ltac:(apply json_datab_correct; vm_compute; reflexivity) E
    ltac:(vm_compute; reflexivity))).
  vm_compute. reflexivity.
Defined.

(** ** Base64 *)

(** What RFC 4648 promises: decoding inverts encoding, and an encoding is canonical. *)
Class Base64Laws `(B : Base64) := {
  base64_decode_encode bs : Forall (λ b, (b < 256)%N) bs → decodeBase64 (encodeBase64 bs) = Some bs;
  base64_canonical bs : Forall (λ b, (b < 256)%N) bs →
    length (encodeBase64 bs) mod 4 = 0 ∧ matches base64Pattern (encodeBase64 bs) = true;
}.

(** [decodeAbiBase64] accepts exactly the texts [encodeAbiBase64] produces: a text
    decodes to [bytes] if and only if it is their canonical encoding and they are within
    the binary limit. *)
Theorem decodeAbiBase64_exact `{Base64Laws} s bytes : Forall (λ b, (b < 256)%N) bytes →
  decodeAbiBase64 s = Ok bytes ↔ encodeAbiBase64 [OBin BUint8Array bytes] (URef 0) = Ok s.
Proof.
  intros Hb. unfold decodeAbiBase64, encodeAbiBase64, assertCanonicalBase64. simpl lookup. cbn match.
  split.
  - intros ([] & H1 & H2)%rbind_Ok. destruct (_ || _); [done|].
    destruct (decodeBase64 s) as [decoded|]; [|done]. case_bool_decide; [|done].
    destruct (MAX_BINARY_BYTES <? N.of_nat (length decoded))%N eqn:E; [done|]. injection H2 as ->.
    rewrite E. by subst s.
  - destruct (_ <? _)%N eqn:El; [done|]. intros [= <-].
    destruct (base64_canonical bytes Hb) as [H1 H2]. rewrite H1, H2. cbn [Nat.eqb negb orb].
    rewrite base64_decode_encode by done. rewrite bool_decide_eq_true_2 by done. cbn [rbind]. by rewrite El.
Qed.

(** An instance: the encoding of RFC 4648. *)
Module Rfc4648.
Definition char_of (i : N) : N :=
  (if i <? 26 then 65 + i else if i <? 52 then 71 + i else if i <? 62 then i - 4
   else if i =? 62 then 43 else 47)%N.

Definition index_of (c : N) : option N :=
  (if is_upper c then Some (c - 65) else if is_lower c then Some (c - 71)
   else if is_digit c then Some (c + 4) else if c =? 43 then Some 62
   else if c =? 47 then Some 63 else None)%N.

Fixpoint encode (bs : list N) : jstr :=
  match bs with
  | [] => []
  | [a] => [char_of (a / 4); char_of (a mod 4 * 16); 61; 61]%N
  | [a; b] => [char_of (a / 4); char_of (a mod 4 * 16 + b / 16); char_of (b mod 16 * 4); 61]%N
  | a :: b :: c :: r =>
      (char_of (a / 4) :: char_of (a mod 4 * 16 + b / 16) :: char_of (b mod 16 * 4 + c / 64)
       :: char_of (c mod 64) :: encode r)%N
  end.

Fixpoint decode (s : jstr) : option (list N) :=
  match s with
  | [] => Some []
  | a :: b :: c :: d :: r =>
      i ← index_of a; j ← index_of b;
      match index_of c, index_of d with
      | Some k, Some l =>
          bs ← decode r;
          Some ((i * 4 + j / 16) :: (j mod 16 * 16 + k / 4) :: (k mod 4 * 64 + l) :: bs)%N
      | Some k, None =>
          if bool_decide (d = 61%N ∧ r = []) then Some [(i * 4 + j / 16); (j mod 16 * 16 + k / 4)]%N else None
      | None, _ => if bool_decide (c = 61%N ∧ d = 61%N ∧ r = []) then Some [(i * 4 + j / 16)%N] else None
      end
  | _ => None
  end.

Lemma index_char i : (i < 64)%N → index_of (char_of i) = Some i ∧ base64_char (char_of i) = true.
Proof.
  intros H.
  assert (Hall : forallb (λ i, bool_decide (index_of (char_of i) = Some i) && base64_char (char_of i))
                   (map N.of_nat (seq 0 64)) = true) by (vm_compute; reflexivity).
  rewrite forallb_forall in Hall. specialize (Hall i).
  rewrite in_map_iff in Hall.
  assert (Hin : ∃ x, N.of_nat x = i ∧ In x (seq 0 64)).
  { exists (N.to_nat i). split; [lia|]. apply in_seq. lia. }
  apply Hall in Hin as [H1 H2]%andb_true_iff. by apply bool_decide_eq_true in H1.
Qed.

Lemma index_of_char i : (i < 64)%N → index_of (char_of i) = Some i.
Proof. apply index_char. Qed.
Lemma base64_char_of i : (i < 64)%N → base64_char (char_of i) = true.
Proof. apply index_char. Qed.

(** The quotients and remainders of a byte the encoding uses, as opaque values. *)
Lemma split_byte a : (a < 256)%N → ∃ q4 m4 q16 m16 q64 m64,
  (a / 4 = q4 ∧ a mod 4 = m4 ∧ a / 16 = q16 ∧ a mod 16 = m16 ∧ a / 64 = q64 ∧ a mod 64 = m64 ∧
   q4 < 64 ∧ m4 < 4 ∧ q16 < 16 ∧ m16 < 16 ∧ q64 < 4 ∧ m64 < 64 ∧
   q4 * 4 + m4 = a ∧ q16 * 16 + m16 = a ∧ q64 * 64 + m64 = a)%N.
Proof.
  intros H. exists (a / 4)%N, (a mod 4)%N, (a / 16)%N, (a mod 16)%N, (a / 64)%N, (a mod 64)%N.
  pose proof (N.div_mod a 4). pose proof (N.div_mod a 16). pose proof (N.div_mod a 64).
  pose proof (N.mod_lt a 4). pose proof (N.mod_lt a 16). pose proof (N.mod_lt a 64). lia.
Qed.

Lemma div_add q x d : (x < d → (q * d + x) / d = q)%N.
Proof. intros H. rewrite N.div_add_l by lia. rewrite N.div_small by done. lia. Qed.
Lemma mod_add q x d : (x < d → (q * d + x) mod d = x)%N.
Proof. intros H. rewrite N.add_comm, N.Div0.mod_add. by apply N.mod_small. Qed.

(** Induction by groups of three bytes. *)
Lemma group_ind (P : list N → Prop) :
  P [] → (∀ a, P [a]) → (∀ a b, P [a; b]) → (∀ a b c r, P r → P (a :: b :: c :: r)) → ∀ bs, P bs.
Proof.
  intros H0 H1 H2 H3 bs. assert (H : ∀ n bs, length bs ≤ n → P bs).
  { clear bs. induction n as [|n IH]; intros [|a [|b [|c r]]] Hn; simpl in Hn; auto; try lia.
    apply H3, IH. lia. }
  by apply (H (length bs)).
Qed.

Ltac rewrite_parts :=
  repeat match goal with
  | H : (?x / _)%N = _ |- context [(?x / _)%N] => rewrite H
  | H : (?x mod _)%N = _ |- context [(?x mod _)%N] => rewrite H
  end;
  repeat match goal with
  | H : (_ / _)%N = _ |- _ => clear H
  | H : (_ mod _)%N = _ |- _ => clear H
  end.

Lemma decode_encode bs : Forall (λ b, (b < 256)%N) bs → decode (encode bs) = Some bs.
Proof.
  induction bs as [|a|a b|a b c r IH] using group_ind; intros HF; [done|..].
  - apply Forall_cons in HF as [Ha _]. destruct (split_byte a Ha) as (qa & ra & sa & ta & ua & va & Eqa & Era & Esa & Eta & Eua & Eva & ? & ? & ? & ? & ? & ? & D4a & D16a & D64a).
    cbn [encode decode]. rewrite_parts. change (index_of 61) with (@None N).
    rewrite !index_of_char by lia. cbn [mbind option_bind]; try rewrite bool_decide_eq_true_2 by done.
    replace (ra * 16)%N with (ra * 16 + 0)%N by lia. rewrite div_add by lia. by rewrite D4a.
  - apply Forall_cons in HF as [Ha HF]. apply Forall_cons in HF as [Hb _].
    destruct (split_byte a Ha) as (qa & ra & sa & ta & ua & va & Eqa & Era & Esa & Eta & Eua & Eva & ? & ? & ? & ? & ? & ? & D4a & D16a & D64a).
    destruct (split_byte b Hb) as (qb & rb & sb & tb & ub & vb & Eqb & Erb & Esb & Etb & Eub & Evb & ? & ? & ? & ? & ? & ? & D4b & D16b & D64b).
    cbn [encode decode]. rewrite_parts. change (index_of 61) with (@None N).
    rewrite !index_of_char by lia. cbn [mbind option_bind]; try rewrite bool_decide_eq_true_2 by done.
    rewrite div_add, mod_add by lia.
    replace (tb * 4)%N with (tb * 4 + 0)%N by lia. rewrite div_add by lia.
    by rewrite D4a, D16b.
  - apply Forall_cons in HF as [Ha HF]. apply Forall_cons in HF as [Hb HF]. apply Forall_cons in HF as [Hc HF].
    destruct (split_byte a Ha) as (qa & ra & sa & ta & ua & va & Eqa & Era & Esa & Eta & Eua & Eva & ? & ? & ? & ? & ? & ? & D4a & D16a & D64a).
    destruct (split_byte b Hb) as (qb & rb & sb & tb & ub & vb & Eqb & Erb & Esb & Etb & Eub & Evb & ? & ? & ? & ? & ? & ? & D4b & D16b & D64b).
    destruct (split_byte c Hc) as (qc & rc & sc & tc & uc & vc & Eqc & Erc & Esc & Etc & Euc & Evc & ? & ? & ? & ? & ? & ? & D4c & D16c & D64c).
    cbn [encode decode]. rewrite_parts. change (index_of 61) with (@None N).
    rewrite !index_of_char by lia. cbn [mbind option_bind]; try rewrite bool_decide_eq_true_2 by done.
    rewrite (IH HF). cbn [option_bind]. rewrite !div_add, !mod_add by lia.
    by rewrite D4a, D16b, D64c.
Qed.

Lemma canonical bs : Forall (λ b, (b < 256)%N) bs →
  length (encode bs) mod 4 = 0 ∧ matches base64Pattern (encode bs) = true.
Proof.
  intros HF. split.
  - induction bs as [|a|a b|a b c r IH] using group_ind; try done.
    do 3 apply Forall_cons in HF as [_ HF]. cbn [encode length].
    replace (S (S (S (S (length (encode r)))))) with (length (encode r) + 1 * 4) by lia.
    rewrite Nat.Div0.mod_add. by apply IH.
  - assert (Hq : ∀ a b c d, base64_char a = true → base64_char b = true → base64_char c = true →
      base64_char d = true → matches (RRep 4 (RClass base64_char)) [a; b; c; d] = true).
    { intros a b c d Ha Hb Hc Hd. simpl. rewrite Ha. simpl. rewrite Hb. simpl. rewrite Hc. simpl.
      by rewrite Hd. }
    assert (Hlast : ∀ w, matches (ROpt ((RRep 2 (RClass base64_char) ⋅ RLit "==") ⊕
                                     (RRep 3 (RClass base64_char) ⋅ RLit "="))) w = true →
                  matches base64Pattern w = true).
    { intros w Hw. rewrite <- (app_nil_l w). by apply matches_cat. }
    induction bs as [|a|a b|a b c r IH] using group_ind.
    + by apply Hlast.
    + apply Forall_cons in HF as [Ha _]. destruct (split_byte a Ha) as (qa & ra & sa & ta & ua & va & Eqa & Era & Esa & Eta & Eua & Eva & ? & ? & ? & ? & ? & ? & D4a & D16a & D64a).
      apply Hlast. cbn [encode]. rewrite_parts. apply (matches_lang _ _). apply L_alt_l, L_alt_l.
      apply (L_cat _ _ [_; _] [_; _]); apply matches_lang; [|reflexivity].
      simpl. rewrite (base64_char_of (qa)) by lia. simpl.
      by rewrite (base64_char_of (ra * 16)) by lia.
    + apply Forall_cons in HF as [Ha HF]. apply Forall_cons in HF as [Hb _].
      destruct (split_byte a Ha) as (qa & ra & sa & ta & ua & va & Eqa & Era & Esa & Eta & Eua & Eva & ? & ? & ? & ? & ? & ? & D4a & D16a & D64a).
      destruct (split_byte b Hb) as (qb & rb & sb & tb & ub & vb & Eqb & Erb & Esb & Etb & Eub & Evb & ? & ? & ? & ? & ? & ? & D4b & D16b & D64b).
      apply Hlast. cbn [encode]. rewrite_parts. apply (matches_lang _ _). apply L_alt_l, L_alt_r.
      apply (L_cat _ _ [_; _; _] [_]); apply matches_lang; [|reflexivity].
      simpl. rewrite (base64_char_of (qa)) by lia. simpl.
      rewrite (base64_char_of (ra * 16 + sb)) by lia. simpl.
      by rewrite (base64_char_of (tb * 4)) by lia.
    + apply Forall_cons in HF as [Ha HF]. apply Forall_cons in HF as [Hb HF]. apply Forall_cons in HF as [Hc HF].
      destruct (split_byte a Ha) as (qa & ra & sa & ta & ua & va & Eqa & Era & Esa & Eta & Eua & Eva & ? & ? & ? & ? & ? & ? & D4a & D16a & D64a).
      destruct (split_byte b Hb) as (qb & rb & sb & tb & ub & vb & Eqb & Erb & Esb & Etb & Eub & Evb & ? & ? & ? & ? & ? & ? & D4b & D16b & D64b).
      destruct (split_byte c Hc) as (qc & rc & sc & tc & uc & vc & Eqc & Erc & Esc & Etc & Euc & Evc & ? & ? & ? & ? & ? & ? & D4c & D16c & D64c).
      specialize (IH HF). apply matches_lang, lang_cat in IH as (u & v & E & Hu & Hv).
      cbn [encode]. rewrite E. rewrite_parts. apply matches_lang.
      change (?x1 :: ?x2 :: ?x3 :: ?x4 :: u ++ v) with (([x1; x2; x3; x4] ++ u) ++ v).
      apply L_cat; [|done]. apply L_star_app; [done| |done]. apply matches_lang, Hq;
        apply base64_char_of; lia.
Qed.

#[export] Instance base64 : Base64 := {| encodeBase64 := encode; decodeBase64 := decode |}.
#[export] Instance base64_laws : Base64Laws base64.
Proof. split; [apply decode_encode | apply canonical]. Qed.
End Rfc4648.

Lemma decodeAbiBase64_exact_witness : @decodeAbiBase64 Rfc4648.base64 (js "aGk=") = Ok [104; 105]%N.
Proof.
  apply (@decodeAbiBase64_exact Rfc4648.base64 Rfc4648.base64_laws (js "aGk=") [104; 105]%N).
  - repeat constructor.
  - vm_compute. reflexivity.
Defined.
