(* ===== verification/Manifest.v ===== *)
(** * wasm/manifest.ts: bundle verification and the portable contract

    Every [unknown] of this file comes out of [JSON.parse], so it is a tree of [jsval].
    The artifact reader, SHA-256 and [String.prototype.localeCompare] are parameters; the
    reader may answer differently on each call, so it takes the number of the call.
    [Object.freeze] and the [cause] of an error are not observed and left out. *)

From S2P Require Export Codec.
Local Open Scope nat_scope.

Definition manifest_err {A} (m : jstr) : res exn A := Err (XWasm (wasmManifestError m)).
Definition integrity_err {A} (m : jstr) : res exn A := Err (XWasm (wasmIntegrityError m)).
Definition compat_err {A} (m : jstr) : res exn A := Err (XWasm (wasmCompatibilityError m)).

(** [JSON.stringify(v)] inside a template. *)
Definition show (v : jsval) : jstr := default (js "undefined") (json_stringify v).

(** ** Patterns *)

Definition r_alnum_dot_dash : regex := RClass (λ c, is_alnum c || (c =? 46)%N || (c =? 45)%N).
Definition sha256Pattern : regex := RRep 64 (RClass (λ c, in_range 97 102 c || is_digit c)).
Definition versionPattern : regex :=
  r_decimal ⋅ RChar 46 ⋅ r_decimal ⋅ RChar 46 ⋅ r_decimal
  ⋅ ROpt (RChar 45 ⋅ RPlus r_alnum_dot_dash) ⋅ ROpt (RChar 43 ⋅ RPlus r_alnum_dot_dash).
Definition r_wit_name : regex := r_lower ⋅ (RClass (λ c, is_lower c || is_digit c || (c =? 45)%N))^*.
Definition witPattern : regex :=
  r_wit_name ⋅ RChar 58 ⋅ r_wit_name ⋅ RChar 64 ⋅ r_decimal ⋅ RChar 46 ⋅ r_decimal ⋅ RChar 46 ⋅ r_decimal.
(** [^[a-z][a-z0-9]*(?:[._/-][a-z0-9]+)*$], the pattern of operations, capabilities and
    adapter names. *)
Definition operationPattern : regex :=
  r_lower ⋅ r_lower_digit^* ⋅ (ROneOf "._/-" ⋅ RPlus r_lower_digit)^*.
Definition capabilityPattern : regex := operationPattern.

(** ** Guards *)

Definition bad_segment (s : jstr) : bool := bool_decide (s ∈ [[]; js "."; js ".."]).

Definition assertRelativeArtifactPath (value path : jstr) : res exn unit :=
  if bool_decide (value = []) || startsWith value (js "/") || startsWith value (js "\")
     || includes_char value 58 || includes_char value 63 || includes_char value 35
     || includes_char value 37 || includes_char value 92
  then manifest_err (path ++ js " must be a package-relative path")
  else if existsb bad_segment (split_on 47 value)
  then manifest_err (path ++ js " contains an invalid path segment")
  else Ok tt.

Definition assertSha256 (value path : jstr) : res exn unit :=
  if matches sha256Pattern value then Ok tt
  else manifest_err (path ++ js " must be a lowercase SHA-256 digest").

Definition requireRecord (v : jsval) (path : jstr) : res exn (list (jstr * jsval)) :=
  match v with VObj o => Ok o | _ => manifest_err (path ++ js " must be an object") end.

Definition requireExactKeys (o : list (jstr * jsval)) (expected : list jstr) (path : jstr) : res exn unit :=
  if bool_decide (sort_strings (keys o) = sort_strings expected) then Ok tt
  else manifest_err (path ++ js " has unsupported or missing fields").

Definition parseUniqueStrings (values : list jsval) (pattern : regex) (path : jstr) : res exn (list jstr) :=
  foldM_res (λ seen v,
    match v with
    | VStr s =>
        if negb (matches pattern s) then manifest_err (path ++ js " contains an invalid name")
        else if bool_decide (s ∈ seen) then manifest_err (path ++ js " contains duplicate " ++ s)
        else Ok (seen ++ [s])
    | _ => manifest_err (path ++ js " contains an invalid name")
    end) [] values.

(** ** The release-bundle manifest *)

Definition validateDescriptor (d : WasmArtifactDescriptor) (path : jstr) : res exn unit :=
  let* _ := assertRelativeArtifactPath (d_path d) (path ++ js ".path") in
  assertSha256 (d_sha256 d) (path ++ js ".sha256").

Definition parseDescriptor (v : jsval) (path : jstr) : res exn WasmArtifactDescriptor :=
  let* o := requireRecord v path in
  let* _ := requireExactKeys o (map js ["path"; "sha256"]%string) path in
  match js_get o (js "path"), js_get o (js "sha256") with
  | VStr p, VStr s =>
      let result := {| d_path := p; d_sha256 := s |} in
      let* _ := validateDescriptor result path in Ok result
  | _, _ => manifest_err (path ++ js " path and sha256 must be strings")
  end.

(** [k in o]. *)
Definition js_in (o : list (jstr * jsval)) (k : jstr) : bool :=
  bool_decide (k ∈ keys o) || bool_decide (k ∈ object_prototype).

Definition parseOperationContract (v : jsval) (path : jstr) : res exn WasmOperationContract :=
  let* o := requireRecord v path in
  let adapters := js_in o (js "nativeAdapters") in
  let* _ := requireExactKeys o (map js ["capability"; "retrySafe"; "securitySensitive"]%string
                                ++ (if adapters then [js "nativeAdapters"] else [])) path in
  let bad := manifest_err (path ++ js " capability or flags are invalid") in
  match js_get o (js "capability"), js_get o (js "retrySafe"), js_get o (js "securitySensitive") with
  | VStr c, VBool r, VBool s =>
      if negb (matches capabilityPattern c) then bad
      else
        let* na := (if adapters then
                      match js_get o (js "nativeAdapters") with
                      | VArr l =>
                          let* names := parseUniqueStrings l operationPattern (path ++ js ".nativeAdapters") in
                          Ok (Some names)
                      | _ => manifest_err (path ++ js ".nativeAdapters must be an array")
                      end
                    else Ok None) in
        Ok {| oc_capability := c; oc_retrySafe := r; oc_securitySensitive := s; oc_nativeAdapters := na |}
  | _, _, _ => bad
  end.

Definition core_module_name (name : jstr) : bool :=
  endsWith name (js ".wasm") && negb (includes_char name 47) && negb (includes_char name 92).

Definition parse_core_modules (o : list (jstr * jsval)) : res exn (list (jstr * WasmArtifactDescriptor)) :=
  foldM_res (λ acc '(name, v),
    if negb (core_module_name name)
    then manifest_err (js "invalid generated core module name " ++ json_quote name)
    else let* d := parseDescriptor v (js "coreModules." ++ name) in Ok (obj_set name d acc)) [] o.

Definition expected_capability (name : jstr) : jstr :=
  default [] (own_get name GOFORGE_ABI_V1_OPERATION_CAPABILITIES).

Definition parse_operation (o : list (jstr * jsval)) (capabilities : list jstr) (name : jstr)
    : res exn (jstr * WasmOperationContract) :=
  let* c := parseOperationContract (js_get o name) (js "operations." ++ name) in
  if negb (bool_decide (oc_capability c = expected_capability name))
  then manifest_err (js "operations." ++ name ++ js ".capability must be "
                     ++ json_quote (expected_capability name))
  else if negb (bool_decide (oc_capability c ∈ capabilities))
  then manifest_err (js "operations." ++ name ++ js ".capability is absent from capabilities")
  else Ok (name, c).

Definition bundle_manifest_keys : list jstr :=
  map js ["schema"; "abi"; "componentVersion"; "witPackage"; "source"; "glue"; "coreModules";
          "capabilities"; "operations"]%string.

Definition manifest_text (bytes : list N) : option jsval :=
  text ← utf8_decode_fatal bytes;
  match assertUniqueAbiJsonObjectFields text with
  | Ok _ => json_parse text
  | Err _ => None
  end.

(** [v === s] for a string. *)
Definition is_vstr (v : jsval) (s : jstr) : bool :=
  match v with VStr t => bool_decide (t = s) | _ => false end.

Definition unless (b : bool) (e : res exn unit) : res exn unit := if b then Ok tt else e.

(** [typeof v !== "string" || !pattern.test(v)] throws [e]. *)
Definition string_matching (v : jsval) (pattern : regex) (e : res exn jstr) : res exn jstr :=
  match v with VStr s => if matches pattern s then Ok s else e | _ => e end.

(** A non-empty array. *)
Definition non_empty_array (v : jsval) (e : res exn (list jsval)) : res exn (list jsval) :=
  match v with VArr (x :: l) => Ok (x :: l) | _ => e end.

Definition parseManifest (bytes : list N) : res exn WasmBundleManifestV1 :=
  match manifest_text bytes with
  | None => manifest_err (js "component manifest is not valid UTF-8 JSON")
  | Some v =>
      let* root := requireRecord v (js "manifest") in
      let* _ := requireExactKeys root bundle_manifest_keys (js "manifest") in
      let get k := js_get root (js k) in
      let* _ := unless (is_vstr (get "schema"%string) GOFORGE_BUNDLE_MANIFEST_SCHEMA_V1)
                  (compat_err (js "unsupported release-bundle schema " ++ show (get "schema"%string))) in
      let* _ := unless (is_vstr (get "abi"%string) GOFORGE_ABI_V1)
                  (compat_err (js "unsupported portable ABI " ++ show (get "abi"%string))) in
      let* version := string_matching (get "componentVersion"%string) versionPattern
                        (manifest_err (js "componentVersion must be a semantic version")) in
      let* wit := string_matching (get "witPackage"%string) witPattern
                    (manifest_err (js "witPackage must be a versioned namespace:name@x.y.z package")) in
      let* source := parseDescriptor (get "source"%string) (js "source") in
      let* glue := parseDescriptor (get "glue"%string) (js "glue") in
      let* core := requireRecord (get "coreModules"%string) (js "coreModules") in
      let* _ := unless (negb (bool_decide (keys core = [])))
                  (manifest_err (js "coreModules must contain at least one module")) in
      let* modules := parse_core_modules core in
      let* names := non_empty_array (get "capabilities"%string)
                      (manifest_err (js "capabilities must be a non-empty array")) in
      let* capabilities := parseUniqueStrings names capabilityPattern (js "capabilities") in
      let* ops := requireRecord (get "operations"%string) (js "operations") in
      let* _ := unless (bool_decide (sort_strings (keys ops) = sort_strings GOFORGE_ABI_V1_OPERATIONS))
                  (manifest_err (js "operations must describe every canonical GoForge ABI v1 operation")) in
      let* operations := mapM_res (parse_operation ops capabilities) GOFORGE_ABI_V1_OPERATIONS in
      Ok {| m_schema := GOFORGE_BUNDLE_MANIFEST_SCHEMA_V1; m_abi := GOFORGE_ABI_V1;
            m_componentVersion := version; m_witPackage := wit;
            m_source := source; m_glue := glue; m_coreModules := modules;
            m_capabilities := capabilities; m_operations := operations |}
  end.

Definition validateCompatibility (m : WasmBundleManifestV1) (c : WasmCompatibility) : res exn unit :=
  let schema := default (default GOFORGE_BUNDLE_MANIFEST_SCHEMA_V1 (wc_schemaVersion c)) (wc_bundleSchema c) in
  let abi := default (default GOFORGE_ABI_V1 (wc_abiVersion c)) (wc_abi c) in
  let* _ := unless (bool_decide (m_schema m = schema))
    (compat_err (js "release-bundle schema " ++ m_schema m ++ js " does not match host schema " ++ schema)) in
  let* _ := unless (bool_decide (m_abi m = abi))
    (compat_err (js "component ABI " ++ m_abi m ++ js " does not match host ABI " ++ abi)) in
  let* _ := unless (bool_decide (m_componentVersion m = wc_componentVersion c))
    (compat_err (js "component " ++ m_componentVersion m ++ js " does not match host "
                 ++ wc_componentVersion c)) in
  unless (bool_decide (m_witPackage m = wc_witPackage c))
    (compat_err (js "WIT package " ++ m_witPackage m ++ js " does not match host " ++ wc_witPackage c)).

(** ** Verification of a bundle *)

(** [map.set(k, v)] and [map.get(k)] on a [Map]. *)
Definition map_set {V} (k : jstr) (v : V) (m : list (jstr * V)) : list (jstr * V) :=
  match own_get k m with Some _ => update_key k v m | None => m ++ [(k, v)] end.

Section bundle.
(** [crypto.subtle.digest("SHA-256", bytes)]. *)
Context (sha256 : list N → list N).
Context (localeCompare_leb : jstr → jstr → bool).
(** The [n]-th call of the injected reader. *)
Context (readArtifact : nat → jstr → res exn (list N)).

Definition sha256Hex (bytes : list N) : jstr := flat_map (hex_byte false) (sha256 bytes).

Definition verifyDigest (path : jstr) (bytes : list N) (expected : jstr) : res exn unit :=
  let actual := sha256Hex bytes in
  if bool_decide (actual = expected) then Ok tt
  else integrity_err (js "SHA-256 mismatch for " ++ json_quote path ++ js ": expected " ++ expected
                      ++ js ", got " ++ actual).

(** A reader failure: an integrity error is thrown as it is, any other is wrapped. *)
Definition read_or (n : nat) (path message : jstr) : res exn (list N) :=
  match readArtifact n path with
  | Ok bytes => Ok bytes
  | Err (XWasm e) => if bool_decide (e_name e = WasmIntegrityErrorN) then Err (XWasm e) else integrity_err message
  | Err _ => integrity_err message
  end.

Definition descriptors (m : WasmBundleManifestV1) : list (jstr * WasmArtifactDescriptor) :=
  [(js "source", m_source m); (js "glue", m_glue m)]
  ++ map (λ p, (js "core module " ++ p.1, p.2))
       (sort (λ a b, localeCompare_leb a.1 b.1) (m_coreModules m)).

Definition check_descriptor (paths : list jstr) (p : jstr * WasmArtifactDescriptor) : res exn (list jstr) :=
  if bool_decide (d_path p.2 ∈ paths)
  then manifest_err (js "multiple artifacts use path " ++ json_quote (d_path p.2))
  else let* _ := validateDescriptor p.2 p.1 in Ok (paths ++ [d_path p.2]).

(** The loop that reads and verifies, with the number of the next read. *)
Definition read_descriptor (st : nat * list (jstr * list N)) (p : jstr * WasmArtifactDescriptor)
    : res exn (nat * list (jstr * list N)) :=
  let '(n, verified) := st in
  let path := d_path p.2 in
  let* bytes := read_or n path (js "unable to read component artifact " ++ json_quote path) in
  let* _ := verifyDigest path bytes (d_sha256 p.2) in
  Ok (S n, map_set path bytes verified).

Definition requireVerified (values : list (jstr * list N)) (path : jstr) : res exn (list N) :=
  match own_get path values with
  | Some bytes => Ok bytes
  | None => integrity_err (js "verified artifact " ++ json_quote path ++ js " is missing")
  end.

Definition verifyWasmBundle (locator : WasmBundleLocator) (compatibility : WasmCompatibility)
    : res exn VerifiedWasmBundle :=
  let* _ := assertRelativeArtifactPath (l_manifestPath locator) (js "manifestPath") in
  let* _ := assertSha256 (l_manifestSha256 locator) (js "manifestSha256") in
  let* manifestBytes := read_or 0 (l_manifestPath locator) (js "unable to read the component manifest") in
  let* _ := verifyDigest (l_manifestPath locator) manifestBytes (l_manifestSha256 locator) in
  let* manifest := parseManifest manifestBytes in
  let* _ := validateCompatibility manifest compatibility in
  let ds := descriptors manifest in
  let* _ := foldM_res check_descriptor [] ds in
  let* (_, verified) := foldM_res read_descriptor (1, []) ds in
  let* coreModuleBytes :=
    foldM_res (λ acc '(name, d),
      let* bytes := requireVerified verified (d_path d) in Ok (map_set name bytes acc))
      [] (m_coreModules manifest) in
  let* sourceBytes := requireVerified verified (d_path (m_source manifest)) in
  let* glueBytes := requireVerified verified (d_path (m_glue manifest)) in
  Ok {| vb_manifest := manifest; vb_manifestBytes := manifestBytes; vb_sourceBytes := sourceBytes;
        vb_glueBytes := glueBytes; vb_coreModuleBytes := coreModuleBytes |}.
End bundle.

(** The default reader: [readFile] is [Deno.readFile] on the path resolved against the
    base directory. *)
Definition createFileArtifactReader (protocol : jstr) (readFile : jstr → option (list N))
    : res exn (jstr → res exn (list N)) :=
  if negb (bool_decide (protocol = js "file:"))
  then manifest_err (js "the default artifact reader accepts only a file: base URL")
  else Ok (λ path,
    let* _ := assertRelativeArtifactPath path (js "artifact path") in
    match readFile path with
    | Some bytes => Ok bytes
    | None => integrity_err (js "unable to read component artifact " ++ json_quote path)
    end).

(** ** The contract manifest of the guest *)

Definition portable_manifest_keys : list jstr :=
  map js ["schema"; "package"; "version"; "abi"; "encoding"; "limits"; "operations";
          "capabilities"; "errors"]%string.

Definition is_record (v : jsval) : bool := match v with VObj _ => true | _ => false end.
Definition is_array (v : jsval) : bool := match v with VArr _ => true | _ => false end.

Definition at_index (name : string) (i : nat) : jstr :=
  js "portable manifest " ++ js name ++ js "[" ++ nat_to_string (N.of_nat i) ++ js "]".

(** The turn of the operations loop for one canonical operation. *)
Definition check_operation (bundle : WasmBundleManifestV1) (i : nat) (name : jstr) (v : jsval)
    : res exn unit :=
  let* o := requireRecord v (at_index "operations" i) in
  let* _ := requireExactKeys o (map js ["name"; "capability"]%string) (at_index "operations" i) in
  let* _ := unless (is_vstr (js_get o (js "name")) name
                    && is_vstr (js_get o (js "capability")) (expected_capability name))
              (compat_err (js "component portable operation " ++ json_quote name ++ js " is incompatible")) in
  match own_get name (m_operations bundle) with
  | None => Err XTypeError
  | Some c =>
      unless (bool_decide (oc_capability c = expected_capability name))
        (compat_err (js "release bundle operation " ++ json_quote name ++ js " drifted from GoForge"))
  end.

Definition check_error (i : nat) (p : jstr * GoforgeAbiErrorDefinitionV1) (v : jsval) : res exn unit :=
  let* o := requireRecord v (at_index "errors" i) in
  let* _ := requireExactKeys o (map js ["code"; "message"; "retryable"]%string) (at_index "errors" i) in
  unless (is_vstr (js_get o (js "code")) p.1 && is_vstr (js_get o (js "message")) (def_message p.2)
          && match js_get o (js "retryable") with
             | VBool b => Bool.eqb b (def_retryable p.2)
             | _ => false
             end)
    (compat_err (js "component portable error " ++ json_quote p.1 ++ js " drifted")).

(** [for (let index = 0; ...)] over two lists of the same length. *)
Fixpoint check_all {A} (f : nat → A → jsval → res exn unit) (i : nat) (expected : list A) (l : list jsval)
    : res exn unit :=
  match expected, l with
  | x :: expected, v :: l => let* _ := f i x v in check_all f (S i) expected l
  | _, _ => Ok tt
  end.

Definition assertPortableContractManifest (json : jstr) (bundle : WasmBundleManifestV1) : res exn unit :=
  let invalid := compat_err (js "component portable manifest is not valid JSON") in
  match assertUniqueAbiJsonObjectFields json with
  | Err _ => invalid
  | Ok _ =>
      match json_parse json with
      | None => invalid
      | Some value =>
          let* root := requireRecord value (js "portable manifest") in
          let* _ := requireExactKeys root portable_manifest_keys (js "portable manifest") in
          let get k := js_get root (js k) in
          let* _ := unless (is_vstr (get "schema"%string) GOFORGE_PORTABLE_MANIFEST_SCHEMA_V1
                            && is_vstr (get "package"%string) GOFORGE_PORTABLE_PACKAGE
                            && is_vstr (get "version"%string) GOFORGE_PORTABLE_VERSION
                            && is_vstr (get "abi"%string) GOFORGE_ABI_V1)
                      (compat_err (js "component portable manifest identity is incompatible")) in
          let* _ := unless (bool_decide (m_abi bundle = GOFORGE_ABI_V1)
                            && bool_decide (m_witPackage bundle
                                            = GOFORGE_PORTABLE_PACKAGE ++ js "@" ++ GOFORGE_PORTABLE_VERSION))
                      (compat_err
                         (js "release bundle and component portable manifest identify different contracts")) in
          let* _ := match get "operations"%string with
                    | VArr ops =>
                        let* _ := unless (length ops =? length GOFORGE_ABI_V1_OPERATIONS)
                          (compat_err (js "component portable manifest operation set is incomplete")) in
                        check_all (check_operation bundle) 0 GOFORGE_ABI_V1_OPERATIONS ops
                    | _ => compat_err (js "component portable manifest operation set is incomplete")
                    end in
          let* _ := match get "errors"%string with
                    | VArr errors =>
                        let* _ := unless (length errors =? length GOFORGE_ABI_ERROR_CATALOG)
                          (compat_err (js "component portable error catalog is incomplete")) in
                        check_all check_error 0 GOFORGE_ABI_ERROR_CATALOG errors
                    | _ => compat_err (js "component portable error catalog is incomplete")
                    end in
          unless (is_record (get "encoding"%string) && is_record (get "limits"%string)
                  && is_array (get "capabilities"%string))
            (compat_err (js "component portable manifest metadata is malformed"))
      end
  end.

(** ** What the guards establish *)

Lemma unless_Ok b e u : unless b e = Ok u → (∀ v, e ≠ Ok v) → b = true.
Proof. destruct b; [done|]. simpl. intros H Hn. by destruct (Hn u). Qed.

(** Split a run of guards that returned. *)
Ltac guards :=
  repeat match goal with
  | H : rbind _ _ = Ok _ |- _ => apply rbind_Ok in H as (? & ? & ?)
  | H : unless _ _ = Ok _ |- _ => apply unless_Ok in H; [|done]
  | H : Ok _ = Ok _ |- _ => injection H as ?
  | H : (if ?b then _ else _) = Ok _ |- _ => destruct b eqn:?; [done|] || destruct b eqn:?; [|done]
  end.

Definition safe_segments (p : jstr) : Prop := Forall (λ s, bad_segment s = false) (split_on 47 p).

(** A package-relative path: no URL syntax, no empty, [.] or [..] segment. *)
Definition relative_path (p : jstr) : Prop :=
  safe_segments p ∧ (58 ∉ p ∧ 63 ∉ p ∧ 35 ∉ p ∧ 37 ∉ p ∧ 92 ∉ p)%N.

Lemma assertRelativeArtifactPath_Ok p m u : assertRelativeArtifactPath p m = Ok u → relative_path p.
Proof.
  unfold assertRelativeArtifactPath, includes_char. destruct (_ || _) eqn:E; [done|].
  destruct (existsb bad_segment (split_on 47 p)) eqn:Es; [done|]. intros _. bool_inv. split; [|done].
  apply Forall_forall. intros s Hs. apply not_true_iff_false. intros Hb.
  assert (Hx : existsb bad_segment (split_on 47 p) = true).
  { apply existsb_exists. exists s. by rewrite <- list_elem_of_In. }
  congruence.
Qed.

Definition valid_descriptor (d : WasmArtifactDescriptor) : Prop :=
  relative_path (d_path d) ∧ matches sha256Pattern (d_sha256 d) = true.

Lemma validateDescriptor_Ok d p u : validateDescriptor d p = Ok u → valid_descriptor d.
Proof.
  unfold validateDescriptor. intros (v & Hp & Hs)%rbind_Ok. split.
  - by eapply assertRelativeArtifactPath_Ok.
  - unfold assertSha256 in Hs. by destruct (matches _ _).
Qed.

Lemma parseDescriptor_Ok v p d : parseDescriptor v p = Ok d → valid_descriptor d.
Proof.
  unfold parseDescriptor. intros (o & _ & (u & _ & H)%rbind_Ok)%rbind_Ok.
  destruct (js_get o (js "path")); try done. destruct (js_get o (js "sha256")); try done.
  apply rbind_Ok in H as (u' & H & [= <-]). by eapply validateDescriptor_Ok.
Qed.

Lemma parseUniqueStrings_Ok l r p names : parseUniqueStrings l r p = Ok names →
  NoDup names ∧ l = map VStr names ∧ Forall (λ s, matches r s = true) names.
Proof.
  unfold parseUniqueStrings. set (f := λ seen v, _).
  assert (H : ∀ l seen names, NoDup seen → foldM_res f seen l = Ok names →
    ∃ new, names = seen ++ new ∧ NoDup names ∧ l = map VStr new ∧ Forall (λ s, matches r s = true) new).
  { clear. induction l as [|v l IH]; intros seen names Hn; simpl.
    - intros [= <-]. exists []. by rewrite app_nil_r.
    - intros (seen' & Hf & H)%rbind_Ok. unfold f in Hf. destruct v as [| | | |s| | |]; try done.
      destruct (matches r s) eqn:Em; [|done]. simpl in Hf. case_bool_decide as Hs; [done|].
      injection Hf as <-. apply IH in H as (new & -> & Hn' & -> & Hm).
      + exists (s :: new). rewrite <- app_assoc in *. split_and!; [done..|by constructor].
      + apply NoDup_app. split_and!; [done|set_solver|apply NoDup_singleton]. }
  intros Hf. apply H in Hf as (new & -> & ? & -> & ?); [done|constructor].
Qed.

Lemma parse_core_modules_Ok o ms : ordered o → parse_core_modules o = Ok ms →
  keys ms = keys o ∧ Forall (λ p, core_module_name p.1 = true ∧ valid_descriptor p.2) ms.
Proof.
  unfold parse_core_modules. set (f := λ acc _, _).
  assert (H : ∀ o acc ms, foldM_res f acc o = Ok ms → ∃ new,
    ms = foldl (λ o p, obj_set p.1 p.2 o) acc new ∧ keys new = keys o ∧
    Forall (λ p, core_module_name p.1 = true ∧ valid_descriptor p.2) new).
  { clear. induction o as [|[k v] o IH]; intros acc ms; simpl.
    - intros [= <-]. by exists [].
    - intros (acc' & Hf & H)%rbind_Ok. simpl in Hf. destruct (core_module_name k) eqn:Ek; [|done].
      simpl in Hf. apply rbind_Ok in Hf as (d & Hd & [= <-]). apply parseDescriptor_Ok in Hd.
      apply IH in H as (new & -> & Hk & Hn). exists ((k, d) :: new).
      split_and!; [done|unfold keys in *; simpl; congruence|by constructor]. }
  intros Ho (new & -> & Hk & Hn)%H. change (foldl _ [] new) with (of_entries new).
  rewrite of_entries_ordered; [done|]. unfold ordered. by rewrite Hk.
Qed.

(** ** The bundle manifest *)

Definition valid_contract (p : jstr * WasmOperationContract) : Prop :=
  oc_capability p.2 = expected_capability p.1 ∧
  ∀ l, oc_nativeAdapters p.2 = Some l → NoDup l ∧ Forall (λ s, matches operationPattern s = true) l.

(** What the loader relies on in a parsed manifest. *)
Record valid_manifest (m : WasmBundleManifestV1) : Prop := {
  vm_schema : m_schema m = GOFORGE_BUNDLE_MANIFEST_SCHEMA_V1;
  vm_abi : m_abi m = GOFORGE_ABI_V1;
  vm_version : matches versionPattern (m_componentVersion m) = true;
  vm_wit : matches witPattern (m_witPackage m) = true;
  vm_source : valid_descriptor (m_source m);
  vm_glue : valid_descriptor (m_glue m);
  vm_modules : m_coreModules m ≠ [] ∧ NoDup (keys (m_coreModules m)) ∧
    Forall (λ p, core_module_name p.1 = true ∧ valid_descriptor p.2) (m_coreModules m);
  vm_capabilities : m_capabilities m ≠ [] ∧ NoDup (m_capabilities m) ∧
    Forall (λ s, matches capabilityPattern s = true) (m_capabilities m);
  vm_operations : keys (m_operations m) = GOFORGE_ABI_V1_OPERATIONS ∧
    Forall (λ p, valid_contract p ∧ oc_capability p.2 ∈ m_capabilities m) (m_operations m);
}.

Lemma string_matching_Ok v r e s : string_matching v r e = Ok s → (∀ s, e ≠ Ok s) →
  v = VStr s ∧ matches r s = true.
Proof.
  unfold string_matching. intros H Hn. destruct v as [| | | |t| | |]; try by destruct (Hn s).
  destruct (matches r t) eqn:E; [by injection H as <-|by destruct (Hn s)].
Qed.

Lemma parseOperationContract_Ok v p c : parseOperationContract v p = Ok c →
  ∀ l, oc_nativeAdapters c = Some l → NoDup l ∧ Forall (λ s, matches operationPattern s = true) l.
Proof.
  unfold parseOperationContract. intros (o & _ & (u & _ & H)%rbind_Ok)%rbind_Ok.
  destruct (js_get o (js "capability")); try done. destruct (js_get o (js "retrySafe")); try done.
  destruct (js_get o (js "securitySensitive")); try done. destruct (matches _ _); [|done]. simpl in H.
  apply rbind_Ok in H as (na & Hna & [= <-]). intros l. simpl. intros ->.
  destruct (js_in o _); [|done]. destruct (js_get o (js "nativeAdapters")); try done.
  apply rbind_Ok in Hna as (names & Hnames & [= ->]).
  by apply parseUniqueStrings_Ok in Hnames as (? & _ & ?).
Qed.

Lemma parse_operation_Ok ops caps name p : parse_operation ops caps name = Ok p →
  p.1 = name ∧ valid_contract p ∧ oc_capability p.2 ∈ caps.
Proof.
  unfold parse_operation. intros (c & Hc & H)%rbind_Ok.
  case_bool_decide as Hcap; [|done]. simpl in H. case_bool_decide as Hin; [|done]. simpl in H.
  injection H as <-. split_and!; [done| |done]. split; [done|]. by eapply parseOperationContract_Ok.
Qed.

Lemma js_get_parsed o k : parsed (VObj o) → js_get o k = VUndef ∨ (∃ f, js_get o k = VFun f) ∨ parsed (js_get o k).
Proof.
  intros [_ H]%parsed_obj. unfold js_get. destruct (own_get k o) as [v|] eqn:E.
  - right; right. apply own_get_elem in E. rewrite Forall_forall in H. by apply H in E.
  - case_bool_decide; eauto.
Qed.

Lemma manifest_text_parsed bytes v : manifest_text bytes = Some v → parsed v.
Proof.
  unfold manifest_text. intros (t & _ & H)%bind_Some. case_match; [|done]. by eapply json_parse_parsed.
Qed.

Lemma parseManifest_valid bytes m : parseManifest bytes = Ok m → valid_manifest m.
Proof.
  unfold parseManifest. destruct (manifest_text bytes) as [v|] eqn:Ev; [|done].
  apply manifest_text_parsed in Ev. intros (root & Hroot & H)%rbind_Ok.
  destruct v as [| | | | | |o|]; try done. injection Hroot as <-. cbn zeta in H.
  apply rbind_Ok in H as (? & _ & H). apply rbind_Ok in H as (? & _ & H).
  apply rbind_Ok in H as (? & _ & H). apply rbind_Ok in H as (version & [_ Hver]%string_matching_Ok & H); [|done].
  apply rbind_Ok in H as (wit & [_ Hwit]%string_matching_Ok & H); [|done].
  apply rbind_Ok in H as (source & Hs%parseDescriptor_Ok & H).
  apply rbind_Ok in H as (glue & Hg%parseDescriptor_Ok & H).
  apply rbind_Ok in H as (core & Hcore & H). apply rbind_Ok in H as (? & Hne%unless_Ok & H); [|done].
  apply rbind_Ok in H as (ms & Hms & H). apply rbind_Ok in H as (names & Hnames & H).
  apply rbind_Ok in H as (caps & (Hc1 & Hc2 & Hc3)%parseUniqueStrings_Ok & H).
  apply rbind_Ok in H as (ops & _ & H). apply rbind_Ok in H as (? & _ & H).
  apply rbind_Ok in H as (operations & Hops%mapM_res_Forall2 & [= <-]).
  assert (Hcp : parsed (VObj core)).
  { destruct (js_get_parsed o (js "coreModules") Ev) as [E|[[f E]|E]]; [by rewrite E in Hcore..|].
    destruct (js_get o (js "coreModules")); try done. by injection Hcore as ->. }
  apply parsed_obj in Hcp as [Hord _]. apply parse_core_modules_Ok in Hms as [Hk Hms]; [|done].
  bool_inv. split; simpl; try done.
  - split_and!; [|rewrite Hk; by apply in_order_NoDup|done]. intros ->. by destruct core.
  - split_and!; [|done..]. intros ->. subst names. by destruct (js_get o (js "capabilities")) as [| | | | |[]| |].
  - clear -Hops. split.
    + unfold keys. induction Hops as [|x y l k Hxy _ IH]; [done|]. simpl.
      apply parse_operation_Ok in Hxy as (-> & _). by rewrite IH.
    + induction Hops as [|x y l k Hxy _ IH]; constructor; [|done].
      by apply parse_operation_Ok in Hxy as (_ & ? & ?).
Qed.

(** An accepted bundle manifest is well formed: schema and ABI are the host's, version
    and WIT name match their patterns, every artifact path is package relative with a
    lowercase SHA-256 digest, module names are plain [.wasm] names, capabilities are
    distinct, and the operations are exactly the canonical ones, in order, each with its
    canonical capability, which the manifest declares. *)
Theorem parseManifest_sound bytes m : parseManifest bytes = Ok m → valid_manifest m.
Proof. apply parseManifest_valid. Qed.

(** ** Verification *)

Lemma check_descriptors_Ok ds : ∀ paths out, NoDup paths →
  foldM_res check_descriptor paths ds = Ok out →
  NoDup out ∧ out = paths ++ map (λ p, d_path p.2) ds ∧ Forall (λ p, valid_descriptor p.2) ds.
Proof.
  induction ds as [|p ds IH]; intros paths out Hn; simpl.
  - intros [= <-]. by rewrite app_nil_r.
  - unfold check_descriptor at 1. case_bool_decide as Hin; [done|].
    intros (paths' & (u & Hv%validateDescriptor_Ok & [= <-])%rbind_Ok & H)%rbind_Ok.
    apply IH in H as (Hn' & -> & HF).
    + rewrite <- app_assoc in *. split_and!; [done..|by constructor].
    + apply NoDup_app. split_and!; [done|set_solver|apply NoDup_singleton].
Qed.

Section verification.
Context (sha256 : list N → list N)  (readArtifact : nat → jstr → res exn (list N)).

(** An entry of the verified map: the bytes some call of the reader returned for the path
    of a descriptor, with its digest. *)
Definition verified_entry (ds : list (jstr * WasmArtifactDescriptor)) (p : jstr * list N) : Prop :=
  ∃ d n, d ∈ map snd ds ∧ d_path d = p.1 ∧ readArtifact n p.1 = Ok p.2
         ∧ sha256Hex sha256 p.2 = d_sha256 d.

Lemma read_or_Ok n path msg bytes : read_or readArtifact n path msg = Ok bytes → readArtifact n path = Ok bytes.
Proof. unfold read_or. by repeat case_match. Qed.

Lemma verifyDigest_Ok path bytes expected u :
  verifyDigest sha256 path bytes expected = Ok u → sha256Hex sha256 bytes = expected.
Proof. unfold verifyDigest. by case_bool_decide. Qed.

Lemma map_set_elem {V} k (v : V) m p : p ∈ map_set k v m → p = (k, v) ∨ p ∈ m.
Proof.
  unfold map_set. destruct (own_get k m) eqn:E; [|set_solver]. intros Hp.
  apply (elem_of_set k v m). unfold obj_set. by rewrite E.
Qed.

Lemma read_descriptors_Ok all ds : ∀ st st', (∀ p, p ∈ ds → p ∈ all) →
  Forall (verified_entry all) st.2 →
  foldM_res (read_descriptor sha256 readArtifact) st ds = Ok st' → Forall (verified_entry all) st'.2.
Proof.
  induction ds as [|p ds IH]; intros st st' Hin Hst; simpl; [by intros [= <-]|].
  intros (st1 & H1 & H)%rbind_Ok. eapply (IH st1); [set_solver| |done].
  unfold read_descriptor in H1. destruct st as [n verified].
  apply rbind_Ok in H1 as (bytes & Hread%read_or_Ok & H1).
  apply rbind_Ok in H1 as (u & Hd%verifyDigest_Ok & [= <-]). simpl in *.
  rewrite Forall_forall in *. intros q [->|Hq]%map_set_elem; [|by apply Hst].
  exists p.2, n. split_and!; try done. apply list_elem_of_fmap. exists p. split; [done|]. apply Hin. constructor.
Qed.

Lemma requireVerified_Ok all verified d bytes :
  NoDup (map (λ p, d_path p.2) all) → Forall (verified_entry all) verified → d ∈ map snd all →
  requireVerified verified (d_path d) = Ok bytes →
  sha256Hex sha256 bytes = d_sha256 d ∧ ∃ n, readArtifact n (d_path d) = Ok bytes.
Proof.
  intros Hn HF Hd. unfold requireVerified. destruct (own_get _ _) as [b|] eqn:E; [|done].
  intros [= <-]. apply own_get_elem in E. rewrite Forall_forall in HF.
  destruct (HF _ E) as (d' & n & Hd' & Hp & Hr & Hs). simpl in *.
  assert (d' = d) as ->; [|eauto].
  rewrite <- (map_map snd d_path) in Hn. apply list_elem_of_lookup in Hd as [i Hi], Hd' as [j Hj].
  assert (i = j) as -> by (eapply (NoDup_lookup _ i j (d_path d) Hn); rewrite list_lookup_fmap, ?Hi, ?Hj; simpl; congruence).
  congruence.
Qed.

Lemma core_bytes_Ok verified ms : ∀ acc out, NoDup (keys acc ++ keys ms) →
  foldM_res (λ acc '(name, d),
      let* bytes := requireVerified verified (d_path d) in Ok (map_set name bytes acc)) acc ms = Ok out →
  ∃ new, out = acc ++ new ∧
    Forall2 (λ p q, p.1 = q.1 ∧ requireVerified verified (d_path q.2) = Ok p.2) new ms.
Proof.
  induction ms as [|[name d] ms IH]; intros acc out Hn; simpl.
  - intros [= <-]. exists []. by rewrite app_nil_r.
  - intros (acc' & (bytes & Hb & [= <-])%rbind_Ok & H)%rbind_Ok.
    assert (Hk : name ∉ keys acc) by (apply NoDup_app in Hn as (_ & Hd & _); intros Hin; apply (Hd _ Hin); constructor).
    assert (E : map_set name bytes acc = acc ++ [(name, bytes)]).
    { unfold map_set. by rewrite (proj2 (own_get_None name acc) Hk). }
    rewrite E in H. apply IH in H as (new & -> & HF).
    + exists ((name, bytes) :: new). rewrite <- app_assoc. split; [done|]. by constructor.
    + unfold keys in *. rewrite map_app, <- app_assoc. exact Hn.
Qed.
End verification.

(** C1. Integrity: when [verifyWasmBundle] returns, the manifest bytes have the trusted
    digest and parse to the returned manifest, which matches the host's versions; source,
    glue and every core module are bytes the reader returned for the declared path and
    have the declared digest; no two artifacts share a path. *)
Theorem verifyWasmBundle_integrity sha256 leb readArtifact locator compat vb :
  verifyWasmBundle sha256 leb readArtifact locator compat = Ok vb →
  let m := vb_manifest vb in
  let verified d bytes := sha256Hex sha256 bytes = d_sha256 d ∧ ∃ n, readArtifact n (d_path d) = Ok bytes in
  sha256Hex sha256 (vb_manifestBytes vb) = l_manifestSha256 locator ∧
  parseManifest (vb_manifestBytes vb) = Ok m ∧
  m_componentVersion m = wc_componentVersion compat ∧ m_witPackage m = wc_witPackage compat ∧
  NoDup (map d_path (m_source m :: m_glue m :: map snd (m_coreModules m))) ∧
  verified (m_source m) (vb_sourceBytes vb) ∧ verified (m_glue m) (vb_glueBytes vb) ∧
  Forall2 (λ p q, p.1 = q.1 ∧ verified q.2 p.2) (vb_coreModuleBytes vb) (m_coreModules m).
Proof.
  unfold verifyWasmBundle. intros (? & _ & H)%rbind_Ok. apply rbind_Ok in H as (? & _ & H).
  apply rbind_Ok in H as (mb & _ & H). apply rbind_Ok in H as (? & Hmd%verifyDigest_Ok & H).
  apply rbind_Ok in H as (m & Hm & H). apply rbind_Ok in H as (? & Hcompat & H).
  apply rbind_Ok in H as (paths & Hpaths & H). apply rbind_Ok in H as ([n verified] & Hread & H).
  apply rbind_Ok in H as (core & Hcore & H). apply rbind_Ok in H as (sb & Hsb & H).
  apply rbind_Ok in H as (gb & Hgb & [= <-]). cbn zeta. cbn [vb_manifest vb_manifestBytes vb_sourceBytes vb_glueBytes vb_coreModuleBytes].
  pose proof (parseManifest_valid _ _ Hm) as Hvalid.
  unfold validateCompatibility in Hcompat. guards.
  repeat match goal with Hb : bool_decide _ = true |- _ => apply bool_decide_eq_true in Hb end.
  destruct (check_descriptors_Ok _ [] paths ltac:(constructor) Hpaths) as (Hnd & -> & _). simpl in Hnd.
  set (ds := descriptors leb m) in *.
  assert (Hperm : map snd ds ≡ₚ m_source m :: m_glue m :: map snd (m_coreModules m)).
  { unfold ds, descriptors. simpl. rewrite map_map. simpl. by rewrite sort_perm. }
  assert (HF : Forall (verified_entry sha256 readArtifact ds) verified).
  { by eapply (read_descriptors_Ok sha256 readArtifact ds ds (1, []) (n, verified)); [done|constructor|exact Hread]. }
  assert (Hget : ∀ d bytes, d ∈ m_source m :: m_glue m :: map snd (m_coreModules m) →
    requireVerified verified (d_path d) = Ok bytes →
    sha256Hex sha256 bytes = d_sha256 d ∧ ∃ n, readArtifact n (d_path d) = Ok bytes).
  { intros d bytes Hd. rewrite <- Hperm in Hd. intros Hr.
    by apply (requireVerified_Ok sha256 readArtifact ds verified). }
  do 4 (split; [done|]). split; [by rewrite <- Hperm, map_map|].
  split; [apply Hget; [constructor|done]|]. split; [apply Hget; [do 2 constructor|done]|].
  apply core_bytes_Ok in Hcore as (new & -> & HF2).
  - simpl. revert HF2. apply Forall2_impl_in. intros p q _ Hq [? ?]. split; [done|]. apply Hget; [|done].
    do 2 right. by apply list_elem_of_fmap_2.
  - simpl. apply (vm_modules _ Hvalid).
Qed.

(** A complete bundle and its trusted digest, for a digest function that repeats the length. *)
Definition demo_sha256 (bytes : list N) : list N := repeat (N.of_nat (length bytes) mod 256)%N 32.
Definition demo_descriptor (path : string) : jsval :=
  VObj [(js "path", VStr (js path)); (js "sha256", VStr (sha256Hex demo_sha256 (js path)))].
Definition demo_manifest : list N := utf8_encode (default [] (json_stringify (VObj [
  (js "schema", VStr GOFORGE_BUNDLE_MANIFEST_SCHEMA_V1);
  (js "abi", VStr GOFORGE_ABI_V1);
  (js "componentVersion", VStr (js "1.2.3"));
  (js "witPackage", VStr (js "pointerbyte:goforge@0.1.0"));
  (js "source", demo_descriptor "goforge.wasm");
  (js "glue", demo_descriptor "goforge.js");
  (js "coreModules", VObj [(js "goforge.core.wasm", demo_descriptor "goforge.core.wasm")]);
  (js "capabilities", VArr (map VStr (remove_dups (map snd GOFORGE_ABI_V1_OPERATION_CAPABILITIES))));
  (js "operations", VObj (map (λ p, (p.1,
     VObj [(js "capability", VStr p.2); (js "retrySafe", VBool true);
           (js "securitySensitive", VBool false)])) GOFORGE_ABI_V1_OPERATION_CAPABILITIES))]))).
Definition demo_reader (n : nat) (path : jstr) : res exn (list N) :=
  Ok (if bool_decide (path = js "manifest.json") then demo_manifest else path).
Definition demo_locator : WasmBundleLocator :=
  {| l_manifestPath := js "manifest.json"; l_manifestSha256 := sha256Hex demo_sha256 demo_manifest |}.
Definition demo_compatibility : WasmCompatibility :=
  {| wc_abi := None; wc_bundleSchema := None; wc_abiVersion := None; wc_schemaVersion := None;
     wc_componentVersion := js "1.2.3";
     wc_witPackage := js "pointerbyte:goforge@0.1.0" |}.

Example demo_verifies :
  is_ok (verifyWasmBundle demo_sha256 (λ _ _, true) demo_reader demo_locator demo_compatibility) = true.
Proof. vm_compute. reflexivity. Qed.

(** The result of a call, where the theorem says something of what it returns. *)
Lemma parseManifest_sound_witness :
  match parseManifest demo_manifest with Ok m => valid_manifest m | Err _ => False end.
Proof.
  destruct (parseManifest demo_manifest) as [m|e] eqn:E.
  - exact (parseManifest_sound _ _ E).
  - enough (is_ok (parseManifest demo_manifest) = true) as H by (rewrite E in H; discriminate H).
    vm_compute. reflexivity.
Defined.

Lemma verifyWasmBundle_integrity_witness :
  match verifyWasmBundle demo_sha256 (λ _ _, true) demo_reader demo_locator demo_compatibility with
  | Ok vb => sha256Hex demo_sha256 (vb_manifestBytes vb) = l_manifestSha256 demo_locator
  | Err _ => False
  end.
Proof.
  destruct (verifyWasmBundle _ _ _ _ _) as [vb|e] eqn:E.
  - exact (proj1 (verifyWasmBundle_integrity _ _ _ _ _ _ E)).
  - pose proof demo_verifies as H. rewrite E in H. discriminate H.
Defined.

(** ** What verification can throw *)

Definition bundle_errors : list WasmErrorName := [WasmManifestErrorN; WasmIntegrityErrorN; WasmCompatibilityErrorN].
Definition throws_only {A} (names : list WasmErrorName) (r : res exn A) : Prop :=
  ∀ e, r = Err e → ∃ w, e = XWasm w ∧ e_name w ∈ names.

Section throws.
Context (names : list WasmErrorName).

Lemma throws_Ok {A} (a : A) : throws_only names (Ok a).
Proof. by intros e. Qed.

Lemma throws_Err {A} w : e_name w ∈ names → throws_only (A := A) names (Err (XWasm w)).
Proof. intros Hw e [= <-]. by exists w. Qed.

Lemma throws_bind {A B} (r : res exn A) (k : A → res exn B) :
  throws_only names r → (∀ a, throws_only names (k a)) → throws_only names (rbind r k).
Proof. intros Hr Hk e [H|(a & _ & H)]%rbind_Err; [by apply Hr|by apply (Hk a)]. Qed.

Lemma throws_foldM {A S} (f : S → A → res exn S) l : (∀ s a, throws_only names (f s a)) →
  ∀ s, throws_only names (foldM_res f s l).
Proof.
  intros Hf. induction l as [|x l IH]; intros s; simpl; [apply throws_Ok|]. by apply throws_bind.
Qed.

Lemma throws_mapM {A B} (f : A → res exn B) l : (∀ a, throws_only names (f a)) →
  throws_only names (mapM_res f l).
Proof.
  intros Hf. induction l as [|x l IH]; simpl; [apply throws_Ok|].
  apply throws_bind; [done|intros]. apply throws_bind; [done|intros]. apply throws_Ok.
Qed.

Lemma throws_unless b r : throws_only names r → throws_only names (unless b r).
Proof. by destruct b. Qed.
End throws.

Create HintDb throws discriminated.
#[export] Hint Resolve throws_Ok : throws.

(** Follow the code down to its [throw] statements. *)
Ltac throws :=
  repeat first
    [ solve [auto with throws nocore]
    | match goal with
      | |- throws_only _ (rbind _ _) => apply throws_bind; [|intros]
      | |- throws_only _ (foldM_res _ _ _) => apply throws_foldM; intros
      | |- throws_only _ (mapM_res _ _) => apply throws_mapM; intros
      | |- throws_only _ (unless _ _) => apply throws_unless
      | |- throws_only _ (Err (XWasm _)) => apply throws_Err; simpl; set_solver
      | |- throws_only _ (manifest_err _) => apply throws_Err; simpl; set_solver
      | |- throws_only _ (integrity_err _) => apply throws_Err; simpl; set_solver
      | |- throws_only _ (compat_err _) => apply throws_Err; simpl; set_solver
      end
    | progress cbn zeta
    | case_match ].

Notation bundle_throws := (throws_only bundle_errors).

Lemma throws_relative v p : bundle_throws (assertRelativeArtifactPath v p).
Proof. unfold assertRelativeArtifactPath. throws. Qed.
Lemma throws_sha v p : bundle_throws (assertSha256 v p).
Proof. unfold assertSha256. throws. Qed.
Lemma throws_record v p : bundle_throws (requireRecord v p).
Proof. unfold requireRecord. throws. Qed.
Lemma throws_keys o l p : bundle_throws (requireExactKeys o l p).
Proof. unfold requireExactKeys. throws. Qed.
Lemma throws_strings l r p : bundle_throws (parseUniqueStrings l r p).
Proof. unfold parseUniqueStrings. throws. Qed.
#[export] Hint Resolve throws_relative throws_sha throws_record throws_keys throws_strings : throws.
Lemma throws_descriptor d p : bundle_throws (validateDescriptor d p).
Proof. unfold validateDescriptor. throws. Qed.
#[export] Hint Resolve throws_descriptor : throws.
Lemma throws_parseDescriptor v p : bundle_throws (parseDescriptor v p).
Proof. unfold parseDescriptor. throws. Qed.
Lemma throws_contract v p : bundle_throws (parseOperationContract v p).
Proof. unfold parseOperationContract. throws. Qed.
#[export] Hint Resolve throws_parseDescriptor throws_contract : throws.
Lemma throws_core_modules o : bundle_throws (parse_core_modules o).
Proof. unfold parse_core_modules. throws. Qed.
Lemma throws_operation ops caps name : bundle_throws (parse_operation ops caps name).
Proof. unfold parse_operation. throws. Qed.
Lemma throws_string_matching v r m : bundle_throws (string_matching v r (manifest_err m)).
Proof. unfold string_matching. throws. Qed.
#[export] Hint Resolve throws_core_modules throws_operation throws_string_matching : throws.
Lemma throws_parseManifest bytes : bundle_throws (parseManifest bytes).
Proof. unfold parseManifest, non_empty_array. throws. Qed.
Lemma throws_compatibility m c : bundle_throws (validateCompatibility m c).
Proof. unfold validateCompatibility. throws. Qed.
Lemma throws_digest sha256 path bytes d : bundle_throws (verifyDigest sha256 path bytes d).
Proof. unfold verifyDigest. throws. Qed.
Lemma throws_verified vs p : bundle_throws (requireVerified vs p).
Proof. unfold requireVerified. throws. Qed.
Lemma throws_read reader n p m : bundle_throws (read_or reader n p m).
Proof.
  unfold read_or. throws. apply throws_Err.
  match goal with H : bool_decide _ = true |- _ => apply bool_decide_eq_true in H; rewrite H end. set_solver.
Qed.
#[export] Hint Resolve throws_parseManifest throws_compatibility throws_digest throws_verified throws_read : throws.

(** Every failure of [verifyWasmBundle] is a manifest, integrity or compatibility
    error of the runtime, whatever the injected reader throws. *)
Theorem verifyWasmBundle_throws sha256 leb readArtifact locator compat e :
  verifyWasmBundle sha256 leb readArtifact locator compat = Err e →
  ∃ w, e = XWasm w ∧ e_name w ∈ bundle_errors.
Proof.
  revert e. change (bundle_throws (verifyWasmBundle sha256 leb readArtifact locator compat)).
  unfold verifyWasmBundle, check_descriptor, read_descriptor. throws.
Qed.

Lemma verifyWasmBundle_throws_witness :
  verifyWasmBundle demo_sha256 (λ _ _, true) (λ _ _, Err XTypeError) demo_locator demo_compatibility
    = integrity_err (js "unable to read the component manifest") ∧
  ∃ w, XWasm (wasmIntegrityError (js "unable to read the component manifest")) = XWasm w ∧ e_name w ∈ bundle_errors.
Proof.
  split; [vm_compute; reflexivity|].
  apply (verifyWasmBundle_throws demo_sha256 (λ _ _, true) (λ _ _, Err XTypeError) demo_locator demo_compatibility).
  vm_compute. reflexivity.
Defined.

(** ** The portable contract *)

Lemma check_all_Ok {A} (f : nat → A → jsval → res exn unit) (Q : A → jsval → Prop) expected :
  (∀ i x v u, f i x v = Ok u → Q x v) →
  ∀ i l u, length l = length expected → check_all f i expected l = Ok u → Forall2 Q expected l.
Proof.
  intros Hf. induction expected as [|x expected IH]; intros i [|v l] u Hl H; try done.
  simpl in *. apply rbind_Ok in H as (u' & H1 & H2). constructor; [by eapply Hf|].
  eapply IH; [lia|exact H2].
Qed.

Lemma is_vstr_true v s : is_vstr v s = true → v = VStr s.
Proof. destruct v; simpl; try done. by intros ->%bool_decide_eq_true. Qed.

(** The members one entry of the operations and of the errors must have. *)
Definition portable_operation (name : jstr) (v : jsval) : Prop :=
  ∃ o, v = VObj o ∧ js_get o (js "name") = VStr name
       ∧ js_get o (js "capability") = VStr (expected_capability name).
Definition portable_error (p : jstr * GoforgeAbiErrorDefinitionV1) (v : jsval) : Prop :=
  ∃ o, v = VObj o ∧ js_get o (js "code") = VStr p.1 ∧ js_get o (js "message") = VStr (def_message p.2)
       ∧ js_get o (js "retryable") = VBool (def_retryable p.2).

Lemma check_operation_Ok bundle i name v u : check_operation bundle i name v = Ok u →
  portable_operation name v ∧
  ∃ c, own_get name (m_operations bundle) = Some c ∧ oc_capability c = expected_capability name.
Proof.
  unfold check_operation. intros (o & Ho & (u1 & _ & (u2 & Hu & H)%rbind_Ok)%rbind_Ok)%rbind_Ok.
  destruct v; try done. injection Ho as ->. apply unless_Ok in Hu; [|done]. apply andb_true_iff in Hu as [H1 H2].
  split; [exists o; split_and!; [done|by apply is_vstr_true..]|].
  destruct (own_get name _) as [c|]; [|done]. apply unless_Ok in H; [|done].
  exists c. split; [done|]. by apply bool_decide_eq_true in H.
Qed.

Lemma check_error_Ok i p v u : check_error i p v = Ok u → portable_error p v.
Proof.
  unfold check_error. intros (o & Ho & (u1 & _ & H)%rbind_Ok)%rbind_Ok.
  destruct v; try done. injection Ho as ->. apply unless_Ok in H; [|done]. bool_inv.
  exists o. split_and!; [done|by apply is_vstr_true..|].
  destruct (js_get o (js "retryable")); try done. by rewrite (eqb_prop _ _ H0).
Qed.

(** The guest's own contract manifest is accepted only when it is the host's contract:
    its identity is the host's, and its operations and errors are, entry by entry and in
    order, the canonical operations with their capabilities and the error catalog. *)
Theorem assertPortableContractManifest_sound json bundle u :
  assertPortableContractManifest json bundle = Ok u →
  ∃ root ops errors, json_parse json = Some (VObj root) ∧
    js_get root (js "package") = VStr GOFORGE_PORTABLE_PACKAGE ∧
    js_get root (js "version") = VStr GOFORGE_PORTABLE_VERSION ∧
    js_get root (js "abi") = VStr GOFORGE_ABI_V1 ∧ m_abi bundle = GOFORGE_ABI_V1 ∧
    js_get root (js "operations") = VArr ops ∧ js_get root (js "errors") = VArr errors ∧
    Forall2 portable_operation GOFORGE_ABI_V1_OPERATIONS ops ∧
    Forall2 portable_error GOFORGE_ABI_ERROR_CATALOG errors ∧
    ∀ name, name ∈ GOFORGE_ABI_V1_OPERATIONS → ∃ c,
      own_get name (m_operations bundle) = Some c ∧ oc_capability c = expected_capability name.
Proof.
  unfold assertPortableContractManifest. destruct (assertUniqueAbiJsonObjectFields json) as [[]|]; [|done].
  destruct (json_parse json) as [value|] eqn:Ev; [|done].
  intros (root & Hroot & (u1 & _ & (u2 & Hid & (u3 & Hb & (u4 & Hops & (u5 & Herrs & _)%rbind_Ok)%rbind_Ok)%rbind_Ok)%rbind_Ok)%rbind_Ok)%rbind_Ok.
  destruct value; try done. injection Hroot as ->.
  apply unless_Ok in Hid; [|done]. apply unless_Ok in Hb; [|done]. bool_inv.
  repeat match goal with H : is_vstr _ _ = true |- _ => apply is_vstr_true in H end.
  destruct (js_get root (js "operations")) as [| | | | |ops| |] eqn:Eo; try done.
  destruct (js_get root (js "errors")) as [| | | | |errors| |] eqn:Ee; try done.
  apply rbind_Ok in Hops as (u6 & Hl%unless_Ok & Hops); [|done].
  apply rbind_Ok in Herrs as (u7 & Hl'%unless_Ok & Herrs); [|done].
  apply Nat.eqb_eq in Hl, Hl'. exists root, ops, errors.
  assert (Hall := check_all_Ok _ _ _ (check_operation_Ok bundle) _ _ _ Hl Hops).
  do 7 (split; [done|]). split; [|split].
  - eapply Forall2_impl; [exact Hall|]. by intros ?? [].
  - by apply (check_all_Ok _ _ _ check_error_Ok _ _ _ Hl' Herrs).
  - intros name Hname. apply list_elem_of_lookup in Hname as [i Hi].
    by destruct (Forall2_lookup_l _ _ _ _ _ Hall Hi) as (v & _ & _ & ?).
Qed.

Definition demo_portable : jstr := default [] (json_stringify (VObj [
  (js "schema", VStr GOFORGE_PORTABLE_MANIFEST_SCHEMA_V1);
  (js "package", VStr GOFORGE_PORTABLE_PACKAGE); (js "version", VStr GOFORGE_PORTABLE_VERSION);
  (js "abi", VStr GOFORGE_ABI_V1); (js "encoding", VObj []); (js "limits", VObj []);
  (js "operations", VArr (map (λ p, VObj [(js "name", VStr p.1); (js "capability", VStr p.2)])
                            GOFORGE_ABI_V1_OPERATION_CAPABILITIES));
  (js "capabilities", VArr []);
  (js "errors", VArr (map (λ p, VObj [(js "code", VStr p.1); (js "message", VStr (def_message p.2));
                                      (js "retryable", VBool (def_retryable p.2))])
                        GOFORGE_ABI_ERROR_CATALOG))])).

Lemma assertPortableContractManifest_sound_witness :
  match parseManifest demo_manifest with
  | Ok bundle => ∃ root ops errors, json_parse demo_portable = Some (VObj root) ∧
      js_get root (js "operations") = VArr ops ∧ js_get root (js "errors") = VArr errors
  | Err _ => False
  end.
Proof.
  assert (H : match parseManifest demo_manifest with
              | Ok b => is_ok (assertPortableContractManifest demo_portable b) | Err _ => false end = true)
    by (vm_compute; reflexivity).
  destruct (parseManifest demo_manifest) as [m|e]; [|discriminate H].
  destruct (assertPortableContractManifest demo_portable m) as [u|e] eqn:E; [|discriminate H].
  destruct (assertPortableContractManifest_sound _ _ _ E) as (r & o & l & ? & ? & ? & ? & ? & ? & ? & _).
  exists r, o, l. repeat split; assumption.
Defined.
