(* ===== verification/Adapters.v ===== *)
(** * wasm/adapters.ts: the registry of native adapters and the qualification ledger

    An adapter is an object of the host: its identity is a number, its fields live in a store
    that the host may change between two calls ([OMutate]), and the ledger holds identities.
    [register] and [resolve] read the fields as JavaScript values, as the code does. *)

From S2P Require Export Manifest.
Local Open Scope nat_scope.

Record NativeWasmAdapter := {
  na_name : jstr;
  na_operations : jsval;
  na_parityQualified : jsval;
  na_invoke : jsval;
  na_close : option bool;  (* the optional close(): whether it throws *)
}.

Notation adapter_store := (nat → NativeWasmAdapter).

Definition adapterNamePattern : regex := operationPattern.
Definition adapter_err {A} (m : jstr) : res exn A := Err (XWasm (wasmAdapterError m None)).
Definition named (name : jstr) (rest : string) : jstr := js "native adapter " ++ json_quote name ++ js rest.

(** ** The ledger *)

Definition isParityQualified (ledger : list nat) (a : nat) : bool := bool_decide (a ∈ ledger).

Definition recordParityQualification (st : adapter_store) (ledger : list nat) (a : nat) : res exn (list nat) :=
  match na_parityQualified (st a) with
  | VBool true => Ok (if isParityQualified ledger a then ledger else ledger ++ [a])
  | _ => adapter_err (named (na_name (st a)) (" cannot be recorded as qualified "
                      ++ "because it does not declare parityQualified: true"))
  end.

(** ** The registry *)

Record NativeAdapterRegistry := { nr_adapters : list (jstr * nat); nr_closed : bool }.
Definition new_registry : NativeAdapterRegistry := {| nr_adapters := []; nr_closed := false |}.
Definition registry_closed {A} : res exn A := adapter_err (js "native adapter registry is closed").

(** The loop over [adapter.operations] with the set of operations seen. *)
Definition check_adapter_operation (name : jstr) (seen : list jstr) (v : jsval) : res exn (list jstr) :=
  let bad := adapter_err (named name " has an invalid or duplicate operation") in
  match v with
  | VStr op =>
      if negb (bool_decide (op ∈ GOFORGE_ABI_V1_OPERATIONS)) || bool_decide (op ∈ seen)
      then bad else Ok (seen ++ [op])
  | _ => bad
  end.

Definition validateAdapter (st : adapter_store) (ledger : list nat) (a : nat) : res exn unit :=
  let name := na_name (st a) in
  if negb (matches adapterNamePattern name)
  then adapter_err (js "invalid native adapter name " ++ json_quote name)
  else
    let* operations := match na_operations (st a) with
                       | VArr (x :: l) => Ok (x :: l)
                       | _ => adapter_err (named name " has no operations")
                       end in
    let* _ := foldM_res (check_adapter_operation name) [] operations in
    match na_parityQualified (st a), na_invoke (st a) with
    | VBool q, VFun _ =>
        if q && negb (isParityQualified ledger a)
        then adapter_err (named name (" claims parity qualification that was "
                          ++ "never performed; qualify it and record the result before registering it"))
        else Ok tt
    | _, _ => adapter_err (named name " is malformed")
    end.

Definition register (st : adapter_store) (ledger : list nat) (a : nat) (r : NativeAdapterRegistry)
    : res exn NativeAdapterRegistry :=
  if nr_closed r then registry_closed
  else
    let* _ := validateAdapter st ledger a in
    let name := na_name (st a) in
    if bool_decide (name ∈ keys (nr_adapters r)) then adapter_err (named name " is already registered")
    else Ok {| nr_adapters := nr_adapters r ++ [(name, a)]; nr_closed := false |}.

Definition unregister (name : jstr) (r : NativeAdapterRegistry) : res exn (bool * NativeAdapterRegistry) :=
  if nr_closed r then registry_closed
  else Ok (bool_decide (name ∈ keys (nr_adapters r)),
           {| nr_adapters := drop_first (λ p, bool_decide (p.1 = name)) (nr_adapters r); nr_closed := false |}).

Definition names (r : NativeAdapterRegistry) : list jstr := sort_strings (keys (nr_adapters r)).

(** [adapter.operations.includes(operation)]. *)
Definition operations_include (v : jsval) (operation : jstr) : res exn bool :=
  match v with
  | VArr l => Ok (existsb (λ x, is_vstr x operation) l)
  | VStr s => Ok (includes s operation)
  | _ => Err XTypeError
  end.

Definition resolve (st : adapter_store) (ledger : list nat) (r : NativeAdapterRegistry)
    (name operation : jstr) (manifestAllowlist : list jstr) : res exn nat :=
  if nr_closed r then registry_closed
  else match own_get name (nr_adapters r) with
  | None => adapter_err (named name " is not registered")
  | Some a =>
      if negb (bool_decide (name ∈ manifestAllowlist))
      then adapter_err (named name " is not approved for operation " ++ json_quote operation)
      else
        let* implemented := operations_include (na_operations (st a)) operation in
        if negb implemented
        then adapter_err (named name " does not implement operation " ++ json_quote operation)
        else if negb (truthy (na_parityQualified (st a))) || negb (isParityQualified ledger a)
        then adapter_err (named name " has not passed shared parity qualification")
        else Ok a
  end.

(** [close()]: the adapters it closes, in order, and whether it rejects.  [nr_closed] is set
    before the first await, so every other operation of the registry but [names] throws
    while it runs; the store is the one of each close, which no later step reads. *)
Definition close_registry (leb : jstr → jstr → bool) (st : adapter_store) (r : NativeAdapterRegistry)
    : NativeAdapterRegistry * list nat * res exn unit :=
  if nr_closed r then (r, [], Ok tt)
  else
    let order := map snd (sort (λ p q, leb p.1 q.1) (nr_adapters r)) in
    let failures := filter (λ a, na_close (st a) = Some true) order in
    ({| nr_adapters := []; nr_closed := true |}, order,
     if bool_decide (failures = []) then Ok tt
     else adapter_err (js "one or more native adapters failed to close")).

(** ** Histories *)

Inductive adapter_op :=
  | OMutate (a : nat) (fields : NativeWasmAdapter)
  | ORecord (a : nat)
  | ORegister (a : nat)
  | OUnregister (name : jstr)
  | OClose.

Record adapter_world := {
  aw_store : adapter_store;
  aw_ledger : list nat;
  aw_registry : NativeAdapterRegistry;
}.

Definition keep {A B} (r : res exn A) (f : A → B) (b : B) : B :=
  match r with Ok a => f a | Err _ => b end.

(** An operation; one that throws changes nothing. *)
Definition adapter_step (leb : jstr → jstr → bool) (w : adapter_world) (op : adapter_op) : adapter_world :=
  match op with
  | OMutate a fields =>
      {| aw_store := λ b, if b =? a then fields else aw_store w b;
         aw_ledger := aw_ledger w; aw_registry := aw_registry w |}
  | ORecord a =>
      {| aw_store := aw_store w;
         aw_ledger := keep (recordParityQualification (aw_store w) (aw_ledger w) a) id (aw_ledger w);
         aw_registry := aw_registry w |}
  | ORegister a =>
      {| aw_store := aw_store w; aw_ledger := aw_ledger w;
         aw_registry := keep (register (aw_store w) (aw_ledger w) a (aw_registry w)) id (aw_registry w) |}
  | OUnregister name =>
      {| aw_store := aw_store w; aw_ledger := aw_ledger w;
         aw_registry := keep (unregister name (aw_registry w)) snd (aw_registry w) |}
  | OClose =>
      {| aw_store := aw_store w; aw_ledger := aw_ledger w;
         aw_registry := (close_registry leb (aw_store w) (aw_registry w)).1.1 |}
  end.

Definition adapter_history leb (st : adapter_store) (ops : list adapter_op) : adapter_world :=
  foldl (adapter_step leb) {| aw_store := st; aw_ledger := []; aw_registry := new_registry |} ops.

(** [recorded leb st ops a]: the qualification of [a] was recorded while [a] declared it. *)
Definition recorded leb (st : adapter_store) (ops : list adapter_op) (a : nat) : Prop :=
  ∃ before after, ops = before ++ ORecord a :: after ∧
    na_parityQualified (aw_store (adapter_history leb st before) a) = VBool true.

(** What a registered entry went through: a validated registration under its name. *)
Definition registered leb (st : adapter_store) (ops : list adapter_op) (p : jstr * nat) : Prop :=
  ∃ before after, ops = before ++ ORegister p.2 :: after ∧
    let w := adapter_history leb st before in
    na_name (aw_store w p.2) = p.1 ∧ validateAdapter (aw_store w) (aw_ledger w) p.2 = Ok tt.

Lemma history_snoc leb st ops op :
  adapter_history leb st (ops ++ [op]) = adapter_step leb (adapter_history leb st ops) op.
Proof. apply foldl_snoc. Qed.

Lemma recorded_snoc leb st ops op a : recorded leb st ops a → recorded leb st (ops ++ [op]) a.
Proof. intros (b & c & -> & H). exists b, (c ++ [op]). split; [by rewrite <- app_assoc|done]. Qed.

Lemma registered_snoc leb st ops op p : registered leb st ops p → registered leb st (ops ++ [op]) p.
Proof. intros (b & c & -> & H). exists b, (c ++ [op]). split; [by rewrite <- app_assoc|done]. Qed.

(** The invariant of a history. *)
Record adapter_inv leb st ops : Prop := {
  ai_ledger : ∀ a, a ∈ aw_ledger (adapter_history leb st ops) → recorded leb st ops a;
  ai_entries : ∀ p, p ∈ nr_adapters (aw_registry (adapter_history leb st ops)) → registered leb st ops p;
  ai_names : NoDup (keys (nr_adapters (aw_registry (adapter_history leb st ops))));
  ai_closed : nr_closed (aw_registry (adapter_history leb st ops)) = true →
              nr_adapters (aw_registry (adapter_history leb st ops)) = [];
}.

Lemma register_Ok st ledger a r r' : register st ledger a r = Ok r' →
  nr_closed r = false ∧ validateAdapter st ledger a = Ok tt ∧ na_name (st a) ∉ keys (nr_adapters r) ∧
  r' = {| nr_adapters := nr_adapters r ++ [(na_name (st a), a)]; nr_closed := false |}.
Proof.
  unfold register. destruct (nr_closed r); [done|]. intros ([] & Hv & H)%rbind_Ok.
  case_bool_decide; [done|]. by injection H as <-.
Qed.

Lemma record_Ok st ledger a ledger' : recordParityQualification st ledger a = Ok ledger' →
  na_parityQualified (st a) = VBool true ∧ ∀ b, b ∈ ledger' → b = a ∨ b ∈ ledger.
Proof.
  unfold recordParityQualification. destruct (na_parityQualified (st a)) as [| |[]| | | | |]; try done.
  destruct (isParityQualified ledger a); intros [= <-]; set_solver.
Qed.

Lemma adapter_inv_step leb st ops op : adapter_inv leb st ops → adapter_inv leb st (ops ++ [op]).
Proof.
  intros [Hl He Hn Hc]. set (w := adapter_history leb st ops) in *.
  assert (Hrec : ∀ a, a ∈ aw_ledger w → recorded leb st (ops ++ [op]) a) by (intros; by apply recorded_snoc, Hl).
  assert (Hreg : ∀ p, p ∈ nr_adapters (aw_registry w) → registered leb st (ops ++ [op]) p)
    by (intros; by apply registered_snoc, He).
  split; rewrite history_snoc; fold w; destruct op as [b f|b|b|name|]; simpl; try done.
  - intros a. destruct (recordParityQualification _ _ b) as [l|] eqn:E; [|apply Hrec]. simpl.
    apply record_Ok in E as [Hq Hin]. intros [->|Ha]%Hin; [|by apply Hrec]. by exists ops, [].
  - intros p. destruct (register _ _ b _) as [r|] eqn:E; [|apply Hreg]. simpl.
    apply register_Ok in E as (_ & Hv & _ & ->). simpl. intros [Hp| ->%list_elem_of_singleton]%elem_of_app; [by apply Hreg|].
    exists ops, []. split; [done|]. simpl. by fold w.
  - intros p Hp. apply Hreg. destruct (unregister name _) as [[b r]|] eqn:E; [|done]. simpl in Hp.
    unfold unregister in E. destruct (nr_closed _); [done|]. injection E as _ <-. simpl in Hp.
    eapply elem_of_submseteq; [exact Hp|]. apply sublist_submseteq, drop_first_sublist.
  - intros p. unfold close_registry. destruct (nr_closed (aw_registry w)) eqn:E; simpl; [apply Hreg|set_solver].
  - destruct (register _ _ b _) as [r|] eqn:E; [|done]. simpl. apply register_Ok in E as (_ & _ & Hname & ->).
    simpl. unfold keys in *. rewrite map_app. apply NoDup_app. split_and!; [done|set_solver|apply NoDup_singleton].
  - destruct (unregister name _) as [[b r]|] eqn:E; [|done]. simpl. unfold unregister in E.
    destruct (nr_closed _); [done|]. injection E as _ <-. simpl. unfold keys in *.
    apply (sublist_NoDup _ _ Hn).
    apply (fmap_sublist fst), drop_first_sublist.
  - unfold close_registry. destruct (nr_closed (aw_registry w)); [done|constructor].
  - destruct (register _ _ b _) as [r|] eqn:E; [|done]. apply register_Ok in E as (_ & _ & _ & ->). discriminate.
  - destruct (unregister name _) as [[b r]|] eqn:E; [|done]. simpl. unfold unregister in E.
    destruct (nr_closed _); [done|]. injection E as _ <-. discriminate.
  - unfold close_registry. destruct (nr_closed (aw_registry w)) eqn:E; simpl; auto.
Qed.

Lemma adapter_inv_holds leb st ops : adapter_inv leb st ops.
Proof.
  induction ops as [|op ops IH] using rev_ind; [|by apply adapter_inv_step].
  split; simpl; try set_solver. constructor.
Qed.

Lemma resolve_Ok st ledger r name op allow a : resolve st ledger r name op allow = Ok a →
  nr_closed r = false ∧ own_get name (nr_adapters r) = Some a ∧ name ∈ allow ∧
  operations_include (na_operations (st a)) op = Ok true ∧ truthy (na_parityQualified (st a)) = true ∧ a ∈ ledger.
Proof.
  unfold resolve. destruct (nr_closed r); [done|]. destruct (own_get name _) as [b|]; [|done].
  case_bool_decide; [|done]. simpl. intros ([] & Hi & Hr)%rbind_Ok; [|done]. simpl in Hr.
  destruct (truthy _) eqn:?; [|done]. simpl in Hr. unfold isParityQualified in Hr.
  case_bool_decide; [|done]. by injection Hr as <-.
Qed.

(** C38. A native route is taken only through the two allowlists and a recorded
    qualification: whatever the host did to the adapter objects and the registry before, the
    adapter [resolve] returns is registered under the name, the manifest allows the name, the
    adapter declares the operation and its qualification, was validated when it was
    registered under that name, and its own identity was recorded while it declared the
    qualification. *)
Theorem resolve_qualified leb st ops name operation allow a :
  let w := adapter_history leb st ops in
  resolve (aw_store w) (aw_ledger w) (aw_registry w) name operation allow = Ok a →
  name ∈ allow ∧ operations_include (na_operations (aw_store w a)) operation = Ok true ∧
  truthy (na_parityQualified (aw_store w a)) = true ∧
  registered leb st ops (name, a) ∧ recorded leb st ops a.
Proof.
  intros w (_ & Hget & Hin & Hop & Hq & Hl)%resolve_Ok. destruct (adapter_inv_holds leb st ops) as [Hrec Hreg _ _].
  split_and!; try done; [|by apply Hrec]. apply Hreg. by apply own_get_elem.
Qed.

Definition demo_adapter : NativeWasmAdapter :=
  {| na_name := js "webcrypto"; na_operations := VArr [VStr (js "crypto.sha256")];
     na_parityQualified := VBool true; na_invoke := VFun (js "invoke"); na_close := Some false |}.

Lemma resolve_qualified_witness :
  recorded (λ _ _, true) (λ _, demo_adapter) [ORecord 7; ORegister 7; ORegister 8; OUnregister (js "x")] 7.
Proof.
  apply (resolve_qualified _ _ _ (js "webcrypto") (js "crypto.sha256") [js "webcrypto"] 7).
  vm_compute. reflexivity.
Defined.

(** Closing a registry: the first [close] closes every registered adapter exactly once
    and rejects exactly when one of them failed; a later [close] closes nothing and
    succeeds, and nothing can be registered, removed or resolved any more. *)
Theorem registry_close leb st ops : 
  let w := adapter_history leb st ops in
  let '(r, order, result) := close_registry leb (aw_store w) (aw_registry w) in
  order ≡ₚ map snd (nr_adapters (aw_registry w)) ∧
  (is_ok result = false ↔ ∃ a, a ∈ order ∧ na_close (aw_store w a) = Some true) ∧
  (∀ st', close_registry leb st' r = (r, [], Ok tt)) ∧ names r = [] ∧
  (∀ st' l a, register st' l a r = registry_closed) ∧ (∀ n, unregister n r = registry_closed) ∧
  ∀ st' l n op allow, resolve st' l r n op allow = registry_closed.
Proof.
  intros w. destruct (adapter_inv_holds leb st ops) as [_ _ _ Hc]. fold w in Hc.
  unfold close_registry at 1. destruct (nr_closed (aw_registry w)) eqn:E.
  - specialize (Hc eq_refl). destruct (aw_registry w) as [l c]. simpl in *. subst l c.
    split_and!; try done. split; [done|]. intros (a & Ha & _). by apply not_elem_of_nil in Ha.
  - split_and!; try done.
    + by rewrite sort_perm.
    + set (order := map snd _). clearbody order. destruct (filter _ order) as [|x f] eqn:Ef; simpl.
      * split; [done|]. intros (a & Ha & Hcl).
        assert (H : a ∈ filter (λ a, na_close (aw_store w a) = Some true) order) by by apply list_elem_of_filter.
        rewrite Ef in H. by apply not_elem_of_nil in H.
      * split; [|done]. intros _. exists x.
        apply and_comm, (list_elem_of_filter (λ a, na_close (aw_store w a) = Some true)). rewrite Ef. constructor.
Qed.
