(* ===== verification/Pool.v ===== *)
(** * wasm/runtime.ts: the instance pool (classes InstancePool and InstanceLease)

    The pool runs on one thread: what happens between two awaits is one transition, and the
    events are the calls ([acquire], [release], [close]), the abort of a waiter's signal, the
    listener of that abort, and the settling of the promises the pool awaits.  A waiter is
    numbered in the order of the calls of [acquire]; an instance by its [instanceId]. *)

From stdpp Require Import sorting.
From S2P Require Export WasmContracts.
Local Open Scope nat_scope.

Inductive pool_outcome :=
  | OLease (entry : nat)
  | OReject (e : WasmRuntimeError).

(** The queue and the entries.  [c_leases] lists the leases not released yet, [c_log] how
    each promise of [acquire] was settled. *)
Record pool_core := {
  c_entries : list (nat * bool);  (* id, busy *)
  c_waiters : list nat;
  c_creating : list nat;
  c_nextId : nat;
  c_leases : list (nat * nat);
  c_log : list (nat * pool_outcome);
}.

(** [p_discarding], [p_late] and [p_final] are the instances whose [close] is awaited: by
    [release], by a creation that settled after [close], and by the final sweep. *)
Record pool := {
  p_core : pool_core;
  p_closed : bool;
  p_finalizing : bool;
  p_discarding : list nat;
  p_late : list nat;
  p_final : list nat;
  p_failures : list nat;
  p_result : option bool;
  p_nextWaiter : nat;
  p_aborted : list (nat * option WasmRuntimeError);
}.

Definition new_core : pool_core :=
  {| c_entries := []; c_waiters := []; c_creating := []; c_nextId := 1; c_leases := []; c_log := [] |}.
Definition new_pool : pool :=
  {| p_core := new_core; p_closed := false; p_finalizing := false; p_discarding := []; p_late := [];
     p_final := []; p_failures := []; p_result := None; p_nextWaiter := 0; p_aborted := [] |}.

(** [abortReason]: the reason when it is an error of the runtime. *)
Definition abortReason (reason : option WasmRuntimeError) : WasmRuntimeError := default wasmCancelledError reason.

Definition idle (p : nat * bool) : bool := negb p.2.
Definition busy_ids (es : list (nat * bool)) : list nat := map fst (filter (λ p, p.2 = true) es).
Definition set_busy (e : nat) (b : bool) (es : list (nat * bool)) : list (nat * bool) :=
  map (λ p, if p.1 =? e then (p.1, b) else p) es.
Definition delete_entry (e : nat) (es : list (nat * bool)) : list (nat * bool) := filter (λ p, p.1 ≠ e) es.

Definition stats (c : pool_core) : nat * nat * nat :=
  (length (busy_ids (c_entries c)), length (c_entries c), length (c_waiters c)).

(** ** The turns of [#pump] *)

Definition log_waiter (w : nat) (o : pool_outcome) (c : pool_core) : pool_core :=
  {| c_entries := c_entries c; c_waiters := c_waiters c; c_creating := c_creating c;
     c_nextId := c_nextId c; c_leases := c_leases c; c_log := c_log c ++ [(w, o)] |}.
Definition set_waiters (ws : list nat) (c : pool_core) : pool_core :=
  {| c_entries := c_entries c; c_waiters := ws; c_creating := c_creating c;
     c_nextId := c_nextId c; c_leases := c_leases c; c_log := c_log c |}.

Definition grant (w e : nat) (ws : list nat) (c : pool_core) : pool_core :=
  {| c_entries := set_busy e true (c_entries c); c_waiters := ws; c_creating := c_creating c;
     c_nextId := c_nextId c; c_leases := c_leases c ++ [(w, e)]; c_log := c_log c ++ [(w, OLease e)] |}.

(** The synchronous part of [#startCreate]. *)
Definition startCreate (c : pool_core) : pool_core :=
  {| c_entries := c_entries c; c_waiters := c_waiters c; c_creating := c_creating c ++ [c_nextId c];
     c_nextId := S (c_nextId c); c_leases := c_leases c; c_log := c_log c |}.

Section pool.
Context (max : nat).

(** The [while] loop of [#pump]; [aborted w] is the reason of [waiter.signal] once aborted. *)
Fixpoint pump_loop (fuel : nat) (aborted : list (nat * option WasmRuntimeError)) (c : pool_core) : pool_core :=
  match fuel with
  | 0 => c
  | S fuel =>
      match c_waiters c with
      | [] => c
      | w :: ws =>
          match find_first idle (c_entries c) with
          | Some (e, _) =>
              match find_first (λ p, p.1 =? w) aborted with
              | Some (_, reason) =>
                  pump_loop fuel aborted (log_waiter w (OReject (abortReason reason)) (set_waiters ws c))
              | None => pump_loop fuel aborted (grant w e ws c)
              end
          | None =>
              if length (c_waiters c) <=? length (c_creating c) then c
              else if max <=? length (c_entries c) + length (c_creating c) then c
              else pump_loop fuel aborted (startCreate c)
          end
      end
  end.

(** Every turn settles a waiter or uses up a free place. *)
Definition pump_fuel (c : pool_core) : nat :=
  S (length (c_waiters c) + (max - (length (c_entries c) + length (c_creating c)))).

Definition with_core (c : pool_core) (p : pool) : pool :=
  {| p_core := c; p_closed := p_closed p; p_finalizing := p_finalizing p; p_discarding := p_discarding p;
     p_late := p_late p; p_final := p_final p; p_failures := p_failures p; p_result := p_result p;
     p_nextWaiter := p_nextWaiter p; p_aborted := p_aborted p |}.

(** [#maybeFinishClose]: the sweep of the remaining entries starts at most once. *)
Definition maybeFinishClose (p : pool) : pool :=
  let c := p_core p in
  if negb (p_closed p) || p_finalizing p || negb (bool_decide (c_creating c = [])) then p
  else if negb (bool_decide (busy_ids (c_entries c) = [])) then p
  else
    {| p_core := {| c_entries := []; c_waiters := c_waiters c; c_creating := c_creating c;
                    c_nextId := c_nextId c; c_leases := c_leases c; c_log := c_log c |};
       p_closed := p_closed p; p_finalizing := true; p_discarding := p_discarding p; p_late := p_late p;
       p_final := map fst (c_entries c); p_failures := p_failures p; p_result := p_result p;
       p_nextWaiter := p_nextWaiter p; p_aborted := p_aborted p |}.

Definition pump (p : pool) : pool :=
  if p_closed p then maybeFinishClose p
  else with_core (pump_loop (pump_fuel (p_core p)) (p_aborted p) (p_core p)) p.

(** ** The operations *)

Definition ticket (p : pool) : pool :=
  {| p_core := p_core p; p_closed := p_closed p; p_finalizing := p_finalizing p;
     p_discarding := p_discarding p; p_late := p_late p; p_final := p_final p; p_failures := p_failures p;
     p_result := p_result p; p_nextWaiter := S (p_nextWaiter p); p_aborted := p_aborted p |}.

(** [acquire(signal)]; [aborted] is the reason of an already aborted signal. *)
Definition acquire (aborted : option (option WasmRuntimeError)) (p : pool) : pool :=
  let w := p_nextWaiter p in
  let c := p_core p in
  if p_closed p then ticket (with_core (log_waiter w (OReject (wasmClosedError None)) c) p)
  else match aborted with
  | Some reason => ticket (with_core (log_waiter w (OReject (abortReason reason)) c) p)
  | None => pump (ticket (with_core (set_waiters (c_waiters c ++ [w]) c) p))
  end.

(** The signal of a queued waiter aborts: [signal.aborted] holds before the listeners run. *)
Definition signal_abort (w : nat) (reason : option WasmRuntimeError) (p : pool) : pool :=
  {| p_core := p_core p; p_closed := p_closed p; p_finalizing := p_finalizing p;
     p_discarding := p_discarding p; p_late := p_late p; p_final := p_final p; p_failures := p_failures p;
     p_result := p_result p; p_nextWaiter := p_nextWaiter p;
     p_aborted := if existsb (λ q, q.1 =? w) (p_aborted p) then p_aborted p else p_aborted p ++ [(w, reason)] |}.

(** [onAbort]: the listener is registered while the waiter is queued. *)
Definition onAbort (w : nat) (p : pool) : option pool :=
  let c := p_core p in
  match find_first (λ q, q.1 =? w) (p_aborted p) with
  | Some (_, reason) =>
      if bool_decide (w ∈ c_waiters c)
      then Some (pump (with_core (log_waiter w (OReject (abortReason reason))
                                    (set_waiters (drop_first (λ x, x =? w) (c_waiters c)) c)) p))
      else None
  | None => None
  end.

(** [lease.release(discard)] of the lease of waiter [w], up to its await.  A second release
    does nothing. *)
Definition release (w : nat) (discard : bool) (p : pool) : pool :=
  let c := p_core p in
  match find_first (λ q, q.1 =? w) (c_leases c) with
  | None => p
  | Some (_, e) =>
      let leases := drop_first (λ q, q.1 =? w) (c_leases c) in
      let core es := {| c_entries := es; c_waiters := c_waiters c; c_creating := c_creating c;
                        c_nextId := c_nextId c; c_leases := leases; c_log := c_log c |} in
      if negb (bool_decide (e ∈ map fst (c_entries c))) then with_core (core (c_entries c)) p
      else if discard || p_closed p then
        {| p_core := core (delete_entry e (c_entries c)); p_closed := p_closed p;
           p_finalizing := p_finalizing p; p_discarding := p_discarding p ++ [e]; p_late := p_late p;
           p_final := p_final p; p_failures := p_failures p; p_result := p_result p;
           p_nextWaiter := p_nextWaiter p; p_aborted := p_aborted p |}
      else pump (with_core (core (set_busy e false (c_entries c))) p)
  end.


(** The awaited [entry.instance.close()] of [release] settles. *)
Definition discard_settled (e : nat) (ok : bool) (p : pool) : option pool :=
  if bool_decide (e ∈ p_discarding p) then
    Some (maybeFinishClose (pump
      {| p_core := p_core p; p_closed := p_closed p; p_finalizing := p_finalizing p;
         p_discarding := drop_nat e (p_discarding p); p_late := p_late p; p_final := p_final p;
         p_failures := if negb ok && p_closed p then p_failures p ++ [e] else p_failures p;
         p_result := p_result p; p_nextWaiter := p_nextWaiter p; p_aborted := p_aborted p |}))
  else None.

Definition set_creating (e : nat) (es : list (nat * bool)) (c : pool_core) : pool_core :=
  {| c_entries := es; c_waiters := c_waiters c; c_creating := drop_nat e (c_creating c);
     c_nextId := c_nextId c; c_leases := c_leases c; c_log := c_log c |}.

(** The creation of instance [e] settles. *)
Definition create_ok (e : nat) (p : pool) : option pool :=
  let c := p_core p in
  if bool_decide (e ∈ c_creating c) then
    if p_closed p then
      Some {| p_core := set_creating e (c_entries c) c; p_closed := p_closed p; p_finalizing := p_finalizing p;
              p_discarding := p_discarding p; p_late := p_late p ++ [e]; p_final := p_final p;
              p_failures := p_failures p; p_result := p_result p; p_nextWaiter := p_nextWaiter p;
              p_aborted := p_aborted p |}
    else Some (pump (with_core (set_creating e (c_entries c ++ [(e, false)]) c) p))
  else None.

(** The rejection of a creation is given to the first waiter; [cause] is an error of the
    runtime when it is one. *)
Definition create_error (cause : option WasmRuntimeError) : WasmRuntimeError :=
  default (wasmPoolError (js "component instance creation failed") None) cause.

Definition create_failed (e : nat) (cause : option WasmRuntimeError) (p : pool) : option pool :=
  let c := p_core p in
  if bool_decide (e ∈ c_creating c) then
    let c1 := set_creating e (c_entries c) c in
    let c2 := match c_waiters c1 with
              | [] => c1
              | w :: ws => log_waiter w (OReject (create_error cause)) (set_waiters ws c1)
              end in
    Some (maybeFinishClose (pump (with_core c2 p)))
  else None.

(** The awaited [instance.close()] of a creation that settled after [close]. *)
Definition late_settled (e : nat) (ok : bool) (p : pool) : option pool :=
  if bool_decide (e ∈ p_late p) then
    Some (maybeFinishClose
      {| p_core := p_core p; p_closed := p_closed p; p_finalizing := p_finalizing p;
         p_discarding := p_discarding p; p_late := drop_nat e (p_late p); p_final := p_final p;
         p_failures := if ok then p_failures p else p_failures p ++ [e];
         p_result := p_result p; p_nextWaiter := p_nextWaiter p; p_aborted := p_aborted p |})
  else None.

Definition reject_all (ws : list nat) (c : pool_core) : pool_core :=
  {| c_entries := c_entries c; c_waiters := []; c_creating := c_creating c; c_nextId := c_nextId c;
     c_leases := c_leases c; c_log := c_log c ++ map (λ w, (w, OReject (wasmClosedError None))) ws |}.

(** [close()]; a later call returns the promise of the first. *)
Definition pool_close (p : pool) : pool :=
  if p_closed p then p
  else maybeFinishClose
    {| p_core := reject_all (c_waiters (p_core p)) (p_core p); p_closed := true; p_finalizing := p_finalizing p;
       p_discarding := p_discarding p; p_late := p_late p; p_final := p_final p; p_failures := p_failures p;
       p_result := p_result p; p_nextWaiter := p_nextWaiter p; p_aborted := p_aborted p |}.

(** [Promise.allSettled] of the final sweep; [failed] are the instances whose close rejects. *)
Definition final_settled (failed : list nat) (p : pool) : option pool :=
  if p_finalizing p && bool_decide (p_result p = None) then
    Some {| p_core := p_core p; p_closed := p_closed p; p_finalizing := p_finalizing p;
            p_discarding := p_discarding p; p_late := p_late p; p_final := []; p_failures := p_failures p;
            p_result := Some (bool_decide (p_failures p ++ failed = []));
            p_nextWaiter := p_nextWaiter p; p_aborted := p_aborted p |}
  else None.

Inductive pool_event :=
  | EAcquire (aborted : option (option WasmRuntimeError))
  | ESignal (w : nat) (reason : option WasmRuntimeError)
  | EListener (w : nat)
  | ERelease (w : nat) (discard : bool)
  | EDiscarded (e : nat) (ok : bool)
  | ECreated (e : nat)
  | ECreateFailed (e : nat) (cause : option WasmRuntimeError)
  | ELate (e : nat) (ok : bool)
  | EClose
  | EFinal (failed : list nat).

(** An event, when it can happen. *)
Definition pool_step (p : pool) (ev : pool_event) : option pool :=
  match ev with
  | EAcquire a => Some (acquire a p)
  | ESignal w r => if bool_decide (w ∈ c_waiters (p_core p)) then Some (signal_abort w r p) else None
  | EListener w => onAbort w p
  | ERelease w d => Some (release w d p)
  | EDiscarded e ok => discard_settled e ok p
  | ECreated e => create_ok e p
  | ECreateFailed e cause => create_failed e cause p
  | ELate e ok => late_settled e ok p
  | EClose => Some (pool_close p)
  | EFinal failed => final_settled failed p
  end.

Definition pool_run : pool → list pool_event → pool → Prop :=
  run (λ p ev p', pool_step p ev = Some p').
End pool.

(** A history, for concrete runs. *)
Definition pool_exec (max : nat) (evs : list pool_event) : option pool :=
  foldl (λ o ev, p ← o; pool_step max p ev) (Some new_pool) evs.

(** ** The invariant of the core *)

Definition granted (log : list (nat * pool_outcome)) : list nat :=
  omap (λ p, match p.2 with OLease _ => Some p.1 | OReject _ => None end) log.

(** [n] waiters have called [acquire]: each is queued or settled exactly once, leases are
    granted in the order of the calls, every busy entry is held by exactly one lease. *)
Record core_inv (max n : nat) (c : pool_core) : Prop := {
  ci_bound : length (c_entries c) + length (c_creating c) ≤ max;
  ci_nodup : NoDup (map fst (c_entries c) ++ c_creating c);
  ci_next : Forall (λ e, e < c_nextId c) (map fst (c_entries c) ++ c_creating c);
  ci_leases : map snd (c_leases c) ≡ₚ busy_ids (c_entries c);
  ci_fifo : StronglySorted lt (granted (c_log c) ++ c_waiters c);
  ci_log : map fst (c_log c) ++ c_waiters c ≡ₚ seq 0 n;
}.

Lemma granted_app l k : granted (l ++ k) = granted l ++ granted k.
Proof. apply omap_app. Qed.

Lemma fst_set_busy e b es : map fst (set_busy e b es) = map fst es.
Proof. unfold set_busy. rewrite map_map. apply map_ext. intros [x y]; simpl. by destruct (x =? e). Qed.

Lemma length_set_busy e b es : length (set_busy e b es) = length es.
Proof. apply length_map. Qed.

Lemma set_busy_notin e b es : e ∉ map fst es → set_busy e b es = es.
Proof.
  induction es as [|[x y] es IH]; simpl; [done|]. intros Hn. rewrite IH by set_solver.
  destruct (Nat.eqb_spec x e); [set_solver|done].
Qed.

Lemma busy_ids_cons x b es : busy_ids ((x, b) :: es) = if b then x :: busy_ids es else busy_ids es.
Proof. by destruct b. Qed.

Lemma busy_ids_app l k : busy_ids (l ++ k) = busy_ids l ++ busy_ids k.
Proof. unfold busy_ids. by rewrite filter_app, map_app. Qed.

Lemma elem_of_busy_ids e es : e ∈ busy_ids es ↔ (e, true) ∈ es.
Proof.
  unfold busy_ids. rewrite list_elem_of_fmap. setoid_rewrite list_elem_of_filter. split.
  - by intros ([x b] & -> & [H Hin]); simpl in H; subst b.
  - intros H. by exists (e, true).
Qed.

Lemma busy_ids_sublist es : busy_ids es `sublist_of` map fst es.
Proof. apply (fmap_sublist fst), sublist_filter. Qed.

(** Granting an idle entry, and giving a busy one back. *)
Lemma busy_grant e es : NoDup (map fst es) → (e, false) ∈ es →
  busy_ids (set_busy e true es) ≡ₚ busy_ids es ++ [e].
Proof.
  induction es as [|[x b] es IH]; simpl; [set_solver|]. intros [Hx Hn]%NoDup_cons [[= <- <-]|Hin]%elem_of_cons.
  - rewrite Nat.eqb_refl, !busy_ids_cons. fold (set_busy e true es). rewrite set_busy_notin by done.
    apply Permutation_cons_append.
  - fold (set_busy e true es). destruct (Nat.eqb_spec x e) as [->|].
    + destruct Hx. by apply (list_elem_of_fmap_2 fst _ (e, false)).
    + rewrite !busy_ids_cons. destruct b; simpl; by rewrite IH.
Qed.

Lemma busy_remove e es k : NoDup (map fst es) → e :: k ≡ₚ busy_ids es →
  k ≡ₚ busy_ids (set_busy e false es) ∧ k ≡ₚ busy_ids (delete_entry e es).
Proof.
  intros Hn Hk. assert (He : e ∈ busy_ids es) by (rewrite <- Hk; constructor).
  assert (H : ∀ es, NoDup (map fst es) → e ∈ busy_ids es →
    busy_ids es ≡ₚ e :: busy_ids (delete_entry e es) ∧ busy_ids (set_busy e false es) = busy_ids (delete_entry e es)).
  { clear. induction es as [|[x b] es IH]; intros Hn He; [by apply not_elem_of_nil in He|].
    apply NoDup_cons in Hn as [Hx Hn]. unfold delete_entry. rewrite filter_cons. simpl.
    fold (set_busy e false es). destruct (Nat.eqb_spec x e) as [->|Hne].
    - rewrite decide_False by naive_solver. fold (delete_entry e es).
      assert (Hd : delete_entry e es = es).
      { clear -Hx. unfold delete_entry. induction es as [|[y c] es IH]; [done|]. rewrite filter_cons. simpl in *.
        rewrite decide_True by set_solver. f_equal. apply IH. set_solver. }
      rewrite Hd, set_busy_notin by done. rewrite !busy_ids_cons. destruct b; [done|].
      exfalso. apply Hx. rewrite busy_ids_cons in He. by eapply elem_of_sublist, busy_ids_sublist.
    - rewrite decide_True by done. fold (delete_entry e es). rewrite !busy_ids_cons in *.
      destruct b.
      + apply elem_of_cons in He as [->|He]; [done|]. destruct (IH Hn He) as [H1 H2].
        rewrite H1 at 1. rewrite H2. split; [apply Permutation_swap|done].
      + destruct (IH Hn He) as [H1 H2]. by rewrite H1 at 1. }
  destruct (H es Hn He) as [H1 H2]. rewrite H2. rewrite H1 in Hk. apply Permutation_cons_inv in Hk. done.
Qed.

(** ** The turns preserve it *)

Lemma find_first_idle es e b : find_first idle es = Some (e, b) → (e, false) ∈ es.
Proof. intros [Hin Hb]%find_first_Some. by destruct b. Qed.

Section core.
Context (max : nat).
Implicit Types (c : pool_core) (n w e : nat).

Lemma core_grant n c w ws e : core_inv max n c → c_waiters c = w :: ws → (e, false) ∈ c_entries c →
  core_inv max n (grant w e ws c).
Proof.
  intros [Hb Hn Hx Hl Hf Hg] Hw He. rewrite Hw in *. apply NoDup_app in Hn as Hn'. destruct Hn' as [Hn' _].
  split; simpl; rewrite ?fst_set_busy, ?length_set_busy; try done.
  - rewrite map_app, busy_grant, Hl by done. done.
  - rewrite granted_app. simpl. by rewrite <- app_assoc.
  - rewrite map_app. simpl. by rewrite <- app_assoc.
Qed.

Lemma sorted_drop_middle (l1 l2 : list nat) w :
  StronglySorted lt (l1 ++ w :: l2) → StronglySorted lt (l1 ++ l2).
Proof.
  rewrite !StronglySorted_app, StronglySorted_cons. intros (H1 & H2 & _ & H3). split_and!; [|done..].
  intros x y Hx Hy. apply H1; [done|by right].
Qed.

(** A waiter leaves the queue with a rejection. *)
Lemma core_reject n c w ws1 ws2 r : core_inv max n c → c_waiters c = ws1 ++ w :: ws2 →
  core_inv max n (log_waiter w (OReject r) (set_waiters (ws1 ++ ws2) c)).
Proof.
  intros [Hb Hn Hx Hl Hf Hg] Hw. rewrite Hw in *. split; simpl; try done.
  - rewrite granted_app. simpl. rewrite app_nil_r. rewrite app_assoc in Hf. rewrite app_assoc.
    by eapply sorted_drop_middle.
  - rewrite map_app. simpl. rewrite <- Hg. rewrite <- app_assoc. simpl. by rewrite Permutation_middle.
Qed.

Lemma core_startCreate n c : core_inv max n c → length (c_entries c) + length (c_creating c) < max →
  core_inv max n (startCreate c).
Proof.
  intros [Hb Hn Hx Hl Hf Hg] Hlt. split; simpl; try done.
  - rewrite length_app. simpl. lia.
  - rewrite app_assoc. apply NoDup_app. split_and!; [done| |apply NoDup_singleton].
    intros e He ->%list_elem_of_singleton. rewrite Forall_forall in Hx. specialize (Hx _ He). lia.
  - rewrite app_assoc. apply Forall_app. split; [|constructor; [lia|constructor]].
    eapply Forall_impl; [exact Hx|]. simpl. lia.
Qed.

Lemma core_pump_loop n aborted fuel : ∀ c, core_inv max n c → core_inv max n (pump_loop max fuel aborted c).
Proof.
  induction fuel as [|fuel IH]; intros c Hc; simpl; [done|].
  destruct (c_waiters c) as [|w ws] eqn:Hw; [done|].
  destruct (find_first idle (c_entries c)) as [[e b]|] eqn:Hi.
  - apply find_first_idle in Hi. destruct (find_first _ aborted) as [[? reason]|]; apply IH.
    + by apply (core_reject _ _ _ [] ws).
    + by apply core_grant.
  - destruct (_ <=? _) eqn:E1; [done|]. destruct (max <=? _) eqn:E2; [done|]. apply Nat.leb_gt in E2.
    by apply IH, core_startCreate.
Qed.

(** What [#pump] establishes: no idle instance while someone waits, and either every waiter
    has a creation under way or the pool is full. *)
Definition pump_done c : Prop :=
  c_waiters c = [] ∨
  Forall (λ p, p.2 = true) (c_entries c) ∧
  (length (c_waiters c) ≤ length (c_creating c) ∨ max ≤ length (c_entries c) + length (c_creating c)).

Lemma pump_loop_done aborted fuel : ∀ c, pump_fuel max c ≤ fuel → pump_done (pump_loop max fuel aborted c).
Proof.
  unfold pump_fuel. induction fuel as [|fuel IH]; intros c Hf; simpl; [lia|].
  destruct (c_waiters c) as [|w ws] eqn:Hw; [by left|].
  destruct (find_first idle (c_entries c)) as [[e b]|] eqn:Hi.
  - destruct (find_first _ aborted) as [[? reason]|]; apply IH; simpl in *; rewrite ?length_set_busy; lia.
  - rewrite <- Hw in *. apply find_first_None in Hi. destruct (_ <=? _) eqn:E1; [|destruct (max <=? _) eqn:E2].
    + apply Nat.leb_le in E1. right. split; [|by left]. eapply Forall_impl; [exact Hi|]. by intros [? []].
    + apply Nat.leb_le in E2. right. split; [|by right]. eapply Forall_impl; [exact Hi|]. by intros [? []].
    + apply Nat.leb_gt in E1, E2. apply IH. simpl. rewrite length_app. simpl. lia.
Qed.
End core.

(** ** The invariant of the pool *)

#[local] Arguments pump_loop : simpl never.
#[local] Arguments pump_fuel : simpl never.
#[local] Arguments seq : simpl never.

Definition all_busy (c : pool_core) : Prop := Forall (λ q, q.2 = true) (c_entries c).

Record pool_pre (max : nat) (p : pool) : Prop := {
  pp_core : core_inv max (p_nextWaiter p) (p_core p);
  pp_open : p_closed p = false → p_finalizing p = false ∧ p_late p = [];
  pp_closed : p_closed p = true → c_waiters (p_core p) = [];
  pp_sweep : p_finalizing p = true → c_entries (p_core p) = [] ∧ c_creating (p_core p) = [];
  pp_result : p_result p ≠ None → p_finalizing p = true;
}.

Record pool_inv (max : nat) (p : pool) : Prop := {
  pi_pre : pool_pre max p;
  pi_done : p_closed p = false → pump_done max (p_core p) ∨
              p_discarding p ≠ [] ∧ (c_waiters (p_core p) = [] ∨ all_busy (p_core p));
  pi_alive : p_closed p = true → p_finalizing p = true ∨ busy_ids (c_entries (p_core p)) ≠ [] ∨
              c_creating (p_core p) ≠ [] ∨ p_discarding p ≠ [] ∨ p_late p ≠ [];
}.

Section invariant.
Context (max : nat).
Implicit Types (p : pool) (c : pool_core).

Lemma finish_inv p : pool_pre max p → (p_closed p = false → pump_done max (p_core p)) →
  pool_inv max (maybeFinishClose p).
Proof.
  intros Hp Hd. pose proof Hp as [Hc Ho Hcl Hs Hr]. unfold maybeFinishClose.
  destruct (p_closed p) eqn:E1; simpl; [|by split; [done|left; auto|congruence]].
  destruct (p_finalizing p) eqn:E2; simpl; [by split; [done|congruence|auto]|].
  case_bool_decide as E3; simpl; [|by split; [done|congruence|auto]].
  case_bool_decide as E4; simpl; [|by split; [done|congruence|auto]].
  split; [split; simpl; auto; try congruence|simpl; congruence|simpl; auto].
  destruct Hc as [Hb Hn Hx Hl Hf Hg]. rewrite E3, E4 in *. split; simpl; rewrite ?E3; auto; try lia.
  constructor.
Qed.

Lemma pump_inv p : pool_pre max p → pool_inv max (pump max p).
Proof.
  intros Hp. unfold pump. destruct (p_closed p) eqn:E; [apply finish_inv; [done|congruence]|].
  destruct Hp as [Hc Ho Hcl Hs Hr]. destruct (Ho E) as [Hf Hl].
  split; [split; simpl; try congruence; auto|simpl|simpl; congruence].
  - by apply core_pump_loop.
  - intros _. left. by apply pump_loop_done.
Qed.

Lemma with_core_pre c p : pool_pre max p → core_inv max (p_nextWaiter p) c →
  (p_closed p = true → c_waiters c = []) →
  (p_finalizing p = true → c_entries c = [] ∧ c_creating c = []) → pool_pre max (with_core c p).
Proof. intros [Hc Ho Hcl Hs Hr] H1 H2 H3. by split. Qed.

(** The ticket of a waiter rejected at once. *)
Lemma core_ticket_reject n c r : core_inv max n c → core_inv max (S n) (log_waiter n (OReject r) c).
Proof.
  intros [Hb Hn Hx Hl Hf Hg]. split; simpl; try done.
  - rewrite granted_app. simpl. by rewrite app_nil_r.
  - rewrite map_app, seq_S, <- Hg. simpl. rewrite <- app_assoc. by rewrite (Permutation_app_comm [n]), app_assoc.
Qed.

Lemma granted_sublist log : granted log `sublist_of` map fst log.
Proof.
  induction log as [|[w []] log IH]; simpl; [done|by apply sublist_skip|by apply sublist_cons].
Qed.

Lemma core_ticket_queue n c : core_inv max n c → core_inv max (S n) (set_waiters (c_waiters c ++ [n]) c).
Proof.
  intros [Hb Hn Hx Hl Hf Hg]. split; simpl; try done.
  - rewrite app_assoc. apply StronglySorted_app_2; [|done|repeat constructor].
    intros x y Hxy ->%list_elem_of_singleton. assert (Hin : x ∈ seq 0 n).
    { rewrite <- Hg. rewrite elem_of_app in *. destruct Hxy as [H|H]; [left|by right].
      by eapply elem_of_sublist, granted_sublist. }
    apply elem_of_seq in Hin. lia.
  - by rewrite app_assoc, Hg, seq_S.
Qed.

(** A lease is given back: its entry goes away, or becomes idle. *)
Definition leased c es ls : pool_core :=
  {| c_entries := es; c_waiters := c_waiters c; c_creating := c_creating c; c_nextId := c_nextId c;
     c_leases := ls; c_log := c_log c |}.

Lemma lease_entry n c w w' e : core_inv max n c →
  find_first (λ q, q.1 =? w) (c_leases c) = Some (w', e) →
  e :: map snd (drop_first (λ q, q.1 =? w) (c_leases c)) ≡ₚ busy_ids (c_entries c).
Proof.
  intros Hc (l1 & l2 & E & -> & _)%drop_first_split. rewrite <- (ci_leases _ _ _ Hc), E, !map_app. simpl.
  by rewrite Permutation_middle.
Qed.

Lemma core_leased n c e ls b : core_inv max n c → e :: map snd ls ≡ₚ busy_ids (c_entries c) →
  core_inv max n (leased c (if b : bool then delete_entry e (c_entries c) else set_busy e false (c_entries c)) ls).
Proof.
  intros [Hb Hn Hx Hl Hf Hg] He. apply NoDup_app in Hn as Hn'. destruct Hn' as [Hn' _].
  destruct (busy_remove _ _ _ Hn' He) as [H1 H2]. destruct b; split; simpl; rewrite ?fst_set_busy, ?length_set_busy; try done.
  - pose proof (length_filter (λ p : nat * bool, p.1 ≠ e) (c_entries c)). unfold delete_entry. lia.
  - eapply sublist_NoDup; [exact Hn|]. apply sublist_app; [|done]. apply (fmap_sublist fst), sublist_filter.
  - eapply Forall_sublist; [exact Hx|]. apply sublist_app; [|done]. apply (fmap_sublist fst), sublist_filter.
Qed.

Lemma core_created n c e b : core_inv max n c → e ∈ c_creating c →
  core_inv max n (set_creating e (if b : bool then c_entries c ++ [(e, false)] else c_entries c) c).
Proof.
  intros [Hb Hn Hx Hl Hf Hg] He. apply drop_nat_perm in He as Hp.
  assert (Hq : map fst (c_entries c) ++ c_creating c ≡ₚ (map fst (c_entries c) ++ [e]) ++ drop_nat e (c_creating c)).
  { by rewrite Hp, <- app_assoc at 1. }
  rewrite Hq in Hn, Hx. apply Permutation_length in Hp. simpl in Hp. destruct b; split; simpl; try done.
  - rewrite length_app. simpl. lia.
  - by rewrite map_app.
  - by rewrite map_app.
  - by rewrite busy_ids_app, app_nil_r.
  - lia.
  - eapply sublist_NoDup; [exact Hn|]. apply sublist_app; [by apply sublist_inserts_r|done].
  - eapply Forall_sublist; [exact Hx|]. apply sublist_app; [by apply sublist_inserts_r|done].
Qed.

Definition same_queue p p' : Prop :=
  p_core p' = p_core p ∧ p_closed p' = p_closed p ∧ p_finalizing p' = p_finalizing p ∧
  p_nextWaiter p' = p_nextWaiter p ∧ p_result p' = p_result p.

Lemma same_queue_pre p p' : same_queue p p' → (p_late p = [] → p_late p' = []) → pool_pre max p → pool_pre max p'.
Proof.
  intros (E1 & E2 & E3 & E4 & E5) Hl [Hc Ho Hcl Hs Hr].
  split; rewrite ?E1, ?E2, ?E3, ?E4, ?E5; try done. intros H. destruct (Ho H). auto.
Qed.

(** [finally { pump(); maybeFinishClose(); }] *)
Lemma pump_finish_inv p : pool_pre max p → pool_inv max (maybeFinishClose (pump max p)).
Proof.
  intros Hp. destruct (p_closed p) eqn:E.
  - pose proof (pump_inv _ Hp) as H. apply finish_inv; [apply H|]. unfold pump. rewrite E. unfold maybeFinishClose.
    rewrite E. repeat case_match; simpl; congruence.
  - apply finish_inv; [by apply pump_inv|]. intros _. unfold pump. rewrite E. by apply pump_loop_done.
Qed.

Lemma release_inv w b p : pool_inv max p → pool_inv max (release max w b p).
Proof.
  intros Hi. pose proof Hi as [Hp Hd Ha]. unfold release.
  destruct (find_first _ _) as [[w' e]|] eqn:E; [|done]. pose proof (pp_core _ _ Hp) as Hc.
  assert (He := lease_entry _ _ _ _ _ Hc E).
  assert (Hin : e ∈ map fst (c_entries (p_core p))).
  { eapply elem_of_sublist; [|apply busy_ids_sublist]. rewrite <- He. constructor. }
  rewrite bool_decide_true by done. simpl.
  assert (Hf : p_finalizing p = true → False).
  { intros Hf. destruct (pp_sweep _ _ Hp Hf) as [Es _]. rewrite Es in Hin. by apply not_elem_of_nil in Hin. }
  assert (Hcl := core_leased _ _ e (drop_first (λ q, q.1 =? w) (c_leases (p_core p))) (b || p_closed p) Hc He).
  destruct (b || p_closed p) eqn:Eb.
  - destruct Hp as [_ Ho Hw Hs Hr]. split.
    + by split; simpl; try done; intros Hf'%Hf.
    + simpl. intros H. right. split; [by destruct (p_discarding p)|].
      destruct (Hd H) as [[Hdw|[Hdb _]]|[_ [?|Hdb]]]; auto; right; unfold all_busy in *; simpl;
        (eapply Forall_sublist; [exact Hdb|apply sublist_filter]).
    + simpl. intros _. do 3 right. left. by destruct (p_discarding p).
  - apply orb_false_iff in Eb as [_ Eb]. apply pump_inv, with_core_pre; simpl; try congruence; done.
Qed.

Lemma acquire_inv a p : pool_inv max p → pool_inv max (acquire max a p).
Proof.
  intros [Hp Hd Ha]. pose proof Hp as [Hc Ho Hw Hs Hr]. unfold acquire.
  assert (Hrej : ∀ r, pool_inv max (ticket (with_core (log_waiter (p_nextWaiter p) (OReject r) (p_core p)) p))).
  { intros r. split; simpl; try done. split; simpl; try done. by apply core_ticket_reject. }
  destruct (p_closed p) eqn:E; [done|]. destruct a; [done|].
  apply pump_inv. split; simpl; try congruence; auto. by apply core_ticket_queue.
Qed.

Lemma onAbort_inv w p p' : onAbort max w p = Some p' → pool_inv max p → pool_inv max p'.
Proof.
  unfold onAbort. destruct (find_first _ _) as [[w' r]|]; [|done]. case_bool_decide as Hin; [|done].
  intros [= <-] [Hp _ _]. destruct (find_first (λ x, x =? w) (c_waiters (p_core p))) as [x|] eqn:E.
  - apply drop_first_split in E as (l1 & l2 & E & -> & ->%Nat.eqb_eq).
    apply pump_inv, with_core_pre; simpl; try done.
    + apply core_reject; [apply Hp|done].
    + intros Hcl. rewrite (pp_closed _ _ Hp Hcl) in Hin. by apply not_elem_of_nil in Hin.
    + apply Hp.
  - apply find_first_None in E. rewrite Forall_forall in E. specialize (E _ Hin). by rewrite Nat.eqb_refl in E.
Qed.

Lemma create_ok_inv e p p' : create_ok max e p = Some p' → pool_inv max p → pool_inv max p'.
Proof.
  unfold create_ok. case_bool_decide as Hin; [|done]. intros H [Hp Hd Ha]. pose proof (pp_core _ _ Hp) as Hc.
  assert (Hf : p_finalizing p = true → False).
  { intros Hf. destruct (pp_sweep _ _ Hp Hf) as [_ Es]. rewrite Es in Hin. by apply not_elem_of_nil in Hin. }
  destruct (p_closed p) eqn:E; injection H as <-.
  - destruct Hp as [_ Ho Hw Hs Hr]. split; simpl; try congruence.
    + split; simpl; try congruence; auto. by apply (core_created _ _ e false).
    + intros _. do 4 right. by destruct (p_late p).
  - apply pump_inv, with_core_pre; simpl; try congruence; try done. by apply (core_created _ _ e true).
Qed.

Lemma create_failed_inv e cause p p' : create_failed max e cause p = Some p' → pool_inv max p → pool_inv max p'.
Proof.
  unfold create_failed. case_bool_decide as Hin; [|done]. intros [= <-] [Hp _ _]. pose proof (pp_core _ _ Hp) as Hc.
  assert (Hf : p_finalizing p = true → False).
  { intros Hf. destruct (pp_sweep _ _ Hp Hf) as [_ Es]. rewrite Es in Hin. by apply not_elem_of_nil in Hin. }
  assert (H1 := core_created _ _ e false Hc Hin). simpl in H1.
  pose proof (pp_closed _ _ Hp) as Hw.
  apply pump_finish_inv. simpl. destruct (c_waiters (p_core p)) as [|w ws] eqn:Ew.
  - apply with_core_pre; [done..|intros Hfin; by destruct (Hf Hfin)].
  - apply with_core_pre; [done|by apply (core_reject _ _ _ w [] ws)|intros Hcl; by specialize (Hw Hcl)|intros Hfin; by destruct (Hf Hfin)].
Qed.

Lemma settled_inv p p' : same_queue p p' → (p_late p = [] → p_late p' = []) → pool_inv max p →
  pool_inv max (maybeFinishClose (pump max p')).
Proof. intros Hq Hl [Hp _ _]. apply pump_finish_inv. by eapply same_queue_pre. Qed.

Lemma close_inv p : pool_inv max p → pool_inv max (pool_close p).
Proof.
  intros Hi. unfold pool_close. destruct (p_closed p) eqn:E; [done|]. destruct Hi as [Hp Hd _].
  apply finish_inv; [|done]. destruct Hp as [Hc Ho Hw Hs Hr]. split; simpl; try congruence; auto.
  destruct Hc as [Hb Hn Hx Hl Hf Hg]. split; simpl; try done.
  - rewrite app_nil_r, granted_app.
    assert (Er : granted (map (λ w, (w, OReject (wasmClosedError None))) (c_waiters (p_core p))) = [])
      by (generalize (c_waiters (p_core p)) as l; induction l; simpl; auto).
    rewrite Er, app_nil_r. by apply StronglySorted_app in Hf as (_ & ? & _).
  - rewrite app_nil_r, map_app, map_map. simpl. by rewrite map_id.
Qed.

Lemma pool_step_inv p ev p' : pool_inv max p → pool_step max p ev = Some p' → pool_inv max p'.
Proof.
  intros Hi. destruct ev as [a|w r|w|w d|e ok|e|e cause|e ok| |failed]; simpl.
  - intros [= <-]. by apply acquire_inv.
  - case_bool_decide; [|done]. intros [= <-]. destruct Hi as [[] ? ?]. by split; [split|..].
  - intros H. by eapply onAbort_inv.
  - intros [= <-]. by apply release_inv.
  - unfold discard_settled. case_bool_decide; [|done]. intros [= <-]. by apply (settled_inv p).
  - intros H. by eapply create_ok_inv.
  - intros H. by eapply create_failed_inv.
  - unfold late_settled. case_bool_decide as Hin; [|done]. intros [= <-].
    destruct (p_closed p) eqn:E; [|destruct Hi as [[] ? ?]; destruct pp_open0 as [_ El]; [done|]; rewrite El in Hin; by apply not_elem_of_nil in Hin].
    apply finish_inv; simpl; [|congruence]. destruct Hi as [Hp _ _].
    eapply same_queue_pre; [..|exact Hp]; [done|]. simpl. intros El. rewrite El in Hin. by apply not_elem_of_nil in Hin.
  - intros [= <-]. by apply close_inv.
  - unfold final_settled. destruct (p_finalizing p) eqn:E; [|done]. case_bool_decide; [|done]. intros [= <-].
    destruct Hi as [[] Hd Ha]. rewrite E in *. split; [split|..]; simpl; auto.
Qed.

Lemma new_pool_inv : pool_inv max new_pool.
Proof.
  split; [split; simpl; try done|left; by left|done]. split; simpl; try constructor; try done. lia.
Qed.

Lemma pool_run_inv evs p : pool_run max new_pool evs p → pool_inv max p.
Proof.
  apply run_invariant; [|apply new_pool_inv]. intros s l s' Hs H. by eapply pool_step_inv.
Qed.
End invariant.

(** ** What the pool promises *)

(** C2. In every history the pool never holds and creates more than [max] instances, and
    leases are exclusive: no two unreleased leases hold the same instance, and the leased
    instances are exactly the busy ones. *)
Theorem pool_bounded_exclusive max evs p : pool_run max new_pool evs p →
  let c := p_core p in
  length (c_entries c) + length (c_creating c) ≤ max ∧ NoDup (map snd (c_leases c)) ∧
  ∀ e, e ∈ map snd (c_leases c) ↔ (e, true) ∈ c_entries c.
Proof.
  intros [[Hc _ _ _ _] _ _]%pool_run_inv c. subst c. destruct Hc as [Hb Hn _ Hl _ _]. split_and!; [done| |].
  - rewrite Hl. apply NoDup_app in Hn as [Hn _]. by eapply sublist_NoDup, busy_ids_sublist.
  - intros e. by rewrite Hl, elem_of_busy_ids.
Qed.

(** C8. Every call of [acquire] is queued or settled exactly once, and the leases are
    granted in the order of the calls: no waiter is overtaken by a later one. *)
Theorem pool_fifo max evs p : pool_run max new_pool evs p →
  let c := p_core p in
  map fst (c_log c) ++ c_waiters c ≡ₚ seq 0 (p_nextWaiter p) ∧
  StronglySorted lt (granted (c_log c) ++ c_waiters c).
Proof. intros [[[] _ _ _ _] _ _]%pool_run_inv c. subst c. done. Qed.

(** C7. No idle instance is kept from a waiter: while the pool is open and someone waits,
    every instance is busy, and unless a discarded instance is still closing, every waiter
    has a creation under way or the pool is full. *)
Theorem pool_work_conserving max evs p : pool_run max new_pool evs p → p_closed p = false →
  let c := p_core p in
  c_waiters c ≠ [] →
  Forall (λ q, q.2 = true) (c_entries c) ∧
  (p_discarding p = [] → length (c_waiters c) ≤ length (c_creating c) ∨
                         max ≤ length (c_entries c) + length (c_creating c)).
Proof.
  intros [_ Hd _]%pool_run_inv Ho c Hw. subst c. destruct (Hd Ho) as [[?|[Hb Hn]]|[Hd' [?|Hb]]]; [done| |done|].
  - done.
  - split; [done|by intros ?].
Qed.





(** A concrete history: three calls on a pool of two, one of them aborted while it waits. *)
Definition demo_events : list pool_event :=
  [EAcquire None; EAcquire None; EAcquire None; ECreated 1; ESignal 2 None; ECreated 2;
   EListener 2; ERelease 0 false; ERelease 1 true; EDiscarded 2 true; EAcquire None; EClose; ERelease 3 false].

Lemma pool_exec_run max evs : ∀ p, pool_exec max evs = Some p → pool_run max new_pool evs p.
Proof. apply exec_run. Qed.

Definition demo_pool (k : nat) : pool := default new_pool (pool_exec 2 (take k demo_events)).
Lemma demo_run k : (k <= 13)%nat → pool_run 2 new_pool (take k demo_events) (demo_pool k).
Proof.
  intros Hk. apply exec_run. unfold demo_pool. do 14 (destruct k as [|k]; [vm_compute; reflexivity|]). lia.
Qed.

Lemma pool_bounded_exclusive_witness : NoDup (map snd (c_leases (p_core (demo_pool 6)))).
Proof. apply (pool_bounded_exclusive 2 _ _ (demo_run 6 ltac:(lia))). Defined.

Lemma pool_fifo_witness : StronglySorted lt (granted (c_log (p_core (demo_pool 11))) ++ c_waiters (p_core (demo_pool 11))).
Proof. apply (pool_fifo 2 _ _ (demo_run 11 ltac:(lia))). Defined.

Lemma pool_work_conserving_witness : Forall (λ q, q.2 = true) (c_entries (p_core (demo_pool 5))).
Proof.
  apply (pool_work_conserving 2 _ _ (demo_run 5 ltac:(lia))); [reflexivity|]. vm_compute. discriminate.
Defined.


(** The promise of [close] can resolve while an instance that was being created is still
    closing; the failure of its [close] is then lost. *)
Lemma close_resolves_early : ∃ p p',
  pool_exec 2 [EAcquire None; EAcquire None; ESignal 0 None; EListener 0; ESignal 1 None; EListener 1;
               EClose; ECreated 1; ECreated 2; ELate 1 true; EFinal []] = Some p ∧
  p_result p = Some true ∧ p_late p = [2] ∧
  late_settled 2 false p = Some p' ∧ p_result p' = Some true ∧ p_failures p' = [2].
Proof. eexists _, _. split_and!; vm_compute; reflexivity. Qed.

(** While a discarded instance closes, a new one can be created: more than [max] instances
    are alive. *)
Lemma discard_exceeds_max : ∃ p,
  pool_exec 1 [EAcquire None; ECreated 1; ERelease 0 true; EAcquire None; ECreated 2] = Some p ∧
  p_discarding p = [1] ∧ c_entries (p_core p) = [(2, true)].
Proof. eexists. split_and!; vm_compute; reflexivity. Qed.
