(* ===== verification/Wasi.v ===== *)
(** * wasm/wasi.ts: the denied WASI host

    A class is the list of its methods with what a call returns or throws: none of them looks
    at its arguments.  A function of an import may look at the host: the clocks and the
    random source are the fields of [wasi_env].  [getRandomValues] is the [n]-th call of
    [crypto.getRandomValues] in a run of [randomBytes], which the platform refuses for more
    than 65536 bytes. *)

From S2P Require Export WasmContracts.
Local Open Scope nat_scope.

Inductive wasi_class :=
  | CInputStream | COutputStream | CPollable | CDescriptor | CDirectoryEntryStream
  | CIoError | CTerminalInput | CTerminalOutput.

Inductive wasi_value :=
  | WUndefined
  | WBool (b : bool)
  | WBigint (z : Z)
  | WBytes (l : list N)
  | WString (s : jstr)
  | WEmpty                                  (* an empty array *)
  | WIndices (l : list nat)
  | WObject (c : wasi_class)                (* a new instance *)
  | WTime (seconds : option Z) (nanoseconds : Z)
  | WExited (ok : bool).                    (* the injected onExit was called *)

Inductive wasi_throw :=
  | TClosed                                 (* { tag: "closed" } *)
  | TNotPermitted                           (* "not-permitted" *)
  | TRangeError (length : Z)
  | TQuotaExceeded                          (* thrown by getRandomValues *)
  | TWasm (e : WasmRuntimeError).

Notation wasi_result := (res wasi_throw wasi_value).

Definition CHUNK_BYTES : nat := 65536.

Definition closed : wasi_result := Err TClosed.
Definition notPermitted : wasi_result := Err TNotPermitted.

(** ** The resource classes *)

Definition methods := list (string * wasi_result).

Definition ClosedInputStream : methods :=
  [("read", Ok (WBytes [])); ("blockingRead", closed); ("skip", Ok (WBigint 0));
   ("blockingSkip", closed); ("subscribe", Ok (WObject CPollable))]%string.

Definition ClosedOutputStream : methods :=
  [("checkWrite", Ok (WBigint 0)); ("write", closed); ("blockingWriteAndFlush", closed);
   ("flush", closed); ("blockingFlush", closed); ("writeZeroes", closed);
   ("blockingWriteZeroesAndFlush", closed); ("splice", closed); ("blockingSplice", closed);
   ("subscribe", Ok (WObject CPollable))]%string.

Definition Pollable : methods := [("ready", Ok (WBool true)); ("block", Ok WUndefined)]%string.

Definition DeniedDescriptor : methods :=
  [("readViaStream", notPermitted); ("writeViaStream", notPermitted); ("appendViaStream", notPermitted);
   ("advise", notPermitted); ("syncData", notPermitted); ("getFlags", notPermitted);
   ("getType", notPermitted); ("setSize", notPermitted); ("setTimes", notPermitted);
   ("read", notPermitted); ("write", notPermitted); ("readDirectory", notPermitted);
   ("sync", notPermitted); ("createDirectoryAt", notPermitted); ("stat", notPermitted);
   ("statAt", notPermitted); ("setTimesAt", notPermitted); ("linkAt", notPermitted);
   ("openAt", notPermitted); ("readlinkAt", notPermitted); ("removeDirectoryAt", notPermitted);
   ("renameAt", notPermitted); ("symlinkAt", notPermitted); ("unlinkFileAt", notPermitted);
   ("isSameObject", Ok (WBool false)); ("metadataHash", notPermitted);
   ("metadataHashAt", notPermitted)]%string.

Definition EmptyDirectoryEntryStream : methods := [("readDirectoryEntry", Ok WUndefined)]%string.
Definition WasiIoError : methods := [("toDebugString", Ok (WString (js "denied")))]%string.
Definition TerminalInput : methods := [].
Definition TerminalOutput : methods := [].

Definition methods_of (c : wasi_class) : methods :=
  match c with
  | CInputStream => ClosedInputStream
  | COutputStream => ClosedOutputStream
  | CPollable => Pollable
  | CDescriptor => DeniedDescriptor
  | CDirectoryEntryStream => EmptyDirectoryEntryStream
  | CIoError => WasiIoError
  | CTerminalInput => TerminalInput
  | CTerminalOutput => TerminalOutput
  end.

(** ** The host *)

Record wasi_env := {
  performance_now : dbl;
  date_now : Z;
  getRandomValues : nat → nat → list N;
}.

Definition fill (env : wasi_env) (call length : nat) : res wasi_throw (list N) :=
  if CHUNK_BYTES <? length then Err TQuotaExceeded else Ok (getRandomValues env call length).

(** The [for] loop of [randomBytes] over the [room] bytes left; [fuel] bounds its turns. *)
Fixpoint random_chunks (env : wasi_env) (fuel call room : nat) : res wasi_throw (list N) :=
  match fuel with
  | 0 => Ok []
  | S fuel =>
      if room =? 0 then Ok []
      else
        let chunk := min CHUNK_BYTES room in
        let* bytes := fill env call chunk in
        let* rest := random_chunks env fuel (S call) (room - chunk) in
        Ok (bytes ++ rest)
  end.

(** [Number(length)] is exact up to 2^53 in magnitude and rounds to at least 2^53 beyond, so
    it is a safe integer exactly when [length] is within [2^53 - 1]. *)
Definition randomBytes (env : wasi_env) (length : Z) : res wasi_throw (list N) :=
  if negb (Z.abs length <=? 2 ^ 53 - 1)%Z || (length <? 0)%Z then Err (TRangeError length)
  else let n := Z.to_nat length in random_chunks env (S n) 0 n.

(** [getBigUint64(0, true)]. *)
Definition little_endian (l : list N) : N := foldr (λ b n, b + 256 * n)%N 0%N l.

Definition monotonic_now (env : wasi_env) : wasi_result :=
  match dbl_to_Z (num_floor (num_mul (performance_now env) (dbl_of_Z 1000000))) with
  | Some z => Ok (WBigint z)
  | None => Err (TRangeError 0)
  end.

Definition wall_now (env : wasi_env) : wasi_result :=
  let ms := date_now env in
  Ok (WTime (dbl_to_Z (num_floor (SFdiv dprec demax (dbl_of_Z ms) (dbl_of_Z 1000))))
            (Z.rem ms 1000 * 1000000)).

(** ** The import object *)

Inductive wasi_arg := ABigint (z : Z) | AStatus (ok : bool) | APollables (n : nat) | AOther.

Inductive wasi_member :=
  | MFun (f : wasi_env → wasi_arg → wasi_result)
  | MClass (c : wasi_class).

Definition const_fun (r : wasi_result) : wasi_member := MFun (λ _ _, r).

Definition exit_call (onExit : bool) (a : wasi_arg) : wasi_result :=
  if onExit then Ok (WExited (match a with AStatus b => b | _ => false end))
  else Err (TWasm (wasmCapabilityDeniedError (js "wasi:cli/exit"))).

(** [onExit] is whether the caller supplied the hook. *)
Definition createDeniedWasiImports (onExit : bool) : list (string * list (string * wasi_member)) :=
  [("wasi:cli/environment", [("getArguments", const_fun (Ok WEmpty)); ("getEnvironment", const_fun (Ok WEmpty));
                             ("initialCwd", const_fun (Ok WUndefined))]);
   ("wasi:cli/exit", [("exit", MFun (λ _ a, exit_call onExit a))]);
   ("wasi:cli/stderr", [("getStderr", const_fun (Ok (WObject COutputStream)))]);
   ("wasi:cli/stdin", [("getStdin", const_fun (Ok (WObject CInputStream)))]);
   ("wasi:cli/stdout", [("getStdout", const_fun (Ok (WObject COutputStream)))]);
   ("wasi:cli/terminal-input", [("TerminalInput", MClass CTerminalInput)]);
   ("wasi:cli/terminal-output", [("TerminalOutput", MClass CTerminalOutput)]);
   ("wasi:cli/terminal-stderr", [("getTerminalStderr", const_fun (Ok WUndefined))]);
   ("wasi:cli/terminal-stdin", [("getTerminalStdin", const_fun (Ok WUndefined))]);
   ("wasi:cli/terminal-stdout", [("getTerminalStdout", const_fun (Ok WUndefined))]);
   ("wasi:clocks/monotonic-clock",
    [("now", MFun (λ env _, monotonic_now env)); ("resolution", const_fun (Ok (WBigint 1000)));
     ("subscribeDuration", const_fun (Ok (WObject CPollable)));
     ("subscribeInstant", const_fun (Ok (WObject CPollable)))]);
   ("wasi:clocks/wall-clock",
    [("now", MFun (λ env _, wall_now env)); ("resolution", const_fun (Ok (WTime (Some 0%Z) 1000000)))]);
   ("wasi:filesystem/preopens", [("getDirectories", const_fun (Ok WEmpty))]);
   ("wasi:filesystem/types", [("Descriptor", MClass CDescriptor);
                              ("DirectoryEntryStream", MClass CDirectoryEntryStream);
                              ("filesystemErrorCode", const_fun (Ok WUndefined))]);
   ("wasi:io/error", [("Error", MClass CIoError)]);
   ("wasi:io/poll", [("Pollable", MClass CPollable);
                     ("poll", MFun (λ _ a, Ok (WIndices (match a with APollables n => seq 0 n | _ => [] end))))]);
   ("wasi:io/streams", [("InputStream", MClass CInputStream); ("OutputStream", MClass COutputStream)]);
   ("wasi:random/random",
    [("getRandomBytes", MFun (λ env a,
        let* l := randomBytes env (match a with ABigint z => z | _ => 0%Z end) in Ok (WBytes l)));
     ("getRandomU64", MFun (λ env _, let* l := randomBytes env 8 in Ok (WBigint (Z.of_N (little_endian l)))))])]%string.

Definition GOFORGE_WASI_INTERFACES : list string :=
  ["wasi:cli/environment"; "wasi:cli/exit"; "wasi:cli/stderr"; "wasi:cli/stdin"; "wasi:cli/stdout";
   "wasi:cli/terminal-input"; "wasi:cli/terminal-output"; "wasi:cli/terminal-stderr";
   "wasi:cli/terminal-stdin"; "wasi:cli/terminal-stdout"; "wasi:clocks/monotonic-clock";
   "wasi:clocks/wall-clock"; "wasi:filesystem/preopens"; "wasi:filesystem/types"; "wasi:io/error";
   "wasi:io/poll"; "wasi:io/streams"; "wasi:random/random"]%string.

(** ** Least authority *)

(** A result that carries no bytes, text or object of the host. *)
Definition inert (r : wasi_result) : bool :=
  match r with
  | Ok (WBytes l) => match l with [] => true | _ => false end
  | Ok (WString _) | Ok (WTime _ _) | Ok (WExited _) => false
  | Ok _ => true
  | Err _ => true
  end.

Definition granted_interfaces : list string :=
  ["wasi:clocks/monotonic-clock"; "wasi:clocks/wall-clock"; "wasi:random/random"]%string.

(** Non-interference: outside the clocks and the random source no function of the
    import object depends on the host, and it returns only empty data or a denied resource;
    every filesystem method refuses, standard output accepts nothing and standard input
    yields nothing; the interfaces are exactly the advertised list, in its order. *)
Theorem wasi_least_authority :
  map fst (createDeniedWasiImports false) = GOFORGE_WASI_INTERFACES ∧
  (∀ interface members name f, (interface, members) ∈ createDeniedWasiImports false →
     interface ∉ granted_interfaces → (name, MFun f) ∈ members →
     ∀ env env' a, f env a = f env' a ∧ inert (f env a) = true) ∧
  (∀ name r, (name, r) ∈ DeniedDescriptor → r = notPermitted ∨ r = Ok (WBool false)) ∧
  (∀ name r, (name, r) ∈ ClosedOutputStream → r = closed ∨ r = Ok (WBigint 0) ∨ r = Ok (WObject CPollable)) ∧
  (∀ name r, (name, r) ∈ ClosedInputStream →
     r = closed ∨ r = Ok (WBytes []) ∨ r = Ok (WBigint 0) ∨ r = Ok (WObject CPollable)).
Proof.
  split; [reflexivity|]. split; [|split; [|split]].
  - intros i members name f Hi Hng Hf env env' a.
    assert (HF : Forall (λ p, p.1 ∈ granted_interfaces ∨
      Forall (λ q, ∀ f, q.2 = MFun f → ∀ env env' a, f env a = f env' a ∧ inert (f env a) = true) p.2)
      (createDeniedWasiImports false)).
    { unfold createDeniedWasiImports.
      repeat (apply Forall_cons_2; [first
        [ left; apply (bool_decide_unpack _); vm_compute; exact I
        | right; simpl; repeat (apply Forall_cons_2; [intros g [= <-] ? ? []; by split|]); apply Forall_nil_2
        | right; simpl; repeat (apply Forall_cons_2; [intros g; try discriminate; intros [= <-] ? ? []; by split|]); apply Forall_nil_2 ]|]).
      apply Forall_nil_2. }
    rewrite Forall_forall in HF. destruct (HF _ Hi) as [?|HF']; [done|].
    rewrite Forall_forall in HF'. by apply (HF' _ Hf).
  - intros name r H. unfold DeniedDescriptor in H. repeat (apply elem_of_cons in H as [[= -> ->]|H]; [by auto|]).
    by apply not_elem_of_nil in H.
  - intros name r H. unfold ClosedOutputStream in H. repeat (apply elem_of_cons in H as [[= -> ->]|H]; [by auto|]).
    by apply not_elem_of_nil in H.
  - intros name r H. unfold ClosedInputStream in H. repeat (apply elem_of_cons in H as [[= -> ->]|H]; [by auto|]).
    by apply not_elem_of_nil in H.
Qed.

(** ** Random bytes *)

Section random.
Context (env : wasi_env).
(** [crypto.getRandomValues] fills the view it is given with bytes. *)
Context (Hfill : ∀ call n, length (getRandomValues env call n) = n ∧ Forall (λ b, b < 256)%N (getRandomValues env call n)).

Lemma random_chunks_ok fuel : ∀ call room, room < fuel → ∃ l,
  random_chunks env fuel call room = Ok l ∧ length l = room ∧ Forall (λ b, b < 256)%N l.
Proof.
  induction fuel as [|fuel IH]; intros call room Hr; [lia|]. cbn [random_chunks].
  destruct (Nat.eqb_spec room 0) as [->|]; [by exists []|].
  set (chunk := min CHUNK_BYTES room).
  assert (Hc : 0 < chunk ∧ chunk ≤ room ∧ chunk ≤ CHUNK_BYTES).
  { assert (0 < CHUNK_BYTES) by (apply Nat.ltb_lt; vm_compute; reflexivity). lia. }
  unfold fill. rewrite (proj2 (Nat.ltb_ge _ _)) by lia. simpl.
  destruct (IH (S call) (room - chunk)) as (l & -> & Hl & HF); [lia|]. simpl. eexists. split; [done|].
  destruct (Hfill call chunk) as [H1 H2]. rewrite length_app, Forall_app. split; [lia|done].
Qed.
End random.

Lemma little_endian_bound l : Forall (λ b, b < 256)%N l → (little_endian l < 256 ^ N.of_nat (length l))%N.
Proof.
  induction 1 as [|b l Hb _ IH]; [vm_compute; reflexivity|]. cbn [little_endian foldr length]. fold (little_endian l).
  rewrite Nat2N.inj_succ, N.pow_succ_r'. lia.
Qed.

(** [randomBytes(n)] returns exactly [n] bytes for every safe non-negative [n] and
    never asks the platform for more than it grants in one call; every other length is a
    RangeError; [getRandomU64] is an unsigned 64-bit integer. *)
Theorem randomBytes_exact env :
  (∀ call n, length (getRandomValues env call n) = n ∧ Forall (λ b, b < 256)%N (getRandomValues env call n)) →
  (∀ n, (0 ≤ n < 2 ^ 53)%Z → ∃ l, randomBytes env n = Ok l ∧ length l = Z.to_nat n ∧ Forall (λ b, b < 256)%N l) ∧
  (∀ n, (n < 0 ∨ 2 ^ 53 ≤ n)%Z → randomBytes env n = Err (TRangeError n)) ∧
  ∀ l, randomBytes env 8 = Ok l → (little_endian l < 2 ^ 64)%N.
Proof.
  intros Hfill.
  assert (Hok : ∀ n, (0 ≤ n < 2 ^ 53)%Z →
    ∃ l, randomBytes env n = Ok l ∧ length l = Z.to_nat n ∧ Forall (λ b, b < 256)%N l).
  { intros n Hn. unfold randomBytes. rewrite (proj2 (Z.leb_le _ _)) by lia. rewrite (proj2 (Z.ltb_ge _ _)) by lia.
    apply (random_chunks_ok env Hfill). lia. }
  split; [done|]. split.
  - intros n Hn. unfold randomBytes. destruct (Z.ltb_spec n 0); [by rewrite orb_true_r|].
    rewrite (proj2 (Z.leb_gt _ _)) by lia. done.
  - intros l Hl. destruct (Hok 8%Z ltac:(lia)) as (l' & Hl' & Hlen & HF). rewrite Hl' in Hl. injection Hl as <-.
    apply little_endian_bound in HF. by rewrite Hlen in HF.
Qed.

Definition demo_env : wasi_env :=
  {| performance_now := dbl_of_Z 0; date_now := 0; getRandomValues := λ call n, repeat (N.of_nat (call mod 7)) n |}.

Lemma demo_env_fills call n :
  length (getRandomValues demo_env call n) = n ∧ Forall (λ b, b < 256)%N (getRandomValues demo_env call n).
Proof.
  simpl. split; [apply repeat_length|]. apply Forall_forall. intros b Hb%list_elem_of_In%repeat_spec. subst b.
  pose proof (Nat.mod_upper_bound call 7). lia.
Qed.

Lemma randomBytes_exact_witness : ∃ l, randomBytes demo_env 8 = Ok l.
Proof.
  destruct (randomBytes_exact demo_env demo_env_fills) as [H _].
  destruct (H 8%Z ltac:(lia)) as (l & Hl & _). exists l. exact Hl.
Defined.
