(* ===== verification/Component.v ===== *)
(** * wasm/component.ts: the factory of generated component instances

    A bundle is an object, the key of the two weak caches: it is a number, and [bundles] gives
    its fields.  The generated code is outside [src/]: [importModule] is the dynamic import of
    a glue text, [compile] is [WebAssembly.compile], and [instantiate] is what the glue does
    with the functions it is given, a program that asks for core modules.  [fs_imports] and
    [fs_compiled] log every text imported and every byte string compiled; a compilation is
    named by its position in the log. *)

From S2P Require Export Manifest Wasi.
Local Open Scope nat_scope.

(** What a module that was imported exports. *)
Inductive imported := ImportFails | NoInstantiate | HasInstantiate.

(** The exports of an instantiated component: whether [manifest] and [dispatch] are functions. *)
Record GeneratedOperations := { go_manifest : bool; go_dispatch : bool }.
Record GeneratedRoot := { gr_operations : option GeneratedOperations; gr_versioned : option GeneratedOperations }.

Inductive glue_program :=
  | GAsk (name : jstr) (k : res exn nat → glue_program)
  | GRoot (root : GeneratedRoot)
  | GThrow (e : exn).

Record factory_state := {
  fs_glue : list (nat * res exn unit);
  fs_imports : list (nat * list N);
  fs_maps : list (list (jstr * nat));
  fs_cache : list (nat * nat);
  fs_compiled : list (nat * jstr * list N);
}.
Definition new_factory : factory_state :=
  {| fs_glue := []; fs_imports := []; fs_maps := []; fs_cache := []; fs_compiled := [] |}.

Definition invocation_err {A} (m : jstr) : res exn A := Err (XWasm (wasmInvocationError m None)).

Definition get_key {V} (k : nat) (l : list (nat * V)) : option V := snd <$> find_first (λ p, p.1 =? k) l.

Section factory.
Context (bundles : nat → VerifiedWasmBundle).
Context (importModule : list N → imported).
Context (instantiate : list N → glue_program).
Context (compile : list N → bool).
Context (cacheCompiledModules : bool).

Definition importGlue (glueBytes : list N) : res exn unit :=
  match importModule glueBytes with
  | HasInstantiate => Ok tt
  | NoInstantiate => compat_err (js "the verified glue does not export a jco async instantiate function")
  | ImportFails => invocation_err (js "the verified component glue could not be imported")
  end.

(** [create] up to its first await: the cached promise of the glue. *)
Definition glue_for (b : nat) (s : factory_state) : factory_state * res exn unit :=
  match get_key b (fs_glue s) with
  | Some r => (s, r)
  | None =>
      let bytes := vb_glueBytes (bundles b) in
      let r := importGlue bytes in
      ({| fs_glue := fs_glue s ++ [(b, r)]; fs_imports := fs_imports s ++ [(b, bytes)];
          fs_maps := fs_maps s; fs_cache := fs_cache s; fs_compiled := fs_compiled s |}, r)
  end.

(** The map of compiled modules of this call. *)
Definition modules_for (b : nat) (s : factory_state) : factory_state * nat :=
  match get_key b (fs_cache s) with
  | Some h => (s, h)
  | None =>
      let h := length (fs_maps s) in
      ({| fs_glue := fs_glue s; fs_imports := fs_imports s; fs_maps := fs_maps s ++ [[]];
          fs_cache := if cacheCompiledModules then fs_cache s ++ [(b, h)] else fs_cache s;
          fs_compiled := fs_compiled s |}, h)
  end.

Definition getCoreModule (b h : nat) (name : jstr) (s : factory_state) : factory_state * res exn nat :=
  let compiled := default [] (fs_maps s !! h) in
  match own_get name compiled with
  | Some n => (s, Ok n)
  | None =>
      match own_get name (vb_coreModuleBytes (bundles b)) with
      | None => (s, compat_err (js "the generated glue requested unmanifested core module " ++ json_quote name))
      | Some bytes =>
          let n := length (fs_compiled s) in
          ({| fs_glue := fs_glue s; fs_imports := fs_imports s;
              fs_maps := <[h := compiled ++ [(name, n)]]> (fs_maps s); fs_cache := fs_cache s;
              fs_compiled := fs_compiled s ++ [(b, name, bytes)] |}, Ok n)
      end
  end.

(** What awaiting the promise of [getCoreModule] gives the glue. *)
Definition settled_module (s : factory_state) (r : res exn nat) : res exn nat :=
  let* n := r in
  match fs_compiled s !! n with
  | Some (_, _, bytes) => if compile bytes then Ok n else Err XTypeError
  | None => Err XFuel
  end.

Fixpoint run_glue (b h : nat) (p : glue_program) (s : factory_state) : factory_state * res exn GeneratedRoot :=
  match p with
  | GAsk name k => let '(s1, r) := getCoreModule b h name s in run_glue b h (k (settled_module s1 r)) s1
  | GRoot root => (s, Ok root)
  | GThrow e => (s, Err e)
  end.

(** The [catch] around [instantiate]. *)
Definition instantiate_error (e : exn) : exn :=
  match e with
  | XWasm w => if bool_decide (e_name w = WasmCompatibilityErrorN) then e
               else XWasm (wasmInvocationError (js "generated component instantiation failed") None)
  | _ => XWasm (wasmInvocationError (js "generated component instantiation failed") None)
  end.

Definition operations_of (root : GeneratedRoot) : res exn GeneratedOperations :=
  match (match gr_operations root with Some o => Some o | None => gr_versioned root end) with
  | Some o => if go_manifest o && go_dispatch o then Ok o
              else compat_err (js "the generated component does not export pointerbyte:goforge/operations@0.1.0")
  | None => compat_err (js "the generated component does not export pointerbyte:goforge/operations@0.1.0")
  end.

Definition create (b : nat) (s : factory_state) : factory_state * res exn GeneratedOperations :=
  let '(s1, glue) := glue_for b s in
  match glue with
  | Err e => (s1, Err e)
  | Ok _ =>
      let '(s2, h) := modules_for b s1 in
      let '(s3, root) := run_glue b h (instantiate (vb_glueBytes (bundles b))) s2 in
      (s3, match root with
           | Ok root => operations_of root
           | Err e => Err (instantiate_error e)
           end)
  end.

(** ** Interleaved calls of [create]

    Between two awaits a call takes one of three steps on the shared caches. *)

Inductive factory_event :=
  | FGlue (b : nat)
  | FModules (b : nat)
  | FAsk (b h : nat) (name : jstr).

(** [h] is a map that [modules_for b] can have returned. *)
Definition owns (s : factory_state) (b h : nat) : bool :=
  (h <? length (fs_maps s)) &&
  (if cacheCompiledModules then bool_decide (get_key b (fs_cache s) = Some h) else true).

Definition factory_step (s : factory_state) (ev : factory_event) (s' : factory_state) : Prop :=
  match ev with
  | FGlue b => s' = (glue_for b s).1
  | FModules b => s' = (modules_for b s).1
  | FAsk b h name => owns s b h = true ∧ s' = (getCoreModule b h name s).1
  end.

Definition factory_run := run factory_step new_factory.

Record factory_inv (s : factory_state) : Prop := {
  fi_imports : Forall (λ p, p.2 = vb_glueBytes (bundles p.1)) (fs_imports s);
  fi_once : map fst (fs_imports s) = map fst (fs_glue s) ∧ NoDup (map fst (fs_glue s));
  fi_compiled : Forall (λ p, own_get p.1.2 (vb_coreModuleBytes (bundles p.1.1)) = Some p.2) (fs_compiled s);
  fi_handles : Forall (λ p, p.2 < length (fs_maps s)) (fs_cache s) ∧ NoDup (map snd (fs_cache s));
  fi_cached : cacheCompiledModules = true → NoDup (map fst (fs_compiled s)) ∧
    ∀ b name bytes, (b, name, bytes) ∈ fs_compiled s → ∃ h m, get_key b (fs_cache s) = Some h ∧
      fs_maps s !! h = Some m ∧ name ∈ keys m;
}.

Lemma get_key_None {V} k (l : list (nat * V)) : get_key k l = None → k ∉ map fst l.
Proof.
  unfold get_key. destruct (find_first _ l) eqn:E; [done|]. intros _ (p & -> & Hp)%list_elem_of_fmap.
  apply find_first_None in E. rewrite Forall_forall in E. specialize (E _ Hp). simpl in E. by rewrite Nat.eqb_refl in E.
Qed.

Lemma get_key_app {V} k (l : list (nat * V)) k' v :
  get_key k (l ++ [(k', v)]) = match get_key k l with Some x => Some x | None => if k' =? k then Some v else None end.
Proof.
  unfold get_key. induction l as [|[a x] l IH]; simpl; [by destruct (k' =? k)|]. by destruct (a =? k).
Qed.

Lemma glue_for_inv b s : factory_inv s → factory_inv (glue_for b s).1.
Proof.
  intros [Hi [Ho Hn] Hc Hh Hm]. unfold glue_for. destruct (get_key b (fs_glue s)) eqn:E; [by split|].
  split; simpl; try done.
  - apply Forall_app. split; [done|]. by constructor.
  - rewrite !map_app, Ho. split; [done|]. apply NoDup_app. split_and!; [done| |apply NoDup_singleton].
    intros k Hk ->%list_elem_of_singleton. by apply get_key_None in E.
Qed.

Lemma modules_for_inv b s : factory_inv s → factory_inv (modules_for b s).1.
Proof.
  intros [Hi Ho Hc [Hh Hn] Hm]. unfold modules_for. destruct (get_key b (fs_cache s)) eqn:E; [by split|].
  assert (Hh' : Forall (λ p, p.2 < length (fs_maps s ++ [[]])) (fs_cache s)).
  { eapply Forall_impl; [exact Hh|]. intros p. simpl. rewrite length_app. simpl. lia. }
  split; simpl; try done.
  - destruct cacheCompiledModules; [|done]. split.
    + apply Forall_app. split; [done|]. constructor; [|constructor]. simpl. rewrite length_app. simpl. lia.
    + rewrite map_app. apply NoDup_app. split_and!; [done| |apply NoDup_singleton]. simpl.
      intros h (p & -> & Hp)%list_elem_of_fmap Hx%list_elem_of_singleton.
      rewrite Forall_forall in Hh. specialize (Hh _ Hp). lia.
  - intros Hcache. destruct (Hm Hcache) as [Hnd Hall]. rewrite Hcache. split; [done|].
    intros b' name bytes Hin. destruct (Hall _ _ _ Hin) as (h & m & H1 & H2 & H3). exists h, m.
    split_and!; [|by apply lookup_app_l_Some|done]. by rewrite get_key_app, H1.
Qed.

Lemma getCoreModule_inv b h name s : owns s b h = true → factory_inv s → factory_inv (getCoreModule b h name s).1.
Proof.
  clear importModule instantiate compile. intros Hown [Hi Ho Hc [Hh Hn] Hm]. unfold getCoreModule.
  destruct (own_get name (default [] (fs_maps s !! h))) eqn:E1; [by split|].
  destruct (own_get name (vb_coreModuleBytes (bundles b))) as [bytes|] eqn:E2; [|by split].
  apply andb_true_iff in Hown as [Hlt%Nat.ltb_lt Hown].
  destruct (lookup_lt_is_Some_2 _ _ Hlt) as [m Hmap]. rewrite Hmap in *. simpl in *.
  split; simpl; try done.
  - apply Forall_app. split; [done|]. by constructor.
  - by rewrite length_insert.
  - intros Hcache. rewrite Hcache in Hown. apply bool_decide_eq_true in Hown. destruct (Hm Hcache) as [Hnd Hall]. split.
    + rewrite map_app. apply NoDup_app. split_and!; [done| |apply NoDup_singleton].
      intros q (p & -> & Hp)%list_elem_of_fmap Hx%list_elem_of_singleton. destruct p as [[b' name'] bytes']. simpl in Hx.
      injection Hx as -> ->. destruct (Hall _ _ _ Hp) as (h' & m' & H1 & H2 & H3).
      rewrite Hown in H1. injection H1 as <-. rewrite Hmap in H2. injection H2 as <-.
      by apply own_get_None in E1.
    + intros b' name' bytes' [Hin|[= -> -> ->]%list_elem_of_singleton]%elem_of_app.
      * destruct (Hall _ _ _ Hin) as (h' & m' & H1 & H2 & H3). destruct (decide (h' = h)) as [->|].
        -- rewrite Hmap in H2. injection H2 as <-. eexists h, _. split_and!; [done|by apply list_lookup_insert_eq|].
           unfold keys. rewrite map_app. set_solver.
        -- exists h', m'. split_and!; [done|by rewrite list_lookup_insert_ne|done].
      * eexists h, _. split_and!; [done|by apply list_lookup_insert_eq|]. unfold keys. rewrite map_app. set_solver.
Qed.

Lemma factory_run_inv evs s : factory_run evs s → factory_inv s.
Proof.
  clear instantiate compile.
  apply run_invariant.
  - intros s1 [b|b|b h name] s2 Hs; simpl; [intros ->; by apply glue_for_inv|intros ->; by apply modules_for_inv|].
    intros [Hown ->]. by apply getCoreModule_inv.
  - split; simpl; try apply Forall_nil_2; repeat split; try apply Forall_nil_2; try apply NoDup_nil_2; set_solver.
Qed.

(** A whole call of [create] is such a run. *)
Lemma modules_for_owns b s : factory_inv s → owns (modules_for b s).1 b (modules_for b s).2 = true.
Proof.
  intros [_ _ _ [Hh _] _]. unfold modules_for, owns. destruct (get_key b (fs_cache s)) as [h|] eqn:E; simpl.
  - rewrite bool_decide_true by done. unfold get_key in E. destruct (find_first _ _) as [[b' h']|] eqn:Ef; [|done].
    injection E as ->. apply find_first_Some in Ef as [Hin _]. rewrite Forall_forall in Hh. specialize (Hh _ Hin).
    simpl in Hh. rewrite (proj2 (Nat.ltb_lt _ _) Hh). by destruct cacheCompiledModules.
  - rewrite length_app. simpl. rewrite (proj2 (Nat.ltb_lt _ _)) by lia. destruct cacheCompiledModules; [|done].
    simpl. rewrite get_key_app, E, Nat.eqb_refl. by rewrite bool_decide_true.
Qed.

Lemma getCoreModule_owns b h name s : owns s b h = true → owns (getCoreModule b h name s).1 b h = true.
Proof.
  unfold getCoreModule. repeat case_match; try done. unfold owns. simpl. by rewrite length_insert.
Qed.

Lemma run_glue_inv b h p : ∀ s, owns s b h = true → factory_inv s → factory_inv (run_glue b h p s).1.
Proof.
  induction p as [name k IH|root|e]; intros s Hown Hs; simpl; [|done..].
  destruct (getCoreModule b h name s) as [s1 r] eqn:E. apply IH.
  - replace s1 with (getCoreModule b h name s).1 by by rewrite E. by apply getCoreModule_owns.
  - replace s1 with (getCoreModule b h name s).1 by by rewrite E. by apply getCoreModule_inv.
Qed.

Lemma create_inv b s : factory_inv s → factory_inv (create b s).1.
Proof.
  intros Hs. unfold create. pose proof (glue_for_inv b s Hs) as H1. destruct (glue_for b s) as [s1 [u|e]]; [|done].
  simpl in H1. pose proof (modules_for_inv b s1 H1) as H2. pose proof (modules_for_owns b s1 H1) as H3.
  destruct (modules_for b s1) as [s2 h]. simpl in *. pose proof (run_glue_inv b h (instantiate (vb_glueBytes (bundles b))) s2 H3 H2) as H4.
  by destruct (run_glue _ _ _ _).
Qed.

Definition component_errors : list WasmErrorName := [WasmCompatibilityErrorN; WasmInvocationErrorN].

(** The cached results of the glue import fail only with those errors. *)
Definition glue_errors (s : factory_state) : Prop := Forall (λ p, throws_only component_errors p.2) (fs_glue s).

Lemma importGlue_throws bytes : throws_only component_errors (importGlue bytes).
Proof.
  unfold importGlue. destruct (importModule bytes); [| |apply throws_Ok]; apply throws_Err; simpl; set_solver.
Qed.

Lemma glue_for_throws b s : glue_errors s →
  glue_errors (glue_for b s).1 ∧ throws_only component_errors (glue_for b s).2.
Proof.
  intros Hs. unfold glue_for. destruct (get_key b (fs_glue s)) as [r|] eqn:E; simpl.
  - split; [done|]. unfold get_key in E. destruct (find_first _ _) as [p|] eqn:Ef; [|done]. injection E as <-.
    apply find_first_Some in Ef as [Hin _]. unfold glue_errors in Hs. rewrite Forall_forall in Hs. by apply Hs.
  - split; [|apply importGlue_throws]. apply Forall_app. split; [done|]. constructor; [apply importGlue_throws|done].
Qed.

Lemma create_throws b s : glue_errors s → throws_only component_errors (create b s).2.
Proof.
  intros Hs. unfold create. destruct (glue_for_throws b s Hs) as [H1 H2].
  destruct (glue_for b s) as [s1 [u|e]]; simpl in *.
  - destruct (modules_for b s1) as [s2 h]. destruct (run_glue _ _ _ _) as [s3 [root|e]]; simpl.
    + unfold operations_of. repeat case_match; try apply throws_Ok; apply throws_Err; simpl; set_solver.
    + intros e' [= <-]. unfold instantiate_error. repeat case_match; bool_inv; eexists; (split; [done|]);
        simpl; try (match goal with H : e_name _ = _ |- _ => rewrite H end); set_solver.
  - intros e' [= <-]. by destruct (H2 e eq_refl) as (w & -> & Hw); exists w.
Qed.
End factory.

(** ** The instance the factory returns *)

Record generated_instance := { gi_operations : GeneratedOperations; gi_closed : bool }.

Definition assertOpen (closed : bool) : res exn unit :=
  if closed then invocation_err (js "the generated component instance is closed") else Ok tt.

Record GeneratedExecutionState := {
  gs_clockChecked : bool;
  gs_nowUnixMilliseconds : Z;
  gs_cancellationChecked : bool;
  gs_cancellationToken : jstr;
  gs_cancellationRequested : bool;
}.

(** [BigInt(Math.trunc(d))]: a RangeError, [None], for NaN and the infinities. *)
Definition trunc_bigint (d : dbl) : option Z :=
  match d with
  | S754_zero _ => Some 0%Z
  | S754_finite s m e =>
      let a := if (0 <=? e)%Z then (Zpos m * 2 ^ e)%Z else (Zpos m / 2 ^ (- e))%Z in
      Some (if s then (- a)%Z else a)
  | _ => None
  end.

Definition toGeneratedState (state : AbiExecutionStateV1) : option GeneratedExecutionState :=
  now ← trunc_bigint (es_nowUnixMilliseconds state);
  Some {| gs_clockChecked := es_clockChecked state; gs_nowUnixMilliseconds := now;
          gs_cancellationChecked := es_cancellationChecked state;
          gs_cancellationToken := es_cancellationToken state;
          gs_cancellationRequested := es_cancellationRequested state |}.

Definition instance_close (i : generated_instance) : generated_instance :=
  {| gi_operations := gi_operations i; gi_closed := true |}.

(** [manifest()] and [dispatch(json, state)] of the instance; [run] is the generated export. *)
Definition instance_manifest (i : generated_instance) (run : res exn jstr) : res exn jstr :=
  let* _ := assertOpen (gi_closed i) in run.

Definition instance_dispatch (i : generated_instance) (requestJson : jstr) (state : AbiExecutionStateV1)
    (run : jstr → GeneratedExecutionState → res exn jstr) : res exn jstr :=
  let* _ := assertOpen (gi_closed i) in
  match toGeneratedState state with
  | Some st => run requestJson st
  | None => Err XTypeError
  end.

(** ** What the factory promises *)

(** Only verified bytes run: however calls of [create] interleave and whatever core
    modules the glue asks for, every text imported is the verified glue of its bundle, every
    byte string compiled is the verified module of that name, the glue of a bundle is
    imported once and, with the cache, each of its modules is compiled at most once. *)
Theorem component_runs_verified_bytes bundles importModule cache evs s :
  factory_run bundles importModule cache evs s →
  (∀ b bytes, (b, bytes) ∈ fs_imports s → bytes = vb_glueBytes (bundles b)) ∧
  (∀ b name bytes, (b, name, bytes) ∈ fs_compiled s →
     own_get name (vb_coreModuleBytes (bundles b)) = Some bytes) ∧
  NoDup (map fst (fs_imports s)) ∧ (cache = true → NoDup (map fst (fs_compiled s))).
Proof.
  intros [Hi [Ho Hn] Hc _ Hm]%factory_run_inv. rewrite Forall_forall in Hi. rewrite Forall_forall in Hc. split_and!.
  - intros b bytes H. by apply (Hi _ H).
  - intros b name bytes H. by apply (Hc _ H).
  - by rewrite Ho.
  - intros H. by apply Hm.
Qed.

Definition demo_bundle : VerifiedWasmBundle :=
  {| vb_manifest := {| m_schema := []; m_abi := []; m_componentVersion := []; m_witPackage := [];
       m_source := {| d_path := []; d_sha256 := [] |}; m_glue := {| d_path := []; d_sha256 := [] |};
       m_coreModules := []; m_capabilities := []; m_operations := [] |};
     vb_manifestBytes := []; vb_sourceBytes := []; vb_glueBytes := [1%N];
     vb_coreModuleBytes := [(js "core.wasm", [2%N])] |}.
Definition demo_factory_step := factory_step (λ _, demo_bundle) (λ _, HasInstantiate) true.
Definition demo_factory : factory_state :=
  (getCoreModule (λ _, demo_bundle) 3 0 (js "core.wasm")
    (modules_for true 3 (glue_for (λ _, demo_bundle) (λ _, HasInstantiate) 3 new_factory).1).1).1.

Lemma demo_factory_run :
  factory_run (λ _, demo_bundle) (λ _, HasInstantiate) true [FGlue 3; FModules 3; FAsk 3 0 (js "core.wasm")] demo_factory.
Proof.
  eapply (run_snoc _ _ [FGlue 3; FModules 3] _ (FAsk 3 0 (js "core.wasm"))).
  - eapply (run_snoc _ _ [FGlue 3] _ (FModules 3)).
    + eapply (run_snoc _ _ [] _ (FGlue 3)); [constructor|reflexivity].
    + reflexivity.
  - split; reflexivity.
Qed.

Lemma component_runs_verified_bytes_witness :
  fs_compiled demo_factory = [(3, js "core.wasm", [2%N])] ∧ NoDup (map fst (fs_compiled demo_factory)).
Proof.
  split; [vm_compute; reflexivity|].
  apply (component_runs_verified_bytes _ _ _ _ _ demo_factory_run). reflexivity.
Defined.

(** [create] returns only a component whose two operations are functions, and fails
    only with a compatibility or invocation error; a call that asks for a module the bundle
    does not list is refused and compiles nothing; a closed instance refuses both
    operations. *)
Theorem create_contract bundles importModule instantiate compile cache b s :
  glue_errors s →
  let '(s', r) := create bundles importModule instantiate compile cache b s in
  (∀ ops, r = Ok ops → go_manifest ops = true ∧ go_dispatch ops = true) ∧
  (∀ e, r = Err e → ∃ w, e = XWasm w ∧ e_name w ∈ component_errors) ∧
  (∀ h name, own_get name (default [] (fs_maps s !! h)) = None →
     own_get name (vb_coreModuleBytes (bundles b)) = None →
     ∃ w, getCoreModule bundles b h name s = (s, Err (XWasm w)) ∧ e_name w = WasmCompatibilityErrorN) ∧
  (∀ i run json st run', is_ok (instance_manifest (instance_close i) run) = false ∧
     is_ok (instance_dispatch (instance_close i) json st run') = false).
Proof.
  intros Hs. pose proof (create_throws bundles importModule instantiate compile cache b s Hs) as Ht.
  destruct (create _ _ _ _ _ _ _) as [s' r] eqn:E. simpl in Ht. split; [|split; [done|split]].
  - intros ops ->. unfold create in E. destruct (glue_for _ _ _ _) as [s1 [u|e]]; [|done].
    destruct (modules_for _ _ _) as [s2 h]. destruct (run_glue _ _ _ _ _ _) as [s3 [root|e]]; injection E as _ E; [|done].
    unfold operations_of in E. repeat case_match; try done; injection E as <-; bool_inv; done.
  - intros h name H1 H2. unfold getCoreModule. rewrite H1, H2. by eexists.
  - done.
Qed.

Definition demo_create : factory_state * res exn GeneratedOperations :=
  create (λ _, demo_bundle) (λ _, HasInstantiate)
    (λ _, GAsk (js "core.wasm") (λ _, GRoot {| gr_operations := None;
            gr_versioned := Some {| go_manifest := true; go_dispatch := true |} |})) (λ _, true) true 3 new_factory.

Lemma create_contract_witness :
  match demo_create with
  | (_, Ok ops) => go_manifest ops = true ∧ go_dispatch ops = true
  | (_, Err _) => False
  end.
Proof.
  assert (Hok : is_ok demo_create.2 = true) by (vm_compute; reflexivity).
  pose proof (create_contract (λ _, demo_bundle) (λ _, HasInstantiate)
    (λ _, GAsk (js "core.wasm") (λ _, GRoot {| gr_operations := None;
            gr_versioned := Some {| go_manifest := true; go_dispatch := true |} |})) (λ _, true) true 3 new_factory
    (Forall_nil_2 _)) as H.
  change (create _ _ _ _ _ _ _) with demo_create in H. destruct demo_create as [s [ops|e]]; [|discriminate Hok].
  exact (proj1 H ops eq_refl).
Defined.
