(* ===== verification/Runtime.v ===== *)
(** * wasm/runtime.ts: calls, retries and the life of the runtime

    [invoke] is modelled in two layers.  The first follows one call: its preparation, the
    retry loop and the two targets, over an oracle of what the awaited promises give and of
    what [signal.aborted] reads when the code asks.  The second is the life of the runtime
    shared by every call: its state, the count of active calls, the load and [close].
    [XTypeError] stands for a thrown value that is not an error of the runtime. *)

From S2P Require Export Adapters Pool.
Local Open Scope nat_scope.

(** ** Arguments *)

Record WasmCallOptions := {
  o_timeoutMs : option dbl;
  o_deadline : option dbl;   (* a Date is its getTime() *)
  o_target : option WasmExecutionTarget;
  o_requestId : option jstr;
  o_cancellationToken : option jstr;
  o_requiredCapabilities : option (list jstr);
  o_allowRetry : bool;
}.

Definition num_of_Z (z : Z) : dbl := dbl_of_Z z.

Definition requireInteger (value : dbl) (minimum maximum : Z) : res exn dbl :=
  if negb (isInteger value) || num_ltb value (num_of_Z minimum) || num_ltb (num_of_Z maximum) value
  then Err XRangeError else Ok value.

Definition requireFinite (value minimum : dbl) : res exn unit :=
  if negb (isFinite value) || num_ltb value minimum then Err XRangeError else Ok tt.

Definition defaultRetryPolicy : WasmRetryPolicy :=
  {| rp_maxAttempts := num_of_Z 2; rp_initialDelayMs := num_of_Z 25; rp_maxDelayMs := num_of_Z 250;
     rp_transientCodes := [] |}.

(** [Partial<WasmRetryPolicy>]. *)
Record partial_policy := {
  pp_maxAttempts : option dbl;
  pp_initialDelayMs : option dbl;
  pp_maxDelayMs : option dbl;
  pp_transientCodes : option (list jstr);
}.

(** [^[a-z][a-z0-9]*(?:_[a-z0-9]+)*$] *)
Definition transientCodePattern : regex :=
  r_lower ⋅ r_lower_digit^* ⋅ (RChar 95 ⋅ RPlus r_lower_digit)^*.

Definition normalizeRetryPolicy (value : option partial_policy) : res exn WasmRetryPolicy :=
  let get {A} (f : partial_policy → option A) (d : A) := default d (v ← value; f v) in
  let attempts := get pp_maxAttempts (rp_maxAttempts defaultRetryPolicy) in
  let initial := get pp_initialDelayMs (rp_initialDelayMs defaultRetryPolicy) in
  let maximum := get pp_maxDelayMs (rp_maxDelayMs defaultRetryPolicy) in
  let codes := get pp_transientCodes (rp_transientCodes defaultRetryPolicy) in
  let* _ := requireInteger attempts 1 10 in
  let* _ := requireFinite initial (num_of_Z 0) in
  let* _ := requireFinite maximum initial in
  if existsb (λ c, negb (matches transientCodePattern c)) codes then Err XTypeError
  else Ok {| rp_maxAttempts := attempts; rp_initialDelayMs := initial; rp_maxDelayMs := maximum;
             rp_transientCodes := remove_dups codes |}.

Definition resolveDeadline (o : WasmCallOptions) (defaultTimeoutMs : option dbl) (now : dbl)
    : res exn (option dbl) :=
  let relative := match o_timeoutMs o with Some t => Some t | None => defaultTimeoutMs end in
  let* deadline := match relative with
                   | None => Ok None
                   | Some r => let* _ := requireFinite r (num_of_Z 0) in Ok (Some (num_floor (num_add now r)))
                   end in
  match o_deadline o with
  | None => Ok deadline
  | Some explicit =>
      let* _ := requireFinite explicit (num_of_Z 0) in
      let normalized := num_floor explicit in
      Ok (Some (match deadline with None => normalized | Some d => num_min d normalized end))
  end.

(** [None] when no field is present. *)
Definition requestMetadata (o : WasmCallOptions) (deadlineUnixMs : option dbl) : option AbiRequestMetadataV1 :=
  match deadlineUnixMs, o_cancellationToken o, o_requiredCapabilities o with
  | None, None, None => None
  | d, t, c => Some {| md_deadline_unix_ms := d; md_cancellation_token := t; md_required_capabilities := c |}
  end.

Definition executionState (metadata : option AbiRequestMetadataV1) (now : dbl) (aborted : bool) : AbiExecutionStateV1 :=
  let token := default [] (m ← metadata; md_cancellation_token m) in
  let checked := negb (bool_decide (token = [])) in
  {| es_clockChecked := bool_decide (is_Some (m ← metadata; md_deadline_unix_ms m));
     es_nowUnixMilliseconds := num_floor now;
     es_cancellationChecked := checked; es_cancellationToken := token;
     es_cancellationRequested := checked && aborted |}.

(** ** Errors and signals *)

(** The reason of an aborted signal, [None] while it is not aborted. *)
Notation signal := (option (option WasmRuntimeError)).

Definition throwIfAborted (s : signal) : res exn unit :=
  match s with Some reason => Err (XWasm (abortReason reason)) | None => Ok tt end.

(** [createAbortScope]: the first of caller, shutdown and deadline that fires gives the
    reason.  [scope_start] is the signal when the scope is made, [scope_listen] after one of
    its listeners ran. *)
Inductive abort_source := AbCaller | AbShutdown | AbDeadline.

Definition source_error (s : abort_source) : WasmRuntimeError :=
  match s with
  | AbCaller => wasmCancelledError
  | AbShutdown => wasmClosedError None
  | AbDeadline => wasmDeadlineExceededError
  end.

Definition scope_listen (s : signal) (src : abort_source) : signal :=
  match s with Some _ => s | None => Some (Some (source_error src)) end.

Definition scope_start (callerAborted shutdownAborted : bool) (deadline : option dbl) (now : dbl) : signal :=
  let s1 := if callerAborted then scope_listen None AbCaller else None in
  let s2 := if shutdownAborted then scope_listen s1 AbShutdown else s1 in
  match s2, deadline with
  | None, Some d => if num_leb d now then scope_listen None AbDeadline else None
  | _, _ => s2
  end.

Definition normalizeLoadError (cause : exn) : WasmRuntimeError :=
  match cause with
  | XWasm e => e
  | _ => wasmInvocationError (js "component bundle verification failed") None
  end.

Inductive target_kind := KComponent | KNative.

Definition normalizeCallError (cause : exn) (target : target_kind) (s : signal) : WasmRuntimeError :=
  match s with
  | Some reason => abortReason reason
  | None =>
      match cause with
      | XWasm e => e
      | _ => match target with
             | KNative => wasmAdapterError (js "native adapter invocation failed") None
             | KComponent => wasmInvocationError (js "component invocation failed") None
             end
      end
  end.

(** ** The retry loop of [invoke] *)

Inductive call_event :=
  | VStart (attempt : nat) (target : jstr)
  | VSuccess (attempt : nat) (target : jstr)
  | VFailure (attempt : nat) (target : jstr) (code : jstr)
  | VRetry (attempt : nat) (target : jstr)   (* the attempt that follows *)
  | VSleep (delay : dbl).

(** How [raceWithSignal(this.#sleep(delay), scope.signal)] ends: the sleep is over, the signal
    fired first, or the [sleep] of the options threw or rejected. *)
Inductive sleep_end := SleepOver | SleepAborted (reason : option WasmRuntimeError) | SleepFailed (cause : exn).

(** What one attempt meets: the result of its target, the signal when the attempt throws, and
    how the sleep after it ends. *)
Record attempt_oracle := {
  at_result : res exn AbiResponseV1;
  at_signal : signal;
  at_sleep : sleep_end;
}.

Section retry.
Context (policy : WasmRetryPolicy) (kind : target_kind) (targetName : jstr).
Context (oracle : nat → attempt_oracle).

Definition isSafeTransient (e : WasmRuntimeError) : bool :=
  bool_decide (e_name e = WasmGuestErrorN) && negb (bool_decide (e_code e = js "deadline_exceeded"))
  && negb (bool_decide (e_code e = js "cancellation_requested")) && e_retryable e
  && bool_decide (e_code e ∈ rp_transientCodes policy).

Definition retry_delay (attempt : nat) : dbl :=
  num_min (rp_maxDelayMs policy)
    (num_mul (rp_initialDelayMs policy) (num_of_Z (2 ^ (Z.of_nat attempt - 1)))).

(** [if (!response.ok) throw new WasmGuestError(...)] *)
Definition response_result (r : AbiResponseV1) : res exn jsval :=
  match r with
  | AbiSuccess _ v => Ok v
  | AbiFailure _ e => Err (XWasm (wasmGuestError (ae_code e) (default [] (ae_message e)) (ae_field e) (ae_retryable e)))
  end.

(** The [for] loop from [attempt] on, with the events and sleeps it goes through.  What the sleep
    throws is thrown inside the [catch], so it leaves the call as it is. *)
Fixpoint invoke_loop (fuel maxAttempts attempt : nat) : list call_event * res exn jsval :=
  match fuel with
  | 0 => ([], Err (XWasm (wasmInvocationError (js "component retry loop ended unexpectedly") None)))
  | S fuel =>
      if maxAttempts <? attempt
      then ([], Err (XWasm (wasmInvocationError (js "component retry loop ended unexpectedly") None)))
      else
        let o := oracle attempt in
        match (let* r := at_result o in response_result r) with
        | Ok v => ([VStart attempt targetName; VSuccess attempt targetName], Ok v)
        | Err cause =>
            let error := normalizeCallError cause kind (at_signal o) in
            let failed := [VStart attempt targetName; VFailure attempt targetName (e_code error)] in
            if negb ((attempt <? maxAttempts) && isSafeTransient error) then (failed, Err (XWasm error))
            else
              let slept := failed ++ [VRetry (S attempt) targetName; VSleep (retry_delay attempt)] in
              match at_sleep o with
              | SleepAborted reason => (slept, Err (XWasm (abortReason reason)))
              | SleepFailed cause => (slept, Err cause)
              | SleepOver =>
                  let '(evs, r) := invoke_loop fuel maxAttempts (S attempt) in (slept ++ evs, r)
              end
        end
  end.
End retry.

(** The attempts [allowRetry && contract.retrySafe] grants; the policy was normalised. *)
Definition max_attempts (policy : WasmRetryPolicy) (allowRetry retrySafe : bool) : nat :=
  if allowRetry && retrySafe then Z.to_nat (default 1%Z (dbl_to_Z (rp_maxAttempts policy))) else 1.

Definition target_kind_of (t : WasmExecutionTarget) : target_kind :=
  match t with TComponent => KComponent | TNative _ => KNative end.
Definition target_name (t : WasmExecutionTarget) : jstr :=
  match t with TComponent => js "component" | TNative a => js "native:" ++ a end.

(** The [metadata] argument of [createAbiRequest] as an object of its own. *)
Definition metadata_value (h : heap) (m : option AbiRequestMetadataV1) : heap * option uval :=
  match m with
  | None => (h, None)
  | Some m => let '(h, u) := alloc (metadata_json m) h in (h, Some u)
  end.

(** The body of [invoke] after the bundle is loaded: the contract of the operation and the
    request.  The verified [operations] have no prototype: only an own name is found. *)
Definition prepare (bundle : WasmBundleManifestV1) (h : heap) (o : WasmCallOptions) (requestId operation : jstr)
    (payload : uval) (deadline : option dbl) : res exn (WasmOperationContract * AbiRequestV1) :=
  match own_get operation (m_operations bundle) with
  | None => compat_err (js "operation " ++ json_quote operation ++ js " is not declared by the verified manifest")
  | Some contract =>
      let '(h1, md) := metadata_value h (requestMetadata o deadline) in
      let* request := createAbiRequest h1 requestId operation payload md in
      Ok (contract, request)
  end.

(** [invoke] from its [try] on. *)
Definition invoke_body (policy : WasmRetryPolicy) (bundle : WasmBundleManifestV1) (h : heap) (o : WasmCallOptions)
    (requestId operation : jstr) (payload : uval) (deadline : option dbl) (start : signal)
    (loaded : res exn unit) (oracle : nat → attempt_oracle) : list call_event * res exn jsval :=
  match throwIfAborted start with
  | Err e => ([], Err e)
  | Ok _ =>
      match (let* _ := loaded in prepare bundle h o requestId operation payload deadline) with
      | Err e => ([], Err e)
      | Ok (contract, _) =>
          let target := default TComponent (o_target o) in
          let n := max_attempts policy (o_allowRetry o) (oc_retrySafe contract) in
          invoke_loop policy (target_kind_of target) (target_name target) oracle (S n) n 1
      end
  end.

(** ** [#invokeComponent]: one dispatch on a leased instance *)

(** What the awaits of one dispatch give.  [d_raced] is the reason when the signal fires before
    the dispatch settles: the caller is rejected at once while the settling goes on. *)
Record dispatch_oracle := {
  d_acquire : res exn unit;
  d_acquired : signal;                  (* signal.aborted after the lease was granted *)
  d_throws : bool;                      (* dispatch throws synchronously *)
  d_raced : signal;
  d_raw : res exn jstr;                 (* how the promise of dispatch settles *)
  d_settled : signal;                   (* signal.aborted when it settles *)
  d_release : bool → res exn unit;      (* lease.release(discard) *)
}.

(** The settling of the dispatch: the discard flags of the releases, and its result. *)
Definition settle_dispatch (d : dispatch_oracle) (requestId : jstr) : list bool * res exn AbiResponseV1 :=
  match d_raw d with
  | Ok json =>
      match d_settled d with
      | Some reason => ([true], d_release d true ;;* Err (XWasm (abortReason reason)))
      | None =>
          match parseAbiResponse json requestId with
          | Err cause => ([true], d_release d true ;;* Err cause)
          | Ok response => ([false], d_release d false ;;* Ok response)
          end
      end
  | Err _ =>
      ([true], d_release d true ;;*
        match d_settled d with
        | Some reason => Err (XWasm (abortReason reason))
        | None => Err (XWasm (wasmInvocationError (js "component invocation failed") None))
        end)
  end.

(** The releases, and what the caller gets. *)
Definition invokeComponent (pool : bool) (d : dispatch_oracle) (requestId : jstr) : list bool * res exn AbiResponseV1 :=
  if negb pool then ([], Err (XWasm (wasmPoolError (js "component instance pool is not initialized") None)))
  else match d_acquire d with
  | Err e => ([], Err e)
  | Ok _ =>
      match throwIfAborted (d_acquired d), d_throws d with
      | Ok _, false =>
          let '(releases, r) := settle_dispatch d requestId in
          (releases, match d_raced d with Some reason => Err (XWasm (abortReason reason)) | None => r end)
      | _, _ =>
          ([true], d_release d true ;;* Err (XWasm (wasmInvocationError (js "component invocation failed") None)))
      end
  end.

(** ** [#invokeAdapter] *)

(** [resolved] is [resolve] on the registry; [execution] how the adapter's promise settles,
    [raced] the signal if it fires first. *)
Definition invokeAdapter (resolved : res exn nat) (h : heap) (execution : res exn uval) (raced : signal)
    (requestId : jstr) : res exn AbiResponseV1 :=
  match resolved with
  | Err (XWasm e) =>
      if bool_decide (e_name e = WasmAdapterErrorN) then Err (XWasm e)
      else adapter_err (js "native adapter selection failed")
  | Err _ => adapter_err (js "native adapter selection failed")
  | Ok _ =>
      match raced with
      | Some reason => Err (XWasm (abortReason reason))
      | None =>
          match execution with
          | Ok response => validateAbiResponse h response requestId
          | Err (XWasm e) => Err (XWasm e)
          | Err _ => adapter_err (js "native adapter invocation failed")
          end
      end
  end.

(** ** Bounds of the attempts *)

(** A number of the language: a double in canonical form. *)
Definition js_number (d : dbl) : Prop := valid_binary dprec demax d = true.

Lemma digits2_pos_bounds m : (2 ^ (Z.pos (digits2_pos m) - 1) ≤ Z.pos m < 2 ^ Z.pos (digits2_pos m))%Z.
Proof.
  induction m as [m IH|m IH|]; simpl digits2_pos; [..|lia];
    rewrite Pos2Z.inj_succ, Z.pow_succ_r by lia;
    replace (Z.succ (Z.pos (digits2_pos m)) - 1)%Z with (Z.succ (Z.pos (digits2_pos m) - 1)) by lia;
    rewrite Z.pow_succ_r by lia; lia.
Qed.

(** In canonical form the mantissa has at most 53 bits, and exactly 53 above the subnormals. *)
Lemma canonical_mantissa_bounds s m e : js_number (S754_finite s m e) →
  (Z.pos m < 2 ^ 53 ∧ (-1074 < e → 2 ^ 52 ≤ Z.pos m))%Z.
Proof.
  unfold js_number. simpl. intros [H _]%andb_true_iff. unfold canonical_mantissa in H. apply Z.eqb_eq in H.
  unfold fexp, emin, dprec, demax in H. pose proof (digits2_pos_bounds m) as [H1 H2]. split.
  - eapply Z.lt_le_trans; [exact H2|]. apply Z.pow_le_mono_r; lia.
  - intros He. eapply Z.le_trans; [|exact H1]. apply Z.pow_le_mono_r; lia.
Qed.

Lemma same_exponent k m e : num_ltb (S754_finite false k e) (S754_finite false m e) = false → (Z.pos m ≤ Z.pos k)%Z.
Proof.
  unfold num_ltb, SFltb, SFcompare. rewrite Z.compare_refl. change (Pos.compare_cont Eq k m) with (k ?= m)%positive.
  destruct (Pos.compare_spec k m); [lia|done|lia].
Qed.

Lemma lower_exponent k m e f : (e < f)%Z → num_ltb (S754_finite false k e) (S754_finite false m f) = true.
Proof. intros H. unfold num_ltb, SFltb, SFcompare. by rewrite (proj2 (Z.compare_lt_iff e f) H). Qed.

Lemma ten_repr : num_of_Z 10 = S754_finite false 5629499534213120 (-49).
Proof. vm_compute. reflexivity. Qed.
Lemma one_repr : num_of_Z 1 = S754_finite false 4503599627370496 (-52).
Proof. vm_compute. reflexivity. Qed.

Lemma not_above_ten d z : js_number d → num_ltb (num_of_Z 10) d = false → dbl_to_Z d = Some z → (z ≤ 10)%Z.
Proof.
  rewrite ten_repr.
  destruct d as [s|s| |s m e]; try done; [by intros _ _ [= <-]|]. intros [Hm _]%canonical_mantissa_bounds Hl Hz.
  unfold dbl_to_Z in Hz. destruct s.
  { clear Hl Hm. destruct (0 <=? e)%Z.
    - injection Hz as <-. assert (0 ≤ Z.pos m * 2 ^ e)%Z by (apply Z.mul_nonneg_nonneg; [lia|apply Z.pow_nonneg; lia]). lia.
    - destruct (_ =? _)%Z; [|done]. injection Hz as <-.
      assert (0 ≤ Z.pos m / 2 ^ (- e))%Z by (apply Z_div_nonneg_nonneg; [lia|apply Z.pow_nonneg; lia]). lia. }
  destruct (Z.compare_spec (-49) e) as [<-|He|He].
  - simpl in Hz. destruct (_ =? _)%Z; [|done]. injection Hz as <-.
    pose proof (same_exponent _ _ _ Hl) as Hle. apply Z.div_le_upper_bound; lia.
  - by rewrite lower_exponent in Hl.
  - rewrite (proj2 (Z.leb_gt _ _)) in Hz by lia. destruct (_ =? _)%Z; [|done]. injection Hz as <-.
    assert (2 ^ 50 ≤ 2 ^ (- e))%Z by (apply Z.pow_le_mono_r; lia).
    apply Z.div_le_upper_bound; lia.
Qed.

Lemma not_below_one d z : js_number d → num_ltb d (num_of_Z 1) = false → dbl_to_Z d = Some z → (1 ≤ z)%Z.
Proof.
  rewrite one_repr.
  destruct d as [[]|s| |[] m e]; try done. intros [_ Hm]%canonical_mantissa_bounds Hl Hz.
  unfold dbl_to_Z in Hz. destruct (Z.compare_spec e (-52)) as [->|He|He].
  - simpl in Hz. destruct (_ =? _)%Z; [|done]. injection Hz as <-.
    pose proof (same_exponent _ _ _ Hl) as Hle. apply Z.div_le_lower_bound; lia.
  - by rewrite lower_exponent in Hl.
  - specialize (Hm ltac:(lia)). destruct (Z.leb_spec 0 e).
    + injection Hz as <-. pose proof (Z.pow_pos_nonneg 2 e). lia.
    + destruct (_ =? _)%Z; [|done]. injection Hz as <-.
      assert (0 < 2 ^ (- e) ≤ 2 ^ 52)%Z by (split; [apply Z.pow_pos_nonneg; lia|apply Z.pow_le_mono_r; lia]).
      apply Z.div_le_lower_bound; lia.
Qed.

(** What a normalised policy guarantees. *)
Record valid_policy (p : WasmRetryPolicy) : Prop := {
  vp_attempts : ∃ z, dbl_to_Z (rp_maxAttempts p) = Some z ∧ (1 ≤ z ≤ 10)%Z;
  vp_initial : isFinite (rp_initialDelayMs p) = true;
  vp_max : isFinite (rp_maxDelayMs p) = true;
  vp_order : num_ltb (rp_maxDelayMs p) (rp_initialDelayMs p) = false;
  vp_codes : Forall (λ c, matches transientCodePattern c = true) (rp_transientCodes p);
}.

Lemma requireFinite_Ok v m u : requireFinite v m = Ok u → isFinite v = true ∧ num_ltb v m = false.
Proof. unfold requireFinite. destruct (isFinite v), (num_ltb v m); simpl; try done. Qed.

Lemma normalizeRetryPolicy_valid value p : normalizeRetryPolicy value = Ok p → js_number (rp_maxAttempts p) → valid_policy p.
Proof.
  unfold normalizeRetryPolicy. cbv zeta. intros H. apply rbind_Ok in H as (a & Ha & H).
  apply rbind_Ok in H as (? & [Hi _]%requireFinite_Ok & H). apply rbind_Ok in H as (? & [Hm Ho]%requireFinite_Ok & H).
  destruct (existsb _ _) eqn:Ec; [done|]. injection H as <-. simpl. intros Hn. split; simpl; try done.
  - unfold requireInteger in Ha. destruct (_ || _ || _) eqn:E; [done|]. bool_inv.
    unfold isInteger in *. destruct (dbl_to_Z _) as [z|] eqn:Ez; [|done].
    exists z. split; [done|]. split; [by eapply not_below_one|by eapply not_above_ten].
  - apply Forall_forall. intros c Hc. apply (proj1 (elem_of_remove_dups _ _)) in Hc.
    destruct (matches transientCodePattern c) eqn:E; [done|]. rewrite <- Ec.
    apply existsb_exists. exists c. rewrite E. split; [by apply list_elem_of_In|done].
Qed.

Lemma max_attempts_bounds p a b : valid_policy p → 1 ≤ max_attempts p a b ≤ 10.
Proof.
  intros [(z & Hz & ?) _ _ _ _]. unfold max_attempts. destruct (a && b); [|lia]. rewrite Hz. simpl. lia.
Qed.

(** ** What the retry loop does *)

Definition starts (evs : list call_event) : list nat :=
  omap (λ e, match e with VStart n _ => Some n | _ => None end) evs.

(** The target an event names. *)
Definition event_target (e : call_event) : option jstr :=
  match e with
  | VStart _ t | VSuccess _ t | VFailure _ t _ | VRetry _ t => Some t
  | VSleep _ => None
  end.

Definition transient_code (p : WasmRetryPolicy) (c : jstr) : Prop :=
  c ∈ rp_transientCodes p ∧ c ≠ js "deadline_exceeded" ∧ c ≠ js "cancellation_requested".

Lemma isSafeTransient_code p e : isSafeTransient p e = true → transient_code p (e_code e).
Proof. unfold isSafeTransient. intros H. bool_inv. done. Qed.

Section loop.
Context (policy : WasmRetryPolicy) (kind : target_kind) (targetName : jstr) (oracle : nat → attempt_oracle).
Notation loop := (invoke_loop policy kind targetName oracle).

(** The cases of one turn. *)
Lemma loop_turn fuel n k : k ≤ n → ∃ tail r,
  loop (S fuel) n k = (VStart k targetName :: tail, r) ∧
  (tail = [VSuccess k targetName] ∧ is_ok r = true ∨
   (∃ c, tail = [VFailure k targetName c]) ∧ is_ok r = false ∨
   ∃ e, k < n ∧ isSafeTransient policy e = true ∧
     (tail = [VFailure k targetName (e_code e); VRetry (S k) targetName; VSleep (retry_delay policy k)] ∧ is_ok r = false ∨
      ∃ evs, loop fuel n (S k) = (evs, r) ∧
        tail = [VFailure k targetName (e_code e); VRetry (S k) targetName; VSleep (retry_delay policy k)] ++ evs)).
Proof.
  intros Hk. cbn [invoke_loop]. rewrite (proj2 (Nat.ltb_ge _ _)) by lia.
  destruct (rbind _ _) as [v|cause]; [eexists _, _; split; [done|]; by left|].
  set (e := normalizeCallError _ _ _). destruct (k <? n) eqn:E1; [destruct (isSafeTransient policy e) eqn:E2|]; simpl.
  - apply Nat.ltb_lt in E1. destruct (at_sleep _).
    2, 3: eexists _, _; (split; [done|]); right; right; exists e; (split; [done|]); (split; [done|]); by left.
    + destruct (invoke_loop _ _ _ _ fuel n (S k)) as [evs r] eqn:E. eexists _, _. split; [done|].
      right. right. exists e. split; [done|]. split; [done|]. right. by exists evs.
  - eexists _, _. split; [done|]. right. left. split; [by eexists|done].
  - eexists _, _. split; [done|]. right. left. split; [by eexists|done].
Qed.

Lemma loop_starts fuel : ∀ n k, k ≤ n < fuel + k →
  ∃ j, starts (loop fuel n k).1 = seq k (S j) ∧ k + j ≤ n.
Proof.
  induction fuel as [|fuel IH]; intros n k Hk; [lia|].
  destruct (loop_turn fuel n k) as (tail & r & -> & H); [lia|]. simpl.
  destruct H as [[-> _]|[[[c ->] _]|(e & Hlt & _ & [[-> _]|(evs & E & ->)])]].
  - exists 0. split; [done|lia].
  - exists 0. split; [done|lia].
  - exists 0. split; [done|lia].
  - destruct (IH n (S k)) as (j & Hj & Hle); [lia|]. rewrite E in Hj. simpl in *. exists (S j).
    split; [by rewrite Hj|lia].
Qed.

Lemma loop_target fuel : ∀ n k, Forall (λ e, event_target e = None ∨ event_target e = Some targetName) (loop fuel n k).1.
Proof.
  induction fuel as [|fuel IH]; intros n k; [constructor|]. destruct (decide (k ≤ n)) as [Hk|Hk].
  - destruct (loop_turn fuel n k Hk) as (tail & r & -> & H).
    destruct H as [[-> _]|[[[c ->] _]|(e & Hlt & _ & [[-> _]|(evs & E & ->)])]]; simpl;
      repeat (apply Forall_cons_2; [simpl; auto|]); try apply Forall_nil_2.
    specialize (IH n (S k)). by rewrite E in IH.
  - cbn [invoke_loop]. rewrite (proj2 (Nat.ltb_lt _ _)) by lia. constructor.
Qed.

(** A retry follows a failure whose code the policy lists, and waits the delay of its number. *)
Lemma loop_retries fuel : ∀ n k pre b t post, (loop fuel n k).1 = pre ++ VRetry b t :: post →
  k < b ≤ n ∧ (∃ pre' c, pre = pre' ++ [VFailure (b - 1) targetName c] ∧ transient_code policy c) ∧
  ∃ post', post = VSleep (retry_delay policy (b - 1)) :: post'.
Proof.
  induction fuel as [|fuel IH]; intros n k pre b t post; [by destruct pre|]. destruct (decide (k ≤ n)) as [Hk|Hk].
  - destruct (loop_turn fuel n k Hk) as (tail & r & -> & H). simpl.
    assert (Hshape : ∀ c evs, transient_code policy c → k < n →
      (∀ pre, evs = pre ++ VRetry b t :: post → S k < b ≤ n ∧
         (∃ pre' c, pre = pre' ++ [VFailure (b - 1) targetName c] ∧ transient_code policy c) ∧
         ∃ post', post = VSleep (retry_delay policy (b - 1)) :: post') →
      VStart k targetName :: [VFailure k targetName c; VRetry (S k) targetName; VSleep (retry_delay policy k)] ++ evs
        = pre ++ VRetry b t :: post →
      k < b ≤ n ∧ (∃ pre' c, pre = pre' ++ [VFailure (b - 1) targetName c] ∧ transient_code policy c) ∧
      ∃ post', post = VSleep (retry_delay policy (b - 1)) :: post').
    { intros c evs Hc Hlt Hevs E. destruct pre as [|x1 [|x2 [|x3 [|x4 pre]]]]; try discriminate E.
      - injection E as <- <- <- <- <-. simpl. rewrite Nat.sub_0_r. split; [lia|].
        split; [by exists [VStart k targetName], c|by exists evs].
      - injection E as <- <- <- <- E. destruct (Hevs _ E) as (H1 & (pre' & c' & -> & Hc') & H3).
        split; [lia|]. split; [|done]. eexists (_ :: _ :: _ :: _ :: pre'), c'. done. }
    destruct H as [[-> _]|[[[c ->] _]|(e & Hlt & He%isSafeTransient_code & [[-> _]|(evs & E & ->)])]].
    + by destruct pre as [|? [|? []]].
    + by destruct pre as [|? [|? []]].
    + intros H. apply (Hshape (e_code e) [] He Hlt); [|done]. by intros [].
    + intros H. apply (Hshape (e_code e) evs He Hlt); [|done]. intros pre' E'.
      apply (IH n (S k) pre' b t). by rewrite E.
  - cbn [invoke_loop]. rewrite (proj2 (Nat.ltb_lt _ _)) by lia. by destruct pre.
Qed.

(** The loop never falls through: it returns or throws from inside a turn. *)
Lemma loop_result fuel : ∀ n k, k ≤ n < fuel + k →
  (is_ok (loop fuel n k).2 = true ↔ ∃ pre b, (loop fuel n k).1 = pre ++ [VSuccess b targetName]).
Proof.
  induction fuel as [|fuel IH]; intros n k Hk; [lia|].
  destruct (loop_turn fuel n k) as (tail & r & -> & H); [lia|]. cbn [fst snd].
  destruct H as [[-> ->]|[[[c ->] ->]|(e & Hlt & _ & [[-> ->]|(evs & E & ->)])]].
  - split; [|done]. intros _. by exists [VStart k targetName], k.
  - split; [done|]. by intros ([|? [|? []]] & b & Hb).
  - split; [done|]. by intros ([|? [|? [|? [|? []]]]] & b & Hb).
  - specialize (IH n (S k) ltac:(lia)). rewrite E in IH. cbn [fst snd] in IH. rewrite IH. split.
    + intros (pre & b & ->). by eexists (_ :: _ :: _ :: _ :: pre), b.
    + intros ([|? [|? [|? [|? pre]]]] & b & Hb); try discriminate Hb; try (by destruct evs).
      injection Hb as _ _ _ _ Hb. by exists pre, b.
Qed.
End loop.

Lemma retry_delay_le p n : valid_policy p → 1 ≤ n ≤ 10 → num_leb (retry_delay p n) (rp_maxDelayMs p) = true.
Proof.
  intros [_ Hi Hm _ _] Hn. apply num_min_l; [by apply isFinite_number|].
  apply num_mul_number; [done|]. do 11 (destruct n as [|n]; [lia || (vm_compute; reflexivity)|]). lia.
Qed.

(** C3. Retrying is bounded and opt-in: whatever the attempts meet, a call makes at most ten
    attempts, numbered from one, and a second one only if the caller allowed retries and the
    manifest marks the operation safe; all of them go to the one target of the call; a retry
    follows only a failure whose code the policy lists and that is neither a deadline nor a
    cancellation, after a delay within the policy's maximum; and the call succeeds exactly
    when its last event is a success. *)
Theorem invoke_retries_bounded value policy bundle h o id operation payload deadline start loaded oracle :
  normalizeRetryPolicy value = Ok policy → js_number (rp_maxAttempts policy) →
  let '(evs, r) := invoke_body policy bundle h o id operation payload deadline start loaded oracle in
  let target := target_name (default TComponent (o_target o)) in
  (∃ j, starts evs = seq 1 j ∧ j ≤ 10 ∧
     (1 < j → o_allowRetry o = true ∧ ∃ c, own_get operation (m_operations bundle) = Some c ∧ oc_retrySafe c = true)) ∧
  Forall (λ e, event_target e = None ∨ event_target e = Some target) evs ∧
  (∀ pre b t post, evs = pre ++ VRetry b t :: post →
     (∃ pre' c, pre = pre' ++ [VFailure (b - 1) target c] ∧ transient_code policy c) ∧
     ∃ post' d, post = VSleep d :: post' ∧ num_leb d (rp_maxDelayMs policy) = true) ∧
  (is_ok r = true ↔ ∃ pre b, evs = pre ++ [VSuccess b target]).
Proof.
  intros Hp Hn. assert (Hv := normalizeRetryPolicy_valid _ _ Hp Hn). unfold invoke_body.
  assert (Hnil : ∀ e : exn, ([] : list call_event, Err (A := jsval) e) = ([], Err e)) by done.
  assert (Hearly : ∀ target, (∃ j, starts [] = seq 1 j ∧ j ≤ 10 ∧
     (1 < j → o_allowRetry o = true ∧ ∃ c, own_get operation (m_operations bundle) = Some c ∧ oc_retrySafe c = true)) ∧
    Forall (λ e, event_target e = None ∨ event_target e = Some target) [] ∧
    (∀ pre b t post, [] = pre ++ VRetry b t :: post →
     (∃ pre' c, pre = pre' ++ [VFailure (b - 1) target c] ∧ transient_code policy c) ∧
     ∃ post' d, post = VSleep d :: post' ∧ num_leb d (rp_maxDelayMs policy) = true) ∧
    (false = true ↔ ∃ pre b, [] = pre ++ [VSuccess b target])).
  { intros target. split; [exists 0; split; [done|]; lia|]. split; [constructor|]. split.
    - by intros [].
    - split; [done|]. by intros ([] & b & Hb). }
  destruct (throwIfAborted start); [|apply Hearly].
  destruct (rbind loaded _) as [[contract request]|] eqn:E; [|apply Hearly].
  set (n := max_attempts _ _ _). set (target := target_name _).
  assert (Hb : 1 ≤ n ≤ 10) by (by apply max_attempts_bounds).
  destruct (invoke_loop _ _ _ _ _ _ _) as [evs r] eqn:El.
  pose proof (loop_starts policy (target_kind_of (default TComponent (o_target o))) target oracle (S n) n 1 ltac:(lia)) as (j & Hj & Hle).
  pose proof (loop_target policy (target_kind_of (default TComponent (o_target o))) target oracle (S n) n 1) as Ht.
  pose proof (loop_retries policy (target_kind_of (default TComponent (o_target o))) target oracle (S n) n 1) as Hr.
  pose proof (loop_result policy (target_kind_of (default TComponent (o_target o))) target oracle (S n) n 1 ltac:(lia)) as Hok.
  rewrite El in Hj, Ht, Hr, Hok. cbn [fst snd] in *. split; [|split; [done|split]].
  - exists (S j). split; [done|]. split; [lia|]. intros H1. assert (Hn1 : 1 < n) by lia. unfold n, max_attempts in Hn1.
    destruct (o_allowRetry o); [|simpl in Hn1; lia]. split; [done|].
    unfold prepare in E. apply rbind_Ok in E as (? & _ & E).
    destruct (own_get operation (m_operations bundle)) as [c|]; [|done].
    destruct (metadata_value _ _). apply rbind_Ok in E as (? & _ & [= <- <-]).
    exists c. split; [done|]. by destruct (oc_retrySafe c); [|simpl in Hn1; lia].
  - intros pre b t post Hevs. destruct (Hr pre b t post Hevs) as (Hb' & H1 & post' & ->). split; [done|].
    exists post', (retry_delay policy (b - 1)). split; [done|]. apply retry_delay_le; [done|lia].
  - rewrite <- Hok. by destruct r.
Qed.

(** A guest that fails twice with a listed code, then answers. *)
Definition demo_policy : partial_policy :=
  {| pp_maxAttempts := Some (num_of_Z 3); pp_initialDelayMs := Some (num_of_Z 10);
     pp_maxDelayMs := Some (num_of_Z 15); pp_transientCodes := Some [js "busy"] |}.
Definition demo_options : WasmCallOptions :=
  {| o_timeoutMs := None; o_deadline := None; o_target := None; o_requestId := None;
     o_cancellationToken := None; o_requiredCapabilities := None; o_allowRetry := true |}.
Definition demo_attempts (k : nat) : attempt_oracle :=
  {| at_result := if k <? 3 then Ok (AbiFailure (js "1") {| ae_code := js "busy"; ae_message := None;
                                      ae_retryable := Some true; ae_field := None |})
                  else Ok (AbiSuccess (js "1") VNull);
     at_signal := None; at_sleep := SleepOver |}.
Definition demo_normalized : WasmRetryPolicy :=
  match normalizeRetryPolicy (Some demo_policy) with Ok p => p | Err _ => defaultRetryPolicy end.
Definition demo_invoke (bundle : WasmBundleManifestV1) :=
  invoke_body demo_normalized bundle [] demo_options (js "1") (js "crypto.sha256") UNull None None (Ok tt) demo_attempts.

Lemma invoke_retries_bounded_witness :
  match parseManifest demo_manifest with
  | Ok bundle => starts (demo_invoke bundle).1 = [1; 2; 3] ∧ (∃ j, starts (demo_invoke bundle).1 = seq 1 j ∧ j ≤ 10)
  | Err _ => False
  end.
Proof.
  assert (H : match parseManifest demo_manifest with
              | Ok bundle => bool_decide (starts (demo_invoke bundle).1 = [1; 2; 3]) | Err _ => false end = true)
    by (vm_compute; reflexivity).
  destruct (parseManifest demo_manifest) as [bundle|e]; [|discriminate H]. apply bool_decide_eq_true in H.
  split; [exact H|].
  pose proof (invoke_retries_bounded (Some demo_policy) demo_normalized bundle [] demo_options (js "1")
    (js "crypto.sha256") UNull None None (Ok tt) demo_attempts) as Ht.
  fold (demo_invoke bundle) in Ht. destruct (demo_invoke bundle) as [evs r].
  destruct Ht as [(j & Hj & Hle & _) _]; [vm_compute; reflexivity..|]. exists j. split; [exact Hj|exact Hle].
Defined.

(** C4. One dispatch gives its lease back exactly once, on every path, and returns the
    instance to the pool only when its answer was accepted: the instance is kept exactly
    when the guest's text parses as the response to this request and the signal had not
    fired by then; whatever the caller already received. *)
Theorem invokeComponent_releases d requestId : 
  let '(releases, r) := invokeComponent true d requestId in
  (is_ok (d_acquire d) = true → ∃ discard, releases = [discard] ∧
     (discard = false ↔ d_acquired d = None ∧ d_throws d = false ∧ d_settled d = None ∧
        ∃ json response, d_raw d = Ok json ∧ parseAbiResponse json requestId = Ok response)) ∧
  (is_ok (d_acquire d) = false → releases = []) ∧
  (∀ response, r = Ok response → d_raced d = None ∧ ∃ json, d_raw d = Ok json ∧
     parseAbiResponse json requestId = Ok response) ∧
  (∀ reason, d_raced d = Some reason → is_ok r = false).
Proof.
  unfold invokeComponent, settle_dispatch. destruct (d_acquire d) as [[]|e] eqn:Ea; simpl; [|by split_and!].
  destruct (d_acquired d) as [reason|] eqn:E1; simpl.
  { split_and!; [|done|by destruct (d_release d true)|by destruct (d_release d true)].
    intros _. exists true. split; [done|]. split; [done|]. by intros (? & _). }
  destruct (d_throws d) eqn:E2; simpl.
  { split_and!; [|done|by destruct (d_release d true)|by destruct (d_release d true)].
    intros _. exists true. split; [done|]. split; [done|]. by intros (_ & ? & _). }
  destruct (d_raw d) as [json|cause] eqn:E3; [destruct (d_settled d) as [reason|] eqn:E4|].
  - split_and!; [|done|by destruct (d_raced d), (d_release d true)|by intros ? ->].
    intros _. exists true. split; [done|]. split; [done|]. by intros (_ & _ & ? & _).
  - destruct (parseAbiResponse json requestId) as [response|e] eqn:E5.
    + split_and!; [|done| |by intros ? ->].
      * intros _. exists false. split; [done|]. split; [|done]. intros _. by eauto 10.
      * destruct (d_raced d); [done|]. destruct (d_release d false); [|done]. intros ? [= <-]. by eauto.
    + split_and!; [|done|by destruct (d_raced d), (d_release d true)|by intros ? ->].
      intros _. exists true. split; [done|]. split; [done|]. intros (_ & _ & _ & j & r & [= <-] & Hr). congruence.
  - split_and!; [|done|by destruct (d_raced d), (d_release d true), (d_settled d)|by intros ? ->].
    intros _. exists true. split; [done|]. split; [done|]. by intros (_ & _ & _ & ? & ? & ? & _).
Qed.
