(* ===== verification/Lifecycle.v ===== *)
(** * wasm/runtime.ts: the life of a runtime

    The state every call shares: the public state, the load promise, the count of active
    calls, and the phases of [close].  What runs between two awaits is one transition; the
    attempts of a call are those of [Runtime.invoke_loop].  [rt_calls] lists the invocations
    that entered their [try], [rt_leaked] counts those that left before it; [rt_background] is the
    set #background of dispatches and adapter executions that have not settled. *)

From S2P Require Export Runtime.
Local Open Scope nat_scope.

Inductive load_promise := LdNone | LdPending | LdLoaded | LdFailed.

(** Where the promise of [close] stands: what it awaits next. *)
Inductive close_phase := PhNone | PhCalls | PhLoad | PhBackground (awaited : list nat) | PhPool | PhAdapters (ok : bool) | PhDone (ok : bool).

Record runtime := {
  rt_state : WasmRuntimeState;
  rt_lastErrorCode : option jstr;
  rt_load : load_promise;
  rt_pool : bool;
  rt_shutdown : bool;
  rt_activeCalls : nat;
  rt_calls : list nat;
  rt_leaked : nat;
  rt_background : list nat;
  rt_close : close_phase;
  rt_events : list WasmEventType;
}.

Definition new_runtime : runtime :=
  {| rt_state := RIdle; rt_lastErrorCode := None; rt_load := LdNone; rt_pool := false; rt_shutdown := false;
     rt_activeCalls := 0; rt_calls := []; rt_leaked := 0; rt_background := []; rt_close := PhNone; rt_events := [] |}.

Record WasmRuntimeHealth := {
  hl_state : WasmRuntimeState;
  hl_verified : bool;
  hl_activeInstances : nat;
  hl_totalInstances : nat;
  hl_queuedCalls : nat;
  hl_poolSize : nat;
  hl_lastErrorCode : option jstr;
}.

(** [health()]; [c] is the pool once it exists. *)
Definition health (poolSize : nat) (c : pool_core) (r : runtime) : WasmRuntimeHealth :=
  let '(active, total, queued) := if rt_pool r then stats c else (0, 0, 0) in
  {| hl_state := rt_state r; hl_verified := rt_pool r; hl_activeInstances := active;
     hl_totalInstances := total; hl_queuedCalls := queued; hl_poolSize := poolSize;
     hl_lastErrorCode := rt_lastErrorCode r |}.

(** The constructor's checks. *)
Definition construct (poolSize defaultTimeoutMs : option dbl) (retry : option partial_policy)
    : res exn (dbl * WasmRetryPolicy) :=
  let* size := requireInteger (default (num_of_Z 4) poolSize) 1 64 in
  let* _ := match defaultTimeoutMs with Some t => requireFinite t (num_of_Z 0) | None => Ok tt end in
  let* policy := normalizeRetryPolicy retry in
  Ok (size, policy).

Definition is_open (r : runtime) : bool :=
  match rt_state r with RClosing | RClosed => false | _ => true end.

Definition set_state (s : WasmRuntimeState) (r : runtime) : runtime :=
  {| rt_state := s; rt_lastErrorCode := rt_lastErrorCode r; rt_load := rt_load r; rt_pool := rt_pool r;
     rt_shutdown := rt_shutdown r; rt_activeCalls := rt_activeCalls r; rt_calls := rt_calls r;
     rt_leaked := rt_leaked r; rt_background := rt_background r; rt_close := rt_close r; rt_events := rt_events r |}.
Definition set_error (e : option jstr) (r : runtime) : runtime :=
  {| rt_state := rt_state r; rt_lastErrorCode := e; rt_load := rt_load r; rt_pool := rt_pool r;
     rt_shutdown := rt_shutdown r; rt_activeCalls := rt_activeCalls r; rt_calls := rt_calls r;
     rt_leaked := rt_leaked r; rt_background := rt_background r; rt_close := rt_close r; rt_events := rt_events r |}.
Definition set_load (l : load_promise) (pool : bool) (r : runtime) : runtime :=
  {| rt_state := rt_state r; rt_lastErrorCode := rt_lastErrorCode r; rt_load := l; rt_pool := pool;
     rt_shutdown := rt_shutdown r; rt_activeCalls := rt_activeCalls r; rt_calls := rt_calls r;
     rt_leaked := rt_leaked r; rt_background := rt_background r; rt_close := rt_close r; rt_events := rt_events r |}.
Definition set_calls (n : nat) (cs : list nat) (leaked : nat) (r : runtime) : runtime :=
  {| rt_state := rt_state r; rt_lastErrorCode := rt_lastErrorCode r; rt_load := rt_load r; rt_pool := rt_pool r;
     rt_shutdown := rt_shutdown r; rt_activeCalls := n; rt_calls := cs;
     rt_leaked := leaked; rt_background := rt_background r; rt_close := rt_close r; rt_events := rt_events r |}.
Definition set_close (p : close_phase) (shutdown : bool) (r : runtime) : runtime :=
  {| rt_state := rt_state r; rt_lastErrorCode := rt_lastErrorCode r; rt_load := rt_load r; rt_pool := rt_pool r;
     rt_shutdown := shutdown; rt_activeCalls := rt_activeCalls r; rt_calls := rt_calls r;
     rt_leaked := rt_leaked r; rt_background := rt_background r; rt_close := p; rt_events := rt_events r |}.
Definition set_background (b : list nat) (r : runtime) : runtime :=
  {| rt_state := rt_state r; rt_lastErrorCode := rt_lastErrorCode r; rt_load := rt_load r; rt_pool := rt_pool r;
     rt_shutdown := rt_shutdown r; rt_activeCalls := rt_activeCalls r; rt_calls := rt_calls r;
     rt_leaked := rt_leaked r; rt_background := b; rt_close := rt_close r; rt_events := rt_events r |}.
Definition emit (ev : WasmEventType) (r : runtime) : runtime :=
  {| rt_state := rt_state r; rt_lastErrorCode := rt_lastErrorCode r; rt_load := rt_load r; rt_pool := rt_pool r;
     rt_shutdown := rt_shutdown r; rt_activeCalls := rt_activeCalls r; rt_calls := rt_calls r;
     rt_leaked := rt_leaked r; rt_background := rt_background r; rt_close := rt_close r; rt_events := rt_events r ++ [ev] |}.

(** ** Loading *)

(** The synchronous part of [#ensureLoaded]; it throws, and changes nothing, when the first
    load is asked of a runtime that closes. *)
Definition ensureLoaded (r : runtime) : runtime :=
  match rt_load r with
  | LdNone => if is_open r then emit LoadStart (set_load LdPending (rt_pool r) (set_state RLoading r)) else r
  | _ => r
  end.

Definition preload (r : runtime) : runtime := if is_open r then ensureLoaded r else r.

(** The creation of an instance for the pool: what the factory returned ([None] when it is no
    instance), what its [manifest()] gave, and how its [close()], if it has one, ended. *)
Definition create_instance (bundle : WasmBundleManifestV1) (created : res exn (option unit))
    (manifest : res exn jstr) (closes : option (res exn unit)) : res exn unit :=
  let attempt :=
    let* instance := created in
    match instance with
    | None => Err XTypeError
    | Some _ => let* text := manifest in assertPortableContractManifest text bundle
    end in
  match attempt with
  | Ok _ => Ok tt
  | Err cause =>
      match created, closes with
      | Ok _, Some (Err _) =>
          Err (XWasm (wasmPoolError (js "invalid component instance also failed to close") None))
      | _, _ =>
          match cause with
          | XWasm _ => Err cause
          | _ => Err (XWasm (wasmPoolError (js "component instance creation failed") None))
          end
      end
  end.

(** Only an instance that speaks the host's contract enters the pool. *)
Lemma create_instance_checked bundle created manifest closes u : create_instance bundle created manifest closes = Ok u →
  ∃ text v, manifest = Ok text ∧ assertPortableContractManifest text bundle = Ok v.
Proof.
  unfold create_instance. intros H.
  destruct (rbind created _) as [v|cause] eqn:E; [|by repeat case_match].
  apply rbind_Ok in E as ([i|] & _ & E); [|done]. apply rbind_Ok in E as (text & Ht & Ha). by eauto.
Qed.

(** The verification settles. *)
Definition load_settled (result : res exn unit) (r : runtime) : option runtime :=
  match rt_load r with
  | LdPending =>
      let failed cause :=
        let error := normalizeLoadError cause in
        emit LoadFailure (set_error (Some (e_code error))
          (set_load LdFailed (rt_pool r) (if is_open r then set_state RDegraded r else r))) in
      Some match result with
           | Ok _ => if rt_shutdown r then failed (XWasm (wasmClosedError None))
                     else emit LoadSuccess (set_state RReady (set_load LdLoaded true r))
           | Err cause => failed cause
           end
  | _ => None
  end.

(** ** Calls *)

(** The [finally] of [invoke]; the waiter of [close] is resolved when the last call ends. *)
Definition end_call (cs : list nat) (r : runtime) : runtime :=
  let r1 := set_calls (rt_activeCalls r - 1) cs (rt_leaked r) r in
  if rt_activeCalls r1 =? 0
  then match rt_close r1 with PhCalls => set_close PhLoad (rt_shutdown r1) r1 | _ => r1 end
  else r1.

(** [invoke] up to its first await.  The count is raised before the deadline is resolved,
    which may throw outside the [try]. *)
Definition invoke_enter (id : nat) (o : WasmCallOptions) (defaultTimeoutMs : option dbl) (callerAborted : bool)
    (now : dbl) (r : runtime) : runtime :=
  if negb (is_open r) then r
  else
    let r1 := set_calls (S (rt_activeCalls r)) (rt_calls r) (rt_leaked r) r in
    match resolveDeadline o defaultTimeoutMs now with
    | Err _ => set_calls (rt_activeCalls r1) (rt_calls r1) (S (rt_leaked r1)) r1
    | Ok deadline =>
        match scope_start callerAborted (rt_shutdown r1) deadline now with
        | Some _ => end_call (rt_calls r1) r1
        | None => ensureLoaded (set_calls (rt_activeCalls r1) (id :: rt_calls r1) (rt_leaked r1) r1)
        end
    end.

Definition attempt_success (id : nat) (r : runtime) : option runtime :=
  match rt_load r with
  | LdLoaded => if bool_decide (id ∈ rt_calls r) then Some (emit CallSuccess (set_error None (set_state RReady r)))
                else None
  | _ => None
  end.

Definition attempt_failure (id : nat) (e : WasmRuntimeError) (r : runtime) : option runtime :=
  match rt_load r with
  | LdLoaded => if bool_decide (id ∈ rt_calls r) then Some (emit CallFailure (set_error (Some (e_code e)) r))
                else None
  | _ => None
  end.

Definition call_ends (id : nat) (r : runtime) : option runtime :=
  if bool_decide (id ∈ rt_calls r) then Some (end_call (drop_nat id (rt_calls r)) r) else None.

(** [#trackBackground] of an attempt of call [id]: its dispatch or adapter execution [t] started. *)
Definition trackBackground (id t : nat) (r : runtime) : option runtime :=
  match rt_load r with
  | LdLoaded =>
      if bool_decide (id ∈ rt_calls r) && bool_decide (t ∉ rt_background r)
      then Some (set_background (rt_background r ++ [t]) r) else None
  | _ => None
  end.

(** A tracked promise settles, whether or not its call still waits. *)
Definition background_settled (t : nat) (r : runtime) : option runtime :=
  if bool_decide (t ∈ rt_background r) then Some (set_background (drop_nat t (rt_background r)) r) else None.

(** ** Closing *)

Definition runtime_close (r : runtime) : runtime :=
  match rt_close r with
  | PhNone =>
      let r1 := emit RuntimeClose (set_state RClosing r) in
      set_close (if rt_activeCalls r =? 0 then PhLoad else PhCalls) true r1
  | _ => r
  end.

(** [close] goes on after the load and after the background work it took a snapshot of; without a
    pool there is nothing to await for it. *)
Definition close_step (r : runtime) : option runtime :=
  match rt_close r with
  | PhLoad => match rt_load r with LdPending => None | _ => Some (set_close (PhBackground (rt_background r)) (rt_shutdown r) r) end
  | PhBackground awaited =>
      if forallb (λ t, bool_decide (t ∉ rt_background r)) awaited
      then Some (set_close (if rt_pool r then PhPool else PhAdapters true) (rt_shutdown r) r) else None
  | _ => None
  end.

(** The promise of the pool's close, or of the adapters' close, settles. *)
Definition close_settled (ok : bool) (r : runtime) : option runtime :=
  match rt_close r with
  | PhPool => Some (set_close (PhAdapters ok) (rt_shutdown r) r)
  | PhAdapters ok1 => Some (set_state RClosed (set_close (PhDone (ok1 && ok)) (rt_shutdown r) r))
  | _ => None
  end.

Inductive runtime_event :=
  | REnter (id : nat) (o : WasmCallOptions) (defaultTimeoutMs : option dbl) (callerAborted : bool) (now : dbl)
  | RPreload
  | RLoad (result : res exn unit)
  | RSuccess (id : nat)
  | RFailure (id : nat) (e : WasmRuntimeError)
  | REnd (id : nat)
  | RClose
  | RTrack (id t : nat)
  | RSettled (t : nat)
  | RCloseStep
  | RCloseSettled (ok : bool).

Definition runtime_step (r : runtime) (ev : runtime_event) : option runtime :=
  match ev with
  | REnter id o d a now => if bool_decide (id ∈ rt_calls r) then None else Some (invoke_enter id o d a now r)
  | RPreload => Some (preload r)
  | RLoad result => load_settled result r
  | RSuccess id => attempt_success id r
  | RFailure id e => attempt_failure id e r
  | REnd id => call_ends id r
  | RClose => Some (runtime_close r)
  | RTrack id t => trackBackground id t r
  | RSettled t => background_settled t r
  | RCloseStep => close_step r
  | RCloseSettled ok => close_settled ok r
  end.

Definition runtime_run : runtime → list runtime_event → runtime → Prop := run (λ r ev r', runtime_step r ev = Some r').

(** ** The invariant *)

Definition closing (p : close_phase) : Prop := p ≠ PhNone.
Definition past_calls (p : close_phase) : Prop := p ≠ PhNone ∧ p ≠ PhCalls.
Definition loads (evs : list WasmEventType) : nat := count (λ e, bool_decide (e = LoadStart)) evs.

Record runtime_inv (r : runtime) : Prop := {
  ri_active : rt_activeCalls r = length (rt_calls r) + rt_leaked r;
  ri_shutdown : rt_shutdown r = true ↔ closing (rt_close r);
  ri_pool : rt_pool r = true ↔ rt_load r = LdLoaded;
  ri_calls : rt_close r = PhCalls → 0 < rt_activeCalls r;
  ri_drained : past_calls (rt_close r) → rt_calls r = [];
  ri_open : is_open r = false → closing (rt_close r);
  ri_first : rt_load r = LdNone → closing (rt_close r) → is_open r = false;
  ri_idle : rt_load r = LdNone → rt_calls r = [];
  ri_loads : loads (rt_events r) = match rt_load r with LdNone => 0 | _ => 1 end;
  ri_settled : rt_load r = LdPending → ∀ p, rt_close r = p → p = PhNone ∨ p = PhCalls ∨ p = PhLoad;
  ri_closed : (∃ ok, rt_close r = PhDone ok) ↔ rt_state r = RClosed;
}.

Lemma scope_start_shutdown caller deadline now : ∃ reason, scope_start caller true deadline now = Some reason.
Proof. unfold scope_start. destruct caller; simpl; by eexists. Qed.

Lemma loads_snoc evs ev : loads (evs ++ [ev]) = loads evs + if bool_decide (ev = LoadStart) then 1 else 0.
Proof. unfold loads. rewrite count_app. simpl. lia. Qed.

Section invariant.
Implicit Types (r : runtime).

Lemma set_error_inv e r : runtime_inv r → runtime_inv (set_error e r).
Proof. intros []. by split. Qed.

(** Any event but the start of a load. *)
Lemma emit_inv ev r : ev ≠ LoadStart → runtime_inv r → runtime_inv (emit ev r).
Proof.
  intros Hev []. split; try done. simpl. rewrite loads_snoc, bool_decide_false by done. by rewrite Nat.add_0_r.
Qed.

Lemma ensureLoaded_inv r : runtime_inv r → runtime_inv (ensureLoaded r).
Proof.
  intros Hi. unfold ensureLoaded. destruct (rt_load r) eqn:El; [|done..]. destruct (is_open r) eqn:Eo; [|done].
  pose proof (ri_first _ Hi El) as Hf. destruct Hi. rewrite El in *. split; simpl; try done.
  - by rewrite ri_pool0.
  - rewrite loads_snoc, ri_loads0. done.
  - intros _ p <-. left. destruct (rt_close r); [done|..]; by rewrite Hf in Eo.
  - split; [|done]. intros [ok Hok]. rewrite Hok in Hf. by rewrite Hf in Eo.
Qed.

(** The [finally] of a call that left, or never entered, the list of calls. *)
Lemma end_call_inv cs r : runtime_inv (set_calls (length cs + rt_leaked r) cs (rt_leaked r) (set_close
    (match rt_close r with PhCalls => if length cs + rt_leaked r =? 0 then PhLoad else PhCalls | p => p end) (rt_shutdown r) r)) →
  rt_activeCalls r = S (length cs + rt_leaked r) → runtime_inv (end_call cs r).
Proof.
  intros Hi Ha. revert Hi. match goal with |- runtime_inv ?x → runtime_inv ?y => enough (y = x) as -> by done end.
  destruct r. unfold end_call. simpl in *. subst. simpl. rewrite Nat.sub_0_r.
  by destruct (_ =? 0), rt_close0.
Qed.

Lemma call_left_inv cs r : runtime_inv r → rt_activeCalls r = S (length cs + rt_leaked r) →
  (rt_calls r = [] → cs = []) → runtime_inv (end_call cs r).
Proof.
  intros [] Ha Hcs. apply end_call_inv; [|done]. split; simpl; try done; auto.
  - rewrite ri_shutdown0. destruct (rt_close r); try done. by destruct (_ =? 0).
  - destruct (rt_close r); try done. destruct (Nat.eqb_spec (length cs + rt_leaked r) 0); [done|]. intros _. lia.
  - intros [H1 H2]. destruct (rt_close r) eqn:E; try done; try (by apply Hcs, ri_drained0).
    destruct (Nat.eqb_spec (length cs + rt_leaked r) 0); [|done]. destruct cs; [done|simpl in *; lia].
  - intros Ho. specialize (ri_open0 Ho). destruct (rt_close r); try done. by destruct (_ =? 0).
  - intros El Hc. apply ri_first0; [done|]. destruct (rt_close r); done.
  - intros El p <-. destruct (ri_settled0 El _ eq_refl) as [E|[E|E]]; rewrite E; auto. destruct (_ =? 0); auto.
  - rewrite <- ri_closed0. destruct (rt_close r); try done. destruct (_ =? 0); [|done]. split; by intros [? ?].
Qed.

Lemma invoke_enter_inv id o d a now r : runtime_inv r → runtime_inv (invoke_enter id o d a now r).
Proof.
  intros Hi. unfold invoke_enter. destruct (is_open r) eqn:Eo; [|done]. simpl.
  destruct (resolveDeadline o d now) as [deadline|e].
  - destruct (scope_start a (rt_shutdown r) deadline now) eqn:Es.
    + set (r1 := set_calls _ _ _ r).
      assert (E : end_call (rt_calls r) r1 = r).
      { unfold end_call, r1. simpl. rewrite Nat.sub_0_r. destruct r; simpl in *.
        destruct (Nat.eqb_spec rt_activeCalls0 0) as [->|]; [|done]. pose proof (ri_calls _ Hi) as Hc. simpl in Hc.
        destruct rt_close0; try done. specialize (Hc eq_refl). lia. }
      by rewrite E.
    + assert (Hsd : rt_shutdown r = false).
      { destruct (rt_shutdown r); [|done]. destruct (scope_start_shutdown a deadline now) as [? H]. congruence. }
      assert (Hc : rt_close r = PhNone).
      { destruct (ri_shutdown _ Hi) as [_ H]. unfold closing in H. destruct (rt_close r); [done|..];
          (specialize (H ltac:(done)); congruence). }
      unfold ensureLoaded. simpl. unfold is_open in Eo. destruct (rt_load r) eqn:El; [simpl; unfold is_open; simpl; rewrite Eo|..].
      all: destruct Hi; rewrite El in *; split; simpl; try done; rewrite ?Hc, ?El in *; try done; try lia; try (by intros [[] _]); try (by intros _ p <-; left).
      all: try (by rewrite ri_pool0); try (by rewrite loads_snoc, ri_loads0).
      all: split; [by intros []|done].
  - destruct Hi. by split; simpl; try lia.
Qed.

Lemma load_settled_inv result r r' : load_settled result r = Some r' → runtime_inv r → runtime_inv r'.
Proof.
  unfold load_settled. destruct (rt_load r) eqn:El; try done. intros [= <-] Hi.
  assert (Hfail : ∀ cause, runtime_inv (emit LoadFailure (set_error (Some (e_code (normalizeLoadError cause)))
          (set_load LdFailed (rt_pool r) (if is_open r then set_state RDegraded r else r))))).
  { intros cause. apply emit_inv; [done|]. apply set_error_inv. destruct Hi. rewrite El in *.
    destruct (is_open r) eqn:Eo; split; simpl; try done; rewrite ?ri_pool0; try done.
    - split; [|done]. rewrite ri_closed0. unfold is_open in Eo. intros E. by rewrite E in Eo.
    - intros _. by apply ri_open0. }
  destruct result as [u|cause]; [|apply Hfail]. destruct (rt_shutdown r) eqn:Es; [apply (Hfail (XWasm (wasmClosedError None)))|].
  apply emit_inv; [done|]. destruct Hi. rewrite El, Es in *.
  assert (Hc : rt_close r = PhNone) by (destruct ri_shutdown0 as [_ H]; destruct (rt_close r); try done; by specialize (H ltac:(done))).
  split; simpl; rewrite ?Hc, ?Es; try done; [by intros [[] _]|].
  split; [by intros []|done].
Qed.

Lemma attempt_inv id (f : runtime → runtime) r r' :
  match rt_load r with LdLoaded => if bool_decide (id ∈ rt_calls r) then Some (f r) else None | _ => None end = Some r' →
  (rt_load r = LdLoaded → id ∈ rt_calls r → runtime_inv (f r)) → runtime_inv r'.
Proof. destruct (rt_load r); try done. case_bool_decide; [|done]. intros [= <-] Hf. by apply Hf. Qed.

Lemma success_inv id r : runtime_inv r → rt_load r = LdLoaded → id ∈ rt_calls r →
  runtime_inv (emit CallSuccess (set_error None (set_state RReady r))).
Proof.
  intros Hi El Hin. apply emit_inv; [done|]. apply set_error_inv. destruct Hi. rewrite El in *.
  split; simpl; rewrite ?El; try done. split; [|done]. intros [ok Hok]. exfalso.
  rewrite ri_drained0 in Hin by (rewrite Hok; by split). by apply not_elem_of_nil in Hin.
Qed.

Lemma call_ends_inv id r r' : call_ends id r = Some r' → runtime_inv r → runtime_inv r'.
Proof.
  unfold call_ends. case_bool_decide as Hin; [|done]. intros [= <-] Hi. pose proof (drop_nat_perm _ _ Hin) as Hp.
  apply call_left_inv; [done| |].
  - rewrite (ri_active _ Hi). apply Permutation_length in Hp. simpl in Hp. lia.
  - intros E. rewrite E in Hin. by apply not_elem_of_nil in Hin.
Qed.

Lemma runtime_close_inv r : runtime_inv r → runtime_inv (runtime_close r).
Proof.
  intros Hi. unfold runtime_close. destruct (rt_close r) eqn:E; try done.
  assert (Hl : loads (rt_events r ++ [RuntimeClose]) = loads (rt_events r)) by (rewrite loads_snoc; simpl; lia).
  destruct Hi. rewrite E in *. split; simpl; try done; rewrite ?Hl; try done.
  - by destruct (_ =? 0).
  - destruct (Nat.eqb_spec (rt_activeCalls r) 0); [done|lia].
  - intros [_ H]. destruct (Nat.eqb_spec (rt_activeCalls r) 0); [|done]. destruct (rt_calls r); [done|simpl in *; lia].
  - by destruct (_ =? 0).
  - intros _ p <-. destruct (_ =? 0); auto.
  - split; [|done]. intros [ok Hok]. by destruct (_ =? 0).
Qed.

Lemma set_background_inv b r : runtime_inv r → runtime_inv (set_background b r).
Proof. intros []. by split. Qed.

Lemma trackBackground_inv id t r r' : trackBackground id t r = Some r' → runtime_inv r → runtime_inv r'.
Proof. unfold trackBackground. destruct (rt_load r); try done. destruct (_ && _); [|done]. intros [= <-]. apply set_background_inv. Qed.

Lemma background_settled_inv t r r' : background_settled t r = Some r' → runtime_inv r → runtime_inv r'.
Proof. unfold background_settled. case_bool_decide; [|done]. intros [= <-]. apply set_background_inv. Qed.

(** A phase that comes after [p]: past the calls, and final only with the state. *)
Definition next_phase (r r' : runtime) : Prop := ∃ p, past_calls p ∧
  ((∀ o, p ≠ PhDone o) ∧ r' = set_close p (rt_shutdown r) r ∨
   (∃ o, p = PhDone o) ∧ r' = set_state RClosed (set_close p (rt_shutdown r) r)).

Lemma next_phase_inv r r' : past_calls (rt_close r) → (∀ ok', rt_close r ≠ PhDone ok') → rt_load r ≠ LdPending →
  next_phase r r' → runtime_inv r → runtime_inv r'.
Proof.
  intros Hp Hn Hl (p & Hpp & Hr) Hi. pose proof (ri_drained _ Hi Hp) as Hd.
  assert (Hs : rt_shutdown r = true) by (by apply (ri_shutdown _ Hi), Hp).
  assert (Hns : rt_state r ≠ RClosed) by (intros Hc; apply (ri_closed _ Hi) in Hc as [ok' Hok]; by destruct (Hn ok')).
  assert (Hc : closing (rt_close r)) by apply Hp. destruct Hi.
  destruct Hr as [[Hnd ->]|[[o ->] ->]]; split; simpl; rewrite ?Hs; try done.
  - split; [|done]. intros _. apply Hpp.
  - intros ->. by destruct Hpp.
  - intros _. apply Hpp.
  - intros El _. by apply ri_first0.
  - split; [intros [o Ho]; by destruct (Hnd o)|done].
  - split; [done|]. intros _. by exists o.
Qed.

Lemma past_load r : runtime_inv r → past_calls (rt_close r) → rt_close r ≠ PhLoad → rt_load r ≠ LdPending.
Proof. intros Hi [H1 H2] H3 El. by destruct (ri_settled _ Hi El _ eq_refl) as [?|[?|?]]. Qed.

Lemma close_step_next r r' : close_step r = Some r' → runtime_inv r →
  past_calls (rt_close r) ∧ (∀ ok', rt_close r ≠ PhDone ok') ∧ rt_load r ≠ LdPending ∧ next_phase r r'.
Proof.
  unfold close_step. intros H Hi. destruct (rt_close r) as [| | |aw| |ok1|ok1] eqn:E; try done.
  - destruct (rt_load r) eqn:El; try done; injection H as <-; repeat (split; [done|]); eexists; split; try (by left; split; [|reflexivity]); done.
  - destruct (forallb _ _); [|done]. injection H as <-. repeat (split; [done|]). split; [apply past_load; rewrite ?E; done|].
    eexists. split; [|by left; split; [|reflexivity]; by destruct (rt_pool r)]. by destruct (rt_pool r).
Qed.

Lemma close_settled_next ok r r' : close_settled ok r = Some r' → runtime_inv r →
  past_calls (rt_close r) ∧ (∀ ok', rt_close r ≠ PhDone ok') ∧ rt_load r ≠ LdPending ∧ next_phase r r'.
Proof.
  unfold close_settled. intros H Hi. destruct (rt_close r) as [| | |aw| |ok1|ok1] eqn:E; try done; injection H as <-; repeat (split; [done|]);
    (split; [apply past_load; rewrite ?E; done|]).
  - eexists. split; [|by left; split; [|reflexivity]]. done.
  - eexists. split; [|by right; split; [by eexists|reflexivity]]. done.
Qed.

Lemma runtime_step_inv r ev r' : runtime_inv r → runtime_step r ev = Some r' → runtime_inv r'.
Proof.
  intros Hi. destruct ev as [id o d a now| |result|id|id e|id| |id t|t| |ok]; simpl.
  - case_bool_decide; [done|]. intros [= <-]. by apply invoke_enter_inv.
  - intros [= <-]. unfold preload. destruct (is_open r); [by apply ensureLoaded_inv|done].
  - intros H. by eapply load_settled_inv.
  - intros H. eapply (attempt_inv id (λ r, emit CallSuccess (set_error None (set_state RReady r)))); [exact H|].
    intros. by eapply success_inv.
  - intros H. eapply (attempt_inv id (λ r, emit CallFailure (set_error (Some (e_code e)) r))); [exact H|]. intros _ _. apply emit_inv; [done|]. by apply set_error_inv.
  - intros H. by eapply call_ends_inv.
  - intros [= <-]. by apply runtime_close_inv.
  - intros H. by eapply trackBackground_inv.
  - intros H. by eapply background_settled_inv.
  - intros H. destruct (close_step_next _ _ H Hi) as (? & ? & ? & ?). by eapply next_phase_inv.
  - intros H. destruct (close_settled_next _ _ _ H Hi) as (? & ? & ? & ?). by eapply next_phase_inv.
Qed.

Lemma runtime_run_inv evs r : runtime_run new_runtime evs r → runtime_inv r.
Proof.
  apply run_invariant; [intros s l s' ??; by eapply runtime_step_inv|].
  split; simpl; try done; try (by intros [[] _]); split; try done. by intros [].
Qed.
End invariant.

(** ** What a runtime promises *)

(** C5. In every history of calls, loads and closing: the bundle is loaded at most once, and
    [health().verified] holds exactly after a load that succeeded; once [close] was called no
    invocation gets past its first check (it either is refused or ends at once), and none is
    in flight when the pool starts to close; a closed runtime stays closed and refuses every
    call. *)
Theorem runtime_lifecycle evs r : runtime_run new_runtime evs r →
  loads (rt_events r) ≤ 1 ∧
  (∀ n c, hl_verified (health n c r) = true ↔ rt_load r = LdLoaded) ∧
  (rt_close r ≠ PhNone → ∀ id o d a now, rt_calls (invoke_enter id o d a now r) = rt_calls r) ∧
  (past_calls (rt_close r) → rt_calls r = []) ∧
  (rt_state r = RClosed → ∀ ev r', runtime_step r ev = Some r' → rt_state r' = RClosed ∧ rt_calls r' = []).
Proof.
  intros Hi%runtime_run_inv. split; [rewrite (ri_loads _ Hi); destruct (rt_load r); lia|]. split; [|split; [|split]].
  - intros n c. unfold health. destruct (if rt_pool r then _ else _) as [[? ?] ?]. apply (ri_pool _ Hi).
  - intros Hc id o d a now. unfold invoke_enter. destruct (is_open r); [|done]. simpl.
    destruct (resolveDeadline o d now) as [deadline|]; [|done]. rewrite (proj2 (ri_shutdown _ Hi) Hc).
    destruct (scope_start_shutdown a deadline now) as [? ->]. unfold end_call. simpl. by repeat case_match.
  - apply (ri_drained _ Hi).
  - intros Hs ev r' H. assert (Hi' := runtime_step_inv _ _ _ Hi H).
    pose proof (proj2 (ri_closed _ Hi) Hs) as [ok Hok].
    assert (Hd : ∃ ok', rt_close r' = PhDone ok').
    { assert (Hcs : rt_calls r = []) by (apply (ri_drained _ Hi); by rewrite Hok).
      assert (Ho : is_open r = false) by (unfold is_open; by rewrite Hs). exists ok.
      destruct ev as [id o d a now| |result|id|id e|id| |id t|t| |ok']; simpl in H.
      - case_bool_decide; [done|]. injection H as <-. unfold invoke_enter. by rewrite Ho.
      - injection H as <-. unfold preload. by rewrite Ho.
      - unfold load_settled in H. destruct (rt_load r) eqn:El; try done.
        by destruct (ri_settled _ Hi El _ Hok) as [?|[?|?]].
      - unfold attempt_success in H. rewrite Hcs in H. by destruct (rt_load r).
      - unfold attempt_failure in H. rewrite Hcs in H. by destruct (rt_load r).
      - unfold call_ends in H. by rewrite Hcs in H.
      - injection H as <-. unfold runtime_close. by rewrite Hok.
      - unfold trackBackground in H. rewrite Hcs in H. by destruct (rt_load r).
      - unfold background_settled in H. case_bool_decide; [|done]. by injection H as <-.
      - unfold close_step in H. by rewrite Hok in H.
      - unfold close_settled in H. by rewrite Hok in H. }
    split; [by apply (ri_closed _ Hi')|]. destruct Hd as [ok' Hok']. apply (ri_drained _ Hi'). by rewrite Hok'.
Qed.

(** How far [close] is; it never goes back. *)
Definition phase_rank (p : close_phase) : nat :=
  match p with PhNone => 0 | PhCalls => 1 | PhLoad => 2 | PhBackground _ => 3 | PhPool => 4 | PhAdapters _ => 5 | PhDone _ => 6 end.

Definition is_close_event (ev : runtime_event) : bool := match ev with RCloseStep | RCloseSettled _ => true | _ => false end.

Lemma end_call_rank cs r : phase_rank (rt_close r) ≤ phase_rank (rt_close (end_call cs r)).
Proof. unfold end_call. simpl. destruct (_ =? 0); [|done]. destruct (rt_close r) eqn:E; simpl; rewrite ?E; simpl; lia. Qed.

Lemma ensureLoaded_close r : rt_close (ensureLoaded r) = rt_close r.
Proof. unfold ensureLoaded. destruct (rt_load r); try done. by destruct (is_open r). Qed.

(** An event moves [close] on, or leaves it where it is. *)
Lemma step_rank r ev r' : runtime_step r ev = Some r' →
  phase_rank (rt_close r) + (if is_close_event ev then 1 else 0) ≤ phase_rank (rt_close r').
Proof.
  intros H. destruct ev as [id o d a now| |result|id|id e|id| |id t|t| |ok]; cbn [runtime_step is_close_event] in *; rewrite ?Nat.add_0_r.
  - case_bool_decide; [done|]. injection H as <-. unfold invoke_enter. destruct (is_open r); [|done]. cbn [negb].
    destruct (resolveDeadline o d now); [|done]. destruct (scope_start _ _ _ _).
    + apply (end_call_rank _ (set_calls _ _ _ r)).
    + by rewrite ensureLoaded_close.
  - injection H as <-. unfold preload. destruct (is_open r); [by rewrite ensureLoaded_close|done].
  - unfold load_settled in H. destruct (rt_load r); try done. injection H as <-. by repeat case_match.
  - unfold attempt_success in H. repeat case_match; try done. by injection H as <-.
  - unfold attempt_failure in H. repeat case_match; try done. by injection H as <-.
  - unfold call_ends in H. case_bool_decide; [|done]. injection H as <-. apply end_call_rank.
  - injection H as <-. unfold runtime_close. destruct (rt_close r) eqn:E; rewrite ?E; try done. simpl. lia.
  - unfold trackBackground in H. repeat case_match; try done. by injection H as <-.
  - unfold background_settled in H. case_match; [|done]. by injection H as <-.
  - unfold close_step in H. repeat case_match; try done; injection H as <-; simpl; lia.
  - unfold close_settled in H. repeat case_match; try done; injection H as <-; simpl; lia.
Qed.

Lemma close_event_rank r ev r' : runtime_step r ev = Some r' → is_close_event ev = true → 2 ≤ phase_rank (rt_close r).
Proof. destruct ev; try done; cbn [runtime_step]; unfold close_step, close_settled; destruct (rt_close r); try done; simpl; lia. Qed.

Lemma run_rank evs r r' : runtime_run r evs r' → phase_rank (rt_close r) ≤ phase_rank (rt_close r') ∧
  2 `max` phase_rank (rt_close r) + count is_close_event evs ≤ 2 `max` phase_rank (rt_close r').
Proof.
  induction 1 as [s|s ls s' l s'' _ [IH1 IH2] H]; [simpl; lia|]. pose proof (close_event_rank _ _ _ H) as H2.
  apply step_rank in H. rewrite count_app. simpl. destruct (is_close_event l); [specialize (H2 eq_refl)|]; lia.
Qed.

(** What [close] waits for in a state, and that it is all it waits for: the event named lets it
    go on. *)
Definition close_waits (r : runtime) : Prop :=
  match rt_close r with
  | PhNone => False
  | PhCalls => rt_calls r ≠ [] ∧ ∀ id, rt_calls r = [id] → ∃ r', call_ends id r = Some r' ∧ rt_close r' = PhLoad
  | PhLoad => rt_load r = LdPending ∨ ∃ r', close_step r = Some r' ∧ rt_close r' = PhBackground (rt_background r)
  | PhBackground awaited => (∃ t, t ∈ awaited ∧ t ∈ rt_background r) ∨
      ∃ r', close_step r = Some r' ∧ rt_close r' = if rt_pool r then PhPool else PhAdapters true
  | PhPool => rt_pool r = true ∧ ∀ ok, ∃ r', close_settled ok r = Some r' ∧ rt_close r' = PhAdapters ok
  | PhAdapters ok1 => ∀ ok, ∃ r', close_settled ok r = Some r' ∧ rt_close r' = PhDone (ok1 && ok) ∧ rt_state r' = RClosed
  | PhDone _ => rt_state r = RClosed
  end.

(** The pool's close is awaited only when there is a pool, which stays. *)
Definition pool_there (r : runtime) : Prop := rt_close r = PhPool → rt_pool r = true.

Lemma end_call_pool cs r : rt_pool (end_call cs r) = rt_pool r ∧ (rt_close (end_call cs r) = PhPool → rt_close r = PhPool).
Proof. unfold end_call. simpl. destruct (_ =? 0); [|done]. by destruct (rt_close r) eqn:E; simpl; rewrite ?E. Qed.

Lemma ensureLoaded_pool r : rt_pool (ensureLoaded r) = rt_pool r.
Proof. unfold ensureLoaded. destruct (rt_load r); try done. by destruct (is_open r). Qed.

Lemma step_pool r ev r' : runtime_step r ev = Some r' → pool_there r → pool_there r'.
Proof.
  unfold pool_there. intros H Hp. destruct ev as [id o d a now| |result|id|id e|id| |id t|t| |ok]; cbn [runtime_step] in *.
  - case_bool_decide; [done|]. injection H as <-. unfold invoke_enter. destruct (is_open r); [|done]. cbn [negb].
    destruct (resolveDeadline o d now); [|done]. destruct (scope_start _ _ _ _).
    + destruct (end_call_pool (rt_calls r) (set_calls (S (rt_activeCalls r)) (rt_calls r) (rt_leaked r) r)) as [E1 E2].
      cbn [rt_calls set_calls] in *. rewrite E1. intros H'%E2. by apply Hp.
    + by rewrite ensureLoaded_close, ensureLoaded_pool.
  - injection H as <-. unfold preload. destruct (is_open r); [by rewrite ensureLoaded_close, ensureLoaded_pool|done].
  - unfold load_settled in H. destruct (rt_load r); try done. injection H as <-. by repeat case_match.
  - unfold attempt_success in H. repeat case_match; try done. by injection H as <-.
  - unfold attempt_failure in H. repeat case_match; try done. by injection H as <-.
  - unfold call_ends in H. case_bool_decide; [|done]. injection H as <-. destruct (end_call_pool (drop_nat id (rt_calls r)) r) as [-> E]. auto.
  - injection H as <-. unfold runtime_close. destruct (rt_close r) eqn:E; rewrite ?E; try done. simpl. by destruct (_ =? 0).
  - unfold trackBackground in H. repeat case_match; try done. by injection H as <-.
  - unfold background_settled in H. case_match; [|done]. by injection H as <-.
  - unfold close_step in H. repeat case_match; try done; injection H as <-; done.
  - unfold close_settled in H. repeat case_match; try done; injection H as <-; done.
Qed.

Lemma pool_phase evs r : runtime_run new_runtime evs r → pool_there r.
Proof. apply run_invariant; [|done]. intros s ev s' Hs H. by eapply step_pool. Qed.

(** C6. Closing never gets stuck.  In every history after [close], when no invocation was lost
    before its [try]: [close] is finished, or can go on at once, or waits for a call in flight (the
    last one to end lets it go on), for the load, for a dispatch or adapter execution that was
    running when it looked, for the pool's close or for the adapters' close, whose settling lets it
    go on, with the adapters' it is closed.  It never goes back, and takes at most four steps. *)
Theorem close_completes evs r : runtime_run new_runtime evs r → rt_close r ≠ PhNone → rt_leaked r = 0 →
  close_waits r ∧
  ∀ later r', runtime_run r later r' → phase_rank (rt_close r) ≤ phase_rank (rt_close r') ∧
    count is_close_event later ≤ 4.
Proof.
  intros Hrun Hc Hl. pose proof (runtime_run_inv _ _ Hrun) as Hi. pose proof (pool_phase _ _ Hrun) as Hp. split.
  - pose proof (ri_active _ Hi) as Ha. rewrite Hl, Nat.add_0_r in Ha. unfold close_waits.
    destruct (rt_close r) as [| | |aw| |ok1|ok1] eqn:E.
    + done.
    + pose proof (ri_calls _ Hi E) as H0. split; [intros Ec; rewrite Ec in Ha; simpl in Ha; lia|].
      intros id Ec. unfold call_ends. rewrite Ec, bool_decide_true by (constructor). eexists. split; [done|].
      rewrite Ec in Ha. simpl in Ha. unfold end_call. simpl. rewrite Ha. simpl. by rewrite E.
    + unfold close_step. rewrite E. destruct (rt_load r); [right|by left|right|right]; by eexists.
    + unfold close_step. rewrite E. destruct (forallb _ aw) eqn:Ef; [right; by eexists|left].
      apply not_true_iff_false in Ef. destruct (decide (Exists (λ t, t ∈ rt_background r) aw)) as [H|H].
      { apply Exists_exists in H as (t & ? & ?). by exists t. }
      destruct Ef. apply forallb_forall. intros t Ht%list_elem_of_In. apply bool_decide_eq_true. intros Hin. apply H, Exists_exists. by exists t.
    + split; [by apply Hp|]. intros ok. unfold close_settled. rewrite E. by eexists.
    + intros ok. unfold close_settled. rewrite E. by eexists.
    + apply (ri_closed _ Hi). by eexists.
  - intros later r' [H1 H2]%run_rank. split; [done|].
    assert (phase_rank (rt_close r') ≤ 6) by (destruct (rt_close r'); simpl; lia). lia.
Qed.

(** ** Concrete histories *)

Definition runtime_exec (evs : list runtime_event) : option runtime :=
  foldl (λ o ev, r ← o; runtime_step r ev) (Some new_runtime) evs.

Lemma runtime_exec_run evs : ∀ r, runtime_exec evs = Some r → runtime_run new_runtime evs r.
Proof. apply exec_run. Qed.

Definition demo_history : list runtime_event :=
  [REnter 1 demo_options None false (num_of_Z 0); RLoad (Ok tt); RFailure 1 (wasmInvocationError [] None);
   RClose; REnter 2 demo_options None false (num_of_Z 1); REnd 1; RCloseStep; RCloseStep;
   RCloseSettled true; RCloseSettled true].
Definition demo_runtime (k : nat) : runtime := default new_runtime (runtime_exec (take k demo_history)).

Lemma demo_history_run k : (k <= 10)%nat → runtime_run new_runtime (take k demo_history) (demo_runtime k).
Proof.
  intros Hk. apply runtime_exec_run. unfold demo_runtime. do 11 (destruct k as [|k]; [vm_compute; reflexivity|]). lia.
Qed.

Lemma runtime_lifecycle_witness : rt_state (demo_runtime 10) = RClosed ∧ loads (rt_events (demo_runtime 10)) ≤ 1.
Proof.
  split; [vm_compute; reflexivity|]. exact (proj1 (runtime_lifecycle _ _ (demo_history_run 10 ltac:(lia)))).
Defined.

(** While the answer of a call cancelled by [close] is still to come, [close] waits for it. *)
Definition background_history : list runtime_event :=
  [REnter 1 demo_options None false (num_of_Z 0); RLoad (Ok tt); RTrack 1 7; RClose; REnd 1; RCloseStep].
Definition background_runtime : runtime := default new_runtime (runtime_exec background_history).

Lemma close_completes_witness : close_waits background_runtime ∧ rt_background background_runtime = [7] ∧
  ∀ later r', runtime_run background_runtime later r' → count is_close_event later ≤ 4.
Proof.
  assert (runtime_run new_runtime background_history background_runtime) as H by (apply runtime_exec_run; vm_compute; reflexivity).
  destruct (close_completes _ _ H) as [H1 H2]; [vm_compute; congruence|reflexivity|]. split; [exact H1|]. split; [reflexivity|].
  intros later r' Hr. apply (H2 later r' Hr).
Defined.

(** An invalid timeout throws after the call was counted and before the [try]: the count is
    never lowered again. *)
Definition invalid_timeout : WasmCallOptions :=
  {| o_timeoutMs := Some S754_nan; o_deadline := None; o_target := None; o_requestId := None;
     o_cancellationToken := None; o_requiredCapabilities := None; o_allowRetry := false |}.

Lemma step_keeps_leak r ev r' : runtime_inv r → runtime_step r ev = Some r' → 0 < rt_leaked r →
  rt_close r = PhCalls → 0 < rt_leaked r' ∧ rt_close r' = PhCalls.
Proof.
  intros Hi H Hl Hc. assert (Hi' := runtime_step_inv _ _ _ Hi H).
  assert (Hend : ∀ cs r1, rt_leaked r1 = rt_leaked r → rt_close r1 = PhCalls →
    rt_leaked (end_call cs r1) = rt_leaked r ∧ (rt_activeCalls (end_call cs r1) = 0 ∨ rt_close (end_call cs r1) = PhCalls)).
  { intros cs r1 E1 E2. unfold end_call. simpl. rewrite E2.
    destruct (Nat.eqb_spec (rt_activeCalls r1 - 1) 0) as [E|]; simpl; rewrite ?E; auto. }
  enough (0 < rt_leaked r' ∧ (rt_activeCalls r' = 0 ∨ rt_close r' = PhCalls)) as [? [E|?]];
    [pose proof (ri_active _ Hi'); lia|done|].
  destruct ev as [id o d a now| |result|id|id e|id| |id t|t| |ok']; simpl in H.
  - case_bool_decide; [done|]. injection H as <-. unfold invoke_enter. destruct (is_open r); [|by auto]. simpl.
    destruct (resolveDeadline o d now) as [deadline|]; [|simpl; split; [lia|by right]].
    destruct (scope_start _ _ _ _).
    + by destruct (Hend (rt_calls r) (set_calls (S (rt_activeCalls r)) (rt_calls r) (rt_leaked r) r)) as [-> ?].
    + unfold ensureLoaded. simpl. by repeat case_match; auto.
  - injection H as <-. unfold preload, ensureLoaded. repeat case_match; auto.
  - unfold load_settled in H. repeat case_match; try done; injection H as <-; auto.
  - unfold attempt_success in H. repeat case_match; try done; injection H as <-; auto.
  - unfold attempt_failure in H. repeat case_match; try done; injection H as <-; auto.
  - unfold call_ends in H. case_bool_decide; [|done]. injection H as <-.
    by destruct (Hend (drop_nat id (rt_calls r)) r eq_refl Hc) as [-> ?].
  - injection H as <-. unfold runtime_close. rewrite Hc. auto.
  - unfold trackBackground in H. repeat case_match; try done; injection H as <-; auto.
  - unfold background_settled in H. case_match; [|done]. injection H as <-. auto.
  - unfold close_step in H. by rewrite Hc in H.
  - unfold close_settled in H. by rewrite Hc in H.
Qed.

Lemma leaked_call_blocks_close : ∃ r,
  runtime_exec [REnter 1 invalid_timeout None false (num_of_Z 0); RClose] = Some r ∧ rt_calls r = [] ∧
  ∀ evs r', runtime_run r evs r' → rt_close r' = PhCalls ∧ rt_state r' ≠ RClosed.
Proof.
  eexists. split; [vm_compute; reflexivity|]. split; [done|]. intros evs r' Hrun.
  match type of Hrun with runtime_run ?r _ _ => assert (Hi : runtime_inv r) by (eapply runtime_run_inv, runtime_exec_run;
    instantiate (1 := [REnter 1 invalid_timeout None false (num_of_Z 0); RClose]); vm_compute; reflexivity) end.
  assert (H : runtime_inv r' ∧ 0 < rt_leaked r' ∧ rt_close r' = PhCalls).
  { revert Hrun. apply (run_invariant _ (λ r, runtime_inv r ∧ 0 < rt_leaked r ∧ rt_close r = PhCalls)).
    - intros s ev s' (Hs & Hl & Hc) Hst. split; [by eapply runtime_step_inv|by eapply step_keeps_leak].
    - split; [done|]. simpl. split; [lia|done]. }
  destruct H as (Hi' & _ & Hc). split; [done|]. intros Hs. apply (ri_closed _ Hi') in Hs as [ok Hok]. congruence.
Qed.

(** A call whose answer was already accepted when [close] is called sets the state back. *)
Lemma ready_while_closing : ∃ r,
  runtime_exec [REnter 1 demo_options None false (num_of_Z 0); RLoad (Ok tt); RClose; RSuccess 1] = Some r ∧
  rt_shutdown r = true ∧ rt_state r = RReady.
Proof. eexists. split_and!; vm_compute; reflexivity. Qed.
