(* ===== verification/Trace.v ===== *)
(** * Trace context

    The W3C trace context of config/server/http/context.ts and telemetry/mod.ts (traceparent and
    tracestate), and the span attributes of telemetry/grpc.ts.  Random bytes are an argument: the
    bytes of each successive draw. *)

From S2P Require Export Effect JsString Regex.
Local Open Scope nat_scope.

(** ** traceparent *)

Definition hex_lower (c : N) : bool := is_digit c || in_range 97 102 c.
Definition r_hex (n : nat) : regex := RRep n (RClass hex_lower).

Definition r_traceparent : regex := r_hex 2 ⋅ RChar 45 ⋅ r_hex 32 ⋅ RChar 45 ⋅ r_hex 16 ⋅ RChar 45 ⋅ r_hex 2.

(** The groups of a match are at fixed places. *)
Definition isValidTraceparent (value : jstr) : bool :=
  if matches r_traceparent value then
    let version := slice value 0 2 in let traceId := slice value 3 35 in let parentId := slice value 36 52 in
    negb (bool_decide (version = js "ff")) && negb (bool_decide (traceId = replicate 32 48%N)) &&
    negb (bool_decide (parentId = replicate 16 48%N))
  else false.

(** [/^0+$/]. *)
Definition all_zero (s : jstr) : bool := matches (RPlus (RChar 48)) s.

(** [do { draw } while (/^0+$/.test(value))]: [draw k] is the k-th array of [getRandomValues]; the
    fuel is the number of draws. *)
Fixpoint randomNonZeroHex (fuel : nat) (size : nat) (draw : nat → list N) : option jstr :=
  match fuel with
  | O => None
  | S fuel =>
      let value := flat_map (hex_byte false) (take size (draw 0)) in
      if all_zero value then randomNonZeroHex fuel size (λ k, draw (S k)) else Some value
  end.

(** The draws of the trace id come before those of the parent id. *)
Definition newTraceparent (fuel : nat) (draw draw' : nat → list N) : option jstr :=
  match randomNonZeroHex fuel 16 draw, randomNonZeroHex fuel 8 draw' with
  | Some traceId, Some parentId => Some (js "00-" ++ traceId ++ js "-" ++ parentId ++ js "-01")
  | _, _ => None
  end.

(** ** Span contexts (telemetry/mod.ts, telemetry/internal.ts) *)

Record ForgeSpanContext := { sc_traceId : jstr; sc_spanId : jstr; sc_traceFlags : N; sc_isRemote : bool }.

Definition isValidSpanContext (c : ForgeSpanContext) : bool :=
  matches (r_hex 32) (sc_traceId c) && negb (all_zero (sc_traceId c)) &&
  matches (r_hex 16) (sc_spanId c) && negb (all_zero (sc_spanId c)).

Fixpoint hex_text (fuel : nat) (v : N) (acc : jstr) : jstr :=
  match fuel with
  | O => acc
  | S fuel => let acc' := hex_digit false (v mod 16) :: acc in if (v <? 16)%N then acc' else hex_text fuel (v / 16) acc'
  end.
(** [flags.toString(16).padStart(2, "0")]. *)
Definition flags_text (flags : N) : jstr :=
  let s := hex_text (S (N.size_nat flags)) flags [] in replicate (2 - length s) 48%N ++ s.

Definition traceparent (c : option ForgeSpanContext) : option jstr :=
  match c with
  | Some c => if isValidSpanContext c
              then Some (js "00-" ++ sc_traceId c ++ js "-" ++ sc_spanId c ++ js "-" ++ flags_text (sc_traceFlags c)) else None
  | None => None
  end.

(** The active span, if any, gives its context when that is valid. *)
Definition activeSpanContext (span : option ForgeSpanContext) : option ForgeSpanContext :=
  match span with Some c => if isValidSpanContext c then Some c else None | None => None end.

(** ** tracestate *)

Definition key_char (c : N) : bool := is_lower c || is_digit c || (c =? 95)%N || (c =? 45)%N.

(** [/^[first][a-z0-9_\-]{0,most}$/]. *)
Definition key_part (first : N → bool) (most : nat) (s : jstr) : bool :=
  match s with c :: t => first c && forallb key_char t && (length t <=? most) | [] => false end.

(** The two patterns; the second has one at sign, which no class contains. *)
Definition isValidTracestateKey (key : jstr) : bool :=
  key_part is_lower 255 key ||
  match indexOf key 64 with
  | Some i => key_part (λ c, is_lower c || is_digit c) 240 (take i key) && key_part is_lower 13 (drop (S i) key)
  | None => false
  end.

Definition value_char (c : N) : bool := in_range 32 43 c || in_range 45 60 c || in_range 62 126 c.

Definition isValidTracestateValue (value : jstr) : bool :=
  (0 <? length value) && (length value <=? 256) && negb (bool_decide (head value = Some 32%N)) &&
  negb (bool_decide (last value = Some 32%N)) && forallb value_char value.

(** One member of the list, with the keys seen before it. *)
Definition check_member (keys : list jstr) (rawMember : jstr) : option (list jstr) :=
  let member := trim rawMember in
  match indexOf member 61, lastIndexOf member 61 with
  | Some separator, Some final =>
      let key := take separator member in
      let itemValue := drop (S separator) member in
      if (separator =? 0) || negb (separator =? final) then None
      else if negb (isValidTracestateKey key) || negb (isValidTracestateValue itemValue) || bool_decide (key ∈ keys) then None
      else Some (keys ++ [key])
  | _, _ => None
  end.

Fixpoint check_members (keys : list jstr) (members : list jstr) : bool :=
  match members with
  | [] => true
  | m :: members => match check_member keys m with Some keys => check_members keys members | None => false end
  end.

Definition isValidTracestate (value : jstr) : bool :=
  if (length value =? 0) || (512 <? length value) || negb (bool_decide (trim value = value)) then false
  else
    let members := split_on 44 value in
    if 32 <? length members then false else check_members [] members.

(** ** telemetry/grpc.ts: names and codes *)

(** [s || undefined]. *)
Definition non_empty_text (s : jstr) : option jstr := if bool_decide (s = []) then None else Some s.
Definition or_text (s : jstr) (other : string) : jstr := if bool_decide (s = []) then js other else s.

Definition splitMethod (method : jstr) : option jstr * jstr :=
  let normalized := if startsWith method (js "/") then drop 1 method else method in
  match lastIndexOf normalized 47 with
  | None => (None, or_text normalized "unknown")
  | Some separator => (non_empty_text (take separator normalized), or_text (drop (S separator) normalized) "unknown")
  end.

Definition rpcAttributes (operation : jstr) (service : option jstr) : list (jstr * jstr) :=
  [(js "rpc.system", js "grpc"); (js "rpc.method", operation)] ++
  match service with Some (c :: s) => [(js "rpc.service", c :: s)] | _ => [] end.

(** * Properties *)

Lemma lang_rep n p s : lang (RRep n (RClass p)) s ↔ length s = n ∧ Forall (λ c, p c = true) s.
Proof.
  unfold RRep. revert s; induction n as [|n IH]; intros s; simpl.
  - rewrite lang_eps_inv. destruct s; simpl; split; [by split|done|done|by intros [? _]].
  - rewrite lang_cat. split.
    + intros (u & v & -> & (c & -> & Hc)%lang_class & [Hl Hv]%IH). simpl. split; [lia|by constructor].
    + intros [Hl Hs]. destruct s as [|c s]; [done|]. simpl in Hl. inversion Hs; subst. exists [c], s.
      split_and!; [done|apply lang_class; by exists c|apply IH; split; [lia|done]].
Qed.

Lemma r_hex_spec n s : matches (r_hex n) s = true ↔ length s = n ∧ Forall (λ c, hex_lower c = true) s.
Proof. rewrite matches_lang. apply lang_rep. Qed.

(** The wire format, read part by part. *)
Definition wire (version traceId parentId flags : jstr) : jstr :=
  version ++ [45%N] ++ traceId ++ [45%N] ++ parentId ++ [45%N] ++ flags.

Definition hex_of (n : nat) (s : jstr) : Prop := length s = n ∧ Forall (λ c, hex_lower c = true) s.

Lemma lang_sep r c r' w : lang (r ⋅ RChar c ⋅ r') w ↔ ∃ u v, w = u ++ [c] ++ v ∧ lang r u ∧ lang r' v.
Proof.
  unfold RChar. rewrite lang_cat. split.
  - intros (u & ? & -> & Hu & (? & v & -> & (? & -> & <-%N.eqb_eq)%lang_class & Hv)%lang_cat). by exists u, v.
  - intros (u & v & -> & Hu & Hv). exists u, ([c] ++ v). split_and!; [done..|]. apply lang_cat. exists [c], v.
    split_and!; [done| |done]. apply lang_class. exists c. by rewrite N.eqb_refl.
Qed.

Lemma r_traceparent_spec v : matches r_traceparent v = true ↔
  ∃ ver t p f, v = wire ver t p f ∧ hex_of 2 ver ∧ hex_of 32 t ∧ hex_of 16 p ∧ hex_of 2 f.
Proof.
  rewrite matches_lang. unfold r_traceparent, hex_of. rewrite lang_sep. split.
  - intros (ver & ? & -> & ?%lang_rep & (t & ? & -> & ?%lang_rep & (p & f & -> & ?%lang_rep & ?%lang_rep)%lang_sep)%lang_sep).
    by exists ver, t, p, f.
  - intros (ver & t & p & f & -> & ? & ? & ? & ?). exists ver, (t ++ [45%N] ++ p ++ [45%N] ++ f).
    split_and!; [done|by apply lang_rep|]. apply lang_sep. exists t, (p ++ [45%N] ++ f). split_and!; [done|by apply lang_rep|].
    apply lang_sep. exists p, f. split_and!; [done|by apply lang_rep..].
Qed.

Lemma slice_app a b c i j : i = length a → j = length a + length b → slice (a ++ b ++ c) i j = b.
Proof.
  intros -> ->. unfold slice. rewrite drop_app_length. replace (length a + length b - length a) with (length b) by lia. apply take_app_length.
Qed.

Lemma wire_slices ver t p f : length ver = 2 → length t = 32 → length p = 16 →
  slice (wire ver t p f) 0 2 = ver ∧ slice (wire ver t p f) 3 35 = t ∧ slice (wire ver t p f) 36 52 = p.
Proof.
  intros Hv Ht Hp. unfold wire. split_and!.
  - by apply (slice_app []).
  - rewrite (assoc_L (++) ver). apply slice_app; rewrite !length_app; simpl; lia.
  - replace (ver ++ [45%N] ++ t ++ [45%N] ++ p ++ [45%N] ++ f) with ((ver ++ [45%N] ++ t ++ [45%N]) ++ p ++ [45%N] ++ f)
      by by rewrite <- !(assoc_L (++)).
    apply slice_app; rewrite !length_app; simpl; lia.
Qed.

(** What [isValidTraceparent] accepts. *)
Lemma isValidTraceparent_iff v : isValidTraceparent v = true ↔
  ∃ ver t p f, v = wire ver t p f ∧ hex_of 2 ver ∧ hex_of 32 t ∧ hex_of 16 p ∧ hex_of 2 f ∧
    ver ≠ js "ff" ∧ t ≠ replicate 32 48%N ∧ p ≠ replicate 16 48%N.
Proof.
  unfold isValidTraceparent. destruct (matches r_traceparent v) eqn:E.
  - apply r_traceparent_spec in E as (ver & t & p & f & -> & Hv & Ht & Hp & Hf).
    destruct (wire_slices ver t p f (proj1 Hv) (proj1 Ht) (proj1 Hp)) as (E1 & E2 & E3). rewrite E1, E2, E3. split.
    + intros H. bool_inv. by exists ver, t, p, f.
    + intros (ver' & t' & p' & f' & E & Hv' & Ht' & Hp' & Hf' & ? & ? & ?).
      destruct (wire_slices ver' t' p' f' (proj1 Hv') (proj1 Ht') (proj1 Hp')) as (E1' & E2' & E3'). rewrite E in E1, E2, E3.
      assert (ver = ver' ∧ t = t' ∧ p = p') as (-> & -> & ->) by (split_and!; congruence).
      by rewrite !bool_decide_false by done.
  - split; [done|]. intros (ver & t & p & f & -> & Hv & Ht & Hp & Hf & _).
    assert (matches r_traceparent (wire ver t p f) = true) by (apply r_traceparent_spec; by exists ver, t, p, f). congruence.
Qed.

Lemma all_zero_iff s : all_zero s = true ↔ s ≠ [] ∧ Forall (λ c, c = 48%N) s.
Proof.
  unfold all_zero. rewrite matches_lang. unfold RPlus. rewrite lang_cat. split.
  - intros (u & v & -> & (c & -> & Hc)%lang_class & Hv). split; [done|]. constructor; [exact (eq_sym (proj1 (N.eqb_eq 48 c) Hc))|].
    apply lang_alphabet in Hv. eapply Forall_impl; [exact Hv|]. intros x Hx. exact (eq_sym (proj1 (N.eqb_eq 48 x) Hx)).
  - intros [Hne Hs]. destruct s as [|c s]; [done|]. inversion Hs as [|? ? -> Hs']; subst. exists [48%N], s.
    split_and!; [done|by apply lang_class; exists 48%N|]. apply matches_lang. clear -Hs'.
    induction Hs' as [|c s -> _ IH]; [done|]. change (48%N :: s) with ([48%N] ++ s). by apply matches_star_app.
Qed.

Lemma not_zero_replicate n s : length s = n → (0 < n) → all_zero s = false ↔ s ≠ replicate n 48%N.
Proof.
  intros Hl Hn. rewrite <- not_true_iff_false, all_zero_iff. split.
  - intros H ->. apply H. split; [destruct n; [lia|done]|]. apply Forall_replicate; done.
  - intros H [_ Hz]. apply H. rewrite <- Hl. clear -Hz. induction Hz as [|c s -> _ IH]; simpl; [done|by f_equal].
Qed.

(** ** The generated traceparent *)

Lemma hex_digit_lower v : (v < 16)%N → hex_lower (hex_digit false v) = true.
Proof. intros H. unfold hex_lower, hex_digit, is_digit, in_range. repeat case_match; lia. Qed.

Lemma hex_bytes_of n bs : Forall (λ b, b < 256)%N bs → length bs = n → hex_of (2 * n) (flat_map (hex_byte false) bs).
Proof.
  intros Hb <-. induction Hb as [|b bs Hb _ [IHl IHf]]; [by split|]. split; [simpl in *; lia|].
  simpl. repeat constructor; [apply hex_digit_lower| |done].
  - by apply N.Div0.div_lt_upper_bound.
  - by apply hex_digit_lower, N.mod_lt.
Qed.

Lemma randomNonZeroHex_sound fuel size : ∀ draw v, (∀ k, Forall (λ b, b < 256)%N (draw k) ∧ length (draw k) = size) → 0 < size →
  randomNonZeroHex fuel size draw = Some v → hex_of (2 * size) v ∧ all_zero v = false.
Proof.
  induction fuel as [|fuel IH]; intros draw v Hd Hs; simpl; [done|]. destruct (all_zero _) eqn:E.
  - apply IH; [|done]. intros k. apply Hd.
  - intros [= <-]. split; [|done]. apply hex_bytes_of; [by apply Forall_take, Hd|]. rewrite length_take, (proj2 (Hd 0)). lia.
Qed.

Lemma hex_byte_zero b : (b < 256)%N → Forall (λ c, c = 48%N) (hex_byte false b) → b = 0%N.
Proof.
  intros Hb H. destruct (hex_byte_value false b Hb) as (_ & _ & E). inversion H as [|? ? H1 H']; subst. inversion H' as [|? ? H2 _]; subst.
  rewrite H1, H2 in E. vm_compute in E. done.
Qed.

Lemma randomNonZeroHex_total size i : ∀ fuel draw, (∀ k, Forall (λ b, b < 256)%N (draw k) ∧ length (draw k) = size) →
  Exists (λ b, b ≠ 0%N) (draw i) → i < fuel → is_Some (randomNonZeroHex fuel size draw).
Proof.
  induction i as [|i IH]; intros [|fuel] draw Hd Hx Hi; try lia; simpl; destruct (all_zero _) eqn:E; eauto.
  - exfalso. apply all_zero_iff in E as [_ E]. destruct (Hd 0) as [Hb Hl]. rewrite take_ge in E by lia.
    clear -E Hx Hb. induction Hb as [|b bs Hb _ IHb]; [by inversion Hx|]. simpl in E. inversion E as [|? ? E1 E']; subst.
    inversion E' as [|? ? E2 E'']; subst. inversion Hx as [? ? Hne|? ? Hx']; subst; [|by apply IHb].
    apply Hne, hex_byte_zero; [done|by repeat constructor].
  - apply (IH fuel (λ k, draw (S k))); [intros k; apply Hd|done|lia].
Qed.

(** The traceparent made for a request without one: the loops that draw the two ids end as
    soon as one draw of each is not all zero, and what they give is valid on the wire. *)
Theorem newTraceparent_valid draw draw' i i' fuel :
  (∀ k, Forall (λ b, b < 256)%N (draw k) ∧ length (draw k) = 16) → (∀ k, Forall (λ b, b < 256)%N (draw' k) ∧ length (draw' k) = 8) →
  Exists (λ b, b ≠ 0%N) (draw i) → Exists (λ b, b ≠ 0%N) (draw' i') → i < fuel → i' < fuel →
  ∃ t, newTraceparent fuel draw draw' = Some t ∧ isValidTraceparent t = true.
Proof.
  intros Hd Hd' Hx Hx' Hi Hi'. unfold newTraceparent.
  destruct (randomNonZeroHex_total 16 i fuel draw Hd Hx Hi) as [t Et]. destruct (randomNonZeroHex_total 8 i' fuel draw' Hd' Hx' Hi') as [p Ep].
  rewrite Et, Ep. eexists. split; [done|].
  apply randomNonZeroHex_sound in Et as [Ht Zt]; [|done|lia]. apply randomNonZeroHex_sound in Ep as [Hp Zp]; [|done|lia].
  apply isValidTraceparent_iff. exists (js "00"), t, p, (js "01"). split; [done|]. split; [by repeat constructor|]. split; [done|].
  split; [done|]. split; [by repeat constructor|]. split; [done|].
  split; (eapply not_zero_replicate; [apply Ht || apply Hp|lia|done]).
Qed.

(** ** The traceparent of a span *)

Lemma flags_text_two flags : (flags < 256)%N → hex_of 2 (flags_text flags).
Proof.
  intros H. assert (forallb (λ n, let s := flags_text (N.of_nat n) in (length s =? 2) && forallb hex_lower s) (seq 0 256) = true) as Hall by (vm_compute; reflexivity).
  rewrite forallb_forall in Hall. specialize (Hall (N.to_nat flags)). rewrite N2Nat.id in Hall.
  apply andb_true_iff in Hall as [Hl Hh]; [|apply in_seq; lia]. split; [by apply Nat.eqb_eq|]. apply Forall_forall. intros c Hc.
  rewrite forallb_forall in Hh. by apply Hh, list_elem_of_In.
Qed.

Lemma isValidSpanContext_iff c : isValidSpanContext c = true ↔
  hex_of 32 (sc_traceId c) ∧ sc_traceId c ≠ replicate 32 48%N ∧ hex_of 16 (sc_spanId c) ∧ sc_spanId c ≠ replicate 16 48%N.
Proof.
  unfold isValidSpanContext. rewrite !andb_true_iff, !negb_true_iff, !r_hex_spec. split.
  - intros [[[Ht Zt] Hp] Zp]. split_and!; try done; (eapply not_zero_replicate; [apply Ht || apply Hp|lia|done]).
  - intros (Ht & Zt & Hp & Zp). split_and!; try apply Ht; try apply Hp;
      (eapply not_zero_replicate; [apply Ht || apply Hp|lia|done]).
Qed.

Lemma hex_no_dash n s : hex_of n s → 45%N ∉ s.
Proof. intros [_ H] Hin. rewrite Forall_forall in H. apply H in Hin. done. Qed.

Lemma split_wire ver t p f : hex_of 2 ver → hex_of 32 t → hex_of 16 p → hex_of 2 f → split_on 45 (wire ver t p f) = [ver; t; p; f].
Proof.
  intros Hv Ht Hp Hf. unfold wire. cbn [app]. rewrite !split_on_app by by eapply hex_no_dash. by rewrite split_on_plain by by eapply hex_no_dash.
Qed.

Lemma traceparent_shape c : match traceparent (Some c) with
  | Some t => isValidSpanContext c = true ∧ ((sc_traceFlags c < 256)%N →
      isValidTraceparent t = true ∧ split_on 45 t = [js "00"; sc_traceId c; sc_spanId c; flags_text (sc_traceFlags c)])
  | None => isValidSpanContext c = false
  end.
Proof.
  unfold traceparent. destruct (isValidSpanContext c) eqn:E; [|done]. split; [done|]. intros Hf%flags_text_two.
  apply isValidSpanContext_iff in E as (Ht & Zt & Hp & Zp). change (js "00-" ++ ?a ++ js "-" ++ ?b ++ js "-" ++ ?c) with (wire (js "00") a b c).
  assert (hex_of 2 (js "00")) as H0 by (by repeat constructor). split; [|by apply split_wire].
  apply isValidTraceparent_iff. by exists (js "00"), (sc_traceId c), (sc_spanId c), (flags_text (sc_traceFlags c)).
Qed.

(** The traceparent of a span: a valid span context whose flags are a byte is written so that
    it is valid on the wire and splits back into the two identifiers; no other gives one. *)
Theorem traceparent_spec c : match traceparent (Some c) with
  | Some t => isValidSpanContext c = true ∧ ((sc_traceFlags c < 256)%N →
      isValidTraceparent t = true ∧ split_on 45 t = [js "00"; sc_traceId c; sc_spanId c; flags_text (sc_traceFlags c)])
  | None => isValidSpanContext c = false
  end.
Proof. exact (traceparent_shape c). Qed.

(** ** tracestate *)

Lemma no_equals_key key : isValidTracestateKey key = true → 61%N ∉ key.
Proof.
  assert (∀ first most s, key_part first most s = true → first 61%N = false → 61%N ∉ s) as Hp.
  { intros first most [|c s]; simpl; [done|]. intros H Hf Hin. bool_inv. apply elem_of_cons in Hin as [<-|Hin]; [congruence|].
    match goal with H : forallb key_char s = true |- _ => rewrite forallb_forall in H; apply list_elem_of_In, H in Hin; done end. }
  unfold isValidTracestateKey. intros [H|H]%orb_true_iff Hin; [by eapply Hp in H; [apply H|]|].
  destruct (indexOf key 64) as [i|] eqn:Ei; [|done]. bool_inv. apply indexOf_Some in Ei as [Ek _]. rewrite Ek in Hin.
  apply elem_of_app in Hin as [Hin|Hin]; [by eapply Hp in Hin; [|done..]|]. apply elem_of_cons in Hin as [|Hin]; [done|].
  by eapply Hp in Hin; [|done..].
Qed.

Lemma no_equals_value x : isValidTracestateValue x = true → 61%N ∉ x.
Proof.
  unfold isValidTracestateValue. intros [_ H]%andb_true_iff Hin. rewrite forallb_forall in H. by apply list_elem_of_In, H in Hin.
Qed.

Lemma single_equals k x : 61%N ∉ k → 61%N ∉ x →
  indexOf (k ++ 61%N :: x) 61 = Some (length k) ∧ lastIndexOf (k ++ 61%N :: x) 61 = Some (length k).
Proof.
  intros Hk Hx. split; [by apply indexOf_app|]. unfold lastIndexOf. rewrite rev_app_distr. cbn [rev]. rewrite <- (assoc_L (++)).
  cbn [app]. rewrite indexOf_app by (intros Hin%list_elem_of_In%in_rev; by apply Hx, list_elem_of_In). f_equal.
  rewrite length_rev, length_app. simpl. lia.
Qed.

Definition entry_ok (m : jstr) (e : jstr * jstr) : Prop :=
  trim m = e.1 ++ 61%N :: e.2 ∧ isValidTracestateKey e.1 = true ∧ isValidTracestateValue e.2 = true.

Lemma check_member_Some keys m keys' : check_member keys m = Some keys' ↔
  ∃ e, entry_ok m e ∧ e.1 ∉ keys ∧ keys' = keys ++ [e.1].
Proof.
  unfold check_member, entry_ok. split.
  - destruct (indexOf (trim m) 61) as [i|] eqn:Ei; [|done]. destruct (lastIndexOf _ _); [|done].
    destruct (_ || negb _) eqn:E1; [done|]. destruct (_ || bool_decide _) eqn:E2; [done|]. bool_inv. intros [= <-].
    apply indexOf_Some in Ei as [Em _]. by exists (take i (trim m), drop (S i) (trim m)).
  - intros ([k x] & (Em & Hk & Hx) & Hnew & ->). cbn [fst snd] in *. rewrite Em.
    destruct (single_equals k x (no_equals_key _ Hk) (no_equals_value _ Hx)) as [-> ->].
    rewrite take_app_length, Nat.eqb_refl, drop_S_app, Hk, Hx, bool_decide_false by done. by destruct k.
Qed.

Lemma check_members_iff members : ∀ keys, NoDup keys → check_members keys members = true ↔
  ∃ entries, Forall2 entry_ok members entries ∧ NoDup (keys ++ map fst entries).
Proof.
  induction members as [|m members IH]; intros keys Hnd; simpl.
  - split; [|done]. intros _. exists []. by rewrite app_nil_r.
  - destruct (check_member keys m) as [keys'|] eqn:E.
    + apply check_member_Some in E as (e & He & Hn & ->). rewrite IH by (apply NoDup_app; split_and!; [done|set_solver|apply NoDup_singleton]).
      split.
      * intros (es & Hes & Hd). exists (e :: es). split; [by constructor|]. by rewrite <- (assoc_L (++)) in Hd.
      * intros (es & Hes & Hd). inversion Hes as [|? e' ? es' He' Hes']; subst. exists es'. split; [done|].
        assert (e'.1 = e.1) as Heq; [|by rewrite <- (assoc_L (++)), <- Heq].
        destruct He as (E1 & K1 & _), He' as (E2 & K2 & _). rewrite E1 in E2. apply no_equals_key in K1, K2.
        pose proof (indexOf_app _ _ e.2 K1) as I1. pose proof (indexOf_app _ _ e'.2 K2) as I2. rewrite <- E2, I1 in I2. injection I2 as I2.
        apply (f_equal (take (length e.1))) in E2. rewrite take_app_length, I2, take_app_length in E2. done.
    + split; [done|]. intros (es & Hes & Hd). inversion Hes as [|? e ? es' He Hes']; subst.
      assert (check_member keys m = Some (keys ++ [e.1])) as E'; [|congruence]. apply check_member_Some. exists e.
      split_and!; [done| |done]. apply NoDup_app in Hd as (_ & Hd & _). intros Hin. eapply Hd; [exact Hin|by left].
Qed.

(** What [isValidTracestate] accepts: at most 512 characters without outer space, at most 32
    members that, trimmed, are a valid key and a valid value around one equals sign, and no key
    twice. *)
Theorem isValidTracestate_spec v : isValidTracestate v = true ↔
  0 < length v ≤ 512 ∧ trim v = v ∧ length (split_on 44 v) ≤ 32 ∧
  ∃ entries, Forall2 entry_ok (split_on 44 v) entries ∧ NoDup (map fst entries).
Proof.
  unfold isValidTracestate. destruct (_ || _ || _) eqn:E1.
  - split; [done|]. intros ([? ?] & Ht & _). rewrite bool_decide_true in E1 by done. simpl in E1. lia.
  - bool_inv. destruct (32 <? length (split_on 44 v)) eqn:E2; [split; [done|]; intros (_ & _ & ? & _); lia|].
    rewrite check_members_iff by constructor. simpl. split; [intros ?|naive_solver]. split_and!; [lia..|done|lia|done].
Qed.

(** ** Where the code does not do what it says *)

(** The validator of the W3C list syntax refuses an empty member, the characters * and / of a key
    and a leading space of a value, which that syntax has, and accepts members around a line break,
    which it has not. *)
Lemma tracestate_divergence :
  isValidTracestate (js "a=1,,b=2") = false ∧ isValidTracestate (js "a*b=1") = false ∧ isValidTracestate (js "a/b=1") = false ∧
  isValidTracestate (js "a= 1") = false ∧ isValidTracestate (js "a=1," ++ [10%N] ++ js "b=2") = true.
Proof. vm_compute. done. Qed.

(** ** Examples *)

Definition toy_draw (k : nat) : list N := if k =? 0 then replicate 16 0%N else replicate 15 0%N ++ [171%N].
Definition toy_draw8 (k : nat) : list N := replicate 7 0%N ++ [1%N].

Lemma newTraceparent_valid_witness :
  newTraceparent 3 toy_draw toy_draw8 = Some (js "00-000000000000000000000000000000ab-0000000000000001-01") ∧
  ∃ t, newTraceparent 3 toy_draw toy_draw8 = Some t ∧ isValidTraceparent t = true.
Proof.
  split; [vm_compute; reflexivity|]. apply (newTraceparent_valid toy_draw toy_draw8 1 0); [| | | |lia|lia].
  - intros k. unfold toy_draw. destruct (k =? 0); (split; [repeat constructor|reflexivity]).
  - intros k. split; [repeat constructor|reflexivity].
  - apply Exists_exists. exists 171%N. split; [|done]. apply (bool_decide_eq_true_1 _). vm_compute. reflexivity.
  - apply Exists_exists. exists 1%N. split; [|done]. apply (bool_decide_eq_true_1 _). vm_compute. reflexivity.
Defined.
