(* ===== verification/Sanitizer.v ===== *)
(** * logger/sanitizer/sanitizer.ts: redaction of sensitive values

    [logval] is any value handed to the logger, as a tree: an object other than [Headers] is the
    list of its own enumerable properties, [LOther] is a function, a symbol or a bigint.  A value
    with a reference cycle is unrolled to the depth the sanitizer stops at. *)

From S2P Require Export JsonText.
Local Open Scope nat_scope.

Inductive logval : Type :=
  | LUndef
  | LNull
  | LBool (b : bool)
  | LNum (d : dbl)
  | LStr (s : jstr)
  | LOther (name : jstr)
  | LArr (l : list logval)
  | LObj (o : list (jstr * logval))
  | LHeaders (entries : list (jstr * jstr)).

(** What [JSON.parse] gives. *)
Fixpoint of_json (v : jsval) : logval :=
  match v with
  | VUndef => LUndef
  | VNull => LNull
  | VBool b => LBool b
  | VNum d => LNum d
  | VStr s => LStr s
  | VArr l => LArr (map of_json l)
  | VObj o => LObj (map (λ p, (p.1, of_json p.2)) o)
  | VFun f => LOther f
  end.

(** What [JSON.stringify] sees: a [Headers] object has no own enumerable property. *)
Fixpoint to_json (v : logval) : jsval :=
  match v with
  | LUndef => VUndef
  | LNull => VNull
  | LBool b => VBool b
  | LNum d => VNum d
  | LStr s => VStr s
  | LArr l => VArr (map to_json l)
  | LObj o => VObj (map (λ p, (p.1, to_json p.2)) o)
  | LOther f => VFun f
  | LHeaders _ => VObj []
  end.

Definition REDACTED : jstr := js "[REDACTED]".
Definition MAX_DEPTH : nat := 32.

Section sanitizer.
Context `{CM : CaseMapping}.

(** The [Set] of the trimmed, lower-cased, non-empty names, in order of insertion. *)
Definition normalizeSensitiveKeys (sensitiveKeys : list jstr) : list jstr :=
  foldl (λ acc key,
    let value := toLowerCase (trim key) in
    if bool_decide (value = []) || bool_decide (value ∈ acc) then acc else acc ++ [value]) [] sensitiveKeys.

(** [raw] is [Deno.env.get] of the variable. *)
Definition sensibleKeysFromEnv (env : option jstr) : list jstr :=
  let raw := match env with Some raw => trim raw | None => [] end in
  if bool_decide (raw = []) then []
  else
    let split := normalizeSensitiveKeys (split_on 44 raw) in
    if startsWith raw (js "[")
    then match json_parse raw with
         | Some (VArr l) =>
             if forallb (λ v, match v with VStr _ => true | _ => false end) l
             then normalizeSensitiveKeys (omap (λ v, match v with VStr s => Some s | _ => None end) l)
             else split
         | _ => split
         end
    else split.

Section keys.
(** [#keys] of the sanitizer. *)
Context (sensitive : list jstr).

Definition isSensitive (key : jstr) : bool :=
  let lower := toLowerCase key in existsb (λ s, includes lower s) sensitive.

(** [out[key] = ...] for every entry, from an empty object. *)
Definition sanitize_headers (entries : list (jstr * jstr)) : list (jstr * jstr) :=
  of_entries (map (λ p, (p.1, if isSensitive p.1 then REDACTED else p.2)) entries).

Definition looks_json (trimmed : jstr) : bool := startsWith trimmed (js "{") || startsWith trimmed (js "[").

(** [#redact] at depth [MAX_DEPTH - room]. *)
Fixpoint redact (room : nat) (value : logval) : logval :=
  match room with
  | O => value
  | S room =>
      match value with
      | LHeaders entries => LObj (map (λ p, (p.1, LStr p.2)) (sanitize_headers entries))
      | LArr l => LArr (map (redact room) l)
      | LStr s =>
          if looks_json (trim s)
          then match json_parse (trim s) with
               | Some v => LStr (default (js "undefined") (json_stringify (to_json (redact room (of_json v)))))
               | None => value
               end
          else value
      | LObj o =>
          LObj (of_entries (map (λ p, (p.1, if isSensitive p.1 then LStr REDACTED else redact room p.2)) o))
      | _ => value
      end
  end.

Definition sanitize_value (value : logval) : logval := redact MAX_DEPTH value.

Definition sanitize_details (details : list (jstr * logval)) : logval := redact MAX_DEPTH (LObj details).

Definition logFormat (line : jstr) : jstr :=
  let trimmed := trim line in
  if looks_json trimmed
  then match json_parse trimmed with
       | Some v => default (js "undefined") (json_stringify (to_json (redact MAX_DEPTH (of_json v))))
       | None => line
       end
  else line.

(** ** What a sanitized value is *)

(** Down to [n] levels: every property with a sensitive name holds the marker, and a text that
    is a JSON object or array is the print of a value of which the same holds one level less deep. *)
Fixpoint clean (n : nat) (v : logval) : Prop :=
  match n with
  | O => True
  | S n =>
      match v with
      | LArr l => Forall (clean n) l
      | LObj o => Forall (λ p, if isSensitive p.1 then p.2 = LStr REDACTED else clean n p.2) o
      | LStr s => looks_json (trim s) = true → is_Some (json_parse (trim s)) →
                  ∃ w, clean n w ∧ json_stringify (to_json w) = Some s
      | LHeaders entries => False
      | _ => True
      end
  end.

(** The values of [Headers] objects are texts that hold no JSON object or array. *)
Fixpoint headers_plain (v : logval) : Prop :=
  match v with
  | LHeaders entries => Forall (λ p, looks_json (trim p.2) = true → json_parse (trim p.2) = None) entries
  | LArr l => foldr (λ v P, headers_plain v ∧ P) True l
  | LObj o => foldr (λ p P, headers_plain p.2 ∧ P) True o
  | _ => True
  end.

Lemma headers_plain_json v : headers_plain (of_json v).
Proof.
  induction v as [| | | | |l IH|o IH|] using jsval_ind'; simpl; try done.
  - by induction IH.
  - by induction IH.
Qed.

Lemma of_entries_Forall {V} (P : jstr * V → Prop) l : Forall P l → Forall P (of_entries l).
Proof.
  intros HP. unfold of_entries. assert (H : Forall P []) by constructor. revert H. generalize (@nil (jstr * V)).
  induction HP as [|p l Hp _ IH]; intros o Ho; simpl; [done|]. apply IH, Forall_forall. intros q Hq.
  apply elem_of_set in Hq as [->|Hq]; [by destruct p|]. rewrite Forall_forall in Ho. by apply Ho.
Qed.

(** The marker is no JSON text. *)
Lemma clean_redacted n : clean n (LStr REDACTED).
Proof. destruct n; [done|]. simpl. intros _ [v Hv]. by vm_compute in Hv. Qed.

Lemma clean_text n s : (looks_json (trim s) = true → json_parse (trim s) = None) → clean n (LStr s).
Proof. destruct n; [done|]. simpl. intros H Hl [v Hv]. by rewrite H in Hv. Qed.

Lemma redact_clean_all n v : headers_plain v → clean n (redact n v).
Proof.
  revert v. induction n as [|n IH]; [done|]. intros v Hv. destruct v as [| | | |s| |l|o|entries]; try done.
  - cbn [redact]. destruct (looks_json (trim s)) eqn:E; [|by apply clean_text; rewrite E].
    destruct (json_parse (trim s)) as [v|] eqn:Ep; [|by apply clean_text].
    destruct (json_stringify _) as [t|] eqn:Es; simpl; [|done].
    intros _ _. exists (redact n (of_json v)). split; [apply IH, headers_plain_json|done].
  - simpl. apply Forall_map. simpl in Hv. apply foldr_and_Forall in Hv. eapply Forall_impl; [exact Hv|]. apply IH.
  - simpl. apply of_entries_Forall, Forall_map. simpl in Hv. apply foldr_and_Forall in Hv.
    eapply Forall_impl; [exact Hv|]. intros p Hp. simpl. destruct (isSensitive p.1); [done|]. by apply IH.
  - simpl. apply Forall_map. unfold sanitize_headers. apply of_entries_Forall, Forall_map.
    eapply Forall_impl; [exact Hv|]. intros p Hp. simpl. destruct (isSensitive p.1); [done|]. by apply clean_text.
Qed.
(** Values redaction has nothing to do on: no sensitive name, no text that is a JSON document. *)
Fixpoint inert (v : logval) : Prop :=
  match v with
  | LStr s => looks_json (trim s) = true → json_parse (trim s) = None
  | LArr l => foldr (λ v P, inert v ∧ P) True l
  | LObj o => ordered o ∧ foldr (λ p P, (isSensitive p.1 = false ∧ inert p.2) ∧ P) True o
  | LHeaders _ => False
  | _ => True
  end.

Lemma redact_inert n v : inert v → redact n v = v.
Proof.
  revert v. induction n as [|n IH]; [done|]. intros v Hv. destruct v as [| | | |s| |l|o|]; try done; simpl in *.
  - destruct (looks_json (trim s)); [|done]. by rewrite Hv.
  - apply foldr_and_Forall in Hv. f_equal. induction Hv as [|v l Hv _ IHl]; simpl; [done|]. by rewrite IH, IHl.
  - destruct Hv as [Ho Hv]. apply foldr_and_Forall in Hv. f_equal.
    assert (E : map (λ p, (p.1, if isSensitive p.1 then LStr REDACTED else redact n p.2)) o = o).
    { clear Ho. induction Hv as [|[k v] o [Hk Hv] _ IHo]; simpl in *; [done|]. by rewrite Hk, IH, IHo. }
    rewrite E. by apply of_entries_ordered.
Qed.

(** A value as the language has it: objects list their properties in order, the names of headers
    are distinct. *)
Fixpoint js_value (v : logval) : Prop :=
  match v with
  | LArr l => foldr (λ v P, js_value v ∧ P) True l
  | LObj o => ordered o ∧ foldr (λ p P, js_value p.2 ∧ P) True o
  | LHeaders entries => NoDup (map fst entries)
  | _ => True
  end.

(** A text and its redaction, [R] for the documents: a JSON object or array is printed from its
    redaction, any other text stays. *)
Definition redacts_text (R : logval → logval → Prop) (s s' : jstr) : Prop :=
  match (if looks_json (trim s) then json_parse (trim s) else None) with
  | Some v => ∃ w, R (of_json v) w ∧ s' = default (js "undefined") (json_stringify (to_json w))
  | None => s' = s
  end.

(** [w] is [v] with the marker for the value of every sensitive name, down to [n] levels, and
    everything else as it was: elements and properties keep their places, names and number. *)
Fixpoint redacts (n : nat) (v w : logval) : Prop :=
  match n with
  | O => w = v
  | S n =>
      match v with
      | LArr l => ∃ l', w = LArr l' ∧ Forall2 (redacts n) l l'
      | LObj o => ∃ o', w = LObj o' ∧
          Forall2 (λ p q, q.1 = p.1 ∧ if isSensitive p.1 then q.2 = LStr REDACTED else redacts n p.2 q.2) o o'
      | LStr s => ∃ s', w = LStr s' ∧ redacts_text (redacts n) s s'
      | LHeaders entries => ∃ o', w = LObj o' ∧ ordered o' ∧
          o' ≡ₚ map (λ p, (p.1, LStr (if isSensitive p.1 then REDACTED else p.2))) entries
      | _ => w = v
      end
  end.

Lemma js_value_json v : parsed v → js_value (of_json v).
Proof.
  induction v as [| | | | |l IH|o IH|] using jsval_ind'; try done; cbn [parsed of_json js_value].
  - intros H%foldr_and_Forall. apply foldr_and_Forall, Forall_map. rewrite Forall_forall in *. intros v Hv. by apply IH, H.
  - intros [Ho H%foldr_and_Forall]. split.
    + unfold ordered, keys in *. by rewrite map_map.
    + apply foldr_and_Forall, Forall_map. rewrite Forall_forall in *. intros p Hp. by apply IH, H.
Qed.

Lemma text_redacts n s : (∀ v, js_value v → redacts n v (redact n v)) →
  redacts_text (redacts n) s
    (if looks_json (trim s)
     then match json_parse (trim s) with
          | Some v => default (js "undefined") (json_stringify (to_json (redact n (of_json v))))
          | None => s
          end
     else s).
Proof.
  intros H. unfold redacts_text. destruct (looks_json (trim s)); [|done]. destruct (json_parse (trim s)) as [v|] eqn:E; [|done].
  exists (redact n (of_json v)). split; [|done]. by eapply H, js_value_json, json_parse_parsed.
Qed.

Lemma redact_redacts n v : js_value v → redacts n v (redact n v).
Proof.
  revert v. induction n as [|n IH]; [done|]. intros v Hv. destruct v as [| | | |s| |l|o|entries]; try done; cbn [redact redacts js_value] in *.
  - eexists. split; [|by apply text_redacts]. destruct (looks_json (trim s)); [|done]. by destruct (json_parse (trim s)).
  - eexists. split; [done|]. apply foldr_and_Forall in Hv. apply Forall2_fmap_r, Forall_Forall2_diag.
    eapply Forall_impl; [exact Hv|]. intros v Hw. by apply IH.
  - destruct Hv as [Ho Hv%foldr_and_Forall]. eexists. split; [done|].
    rewrite of_entries_ordered by (unfold ordered, keys in *; by rewrite map_map).
    apply Forall2_fmap_r, Forall_Forall2_diag. eapply Forall_impl; [exact Hv|]. intros p Hp. split; [done|]. cbn [snd].
    destruct (isSensitive p.1); [done|]. by apply IH.
  - eexists. split; [done|]. unfold sanitize_headers. split.
    + unfold ordered, keys. rewrite map_map. exact (ordered_entries _).
    + rewrite of_entries_perm by (unfold keys; by rewrite map_map). by rewrite map_map.
Qed.

(** C33. Sanitizing replaces exactly the values of the sensitive names: the result is the value with
    the marker for each of them, down to the depth limit, in objects, arrays, headers and JSON
    texts at any nesting of these, while every other element and property keeps its place, its
    name and its value; [logFormat] does this to the document a line holds.  So no secret under a
    sensitive name is left above the limit, when no header holds a JSON text (which is not searched),
    and a value without sensitive names is not changed. *)
Theorem sanitize_clean v line :
  (js_value v → redacts MAX_DEPTH v (sanitize_value v)) ∧
  redacts_text (redacts MAX_DEPTH) line (logFormat line) ∧
  (headers_plain v → clean MAX_DEPTH (sanitize_value v)) ∧
  clean (S MAX_DEPTH) (LStr (logFormat line)) ∧
  (inert v → sanitize_value v = v).
Proof.
  split; [exact (redact_redacts MAX_DEPTH v)|]. split; [exact (text_redacts MAX_DEPTH line (redact_redacts MAX_DEPTH))|].
  split; [exact (redact_clean_all MAX_DEPTH v)|]. split; [|exact (redact_inert MAX_DEPTH v)]. unfold logFormat. generalize MAX_DEPTH as n. intros n.
  destruct (looks_json (trim line)) eqn:E; [|by apply clean_text; rewrite E].
  destruct (json_parse (trim line)) as [w|] eqn:Ep; [|by apply clean_text].
  destruct (json_stringify _) as [t|] eqn:Es; simpl; [|done].
  intros _ _. exists (redact n (of_json w)). split; [apply redact_clean_all, headers_plain_json|done].
Qed.
End keys.

(** *** The names *)

Lemma normalize_elem ks acc k : k ∈ foldl (λ acc key,
    let value := toLowerCase (trim key) in
    if bool_decide (value = []) || bool_decide (value ∈ acc) then acc else acc ++ [value]) acc ks ↔
  k ∈ acc ∨ (k ≠ [] ∧ ∃ key, key ∈ ks ∧ k = toLowerCase (trim key)).
Proof.
  revert acc. induction ks as [|key ks IH]; intros acc; simpl.
  - split; [auto|]. intros [?|(_ & key & Hin & _)]; [done|]. by apply not_elem_of_nil in Hin.
  - rewrite IH. set (v := toLowerCase (trim key)).
    assert (Hacc : k ∈ (if bool_decide (v = []) || bool_decide (v ∈ acc) then acc else acc ++ [v]) ↔
                   k ∈ acc ∨ (k ≠ [] ∧ k = v)).
    { destruct (decide (v = [])) as [Hv|Hv]; [rewrite bool_decide_true by done; simpl; naive_solver|].
      rewrite (bool_decide_false (v = [])) by done. simpl.
      case_bool_decide as Hin; [naive_solver|]. rewrite elem_of_app, list_elem_of_singleton. naive_solver. }
    rewrite Hacc. setoid_rewrite elem_of_cons. naive_solver.
Qed.

Lemma normalize_spec ks k :
  k ∈ normalizeSensitiveKeys ks ↔ k ≠ [] ∧ ∃ key, key ∈ ks ∧ k = toLowerCase (trim key).
Proof.
  unfold normalizeSensitiveKeys. rewrite normalize_elem. split; [|by right].
  intros [Hin|?]; [|done]. by apply not_elem_of_nil in Hin.
Qed.

(** A name is sensitive exactly when it contains, whatever the case, one of the configured names
    with its white space trimmed; empty names never match. *)
Theorem isSensitive_spec ks key : isSensitive (normalizeSensitiveKeys ks) key = true ↔
  ∃ k, k ∈ ks ∧ toLowerCase (trim k) ≠ [] ∧ includes (toLowerCase key) (toLowerCase (trim k)) = true.
Proof.
  unfold isSensitive. rewrite existsb_exists. split.
  - intros (v & Hin & Hv). apply list_elem_of_In, normalize_spec in Hin as (Hne & k & Hk & ->). by exists k.
  - intros (k & Hk & Hne & Hv). exists (toLowerCase (trim k)). split; [|done].
    apply list_elem_of_In, normalize_spec. split; [done|]. by exists k.
Qed.
End sanitizer.

(** ** Concrete values *)

#[local] Existing Instance ascii_case.

Definition demo_keys : list jstr := normalizeSensitiveKeys [js " Password "; js "token"; js ""; js "TOKEN"].

(** The text [{q token q :1}] with the quotes written out. *)
Definition demo_text : jstr := ([123; 34] ++ js "token" ++ [34] ++ js ":[1,2]}")%N.

Definition demo_entry : logval :=
  LObj [(js "user", LStr (js "ana")); (js "userPassword", LStr (js "hunter2")); (js "body", LStr demo_text);
        (js "headers", LHeaders [(js "x-token", js "abc"); (js "accept", js "*/*")])].

Lemma demo_headers_plain : headers_plain demo_entry.
Proof. simpl. repeat split; repeat constructor; by vm_compute. Qed.

Lemma demo_js_value : js_value demo_entry.
Proof. simpl. split; [by vm_compute|]. repeat split. apply (bool_decide_eq_true_1 _). by vm_compute. Qed.

Lemma sanitize_clean_witness :
  sanitize_value demo_keys demo_entry =
    LObj [(js "user", LStr (js "ana")); (js "userPassword", LStr REDACTED);
          (js "body", LStr ([123; 34] ++ js "token" ++ [34; 58; 34] ++ REDACTED ++ [34; 125])%N);
          (js "headers", LObj [(js "x-token", LStr REDACTED); (js "accept", LStr (js "*/*"))])] ∧
  redacts demo_keys MAX_DEPTH demo_entry (sanitize_value demo_keys demo_entry) ∧
  clean demo_keys MAX_DEPTH (sanitize_value demo_keys demo_entry).
Proof.
  split; [vm_compute; reflexivity|]. split.
  - exact (proj1 (sanitize_clean demo_keys demo_entry []) demo_js_value).
  - exact (proj1 (proj2 (proj2 (sanitize_clean demo_keys demo_entry []))) demo_headers_plain).
Defined.

(** The value of a header is not searched for JSON, the same text in a plain object is. *)
Lemma header_json_kept :
  sanitize_value demo_keys (LHeaders [(js "x-meta", demo_text)]) = LObj [(js "x-meta", LStr demo_text)] ∧
  sanitize_value demo_keys (LObj [(js "x-meta", LStr demo_text)]) ≠ LObj [(js "x-meta", LStr demo_text)].
Proof. split; vm_compute; [reflexivity|discriminate]. Qed.

Fixpoint nested (n : nat) (v : logval) : logval := match n with O => v | S n => LArr [nested n v] end.

(** A secret nested 32 levels deep is written out as it is. *)
Lemma deep_secret_kept :
  let secret := LObj [(js "password", LStr (js "hunter2"))] in
  sanitize_value demo_keys (nested 32 secret) = nested 32 secret ∧
  sanitize_value demo_keys (nested 31 secret) = nested 31 (LObj [(js "password", LStr REDACTED)]).
Proof. split; vm_compute; reflexivity. Qed.
