(* ===== verification/EncryptUtil.v ===== *)
(** * encrypt/utilities, encrypt/errors.ts and encrypt/common/enums.ts

    Web Crypto is a parameter: keys are values of a type [CryptoKey], and every operation gives its
    result or the error it rejects with.  Random bytes and identifiers are arguments of what uses
    them.  A record of parameters of Web Crypto is a value of [algorithm]. *)

From S2P Require Export Encoding JsonText.
Local Open Scope nat_scope.

(** ** Errors *)

(** A thrown value, with the [code] and [ckr] it may carry: [th_encrypt] says whether it is an
    [EncryptError]. *)
Record thrown := { th_name : jstr; th_message : jstr; th_code : option N; th_ckr : option jstr; th_encrypt : bool }.

Definition EncryptError (message : jstr) : thrown :=
  {| th_name := js "EncryptError"; th_message := message; th_code := None; th_ckr := None; th_encrypt := true |}.

Definition UnsupportedOperationError (operation : jstr) : thrown :=
  {| th_name := js "UnsupportedOperationError";
     th_message := js "encrypt: operation not supported by this provider: " ++ operation; th_code := None; th_ckr := None; th_encrypt := true |}.

(** [new Error(message)]. *)
Definition plain_Error (message : jstr) : thrown :=
  {| th_name := js "Error"; th_message := message; th_code := None; th_ckr := None; th_encrypt := false |}.

Definition normalizeEncryptError (cause : thrown) : thrown := if th_encrypt cause then cause else EncryptError (th_message cause).

Definition runEncryptOperation {A} (op : res thrown A) : res thrown A :=
  match op with Ok a => Ok a | Err cause => Err (normalizeEncryptError cause) end.

(** No signal, a signal aborted before the call, or one that aborts before the operation ends or
    not; the reason is [None] when it is not given. *)
Inductive signal := NoSignal | AlreadyAborted (reason : option thrown) | Pending (abort : option (option thrown)).

Definition abort_error (reason : option thrown) : thrown :=
  normalizeEncryptError (default (EncryptError (js "operation aborted")) reason).

Definition runWithSignal {A} (s : signal) (op : res thrown A) : res thrown A :=
  match s with
  | NoSignal => runEncryptOperation op
  | AlreadyAborted reason => Err (abort_error reason)
  | Pending (Some reason) => Err (abort_error reason)
  | Pending None => runEncryptOperation op
  end.

(** ** Enums and codecs *)

Record SizeSymmetricKey_t := { Key128Bits : Z; Key256Bits : Z }.
Definition SizeSymmetricKey : SizeSymmetricKey_t := {| Key128Bits := 16; Key256Bits := 32 |}.
Record SizeAsymmetricKey_t := { Key2048Bits : Z; Key3072Bits : Z; Key4096Bits : Z }.
Definition SizeAsymmetricKey : SizeAsymmetricKey_t := {| Key2048Bits := 2048; Key3072Bits := 3072; Key4096Bits := 4096 |}.
Record CurveAsymmetricKey_t := { CurveP256 : Z; CurveP384 : Z; CurveP521 : Z }.
Definition CurveAsymmetricKey : CurveAsymmetricKey_t := {| CurveP256 := 256; CurveP384 := 384; CurveP521 := 521 |}.

Definition curveName (curve : Z) : jstr :=
  if (curve =? CurveP256 CurveAsymmetricKey)%Z then js "P-256"
  else if (curve =? CurveP384 CurveAsymmetricKey)%Z then js "P-384"
  else if (curve =? CurveP521 CurveAsymmetricKey)%Z then js "P-521"
  else js "unknown".

Definition bytesOf (text : jstr) : list N := utf8_encode text.
Definition textOf (bytes : list N) : jstr := utf8_decode bytes.

Definition resolveECDHCurve (curve : Z) : res thrown jstr :=
  let name := curveName curve in
  if bool_decide (name = js "unknown")
  then Err (EncryptError (js "unsupported ECDH curve: " ++ int_to_string curve)) else Ok name.

(** ** models.ts *)

Record KeyData := { kd_publicKey : jstr; kd_keyId : jstr; kd_keyRef : jstr; kd_provider : jstr }.

(** The requests to rotate, read and deactivate a key have the same fields. *)
Record KeyRequest := { kr_keyId : jstr; kr_uid : option jstr; kr_signal : signal }.
Record GenerateSymmetricKeyRequest := { gs_size : Z; gs_uid : option jstr; gs_signal : signal }.
Record EncryptAESRequest := { ea_secretKey : jstr; ea_value : jstr; ea_additional : option jstr; ea_signal : signal }.
Record DecryptAESRequest := { da_secretKey : jstr; da_cipherValue : jstr; da_additional : option jstr; da_signal : signal }.
Record GenerateRSAKeyRequest := { gr_size : Z; gr_uid : option jstr; gr_signal : signal }.
Record GenerateECDHCurveKeyRequest := { ge_curve : Z; ge_uid : option jstr; ge_signal : signal }.
Record RSAOAEPEncodeRequest := { oe_publicKey : jstr; oe_text : jstr; oe_signal : signal }.
Record RSAOAEPDecodeRequest := { od_privateKey : jstr; od_cipherText : jstr; od_signal : signal }.
Record ECDHEncodeRequest := { ee_publicKey : jstr; ee_text : jstr; ee_signal : signal }.
Record ECDHDecodeRequest := { ed_privateKey : jstr; ed_cipherText : jstr; ed_signal : signal }.

Section base64.
Context `{B64 : Base64}.

Definition toBase64 (bytes : list N) : jstr := encodeBase64 bytes.

(** The error of the decoder is a [TypeError]; its text belongs to the package. *)
Definition fromBase64 (value : jstr) : res thrown (list N) :=
  match decodeBase64 value with
  | Some bs => Ok bs
  | None => Err {| th_name := js "TypeError"; th_message := js "invalid Base64"; th_code := None; th_ckr := None; th_encrypt := false |}
  end.

Definition isLocalAESKey (secretKey : jstr) : bool :=
  match fromBase64 secretKey with Ok raw => (length raw =? 16) || (length raw =? 32) | Err _ => false end.

(** ** The ECC envelope *)

Record ECCCipherPayload := { ep_curve : jstr; ep_ephemeralPublicKey : jstr; ep_nonce : jstr; ep_cipherText : jstr }.

Definition payload_object (p : ECCCipherPayload) : list (jstr * jsval) :=
  [(js "curve", VStr (ep_curve p)); (js "ephemeralPublicKey", VStr (ep_ephemeralPublicKey p));
   (js "nonce", VStr (ep_nonce p)); (js "cipherText", VStr (ep_cipherText p))].

Definition encodeECCCipherPayload (payload : ECCCipherPayload) : jstr :=
  toBase64 (bytesOf (default [] (json_stringify (VObj (payload_object payload))))).

Definition missing_field {A} (field : string) : res thrown A := Err (EncryptError (js "ECC cipher payload missing field: " ++ js field)).

(** A field of a parsed payload; on [null] the read throws a [TypeError].  The fields are used as
    the texts they are declared to be: for another truthy value the text of it. *)
Definition payload_field (parsed : jsval) (field : string) : res thrown jstr :=
  match parsed with
  | VNull => Err (plain_Error (js "Cannot read properties of null"))
  | VObj o => let v := js_get o (js field) in if truthy v then Ok (js_String v) else missing_field field
  | _ => missing_field field
  end.

Definition decodeECCCipherPayload (encoded : jstr) : res thrown ECCCipherPayload :=
  let invalid := Err (EncryptError (js "invalid ECC cipher payload")) in
  match fromBase64 encoded with
  | Err _ => invalid
  | Ok bytes =>
      match json_parse (textOf bytes) with
      | None => invalid
      | Some parsed =>
          let* curve := payload_field parsed "curve" in
          let* key := payload_field parsed "ephemeralPublicKey" in
          let* nonce := payload_field parsed "nonce" in
          let* text := payload_field parsed "cipherText" in
          Ok {| ep_curve := curve; ep_ephemeralPublicKey := key; ep_nonce := nonce; ep_cipherText := text |}
      end
  end.
End base64.

(** ** Web Crypto *)

Inductive algorithm :=
  | AesGcm
  | AesGcmParams (iv : list N) (additionalData : option (list N))
  | RsaHashed (name : jstr)   (* with SHA-256 *)
  | RsaKeyGen (name : jstr) (modulusLength : Z)   (* with SHA-256 and the exponent 65537 *)
  | RsaOaep
  | RsaPkcs1
  | RsaPssParams (saltLength : Z)
  | Ecdh (namedCurve : jstr)
  | Ed25519
  | Hmac256
  | Hkdf.

Class WebCrypto := {
  CryptoKey : Type;
  (** The randomness of [getRandomValues] and [generateKey] is an argument. *)
  generateKey : algorithm → bool → list string → N → res thrown (CryptoKey * CryptoKey);
  importKey : string → list N → algorithm → bool → list string → res thrown CryptoKey;
  exportKey : string → CryptoKey → res thrown (list N);
  encrypt : algorithm → CryptoKey → list N → res thrown (list N);
  decrypt : algorithm → CryptoKey → list N → res thrown (list N);
  sign : algorithm → CryptoKey → list N → res thrown (list N);
  verify : algorithm → CryptoKey → list N → list N → res thrown bool;
  digest_sha256 : list N → res thrown (list N);
  deriveBits : CryptoKey → CryptoKey → Z → res thrown (list N);
  (** [deriveKey] with HKDF-SHA256, an empty salt and this info, to a 256-bit AES-GCM key. *)
  deriveKey : list N → CryptoKey → res thrown CryptoKey;
}.

Section web.
Context `{B64 : Base64} `{WC : WebCrypto}.

Definition importRSAPublicKey (publicKey : jstr) (alg : algorithm) (usages : list string) : res thrown CryptoKey :=
  let* der := fromBase64 publicKey in importKey "spki" der alg false usages.
Definition importRSAPrivateKey (privateKey : jstr) (alg : algorithm) (usages : list string) : res thrown CryptoKey :=
  let* der := fromBase64 privateKey in importKey "pkcs8" der alg false usages.
Definition importECDHPublicKey (publicKey namedCurve : jstr) : res thrown CryptoKey :=
  let* der := fromBase64 publicKey in importKey "spki" der (Ecdh namedCurve) false [].
Definition importECDHPrivateKey (privateKey namedCurve : jstr) : res thrown CryptoKey :=
  let* der := fromBase64 privateKey in importKey "pkcs8" der (Ecdh namedCurve) false ["deriveBits"]%string.

Definition bit_lengths : list (jstr * Z) := [(js "P-256", 256%Z); (js "P-384", 384%Z); (js "P-521", 528%Z)].

Definition ecdh_info (namedCurve : jstr) : list N := bytesOf (js "denoforge/ecdh/" ++ namedCurve).

(** The names an object literal inherits are functions: their length is no number of bits and
    [deriveBits] rejects it. *)
Definition deriveECCAESKey (privateKey publicKey : CryptoKey) (namedCurve : jstr) : res thrown CryptoKey :=
  match own_get namedCurve bit_lengths with
  | Some len =>
      let* shared := deriveBits privateKey publicKey len in
      let* hkdfKey := importKey "raw" shared Hkdf false ["deriveKey"]%string in
      deriveKey (ecdh_info namedCurve) hkdfKey
  | None =>
      if bool_decide (namedCurve ∈ object_prototype) then Err (plain_Error (js "invalid length"))
      else Err (EncryptError (js "unsupported ECDH curve: " ++ namedCurve))
  end.
End web.
