(* ===== verification/KeyTool.v ===== *)
(** * cmd/deno-openssl: keys, certificates and PEM files on the command line

    The state is what the tool printed and wrote, and the world behind Web Crypto, the file system
    and the certificate package, which are parameters. *)

From S2P Require Export Pem Recorded EncryptUtil.
Local Open Scope nat_scope.

(** ** Arguments (code/app.ts) *)

(** A flag is a text, or [true] when nothing follows it. *)
Record ParsedArgs := { pa_command : jstr; pa_positionals : list jstr; pa_flags : list (jstr * jsval) }.

Definition set_flag (k : jstr) (v : jsval) (a : ParsedArgs) : ParsedArgs :=
  {| pa_command := pa_command a; pa_positionals := pa_positionals a; pa_flags := obj_set k v (pa_flags a) |}.
Definition add_positional (t : jstr) (a : ParsedArgs) : ParsedArgs :=
  {| pa_command := pa_command a; pa_positionals := pa_positionals a ++ [t]; pa_flags := pa_flags a |}.

(** The loop over the tokens after the command. *)
Fixpoint parse_tokens (rest : list jstr) (a : ParsedArgs) : ParsedArgs :=
  match rest with
  | [] => a
  | token :: rest =>
      if startsWith token (js "--") then
        let body := drop 2 token in
        match indexOf body 61 with
        | Some eq => parse_tokens rest (set_flag (take eq body) (VStr (drop (S eq) body)) a)
        | None =>
            match rest with
            | next :: rest' =>
                if negb (startsWith next (js "--")) then parse_tokens rest' (set_flag body (VStr next) a)
                else parse_tokens rest (set_flag body (VBool true) a)
            | [] => set_flag body (VBool true) a
            end
        end
      else parse_tokens rest (add_positional token a)
  end.

Definition parseArgs (argv : list jstr) : ParsedArgs :=
  parse_tokens (tail argv) {| pa_command := default (js "help") (head argv); pa_positionals := []; pa_flags := [] |}.

(** ** PEM (code/generator.ts) *)

(** What [.] does not match. *)
Definition line_end (c : N) : bool := (c =? 10)%N || (c =? 13)%N || in_range 8232 8233 c.

(** The matches of [/.{1,64}/g]: [cur] is the match being read. *)
Fixpoint match_lines (cur : jstr) (s : jstr) : list jstr :=
  let flush := match cur with [] => [] | _ => [cur] end in
  match s with
  | [] => flush
  | c :: s =>
      if line_end c then flush ++ match_lines [] s
      else if length cur =? 64 then cur :: match_lines [c] s else match_lines (cur ++ [c]) s
  end.

(** The class of [/-----[A-Z0-9 ]+-----/g]. *)
Definition pem_char (c : N) : bool := is_upper c || is_digit c || (c =? 32)%N.

(** A match of [/-----BEGIN [A-Z0-9 ]+-----/] at the start, or anywhere. *)
Definition begins_here (s : jstr) : bool :=
  startsWith s (js "-----BEGIN ") &&
  (let n := label_length pem_char (drop 11 s) in negb (n =? 0) && startsWith (drop n (drop 11 s)) (js "-----")).
Fixpoint has_begin (s : jstr) : bool := begins_here s || match s with [] => false | _ :: s => has_begin s end.

Section pem.
Context `{B64 : Base64}.

Definition toPem (label : jstr) (der : list N) : jstr :=
  let body := join [10%N] (match_lines [] (encodeBase64 der)) in
  js "-----BEGIN " ++ label ++ js "-----" ++ [10%N] ++ body ++ [10%N] ++ js "-----END " ++ label ++ js "-----" ++ [10%N].

Definition fromPem (pem : jstr) : res thrown (list N) :=
  if negb (has_begin pem) then Err (plain_Error (js "deno-openssl: input is not a PEM block")) else
  let body := filter (λ c, is_space c = false) (remove_markers pem_char 0 pem) in
  match body with
  | [] => Err (plain_Error (js "deno-openssl: empty PEM body"))
  | _ => fromBase64 body
  end.
End pem.

(** ** Keys and certificates *)

(** The parameters of [generateKey]. *)
Inductive keygen_params :=
  | RsaHashedKeyGenParams (name : jstr) (modulusLength : dbl) (publicExponent : list N) (hash : jstr)
  | EcKeyGenParams (name namedCurve : jstr)
  | NamedParams (name : jstr).

(** The [algorithm] is the text of the command line: any text gets here. *)
Record GenerateKeyOptions := { gk_algorithm : jstr; gk_modulusLength : option dbl; gk_namedCurve : option jstr }.

Definition importParams (options : GenerateKeyOptions) : res thrown (keygen_params * list jstr) :=
  let usages := [js "sign"; js "verify"] in
  if bool_decide (gk_algorithm options = js "rsa") then
    Ok (RsaHashedKeyGenParams (js "RSASSA-PKCS1-v1_5") (default (dbl_of_Z 2048) (gk_modulusLength options)) [1; 0; 1]%N (js "SHA-256"), usages)
  else if bool_decide (gk_algorithm options = js "ec") then
    Ok (EcKeyGenParams (js "ECDSA") (default (js "P-256") (gk_namedCurve options)), usages)
  else if bool_decide (gk_algorithm options = js "ed25519") then Ok (NamedParams (js "Ed25519"), usages)
  else Err (plain_Error (js "deno-openssl: unsupported algorithm " ++ [34%N] ++ gk_algorithm options ++ [34%N])).

(** Days, from the number given to [new Date]. *)
Record SelfSignedRequest (Pair : Type) := {
  ss_serialNumber : jstr; ss_name : jstr; ss_notBefore : Z; ss_notAfter : dbl; ss_keys : Pair; ss_signingAlgorithm : keygen_params;
}.

Class KeyToolHost (W : Type) := {
  KeyPair : Type;
  generate_pair : keygen_params → list jstr → eff thrown W KeyPair;
  (** [exportKey] of the public half as SPKI and of the private half as PKCS#8. *)
  export_pair : string → KeyPair → eff thrown W (list N);
  read_file : jstr → eff thrown W jstr;
  write_file : jstr → jstr → eff thrown W unit;
  (** [import("@peculiar/x509")] and [cryptoProvider.set]. *)
  import_x509 : eff thrown W unit;
  date_now : W → Z;
  random_bytes : eff thrown W (list N);
  (** [createSelfSigned] and [toString("pem")] of its certificate. *)
  create_self_signed : SelfSignedRequest KeyPair → eff thrown W jstr;
  (** The message of the TypeError that an inherited method throws without an object. *)
  builtin_message : jstr → jstr;
}.

(** What went through [CliIO]. *)
Inductive io_event := IoOut (line : jstr) | IoErr (line : jstr) | IoWrite (path content : jstr).
Notation cli := (recorded io_event).

Record KeyPairPem := { kp_algorithm : jstr; kp_publicKey : jstr; kp_privateKey : jstr }.
Record CertificatePem := { ct_certificate : jstr; ct_publicKey : jstr; ct_privateKey : jstr }.
Record SelfSignedOptions := { so_name : jstr; so_days : option dbl; so_algorithm : option jstr }.

(** [b.toString(16)] of a byte. *)
Definition byte_toString16 (b : N) : jstr := if (b <? 16)%N then [hex_digit false b] else hex_byte false b.

Section tool.
Context `{B64 : Base64} {W : Type} `{Host : !KeyToolHost W}.

Definition io_out (line : jstr) : eff thrown (cli W) unit := record (IoOut line).
Definition io_err (line : jstr) : eff thrown (cli W) unit := record (IoErr line).
Definition io_writeFile (path content : jstr) : eff thrown (cli W) unit :=
  eff* _ := record (IoWrite path content) in world (write_file path content).

(** The two keys of a pair as PEM, the public one first. *)
Definition export_pem (keys : KeyPair) : eff thrown W (jstr * jstr) :=
  eff* spki := export_pair "spki" keys in
  eff* pkcs8 := export_pair "pkcs8" keys in
  eret (toPem (js "PUBLIC KEY") spki, toPem (js "PRIVATE KEY") pkcs8).

Definition generateKeyPair (options : GenerateKeyOptions) : eff thrown W KeyPairPem :=
  eff* params := elift (importParams options) in
  eff* keys := generate_pair params.1 params.2 in
  eff* pem := export_pem keys in
  eret {| kp_algorithm := gk_algorithm options; kp_publicKey := pem.1; kp_privateKey := pem.2 |}.

Definition generateSelfSignedCertificate (options : SelfSignedOptions) : eff thrown W CertificatePem :=
  eff* _ := import_x509 in
  let algorithm := default (js "ec") (so_algorithm options) in
  eff* params := elift (importParams {| gk_algorithm := algorithm; gk_modulusLength := None; gk_namedCurve := None |}) in
  eff* keys := generate_pair params.1 params.2 in
  eff* notBefore := eread date_now in
  let notAfter := num_add (dbl_of_Z notBefore) (num_mul (default (dbl_of_Z 365) (so_days options)) (dbl_of_Z 86400000)) in
  eff* serial := random_bytes in
  eff* cert := create_self_signed {|
    ss_serialNumber := flat_map byte_toString16 serial; ss_name := so_name options; ss_notBefore := notBefore;
    ss_notAfter := notAfter; ss_keys := keys; ss_signingAlgorithm := params.1 |} in
  eff* pem := export_pem keys in
  eret {| ct_certificate := cert; ct_publicKey := pem.1; ct_privateKey := pem.2 |}.

(** ** Commands (code/commands.ts) *)

Definition flagString (args : ParsedArgs) (name : string) (fallback : option jstr) : option jstr :=
  match js_get (pa_flags args) (js name) with VStr s => Some s | _ => fallback end.

(** [args.flags.x ? Number(args.flags.x) : undefined]. *)
Definition flagNumber (args : ParsedArgs) (name : string) : option dbl :=
  let v := js_get (pa_flags args) (js name) in
  if truthy v then Some (match v with VStr s => string_to_number s | _ => dbl_of_Z 1 end) else None.

(** Writes [<prefix>.<suffix>] for a prefix that is not empty, otherwise prints. *)
Fixpoint emit (prefix : option jstr) (parts : list (string * jstr)) : eff thrown (cli W) unit :=
  match parts with
  | [] => eret tt
  | (suffix, content) :: parts =>
      eff* _ := match prefix with
                | Some ((_ :: _) as prefix) =>
                    let path := prefix ++ js "." ++ js suffix in
                    eff* _ := io_writeFile path content in io_out (js "wrote " ++ path)
                | _ => io_out (trim_end content)
                end in
      emit prefix parts
  end.

Definition exit_code (n : Z) : jsval := VNum (dbl_of_Z n).

Definition keypair (args : ParsedArgs) : eff thrown (cli W) jsval :=
  eff* keys := world (generateKeyPair {|
    gk_algorithm := default (js "ec") (flagString args "algorithm" (Some (js "ec")));
    gk_modulusLength := flagNumber args "bits"; gk_namedCurve := flagString args "curve" None |}) in
  eff* _ := emit (flagString args "out" None) [("key.pem"%string, kp_privateKey keys); ("pub.pem"%string, kp_publicKey keys)] in
  eret (exit_code 0).

Definition cert (args : ParsedArgs) : eff thrown (cli W) jsval :=
  eff* result := world (generateSelfSignedCertificate {|
    so_name := default [] (flagString args "name" (Some (js "CN=localhost")));
    so_days := flagNumber args "days"; so_algorithm := flagString args "algorithm" None |}) in
  eff* _ := emit (flagString args "out" None)
    [("crt.pem"%string, ct_certificate result); ("key.pem"%string, ct_privateKey result); ("pub.pem"%string, ct_publicKey result)] in
  eret (exit_code 0).

Definition pemInfo (args : ParsedArgs) : eff thrown (cli W) jsval :=
  match head (pa_positionals args) with
  | Some ((_ :: _) as path) =>
      eff* text := world (read_file path) in
      eff* der := elift (fromPem text) in
      eff* _ := io_out (js "DER length: " ++ nat_to_string (N.of_nat (length der)) ++ js " bytes") in
      eret (exit_code 0)
  | _ => eff* _ := io_err (js "deno-openssl: pem-info requires a file path") in eret (exit_code 1)
  end.

Definition help_text : jstr :=
  join [10%N] [js "deno-openssl " ++ [8212%N] ++ js " key & certificate tooling"; [];
    js "Usage:";
    js "  deno-openssl keypair  [--algorithm rsa|ec|ed25519] [--bits 2048] [--curve P-256] [--out <prefix>]";
    js "  deno-openssl cert     [--name CN=localhost] [--days 365] [--algorithm ec] [--out <prefix>]";
    js "  deno-openssl pem-info <file.pem>";
    js "  deno-openssl help"; [];
    js "Without --out, PEM material is printed to stdout."].

Definition help (args : ParsedArgs) : eff thrown (cli W) jsval := eff* _ := io_out help_text in eret (exit_code 0).

(** [commands[name]]: the object literal also answers for what every object inherits. *)
Inductive command := Handler (run : ParsedArgs → eff thrown (cli W) jsval) | Builtin (name : jstr).

Definition commands : list (jstr * (ParsedArgs → eff thrown (cli W) jsval)) :=
  [(js "keypair", keypair); (js "cert", cert); (js "pem-info", pemInfo); (js "help", help)].

Definition lookup_command (name : jstr) : option command :=
  match own_get name commands with
  | Some f => Some (Handler f)
  | None => if bool_decide (name ∈ object_prototype) then Some (Builtin name) else None
  end.

Definition args_object (a : ParsedArgs) : jsval :=
  VObj [(js "command", VStr (pa_command a)); (js "positionals", VArr (map VStr (pa_positionals a))); (js "flags", VObj (pa_flags a))].

(** An inherited function called with [this] undefined: [Object(args)] is its argument,
    [toString] gives a text, the others throw. *)
Definition call_builtin (name : jstr) (args : ParsedArgs) : res thrown jsval :=
  if bool_decide (name = js "constructor") then Ok (args_object args)
  else if bool_decide (name = js "toString") then Ok (VStr (js "[object Undefined]"))
  else Err {| th_name := js "TypeError"; th_message := builtin_message name; th_code := None; th_ckr := None; th_encrypt := false |}.

Definition call_command (c : command) (args : ParsedArgs) : eff thrown (cli W) jsval :=
  match c with Handler f => f args | Builtin name => elift (call_builtin name args) end.

(** ** The runner (code/app.ts): the value is given to [Deno.exit] *)

Definition run (argv : list jstr) : eff thrown (cli W) jsval :=
  let parsed := parseArgs argv in
  match lookup_command (pa_command parsed) with
  | None =>
      eff* _ := io_err (js "deno-openssl: unknown command " ++ [34%N] ++ pa_command parsed ++ [34%N]) in
      eff* _ := help parsed in eret (exit_code 1)
  | Some handler =>
      ecatch (call_command handler parsed)
        (λ error, eff* _ := io_err (js "deno-openssl: " ++ th_message error) in eret (exit_code 1))
  end.
End tool.

(** ** What the arguments mean *)

(** The forms of an argument after the command. *)
Inductive arg := Positional (t : jstr) | Assign (k v : jstr) | Value (k v : jstr) | Switch (k : jstr).

Definition dashed (t : jstr) : bool := startsWith t (js "--").

Definition arg_tokens (a : arg) : list jstr :=
  match a with
  | Positional t => [t]
  | Assign k v => [js "--" ++ k ++ 61%N :: v]
  | Value k v => [js "--" ++ k; v]
  | Switch k => [js "--" ++ k]
  end.

Definition apply_arg (p : ParsedArgs) (a : arg) : ParsedArgs :=
  match a with
  | Positional t => add_positional t p
  | Assign k v | Value k v => set_flag k (VStr v) p
  | Switch k => set_flag k (VBool true) p
  end.

(** A flag without a value is last, or before another flag. *)
Fixpoint args_ok (l : list arg) : Prop :=
  match l with
  | [] => True
  | a :: l =>
      match a with
      | Positional t => dashed t = false
      | Assign k _ => 61%N ∉ k
      | Value k v => 61%N ∉ k ∧ dashed v = false
      | Switch k => 61%N ∉ k ∧ match l with Positional _ :: _ => False | _ => True end
      end ∧ args_ok l
  end.

Lemma indexOf_no c s : c ∉ s → indexOf s c = None.
Proof. apply indexOf_None. Qed.

Lemma dashed_app s : dashed (js "--" ++ s) = true.
Proof. apply startsWith_app. Qed.

Lemma dashed_split t : dashed t = true → ∃ s, t = js "--" ++ s.
Proof. intros H. apply startsWith_prefix in H as [s ->]. by exists s. Qed.

Lemma arg_head a l t rest : flat_map arg_tokens (a :: l) = t :: rest → match a with Positional _ => False | _ => True end → dashed t = true.
Proof. destruct a; intros E Ha; try done; cbn [flat_map arg_tokens app] in E; injection E as <- _; apply dashed_app. Qed.

Lemma parse_args l : args_ok l → ∀ p, parse_tokens (flat_map arg_tokens l) p = foldl apply_arg p l.
Proof.
  induction l as [|a l IH]; intros Hok p; [done|]. destruct Hok as [Ha Hok]. specialize (IH Hok).
  destruct a as [t|k v|k v|k]; cbn [flat_map arg_tokens app foldl apply_arg]; rewrite <- IH; cbn [parse_tokens];
    fold (dashed (js "--" ++ k)) || idtac; unfold dashed in *.
  - by rewrite Ha.
  - rewrite startsWith_app. change (drop 2 (js "--" ++ k ++ 61%N :: v)) with (k ++ 61%N :: v).
    rewrite indexOf_app by done. rewrite take_app_length, drop_S_app. done.
  - rewrite startsWith_app. change (drop 2 (js "--" ++ k)) with k. destruct Ha as [Hk Hv]. by rewrite indexOf_no, Hv by done.
  - rewrite startsWith_app. change (drop 2 (js "--" ++ k)) with k. destruct Ha as [Hk Hn]. rewrite indexOf_no by done.
    destruct (flat_map arg_tokens l) as [|t rest] eqn:E; [done|]. destruct l as [|a l]; [done|].
    pose proof (arg_head a l t rest E) as Hd. unfold dashed in Hd. rewrite Hd by (by destruct a). done.
Qed.

Lemma args_exist n : ∀ rest, length rest ≤ n → ∃ l, args_ok l ∧ flat_map arg_tokens l = rest.
Proof.
  induction n as [|n IH]; intros [|t rest] Hn; simpl in Hn; try lia; try (by exists []).
  destruct (dashed t) eqn:Hd.
  - apply dashed_split in Hd as [body ->]. destruct (indexOf body 61) as [i|] eqn:Ei.
    + apply indexOf_Some in Ei as [Es Hk]. destruct (IH rest ltac:(lia)) as (l & Hl & <-).
      exists (Assign (take i body) (drop (S i) body) :: l). split; [done|]. cbn [flat_map arg_tokens app]. by rewrite <- Es.
    + apply indexOf_None in Ei. destruct rest as [|next rest].
      * by exists [Switch body].
      * destruct (dashed next) eqn:Hnx.
        -- destruct (IH (next :: rest) ltac:(simpl in *; lia)) as (l & Hl & E). exists (Switch body :: l).
           split; [|cbn [flat_map arg_tokens app]; by rewrite E]. split; [|done]. split; [done|].
           destruct l as [|[t| | |] l]; try done. injection E as -> _. destruct Hl as [Hl _]. congruence.
        -- destruct (IH rest ltac:(simpl in *; lia)) as (l & Hl & <-). by exists (Value body next :: l).
  - destruct (IH rest ltac:(lia)) as (l & Hl & <-). by exists (Positional t :: l).
Qed.

(** Parsing the command line: every list of tokens after a command is a sequence of
    positionals, [--key=value], [--key value] and [--key] in one reading, a key without a value
    being last or before another flag; [parseArgs] gives the positionals in order and every flag
    its last value. *)
Theorem parseArgs_grammar cmd rest : ∃ l, args_ok l ∧ rest = flat_map arg_tokens l ∧
  ∀ l', args_ok l' → rest = flat_map arg_tokens l' →
    parseArgs (cmd :: rest) = foldl apply_arg {| pa_command := cmd; pa_positionals := []; pa_flags := [] |} l'.
Proof.
  destruct (args_exist (length rest) rest (le_n _)) as (l & Hl & E). exists l. split_and!; [done|by symmetry|].
  intros l' Hl' ->. by apply parse_args.
Qed.

(** ** PEM files *)

Lemma match_lines_spec s : Forall (λ c, line_end c = false) s → ∀ cur, length cur ≤ 64 → Forall (λ c, line_end c = false) cur →
  concat (match_lines cur s) = cur ++ s ∧ Forall (λ l, 1 ≤ length l ≤ 64) (match_lines cur s).
Proof.
  induction 1 as [|c s Hc _ IH]; intros cur Hn Hcur.
  - destruct cur as [|x cur]; simpl in *; [done|]. rewrite !app_nil_r. split; [done|]. constructor; [simpl; lia|constructor].
  - cbn [match_lines]. rewrite Hc. destruct (length cur =? 64) eqn:E.
    + destruct (IH [c]) as [E1 E2]; [simpl; lia|by repeat constructor|]. cbn [concat]. rewrite E1.
      split; [done|]. constructor; [lia|done].
    + destruct (IH (cur ++ [c])) as [E1 E2]; [rewrite length_app; simpl; lia|by apply Forall_app; repeat constructor|].
      rewrite E1. by rewrite <- app_assoc.
Qed.

Lemma no_space_no_end c : is_space c = false → line_end c = false.
Proof. unfold is_space, line_end, in_range. lia. Qed.

Lemma join_lines l : l ≠ [] → join [10%N] l ++ [10%N] = concat (map (λ x, x ++ [10%N]) l).
Proof.
  induction l as [|x l IH]; [done|]. intros _. destruct l as [|y l]; [simpl; by rewrite app_nil_r|].
  change (join [10%N] (x :: y :: l)) with (x ++ [10%N] ++ join [10%N] (y :: l)).
  rewrite <- !app_assoc, IH by done. cbn [map concat]. by rewrite <- !app_assoc.
Qed.

(** The alphabet of Base64: no dash and no white space. *)
Definition base64_alphabet (B : Base64) : Prop := ∀ bs, Forall (λ c, c ≠ 45%N ∧ is_space c = false) (encodeBase64 bs).

Section pem_laws.
Context `{B64 : Base64} (HB : base64_inverse B64) (HT : base64_text B64) (HA : base64_alphabet B64).

Lemma encode_ne der : Forall (λ b, b < 256)%N der → der ≠ [] → encodeBase64 der ≠ [].
Proof.
  intros Hd Hne E. pose proof (HB der Hd) as H1. pose proof (HB [] (Forall_nil_2 _)) as H2. destruct HT as [H0 _].
  rewrite E in H1. rewrite H0 in H2. congruence.
Qed.

Lemma encode_lines der : let lines := match_lines [] (encodeBase64 der) in
  concat lines = encodeBase64 der ∧ Forall (λ l, 1 ≤ length l ≤ 64) lines.
Proof.
  apply match_lines_spec; [|simpl; lia|constructor]. eapply Forall_impl; [apply HA|]. intros c [_ Hc]. by apply no_space_no_end.
Qed.

Lemma toPem_block label der : Forall (λ b, b < 256)%N der → der ≠ [] →
  toPem label der = pem_block label (match_lines [] (encodeBase64 der)).
Proof.
  intros Hd Hne. unfold toPem, pem_block. rewrite <- join_lines; [by rewrite <- !app_assoc|].
  intros E. destruct (encode_lines der) as [Hc _]. rewrite E in Hc. by apply (encode_ne der).
Qed.

Lemma has_begin_block label lines : label ≠ [] → forallb pem_char label = true → has_begin (pem_block label lines) = true.
Proof.
  intros Hne Hl. assert (begins_here (pem_block label lines) = true) as H.
  { unfold begins_here, pem_block. rewrite (assoc_L (++) (js "-----")). change (js "-----" ++ js "BEGIN ") with (js "-----BEGIN ").
    rewrite startsWith_app. set (rest := js "-----" ++ _). change (drop 11 (js "-----BEGIN " ++ label ++ rest)) with (label ++ rest).
    rewrite (label_length_app pem_char) by done. rewrite drop_app_length. unfold rest. rewrite startsWith_app. by destruct label. }
  destruct (pem_block label lines) as [|c t]; cbn [has_begin]; by rewrite H.
Qed.

Lemma fromPem_toPem label der : label ≠ [] → forallb pem_char label = true → Forall (λ b, b < 256)%N der → der ≠ [] →
  fromPem (toPem label der) = Ok der.
Proof.
  intros Hne Hl Hd Hder. rewrite toPem_block by done. unfold fromPem. rewrite has_begin_block by done. cbn [negb].
  destruct (encode_lines der) as [Hc _].
  assert (Forall (Forall (λ c, c ≠ 45%N ∧ is_space c = false)) (match_lines [] (encodeBase64 der))) as Hlines.
  { pose proof (HA der) as H. rewrite <- Hc in H. by apply Forall_concat in H. }
  rewrite (pem_lines pem_char) by done. rewrite Hc. unfold fromBase64. rewrite HB by done.
  destruct (encodeBase64 der) eqn:E; [|done]. by apply encode_ne in E.
Qed.
End pem_laws.

(** PEM: what [toPem] prints is a header, lines of at most 64 characters and a footer, and
    [fromPem] reads the bytes back, whatever the label. *)
Theorem pem_roundtrip `{B64 : Base64} label der : base64_inverse B64 → base64_text B64 → base64_alphabet B64 →
  label ≠ [] → forallb pem_char label = true → Forall (λ b, b < 256)%N der → der ≠ [] →
  fromPem (toPem label der) = Ok der ∧
  ∃ lines, toPem label der = pem_block label lines ∧ Forall (λ l, 1 ≤ length l ≤ 64) lines.
Proof.
  intros HB HT HA Hne Hl Hd Hder. split; [by apply fromPem_toPem|].
  exists (match_lines [] (encodeBase64 der)). split; [by apply toPem_block|by apply encode_lines].
Qed.

(** ** What a command prints and writes *)

Section records.
Context `{B64 : Base64} {W : Type} `{Host : !KeyToolHost W}.
Local Notation records := (@Recorded.records thrown io_event W _).

Definition out_path (prefix : jstr) (suffix : string) : jstr := prefix ++ js "." ++ js suffix.

(** The events of the parts written under a prefix. *)
Definition written (prefix : jstr) (parts : list (string * jstr)) : list io_event :=
  flat_map (λ f, [IoWrite (out_path prefix f.1) f.2; IoOut (js "wrote " ++ out_path prefix f.1)]) parts.

(** All parts, or the parts before one whose file could not be written. *)
Definition emitted (prefix : jstr) (parts : list (string * jstr)) (r : res thrown unit) (new : list io_event) : Prop :=
  match r with
  | Ok _ => new = written prefix parts
  | Err _ => ∃ before f after, parts = before ++ f :: after ∧ new = written prefix before ++ [IoWrite (out_path prefix f.1) f.2]
  end.

(** One part: its file, then the line. *)
Definition part_log (path content : jstr) (r : res thrown unit) (new : list io_event) : Prop :=
  match r with Ok _ => new = [IoWrite path content; IoOut (js "wrote " ++ path)] | Err _ => new = [IoWrite path content] end.

Lemma part_records path content : records (eff* _ := io_writeFile path content in io_out (js "wrote " ++ path)) (part_log path content).
Proof.
  assert (records (io_writeFile path content) (λ _ new, new = [IoWrite path content])) as Hw.
  { eapply records_bind; [apply records_call|naive_solver|]. intros [] new [_ ->]. eapply records_impl; [apply records_world|]. by intros r ? ->. }
  eapply records_bind; [exact Hw|done|]. intros [] new ->. eapply records_impl; [apply records_call|]. by intros r ? [-> ->].
Qed.

Lemma emit_log prefix parts : prefix ≠ [] → records (emit (Some prefix) parts) (emitted prefix parts).
Proof.
  intros Hne. induction parts as [|[suffix content] parts IH]; cbn [emit].
  { eapply records_impl; [apply records_ret|]. by intros r new [-> ->]. }
  eapply (records_bind _ _ (part_log (out_path prefix suffix) content)).
  - destruct prefix as [|c p]; [done|]. apply part_records.
  - intros e new ->. by exists [], (suffix, content), parts.
  - intros [] new ->. eapply records_impl; [exact IH|]. intros [[]|e] more; simpl; [by intros ->|].
    intros (before & f & after & -> & ->). by exists ((suffix, content) :: before), f, after.
Qed.

(** The log of a command whose flag [out] has a text: files under it and a line for each, then at
    most one line of error. *)
Definition out_lines (prefix : jstr) (new : list io_event) : Prop :=
  ∀ line, IoOut line ∈ new → ∃ suffix, line = js "wrote " ++ out_path prefix suffix.

Lemma written_out prefix parts : out_lines prefix (written prefix parts).
Proof.
  intros line H. unfold written in H. apply list_elem_of_In, in_flat_map in H as (f & _ & H). exists f.1.
  cbn [In] in H. destruct H as [H|[H|[]]]; congruence.
Qed.

Lemma emitted_out prefix parts r new : emitted prefix parts r new → out_lines prefix new.
Proof.
  destruct r as [[]|e]; simpl; [intros ->; apply written_out|]. intros (before & f & after & _ & ->) line.
  intros [H|H]%elem_of_app; [by apply written_out in H|]. by apply list_elem_of_singleton in H.
Qed.

(** How a command ends: with 0 or 1, and with 1 or an error only after a line on stderr. *)
Definition ends (r : res thrown jsval) (new : list io_event) : Prop :=
  match r with Ok v => v = exit_code 0 ∨ v = exit_code 1 ∧ ∃ line, IoErr line ∈ new | Err _ => True end.

Lemma printing_log prefix parts : prefix = None ∨ prefix = Some [] → records (emit prefix parts) (λ r _, is_ok r = true).
Proof.
  intros Hp. induction parts as [|[suffix content] parts IH]; cbn [emit].
  { eapply records_impl; [apply records_ret|]. by intros r new [-> _]. }
  eapply (records_bind _ _ (λ r _, is_ok r = true)); [|done|intros _ _ _; exact IH].
  destruct Hp as [-> | ->]; (eapply records_impl; [apply records_call|by intros r new [-> _]]).
Qed.

(** What a command that makes keys logs: with a prefix [P] says what was written under it. *)
Definition to_files (prefix : option jstr) (P : jstr → list io_event → Prop) (r : res thrown jsval) (new : list io_event) : Prop :=
  (∀ v, r = Ok v → v = exit_code 0) ∧ (∀ p, prefix = Some p → p ≠ [] → out_lines p new ∧ (is_ok r = true → P p new)).

(** Make the parts, then print or write them. *)
Lemma printed_log {A} (m : eff thrown W A) (k : A → list (string * jstr)) prefix :
  records (eff* a := world m in eff* _ := emit prefix (k a) in eret (exit_code 0))
    (to_files prefix (λ p new, ∃ a, new = written p (k a))).
Proof.
  assert (∀ p, out_lines p []) as Hnil by (by intros p line H%not_elem_of_nil).
  eapply records_bind; [apply records_world| |].
  - intros e new ->. by split.
  - intros a new ->. cbn [app]. destruct (decide (prefix = None ∨ prefix = Some [])) as [Hp|Hp].
    + eapply records_bind; [by apply printing_log|intros e new; by simpl|]. intros [] new _. eapply records_impl; [apply records_ret|].
      intros r more [-> ->]. split; [naive_solver|]. destruct Hp as [-> | ->]; naive_solver.
    + destruct prefix as [p|]; [|naive_solver]. assert (p ≠ []) as Hne by naive_solver.
      eapply records_bind; [by apply emit_log| |].
      * intros e new H. split; [done|]. intros ? [= <-] _. split; [by eapply emitted_out|done].
      * intros [] new H. eapply records_impl; [apply records_ret|]. intros r more [-> ->]. rewrite app_nil_r.
        split; [naive_solver|]. intros ? [= <-] _. split; [by eapply emitted_out|]. intros _. by exists a.
Qed.

(** The parts of a key pair and of a certificate. *)
Definition keypair_parts (k : KeyPairPem) : list (string * jstr) := [("key.pem"%string, kp_privateKey k); ("pub.pem"%string, kp_publicKey k)].
Definition cert_parts (c : CertificatePem) : list (string * jstr) :=
  [("crt.pem"%string, ct_certificate c); ("key.pem"%string, ct_privateKey c); ("pub.pem"%string, ct_publicKey c)].

Lemma keypair_log args : records (keypair args) (to_files (flagString args "out" None) (λ p new, ∃ k, new = written p (keypair_parts k))).
Proof. apply (printed_log _ keypair_parts). Qed.

Lemma cert_log args : records (cert args) (to_files (flagString args "out" None) (λ p new, ∃ k, new = written p (cert_parts k))).
Proof. apply (printed_log _ cert_parts). Qed.

Lemma ends_zero r new : (∀ v, r = Ok v → v = exit_code 0) → ends r new.
Proof. destruct r as [v|]; simpl; [intros H; left; by apply H|done]. Qed.

Lemma pemInfo_ends args : records (pemInfo args) ends.
Proof.
  unfold pemInfo. assert (records (eff* _ := io_err (js "deno-openssl: pem-info requires a file path") in eret (exit_code 1)) ends) as Hno.
  { eapply records_bind; [apply records_call|naive_solver|]. intros [] new [_ ->]. eapply records_impl; [apply records_ret|].
    intros r more [-> ->]. right. split; [done|]. eexists. rewrite app_nil_r. by apply list_elem_of_singleton. }
  destruct (head _) as [[|c p]|]; try exact Hno.
  eapply records_bind; [apply records_world|done|]. intros text new ->. eapply records_bind; [apply records_lift|done|]. intros der new [_ ->].
  eapply records_bind; [apply records_call|done|]. intros [] new [_ ->]. eapply records_impl; [apply records_ret|]. intros r more [-> ->]. by left.
Qed.

Lemma help_ends args : records (help args) (λ r new, r = Ok (exit_code 0) ∧ new = [IoOut help_text]).
Proof. eapply records_bind; [apply records_call|naive_solver|]. intros [] new [_ ->]. eapply records_impl; [apply records_ret|]. by intros r more [-> ->]. Qed.

Lemma command_ends name f args : own_get name commands = Some f → records (f args) ends.
Proof.
  intros H%own_get_elem. unfold commands in H. rewrite !elem_of_cons in H. destruct H as [[= -> ->]|[[= -> ->]|[[= -> ->]|[[= -> ->]|[]%not_elem_of_nil]]]].
  - eapply records_impl; [apply keypair_log|]. intros r new [H _]. by apply ends_zero.
  - eapply records_impl; [apply cert_log|]. intros r new [H _]. by apply ends_zero.
  - apply pemInfo_ends.
  - eapply records_impl; [apply help_ends|]. intros r new [-> _]. by left.
Qed.

Lemma command_not_builtin name : name ≠ js "constructor" → name ≠ js "toString" → ∀ args c, lookup_command name = Some c →
  records (call_command c args) ends.
Proof.
  intros H1 H2 args c. unfold lookup_command. destruct (own_get name commands) as [f|] eqn:E.
  - intros [= <-]. by eapply command_ends.
  - case_bool_decide; [|done]. intros [= <-]. unfold call_command, call_builtin. rewrite !bool_decide_false by done.
    eapply records_impl; [apply records_lift|]. by intros r new [-> _].
Qed.

(** The exit code: whatever the arguments, the files and Web Crypto do, the tool ends with 0
    or with 1, never by an exception, and with 1 only after a line on the error output.  The two
    names of inherited functions that return are the exceptions (see [inherited_command]). *)
Theorem run_exit argv s : let name := pa_command (parseArgs argv) in name ≠ js "constructor" → name ≠ js "toString" →
  ∃ v new, (run argv s).1 = Ok v ∧ rc_log (run argv s).2 = rc_log s ++ new ∧
    (v = exit_code 0 ∨ v = exit_code 1 ∧ ∃ line, IoErr line ∈ new).
Proof.
  intros name H1 H2. assert (records (run argv) (λ r new, is_ok r = true ∧ ends r new)) as Hl.
  { unfold run. fold name. destruct (lookup_command name) as [c|] eqn:E.
    - eapply records_catch; [by apply (command_not_builtin name)|done|]. intros e new _. eapply records_bind; [apply records_call|naive_solver|].
      intros [] more [_ ->]. eapply records_impl; [apply records_ret|]. intros r rest [-> ->]. split; [done|]. right. split; [done|].
      eexists. rewrite app_nil_r. apply elem_of_app. right. by apply list_elem_of_singleton.
    - eapply records_bind; [apply records_call|naive_solver|]. intros [] new [_ ->].
      eapply records_bind; [apply help_ends|naive_solver|]. intros v more [_ ->]. eapply records_impl; [apply records_ret|].
      intros r rest [-> ->]. split; [done|]. right. split; [done|]. eexists. apply elem_of_app. left. by apply list_elem_of_singleton. }
  destruct (run argv s) as [r s'] eqn:E. apply Hl in E as (new & El & Hok & He). destruct r as [v|e]; [|done].
  by exists v, new.
Qed.

Lemma caught_log f P prefix p : prefix = Some p → p ≠ [] → records f (to_files prefix P) →
  records (ecatch f (λ error, eff* _ := io_err (js "deno-openssl: " ++ th_message error) in eret (exit_code 1)))
    (λ r new, out_lines p new ∧ (r = Ok (exit_code 0) → P p new)).
Proof.
  intros Hout Hne Hf. eapply records_catch; [exact Hf| |].
  - intros v new [_ H]. destruct (H p Hout Hne) as [Ho Hp]. split; [done|]. intros _. by apply Hp.
  - intros e new [_ H]. destruct (H p Hout Hne) as [Ho _]. eapply records_bind; [apply records_call|naive_solver|].
    intros [] more [_ ->]. eapply records_impl; [apply records_ret|]. intros r rest [-> ->]. rewrite app_nil_r. split; [|by intros [=]].
    intros line [Hin|Hin]%elem_of_app; [by apply Ho in Hin|]. by apply list_elem_of_singleton in Hin.
Qed.

(** Keys stay off the terminal: with a text for [--out], [keypair] and [cert] print nothing
    but the names of the files, and when they exit with 0 they wrote every part under the prefix,
    the private key among them. *)
Theorem out_keeps_keys argv s p : let args := parseArgs argv in
  pa_command args = js "keypair" ∨ pa_command args = js "cert" → flagString args "out" None = Some p → p ≠ [] →
  ∃ r new, run argv s = (r, {| rc_log := rc_log s ++ new; rc_world := rc_world (run argv s).2 |}) ∧ out_lines p new ∧
    (r = Ok (exit_code 0) → (∃ k, new = written p (keypair_parts k)) ∨ (∃ k, new = written p (cert_parts k))).
Proof.
  intros args Hcmd Hout Hne.
  assert (records (run argv) (λ r new, out_lines p new ∧
    (r = Ok (exit_code 0) → (∃ k, new = written p (keypair_parts k)) ∨ (∃ k, new = written p (cert_parts k))))) as Hl.
  { destruct Hcmd as [Hc|Hc]; unfold run; fold args; rewrite Hc.
    - eapply records_impl; [exact (caught_log _ _ _ _ Hout Hne (keypair_log args))|]. naive_solver.
    - eapply records_impl; [exact (caught_log _ _ _ _ Hout Hne (cert_log args))|]. naive_solver. }
  destruct (run argv s) as [r s'] eqn:E. apply Hl in E as (new & El & H). exists r, new. split; [|done].
  simpl. rewrite <- El. by destruct s'.
Qed.
End records.

(** ** What the code does not promise *)

(** An inherited name is found in the table of commands: [constructor] returns the parsed
    arguments as the exit code, and nothing is printed. *)
Lemma inherited_command `{B64 : Base64} {W} `{Host : !KeyToolHost W} (s : cli W) :
  run [js "constructor"] s = (Ok (args_object (parseArgs [js "constructor"])), s) ∧
  run [js "toString"] s = (Ok (VStr (js "[object Undefined]")), s).
Proof. by split. Qed.

(** The digits of a serial number are not padded: different random bytes give one number. *)
Lemma serial_ambiguous : flat_map byte_toString16 [1; 35; 0; 0; 0; 0; 0; 0]%N = flat_map byte_toString16 [18; 3; 0; 0; 0; 0; 0; 0]%N.
Proof. reflexivity. Qed.

(** A message that already names the tool is printed with the name twice. *)
Lemma prefix_twice `{B64 : Base64} {W} `{Host : !KeyToolHost W} (s : cli W) :
  run [js "keypair"; js "--algorithm=dsa"] s =
  (Ok (exit_code 1), {| rc_log := rc_log s ++ [IoErr (js "deno-openssl: deno-openssl: unsupported algorithm " ++ [34%N] ++ js "dsa" ++ [34%N])];
                        rc_world := rc_world s |}).
Proof. reflexivity. Qed.

(** ** Witnesses *)

Module ToyKeys.
#[export] Instance host : KeyToolHost unit := {|
  KeyPair := unit;
  generate_pair _ _ := eret tt;
  export_pair fmt _ := eret (if bool_decide (fmt = "spki"%string) then [1; 2; 3]%N else [4; 5; 6]%N);
  read_file _ := eret (js "-----BEGIN X-----" ++ [10%N] ++ js "0aff" ++ [10%N] ++ js "-----END X-----");
  write_file _ _ := eret tt;
  import_x509 := eret tt; date_now _ := 0%Z; random_bytes := eret [1; 35]%N;
  create_self_signed _ := eret (js "cert"); builtin_message _ := js "not an object";
|}.
Definition start : cli unit := {| rc_log := []; rc_world := tt |}.
End ToyKeys.
Import Hex ToyKeys.

Lemma hex_alphabet : base64_alphabet Hex.codec.
Proof.
  intros bs. apply Forall_forall. intros c H. apply list_elem_of_In in H. simpl in H.
  apply in_flat_map in H as (b & _ & Hc). destruct (hex_byte_value false (b mod 256)) as (H1 & H2 & _); [by apply N.mod_lt|].
  assert (is_hex c = true) as Hx by (unfold hex_byte in Hc; destruct Hc as [<-|[<-|[]]]; done).
  revert Hx. unfold is_hex, is_digit, is_space, in_range. intros Hx. split; lia.
Qed.

Lemma pem_roundtrip_witness : fromPem (toPem (js "PUBLIC KEY") [7; 255]%N) = Ok [7; 255]%N ∧
  ∃ lines, toPem (js "PUBLIC KEY") [7; 255]%N = pem_block (js "PUBLIC KEY") lines ∧ Forall (λ l, 1 ≤ length l ≤ 64) lines.
Proof.
  apply (pem_roundtrip (js "PUBLIC KEY") [7; 255]%N Hex.inverse Hex.text hex_alphabet); [done|reflexivity|by repeat constructor|done].
Defined.

Lemma pem_info_run : run [js "pem-info"; js "k.pem"] ToyKeys.start =
  (Ok (exit_code 0), {| rc_log := [IoOut (js "DER length: 2 bytes")]; rc_world := tt |}).
Proof. vm_compute. reflexivity. Qed.

Lemma run_exit_witness : let argv := [js "pem-info"] in ∃ v new, (run argv ToyKeys.start).1 = Ok v ∧
  rc_log (run argv ToyKeys.start).2 = [] ++ new ∧ (v = exit_code 0 ∨ v = exit_code 1 ∧ ∃ line, IoErr line ∈ new).
Proof. apply (run_exit [js "pem-info"] ToyKeys.start); vm_compute; discriminate. Defined.

Lemma out_keeps_keys_witness : let argv := [js "keypair"; js "--out"; js "id"] in
  ∃ r new, run argv ToyKeys.start = (r, {| rc_log := [] ++ new; rc_world := rc_world (run argv ToyKeys.start).2 |}) ∧ out_lines (js "id") new ∧
    (r = Ok (exit_code 0) → (∃ k, new = written (js "id") (keypair_parts k)) ∨ (∃ k, new = written (js "id") (cert_parts k))).
Proof. apply (out_keeps_keys [js "keypair"; js "--out"; js "id"] ToyKeys.start (js "id")); [by left|reflexivity|done]. Defined.
