(* ===== verification/Scaffold.v ===== *)
(** * cmd/qdeno: the scaffolder of services

    The calls of the file system seam and the lines printed are recorded; what the file system
    answers is a parameter. *)

From S2P Require Export KeyTool JsonPretty.
Local Open Scope nat_scope.

(** A text with the quotes written as tildes. *)
Definition tq (s : string) : jstr := map (λ c, if (c =? 126)%N then 34%N else c) (js s).

(** ** Templates (code/templates.ts) *)

Inductive ServiceKind := KindHttp | KindGrpc.
Definition kind_text (k : ServiceKind) : jstr := match k with KindHttp => js "http" | KindGrpc => js "grpc" end.

Definition FRAMEWORK : jstr := js "@pointerbyte/forge-deno".

Definition project_object (name : jstr) : jsval :=
  VObj [(js "name", VStr name); (js "version", VStr (js "0.1.0"));
        (js "tasks", VObj [(js "dev", VStr (js "deno run -A main.ts"))]);
        (js "imports", VObj [(FRAMEWORK, VStr (js "jsr:" ++ FRAMEWORK))])].

Definition denoJson (name : jstr) : jstr := default [] (json_pretty (project_object name)) ++ [10%N].

Definition lines (l : list jstr) : jstr := join [10%N] l.

Definition httpMain (name : jstr) : jstr := lines [
  js "// " ++ name ++ js " " ++ [8212%N] ++ js " DenoForge HTTP service";
  tq "import { newHttpServer } from ~" ++ FRAMEWORK ++ tq "/config~;";
  tq "import { httpLogger, initLogger } from ~" ++ FRAMEWORK ++ tq "/logger~;";
  tq "import { securityHeaders } from ~" ++ FRAMEWORK ++ tq "/security~;";
  [];
  tq "const log = initLogger({ service: { name: ~" ++ name ++ tq "~ } });";
  [];
  js "const server = newHttpServer({ port: 8080 })";
  js "  .use(httpLogger(log))";
  js "  .use(securityHeaders());";
  [];
  tq "server.get(~/api/hello~, () => Response.json({ message: ~hello from " ++ name ++ tq "~ }));";
  [];
  tq "log.info(~server.start~, { port: 8080 });";
  js "server.listen();"; []].

(** [name.replace(/[^a-zA-Z0-9]/g, "")]. *)
Definition package_of (name : jstr) : jstr := filter (λ c, is_alnum c = true) name.

Definition grpcMain (name : jstr) : jstr := lines [
  js "// " ++ name ++ js " " ++ [8212%N] ++ js " DenoForge gRPC service";
  tq "import { GrpcServer, loadProto } from ~" ++ FRAMEWORK ++ tq "/config~;";
  tq "import { grpcLogger, initLogger } from ~" ++ FRAMEWORK ++ tq "/logger~;";
  [];
  tq "const log = initLogger({ service: { name: ~" ++ name ++ tq "~ } });";
  [];
  tq "const proto = loadProto(new URL(~./service.proto~, import.meta.url));";
  js "// deno-lint-ignore no-explicit-any";
  js "const Service = (proto as any)." ++ package_of name ++ js ".v1.Service;";
  [];
  js "const server = new GrpcServer({ interceptors: [grpcLogger(log)] });";
  js "server.addService(Service.service, {";
  tq "  Ping: () => ({ message: ~pong~ }),";
  js "});";
  [];
  tq "const port = await server.listen(~127.0.0.1:50051~);";
  tq "log.info(~grpc.start~, { port });"; []].

Definition grpcProto (name : jstr) : jstr := lines [
  tq "syntax = ~proto3~;"; [];
  js "package " ++ package_of name ++ js ".v1;"; [];
  js "service Service {"; js "  rpc Ping(PingRequest) returns (PingResponse);"; js "}"; [];
  js "message PingRequest {}"; js "message PingResponse {"; js "  string message = 1;"; js "}"; []].

Definition readme (name : jstr) (kind : ServiceKind) : jstr := lines [
  js "# " ++ name; [];
  js "A DenoForge " ++ map ascii_upper (kind_text kind) ++ js " service scaffolded with `qdeno`."; [];
  js "```sh"; js "deno task dev"; js "```"; []].

Definition templateFiles (kind : ServiceKind) (name : jstr) : list (jstr * jstr) :=
  [(js "deno.json", denoJson name); (js "README.md", readme name kind)] ++
  match kind with
  | KindHttp => [(js "main.ts", httpMain name)]
  | KindGrpc => [(js "main.ts", grpcMain name); (js "service.proto", grpcProto name)]
  end.

(** ** The scaffold (code/scaffold.ts) *)

Class Filesystem (W : Type) := {
  fs_mkdir : jstr → eff thrown W unit;
  fs_writeFile : jstr → jstr → eff thrown W unit;
  fs_exists : jstr → eff thrown W bool;
}.

Inductive q_event := FsMkdir (path : jstr) | FsWrite (path content : jstr) | FsExists (path : jstr) | QOut (line : jstr) | QErr (line : jstr).

Record ScaffoldOptions := { sf_kind : ServiceKind; sf_name : jstr; sf_dir : option jstr; sf_force : bool }.
Record ScaffoldResult := { sr_dir : jstr; sr_files : list jstr }.

(** [/^[a-zA-Z][\w-]*$/]. *)
Definition valid_project (name : jstr) : bool :=
  match name with
  | c :: rest => (is_lower c || is_upper c) && forallb (λ c, is_alnum c || (c =? 95)%N || (c =? 45)%N) rest
  | [] => false
  end.

(** [dir.replace(/\/+$/, "")]. *)
Fixpoint drop_slashes (s : jstr) : jstr := match s with c :: t => if (c =? 47)%N then drop_slashes t else s | [] => [] end.
Definition join_path (dir file : jstr) : jstr := rev (drop_slashes (rev dir)) ++ [47%N] ++ file.

Section qdeno.
Context {W : Type} `{FS : !Filesystem W}.
Notation qeff := (eff thrown (recorded q_event W)).

Definition call_exists (p : jstr) : qeff bool := eff* _ := record (FsExists p) in world (fs_exists p).
Definition call_mkdir (p : jstr) : qeff unit := eff* _ := record (FsMkdir p) in world (fs_mkdir p).
Definition call_write (p c : jstr) : qeff unit := eff* _ := record (FsWrite p c) in world (fs_writeFile p c).

(** The loop over the files, with the paths written so far. *)
Fixpoint write_files (dir : jstr) (files : list (jstr * jstr)) (written : list jstr) : qeff (list jstr) :=
  match files with
  | [] => eret written
  | (rel, content) :: files =>
      let path := join_path dir rel in
      eff* _ := call_write path content in write_files dir files (written ++ [path])
  end.

Definition scaffold (options : ScaffoldOptions) : qeff ScaffoldResult :=
  if negb (valid_project (sf_name options)) then
    ethrow (plain_Error (js "qdeno: invalid project name " ++ [34%N] ++ sf_name options ++ [34%N])) else
  let dir := default (js "./" ++ sf_name options) (sf_dir options) in
  eff* taken := if sf_force options then eret false else call_exists dir in
  if taken then ethrow (plain_Error (js "qdeno: target " ++ [34%N] ++ dir ++ [34%N] ++ js " already exists (use --force to overwrite)")) else
  eff* _ := call_mkdir dir in
  eff* written := write_files dir (templateFiles (sf_kind options) (sf_name options)) [] in
  eret {| sr_dir := dir; sr_files := written |}.

(** ** The runner (code/app.ts) *)

Definition qdeno_parseArgs (argv : list jstr) : ParsedArgs := parseArgs argv.

Definition HELP : jstr := lines [
  js "qdeno " ++ [8212%N] ++ js " DenoForge service scaffolder"; [];
  js "Usage:"; js "  qdeno new <http|grpc> <name> [--dir <path>] [--force]"; js "  qdeno help"; [];
  js "Examples:"; js "  qdeno new http my-api"; js "  qdeno new grpc my-svc --dir ./services/my-svc"].

Definition q_out (line : jstr) : qeff unit := record (QOut line).
Definition q_err (line : jstr) : qeff unit := record (QErr line).
Fixpoint q_each (l : list jstr) : qeff unit := match l with [] => eret tt | f :: l => eff* _ := q_out (js "  + " ++ f) in q_each l end.

Definition parse_kind (t : jstr) : option ServiceKind :=
  if bool_decide (t = js "http") then Some KindHttp else if bool_decide (t = js "grpc") then Some KindGrpc else None.

Definition qdeno_run (argv : list jstr) : qeff Z :=
  let args := qdeno_parseArgs argv in
  if bool_decide (pa_command args = js "help") || truthy (js_get (pa_flags args) (js "help")) then
    eff* _ := q_out HELP in eret 0%Z
  else if negb (bool_decide (pa_command args = js "new")) then
    eff* _ := q_err (js "qdeno: unknown command " ++ [34%N] ++ pa_command args ++ [34%N]) in
    eff* _ := q_out HELP in eret 1%Z
  else
    let usage := eff* _ := q_err (js "qdeno: usage: qdeno new <http|grpc> <name>") in eret 1%Z in
    match pa_positionals args with
    | kind :: ((_ :: _) as name) :: _ =>
        match parse_kind kind with
        | None => usage
        | Some k =>
            ecatch
              (eff* result := scaffold {|
                 sf_kind := k; sf_name := name;
                 sf_dir := match js_get (pa_flags args) (js "dir") with VStr s => Some s | _ => None end;
                 sf_force := match js_get (pa_flags args) (js "force") with VBool true => true | _ => false end |} in
               eff* _ := q_out (js "Scaffolded " ++ kind ++ js " service " ++ [34%N] ++ name ++ [34%N] ++ js " in " ++ sr_dir result) in
               eff* _ := q_each (sr_files result) in
               eff* _ := q_out ([10%N] ++ js "Next:" ++ [10%N] ++ js "  cd " ++ sr_dir result ++ [10%N] ++ js "  deno task dev") in
               eret 0%Z)
              (λ error, eff* _ := q_err (js "qdeno: " ++ th_message error) in eret 1%Z)
        end
    | _ => usage
    end.
End qdeno.

(** ** The generated files *)

Lemma includes_here s p : startsWith s p = true → includes s p = true.
Proof. destruct s; simpl; intros H; by rewrite H. Qed.

Lemma includes_app a p b : includes (a ++ p ++ b) p = true.
Proof. induction a as [|c a IH]; simpl; [apply includes_here, startsWith_app|]. by rewrite IH, orb_true_r. Qed.

Lemma includes_within a s b p : includes s p = true → includes (a ++ s ++ b) p = true.
Proof.
  intros H. assert (∃ x y, s = x ++ p ++ y) as (x & y & ->).
  { clear -H. induction s as [|c s IH]; cbn [includes] in H; apply orb_true_iff in H as [H|H]; try done.
    1, 2: apply startsWith_prefix in H as [y E]; by exists [], y.
    destruct (IH H) as (x & y & ->). by exists (c :: x), y. }
  rewrite <- !app_assoc, (app_assoc a x). apply includes_app.
Qed.

Lemma lines_includes i l x p : l !! i = Some x → includes x p = true → includes (lines l) p = true.
Proof.
  intros Hi Hx. revert i Hi. induction l as [|y l IH]; intros i Hi; [done|]. unfold lines in *. destruct l as [|z l].
  - destruct i; [|by destruct i]. injection Hi as ->. done.
  - change (join [10%N] (y :: z :: l)) with (y ++ [10%N] ++ join [10%N] (z :: l)). destruct i as [|i].
    + injection Hi as ->. apply (includes_within [] x _ p Hx).
    + pose proof (includes_within (y ++ [10%N]) _ [] p (IH i Hi)) as H. by rewrite app_nil_r, <- !app_assoc in H.
Qed.

(** The characters of a project name: letters, digits, underscores and dashes. *)
Definition name_char (c : N) : bool := is_alnum c || (c =? 95)%N || (c =? 45)%N.

Lemma valid_chars name : valid_project name = true → Forall (λ c, name_char c = true) name.
Proof.
  destruct name as [|c rest]; [done|]. simpl. intros [Hc Hr]%andb_true_iff. constructor.
  - unfold name_char, is_alnum. by destruct (is_lower c), (is_upper c), (is_digit c).
  - apply Forall_forall. intros x Hx%list_elem_of_In. rewrite forallb_forall in Hr. by apply Hr.
Qed.

Lemma name_units name : valid_project name = true → code_units name.
Proof.
  intros H%valid_chars. eapply Forall_impl; [exact H|]. intros c. unfold name_char, is_alnum, is_lower, is_upper, is_digit, in_range. lia.
Qed.

Lemma project_data name : valid_project name = true → json_data (project_object name).
Proof.
  intros H%name_units. assert (∀ s, forallb (λ c, c <? 65536)%N (js s) = true → code_units (js s)) as Hjs by (intros; by apply code_unitsb).
  split; [reflexivity|]. cbn [foldr]. repeat split; try (apply code_unitsb; reflexivity); exact H.
Qed.

Lemma package_char c t : is_alnum c = true → package_of (c :: t) = c :: package_of t.
Proof. intros H. unfold package_of. by rewrite filter_cons_True. Qed.

Lemma project_parses name : valid_project name = true → json_parse (denoJson name) = Some (project_object name).
Proof.
  intros Hv. pose proof (project_data name Hv) as Hd. pose proof (text_pretty _ [10%N] Hd) as E. fold (json_pretty (project_object name)) in E.
  unfold denoJson. rewrite E. cbn [default from_option id]. apply json_parse_pretty; [exact Hd|exact E|by repeat constructor].
Qed.

(** The line of the client and the line of the contract that name the package. *)
Lemma service_line name : includes (grpcMain name) (js "(proto as any)." ++ package_of name ++ js ".v1.Service;") = true.
Proof.
  assert (includes (js "const Service = (proto as any)." ++ package_of name ++ js ".v1.Service;")
    (js "(proto as any)." ++ package_of name ++ js ".v1.Service;") = true) as H.
  { change (js "const Service = (proto as any).") with (js "const Service = " ++ js "(proto as any).").
    set (t := package_of name ++ js ".v1.Service;"). rewrite <- app_assoc.
    pose proof (includes_app (js "const Service = ") (js "(proto as any)." ++ t) []) as H. by rewrite app_nil_r in H. }
  unfold grpcMain. refine (lines_includes 8 _ _ _ _ H); reflexivity.
Qed.

Lemma package_line name : includes (grpcProto name) (js "package " ++ package_of name ++ js ".v1;") = true.
Proof.
  assert (includes (js "package " ++ package_of name ++ js ".v1;") (js "package " ++ package_of name ++ js ".v1;") = true) as H.
  { pose proof (includes_app [] (js "package " ++ package_of name ++ js ".v1;") []) as H. by rewrite app_nil_r in H. }
  unfold grpcProto. refine (lines_includes 2 _ _ _ _ H); reflexivity.
Qed.

Lemma package_identifier name : valid_project name = true →
  ∃ c t, package_of name = c :: t ∧ is_lower c || is_upper c = true ∧ Forall (λ c, is_alnum c = true) t.
Proof.
  destruct name as [|c rest]; [done|]. intros [Hc _]%andb_true_iff. exists c, (package_of rest). split_and!.
  - apply package_char. unfold is_alnum. by destruct (is_lower c), (is_upper c), (is_digit c).
  - done.
  - apply Forall_forall. by intros x [Hx _]%list_elem_of_filter.
Qed.

Lemma name_no_syntax name : valid_project name = true → Forall (λ c, c ∉ [34; 92; 10; 13; 96; 36; 8232; 8233]%N) name.
Proof.
  intros Hv. eapply Forall_impl; [by apply valid_chars|]. intros c Hc Hin. rewrite !elem_of_cons, elem_of_nil in Hin.
  unfold name_char, is_alnum, is_lower, is_upper, is_digit, in_range in Hc. lia.
Qed.

(** The generated project: for a name the scaffolder accepts, [deno.json] parses to the
    intended object, the gRPC service is read from the package that [service.proto] declares, that
    package is an identifier, and no character of the name ends a string, a line or a template. *)
Theorem templates_well_formed name : valid_project name = true →
  json_parse (denoJson name) = Some (project_object name) ∧
  (∃ c t, package_of name = c :: t ∧ is_lower c || is_upper c = true ∧ Forall (λ c, is_alnum c = true) t) ∧
  includes (grpcMain name) (js "(proto as any)." ++ package_of name ++ js ".v1.Service;") = true ∧
  includes (grpcProto name) (js "package " ++ package_of name ++ js ".v1;") = true ∧
  Forall (λ c, c ∉ [34; 92; 10; 13; 96; 36; 8232; 8233]%N) name.
Proof.
  intros Hv. auto 8 using project_parses, package_identifier, service_line, package_line, name_no_syntax.
Qed.

(** ** What the scaffolder does to the file system *)

Section scaffold_log.
Context {W : Type} `{FS : !Filesystem W}.
Local Notation records := (@Recorded.records thrown q_event W _).

(** A recorded call: its event, whatever it answers. *)
Lemma call_records {A} e (m : eff thrown W A) : records (eff* _ := record e in world m) (λ _ new, new = [e]).
Proof. eapply records_bind; [apply records_call|naive_solver|]. intros [] new [_ ->]. eapply records_impl; [apply records_world|]. by intros r ? ->. Qed.

Definition file_events (dir : jstr) (files : list (jstr * jstr)) : list q_event := map (λ f, FsWrite (join_path dir f.1) f.2) files.
Definition file_paths (dir : jstr) (files : list (jstr * jstr)) : list jstr := map (λ f, join_path dir f.1) files.

Lemma write_files_log dir files : ∀ written, records (write_files dir files written) (λ r new,
  match r with
  | Ok paths => paths = written ++ file_paths dir files ∧ new = file_events dir files
  | Err _ => new `prefix_of` file_events dir files
  end).
Proof.
  induction files as [|[rel content] files IH]; intros written; cbn [write_files].
  - eapply records_impl; [apply records_ret|]. intros r new [-> ->]. by rewrite app_nil_r.
  - eapply records_bind; [apply call_records| |].
    + intros e new ->. by exists (file_events dir files).
    + intros [] new ->. eapply records_impl; [apply IH|]. intros [paths|e] more.
      * intros [-> ->]. by rewrite <- app_assoc.
      * intros [rest E]. exists rest. unfold file_events in *. cbn [map fst snd app]. by rewrite E.
Qed.

(** The directory of a project and the events of a complete run. *)
Definition project_dir (o : ScaffoldOptions) : jstr := default (js "./" ++ sf_name o) (sf_dir o).
Definition probe (o : ScaffoldOptions) : list q_event := if sf_force o then [] else [FsExists (project_dir o)].
Definition project_events (o : ScaffoldOptions) : list q_event :=
  probe o ++ FsMkdir (project_dir o) :: file_events (project_dir o) (templateFiles (sf_kind o) (sf_name o)).

(** What a run of the scaffolder did: all of a project, or a first part of it and an error. *)
Definition scaffolded (o : ScaffoldOptions) (r : res thrown ScaffoldResult) (new : list q_event) : Prop :=
  match r with
  | Ok res => valid_project (sf_name o) = true ∧ new = project_events o ∧ sr_dir res = project_dir o ∧
      sr_files res = file_paths (project_dir o) (templateFiles (sf_kind o) (sf_name o))
  | Err _ => new `prefix_of` project_events o ∧ (valid_project (sf_name o) = false → new = [])
  end.

Lemma probe_log o : records (if sf_force o then eret false else call_exists (project_dir o)) (λ _ new, new = probe o).
Proof. unfold probe. destruct (sf_force o); [|apply call_records]. eapply records_impl; [apply records_ret|]. by intros r new [_ ->]. Qed.

Lemma scaffold_log o : records (scaffold o) (scaffolded o).
Proof.
  unfold scaffold. destruct (valid_project (sf_name o)) eqn:Hv; cbn [negb].
  2: { intros s r s' [= <- <-]. exists []. rewrite app_nil_r. split; [done|]. split; [apply prefix_nil|done]. }
  fold (project_dir o). eapply records_bind; [apply probe_log| |].
  - intros e new ->. split; [by apply prefix_app_r|congruence].
  - intros [] new ->.
    { intros s r s' [= <- <-]. exists []. rewrite !app_nil_r. split; [done|]. split; [by apply prefix_app_r|congruence]. }
    eapply records_bind; [apply call_records| |].
    { intros e new ->. split; [|congruence]. apply prefix_app. by eexists. }
    intros [] new ->. eapply records_bind; [apply write_files_log| |].
    + intros e new Hn. split; [|congruence]. apply prefix_app. by apply prefix_cons.
    + intros paths new [-> ->]. eapply records_impl; [apply records_ret|]. intros r more [-> ->]. rewrite app_nil_r. by split_and!.
Qed.

(** The scaffolder writes exactly the templates, in order and under the target directory; on an
    error it has done a first part of that, and for an invalid name nothing at all.  A directory
    that exists is left alone unless [--force] was given. *)
Theorem scaffold_spec o s : ∃ r new, (scaffold o s).1 = r ∧ rc_log (scaffold o s).2 = rc_log s ++ new ∧ scaffolded o r new ∧
  (sf_force o = false → (fs_exists (project_dir o) (rc_world s)).1 = Ok true → ∃ e, r = Err e ∧ (new = [] ∨ new = [FsExists (project_dir o)])).
Proof.
  destruct (scaffold o s) as [r s'] eqn:E. pose proof (scaffold_log o s r s' E) as (new & El & Hs). exists r, new. split_and!; [done..|].
  intros Hf Hx. revert E. unfold scaffold. destruct (valid_project (sf_name o)); cbn [negb].
  - fold (project_dir o). rewrite Hf. unfold call_exists, world, record, ebind, emodify. cbn [rc_world rc_log].
    destruct (fs_exists (project_dir o) (rc_world s)) as [x w]. simpl in Hx. subst x. intros [= <- <-]. eexists. split; [done|].
    right. simpl in El. by apply app_inv_head in El.
  - intros [= <- <-]. eexists. split; [done|]. left. rewrite <- (app_nil_r (rc_log s)) in El at 1. by apply app_inv_head in El.
Qed.
End scaffold_log.

(** ** How the tool ends *)

Section qdeno_exit.
Context {W : Type} `{FS : !Filesystem W}.
Local Notation records := (@Recorded.records thrown q_event W _).

(** Exit code 0, or 1 after a line on the error output. *)
Definition q_ends (r : res thrown Z) (new : list q_event) : Prop :=
  r = Ok 0%Z ∨ r = Ok 1%Z ∧ ∃ line, QErr line ∈ new.

Lemma q_each_records l : records (q_each l) (λ r _, r = Ok tt).
Proof.
  induction l as [|f l IH]; cbn [q_each]; [eapply records_impl; [apply records_ret|]; by intros r new [-> _]|].
  eapply records_bind; [apply records_call|naive_solver|]. intros [] new _. exact IH.
Qed.

(** A line, then the exit code. *)
Lemma said (e : q_event) (n : Z) : records (eff* _ := record e in eret n) (λ r new, r = Ok n ∧ new = [e]).
Proof. eapply records_bind; [apply records_call|naive_solver|]. intros [] new [_ ->]. eapply records_impl; [apply records_ret|]. by intros r more [-> ->]. Qed.

Lemma said_error line : records (eff* _ := q_err line in eret 1%Z) (q_ends).
Proof. eapply records_impl; [apply said|]. intros r new [-> ->]. right. split; [done|]. eexists. by apply list_elem_of_singleton. Qed.

(** After a scaffold that worked only lines are printed. *)
Lemma printed_zero o f g : records (eff* result := scaffold o in eff* _ := q_out (f result) in eff* _ := q_each (sr_files result) in
  eff* _ := q_out (g result) in eret 0%Z) (λ r _, ∀ n, r = Ok n → n = 0%Z).
Proof.
  eapply records_bind; [apply scaffold_log|done|]. intros res new _. eapply records_bind; [apply records_call|done|]. intros [] n1 _.
  eapply records_bind; [apply q_each_records|done|]. intros [] n2 _. eapply records_impl; [apply said|]. by intros r n3 [-> _] ? [= <-].
Qed.

(** Whatever the arguments and the file system, [qdeno] ends with 0 or 1 and never by an
    exception, and with 1 only after a line on the error output. *)
Theorem qdeno_exit argv s : ∃ r new, (qdeno_run argv s).1 = r ∧ rc_log (qdeno_run argv s).2 = rc_log s ++ new ∧ q_ends r new.
Proof.
  assert (records (qdeno_run argv) q_ends) as Hl.
  { unfold qdeno_run. destruct (bool_decide (_ = js "help") || _).
    { eapply records_impl; [apply said|]. intros r new [-> _]. by left. }
    destruct (negb _).
    { eapply records_bind; [apply records_call|naive_solver|]. intros [] new [_ ->]. eapply records_impl; [apply said|].
      intros r more [-> ->]. right. split; [done|]. eexists. by apply list_elem_of_here. }
    destruct (pa_positionals _) as [|kind [|[|c name] rest]]; try apply said_error.
    destruct (parse_kind kind) as [k|]; [|apply said_error].
    eapply records_catch; [apply printed_zero| |].
    - intros n new H. left. by rewrite (H n).
    - intros e new _. eapply records_impl; [apply said_error|]. intros r more [->|(-> & line & Hin)]; [by left|].
      right. split; [done|]. exists line. apply elem_of_app. by right. }
  destruct (qdeno_run argv s) as [r s'] eqn:E. apply Hl in E as (new & El & H). by exists r, new.
Qed.
End qdeno_exit.

(** ** What the code does not promise *)

(** [qdeno --help] is an unknown command: the flag [--help] is read only after a command. *)
Lemma help_flag_unknown {W} `{FS : !Filesystem W} (s : recorded q_event W) :
  qdeno_run [js "--help"] s =
  (Ok 1%Z, {| rc_log := (rc_log s ++ [QErr (js "qdeno: unknown command " ++ [34%N] ++ js "--help" ++ [34%N])]) ++ [QOut HELP]; rc_world := rc_world s |}).
Proof. reflexivity. Qed.

(** [--force] before the kind of the service takes it as its value. *)
Lemma force_takes_kind : let args := qdeno_parseArgs [js "new"; js "--force"; js "http"; js "api"] in
  pa_positionals args = [js "api"] ∧ js_get (pa_flags args) (js "force") = VStr (js "http").
Proof. by split. Qed.

(** ** Witnesses *)

Lemma templates_well_formed_witness : let name := js "my-svc_2" in
  json_parse (denoJson name) = Some (project_object name) ∧
  (∃ c t, package_of name = c :: t ∧ is_lower c || is_upper c = true ∧ Forall (λ c, is_alnum c = true) t) ∧
  includes (grpcMain name) (js "(proto as any)." ++ package_of name ++ js ".v1.Service;") = true ∧
  includes (grpcProto name) (js "package " ++ package_of name ++ js ".v1;") = true ∧
  Forall (λ c, c ∉ [34; 92; 10; 13; 96; 36; 8232; 8233]%N) name.
Proof. apply (templates_well_formed (js "my-svc_2")). reflexivity. Defined.

(** The text of a small project, as the scaffolder prints it. *)
Example project_text : denoJson (js "ab") = lines [js "{"; tq "  ~name~: ~ab~,"; tq "  ~version~: ~0.1.0~,"; tq "  ~tasks~: {";
  tq "    ~dev~: ~deno run -A main.ts~"; js "  },"; tq "  ~imports~: {";
  tq "    ~@pointerbyte/forge-deno~: ~jsr:@pointerbyte/forge-deno~"; js "  }"; js "}"; []].
Proof. vm_compute. reflexivity. Qed.
