(* ===== verification/LocalProvider.v ===== *)
(** * encrypt/local/repository.ts: the local cryptographic provider

    Every method of [LocalProvider] over the parameters [WebCrypto] and [Base64].  Random bytes,
    the randomness of a generated key and the random identifier are arguments. *)

From S2P Require Export EncryptUtil JsonUnicode.
Local Open Scope nat_scope.

Definition PROVIDER : jstr := js "local".
Definition GCM_NONCE_BYTES : nat := 12.
Definition PSS_SALT_BYTES : Z := 32.

Definition concatBytes (parts : list (list N)) : list N := concat parts.

(** [crypto.getRandomValues(new Uint8Array(size))]: [random] is what the source of randomness
    gives for that many bytes. *)
Definition getRandomValues (random : nat → list N) (size : Z) : res thrown (list N) :=
  if (size <? 0)%Z then Err (plain_Error (js "Invalid typed array length: " ++ int_to_string size))
  else if (65536 <? size)%Z then Err (plain_Error (js "The ArrayBufferView's byte length exceeds the number of bytes available"))
  else Ok (random (Z.to_nat size)).

(** The first outcome that is not an error; [Err] stands for an empty [catch]. *)
Fixpoint first_ok {A B} (f : A → res thrown B) (l : list A) : option B :=
  match l with
  | [] => None
  | a :: l => match f a with Ok b => Some b | Err _ => first_ok f l end
  end.

Section provider.
Context `{B64 : Base64} `{WC : WebCrypto}.
(** [encodeHex] of the encoding package and [blake3] of the hash package. *)
Context (encodeHex : list N → jstr) (nobleBlake3 : list N → list N).

Definition exportPair (pair : CryptoKey * CryptoKey) : res thrown (jstr * jstr) :=
  let '(privateKey, publicKey) := pair in
  let* spki := exportKey "spki" publicKey in
  let* pkcs8 := exportKey "pkcs8" privateKey in
  Ok (toBase64 spki, toBase64 pkcs8).

Definition importECDHPublicKeyAuto (publicKey : jstr) : res thrown (CryptoKey * jstr) :=
  let* der := fromBase64 publicKey in
  match first_ok (λ curve, let* key := importKey "spki" der (Ecdh curve) false [] in Ok (key, curve))
                 (map js ["P-256"; "P-384"; "P-521"]%string) with
  | Some found => Ok found
  | None => Err (plain_Error (js "encrypt/local: unable to import ECDH public key on any supported curve"))
  end.

(** The tail shared by the key generators: the pair exported into a description. *)
Definition describe_pair (uuid : jstr) (pair : CryptoKey * CryptoKey) : res thrown KeyData :=
  let* (publicKey, privateKey) := exportPair pair in
  Ok {| kd_publicKey := publicKey; kd_keyId := uuid; kd_keyRef := privateKey; kd_provider := PROVIDER |}.

(** ** Symmetric *)

Definition generateSymmetricKeys (random : nat → list N) (uuid : jstr) (input : GenerateSymmetricKeyRequest) : res thrown KeyData :=
  runWithSignal (gs_signal input)
    (let* raw := getRandomValues random (gs_size input) in
     Ok {| kd_publicKey := []; kd_keyId := uuid; kd_keyRef := toBase64 raw; kd_provider := PROVIDER |}).

Definition encryptAES (nonce : list N) (input : EncryptAESRequest) : res thrown jstr :=
  runWithSignal (ea_signal input)
    (let* raw := fromBase64 (ea_secretKey input) in
     let* key := importKey "raw" raw AesGcm false ["encrypt"]%string in
     let* cipher := encrypt (AesGcmParams nonce (bytesOf <$> ea_additional input)) key (bytesOf (ea_value input)) in
     Ok (toBase64 (concatBytes [nonce; cipher]))).

Definition decryptAES (input : DecryptAESRequest) : res thrown jstr :=
  runWithSignal (da_signal input)
    (let* raw := fromBase64 (da_secretKey input) in
     let* key := importKey "raw" raw AesGcm false ["decrypt"]%string in
     let* blob := fromBase64 (da_cipherValue input) in
     let nonce := take GCM_NONCE_BYTES blob in
     let cipher := drop GCM_NONCE_BYTES blob in
     let* plain := decrypt (AesGcmParams nonce (bytesOf <$> da_additional input)) key cipher in
     Ok (textOf plain)).

(** ** Asymmetric *)

Definition generateRSAKeys (entropy : N) (uuid : jstr) (input : GenerateRSAKeyRequest) : res thrown KeyData :=
  runWithSignal (gr_signal input)
    (let* keys := generateKey (RsaKeyGen (js "RSA-PSS") (gr_size input)) true ["sign"; "verify"]%string entropy in
     describe_pair uuid keys).

Definition generateECDHCurveKeys (entropy : N) (uuid : jstr) (input : GenerateECDHCurveKeyRequest) : res thrown KeyData :=
  runWithSignal (ge_signal input)
    (let* namedCurve := resolveECDHCurve (ge_curve input) in
     let* keys := generateKey (Ecdh namedCurve) true ["deriveBits"; "deriveKey"]%string entropy in
     describe_pair uuid keys).

Definition rsaOaepEncode (input : RSAOAEPEncodeRequest) : res thrown jstr :=
  runWithSignal (oe_signal input)
    (let* key := importRSAPublicKey (oe_publicKey input) (RsaHashed (js "RSA-OAEP")) ["encrypt"]%string in
     let* cipher := encrypt RsaOaep key (bytesOf (oe_text input)) in
     Ok (toBase64 cipher)).

Definition rsaOaepDecode (input : RSAOAEPDecodeRequest) : res thrown jstr :=
  runWithSignal (od_signal input)
    (let* key := importRSAPrivateKey (od_privateKey input) (RsaHashed (js "RSA-OAEP")) ["decrypt"]%string in
     let* cipher := fromBase64 (od_cipherText input) in
     let* plain := decrypt RsaOaep key cipher in
     Ok (textOf plain)).

Definition ecdhEncode (entropy : N) (nonce : list N) (input : ECDHEncodeRequest) : res thrown jstr :=
  runWithSignal (ee_signal input)
    (let* (recipient, namedCurve) := importECDHPublicKeyAuto (ee_publicKey input) in
     let* (ephemeralPrivate, ephemeralPublic) := generateKey (Ecdh namedCurve) true ["deriveBits"]%string entropy in
     let* aesKey := deriveECCAESKey ephemeralPrivate recipient namedCurve in
     let* cipher := encrypt (AesGcmParams nonce None) aesKey (bytesOf (ee_text input)) in
     let* ephemeralPub := exportKey "spki" ephemeralPublic in
     Ok (encodeECCCipherPayload
           {| ep_curve := namedCurve; ep_ephemeralPublicKey := toBase64 ephemeralPub; ep_nonce := toBase64 nonce;
              ep_cipherText := toBase64 cipher |})).

Definition ecdhDecode (input : ECDHDecodeRequest) : res thrown jstr :=
  runWithSignal (ed_signal input)
    (let* payload := decodeECCCipherPayload (ed_cipherText input) in
     let* privateKey := importECDHPrivateKey (ed_privateKey input) (ep_curve payload) in
     let* point := fromBase64 (ep_ephemeralPublicKey payload) in
     let* ephemeralPub := importKey "spki" point (Ecdh (ep_curve payload)) false [] in
     let* aesKey := deriveECCAESKey privateKey ephemeralPub (ep_curve payload) in
     let* nonce := fromBase64 (ep_nonce payload) in
     let* cipher := fromBase64 (ep_cipherText payload) in
     let* plain := decrypt (AesGcmParams nonce None) aesKey cipher in
     Ok (textOf plain)).

(** ** Key management *)

Definition rotateKey (input : KeyRequest) : res thrown KeyData := Err (UnsupportedOperationError (js "rotateKey")).
Definition getKey (input : KeyRequest) : res thrown KeyData := Err (UnsupportedOperationError (js "getKey")).
Definition deactivateKey (input : KeyRequest) : res thrown unit := Err (UnsupportedOperationError (js "deactivateKey")).

(** ** Hashing *)

Definition hmac (secretKey message : jstr) (s : signal) : res thrown jstr :=
  runWithSignal s
    (let* key := importKey "raw" (bytesOf secretKey) Hmac256 false ["sign"]%string in
     let* sig := sign Hmac256 key (bytesOf message) in
     Ok (toBase64 sig)).

Definition sha256Hex (message : jstr) (s : signal) : res thrown jstr :=
  runWithSignal s (let* digest := digest_sha256 (bytesOf message) in Ok (encodeHex digest)).

Definition blake3 (message : jstr) (s : signal) : res thrown jstr :=
  runWithSignal s (Ok (toBase64 (nobleBlake3 (bytesOf message)))).

(** ** Signatures *)

Definition generateEd25519Keys (entropy : N) (uuid : jstr) (s : signal) : res thrown KeyData :=
  runWithSignal s
    (let* keys := generateKey Ed25519 true ["sign"; "verify"]%string entropy in
     describe_pair uuid keys).

(** The rejection of a signature that Web Crypto finds invalid. *)
Definition require_valid (ok : bool) (scheme : string) : res thrown unit :=
  if ok then Ok tt else Err (plain_Error (js "encrypt/local: " ++ js scheme ++ js " signature verification failed")).

Definition signEd25519 (privateKey text : jstr) (s : signal) : res thrown jstr :=
  runWithSignal s
    (let* der := fromBase64 privateKey in
     let* key := importKey "pkcs8" der Ed25519 false ["sign"]%string in
     let* sig := sign Ed25519 key (bytesOf text) in
     Ok (toBase64 sig)).

Definition verifyEd25519 (publicKey text signature : jstr) (s : signal) : res thrown unit :=
  runWithSignal s
    (let* der := fromBase64 publicKey in
     let* key := importKey "spki" der Ed25519 false ["verify"]%string in
     let* sig := fromBase64 signature in
     let* ok := verify Ed25519 key sig (bytesOf text) in
     require_valid ok "Ed25519").

Definition signRSAPSS (privateKey text : jstr) (s : signal) : res thrown jstr :=
  runWithSignal s
    (let* key := importRSAPrivateKey privateKey (RsaHashed (js "RSA-PSS")) ["sign"]%string in
     let* sig := sign (RsaPssParams PSS_SALT_BYTES) key (bytesOf text) in
     Ok (toBase64 sig)).

Definition verifyRSAPSS (publicKey text signature : jstr) (s : signal) : res thrown unit :=
  runWithSignal s
    (let* key := importRSAPublicKey publicKey (RsaHashed (js "RSA-PSS")) ["verify"]%string in
     let* sig := fromBase64 signature in
     let* ok := verify (RsaPssParams PSS_SALT_BYTES) key sig (bytesOf text) in
     require_valid ok "RSA-PSS").

Definition signRSAPKCS1v15SHA256 (privateKey data : jstr) (s : signal) : res thrown jstr :=
  runWithSignal s
    (let* key := importRSAPrivateKey privateKey (RsaHashed (js "RSASSA-PKCS1-v1_5")) ["sign"]%string in
     let* sig := sign RsaPkcs1 key (bytesOf data) in
     Ok (toBase64 sig)).

Definition verifyRSAPKCS1v15SHA256 (data publicKey signature : jstr) (s : signal) : res thrown unit :=
  runWithSignal s
    (let* key := importRSAPublicKey publicKey (RsaHashed (js "RSASSA-PKCS1-v1_5")) ["verify"]%string in
     let* sig := fromBase64 signature in
     let* ok := verify RsaPkcs1 key sig (bytesOf data) in
     require_valid ok "RSA PKCS1v15").
End provider.

(** ** The interfaces (local/interface.ts) *)

(** A call of a repository: the same for every provider. *)
Inductive provider_call :=
  | GenerateSymmetricKeys (input : GenerateSymmetricKeyRequest)
  | EncryptAES (input : EncryptAESRequest)
  | DecryptAES (input : DecryptAESRequest)
  | GenerateRSAKeys (input : GenerateRSAKeyRequest)
  | GenerateECDHCurveKeys (input : GenerateECDHCurveKeyRequest)
  | RsaOaepEncode (input : RSAOAEPEncodeRequest)
  | RsaOaepDecode (input : RSAOAEPDecodeRequest)
  | EcdhEncode (input : ECDHEncodeRequest)
  | EcdhDecode (input : ECDHDecodeRequest)
  | RotateKey (input : KeyRequest)
  | GetKey (input : KeyRequest)
  | DeactivateKey (input : KeyRequest)
  | Hmac (secretKey message : jstr) (s : signal)
  | Sha256Hex (message : jstr) (s : signal)
  | Blake3 (message : jstr) (s : signal)
  | GenerateEd25519Keys (s : signal)
  | SignEd25519 (privateKey text : jstr) (s : signal)
  | VerifyEd25519 (publicKey text signature : jstr) (s : signal)
  | SignRSAPSS (privateKey text : jstr) (s : signal)
  | VerifyRSAPSS (publicKey text signature : jstr) (s : signal)
  | SignRSAPKCS1v15SHA256 (privateKey data : jstr) (s : signal)
  | VerifyRSAPKCS1v15SHA256 (data publicKey signature : jstr) (s : signal).

Inductive provider_result := RKey (k : KeyData) | RText (t : jstr) | RVoid.

(** The randomness of one call. *)
Record randomness := { rd_bytes : nat → list N; rd_entropy : N; rd_uuid : jstr }.

Definition key_result (r : res thrown KeyData) : res thrown provider_result := let* k := r in Ok (RKey k).
Definition text_result (r : res thrown jstr) : res thrown provider_result := let* t := r in Ok (RText t).
Definition void_result (r : res thrown unit) : res thrown provider_result := let* _ := r in Ok RVoid.

Section run.
Context `{B64 : Base64} `{WC : WebCrypto}.
Context (encodeHex : list N → jstr) (nobleBlake3 : list N → list N).

Definition LocalProvider (rd : randomness) (c : provider_call) : res thrown provider_result :=
  match c with
  | GenerateSymmetricKeys input => key_result (generateSymmetricKeys (rd_bytes rd) (rd_uuid rd) input)
  | EncryptAES input => text_result (encryptAES (rd_bytes rd GCM_NONCE_BYTES) input)
  | DecryptAES input => text_result (decryptAES input)
  | GenerateRSAKeys input => key_result (generateRSAKeys (rd_entropy rd) (rd_uuid rd) input)
  | GenerateECDHCurveKeys input => key_result (generateECDHCurveKeys (rd_entropy rd) (rd_uuid rd) input)
  | RsaOaepEncode input => text_result (rsaOaepEncode input)
  | RsaOaepDecode input => text_result (rsaOaepDecode input)
  | EcdhEncode input => text_result (ecdhEncode (rd_entropy rd) (rd_bytes rd GCM_NONCE_BYTES) input)
  | EcdhDecode input => text_result (ecdhDecode input)
  | RotateKey input => key_result (rotateKey input)
  | GetKey input => key_result (getKey input)
  | DeactivateKey input => void_result (deactivateKey input)
  | Hmac secretKey message s => text_result (hmac secretKey message s)
  | Sha256Hex message s => text_result (sha256Hex encodeHex message s)
  | Blake3 message s => text_result (blake3 nobleBlake3 message s)
  | GenerateEd25519Keys s => key_result (generateEd25519Keys (rd_entropy rd) (rd_uuid rd) s)
  | SignEd25519 privateKey text s => text_result (signEd25519 privateKey text s)
  | VerifyEd25519 publicKey text signature s => void_result (verifyEd25519 publicKey text signature s)
  | SignRSAPSS privateKey text s => text_result (signRSAPSS privateKey text s)
  | VerifyRSAPSS publicKey text signature s => void_result (verifyRSAPSS publicKey text signature s)
  | SignRSAPKCS1v15SHA256 privateKey data s => text_result (signRSAPKCS1v15SHA256 privateKey data s)
  | VerifyRSAPKCS1v15SHA256 data publicKey signature s => void_result (verifyRSAPKCS1v15SHA256 data publicKey signature s)
  end.
End run.

(** ** What Web Crypto documents *)

(** How a key is generated, imported and used in each signature scheme. *)
Inductive signature_scheme : algorithm → algorithm → algorithm → Prop :=
  | Ed25519_scheme : signature_scheme Ed25519 Ed25519 Ed25519
  | RsaPss_scheme n : signature_scheme (RsaKeyGen (js "RSA-PSS") n) (RsaHashed (js "RSA-PSS")) (RsaPssParams 32)
  | RsaPkcs1_scheme n : signature_scheme (RsaKeyGen (js "RSA-PSS") n) (RsaHashed (js "RSASSA-PKCS1-v1_5")) RsaPkcs1.

Record web_crypto_laws (WC : WebCrypto) : Prop := {
  (** A ciphertext decrypts under the same raw key, nonce and additional data. *)
  law_aes_raw : ∀ raw k iv aad plain cipher, importKey "raw" raw AesGcm false ["encrypt"]%string = Ok k →
    encrypt (AesGcmParams iv aad) k plain = Ok cipher →
    ∃ k', importKey "raw" raw AesGcm false ["decrypt"]%string = Ok k' ∧ decrypt (AesGcmParams iv aad) k' cipher = Ok plain;
  law_aes_derived : ∀ info k0 k iv aad plain cipher, deriveKey info k0 = Ok k →
    encrypt (AesGcmParams iv aad) k plain = Ok cipher → decrypt (AesGcmParams iv aad) k cipher = Ok plain;
  (** The results of an encryption and of an export are bytes, and there are some. *)
  law_encrypt_bytes : ∀ alg k plain cipher, encrypt alg k plain = Ok cipher → Forall (λ b, b < 256)%N cipher ∧ cipher ≠ [];
  law_sign_bytes : ∀ alg k m sig, sign alg k m = Ok sig → Forall (λ b, b < 256)%N sig;
  law_export_bytes : ∀ fmt k der, exportKey fmt k = Ok der → Forall (λ b, b < 256)%N der ∧ der ≠ [];
  (** Two pairs of a curve agree on their secret, also after an export and an import, and a public
      key imports only under its own curve. *)
  law_ecdh : ∀ curve us us' e e' a A b B sA sB pa, generateKey (Ecdh curve) true us e = Ok (a, A) →
    generateKey (Ecdh curve) true us' e' = Ok (b, B) → exportKey "spki" A = Ok sA → exportKey "pkcs8" a = Ok pa →
    exportKey "spki" B = Ok sB →
    ∃ a' A' B', importKey "pkcs8" pa (Ecdh curve) false ["deriveBits"]%string = Ok a' ∧ importKey "spki" sA (Ecdh curve) false [] = Ok A' ∧
      importKey "spki" sB (Ecdh curve) false [] = Ok B' ∧ ∀ n, deriveBits b A' n = deriveBits a' B' n;
  law_curve : ∀ curve curve' us e a A sA, generateKey (Ecdh curve) true us e = Ok (a, A) → exportKey "spki" A = Ok sA →
    curve' ≠ curve → ∃ err, importKey "spki" sA (Ecdh curve') false [] = Err err;
  (** What a key pair signs verifies, and what it encrypts with OAEP decrypts, after an export and
      an import. *)
  law_signature : ∀ gen imp par us e a A pa sA k m sig, signature_scheme gen imp par → generateKey gen true us e = Ok (a, A) →
    exportKey "pkcs8" a = Ok pa → exportKey "spki" A = Ok sA → importKey "pkcs8" pa imp false ["sign"]%string = Ok k →
    sign par k m = Ok sig →
    ∃ k', importKey "spki" sA imp false ["verify"]%string = Ok k' ∧ verify par k' sig m = Ok true;
  law_oaep : ∀ n us e a A pa sA k plain cipher, generateKey (RsaKeyGen (js "RSA-PSS") n) true us e = Ok (a, A) →
    exportKey "pkcs8" a = Ok pa → exportKey "spki" A = Ok sA →
    importKey "spki" sA (RsaHashed (js "RSA-OAEP")) false ["encrypt"]%string = Ok k → encrypt RsaOaep k plain = Ok cipher →
    ∃ k', importKey "pkcs8" pa (RsaHashed (js "RSA-OAEP")) false ["decrypt"]%string = Ok k' ∧ decrypt RsaOaep k' cipher = Ok plain;
}.

Definition signal_live (s : signal) : bool := match s with NoSignal | Pending None => true | _ => false end.

Lemma runWithSignal_Ok {A} s (op : res thrown A) a : runWithSignal s op = Ok a ↔ signal_live s = true ∧ op = Ok a.
Proof. destruct s as [|?|[?|]], op; simpl; naive_solver. Qed.

Lemma runWithSignal_Err {A} s (op : res thrown A) e : runWithSignal s op = Err e → th_encrypt e = true.
Proof.
  assert (∀ t, th_encrypt (normalizeEncryptError t) = true) as Hn by (intros t; unfold normalizeEncryptError; by destruct (th_encrypt t) eqn:?).
  destruct s as [|?|[?|]], op; simpl; intros H; try injection H as <-; done || apply Hn.
Qed.

Section laws.
Context `{B64 : Base64} `{WC : WebCrypto}.
Context (HB : base64_inverse B64) (HW : web_crypto_laws WC).

Lemma fromBase64_toBase64 bs : Forall (λ b, b < 256)%N bs → fromBase64 (toBase64 bs) = Ok bs.
Proof. intros Hb. unfold fromBase64, toBase64. by rewrite HB. Qed.

Lemma aes_decrypts nonce secretKey value additional s s' c :
  length nonce = GCM_NONCE_BYTES → Forall (λ b, b < 256)%N nonce → signal_live s' = true →
  encryptAES nonce {| ea_secretKey := secretKey; ea_value := value; ea_additional := additional; ea_signal := s |} = Ok c →
  decryptAES {| da_secretKey := secretKey; da_cipherValue := c; da_additional := additional; da_signal := s' |} =
    Ok (textOf (bytesOf value)).
Proof.
  intros Hl Hn Hs'. unfold encryptAES, decryptAES. simpl. intros [_ H]%runWithSignal_Ok.
  apply rbind_Ok in H as (raw & Er & (k & Ek & (ct & Ec & [= <-])%rbind_Ok)%rbind_Ok).
  apply runWithSignal_Ok. split; [done|]. destruct (law_aes_raw _ HW _ _ _ _ _ _ Ek Ec) as (k' & Ek' & Ed).
  rewrite Er. cbn [rbind]. rewrite Ek'. cbn [rbind]. unfold concatBytes. cbn [concat]. rewrite app_nil_r.
  rewrite fromBase64_toBase64; [|by apply Forall_app; split; [|apply (law_encrypt_bytes _ HW _ _ _ _ Ec)]].
  cbn [rbind]. rewrite <- Hl, take_app_length, drop_app_length, Ed. done.
Qed.

Context (HT : base64_text B64).

Lemma toBase64_units bs : code_units (toBase64 bs).
Proof.
  pose proof (proj2 HT bs) as H. unfold is_ascii in H. apply Forall_forall. intros c Hc. rewrite forallb_forall in H.
  apply list_elem_of_In, H in Hc. unfold toBase64. lia.
Qed.

Lemma toBase64_non_empty bs : Forall (λ b, b < 256)%N bs → bs ≠ [] → toBase64 bs ≠ [].
Proof.
  intros Hb Hne E. apply Hne. pose proof (HB _ Hb) as H1. pose proof (HB [] (List.Forall_nil _)) as H2.
  unfold toBase64 in E. rewrite E in H1. rewrite (proj1 HT) in H2. congruence.
Qed.

Lemma json_object_text o : json_stringify (VObj o) =
  Some (123%N :: join [44%N] (omap (λ p, t ← json_stringify p.2; Some (json_quote p.1 ++ 58%N :: t)) o) ++ [125%N]).
Proof. done. Qed.

(** The envelope: a payload with texts in every field is read back. *)
Lemma payload_roundtrip p :
  Forall (λ f, code_units f ∧ f ≠ []) [ep_curve p; ep_ephemeralPublicKey p; ep_nonce p; ep_cipherText p] →
  decodeECCCipherPayload (encodeECCCipherPayload p) = Ok p.
Proof.
  intros Hf. rewrite !Forall_cons in Hf. destruct Hf as ([U1 N1] & [U2 N2] & [U3 N3] & [U4 N4] & _).
  assert (Hd : json_data (VObj (payload_object p))) by (split; [reflexivity|]; repeat split; done || by apply code_unitsb).
  destruct (json_stringify (VObj (payload_object p))) as [t|] eqn:Et; [|done].
  assert (Hb : strip_bom (utf8_encode t) = utf8_encode t).
  { rewrite json_object_text in Et. revert Et. generalize (join [44%N] (omap (λ p, t ← json_stringify p.2; Some (json_quote p.1 ++ 58%N :: t)) (payload_object p)) ++ [125%N]).
    intros l [= <-]. by destruct l. }
  unfold decodeECCCipherPayload, encodeECCCipherPayload. rewrite Et. change (default [] (Some t)) with t. unfold bytesOf.
  rewrite fromBase64_toBase64 by by eapply utf8_encode_bytes, stringify_wf; [apply json_data_units|].
  unfold textOf. rewrite (json_utf8_roundtrip _ _ Hd Et Hb). unfold payload_field, payload_object.
  destruct p as [c k n x]; simpl in *.
  destruct c, k, n, x; done.
Qed.

Lemma resolved_curve curve name : resolveECDHCurve curve = Ok name → name ∈ map js ["P-256"; "P-384"; "P-521"]%string.
Proof.
  unfold resolveECDHCurve, curveName. repeat case_match; try done; intros [= <-]; set_solver.
Qed.

Lemma auto_import curve us e a A sA A' : curve ∈ map js ["P-256"; "P-384"; "P-521"]%string →
  generateKey (Ecdh curve) true us e = Ok (a, A) → exportKey "spki" A = Ok sA →
  importKey "spki" sA (Ecdh curve) false [] = Ok A' → importECDHPublicKeyAuto (toBase64 sA) = Ok (A', curve).
Proof.
  intros Hc Hg Hs Hi. unfold importECDHPublicKeyAuto. rewrite fromBase64_toBase64 by apply (law_export_bytes _ HW _ _ _ Hs).
  cbn [rbind]. assert (∀ l, curve ∈ l → first_ok (λ c, let* key := importKey "spki" sA (Ecdh c) false [] in Ok (key, c)) l =
    Some (A', curve)) as ->; [|done|done]. clear Hc. induction l as [|c l IH]; intros Hin; [by apply elem_of_nil in Hin|].
  cbn [first_ok]. destruct (decide (c = curve)) as [->|Hne]; [by rewrite Hi|].
  destruct (law_curve _ HW _ _ _ _ _ _ _ Hg Hs Hne) as [err ->]. cbn [rbind]. apply IH. by apply elem_of_cons in Hin as [->|].
Qed.

Lemma derive_agrees b A' a' B' curve : (∀ n, deriveBits b A' n = deriveBits a' B' n) →
  deriveECCAESKey b A' curve = deriveECCAESKey a' B' curve.
Proof. intros H. unfold deriveECCAESKey. destruct (own_get _ _); [by rewrite H|done]. Qed.

Lemma derived_key_decrypts a B curve k iv plain cipher : deriveECCAESKey a B curve = Ok k →
  encrypt (AesGcmParams iv None) k plain = Ok cipher → decrypt (AesGcmParams iv None) k cipher = Ok plain.
Proof.
  unfold deriveECCAESKey. intros H Hc. destruct (own_get _ _); [|by case_bool_decide]. res_inv. by eapply law_aes_derived.
Qed.

(** C14. ECDH encryption: what is encrypted for a public key the provider generated decrypts with
    the private key of that pair to the text, and the curve is recovered from the key alone. *)
Theorem ecdh_roundtrip entropy uuid input kd entropy' nonce text s c s' :
  nonce ≠ [] → Forall (λ b, b < 256)%N nonce → well_formed text = true → strip_bom (utf8_encode text) = utf8_encode text → signal_live s' = true →
  generateECDHCurveKeys entropy uuid input = Ok kd →
  ecdhEncode entropy' nonce {| ee_publicKey := kd_publicKey kd; ee_text := text; ee_signal := s |} = Ok c →
  ecdhDecode {| ed_privateKey := kd_keyRef kd; ed_cipherText := c; ed_signal := s' |} = Ok text.
Proof.
  intros Hn Hnb Hw Hbom Hs' [_ Hg]%runWithSignal_Ok [_ He]%runWithSignal_Ok. apply runWithSignal_Ok. split; [done|]. cbn [ee_publicKey ee_text ed_privateKey ed_cipherText] in *.
  apply rbind_Ok in Hg as (curve & Hcv%resolved_curve & ([a A] & Hga & Hd)%rbind_Ok).
  unfold describe_pair, exportPair in Hd. res_inv. subst kd. simplify_eq. cbn [kd_publicKey kd_keyRef] in *.
  rename x1 into sA, x2 into pa, c1 into b, c2 into B, x6 into sB, H1 into HsA, H3 into Hpa, H0 into HgB, H7 into HsB.
  destruct (law_ecdh _ HW _ _ _ _ _ _ _ _ _ _ _ _ Hga Hga HsA Hpa HsA) as (_ & A1 & _ & _ & HA1 & _).
  rewrite (auto_import _ _ _ _ _ _ _ Hcv Hga HsA HA1) in H. injection H as <- <-.
  destruct (law_ecdh _ HW _ _ _ _ _ _ _ _ _ _ _ _ Hga HgB HsA Hpa HsB) as (a' & A' & B' & Ha & HA & HB' & Hagree).
  rewrite HA in HA1. injection HA1 as <-. rewrite (derive_agrees _ _ _ _ curve Hagree) in H5.
  pose proof (law_export_bytes _ HW _ _ _ HsB) as [Hb1 Hb2]. pose proof (law_encrypt_bytes _ HW _ _ _ _ H6) as [Hb3 Hb4].
  rewrite payload_roundtrip.
  2:{ cbn. repeat constructor; try apply toBase64_units; try (by apply toBase64_non_empty).
      all: clear -Hcv; cbn in Hcv; set_unfold; destruct Hcv as [->|[->|[->|[]]]]; done || by apply code_unitsb. }
  cbn [rbind ep_curve ep_ephemeralPublicKey ep_nonce ep_cipherText]. unfold importECDHPrivateKey.
  rewrite !fromBase64_toBase64 by done || by apply (law_export_bytes _ HW _ _ _ Hpa). cbn [rbind]. rewrite Ha. cbn [rbind]. rewrite HB'.
  cbn [rbind]. rewrite H5. cbn [rbind]. rewrite (derived_key_decrypts _ _ _ _ _ _ _ H5 H6). cbn [rbind].
  f_equal. by apply utf8_roundtrip.
Qed.

(** AES-GCM: a text encrypted with a key decrypts with the same key and the same additional
    data to that text. *)
Theorem aes_roundtrip nonce secretKey value additional s s' c :
  length nonce = GCM_NONCE_BYTES → Forall (λ b, b < 256)%N nonce → signal_live s' = true →
  well_formed value = true → strip_bom (utf8_encode value) = utf8_encode value →
  encryptAES nonce {| ea_secretKey := secretKey; ea_value := value; ea_additional := additional; ea_signal := s |} = Ok c →
  decryptAES {| da_secretKey := secretKey; da_cipherValue := c; da_additional := additional; da_signal := s' |} = Ok value.
Proof.
  intros Hl Hn Hs' Hw Hb He. rewrite (aes_decrypts _ _ _ _ _ s' _ Hl Hn Hs' He). f_equal. by apply utf8_roundtrip.
Qed.

(** A text that begins with U+FEFF does not come back: the decoder drops the mark. *)
Theorem bom_lost nonce secretKey value additional s s' c :
  length nonce = GCM_NONCE_BYTES → Forall (λ b, b < 256)%N nonce → signal_live s' = true →
  well_formed value = true → strip_bom (utf8_encode value) = utf8_encode value →
  encryptAES nonce {| ea_secretKey := secretKey; ea_value := 65279%N :: value; ea_additional := additional; ea_signal := s |} = Ok c →
  decryptAES {| da_secretKey := secretKey; da_cipherValue := c; da_additional := additional; da_signal := s' |} = Ok value.
Proof.
  intros Hl Hn Hs' Hw Hb He. rewrite (aes_decrypts _ _ _ _ _ s' _ Hl Hn Hs' He). f_equal.
  transitivity (utf8_decode (utf8_encode value)); [|by apply utf8_roundtrip]. unfold textOf, bytesOf, utf8_decode. by rewrite Hb.
Qed.

(** The rule of the three verifications. *)
Definition verify_with (imp par : algorithm) (scheme : string) (publicKey text signature : jstr) (s : signal) : res thrown unit :=
  runWithSignal s
    (let* der := fromBase64 publicKey in
     let* key := importKey "spki" der imp false ["verify"]%string in
     let* sig := fromBase64 signature in
     let* ok := verify par key sig (bytesOf text) in
     require_valid ok scheme).

Lemma rbind_assoc {E A B C} (r : res E A) (f : A → res E B) (g : B → res E C) : rbind (rbind r f) g = rbind r (λ a, rbind (f a) g).
Proof. by destruct r. Qed.

Lemma verifyRSAPSS_with pk t sg s : verifyRSAPSS pk t sg s = verify_with (RsaHashed (js "RSA-PSS")) (RsaPssParams 32) "RSA-PSS" pk t sg s.
Proof. unfold verifyRSAPSS, verify_with, importRSAPublicKey. by rewrite rbind_assoc. Qed.

Lemma verifyRSAPKCS1_with pk t sg s :
  verifyRSAPKCS1v15SHA256 t pk sg s = verify_with (RsaHashed (js "RSASSA-PKCS1-v1_5")) RsaPkcs1 "RSA PKCS1v15" pk t sg s.
Proof. unfold verifyRSAPKCS1v15SHA256, verify_with, importRSAPublicKey. by rewrite rbind_assoc. Qed.

Lemma verify_with_Ok imp par scheme pk t sg s : verify_with imp par scheme pk t sg s = Ok tt ↔
  signal_live s = true ∧ ∃ der k sig, fromBase64 pk = Ok der ∧ importKey "spki" der imp false ["verify"]%string = Ok k ∧
    fromBase64 sg = Ok sig ∧ verify par k sig (bytesOf t) = Ok true.
Proof.
  unfold verify_with. rewrite runWithSignal_Ok. split.
  - intros (Hs & (der & ? & (k & ? & (sig & ? & (ok & Hv & Ho)%rbind_Ok)%rbind_Ok)%rbind_Ok)%rbind_Ok).
    unfold require_valid in Ho. destruct ok; [|done]. split; [done|]. by exists der, k, sig.
  - intros (Hs & der & k & sig & H1 & H2 & H3 & H4). split; [done|]. rewrite H1. cbn [rbind]. rewrite H2. cbn [rbind]. rewrite H3.
    cbn [rbind]. by rewrite H4.
Qed.

Lemma scheme_roundtrip gen imp par scheme us entropy uuid kd der k t sig s' :
  signature_scheme gen imp par → signal_live s' = true →
  (let* keys := generateKey gen true us entropy in describe_pair uuid keys) = Ok kd →
  fromBase64 (kd_keyRef kd) = Ok der → importKey "pkcs8" der imp false ["sign"]%string = Ok k → sign par k (bytesOf t) = Ok sig →
  verify_with imp par scheme (kd_publicKey kd) t (toBase64 sig) s' = Ok tt.
Proof.
  intros Hsch Hs' ([a A] & Hg & Hd)%rbind_Ok Hder Hk Hsig. unfold describe_pair, exportPair in Hd. res_inv. subst kd.
  simplify_eq. cbn [kd_keyRef kd_publicKey] in *. apply verify_with_Ok. split; [done|].
  rewrite fromBase64_toBase64 in Hder by by eapply law_export_bytes. injection Hder as <-.
  match goal with HA : exportKey "spki" _ = Ok ?sA |- _ => exists sA;
    destruct (law_signature _ HW _ _ _ _ _ _ _ _ _ _ _ _ Hsch Hg ltac:(eassumption) HA Hk Hsig) as (k' & ? & ?) end.
  exists k', sig. rewrite !fromBase64_toBase64 by first [by eapply law_export_bytes | by eapply law_sign_bytes]. done.
Qed.

(** C18. Signatures: what a generated key pair signs, its public key verifies, for Ed25519 and for
    both RSA schemes; and a verification resolves only when Web Crypto finds the signature valid. *)
Theorem sign_verifies entropy uuid s0 s s' kd text sg : signal_live s' = true →
  (generateEd25519Keys entropy uuid s0 = Ok kd → signEd25519 (kd_keyRef kd) text s = Ok sg →
     verifyEd25519 (kd_publicKey kd) text sg s' = Ok tt) ∧
  (∀ input, generateRSAKeys entropy uuid input = Ok kd →
     (signRSAPSS (kd_keyRef kd) text s = Ok sg → verifyRSAPSS (kd_publicKey kd) text sg s' = Ok tt) ∧
     (signRSAPKCS1v15SHA256 (kd_keyRef kd) text s = Ok sg → verifyRSAPKCS1v15SHA256 text (kd_publicKey kd) sg s' = Ok tt)) ∧
  (∀ pk m sg s, verifyEd25519 pk m sg s = Ok tt ∨ verifyRSAPSS pk m sg s = Ok tt ∨ verifyRSAPKCS1v15SHA256 m pk sg s = Ok tt →
     ∃ imp par k sig, fromBase64 sg = Ok sig ∧ (let* der := fromBase64 pk in importKey "spki" der imp false ["verify"]%string) = Ok k ∧
       verify par k sig (bytesOf m) = Ok true).
Proof.
  intros Hs'. split_and!.
  - intros [_ Hg]%runWithSignal_Ok [_ H]%runWithSignal_Ok. change (verifyEd25519 ?p ?t ?g ?s) with (verify_with Ed25519 Ed25519 "Ed25519" p t g s).
    apply rbind_Ok in H as (der & Hd & (k & Hk & (sig & Hsig & [= <-])%rbind_Ok)%rbind_Ok).
    exact (scheme_roundtrip _ _ _ _ _ _ _ _ _ _ _ _ _ Ed25519_scheme Hs' Hg Hd Hk Hsig).
  - intros input [_ Hg]%runWithSignal_Ok. unfold signRSAPSS, signRSAPKCS1v15SHA256, importRSAPrivateKey.
    rewrite verifyRSAPSS_with, verifyRSAPKCS1_with, !rbind_assoc.
    split; intros (_ & (der & Hd & (k & Hk & (sig & Hsig & [= <-])%rbind_Ok)%rbind_Ok)%rbind_Ok)%runWithSignal_Ok.
    + exact (scheme_roundtrip _ _ _ _ _ _ _ _ _ _ _ _ _ (RsaPss_scheme _) Hs' Hg Hd Hk Hsig).
    + exact (scheme_roundtrip _ _ _ _ _ _ _ _ _ _ _ _ _ (RsaPkcs1_scheme _) Hs' Hg Hd Hk Hsig).
  - intros pk m sg' s1. rewrite verifyRSAPSS_with, verifyRSAPKCS1_with.
    change (verifyEd25519 pk m sg' s1) with (verify_with Ed25519 Ed25519 "Ed25519" pk m sg' s1). rewrite !verify_with_Ok.
    intros [(_ & der & k & sig & -> & ? & ? & ?)|[(_ & der & k & sig & -> & ? & ? & ?)|(_ & der & k & sig & -> & ? & ? & ?)]]; eauto 10.
Qed.
End laws.

Lemma result_Err {A} (r : res thrown A) k e : (let* a := r in Ok (k a)) = @Err thrown provider_result e → r = Err e.
Proof. by destruct r; simpl; intros [= ->]. Qed.

Lemma local_rejects `{B64 : Base64} `{WC : WebCrypto} encodeHex nobleBlake3 rd c e :
  LocalProvider encodeHex nobleBlake3 rd c = Err e → th_encrypt e = true.
Proof.
  destruct c; intros H%result_Err; first [exact (runWithSignal_Err _ _ _ H) | injection H as <-; reflexivity].
Qed.

Lemma local_unsupported `{B64 : Base64} `{WC : WebCrypto} encodeHex nobleBlake3 rd c input :
  c = RotateKey input ∨ c = GetKey input ∨ c = DeactivateKey input →
  ∃ e, LocalProvider encodeHex nobleBlake3 rd c = Err e ∧ th_name e = js "UnsupportedOperationError".
Proof. intros Hc. destruct Hc as [Hc | [Hc | Hc]]; subst c; by eexists. Qed.

(** ** A concrete Web Crypto

    Not secure, but with the documented laws: a key is its bytes, a secret the sum of two keys. *)

Module Toy.
Definition all_bytes (l : list N) : bool := forallb (λ b, b <? 256)%N l && negb (bool_decide (l = [])).
Definition checked (l : list N) : res thrown (list N) := if all_bytes l then Ok l else Err (plain_Error (js "DataError")).

Definition curve_index (curve : jstr) : N :=
  if bool_decide (curve = js "P-256") then 1%N else if bool_decide (curve = js "P-384") then 2%N
  else if bool_decide (curve = js "P-521") then 3%N else 0%N.

Definition generate (alg : algorithm) (entropy : N) : res thrown (list N) :=
  match alg with
  | Ecdh curve => if (0 <? curve_index curve)%N then Ok [curve_index curve; (entropy mod 256)%N] else Err (plain_Error (js "NotSupportedError"))
  | _ => Ok [(entropy mod 256)%N]
  end.

Definition import (bytes : list N) (alg : algorithm) : res thrown (list N) :=
  match alg with
  | Ecdh curve => if bool_decide (head bytes = Some (curve_index curve)) then Ok bytes else Err (plain_Error (js "DataError"))
  | _ => Ok bytes
  end.

Definition sum (l : list N) : N := foldr N.add 0%N l.

#[export] Instance crypto : WebCrypto := {|
  CryptoKey := list N;
  generateKey alg _ _ e := let* k := generate alg e in Ok (k, k);
  importKey _ bytes alg _ _ := import bytes alg;
  exportKey _ k := checked k;
  encrypt _ _ plain := checked (plain ++ repeat 0%N 16);
  decrypt _ _ cipher := Ok (take (length cipher - 16) cipher);
  sign _ _ m := checked m;
  verify _ _ sig m := Ok (bool_decide (sig = m));
  digest_sha256 m := Ok m;
  deriveBits a B _ := Ok [((sum a + sum B) mod 256)%N];
  deriveKey _ k := Ok k;
|}.

Lemma checked_Ok l l' : checked l = Ok l' → l' = l ∧ Forall (λ b, b < 256)%N l ∧ l ≠ [].
Proof.
  unfold checked, all_bytes. destruct (forallb _ l) eqn:E; [|done]. case_bool_decide; [done|]. intros [= <-].
  split_and!; [done| |done]. rewrite forallb_forall in E. apply Forall_forall. intros x Hx%list_elem_of_In%E. lia.
Qed.

Lemma take_tag (plain : list N) : take (length (plain ++ repeat 0%N 16) - 16) (plain ++ repeat 0%N 16) = plain.
Proof. rewrite length_app, repeat_length, Nat.add_sub. apply take_app_length. Qed.

Lemma curve_index_inj curve curve' : (0 <? curve_index curve)%N = true → curve_index curve = curve_index curve' → curve = curve'.
Proof. unfold curve_index. repeat case_bool_decide; subst; done || congruence. Qed.

Lemma laws : web_crypto_laws crypto.
Proof.
  split; simpl.
  - intros raw k iv aad plain cipher _ [-> _]%checked_Ok. exists raw. by rewrite take_tag.
  - intros info k0 k iv aad plain cipher _ [-> _]%checked_Ok. by rewrite take_tag.
  - intros alg k plain cipher (-> & ? & ?)%checked_Ok. done.
  - intros alg k m sig (-> & ? & ?)%checked_Ok. done.
  - intros fmt k der (-> & ? & ?)%checked_Ok. done.
  - intros curve us us' e e' a A b B sA sB pa. destruct (0 <? curve_index curve)%N eqn:E; [|done]. simpl.
    intros [= <- <-] [= <- <-] [-> _]%checked_Ok [-> _]%checked_Ok [-> _]%checked_Ok. rewrite !bool_decide_true by done.
    do 3 eexists. split_and!; [done..|]. intros n. do 3 f_equal. lia.
  - intros curve curve' us e a A sA. destruct (0 <? curve_index curve)%N eqn:E; [|done]. simpl.
    intros [= <- <-] [-> _]%checked_Ok Hne. simpl. case_bool_decide as H; [|eauto]. injection H as H.
    by apply curve_index_inj in H as ->.
  - intros gen imp par us e a A pa sA k m sig Hs. intros Hg [-> _]%checked_Ok [-> _]%checked_Ok Hk [-> _]%checked_Ok.
    rewrite bool_decide_true by done. destruct Hs; simpl in *; eauto.
  - intros n us e a A pa sA k plain cipher Hg [-> _]%checked_Ok [-> _]%checked_Ok _ [-> _]%checked_Ok. exists a.
    by rewrite take_tag.
Qed.
End Toy.

#[local] Existing Instances Hex.codec Toy.crypto.

Definition toy_nonce : list N := [1; 2; 3; 4; 5; 6; 7; 8; 9; 10; 11; 12]%N.
Definition toy_rsa : KeyData := {| kd_publicKey := js "07"; kd_keyId := js "k"; kd_keyRef := js "07"; kd_provider := PROVIDER |}.

Lemma aes_roundtrip_witness :
  encryptAES toy_nonce {| ea_secretKey := js "0102"; ea_value := js "hi"; ea_additional := None; ea_signal := NoSignal |}
    = Ok (js "0102030405060708090a0b0c686900000000000000000000000000000000") ∧
  decryptAES {| da_secretKey := js "0102"; da_cipherValue := js "0102030405060708090a0b0c686900000000000000000000000000000000"; da_additional := None;
                da_signal := Pending None |} = Ok (js "hi").
Proof.
  split; [reflexivity|]. apply (aes_roundtrip Hex.inverse Toy.laws toy_nonce _ _ _ NoSignal); try reflexivity.
  repeat constructor.
Defined.

Definition toy_pair : KeyData := {| kd_publicKey := js "012a"; kd_keyId := js "k"; kd_keyRef := js "012a"; kd_provider := PROVIDER |}.
Definition toy_message : jstr := match ecdhEncode 7 toy_nonce {| ee_publicKey := js "012a"; ee_text := js "hi"; ee_signal := NoSignal |} with Ok c => c | Err _ => [] end.

Lemma ecdh_roundtrip_witness :
  generateECDHCurveKeys 42 (js "k") {| ge_curve := 256; ge_uid := None; ge_signal := NoSignal |} = Ok toy_pair ∧ toy_message ≠ [] ∧
  ecdhDecode {| ed_privateKey := js "012a"; ed_cipherText := toy_message; ed_signal := NoSignal |} = Ok (js "hi").
Proof.
  split; [reflexivity|]. split; [vm_compute; discriminate|].
  apply (ecdh_roundtrip Hex.inverse Toy.laws Hex.text 42 (js "k") {| ge_curve := 256; ge_uid := None; ge_signal := NoSignal |}
           toy_pair 7 toy_nonce (js "hi") NoSignal); first [discriminate | reflexivity | vm_compute; reflexivity | repeat (constructor; [reflexivity|]); constructor].
Defined.

Lemma sign_verifies_witness :
  generateRSAKeys 7 (js "k") {| gr_size := 2048; gr_uid := None; gr_signal := NoSignal |} = Ok toy_rsa ∧
  verifyRSAPSS (js "07") (js "hi") (js "6869") NoSignal = Ok tt.
Proof.
  split; [reflexivity|].
  apply (sign_verifies Hex.inverse Toy.laws 7 (js "k") NoSignal NoSignal NoSignal toy_rsa (js "hi") (js "6869"));
    [reflexivity|exact (eq_refl : generateRSAKeys 7 (js "k") {| gr_size := 2048; gr_uid := None; gr_signal := NoSignal |} = _)|reflexivity].
Defined.
