(* ===== verification/Kms.v ===== *)
(** * encrypt/common/kms.ts and the adapters of AWS KMS, Azure Key Vault and GCP KMS

    An operation that reaches a service is a value of [sv]: it takes the state, here the provider's
    own and the world of the service, and gives what it returns or throws with the state after it.
    The clients of the three cloud SDKs, and their constructors, are parameters over that world.
    The provider's own state is the adapter it resolved and the creation in flight, one transition
    per synchronous stretch of [#resolveApi]. *)

From S2P Require Export Pem Effect LocalProvider.
Local Open Scope nat_scope.

(** An operation on a service or a provider. *)
Notation sv := (eff thrown).

(** [runWithSignal]: the operation of a signal that is already aborted does not run; one that is
    aborted later has run, or runs on. *)
Definition srun {S A} (s : signal) (op : sv S A) : sv S A := λ st,
  match s with
  | AlreadyAborted reason => (Err (abort_error reason), st)
  | _ => let (r, st') := op st in (runWithSignal s r, st')
  end.

Lemma srun_Ok {S A} sg (op : sv S A) s a s' : srun sg op s = (Ok a, s') ↔ signal_live sg = true ∧ op s = (Ok a, s').
Proof.
  unfold srun. destruct sg as [|?|[?|]]; simpl; destruct (op s) as [[?|?] ?]; simpl; naive_solver.
Qed.

Lemma srun_live {S A} sg (op : sv S A) s a : signal_live sg = true → (op s).1 = Ok a → (srun sg op s).1 = Ok a.
Proof. unfold srun. destruct sg as [|?|[?|]]; [|done..|]; intros _; destruct (op s) as [? ?]; by simpl; intros ->. Qed.

(** ** common/kms.ts: requests and the adapter *)

Record KmsEncryptRequest := { ke_keyId : jstr; ke_plaintext : jstr; ke_algorithm : option jstr; ke_signal : signal }.
Record KmsDecryptRequest := { kd_id : jstr; kd_ciphertext : jstr; kd_algorithm : option jstr; kd_signal : signal }.
Record KmsSignRequest := { ks_keyId : jstr; ks_message : jstr; ks_algorithm : option jstr; ks_signal : signal }.
Record KmsVerifyRequest := { kv_keyId : jstr; kv_message : jstr; kv_signature : jstr; kv_algorithm : option jstr; kv_signal : signal }.

Record KmsKeyDescription := { de_keyId : jstr; de_keyRef : option jstr; de_publicKey : option jstr }.

Record KmsApi (W : Type) := {
  api_encrypt : jstr → list N → sv W (list N);
  api_decrypt : list N → option jstr → sv W (list N);
  api_sign : jstr → list N → jstr → sv W (list N);
  api_verify : jstr → list N → list N → jstr → sv W bool;
  api_describeKey : jstr → sv W KmsKeyDescription;
  api_disableKey : jstr → sv W unit;
  api_rotateKey : jstr → sv W unit;
}.
Arguments api_encrypt {W}. Arguments api_decrypt {W}. Arguments api_sign {W}. Arguments api_verify {W}.
Arguments api_describeKey {W}. Arguments api_disableKey {W}. Arguments api_rotateKey {W}.

(** ** [#resolveApi]: one creation in flight *)

(** [k_api] is [#api], [k_init] is [#apiInitialization] with the calls that wait on it; [k_created]
    only counts the calls of [createApi]. *)
Record kms_state (W : Type) := { k_api : option (KmsApi W); k_init : option (list nat); k_created : nat }.
Arguments k_api {W}. Arguments k_init {W}. Arguments k_created {W}.

Section resolve.
Context {W : Type}.

(** The constructor keeps the injected adapter. *)
Definition new_kms (injected : option (KmsApi W)) : kms_state W := {| k_api := injected; k_init := None; k_created := 0 |}.

(** A call of [#resolveApi] up to its await: the adapter, or the creation it waits on. *)
Definition resolve_call (caller : nat) (k : kms_state W) : kms_state W * option (KmsApi W) :=
  match k_api k, k_init k with
  | Some api, _ => (k, Some api)
  | None, Some waiting => ({| k_api := None; k_init := Some (waiting ++ [caller]); k_created := k_created k |}, None)
  | None, None => ({| k_api := None; k_init := Some [caller]; k_created := S (k_created k) |}, None)
  end.

(** The creation ends: what every call that waits gets. *)
Definition init_settled (r : res thrown (KmsApi W)) (k : kms_state W) : kms_state W * list (nat * res thrown (KmsApi W)) :=
  ({| k_api := match r with Ok api => Some api | Err _ => k_api k end; k_init := None; k_created := k_created k |},
   map (λ caller, (caller, r)) (default [] (k_init k))).

Inductive kms_event := KCall (caller : nat) | KSettled (r : res thrown (KmsApi W)).

(** One event and the answers so far; a creation ends only while it is in flight. *)
Definition kms_step (s : kms_state W * list (nat * res thrown (KmsApi W))) (e : kms_event) :
    option (kms_state W * list (nat * res thrown (KmsApi W))) :=
  let (k, out) := s in
  match e with
  | KCall caller =>
      let (k', now) := resolve_call caller k in
      Some (k', match now with Some api => out ++ [(caller, Ok api)] | None => out end)
  | KSettled r =>
      match k_init k with Some _ => let (k', answers) := init_settled r k in Some (k', out ++ answers) | None => None end
  end.

(** [await this.#resolveApi()] of a call on its own: a creation it starts, or joins, ends before
    it goes on. *)
Definition resolveApi (createApi : sv W (KmsApi W)) : sv (kms_state W * W) (KmsApi W) := λ s,
  let (k, w) := s in
  let (k1, now) := resolve_call 0 k in
  match now with
  | Some api => (Ok api, (k1, w))
  | None => let (r, w') := createApi w in (r, ((init_settled r k1).1, w'))
  end.
End resolve.
Arguments kms_event : clear implicits.

(** ** [KmsRepositoryBase] *)

Record KmsRepositoryBase (W : Type) := { rb_provider : jstr; rb_defaultSigningAlgorithm : jstr; rb_createApi : sv W (KmsApi W) }.
Arguments rb_provider {W}. Arguments rb_defaultSigningAlgorithm {W}. Arguments rb_createApi {W}.

Section base.
Context `{B64 : Base64} {W : Type} (b : KmsRepositoryBase W).

(** A call of the adapter leaves the provider's own state. *)
Definition on_api {A} (m : sv W A) : sv (kms_state W * W) A := λ s,
  let (k, w) := s in let (r, w') := m w in (r, (k, w')).

Definition toKeyData (desc : KmsKeyDescription) : KeyData :=
  {| kd_publicKey := default [] (de_publicKey desc); kd_keyId := de_keyId desc;
     kd_keyRef := default (de_keyId desc) (de_keyRef desc); kd_provider := rb_provider b |}.

Definition kms_getKey (input : KeyRequest) : sv (kms_state W * W) KeyData :=
  srun (kr_signal input)
    (eff* api := resolveApi (rb_createApi b) in
     eff* desc := on_api (api_describeKey api (kr_keyId input)) in
     eret (toKeyData desc)).

Definition kms_rotateKey (input : KeyRequest) : sv (kms_state W * W) KeyData :=
  srun (kr_signal input)
    (eff* api := resolveApi (rb_createApi b) in
     eff* _ := on_api (api_rotateKey api (kr_keyId input)) in
     eff* desc := on_api (api_describeKey api (kr_keyId input)) in
     eret (toKeyData desc)).

Definition kms_deactivateKey (input : KeyRequest) : sv (kms_state W * W) unit :=
  srun (kr_signal input)
    (eff* api := resolveApi (rb_createApi b) in
     on_api (api_disableKey api (kr_keyId input))).

Definition kms_encrypt (input : KmsEncryptRequest) : sv (kms_state W * W) jstr :=
  srun (ke_signal input)
    (eff* api := resolveApi (rb_createApi b) in
     eff* c := on_api (api_encrypt api (ke_keyId input) (bytesOf (ke_plaintext input))) in
     eret (toBase64 c)).

Definition kms_decrypt (input : KmsDecryptRequest) : sv (kms_state W * W) jstr :=
  srun (kd_signal input)
    (eff* api := resolveApi (rb_createApi b) in
     eff* c := elift (fromBase64 (kd_ciphertext input)) in
     eff* p := on_api (api_decrypt api c (Some (kd_id input))) in
     eret (textOf p)).

Definition kms_sign (input : KmsSignRequest) : sv (kms_state W * W) jstr :=
  srun (ks_signal input)
    (eff* api := resolveApi (rb_createApi b) in
     let algorithm := default (rb_defaultSigningAlgorithm b) (ks_algorithm input) in
     eff* sig := on_api (api_sign api (ks_keyId input) (bytesOf (ks_message input)) algorithm) in
     eret (toBase64 sig)).

Definition kms_verify (input : KmsVerifyRequest) : sv (kms_state W * W) bool :=
  srun (kv_signal input)
    (eff* api := resolveApi (rb_createApi b) in
     let algorithm := default (rb_defaultSigningAlgorithm b) (kv_algorithm input) in
     eff* sig := elift (fromBase64 (kv_signature input)) in
     on_api (api_verify api (kv_keyId input) (bytesOf (kv_message input)) sig algorithm)).

(** The interface [CloudKmsRepository]: a call and its result. *)
Inductive kms_request :=
  | KGetKey (input : KeyRequest) | KRotateKey (input : KeyRequest) | KDeactivateKey (input : KeyRequest)
  | KEncrypt (input : KmsEncryptRequest) | KDecrypt (input : KmsDecryptRequest)
  | KSign (input : KmsSignRequest) | KVerify (input : KmsVerifyRequest).
Inductive kms_reply := PKey (k : KeyData) | PText (t : jstr) | PBool (ok : bool) | PVoid.

Definition request_signal (c : kms_request) : signal :=
  match c with
  | KGetKey i | KRotateKey i | KDeactivateKey i => kr_signal i
  | KEncrypt i => ke_signal i | KDecrypt i => kd_signal i | KSign i => ks_signal i | KVerify i => kv_signal i
  end.

Definition CloudKmsRepository (c : kms_request) : sv (kms_state W * W) kms_reply :=
  match c with
  | KGetKey i => emap PKey (kms_getKey i)
  | KRotateKey i => emap PKey (kms_rotateKey i)
  | KDeactivateKey i => emap (λ _, PVoid) (kms_deactivateKey i)
  | KEncrypt i => emap PText (kms_encrypt i)
  | KDecrypt i => emap PText (kms_decrypt i)
  | KSign i => emap PText (kms_sign i)
  | KVerify i => emap PBool (kms_verify i)
  end.
End base.

(** [new Uint8Array(v)]: nothing is an empty array. *)
Definition bytes_or_none (v : option (list N)) : list N := default [] v.

(** ** aws-kms/repository.ts *)

(** The commands of the SDK with the input the source gives them. *)
Inductive AwsCommand :=
  | EncryptCommand (KeyId : jstr) (Plaintext : list N)
  | DecryptCommand (CiphertextBlob : list N) (KeyId : option jstr)
  | SignCommand (KeyId : jstr) (Message : list N) (MessageType SigningAlgorithm : jstr)
  | VerifyCommand (KeyId : jstr) (Message Signature : list N) (SigningAlgorithm : jstr)
  | DescribeKeyCommand (KeyId : jstr)
  | DisableKeyCommand (KeyId : jstr)
  | GetPublicKeyCommand (KeyId : jstr)
  | RotateKeyOnDemandCommand (KeyId : jstr).

(** The members of an output that the source reads; [aw_KeyMetadata] has [KeyId] and [Arn]. *)
Record AwsOutput := {
  aw_CiphertextBlob : option (list N); aw_Plaintext : option (list N); aw_Signature : option (list N);
  aw_SignatureValid : option bool; aw_KeyMetadata : option (option jstr * option jstr); aw_PublicKey : option (list N);
}.
Definition aws_empty : AwsOutput := {| aw_CiphertextBlob := None; aw_Plaintext := None; aw_Signature := None; aw_SignatureValid := None;
  aw_KeyMetadata := None; aw_PublicKey := None |}.

(** [import("@aws-sdk/client-kms")] and [new sdk.KMSClient(config)], a client being its [send]. *)
Class AwsSdk (W : Type) := {
  aws_import : sv W unit;
  KMSClient : list (jstr * jsval) → res thrown (AwsCommand → sv W AwsOutput);
}.

Record AwsKmsOptions (W : Type) := {
  ao_region : option jstr; ao_signingAlgorithm : option jstr; ao_api : option (KmsApi W);
  ao_clientConfig : option (list (jstr * jsval));
}.
Arguments ao_region {W}. Arguments ao_signingAlgorithm {W}. Arguments ao_api {W}. Arguments ao_clientConfig {W}.

Section aws.
Context `{B64 : Base64} {W : Type} `{Sdk : !AwsSdk W}.

(** [{ region, ...clientConfig }]. *)
Definition aws_config (options : AwsKmsOptions W) : list (jstr * jsval) :=
  of_entries ((js "region", from_option VStr VUndef (ao_region options)) :: default [] (ao_clientConfig options)).

Definition aws_api (send : AwsCommand → sv W AwsOutput) : KmsApi W := {|
  api_encrypt keyId plaintext := eff* out := send (EncryptCommand keyId plaintext) in eret (bytes_or_none (aw_CiphertextBlob out));
  api_decrypt ciphertext keyId := eff* out := send (DecryptCommand ciphertext keyId) in eret (bytes_or_none (aw_Plaintext out));
  api_sign keyId message algorithm :=
    eff* out := send (SignCommand keyId message (js "RAW") algorithm) in eret (bytes_or_none (aw_Signature out));
  api_verify keyId message signature algorithm :=
    eff* out := send (VerifyCommand keyId message signature algorithm) in eret (default false (aw_SignatureValid out));
  api_describeKey keyId :=
    eff* out := send (DescribeKeyCommand keyId) in
    let meta := default (None, None) (aw_KeyMetadata out) in
    eff* publicKey := ecatch
      (eff* pub := send (GetPublicKeyCommand keyId) in eret ((λ key, toBase64 (bytes_or_none (Some key))) <$> aw_PublicKey pub))
      (λ _, eret None) in
    eret {| de_keyId := default keyId meta.1; de_keyRef := meta.2; de_publicKey := publicKey |};
  api_disableKey keyId := eff* _ := send (DisableKeyCommand keyId) in eret tt;
  api_rotateKey keyId := eff* _ := send (RotateKeyOnDemandCommand keyId) in eret tt;
|}.

Definition aws_createRealApi (options : AwsKmsOptions W) : sv W (KmsApi W) :=
  eff* _ := aws_import in
  eff* send := elift (KMSClient (aws_config options)) in
  eret (aws_api send).

Definition AwsKmsProvider (options : AwsKmsOptions W) : KmsRepositoryBase W * kms_state W :=
  ({| rb_provider := js "aws-kms"; rb_defaultSigningAlgorithm := default (js "RSASSA_PSS_SHA_256") (ao_signingAlgorithm options);
      rb_createApi := aws_createRealApi options |},
   new_kms (ao_api options)).
End aws.

(** ** azure-key-vault/repository.ts *)

Record AzureKey := { az_name : jstr; az_id : option jstr }.
Record AzureCryptographyClient (W : Type) := {
  ac_encrypt : jstr → list N → sv W (list N); ac_decrypt : jstr → list N → sv W (list N);
  ac_signData : jstr → list N → sv W (list N); ac_verifyData : jstr → list N → list N → sv W bool;
}.
Arguments ac_encrypt {W}. Arguments ac_decrypt {W}. Arguments ac_signData {W}. Arguments ac_verifyData {W}.
(** [ak_setEnabled] is [updateKeyProperties] with [{ enabled }]. *)
Record AzureKeyClient (W : Type) := {
  ak_getKey : jstr → sv W AzureKey; ak_rotateKey : jstr → sv W AzureKey; ak_setEnabled : jstr → bool → sv W unit;
}.
Arguments ak_getKey {W}. Arguments ak_rotateKey {W}. Arguments ak_setEnabled {W}.

Class AzureSdk (W : Type) := {
  credential : Type;
  azure_import : sv W unit;
  KeyClient : jstr → credential → res thrown (AzureKeyClient W);
  CryptographyClient : jstr → credential → res thrown (AzureCryptographyClient W);
}.

(** [None] for a credential that is falsy. *)
Record AzureKeyVaultOptions (W : Type) (C : Type) := {
  zo_vaultUrl : option jstr; zo_credential : option C; zo_encryptionAlgorithm : option jstr;
  zo_signingAlgorithm : option jstr; zo_api : option (KmsApi W);
}.
Arguments zo_vaultUrl {W C}. Arguments zo_credential {W C}. Arguments zo_encryptionAlgorithm {W C}.
Arguments zo_signingAlgorithm {W C}. Arguments zo_api {W C}.

(** [s] when it is truthy. *)
Definition truthy_text (s : option jstr) : option jstr := match s with Some (c :: t) => Some (c :: t) | _ => None end.

Section azure.
Context {W : Type} `{Sdk : !AzureSdk W}.

Definition azure_api (keyClient : AzureKeyClient W) (encryptionAlgorithm : jstr) (cred : credential) : KmsApi W := {|
  api_encrypt keyId plaintext :=
    eff* crypto := elift (CryptographyClient keyId cred) in ac_encrypt crypto encryptionAlgorithm plaintext;
  api_decrypt ciphertext keyId :=
    match truthy_text keyId with
    | None => elift (Err (plain_Error (js "azure-key-vault: keyId is required to decrypt")))
    | Some keyId => eff* crypto := elift (CryptographyClient keyId cred) in ac_decrypt crypto encryptionAlgorithm ciphertext
    end;
  api_sign keyId message algorithm := eff* crypto := elift (CryptographyClient keyId cred) in ac_signData crypto algorithm message;
  api_verify keyId message signature algorithm :=
    eff* crypto := elift (CryptographyClient keyId cred) in ac_verifyData crypto algorithm message signature;
  api_describeKey keyId :=
    eff* key := ak_getKey keyClient keyId in
    eret {| de_keyId := az_name key; de_keyRef := Some (default (az_name key) (az_id key)); de_publicKey := None |};
  api_disableKey keyId := ak_setEnabled keyClient keyId false;
  api_rotateKey keyId := eff* _ := ak_rotateKey keyClient keyId in eret tt;
|}.

Definition azure_createRealApi (options : AzureKeyVaultOptions W credential) : sv W (KmsApi W) :=
  match truthy_text (zo_vaultUrl options), zo_credential options with
  | None, _ => elift (Err (plain_Error (js "azure-key-vault: vaultUrl is required")))
  | Some _, None => elift (Err (plain_Error (js "azure-key-vault: credential is required")))
  | Some vaultUrl, Some cred =>
      eff* _ := azure_import in
      eff* keyClient := elift (KeyClient vaultUrl cred) in
      eret (azure_api keyClient (default (js "RSA-OAEP-256") (zo_encryptionAlgorithm options)) cred)
  end.

Definition AzureKeyVaultProvider (options : AzureKeyVaultOptions W credential) : KmsRepositoryBase W * kms_state W :=
  ({| rb_provider := js "azure-key-vault"; rb_defaultSigningAlgorithm := default (js "PS256") (zo_signingAlgorithm options);
      rb_createApi := azure_createRealApi options |},
   new_kms (zo_api options)).
End azure.

(** ** gcp-kms/repository.ts *)

(** [gc_update] is [updateCryptoKeyVersion] of a name and a state under the mask [paths]; a public
    key is read for its [pem]. *)
Record GcpClient (W : Type) := {
  gc_encrypt : jstr → list N → sv W (option (list N)); gc_decrypt : option jstr → list N → sv W (option (list N));
  gc_asymmetricSign : jstr → list N → sv W (option (list N)); gc_getPublicKey : jstr → sv W (option jstr);
  gc_createCryptoKeyVersion : jstr → sv W unit; gc_update : jstr → jstr → list jstr → sv W unit;
}.
Arguments gc_encrypt {W}. Arguments gc_decrypt {W}. Arguments gc_asymmetricSign {W}. Arguments gc_getPublicKey {W}.
Arguments gc_createCryptoKeyVersion {W}. Arguments gc_update {W}.

Class GcpSdk (W : Type) := {
  gcp_import : sv W unit;
  KeyManagementServiceClient : list (jstr * jsval) → res thrown (GcpClient W);
}.

Record GcpKmsOptions (W : Type) := {
  go_signingAlgorithm : option jstr; go_api : option (KmsApi W); go_clientConfig : option (list (jstr * jsval));
}.
Arguments go_signingAlgorithm {W}. Arguments go_api {W}. Arguments go_clientConfig {W}.

(** The class of [/-----[A-Z ]+-----/g], whose matches are removed. *)
Definition label_char (c : N) : bool := is_upper c || (c =? 32)%N.
Definition pemToBase64 (pem : jstr) : jstr := filter (λ c, is_space c = false) (remove_markers label_char 0 pem).

Section gcp.
Context `{B64 : Base64} `{WC : WebCrypto} `{CM : CaseMapping} {W : Type} `{Sdk : !GcpSdk W}.

(** Does this algorithm label mean PSS? *)
Definition label_pss (algorithm : jstr) : bool :=
  let upper := toUpperCase algorithm in includes upper (js "PSS") || negb (includes upper (js "PKCS1")).

Definition verifyWithPublicKey (pem : jstr) (message signature : list N) (algorithm : jstr) : res thrown bool :=
  let* der := fromBase64 (pemToBase64 pem) in
  let pss := label_pss algorithm in
  let importParams := if pss then RsaHashed (js "RSA-PSS") else RsaHashed (js "RSASSA-PKCS1-v1_5") in
  let verifyParams := if pss then RsaPssParams 32 else RsaPkcs1 in
  let* key := importKey "spki" der importParams false ["verify"]%string in
  verify verifyParams key signature message.

Definition gcp_api (client : GcpClient W) : KmsApi W := {|
  api_encrypt keyId plaintext := eff* res := gc_encrypt client keyId plaintext in eret (bytes_or_none res);
  api_decrypt ciphertext keyId := eff* res := gc_decrypt client keyId ciphertext in eret (bytes_or_none res);
  api_sign keyId message _ :=
    eff* digest := elift (digest_sha256 message) in
    eff* res := gc_asymmetricSign client keyId digest in
    eret (bytes_or_none res);
  api_verify keyId message signature algorithm :=
    eff* pub := gc_getPublicKey client keyId in
    match truthy_text pub with
    | None => elift (Err (plain_Error (js "gcp-kms: no public key available to verify")))
    | Some pem => elift (verifyWithPublicKey pem message signature algorithm)
    end;
  api_describeKey keyId :=
    ecatch (eff* pub := gc_getPublicKey client keyId in
            eret {| de_keyId := keyId; de_keyRef := Some keyId; de_publicKey := pemToBase64 <$> truthy_text pub |})
      (λ _, eret {| de_keyId := keyId; de_keyRef := Some keyId; de_publicKey := None |});
  api_disableKey keyId := gc_update client keyId (js "DISABLED") [js "state"];
  api_rotateKey keyId := gc_createCryptoKeyVersion client keyId;
|}.

Definition gcp_createRealApi (options : GcpKmsOptions W) : sv W (KmsApi W) :=
  eff* _ := gcp_import in
  eff* client := elift (KeyManagementServiceClient (default [] (go_clientConfig options))) in
  eret (gcp_api client).

Definition GcpKmsProvider (options : GcpKmsOptions W) : KmsRepositoryBase W * kms_state W :=
  ({| rb_provider := js "gcp-kms"; rb_defaultSigningAlgorithm := default (js "RSA_SIGN_PSS_2048_SHA256") (go_signingAlgorithm options);
      rb_createApi := gcp_createRealApi options |},
   new_kms (go_api options)).
End gcp.

(** * Properties *)

(** ** The creation of the adapter *)

Section flight.
Context {W : Type}.

Definition is_settled (e : kms_event W) : bool := match e with KSettled _ => true | KCall _ => false end.
Definition is_created (e : kms_event W) : bool := match e with KSettled (Ok _) => true | _ => false end.
Definition callers (ls : list (kms_event W)) : list nat := omap (λ e, match e with KCall c => Some c | KSettled _ => None end) ls.

Lemma callers_snoc ls e : callers (ls ++ [e]) = callers ls ++ match e with KCall c => [c] | KSettled _ => [] end.
Proof. unfold callers. rewrite omap_app. by destruct e. Qed.

Lemma fst_answers (r : res thrown (KmsApi W)) l : map fst (map (λ caller : nat, (caller, r)) l) = l.
Proof. rewrite map_map. apply map_id. Qed.

Definition flight_inv (injected : option (KmsApi W)) (ls : list (kms_event W)) (k : kms_state W) (out : list (nat * res thrown (KmsApi W))) : Prop :=
  k_created k = count is_settled ls + (if k_init k then 1 else 0) ∧
  count is_created ls ≤ 1 ∧
  (is_Some (k_api k) → k_init k = None) ∧
  (is_Some injected → k_created k = 0 ∧ k_api k = injected) ∧
  callers ls ≡ₚ map fst out ++ default [] (k_init k) ∧
  (∀ caller api, (caller, Ok api) ∈ out → k_api k = Some api) ∧
  (k_api k = None → count is_created ls = 0).

Lemma flight_step injected ls k out e k' out' :
  flight_inv injected ls k out → kms_step (k, out) e = Some (k', out') → flight_inv injected (ls ++ [e]) k' out'.
Proof.
  intros (Hc & H1 & Hx & Hi & Hp & Ho & Hn) Hstep. unfold flight_inv. rewrite callers_snoc, !count_app.
  destruct e as [caller|r]; simpl in Hstep.
  - unfold resolve_call in Hstep. destruct k as [[api|] [ws|] n]; simpl in *; simplify_eq/=.
    + by specialize (Hx ltac:(eauto)).
    + split_and!; [lia|lia|done|intros H; specialize (Hi H) as [? ?]; split; [lia|done]|by rewrite map_app, Hp, !app_nil_r| |done].
      intros c a [H|H]%elem_of_app; [by eapply Ho|]. apply list_elem_of_singleton in H. by simplify_eq.
    + split_and!; [lia|lia|by intros [? ?]|intros H; specialize (Hi H) as [? ?]; lia|by rewrite Hp, <- (assoc_L (++))|done|lia].
    + split_and!; [lia|lia|by intros [? ?]|intros H; specialize (Hi H) as [? <-]; by destruct H|by rewrite Hp, app_nil_r|done|lia].
  - destruct k as [a [ws|] n]; simpl in *; [|done]. simplify_eq/=.
    assert (a = None) as -> by (destruct a; [by specialize (Hx ltac:(eauto))|done]). specialize (Hn eq_refl).
    split_and!; [lia|destruct r; simpl; lia|done|intros H; specialize (Hi H) as [? <-]; by destruct H| | |destruct r; simpl; [done|lia]].
    + rewrite Hp, map_app, fst_answers, !app_nil_r. done.
    + intros c api [H|H]%elem_of_app; [by apply Ho in H|]. apply list_elem_of_fmap in H as (? & [= -> <-] & _). done.
Qed.

(** The adapter of a cloud provider, for every interleaving of calls and of the ends of
    creations: at most one creation is in flight, a new one only starts after the one before
    failed, an injected adapter is never replaced, every call is waiting or answered exactly once,
    and all the calls answered with an adapter got the same one. *)
Theorem api_single_flight injected ls (k : kms_state W) out :
  run (λ s e s', kms_step s e = Some s') (new_kms injected, []) ls (k, out) →
  k_created k = count is_settled ls + (if k_init k then 1 else 0) ∧
  count is_created ls ≤ 1 ∧
  (is_Some (k_api k) → k_init k = None) ∧
  (is_Some injected → k_created k = 0 ∧ k_api k = injected) ∧
  callers ls ≡ₚ map fst out ++ default [] (k_init k) ∧
  ∀ caller api, (caller, Ok api) ∈ out → k_api k = Some api.
Proof.
  intros Hr. assert (flight_inv injected ls k out) as H; [|unfold flight_inv in H; naive_solver].
  remember (new_kms injected, []) as s0 eqn:E0. remember (k, out) as s eqn:Es. revert k out Es.
  induction Hr as [s|s ls [k1 out1] e s2 Hr IH Hstep]; intros k out ->.
  - injection E0 as -> ->. unfold flight_inv. simpl. split_and!; try done; [naive_solver|set_solver].
  - exact (flight_step _ _ _ _ _ _ _ (IH E0 _ _ eq_refl) Hstep).
Qed.
End flight.

(** ** Errors and signals *)

Lemma srun_Err {S A} sg (op : sv S A) s e s' : srun sg op s = (Err e, s') →
  th_encrypt e = true ∧ ∀ reason, sg = AlreadyAborted reason → e = abort_error reason ∧ s' = s.
Proof.
  assert (∀ r, srun sg op s = (r, s') → ∀ e, r = Err e → runWithSignal sg ((op s).1) = Err e ∧ (∀ reason, sg = AlreadyAborted reason → s' = s)) as H.
  { unfold srun. destruct sg; destruct (op s) as [r' s1]; intros r [= <- <-] e' E; split; try done; by intros ? [=]. }
  intros E. destruct (H _ E e eq_refl) as [E1 E2]. split; [by eapply runWithSignal_Err|].
  intros reason ->. split; [by injection E1|by eapply E2].
Qed.

Section errors.
Context `{B64 : Base64} {W : Type} (b : KmsRepositoryBase W).

(** The errors of a cloud provider: whatever the SDK, its constructor, the creation of the
    adapter or the decoding of an argument throws, a call rejects with an error of the encrypt
    module; a call whose signal is already aborted rejects with the abort reason and touches
    neither the service nor the provider. *)
Theorem kms_rejections c s e s' : CloudKmsRepository b c s = (Err e, s') →
  th_encrypt e = true ∧ ∀ reason, request_signal c = AlreadyAborted reason → e = abort_error reason ∧ s' = s.
Proof. destruct c; simpl; intros H%emap_Err%srun_Err; exact H. Qed.
End errors.

(** ** The contract of an adapter *)

(** [holds k w]: the service of the world [w] lets the key [k] be used; [suits k a]: the key signs
    with the algorithm [a]. *)
Section contract.
Context `{B64 : Base64} {W : Type} (holds : jstr → W → Prop) (suits : jstr → jstr → Prop).

Record api_laws (api : KmsApi W) : Prop := {
  law_decrypts k p w c w' w2 : api_encrypt api k p w = (Ok c, w') → holds k w2 → (api_decrypt api c (Some k) w2).1 = Ok p;
  law_encrypted k p w c w' : api_encrypt api k p w = (Ok c, w') → Forall (λ b, b < 256)%N c;
  law_verifies k m alg w sig w' w2 : suits k alg → api_sign api k m alg w = (Ok sig, w') → holds k w2 →
    (api_verify api k m sig alg w2).1 = Ok true;
  law_signed k m alg w sig w' : api_sign api k m alg w = (Ok sig, w') → Forall (λ b, b < 256)%N sig;
}.

Definition create_laws (b : KmsRepositoryBase W) : Prop := ∀ w api w', rb_createApi b w = (Ok api, w') → api_laws api.
Definition state_laws (k : kms_state W) : Prop := ∀ api, k_api k = Some api → api_laws api.

Lemma resolveApi_Ok b k w api s' : create_laws b → state_laws k → resolveApi (rb_createApi b) (k, w) = (Ok api, s') →
  api_laws api ∧ k_api s'.1 = Some api.
Proof.
  intros Hb Hk. unfold resolveApi, resolve_call. destruct (k_api k) as [a|] eqn:Ea.
  - intros [= <- <-]. by split; [apply Hk|].
  - destruct (k_init k); destruct (rb_createApi b w) as [[a|e] w'] eqn:Ec; intros [= <- <-]; (split; [exact (Hb _ _ _ Ec)|done]).
Qed.

Lemma resolveApi_ready (create : sv W (KmsApi W)) k w api : k_api k = Some api → resolveApi create (k, w) = (Ok api, (k, w)).
Proof. intros Ha. unfold resolveApi, resolve_call. by rewrite Ha. Qed.

Lemma on_api_Ok {A} (m : sv W A) k w a s' : on_api m (k, w) = (Ok a, s') ↔ ∃ w', m w = (Ok a, w') ∧ s' = (k, w').
Proof. unfold on_api. destruct (m w) as [? ?]. naive_solver. Qed.

Lemma on_api_fst {A} (m : sv W A) k w : (on_api m (k, w)).1 = (m w).1.
Proof. unfold on_api. by destruct (m w). Qed.

(** What an operation that resolves the adapter first has done when it returns. *)
Lemma through_api {A} b sg (f : KmsApi W → sv (kms_state W * W) A) k w a s' : create_laws b → state_laws k →
  srun sg (eff* api := resolveApi (rb_createApi b) in f api) (k, w) = (Ok a, s') →
  ∃ api k1 w1, api_laws api ∧ k_api k1 = Some api ∧ f api (k1, w1) = (Ok a, s').
Proof.
  intros Hb Hk (_ & api & [k1 w1] & Hr & Hf)%srun_Ok%(λ H, conj (proj1 H) (proj1 (ebind_Ok _ _ _ _ _) (proj2 H))).
  apply resolveApi_Ok in Hr as [Hl Ha]; [|done..]. by exists api, k1, w1.
Qed.

Lemma crypt_roundtrip b k w key p a a' s s' c k' w' w2 : base64_inverse B64 → create_laws b → state_laws k →
  kms_encrypt b {| ke_keyId := key; ke_plaintext := p; ke_algorithm := a; ke_signal := s |} (k, w) = (Ok c, (k', w')) →
  well_formed p = true → strip_bom (utf8_encode p) = utf8_encode p → signal_live s' = true → holds key w2 →
  (kms_decrypt b {| kd_id := key; kd_ciphertext := c; kd_algorithm := a'; kd_signal := s' |} (k', w2)).1 = Ok p.
Proof.
  intros HB Hb Hk H Hwf Hbom Hs Hh. apply through_api in H as (api & k1 & w1 & Hl & Ha & H); [|done..].
  apply ebind_Ok in H as (ct & s2 & (w3 & Hc & ->)%on_api_Ok & [= <- <- <-]). apply srun_live; [done|].
  unfold ebind. rewrite (resolveApi_ready _ _ _ api) by done. unfold elift. cbn [kd_ciphertext kd_id ke_keyId ke_plaintext] in *.
  rewrite (fromBase64_toBase64 HB) by by eapply law_encrypted.
  pose proof (law_decrypts _ Hl _ _ _ _ _ w2 Hc Hh) as Hd. rewrite <- (on_api_fst _ k1) in Hd.
  destruct (on_api _ (k1, w2)) as [r s3]. simpl in Hd. subst r. simpl. f_equal.
  transitivity (utf8_decode (utf8_encode p)); [done|]. by apply utf8_roundtrip.
Qed.

Lemma sign_roundtrip b k w key m a s s' sg k' w' w2 : base64_inverse B64 → create_laws b → state_laws k →
  kms_sign b {| ks_keyId := key; ks_message := m; ks_algorithm := a; ks_signal := s |} (k, w) = (Ok sg, (k', w')) →
  suits key (default (rb_defaultSigningAlgorithm b) a) → signal_live s' = true → holds key w2 →
  (kms_verify b {| kv_keyId := key; kv_message := m; kv_signature := sg; kv_algorithm := a; kv_signal := s' |} (k', w2)).1 = Ok true.
Proof.
  intros HB Hb Hk H Hsuit Hs Hh. apply through_api in H as (api & k1 & w1 & Hl & Ha & H); [|done..].
  apply ebind_Ok in H as (sig & s2 & (w3 & Hc & ->)%on_api_Ok & [= <- <- <-]). apply srun_live; [done|].
  unfold ebind. rewrite (resolveApi_ready _ _ _ api) by done. unfold elift. cbn [kv_signature kv_keyId kv_message kv_algorithm ks_keyId ks_message ks_algorithm] in *.
  rewrite (fromBase64_toBase64 HB) by by eapply law_signed. rewrite on_api_fst. by eapply law_verifies.
Qed.
End contract.

(** ** The adapters keep the contract *)

Section adapters.
Context `{B64 : Base64} {W : Type} (holds : jstr → W → Prop) (suits : jstr → jstr → Prop).

(** What the AWS service documents: an output carries the member of its command, a ciphertext
    decrypts and a signature is valid while the key may be used. *)
Record aws_service (send : AwsCommand → sv W AwsOutput) : Prop := {
  aws_decrypts k p w out w' : send (EncryptCommand k p) w = (Ok out, w') →
    ∃ c, aw_CiphertextBlob out = Some c ∧ Forall (λ b, b < 256)%N c ∧
      ∀ w2, holds k w2 → ∃ out' w3, send (DecryptCommand c (Some k)) w2 = (Ok out', w3) ∧ aw_Plaintext out' = Some p;
  aws_verifies k m alg w out w' : send (SignCommand k m (js "RAW") alg) w = (Ok out, w') →
    ∃ sig, aw_Signature out = Some sig ∧ Forall (λ b, b < 256)%N sig ∧
      ∀ w2, suits k alg → holds k w2 → ∃ out' w3, send (VerifyCommand k m sig alg) w2 = (Ok out', w3) ∧ aw_SignatureValid out' = Some true;
}.

Lemma aws_api_laws send : aws_service send → api_laws holds suits (aws_api send).
Proof.
  intros HS. split; simpl.
  - intros k p w c w' w2 (out & w1 & (ct & Hct & _ & H)%(aws_decrypts _ HS) & [= <- <-])%ebind_Ok Hh. rewrite Hct.
    destruct (H w2 Hh) as (out' & w3 & E & Hp). unfold ebind. cbn. rewrite E. cbn. by rewrite Hp.
  - intros k p w c w' (out & w1 & (ct & Hct & Hb & _)%(aws_decrypts _ HS) & [= <- <-])%ebind_Ok. by rewrite Hct.
  - intros k m alg w sig w' w2 Hs (out & w1 & (sg & Hsg & _ & H)%(aws_verifies _ HS) & [= <- <-])%ebind_Ok Hh. rewrite Hsg.
    destruct (H w2 Hs Hh) as (out' & w3 & E & Hp). unfold ebind. cbn. rewrite E. cbn. by rewrite Hp.
  - intros k m alg w sig w' (out & w1 & (sg & Hsg & Hb & _)%(aws_verifies _ HS) & [= <- <-])%ebind_Ok. by rewrite Hsg.
Qed.

Lemma aws_create_laws `{!AwsSdk W} options : (∀ send, KMSClient (aws_config options) = Ok send → aws_service send) →
  create_laws holds suits (AwsKmsProvider options).1.
Proof.
  intros HS w api w' (u & w1 & _ & (send & w2 & [Hs ->]%elift_Ok & [= <- <-])%ebind_Ok)%ebind_Ok. by eapply aws_api_laws, HS.
Qed.

(** The same of the Azure service, where a key that may be used has a name. *)
Record azure_service `{!AzureSdk W} (alg : jstr) (cred : credential) : Prop := {
  azure_named k w : holds k w → k ≠ [];
  azure_decrypts k client p w c w' w2 : CryptographyClient k cred = Ok client → ac_encrypt client alg p w = (Ok c, w') →
    holds k w2 → (ac_decrypt client alg c w2).1 = Ok p;
  azure_encrypted k client p w c w' : CryptographyClient k cred = Ok client → ac_encrypt client alg p w = (Ok c, w') → Forall (λ b, b < 256)%N c;
  azure_verifies k client m a w sig w' w2 : CryptographyClient k cred = Ok client → ac_signData client a m w = (Ok sig, w') → suits k a →
    holds k w2 → (ac_verifyData client a m sig w2).1 = Ok true;
  azure_signed k client m a w sig w' : CryptographyClient k cred = Ok client → ac_signData client a m w = (Ok sig, w') → Forall (λ b, b < 256)%N sig;
}.

Lemma azure_api_laws `{!AzureSdk W} keyClient alg cred : azure_service alg cred → api_laws holds suits (azure_api keyClient alg cred).
Proof.
  intros HS. split; simpl.
  - intros k p w c w' w2 (client & w1 & [Hc ->]%elift_Ok & He)%ebind_Ok Hh. pose proof (azure_named _ _ HS _ _ Hh) as Hk.
    destruct k as [|x k]; [done|]. simpl. unfold ebind, elift. rewrite Hc. by eapply azure_decrypts.
  - intros k p w c w' (client & w1 & [Hc ->]%elift_Ok & He)%ebind_Ok. by eapply azure_encrypted.
  - intros k m a w sig w' w2 Hs (client & w1 & [Hc ->]%elift_Ok & He)%ebind_Ok Hh. unfold ebind, elift. rewrite Hc. by eapply azure_verifies.
  - intros k m a w sig w' (client & w1 & [Hc ->]%elift_Ok & He)%ebind_Ok. by eapply azure_signed.
Qed.

Lemma azure_create_laws `{!AzureSdk W} options :
  (∀ cred, zo_credential options = Some cred → azure_service (default (js "RSA-OAEP-256") (zo_encryptionAlgorithm options)) cred) →
  create_laws holds suits (AzureKeyVaultProvider options).1.
Proof.
  intros HS w api w'. unfold AzureKeyVaultProvider, azure_createRealApi. cbn [fst rb_createApi].
  destruct (truthy_text _), (zo_credential options) as [cred|] eqn:Ec; try done.
  intros (u & w1 & _ & (kc & w2 & [Hs ->]%elift_Ok & [= <- <-])%ebind_Ok)%ebind_Ok. by apply azure_api_laws, HS.
Qed.
End adapters.

(** ** PEM blocks *)

(** The Base64 body of a PEM block: of a text with one header and one footer, [pemToBase64]
    keeps exactly the characters of the lines between them. *)
Theorem pemToBase64_block label lines : forallb label_char label = true →
  Forall (Forall (λ c, c ≠ 45%N ∧ is_space c = false)) lines → pemToBase64 (pem_block label lines) = concat lines.
Proof. by apply (pem_lines label_char). Qed.

(** ** Verification at GCP, which happens on this side *)

Lemma verifyWithPublicKey_Ok `{B64 : Base64} `{WC : WebCrypto} `{CM : CaseMapping} pem m sig alg : verifyWithPublicKey pem m sig alg = Ok true ↔
  ∃ der key, fromBase64 (pemToBase64 pem) = Ok der ∧
    importKey "spki" der (RsaHashed (js (if label_pss alg then "RSA-PSS" else "RSASSA-PKCS1-v1_5"))) false ["verify"]%string = Ok key ∧
    verify (if label_pss alg then RsaPssParams 32 else RsaPkcs1) key sig m = Ok true.
Proof. unfold verifyWithPublicKey. rewrite rbind_Ok. setoid_rewrite rbind_Ok. destruct (label_pss alg); naive_solver. Qed.

Section gcp_laws.
Context `{B64 : Base64} `{WC : WebCrypto} `{CM : CaseMapping} {W : Type} (holds : jstr → W → Prop) (suits : jstr → jstr → Prop).

(** What the GCP service documents: a ciphertext decrypts, and the public key it publishes as a
    PEM block verifies, under the scheme of the label, the signatures it made of a digest. *)
Record gcp_service (client : GcpClient W) : Prop := {
  gcp_decrypts k p w out w' : gc_encrypt client k p w = (Ok out, w') →
    ∃ c, out = Some c ∧ Forall (λ b, b < 256)%N c ∧
      ∀ w2, holds k w2 → ∃ w3, gc_decrypt client (Some k) c w2 = (Ok (Some p), w3);
  gcp_verifies k m digest w out w' : digest_sha256 m = Ok digest → gc_asymmetricSign client k digest w = (Ok out, w') →
    ∃ sig, out = Some sig ∧ Forall (λ b, b < 256)%N sig ∧
      ∀ w2 alg, suits k alg → holds k w2 → ∃ lines der key w3,
        gc_getPublicKey client k w2 = (Ok (Some (pem_block (js "PUBLIC KEY") lines)), w3) ∧
        Forall (Forall (λ c, c ≠ 45%N ∧ is_space c = false)) lines ∧ fromBase64 (concat lines) = Ok der ∧
        importKey "spki" der (RsaHashed (js (if label_pss alg then "RSA-PSS" else "RSASSA-PKCS1-v1_5"))) false ["verify"]%string = Ok key ∧
        verify (if label_pss alg then RsaPssParams 32 else RsaPkcs1) key sig m = Ok true;
}.

Lemma pem_body lines : Forall (Forall (λ c, c ≠ 45%N ∧ is_space c = false)) lines →
  pemToBase64 (pem_block (js "PUBLIC KEY") lines) = concat lines.
Proof. intros H. by apply (pem_lines label_char). Qed.

Lemma gcp_api_laws client : gcp_service client → api_laws holds suits (gcp_api client).
Proof.
  intros HS. split; simpl.
  - intros k p w c w' w2 (out & w1 & (ct & -> & _ & H)%(gcp_decrypts _ HS) & [= <- <-])%ebind_Ok Hh.
    destruct (H w2 Hh) as (w3 & E). unfold ebind. cbn. by rewrite E.
  - intros k p w c w' (out & w1 & (ct & -> & Hb & _)%(gcp_decrypts _ HS) & [= <- <-])%ebind_Ok. done.
  - intros k m alg w sig w' w2 Hs (digest & w0 & [Hd ->]%elift_Ok & (out & w1 & Ho & [= <- <-])%ebind_Ok)%ebind_Ok Hh.
    apply (gcp_verifies _ HS _ _ _ _ _ _ Hd) in Ho as (sg & -> & _ & H).
    destruct (H w2 alg Hs Hh) as (lines & der & key & w3 & E & Hl & Hder & Hk & Hv).
    pose proof (pem_body lines Hl) as Hb. destruct (pem_block _ lines) as [|c t] eqn:Ep; [discriminate Ep|].
    unfold ebind. rewrite E. cbn. apply verifyWithPublicKey_Ok. exists der, key. by rewrite Hb.
  - intros k m alg w sig w' (digest & w0 & [Hd ->]%elift_Ok & (out & w1 & Ho & [= <- <-])%ebind_Ok)%ebind_Ok.
    by apply (gcp_verifies _ HS _ _ _ _ _ _ Hd) in Ho as (sg & -> & ? & _).
Qed.

Lemma gcp_create_laws `{!GcpSdk W} options :
  (∀ client, KeyManagementServiceClient (default [] (go_clientConfig options)) = Ok client → gcp_service client) →
  create_laws holds suits (GcpKmsProvider options).1.
Proof.
  intros HS w api w' (u & w1 & _ & (client & w2 & [Hs ->]%elift_Ok & [= <- <-])%ebind_Ok)%ebind_Ok. by eapply gcp_api_laws, HS.
Qed.

End gcp_laws.

(** ** The three providers *)

Section providers.
Context `{B64 : Base64} `{WC : WebCrypto} `{CM : CaseMapping} {W : Type} `{!AwsSdk W} `{!AzureSdk W} `{!GcpSdk W}.
Context (holds : jstr → W → Prop) (suits : jstr → jstr → Prop).

(** The cloud the application chose, with its options. *)
Inductive cloud_options := Aws (options : AwsKmsOptions W) | Azure (options : AzureKeyVaultOptions W credential) | Gcp (options : GcpKmsOptions W).

Definition cloud_provider (p : cloud_options) : KmsRepositoryBase W * kms_state W :=
  match p with
  | Aws options => AwsKmsProvider options
  | Azure options => AzureKeyVaultProvider options
  | Gcp options => GcpKmsProvider options
  end.

(** The clients that its SDK makes reach a service that does what it documents. *)
Definition cloud_service (p : cloud_options) : Prop :=
  match p with
  | Aws options => ∀ send, KMSClient (aws_config options) = Ok send → aws_service holds suits send
  | Azure options => ∀ cred, zo_credential options = Some cred →
      azure_service holds suits (default (js "RSA-OAEP-256") (zo_encryptionAlgorithm options)) cred
  | Gcp options => ∀ client, KeyManagementServiceClient (default [] (go_clientConfig options)) = Ok client → gcp_service holds suits client
  end.

(** The adapter that the provider keeps, if any, is one that it created: none was injected. *)
Definition created_by (b : KmsRepositoryBase W) (k : kms_state W) : Prop := ∀ api, k_api k = Some api → ∃ w w', rb_createApi b w = (Ok api, w').

Lemma provider_keeps_contract p : cloud_service p → create_laws holds suits (cloud_provider p).1.
Proof.
  destruct p; [apply aws_create_laws|apply azure_create_laws|apply gcp_create_laws].
Qed.

Lemma created_contract p k : cloud_service p → created_by (cloud_provider p).1 k → state_laws holds suits k.
Proof. intros Hp Hk api (w & w' & Ha)%Hk. by eapply provider_keeps_contract. Qed.

(** C16. Round trips of the AWS, Azure and GCP providers, by the adapters of the source over SDK
    clients that do what the services document, also when the call itself first creates the
    adapter: what a provider encrypts, a well-formed text without a BOM, it decrypts as long as
    the service still holds the key, and the signatures it returns verify under the algorithm they
    were made with, the provider's own when the request names none, when the key suits it. *)
Theorem kms_roundtrip (p : cloud_options) k w : base64_inverse B64 → cloud_service p → created_by (cloud_provider p).1 k →
  let b := (cloud_provider p).1 in
  (∀ key text a a' s s' c k' w' w2, kms_encrypt b {| ke_keyId := key; ke_plaintext := text; ke_algorithm := a; ke_signal := s |} (k, w) = (Ok c, (k', w')) →
     well_formed text = true → strip_bom (utf8_encode text) = utf8_encode text → signal_live s' = true → holds key w2 →
     (kms_decrypt b {| kd_id := key; kd_ciphertext := c; kd_algorithm := a'; kd_signal := s' |} (k', w2)).1 = Ok text) ∧
  (∀ key m a s s' sg k' w' w2, kms_sign b {| ks_keyId := key; ks_message := m; ks_algorithm := a; ks_signal := s |} (k, w) = (Ok sg, (k', w')) →
     suits key (default (rb_defaultSigningAlgorithm b) a) → signal_live s' = true → holds key w2 →
     (kms_verify b {| kv_keyId := key; kv_message := m; kv_signature := sg; kv_algorithm := a; kv_signal := s' |} (k', w2)).1 = Ok true).
Proof.
  intros HB Hp Hk b. pose proof (provider_keeps_contract p Hp) as Hb. pose proof (created_contract p k Hp Hk) as Hs.
  split; intros; [by eapply crypt_roundtrip|by eapply sign_roundtrip].
Qed.
End providers.

Section gcp_local.
Context `{B64 : Base64} `{WC : WebCrypto} `{CM : CaseMapping} {W : Type}.

(** C17. A GCP verification is the local one: with the public key that the service publishes, it
    resolves to true exactly when the local provider's verification of the scheme that the
    algorithm names accepts the signature, PSS unless the label says PKCS1. *)
Theorem gcp_verify_local (b : KmsRepositoryBase W) k client w w' key m sg alg s pem :
  k_api k = Some (gcp_api client) → gc_getPublicKey client key w = (Ok (Some pem), w') → pem ≠ [] →
  (kms_verify b {| kv_keyId := key; kv_message := m; kv_signature := sg; kv_algorithm := alg; kv_signal := s |} (k, w)).1 = Ok true ↔
  (if label_pss (default (rb_defaultSigningAlgorithm b) alg) then verifyRSAPSS (pemToBase64 pem) m sg s
   else verifyRSAPKCS1v15SHA256 m (pemToBase64 pem) sg s) = Ok tt.
Proof.
  intros Ha Hpem Hne. rewrite verifyRSAPSS_with, verifyRSAPKCS1_with. unfold kms_verify. cbn [kv_keyId kv_message kv_signature kv_algorithm kv_signal].
  set (a := default _ alg).
  assert ((if label_pss a then verify_with (RsaHashed (js "RSA-PSS")) (RsaPssParams 32) "RSA-PSS" (pemToBase64 pem) m sg s
           else verify_with (RsaHashed (js "RSASSA-PKCS1-v1_5")) RsaPkcs1 "RSA PKCS1v15" (pemToBase64 pem) m sg s) = Ok tt ↔
          signal_live s = true ∧ ∃ sig, fromBase64 sg = Ok sig ∧ verifyWithPublicKey pem (bytesOf m) sig a = Ok true) as ->.
  { setoid_rewrite verifyWithPublicKey_Ok. destruct (label_pss a); rewrite verify_with_Ok; naive_solver. }
  match goal with |- (srun s ?o (k, w)).1 = _ ↔ _ => set (op := o) end.
  assert ((op (k, w)).1 = (let* sig := fromBase64 sg in verifyWithPublicKey pem (bytesOf m) sig a)) as Hop.
  { unfold op, ebind. rewrite (resolveApi_ready _ _ _ _ Ha). unfold elift. destruct (fromBase64 sg) as [sig|]; [|done].
    rewrite on_api_fst. cbn. unfold ebind. rewrite Hpem. destruct pem; [done|]. cbn. reflexivity. }
  transitivity (signal_live s = true ∧ (op (k, w)).1 = Ok true).
  - clear Hop. unfold srun. destruct s as [|?|[?|]]; destruct (op (k, w)) as [[?|?] ?]; simpl; naive_solver.
  - rewrite Hop, rbind_Ok. done.
Qed.
End gcp_local.

(** ** Where the code does not do what it says *)

(** The algorithm override of a request is not read by [encrypt] nor by [decrypt]. *)
Lemma override_ignored `{B64 : Base64} {W} (b : KmsRepositoryBase W) key text a a' s :
  kms_encrypt b {| ke_keyId := key; ke_plaintext := text; ke_algorithm := a; ke_signal := s |} =
  kms_encrypt b {| ke_keyId := key; ke_plaintext := text; ke_algorithm := a'; ke_signal := s |} ∧
  kms_decrypt b {| kd_id := key; kd_ciphertext := text; kd_algorithm := a; kd_signal := s |} =
  kms_decrypt b {| kd_id := key; kd_ciphertext := text; kd_algorithm := a'; kd_signal := s |}.
Proof. done. Qed.

(** A key of GCP that cannot be read, whatever the reason, is described as an existing one. *)
Lemma gcp_unreadable_key `{B64 : Base64} `{WC : WebCrypto} `{CM : CaseMapping} {W} (b : KmsRepositoryBase W) k client w w' key u e :
  k_api k = Some (gcp_api client) → gc_getPublicKey client key w = (Err e, w') →
  (kms_getKey b {| kr_keyId := key; kr_uid := u; kr_signal := NoSignal |} (k, w)).1 =
    Ok {| kd_publicKey := []; kd_keyId := key; kd_keyRef := key; kd_provider := rb_provider b |}.
Proof.
  intros Ha He. apply srun_live; [done|]. unfold ebind. rewrite (resolveApi_ready _ _ _ _ Ha). unfold on_api. cbn.
  unfold ecatch, ebind. by rewrite He.
Qed.

(** ** A concrete service *)

Module ToyCloud.
(** The keys that are enabled. *)
Definition world : Type := list jstr.
Definition holds (k : jstr) (w : world) : Prop := k ∈ w.
Definition suits (k alg : jstr) : Prop := alg ∈ map js ["RSASSA_PSS_SHA_256"; "PS256"; "RSA_SIGN_PSS_2048_SHA256"]%string.

Definition if_enabled {A} (k : jstr) (w : world) (r : res thrown A) : res thrown A * world :=
  (if bool_decide (k ∈ w) then r else Err (plain_Error (js "DisabledException")), w).

Definition out_cipher (c : list N) : AwsOutput :=
  {| aw_CiphertextBlob := Some c; aw_Plaintext := None; aw_Signature := None; aw_SignatureValid := None; aw_KeyMetadata := None; aw_PublicKey := None |}.
Definition out_plain (p : list N) : AwsOutput :=
  {| aw_CiphertextBlob := None; aw_Plaintext := Some p; aw_Signature := None; aw_SignatureValid := None; aw_KeyMetadata := None; aw_PublicKey := None |}.
Definition out_sign (sig : list N) : AwsOutput :=
  {| aw_CiphertextBlob := None; aw_Plaintext := None; aw_Signature := Some sig; aw_SignatureValid := None; aw_KeyMetadata := None; aw_PublicKey := None |}.
Definition out_valid (ok : bool) : AwsOutput :=
  {| aw_CiphertextBlob := None; aw_Plaintext := None; aw_Signature := None; aw_SignatureValid := Some ok; aw_KeyMetadata := None; aw_PublicKey := None |}.

Definition send (c : AwsCommand) : sv world AwsOutput := λ w,
  match c with
  | EncryptCommand k p => if_enabled k w (let* c := Toy.checked (p ++ [255%N]) in Ok (out_cipher c))
  | DecryptCommand c (Some k) => if_enabled k w (Ok (out_plain (take (length c - 1) c)))
  | DecryptCommand _ None => (Err (plain_Error (js "ValidationException")), w)
  | SignCommand k m _ _ => if_enabled k w (let* sig := Toy.checked (m ++ [255%N]) in Ok (out_sign sig))
  | VerifyCommand k m sig _ => if_enabled k w (Ok (out_valid (bool_decide (sig = m ++ [255%N]))))
  | DisableKeyCommand k => (Ok aws_empty, filter (λ k', k' ≠ k) w)
  | DescribeKeyCommand k | GetPublicKeyCommand k | RotateKeyOnDemandCommand k => if_enabled k w (Ok aws_empty)
  end.

#[export] Instance sdk : AwsSdk world := {| aws_import := eret tt; KMSClient _ := Ok send |}.

Lemma service : aws_service holds suits send.
Proof.
  split; simpl; unfold if_enabled.
  - intros k p w out w' H. injection H as H _. case_bool_decide; [|done]. apply rbind_Ok in H as (c & (-> & Hb & _)%Toy.checked_Ok & [= <-]).
    eexists. split_and!; [done|done|]. intros w2 Hk. do 2 eexists. rewrite bool_decide_true by done. split; [done|]. simpl. f_equal.
    rewrite length_app, Nat.add_sub. apply take_app_length.
  - intros k m alg w out w' H. injection H as H _. case_bool_decide; [|done]. apply rbind_Ok in H as (c & (-> & Hb & _)%Toy.checked_Ok & [= <-]).
    eexists. split_and!; [done|done|]. intros w2 _ Hk. do 2 eexists. rewrite bool_decide_true by done. split; [done|]. simpl. f_equal.
    by rewrite bool_decide_true.
Qed.

Definition options : AwsKmsOptions world := {| ao_region := Some (js "us-east-1"); ao_signingAlgorithm := None; ao_api := None; ao_clientConfig := None |}.

(** An Azure vault: a client of a key encrypts and signs while the key is enabled. *)
Definition vault (k : jstr) : AzureCryptographyClient world := {|
  ac_encrypt _ p w := if_enabled k w (Toy.checked (p ++ [254%N]));
  ac_decrypt _ c w := if_enabled k w (Ok (take (length c - 1) c));
  ac_signData _ m w := if_enabled k w (Toy.checked (m ++ [254%N]));
  ac_verifyData _ m sig w := if_enabled k w (Ok (bool_decide (sig = m ++ [254%N])));
|}.
#[export] Instance azure_sdk : AzureSdk world := {|
  credential := unit;
  azure_import := eret tt;
  KeyClient _ _ := Ok {| ak_getKey k := eret {| az_name := k; az_id := None |}; ak_rotateKey k := eret {| az_name := k; az_id := None |};
                         ak_setEnabled k on w := (Ok tt, if on then k :: w else filter (λ k', k' ≠ k) w) |};
  CryptographyClient k _ := if bool_decide (k = []) then Err (plain_Error (js "invalid key")) else Ok (vault k);
|}.

(** Its own keys have names. *)
Definition named_holds (k : jstr) (w : world) : Prop := k ∈ w ∧ k ≠ [].

Lemma azure_keeps alg : azure_service named_holds suits alg tt.
Proof.
  assert (Hc : ∀ k client, CryptographyClient k tt = Ok client → client = vault k).
  { intros k client. simpl. case_bool_decide; [done|by intros [= <-]]. }
  assert (Hok : ∀ k p w c w', if_enabled k w (Toy.checked (p ++ [254%N])) = (Ok c, w') → c = p ++ [254%N] ∧ Forall (λ b, b < 256)%N c).
  { unfold if_enabled. intros k p w c w' [= H _]. case_bool_decide; [|done]. by apply Toy.checked_Ok in H as (-> & ? & _). }
  split.
  - by intros k w [_ Hk].
  - intros k client p w c w' w2 ->%Hc [-> _]%Hok [Hk _]. simpl. unfold if_enabled. rewrite bool_decide_true by done. cbn [fst]. f_equal.
    rewrite length_app, Nat.add_sub. apply take_app_length.
  - by intros k client p w c w' ->%Hc [_ ?]%Hok.
  - intros k client m a w sig w' w2 ->%Hc [-> _]%Hok _ [Hk _]. simpl. unfold if_enabled. by rewrite !bool_decide_true.
  - by intros k client m a w sig w' ->%Hc [_ ?]%Hok.
Qed.

Definition azure_options : AzureKeyVaultOptions world credential :=
  {| zo_vaultUrl := Some (js "https://v"); zo_credential := Some tt; zo_encryptionAlgorithm := None; zo_signingAlgorithm := None; zo_api := None |}.

(** A GCP client that publishes the key of [LocalProvider.toy_rsa]. *)
Definition gcp : GcpClient world := {|
  gc_encrypt k p w := if_enabled k w (let* c := Toy.checked (p ++ [253%N]) in Ok (Some c));
  gc_decrypt k c w := if_enabled (default [] k) w (Ok (Some (take (length c - 1) c)));
  gc_asymmetricSign k digest w := if_enabled k w (let* c := Toy.checked digest in Ok (Some c));
  gc_getPublicKey _ := eret (Some (pem_block (js "PUBLIC KEY") [js "07"]));
  gc_createCryptoKeyVersion _ := eret tt; gc_update _ _ _ := eret tt;
|}.
#[export] Instance gcp_sdk : GcpSdk world := {| gcp_import := eret tt; KeyManagementServiceClient _ := Ok gcp |}.
Definition gcp_options : GcpKmsOptions world := {| go_signingAlgorithm := None; go_api := None; go_clientConfig := None |}.
End ToyCloud.

#[local] Existing Instances Hex.codec Toy.crypto ascii_case ToyCloud.sdk.

Definition toy_base : KmsRepositoryBase ToyCloud.world := (AwsKmsProvider ToyCloud.options).1.
Definition toy_ready : kms_state ToyCloud.world := {| k_api := Some (aws_api ToyCloud.send); k_init := None; k_created := 1 |}.
Definition toy_encrypt : KmsEncryptRequest := {| ke_keyId := js "k"; ke_plaintext := js "hi"; ke_algorithm := None; ke_signal := NoSignal |}.

Definition toy_history : list (kms_event ToyCloud.world) :=
  [KCall 1; KCall 2; KSettled (Err (plain_Error (js "offline"))); KCall 3; KSettled (Ok (aws_api ToyCloud.send)); KCall 4].

Lemma api_single_flight_witness : ∃ k out,
  exec kms_step (new_kms None, []) toy_history = Some (k, out) ∧ k_created k = 2 ∧ callers toy_history ≡ₚ map fst out.
Proof.
  do 2 eexists. split; [reflexivity|].
  destruct (api_single_flight None toy_history _ _ (exec_run kms_step (new_kms None, []) toy_history _ eq_refl)) as (Hc & _ & _ & _ & Hp & _).
  split; [exact Hc|]. exact Hp.
Defined.

Lemma kms_rejections_witness :
  (CloudKmsRepository toy_base (KEncrypt toy_encrypt) (new_kms None, [])).1 = Err (EncryptError (js "DisabledException")) ∧
  th_encrypt (EncryptError (js "DisabledException")) = true.
Proof.
  split; [reflexivity|].
  apply (kms_rejections toy_base (KEncrypt toy_encrypt) (new_kms None, []) (EncryptError (js "DisabledException")) (toy_ready, [])). reflexivity.
Defined.

Section toy_clouds.
#[local] Existing Instances ToyCloud.azure_sdk ToyCloud.gcp_sdk.

(** The published key is the bytes [7], and it verifies a signature that is its message. *)
Lemma gcp_keeps : gcp_service ToyCloud.named_holds ToyCloud.suits ToyCloud.gcp.
Proof.
  assert (Hok : ∀ k p w out w', ToyCloud.if_enabled k w (let* c := Toy.checked p in Ok (Some c)) = (Ok out, w') → out = Some p ∧ Forall (λ b, b < 256)%N p).
  { unfold ToyCloud.if_enabled. intros k p w out w' [= H _]. case_bool_decide; [|done].
    destruct (Toy.checked p) as [c|] eqn:E; [|done]. apply Toy.checked_Ok in E as (-> & ? & _). simpl in H. by injection H as <-. }
  split.
  - intros k p w out w' [-> Hb]%Hok. eexists. split_and!; [done|done|]. intros w2 [Hk _]. eexists. simpl. unfold ToyCloud.if_enabled.
    rewrite bool_decide_true by done. do 3 f_equal. rewrite length_app, Nat.add_sub. apply take_app_length.
  - intros k m digest w out w' Hd [-> Hb]%Hok. simpl in Hd. injection Hd as <-. eexists. split_and!; [done|done|].
    intros w2 alg _ _. exists [js "07"], [7%N], [7%N], w2. split_and!; [reflexivity| |reflexivity|reflexivity|].
    + repeat constructor; done.
    + simpl. by rewrite bool_decide_true.
Qed.

Lemma fresh_created (b : KmsRepositoryBase ToyCloud.world) : created_by b (new_kms None).
Proof. by intros api. Qed.

Lemma toy_aws : cloud_service ToyCloud.holds ToyCloud.suits (Aws ToyCloud.options).
Proof. intros send [= <-]. apply ToyCloud.service. Qed.

Lemma toy_azure : cloud_service ToyCloud.named_holds ToyCloud.suits (Azure ToyCloud.azure_options).
Proof. intros [] _. apply ToyCloud.azure_keeps. Qed.

Lemma toy_gcp : cloud_service ToyCloud.named_holds ToyCloud.suits (Gcp ToyCloud.gcp_options).
Proof. intros client [= <-]. apply gcp_keeps. Qed.

Lemma kms_roundtrip_witness :
  kms_encrypt toy_base toy_encrypt (new_kms None, [js "k"]) = (Ok (js "6869ff"), (toy_ready, [js "k"])) ∧
  (kms_decrypt toy_base {| kd_id := js "k"; kd_ciphertext := js "6869ff"; kd_algorithm := None; kd_signal := Pending None |}
     (toy_ready, [js "other"; js "k"])).1 = Ok (js "hi") ∧
  (kms_decrypt (AzureKeyVaultProvider ToyCloud.azure_options).1
     {| kd_id := js "k"; kd_ciphertext := js "6869fe"; kd_algorithm := None; kd_signal := NoSignal |}
     ((kms_encrypt (AzureKeyVaultProvider ToyCloud.azure_options).1 toy_encrypt (new_kms None, [js "k"])).2.1, [js "k"])).1 = Ok (js "hi") ∧
  (kms_verify (GcpKmsProvider ToyCloud.gcp_options).1
     {| kv_keyId := js "k"; kv_message := js "hi"; kv_signature := js "6869"; kv_algorithm := None; kv_signal := NoSignal |}
     ((kms_sign (GcpKmsProvider ToyCloud.gcp_options).1
         {| ks_keyId := js "k"; ks_message := js "hi"; ks_algorithm := None; ks_signal := NoSignal |} (new_kms None, [js "k"])).2.1, [js "k"])).1 = Ok true.
Proof.
  assert (Hk : ToyCloud.named_holds (js "k") [js "k"]) by by split; [left|].
  split; [reflexivity|]. split_and!.
  - apply (proj1 (kms_roundtrip ToyCloud.holds ToyCloud.suits (Aws ToyCloud.options) (new_kms None) [js "k"] Hex.inverse
      toy_aws
      (fresh_created _))
      (js "k") (js "hi") None None NoSignal (Pending None) (js "6869ff") toy_ready [js "k"] [js "other"; js "k"]); try reflexivity.
    apply (bool_decide_eq_true_1 _). vm_compute. reflexivity.
  - apply (proj1 (kms_roundtrip ToyCloud.named_holds ToyCloud.suits (Azure ToyCloud.azure_options) (new_kms None) [js "k"] Hex.inverse
      toy_azure (fresh_created _))
      (js "k") (js "hi") None None NoSignal NoSignal (js "6869fe") _ [js "k"] [js "k"]); try reflexivity. exact Hk.
  - apply (proj2 (kms_roundtrip ToyCloud.named_holds ToyCloud.suits (Gcp ToyCloud.gcp_options) (new_kms None) [js "k"] Hex.inverse
      toy_gcp
      (fresh_created _))
      (js "k") (js "hi") None NoSignal NoSignal (js "6869") _ [js "k"] [js "k"]); try reflexivity; [|exact Hk].
    unfold ToyCloud.suits. apply (bool_decide_eq_true_1 _). vm_compute. reflexivity.
Defined.
End toy_clouds.

Lemma pemToBase64_block_witness :
  forallb label_char (js "PUBLIC KEY") = true ∧ pemToBase64 (pem_block (js "PUBLIC KEY") [js "0102"; js "03"]) = js "010203".
Proof.
  split; [reflexivity|]. apply (pemToBase64_block (js "PUBLIC KEY") [js "0102"; js "03"]); [reflexivity|].
  repeat constructor; discriminate.
Defined.

Lemma gcp_verify_local_witness :
  (kms_verify {| rb_provider := js "gcp-kms"; rb_defaultSigningAlgorithm := js "RSA_SIGN_PSS_2048_SHA256"; rb_createApi := eret (gcp_api ToyCloud.gcp) |}
     {| kv_keyId := js "k"; kv_message := js "hi"; kv_signature := js "6869"; kv_algorithm := None; kv_signal := NoSignal |}
     (new_kms (Some (gcp_api ToyCloud.gcp)), [])).1 = Ok true.
Proof.
  apply (gcp_verify_local {| rb_provider := js "gcp-kms"; rb_defaultSigningAlgorithm := js "RSA_SIGN_PSS_2048_SHA256"; rb_createApi := eret (gcp_api ToyCloud.gcp) |}
    (new_kms (Some (gcp_api ToyCloud.gcp))) ToyCloud.gcp [] [] (js "k") (js "hi") (js "6869") None NoSignal (pem_block (js "PUBLIC KEY") [js "07"]));
    [reflexivity|reflexivity|discriminate|vm_compute; reflexivity].
Defined.
