(* ===== verification/Native.v ===== *)
(** * wasm/native.ts: the native implementation of the ABI operations and its qualification

    A payload is a detached tree of JavaScript data.  Web Crypto and the Base64 package are the
    classes of the encryption utilities.  An operation returns a result object or throws: a
    [PayloadError], which [dispatch] turns into a canonical failure, or anything else, which it
    lets through. *)

From S2P Require Export Adapters LocalProvider.
Local Open Scope nat_scope.

Definition GOFORGE_NATIVE_ADAPTER_NAME : jstr := js "native.deno.portable".

Record native_limits := { maxBinaryBytes : N; maxStringBytes : N }.
Definition GOFORGE_NATIVE_LIMITS : native_limits :=
  {| maxBinaryBytes := N.shiftl 512 10; maxStringBytes := N.shiftl 64 10 |}.

Definition AES_GCM_NONCE_BYTES : nat := 12.
Definition AES_GCM_TAG_BYTES : nat := 16.
Definition MINIMUM_HMAC_KEY_BYTES : nat := 16.

(** ** Errors *)

Record PayloadError := { pe_code : jstr; pe_field : option jstr }.

Inductive native_exn :=
  | XPayload (e : PayloadError)
  | XCrypto (e : thrown)
  | XCodec (e : exn).

Definition payload_error {A} (code : string) (field : option jstr) : res native_exn A :=
  Err (XPayload {| pe_code := js code; pe_field := field |}).

(** A call of Web Crypto whose rejection nothing catches. *)
Definition uncaught {A} (r : res thrown A) : res native_exn A :=
  match r with Ok a => Ok a | Err e => Err (XCrypto e) end.

(** A call whose rejection is replaced by this error. *)
Definition instead {A} (r : res thrown A) (e : res native_exn A) : res native_exn A :=
  match r with Ok a => Ok a | Err _ => e end.

(** ** Payload decoding *)

(** [payload.${key}]. *)
Definition payload_path (key : jstr) : jstr := js "payload." ++ key.

(** [key in value] on an object literal. *)
Definition in_object (key : jstr) (o : list (jstr * jsval)) : bool :=
  bool_decide (key ∈ keys o) || bool_decide (key ∈ object_prototype).

Fixpoint check_required (o : list (jstr * jsval)) (required : list jstr) : res native_exn unit :=
  match required with
  | [] => Ok tt
  | key :: required =>
      if negb (in_object key o) || match js_get o key with VNull => true | _ => false end
      then payload_error "invalid_request" (Some (payload_path key))
      else check_required o required
  end.

Definition object (payload : jsval) (required optional : list jstr) : res native_exn (list (jstr * jsval)) :=
  match payload with
  | VObj value =>
      if forallb (λ key, bool_decide (key ∈ required ++ optional)) (keys value)
      then let* _ := check_required value required in Ok value
      else payload_error "unknown_field" None
  | _ => payload_error "invalid_json" (Some (js "payload"))
  end.

Definition text (value : list (jstr * jsval)) (key : string) : res native_exn jstr :=
  match js_get value (js key) with VStr s => Ok s | _ => payload_error "invalid_json" None end.

Definition flag (value : list (jstr * jsval)) (key : string) : res native_exn bool :=
  match js_get value (js key) with
  | VUndef | VNull => Ok false
  | VBool b => Ok b
  | _ => payload_error "invalid_json" None
  end.

(** An integer of a double is exact, and the comparisons made with it are the ones of integers. *)
Definition integer (value : list (jstr * jsval)) (key : string) : res native_exn Z :=
  match js_get value (js key) with
  | VUndef | VNull => Ok 0%Z
  | VNum d => match dbl_to_Z d with Some z => Ok z | None => payload_error "invalid_json" None end
  | _ => payload_error "invalid_json" None
  end.

Definition optionalText (value : list (jstr * jsval)) (key : string) : res native_exn jstr :=
  match js_get value (js key) with
  | VUndef | VNull => Ok []
  | VStr s => Ok s
  | _ => payload_error "invalid_json" None
  end.

(** ** Binary helpers *)

Definition encodedLength (byteCount : N) : N := ((byteCount + 2) / 3 * 4)%N.

Local Open Scope regex_scope.
Definition looseBase64Pattern : regex :=
  (RClass base64_char)^* ⋅ (RLit "==" ⊕ RLit "=" ⊕ REps).
Local Close Scope regex_scope.

Section binary.
Context `{B64 : Base64}.

Definition binary (encoded field : jstr) (maxBytes : N) : res native_exn (list N) :=
  if (encodedLength maxBytes <? N.of_nat (length encoded))%N then payload_error "input_too_large" (Some field)
  else if negb (length encoded mod 4 =? 0) || negb (matches looseBase64Pattern encoded)
  then payload_error "invalid_base64" (Some field)
  else
    match decodeBase64 encoded with
    | None => payload_error "invalid_base64" (Some field)
    | Some decoded =>
        if negb (bool_decide (encodeBase64 decoded = encoded)) then payload_error "invalid_base64" (Some field)
        else if (maxBytes <? N.of_nat (length decoded))%N then payload_error "input_too_large" (Some field)
        else Ok decoded
    end.
End binary.

(** The test for a surrogate with no partner: a high one not followed by a low one, or a low one
    not preceded by a high one; [prev] says whether a high one was just read. *)
Fixpoint lone_surrogate (prev : bool) (s : jstr) : bool :=
  match s with
  | [] => false
  | c :: s' =>
      (is_high c && negb (match s' with d :: _ => is_low d | [] => false end))
      || (is_low c && negb prev) || lone_surrogate (is_high c) s'
  end.

Definition assertUtf8 (value field : jstr) : res native_exn unit :=
  if lone_surrogate false value then payload_error "invalid_utf8" (Some field) else Ok tt.

Definition byteLength (value : jstr) : N := utf8_length value.

(** ** Unicode predicates *)

Definition isGoSpace (codePoint : N) : bool :=
  bool_decide (codePoint ∈ [9; 10; 11; 12; 13; 32; 133; 160; 5760; 8232; 8233; 8239; 8287; 12288]%N)
  || in_range 8192 8202 codePoint.

Definition isGoControl (codePoint : N) : bool := (codePoint <? 32)%N || in_range 127 159 codePoint.

(** [[...value]]: the code points of a string, a surrogate with no partner as itself; [join] is
    the string they make. *)
Fixpoint code_points (s : jstr) : list N :=
  match s with
  | [] => []
  | c :: s' =>
      match s' with
      | d :: s'' =>
          if is_high c && is_low d then (65536 + (c - 55296) * 1024 + (d - 56320))%N :: code_points s''
          else c :: code_points s'
      | [] => [c]
      end
  end.
Definition join_runes (runes : list N) : jstr := flat_map utf16_of_scalar runes.

(** ** Operations *)

(** The two loops of [trimGoSpace] move one end of the slice past the spaces. *)
Fixpoint skip_go_space (runes : list N) : list N :=
  match runes with
  | r :: rest => if isGoSpace r then skip_go_space rest else runes
  | [] => []
  end.
Definition trim_runes (runes : list N) : list N := rev (skip_go_space (rev (skip_go_space runes))).
Definition trimGoSpace (value : jstr) : jstr := join_runes (trim_runes (code_points value)).

Fixpoint collapse_runes (inWhitespace : bool) (runes : list N) : list N :=
  match runes with
  | [] => []
  | r :: rest =>
      if isGoSpace r
      then if inWhitespace then collapse_runes true rest else 32%N :: collapse_runes true rest
      else r :: collapse_runes false rest
  end.
Definition collapseWhitespace (value : jstr) : jstr := join_runes (collapse_runes false (code_points value)).

Definition lower_rune (r : N) : N := if in_range 65 90 r then (r + 32)%N else r.
Definition lowercaseAscii (value : jstr) : jstr := join_runes (map lower_rune (code_points value)).

Definition too_long (value : jstr) : bool := (maxStringBytes GOFORGE_NATIVE_LIMITS <? byteLength value)%N.

Definition normalize (payload : jsval) : res native_exn jsval :=
  let* input := object payload [js "value"] (map js ["trim"; "collapse_whitespace"; "lowercase_ascii"]%string) in
  let* value := text input "value" in
  let* _ := assertUtf8 value (js "payload.value") in
  if too_long value then payload_error "input_too_large" (Some (js "payload.value"))
  else
    let* trim := flag input "trim" in
    let value := if trim then trimGoSpace value else value in
    let* collapse := flag input "collapse_whitespace" in
    let value := if collapse then collapseWhitespace value else value in
    let* lower := flag input "lowercase_ascii" in
    let value := if lower then lowercaseAscii value else value in
    Ok (VObj [(js "value", VStr value)]).

(** The rules of [text.validate] once decoded. *)
Record rules_t := {
  ru_required : bool; ru_minBytes : Z; ru_maxBytes : Z; ru_minRunes : Z; ru_maxRunes : Z;
  ru_ascii : bool; ru_forbid_control : bool; ru_forbid_whitespace : bool; ru_prefix : jstr; ru_suffix : jstr;
}.

Definition rule_fields : list jstr :=
  map js ["required"; "ascii"; "forbid_control"; "forbid_whitespace"; "min_bytes"; "max_bytes"; "min_runes";
          "max_runes"; "prefix"; "suffix"]%string.

Definition bad_bounds (minBytes maxBytes minRunes maxRunes : Z) : bool :=
  let limit := Z.of_N (maxStringBytes GOFORGE_NATIVE_LIMITS) in
  ((minBytes <? 0) || (maxBytes <? 0) || (minRunes <? 0) || (maxRunes <? 0)
   || (limit <? minBytes) || (limit <? maxBytes) || (limit <? minRunes) || (limit <? maxRunes)
   || ((0 <? maxBytes) && (maxBytes <? minBytes)) || ((0 <? maxRunes) && (maxRunes <? minRunes)))%Z.

(** The part of [validate] before the violations: the value and the rules, or the error. *)
Definition decode_rules (payload : jsval) : res native_exn (jstr * rules_t) :=
  let* input := object payload (map js ["value"; "rules"]%string) [] in
  let* value := text input "value" in
  let* rules := object (js_get input (js "rules")) [] rule_fields in
  let* prefix := optionalText rules "prefix" in
  let* suffix := optionalText rules "suffix" in
  let* _ := assertUtf8 value (js "payload") in
  let* _ := assertUtf8 prefix (js "payload") in
  let* _ := assertUtf8 suffix (js "payload") in
  if too_long value || too_long prefix || too_long suffix then payload_error "input_too_large" (Some (js "payload"))
  else
    let* minBytes := integer rules "min_bytes" in
    let* maxBytes := integer rules "max_bytes" in
    let* minRunes := integer rules "min_runes" in
    let* maxRunes := integer rules "max_runes" in
    if bad_bounds minBytes maxBytes minRunes maxRunes then payload_error "invalid_request" (Some (js "payload.rules"))
    else
      let* required := flag rules "required" in
      let* ascii := flag rules "ascii" in
      let* control := flag rules "forbid_control" in
      let* whitespace := flag rules "forbid_whitespace" in
      Ok (value, {| ru_required := required; ru_minBytes := minBytes; ru_maxBytes := maxBytes;
                    ru_minRunes := minRunes; ru_maxRunes := maxRunes; ru_ascii := ascii;
                    ru_forbid_control := control; ru_forbid_whitespace := whitespace;
                    ru_prefix := prefix; ru_suffix := suffix |}).

(** The violations, in the order they are pushed. *)
Definition violations (value : jstr) (ru : rules_t) : list jstr :=
  let bytes := Z.of_N (byteLength value) in
  let runes := Z.of_nat (length (code_points value)) in
  let push (b : bool) (code : string) := if b then [js code] else [] in
  push (ru_required ru && bool_decide (value = [])) "required"
  ++ push ((0 <? ru_minBytes ru)%Z && (bytes <? ru_minBytes ru)%Z) "min_bytes"
  ++ push ((0 <? ru_maxBytes ru)%Z && (ru_maxBytes ru <? bytes)%Z) "max_bytes"
  ++ push ((0 <? ru_minRunes ru)%Z && (runes <? ru_minRunes ru)%Z) "min_runes"
  ++ push ((0 <? ru_maxRunes ru)%Z && (ru_maxRunes ru <? runes)%Z) "max_runes"
  ++ push (ru_ascii ru && existsb (λ c, (127 <? c)%N) (code_points value)) "ascii"
  ++ push (ru_forbid_control ru && existsb isGoControl (code_points value)) "control"
  ++ push (ru_forbid_whitespace ru && existsb isGoSpace (code_points value)) "whitespace"
  ++ push (negb (bool_decide (ru_prefix ru = [])) && negb (startsWith value (ru_prefix ru))) "prefix"
  ++ push (negb (bool_decide (ru_suffix ru = [])) && negb (endsWith value (ru_suffix ru))) "suffix".

Definition validate (payload : jsval) : res native_exn jsval :=
  let* (value, rules) := decode_rules payload in
  let codes := violations value rules in
  Ok (VObj [(js "valid", VBool (length codes =? 0));
            (js "violations", VArr (map (λ code, VObj [(js "code", VStr code)]) codes))]).

Section operations.
Context `{B64 : Base64} `{WC : WebCrypto}.

Definition maxBinary : N := maxBinaryBytes GOFORGE_NATIVE_LIMITS.
(** A required binary field. *)
Definition binary_field (input : list (jstr * jsval)) (key : string) (limit : N) : res native_exn (list N) :=
  let* encoded := text input key in binary encoded (payload_path (js key)) limit.

Definition one_field (key : string) (bytes : list N) : jsval := VObj [(js key, VStr (encodeBase64 bytes))].

Definition sha256 (payload : jsval) : res native_exn jsval :=
  let* input := object payload [js "data"] [] in
  let* data := binary_field input "data" maxBinary in
  let* digest := uncaught (digest_sha256 data) in
  Ok (one_field "digest" digest).

Definition hmacSha256 (payload : jsval) : res native_exn jsval :=
  let* input := object payload (map js ["key"; "data"]%string) [] in
  let* keyBytes := binary_field input "key" maxBinary in
  if length keyBytes <? MINIMUM_HMAC_KEY_BYTES then payload_error "invalid_key" (Some (js "payload.key"))
  else
    let* data := binary_field input "data" maxBinary in
    let* key := uncaught (importKey "raw" keyBytes Hmac256 false ["sign"]%string) in
    let* mac := uncaught (sign Hmac256 key data) in
    Ok (one_field "mac" mac).

Record aes_inputs := { ai_key : CryptoKey; ai_nonce : list N; ai_aad : list N; ai_value : list N }.

Definition aesInputs (input : list (jstr * jsval)) (valueField usage : string) : res native_exn aes_inputs :=
  let* keyBytes := binary_field input "key" maxBinary in
  if negb (bool_decide (length keyBytes ∈ [16; 24; 32])) then payload_error "invalid_key" (Some (js "payload.key"))
  else
    let* nonce := binary_field input "nonce" maxBinary in
    if negb (length nonce =? AES_GCM_NONCE_BYTES) then payload_error "invalid_nonce" (Some (js "payload.nonce"))
    else
      let* aad := binary_field input "aad" maxBinary in
      let decrypting := bool_decide (usage = "decrypt"%string) in
      let valueLimit := if decrypting then maxBinary else (maxBinary - N.of_nat AES_GCM_TAG_BYTES)%N in
      let field := payload_path (js valueField) in
      let* value := binary_field input valueField valueLimit in
      if decrypting && (length value <? AES_GCM_TAG_BYTES) then payload_error "authentication_failed" (Some field)
      else
        let* key := instead (importKey "raw" keyBytes AesGcm false [usage])
                      (payload_error "invalid_key" (Some (js "payload.key"))) in
        Ok {| ai_key := key; ai_nonce := nonce; ai_aad := aad; ai_value := value |}.

Definition aesGcmEncrypt (payload : jsval) : res native_exn jsval :=
  let* input := object payload (map js ["key"; "nonce"; "aad"; "plaintext"]%string) [] in
  let* a := aesInputs input "plaintext" "encrypt" in
  let* ciphertext := uncaught (encrypt (AesGcmParams (ai_nonce a) (Some (ai_aad a))) (ai_key a) (ai_value a)) in
  Ok (one_field "ciphertext" ciphertext).

Definition aesGcmDecrypt (payload : jsval) : res native_exn jsval :=
  let* input := object payload (map js ["key"; "nonce"; "aad"; "ciphertext"]%string) [] in
  let* a := aesInputs input "ciphertext" "decrypt" in
  let* plaintext := instead (decrypt (AesGcmParams (ai_nonce a) (Some (ai_aad a))) (ai_key a) (ai_value a))
                      (payload_error "authentication_failed" (Some (js "payload.ciphertext"))) in
  Ok (one_field "plaintext" plaintext).

Definition base64Encode (payload : jsval) : res native_exn jsval :=
  let* input := object payload [js "text"] [] in
  let* value := text input "text" in
  let* _ := assertUtf8 value (js "payload.text") in
  let bytes := utf8_encode value in
  if (maxStringBytes GOFORGE_NATIVE_LIMITS <? N.of_nat (length bytes))%N
  then payload_error "input_too_large" (Some (js "payload.text"))
  else Ok (one_field "encoded" bytes).

Definition base64Decode (payload : jsval) : res native_exn jsval :=
  let* input := object payload [js "encoded"] [] in
  let* decoded := binary_field input "encoded" (maxStringBytes GOFORGE_NATIVE_LIMITS) in
  match utf8_decode_fatal decoded with
  | Some text => Ok (VObj [(js "text", VStr text)])
  | None => payload_error "invalid_utf8" (Some (js "payload.encoded"))
  end.

(** The operations of the switch, in its order. *)
Definition handlers : list (jstr * (jsval → res native_exn jsval)) :=
  [(js "text.normalize", normalize); (js "text.validate", validate); (js "crypto.sha256", sha256);
   (js "crypto.hmac-sha256", hmacSha256); (js "crypto.aes-gcm.encrypt", aesGcmEncrypt);
   (js "crypto.aes-gcm.decrypt", aesGcmDecrypt); (js "encoding.base64.encode", base64Encode);
   (js "encoding.base64.decode", base64Decode)].

Definition execute (operation : jstr) (payload : jsval) : res native_exn jsval :=
  match own_get operation handlers with
  | Some handler => handler payload
  | None => payload_error "unknown_operation" None
  end.

(** ** Dispatch *)

Record NativeAdapterContext := {
  cx_aborted : bool;
  cx_deadlineUnixMs : option dbl;
  cx_now : dbl;  (* what [Date.now()] returns *)
}.

Definition codec {A} (r : res exn A) : res native_exn A :=
  match r with Ok a => Ok a | Err e => Err (XCodec e) end.

Definition failure (id : jstr) (e : PayloadError) : res native_exn AbiResponseV1 :=
  codec (createAbiFailureResponse id
           {| fi_code := pe_code e; fi_field := pe_field e; fi_message := None; fi_retryable := None |}).

(** The body of the [try] of [dispatch]; the result object is a fresh object of the heap. *)
Definition dispatch_body (request : AbiRequestV1) (context : NativeAdapterContext) : res native_exn AbiResponseV1 :=
  if cx_aborted context then failure (rq_id request) {| pe_code := js "cancellation_requested"; pe_field := None |}
  else if match cx_deadlineUnixMs context with Some d => num_ltb d (cx_now context) | None => false end
  then failure (rq_id request) {| pe_code := js "deadline_exceeded"; pe_field := None |}
  else
    let* result := execute (rq_operation request) (rq_payload request) in
    let '(h, v) := alloc result [] in
    codec (createAbiSuccessResponse h (rq_id request) v).

Definition dispatch (request : AbiRequestV1) (context : NativeAdapterContext) : res native_exn AbiResponseV1 :=
  match dispatch_body request context with
  | Err (XPayload e) => failure (rq_id request) e
  | r => r
  end.

(** The object [createNativeGoforgeAdapter] returns, as the registry sees it; its [invoke] is
    [dispatch]. *)
Definition createNativeGoforgeAdapter (name : option jstr) : NativeWasmAdapter :=
  {| na_name := default GOFORGE_NATIVE_ADAPTER_NAME name;
     na_operations := VArr (map VStr GOFORGE_ABI_V1_OPERATIONS);
     na_parityQualified := VBool false; na_invoke := VFun (js "invoke"); na_close := None |}.
End operations.

(** ** Qualification *)

Record GoforgeSharedVector := {
  ve_name : jstr;
  ve_operation : jstr;
  ve_payload : jsval;
  ve_id : option jstr;
  ve_response : jsval;
}.

(** The replacer of [canonical] gives each record its entries sorted by name. *)
Fixpoint sort_fields (v : jsval) : jsval :=
  match v with
  | VArr l => VArr (map sort_fields l)
  | VObj o => VObj (of_entries (sort (λ p q, jstr_leb p.1 q.1) (map (λ p, (p.1, sort_fields p.2)) o)))
  | _ => v
  end.

(** [JSON.stringify] of a value that is no data is [undefined]. *)
Definition canonical (value : jsval) : option jstr := json_stringify (sort_fields value).
Definition canonical_text (value : jsval) : jstr := default (js "undefined") (canonical value).

(** [{ ...value }]. *)
Definition spread (value : jsval) : list (jstr * jsval) :=
  match value with
  | VObj o => o
  | VArr l => imap (λ i v, (nat_to_string (N.of_nat i), v)) l
  | VStr s => imap (λ i c, (nat_to_string (N.of_nat i), VStr [c])) s
  | _ => []
  end.

Definition vector_id (vector : GoforgeSharedVector) : jstr := default (js "parity") (ve_id vector).
Definition vector_request (vector : GoforgeSharedVector) : AbiRequestV1 :=
  {| rq_id := vector_id vector; rq_operation := ve_operation vector; rq_metadata := None; rq_payload := ve_payload vector |}.
Definition vector_expected (vector : GoforgeSharedVector) : jsval :=
  VObj (obj_set (js "id") (VStr (vector_id vector)) (spread (ve_response vector))).

(** What the adapter answers to the [i]-th call: a value, or the text of what it throws. *)
Notation answers := (nat → AbiRequestV1 → res jstr jsval).

(** One turn of the loop: the operations covered and the failures, in order. *)
Definition replay (invoke : answers) (st : list jstr * list jstr) (iv : nat * GoforgeSharedVector)
    : list jstr * list jstr :=
  let '(covered, failures) := st in
  let '(i, vector) := iv in
  let expected := vector_expected vector in
  match invoke i (vector_request vector) with
  | Err cause => (covered, failures ++ [ve_name vector ++ js ": threw " ++ cause])
  | Ok actual =>
      if bool_decide (canonical actual = canonical expected)
      then (if bool_decide (ve_operation vector ∈ covered) then covered else covered ++ [ve_operation vector], failures)
      else (covered, failures ++ [ve_name vector ++ js ": expected " ++ canonical_text expected
                                  ++ js " but produced " ++ canonical_text actual])
  end.

Definition replay_all (invoke : answers) (vectors : list GoforgeSharedVector) : list jstr * list jstr :=
  foldl (replay invoke) ([], []) (imap pair vectors).

(** [adapter.operations.filter((operation) => !covered.has(operation))]. *)
Definition uncovered (operations : jsval) (covered : list jstr) : res exn (list jsval) :=
  match operations with
  | VArr l => Ok (filter (λ v, existsb (is_vstr v) covered = false) l)
  | _ => Err XTypeError
  end.

(** The adapter is the object [a] of the store, whose fields are its own, and the qualified copy a
    fresh object [copy]; the result is the store and the ledger after the call. *)
Definition qualifyNativeAdapter (invoke : answers) (st : adapter_store) (ledger : list nat) (a copy : nat)
    (vectors : list GoforgeSharedVector) : res exn (adapter_store * list nat) :=
  if bool_decide (vectors = []) then adapter_err (js "parity qualification requires at least one shared vector")
  else
    let '(covered, failures) := replay_all invoke vectors in
    let name := na_name (st a) in
    if negb (bool_decide (failures = []))
    then adapter_err (named name (" failed parity qualification:") ++ [10%N] ++ js "  " ++ join ([10%N] ++ js "  ") failures)
    else
      let* missing := uncovered (na_operations (st a)) covered in
      if negb (length missing =? 0)
      then adapter_err (named name " claims operations with no qualifying vector: " ++ join (js ", ") (map js_String missing))
      else
        let qualified := {| na_name := name; na_operations := na_operations (st a); na_parityQualified := VBool true;
                            na_invoke := na_invoke (st a); na_close := na_close (st a) |} in
        let st' := λ b, if b =? copy then qualified else st b in
        let* ledger := recordParityQualification st' ledger copy in
        Ok (st', ledger).

(** ** Strings and runes *)

Lemma assertUtf8_wf s field : code_units s →
  assertUtf8 s field = if well_formed s then Ok tt else payload_error "invalid_utf8" (Some field).
Proof.
  intros Hu. unfold assertUtf8. enough (E : lone_surrogate false s = negb (well_formed s)) by (rewrite E; by destruct (well_formed s)).
  revert Hu. remember (length s) as n eqn:En. revert s En. induction (Nat.lt_wf_0 n) as [n _ IH]. intros [|c s] En Hu; [done|].
  apply Forall_cons in Hu as [Hc Hu]. simpl in En. cbn [lone_surrogate well_formed].
  replace (c <? 65536)%N with true by lia. destruct (is_high c) eqn:Eh.
  - replace (is_low c) with false by (unfold is_high, is_low, in_range in *; lia). destruct s as [|d s]; [done|].
    destruct (is_low d) eqn:El; [|done]. apply Forall_cons in Hu as [_ Hu]. simpl in En. cbn [lone_surrogate].
    replace (is_high d) with false by (unfold is_high, is_low, in_range in *; lia). rewrite El. simpl. eapply IH; [|done|done]. lia.
  - simpl. destruct (is_low c) eqn:El; [done|]. simpl. eapply IH; [|done|done]. lia.
Qed.

Lemma code_points_wf s : well_formed s = true → code_points s = scalars s.
Proof.
  revert s. apply well_formed_ind; [done| |].
  - intros c s Hc Hs _ IH. cbn [scalars].
    replace (is_low c) with false by (unfold is_surrogate, is_low, in_range in *; lia).
    assert (E : is_high c = false) by (unfold is_surrogate, is_high, in_range in *; lia).
    destruct s as [|d s]; [by rewrite E|]. cbn [code_points]. rewrite E. cbn [andb]. by rewrite <- IH.
  - intros c d s Hc Hd _ IH. cbn [code_points scalars]. rewrite Hc, Hd. cbn [andb]. by rewrite IH.
Qed.

Lemma join_code_points s : well_formed s = true → join_runes (code_points s) = s.
Proof. intros H. rewrite code_points_wf by done. by apply utf16_scalars. Qed.

Lemma code_points_scalars s : well_formed s = true → Forall (λ c, is_scalar c = true) (code_points s).
Proof. intros H. rewrite code_points_wf by done. by apply scalars_wf. Qed.

(** The string of a list of scalar values is well formed and gives them back. *)
Lemma join_runes_spec cs : Forall (λ c, is_scalar c = true) cs →
  well_formed (join_runes cs) = true ∧ code_points (join_runes cs) = cs.
Proof.
  induction 1 as [|c cs Hc _ [IHw IHc]]; [done|]. unfold join_runes in *. cbn [flat_map].
  unfold utf16_of_scalar at 1 3. unfold is_scalar, is_surrogate, in_range in Hc. destruct (c <? 65536)%N eqn:E.
  - assert (Hh : is_high c = false) by (unfold is_high, in_range; lia).
    assert (Hl : is_low c = false) by (unfold is_low, in_range; lia). cbn [app well_formed].
    rewrite E, Hh, Hl, IHw. split; [done|]. destruct (flat_map utf16_of_scalar cs) as [|d s] eqn:Es.
    + simpl in IHc. by rewrite <- IHc.
    + cbn [code_points]. rewrite Hh. cbn [andb]. f_equal. exact IHc.
  - pose proof (N.mod_lt (c - 65536) 1024). pose proof (N.div_mod (c - 65536) 1024).
    assert ((c - 65536) / 1024 < 1024)%N by (apply N.Div0.div_lt_upper_bound; lia). cbn [app well_formed code_points].
    generalize dependent ((c - 65536) / 1024)%N. generalize dependent ((c - 65536) mod 1024)%N. intros m Hm q Hq Hlt.
    replace (is_high (55296 + q)) with true by (unfold is_high, in_range; lia).
    replace (is_low (56320 + m)) with true by (unfold is_low, in_range; lia). rewrite IHw. cbn [andb].
    split; [replace (55296 + q <? 65536)%N with true by lia; done|]. rewrite IHc. f_equal. lia.
Qed.

(** *** Trimming, collapsing, lower-casing *)

Definition trimmed (rs : list N) : Prop :=
  (∀ r, head rs = Some r → isGoSpace r = false) ∧ (∀ r, last rs = Some r → isGoSpace r = false).

Lemma skip_go_space_head rs r : head (skip_go_space rs) = Some r → isGoSpace r = false.
Proof. induction rs as [|x rs IH]; simpl; [done|]. destruct (isGoSpace x) eqn:E; [done|]. intros [= <-]. done. Qed.
Lemma skip_go_space_fix rs : (∀ r, head rs = Some r → isGoSpace r = false) → skip_go_space rs = rs.
Proof. destruct rs as [|x rs]; simpl; [done|]. intros H. by rewrite (H x). Qed.
Lemma skip_go_space_suffix rs : skip_go_space rs `suffix_of` rs.
Proof. induction rs as [|x rs IH]; simpl; [done|]. destruct (isGoSpace x); [by apply suffix_cons_r|done]. Qed.

Lemma head_rev {A} (l : list A) : head (rev l) = last l.
Proof. rewrite <- (rev_involutive l) at 2. destruct (rev l) as [|x r]; [done|]. simpl. by rewrite last_snoc. Qed.

Lemma sublist_rev {A} (l k : list A) : l `sublist_of` k → rev l `sublist_of` rev k.
Proof. induction 1; simpl; [done|by apply sublist_app|by apply sublist_inserts_r]. Qed.

Lemma trim_runes_sublist rs : trim_runes rs `sublist_of` rs.
Proof.
  assert (Hs : ∀ l, skip_go_space l `sublist_of` l)
    by (intros l; destruct (skip_go_space_suffix l) as [k Hk]; rewrite Hk at 2; by apply sublist_inserts_l).
  unfold trim_runes. etrans; [|apply Hs]. rewrite <- (rev_involutive (skip_go_space rs)) at 2.
  apply sublist_rev, Hs.
Qed.

Lemma trim_runes_trimmed rs : trimmed (trim_runes rs).
Proof.
  unfold trim_runes. split; intros r.
  - rewrite head_rev. set (l := rev (skip_go_space rs)). intros Hr.
    apply (skip_go_space_head rs). rewrite <- (rev_involutive (skip_go_space rs)), head_rev. fold l.
    destruct (skip_go_space_suffix l) as [k Hk]. rewrite Hk, last_app. by rewrite Hr.
  - rewrite <- head_rev, rev_involutive. apply skip_go_space_head.
Qed.

Lemma trim_runes_fix rs : trimmed rs → trim_runes rs = rs.
Proof.
  intros [Hh Hl]. unfold trim_runes. rewrite (skip_go_space_fix rs) by done.
  rewrite skip_go_space_fix; [apply rev_involutive|]. intros r. rewrite head_rev. apply Hl.
Qed.

Lemma collapse_head b rs : (∀ r, head rs = Some r → isGoSpace r = false) → head (collapse_runes b rs) = head rs.
Proof. destruct rs as [|x rs]; simpl; [done|]. intros H. by rewrite (H x). Qed.

Lemma collapse_snoc b rs r : isGoSpace r = false → collapse_runes b (rs ++ [r]) = collapse_runes b rs ++ [r].
Proof.
  intros Hr. revert b; induction rs as [|x rs IH]; intros b; simpl; [by rewrite Hr|].
  destruct (isGoSpace x); [destruct b|]; simpl; by rewrite IH.
Qed.

Lemma collapse_trimmed rs : trimmed rs → trimmed (collapse_runes false rs).
Proof.
  intros [Hh Hl]. split.
  - intros r. rewrite collapse_head by done. apply Hh.
  - destruct rs as [|x rs] using rev_ind; [done|]. rewrite last_snoc in Hl. rewrite collapse_snoc by by apply Hl.
    by rewrite last_snoc.
Qed.

Lemma collapse_idem b rs : collapse_runes b (collapse_runes b rs) = collapse_runes b rs.
Proof.
  revert b; induction rs as [|x rs IH]; intros b; simpl; [done|].
  destruct (isGoSpace x) eqn:E; [destruct b; simpl; by rewrite IH|]. simpl. by rewrite E, IH.
Qed.

Lemma lower_space r : isGoSpace (lower_rune r) = isGoSpace r.
Proof.
  unfold lower_rune. destruct (in_range 65 90 r) eqn:E; [|done]. unfold in_range in E.
  assert (Hs : ∀ x, (65 <= x <= 122)%N → isGoSpace x = false).
  { intros x Hx. unfold isGoSpace, in_range. rewrite bool_decide_eq_false_2 by (rewrite !elem_of_cons, elem_of_nil; lia). lia. }
  rewrite !Hs by lia. done.
Qed.

Lemma lower_idem r : lower_rune (lower_rune r) = lower_rune r.
Proof. unfold lower_rune, in_range. repeat case_match; lia. Qed.

Lemma collapse_lower b rs : collapse_runes b (map lower_rune rs) = map lower_rune (collapse_runes b rs).
Proof.
  revert b; induction rs as [|x rs IH]; intros b; simpl; [done|]. rewrite lower_space.
  destruct (isGoSpace x); [destruct b|]; simpl; by rewrite IH.
Qed.

Lemma map_lower_trimmed rs : trimmed rs → trimmed (map lower_rune rs).
Proof.
  intros [Hh Hl]. split; intros r.
  - destruct rs as [|x rs]; simpl in *; [done|]. intros [= <-]. rewrite lower_space. by apply Hh.
  - destruct rs as [|x rs _] using rev_ind; [done|]. rewrite map_app. cbn [map]. rewrite last_snoc. intros [= <-].
    rewrite lower_space. apply Hl. by rewrite last_snoc.
Qed.

(** What [normalize] does to the runes of the value, given its three flags. *)
Definition norm_runes (t c l : bool) (rs : list N) : list N :=
  let rs := if t then trim_runes rs else rs in
  let rs := if c then collapse_runes false rs else rs in
  if l then map lower_rune rs else rs.

Lemma norm_runes_idem t c l rs : norm_runes t c l (norm_runes t c l rs) = norm_runes t c l rs.
Proof.
  unfold norm_runes.
  assert (Hlow : ∀ rs, map lower_rune (map lower_rune rs) = map lower_rune rs)
    by (intros l'; rewrite map_map; apply map_ext; intros; apply lower_idem).
  assert (Ht : trimmed (trim_runes rs)) by apply trim_runes_trimmed.
  destruct t, c, l; rewrite ?trim_runes_fix by auto using map_lower_trimmed, collapse_trimmed;
    rewrite ?collapse_lower, ?collapse_idem, ?Hlow; done.
Qed.

Definition runes_size (rs : list N) : nat := length (flat_map utf8_of_scalar rs).

Lemma utf8_of_scalar_size r : 1 ≤ length (utf8_of_scalar r).
Proof. unfold utf8_of_scalar. repeat case_match; simpl; lia. Qed.

Lemma runes_size_cons r rs : runes_size (r :: rs) = length (utf8_of_scalar r) + runes_size rs.
Proof. unfold runes_size. cbn [flat_map]. by rewrite length_app. Qed.

Lemma sublist_size rs rs' : rs `sublist_of` rs' → runes_size rs ≤ runes_size rs'.
Proof. induction 1; rewrite ?runes_size_cons; lia. Qed.

Lemma collapse_size b rs : runes_size (collapse_runes b rs) ≤ runes_size rs.
Proof.
  revert b; induction rs as [|x rs IH]; intros b; simpl; [done|]. pose proof (utf8_of_scalar_size x).
  pose proof (IH true). pose proof (IH false).
  destruct (isGoSpace x); [destruct b|]; rewrite ?runes_size_cons; [lia| |lia].
  change (length (utf8_of_scalar 32)) with 1. lia.
Qed.

Lemma lower_size rs : runes_size (map lower_rune rs) = runes_size rs.
Proof.
  induction rs as [|x rs IH]; simpl; [done|]. rewrite !runes_size_cons, IH. f_equal.
  unfold lower_rune, in_range, utf8_of_scalar. destruct ((65 <=? x)%N && (x <=? 90)%N) eqn:E; [|done].
  replace (x + 32 <? 128)%N with true by lia. replace (x <? 128)%N with true by lia. done.
Qed.

Lemma norm_runes_size t c l rs : runes_size (norm_runes t c l rs) ≤ runes_size rs.
Proof.
  unfold norm_runes. pose proof (sublist_size _ _ (trim_runes_sublist rs)).
  destruct t, c, l; rewrite ?lower_size; try pose proof (collapse_size false (trim_runes rs));
    pose proof (collapse_size false rs); lia.
Qed.

Lemma collapse_scalar b rs : Forall (λ c, is_scalar c = true) rs → Forall (λ c, is_scalar c = true) (collapse_runes b rs).
Proof. intros H. revert b; induction H; intros b; simpl; repeat case_match; try constructor; auto. Qed.

Lemma norm_runes_scalar t c l rs : Forall (λ c, is_scalar c = true) rs → Forall (λ c, is_scalar c = true) (norm_runes t c l rs).
Proof.
  intros H. assert (Ht : Forall (λ c, is_scalar c = true) (trim_runes rs)).
  { rewrite Forall_forall in *. intros x Hx. eapply H, elem_of_sublist; [done|]. apply trim_runes_sublist. }
  assert (Hl : ∀ rs, Forall (λ c, is_scalar c = true) rs → Forall (λ c, is_scalar c = true) (map lower_rune rs)).
  { intros l' Hl'. rewrite Forall_map. eapply Forall_impl; [exact Hl'|]. intros x. unfold lower_rune, is_scalar, is_surrogate, in_range. case_match; lia. }
  unfold norm_runes. destruct t, c, l; auto using collapse_scalar.
Qed.

Lemma utf8_length_runes s : well_formed s = true → utf8_length s = N.of_nat (runes_size (code_points s)).
Proof. intros H. unfold utf8_length, utf8_encode, runes_size. by rewrite code_points_wf. Qed.

(** *** [normalize] *)

Definition normalized (t c l : bool) (value : jstr) : jstr := join_runes (norm_runes t c l (code_points value)).

Lemma normalize_strings (t c l : bool) value : well_formed value = true →
  (let value := if t then trimGoSpace value else value in
   let value := if c then collapseWhitespace value else value in
   if l then lowercaseAscii value else value) = normalized t c l value.
Proof.
  intros Hw. pose proof (code_points_scalars _ Hw) as Hs. unfold normalized, norm_runes, trimGoSpace, collapseWhitespace, lowercaseAscii.
  assert (Ht : Forall (λ c, is_scalar c = true) (trim_runes (code_points value))) by exact (norm_runes_scalar true false false _ Hs).
  assert (Hj : ∀ rs, Forall (λ c, is_scalar c = true) rs → code_points (join_runes rs) = rs) by (intros; by apply join_runes_spec).
  destruct t, c, l; cbv beta iota zeta; rewrite ?(Hj (trim_runes _)) by done;
    rewrite ?Hj by auto using collapse_scalar; first [done|by rewrite join_code_points].
Qed.

Lemma normalized_spec t c l value : well_formed value = true →
  well_formed (normalized t c l value) = true ∧ normalized t c l (normalized t c l value) = normalized t c l value ∧
  (utf8_length (normalized t c l value) <= utf8_length value)%N.
Proof.
  intros Hw. destruct (join_runes_spec (norm_runes t c l (code_points value))) as [Hw' Hc'].
  { by apply norm_runes_scalar, code_points_scalars. }
  split_and!; [done| |].
  - unfold normalized at 1. unfold normalized at 1. rewrite Hc'. by rewrite norm_runes_idem.
  - rewrite !utf8_length_runes by done. unfold normalized. rewrite Hc'.
    pose proof (norm_runes_size t c l (code_points value)). lia.
Qed.

(** When [object] accepts a payload. *)
Lemma object_Ok v required optional o : object v required optional = Ok o ↔
  v = VObj o ∧ Forall (λ k, k ∈ required ++ optional) (keys o) ∧ check_required o required = Ok tt.
Proof.
  unfold object. split.
  - destruct v as [| | | | | |p|]; try done. destruct (forallb _ (keys p)) eqn:E; [|done].
    intros ([] & Hr & [= ->])%rbind_Ok. split_and!; [done| |done].
    apply Forall_forall. rewrite forallb_forall in E. intros k Hk%list_elem_of_In%E. by apply bool_decide_eq_true in Hk.
  - intros (-> & HF & Hr). rewrite Forall_forall in HF. replace (forallb _ (keys o)) with true; [by rewrite Hr|].
    symmetry. apply forallb_forall. intros k Hk%list_elem_of_In%HF. by apply bool_decide_eq_true.
Qed.

(** The decoded arguments of a payload that [normalize] accepts. *)
Lemma normalize_Ok o value r : code_units value → js_get o (js "value") = VStr value → normalize (VObj o) = Ok r ↔
  ∃ t c l, object (VObj o) [js "value"] (map js ["trim"; "collapse_whitespace"; "lowercase_ascii"]%string) = Ok o ∧
    well_formed value = true ∧ too_long value = false ∧
    flag o "trim" = Ok t ∧ flag o "collapse_whitespace" = Ok c ∧ flag o "lowercase_ascii" = Ok l ∧
    r = VObj [(js "value", VStr (normalized t c l value))].
Proof.
  intros Hu Hv. unfold normalize, text. split.
  - intros (o' & Ho & H)%rbind_Ok.
    assert (o' = o) as ->.
    { by apply object_Ok in Ho as ([= ->] & _). }
    rewrite Hv in H. cbn [rbind] in H. rewrite assertUtf8_wf in H by done.
    destruct (well_formed value) eqn:Hw; [|done]. cbn [rbind] in H. destruct (too_long value) eqn:El; [done|].
    apply rbind_Ok in H as (t & Ht & (c & Hc & (l & Hl & H)%rbind_Ok)%rbind_Ok). injection H as <-.
    exists t, c, l. split_and!; try done. by rewrite <- normalize_strings.
  - intros (t & c & l & Ho & Hw & Hlen & Ht & Hc & Hl & ->). rewrite Ho. cbn [rbind]. rewrite Hv. cbn [rbind].
    rewrite assertUtf8_wf, Hw by done. cbn [rbind]. rewrite Hlen, Ht, Hc, Hl. cbn [rbind]. do 4 f_equal.
    by rewrite <- normalize_strings.
Qed.

Lemma js_get_set_ne o k v k' : k' ≠ k → js_get (obj_set k v o) k' = js_get o k'.
Proof. intros H. by rewrite js_get_set, bool_decide_eq_false_2. Qed.

Lemma well_formed_units s : well_formed s = true → code_units s.
Proof.
  revert s. apply well_formed_ind; [constructor| |]; intros; repeat constructor; try done.
  all: unfold is_high, is_low, in_range in *; lia.
Qed.

(** [text.normalize] is idempotent: when a payload is accepted, the same payload with the result
    as its value is accepted too (the result is valid and no longer than the value), and gives
    the same result, whatever combination of the three flags is set. *)
Theorem normalize_idempotent o value r : code_units value → js_get o (js "value") = VStr value →
  normalize (VObj o) = Ok r →
  ∃ out, r = VObj [(js "value", VStr out)] ∧ normalize (VObj (obj_set (js "value") (VStr out) o)) = Ok r.
Proof.
  intros Hu Hv (t & c & l & Ho & Hw & Hlen & Ht & Hc & Hl & ->)%(normalize_Ok _ _ _ Hu Hv).
  destruct (normalized_spec t c l value Hw) as (Hw' & Hi & Hs). eexists. split; [done|].
  assert (Hg : js_get (obj_set (js "value") (VStr (normalized t c l value)) o) (js "value") = VStr (normalized t c l value))
    by (rewrite js_get_set; by rewrite bool_decide_eq_true_2).
  apply (normalize_Ok _ _ _ (well_formed_units _ Hw') Hg). exists t, c, l. unfold flag in *.
  rewrite !js_get_set_ne by done. split_and!; try done; [|unfold too_long, byteLength in *; lia|by rewrite Hi].
  apply object_Ok in Ho as (_ & HF & _). apply object_Ok. split_and!; [done| |].
  - rewrite Forall_forall in *. intros k [->|Hk]%elem_of_keys_set; [by left|by apply HF].
  - cbn [check_required]. rewrite Hg. unfold in_object.
    by rewrite (bool_decide_eq_true_2 (_ ∈ keys _)) by (rewrite elem_of_keys_set; by left).
Qed.

Definition demo_normalize : list (jstr * jsval) :=
  [(js "value", VStr (js "  Big   Cat " ++ [12288%N])); (js "trim", VBool true); (js "collapse_whitespace", VBool true);
   (js "lowercase_ascii", VBool true)].

Lemma normalize_idempotent_witness : normalize (VObj demo_normalize) = Ok (VObj [(js "value", VStr (js "big cat"))]) ∧
  ∃ out, VObj [(js "value", VStr (js "big cat"))] = VObj [(js "value", VStr out)] ∧
    normalize (VObj (obj_set (js "value") (VStr out) demo_normalize)) = Ok (VObj [(js "value", VStr (js "big cat"))]).
Proof.
  split; [vm_compute; reflexivity|].
  apply (normalize_idempotent demo_normalize (js "  Big   Cat " ++ [12288%N])).
  - repeat constructor.
  - vm_compute. reflexivity.
  - vm_compute. reflexivity.
Defined.

(** ** Base64 fields *)

(** What the package documents beside [Base64Laws]: four characters for every three bytes, the
    last group padded. *)
Definition base64_length (B : Base64) : Prop := ∀ bs, Forall (λ b, (b < 256)%N) bs →
  N.of_nat (length (encodeBase64 bs)) = encodedLength (N.of_nat (length bs)).

Lemma rfc4648_length : base64_length Rfc4648.base64.
Proof.
  intros bs _. unfold encodedLength. simpl.
  induction bs as [|a|a b|a b c r IH] using Rfc4648.group_ind; [done..|]. cbn [Rfc4648.encode length].
  rewrite !Nat2N.inj_succ. replace (N.succ (N.succ (N.succ (N.of_nat (length r)))) + 2)%N with (N.of_nat (length r) + 2 + 1 * 3)%N by lia.
  rewrite N.div_add by done. lia.
Qed.

Lemma lang_star_class p s : Forall (λ c, p c = true) s → lang (RStar (RClass p)) s.
Proof. induction 1 as [|c s Hc _ IH]; [constructor|]. apply (L_star_app _ [c]); [done|by constructor|done]. Qed.

Lemma base64Pattern_loose s : matches base64Pattern s = true → matches looseBase64Pattern s = true.
Proof.
  rewrite !matches_lang. unfold base64Pattern, looseBase64Pattern. intros (u & v & -> & Hu & Hv)%lang_cat.
  assert (Hc : ∀ n w, lang (RRep n (RClass base64_char)) w → Forall (λ c, base64_char c = true) w).
  { intros n. unfold RRep. induction n as [|n IH]; simpl; intros w; [by intros ->%lang_eps_inv|].
    intros (x & y & -> & (c & -> & Hc)%lang_class & Hy)%lang_cat. constructor; [done|by apply IH]. }
  assert (Hcu : Forall (λ c, base64_char c = true) u).
  { apply lang_alphabet in Hu. eapply Forall_impl; [exact Hu|]. intros c. simpl. by rewrite !orb_false_r, !orb_diag. }
  apply lang_alt in Hv as [Hv|Hv%lang_eps_inv].
  - apply lang_alt in Hv as [Hv|Hv]; apply lang_cat in Hv as (x & y & -> & Hx & Hy); rewrite app_assoc; apply L_cat.
    1,3: apply lang_star_class, Forall_app; split; [done|by eapply Hc].
    + by apply L_alt_l, L_alt_l.
    + by apply L_alt_l, L_alt_r.
  - subst v. apply L_cat; [by apply lang_star_class|]. apply L_alt_r. constructor.
Qed.

Section base64_fields.
Context `{HB : Base64Laws} (HL : base64_length B).

Lemma encodedLength_mono m n : (m <= n → encodedLength m <= encodedLength n)%N.
Proof. intros H. unfold encodedLength. pose proof (N.Div0.div_le_mono (m + 2) (n + 2) 3). lia. Qed.

(** A binary field is accepted exactly when it is the canonical Base64 text of bytes within its
    limit, and is then read as these bytes: no other text of the same bytes passes. *)
Theorem binary_exact s field maxBytes bytes : Forall (λ b, (b < 256)%N) bytes →
  binary s field maxBytes = Ok bytes ↔ s = encodeBase64 bytes ∧ (N.of_nat (length bytes) <= maxBytes)%N.
Proof.
  intros Hb. unfold binary. split.
  - destruct (_ <? _)%N; [done|]. destruct (_ || _); [done|]. destruct (decodeBase64 s) as [d|]; [|done].
    case_bool_decide as E; [|done]. simpl. destruct (_ <? _)%N eqn:El; [done|]. intros [= ->]. split; [done|lia].
  - intros [-> Hlen]. rewrite HL by done. pose proof (encodedLength_mono _ _ Hlen).
    replace (_ <? _)%N with false by lia. destruct (base64_canonical bytes Hb) as [H4 Hp].
    rewrite H4, (base64Pattern_loose _ Hp), base64_decode_encode by done. simpl.
    rewrite bool_decide_eq_true_2 by done. simpl. by replace (_ <? _)%N with false by lia.
Qed.

Lemma binary_field_one key o bytes limit : Forall (λ b, (b < 256)%N) bytes → (N.of_nat (length bytes) <= limit)%N →
  js_get o (js key) = VStr (encodeBase64 bytes) → binary_field o key limit = Ok bytes.
Proof. intros Hb Hl Hg. unfold binary_field, text. rewrite Hg. cbn [rbind]. by apply binary_exact. Qed.

(** What [encoding.base64.encode] produces, [encoding.base64.decode] takes back to the text it was
    made from, for every accepted text that does not begin with a byte order mark. *)
Theorem base64_text_roundtrip value r : code_units value → strip_bom (utf8_encode value) = utf8_encode value →
  base64Encode (VObj [(js "text", VStr value)]) = Ok r →
  ∃ encoded, r = VObj [(js "encoded", VStr encoded)] ∧ base64Decode (VObj [(js "encoded", VStr encoded)]) = Ok (VObj [(js "text", VStr value)]).
Proof.
  intros Hu Hbom. unfold base64Encode. set (o := [_]). change (object (VObj o) [js "text"] []) with (@Ok native_exn _ o). cbn [rbind].
  change (text o "text") with (@Ok native_exn _ value). cbn [rbind]. rewrite assertUtf8_wf by done.
  destruct (well_formed value) eqn:Hw; [|done]. cbn [rbind]. destruct (_ <? _)%N eqn:El; [done|]. intros [= <-].
  eexists. split; [done|]. pose proof (utf8_encode_bytes _ Hw) as Hb. unfold base64Decode. set (o' := [_]).
  change (object (VObj o') [js "encoded"] []) with (@Ok native_exn _ o'). cbn [rbind].
  rewrite (binary_field_one "encoded" o' (utf8_encode value)) by first [done|lia]. cbn [rbind].
  by destruct (utf8_roundtrip _ Hw Hbom) as [_ ->].
Qed.
End base64_fields.

(** ** AES-GCM *)

(** What Web Crypto documents of AES-GCM beside [web_crypto_laws]: the tag is appended. *)
Definition aes_tag_appended (WC : WebCrypto) : Prop := ∀ k iv aad plain cipher,
  encrypt (AesGcmParams iv aad) k plain = Ok cipher → length cipher = length plain + AES_GCM_TAG_BYTES.

Lemma binary_Ok `{B64 : Base64} s field limit bytes : binary s field limit = Ok bytes →
  s = encodeBase64 bytes ∧ (N.of_nat (length bytes) <= limit)%N.
Proof.
  unfold binary. destruct (_ <? _)%N; [done|]. destruct (_ || _); [done|]. destruct (decodeBase64 s); [|done].
  case_bool_decide as E; [|done]. simpl. destruct (_ <? _)%N eqn:El; [done|]. intros [= ->]. split; [done|lia].
Qed.

Lemma binary_field_Ok `{B64 : Base64} o key limit bytes : binary_field o key limit = Ok bytes →
  js_get o (js key) = VStr (encodeBase64 bytes) ∧ (N.of_nat (length bytes) <= limit)%N.
Proof.
  intros (s & Hs & [-> Hl]%binary_Ok)%rbind_Ok. unfold text in Hs. split; [|done].
  destruct (js_get o (js key)); by simplify_eq.
Qed.

Lemma binary_field_ext `{B64 : Base64} o o' key limit : js_get o (js key) = js_get o' (js key) →
  binary_field o key limit = binary_field o' key limit.
Proof. intros H. unfold binary_field, text. by rewrite H. Qed.

(** The inputs [aesInputs] accepts. *)
Lemma aesInputs_Ok `{B64 : Base64} `{WC : WebCrypto} o valueField usage a : aesInputs o valueField usage = Ok a ↔
  ∃ raw, binary_field o "key" maxBinary = Ok raw ∧ length raw ∈ [16; 24; 32] ∧
    binary_field o "nonce" maxBinary = Ok (ai_nonce a) ∧ length (ai_nonce a) = AES_GCM_NONCE_BYTES ∧
    binary_field o "aad" maxBinary = Ok (ai_aad a) ∧
    binary_field o valueField (if bool_decide (usage = "decrypt"%string) then maxBinary else maxBinary - N.of_nat AES_GCM_TAG_BYTES)%N
      = Ok (ai_value a) ∧ (bool_decide (usage = "decrypt"%string) = true → AES_GCM_TAG_BYTES ≤ length (ai_value a)) ∧
    importKey "raw" raw AesGcm false [usage] = Ok (ai_key a).
Proof.
  unfold aesInputs. split.
  - intros (raw & Hraw & H)%rbind_Ok. exists raw. case_bool_decide as Hk; [|done]. cbn [negb] in H.
    apply rbind_Ok in H as (nonce & Hn & H). destruct (length nonce =? _) eqn:Hnl; [|done]. cbn [negb] in H.
    apply rbind_Ok in H as (aad & Ha & (v & Hv & H)%rbind_Ok).
    destruct (bool_decide (usage = "decrypt"%string) && _) eqn:Et; [done|]. apply rbind_Ok in H as (k & Hkey & [= <-]).
    destruct (importKey _ _ _ _ _) eqn:Ei; [|done]. injection Hkey as <-. cbn [ai_nonce ai_aad ai_value ai_key].
    apply Nat.eqb_eq in Hnl. split_and!; try done. intros Hd. rewrite Hd in Et. simpl in Et. lia.
  - intros (raw & Hraw & Hk & Hn & Hnl & Ha & Hv & Ht & Hi). rewrite Hraw. cbn [rbind].
    rewrite bool_decide_eq_true_2 by done. cbn [negb]. rewrite Hn. cbn [rbind]. rewrite Hnl, Nat.eqb_refl. cbn [negb].
    rewrite Ha. cbn [rbind]. rewrite Hv. cbn [rbind].
    replace (bool_decide (usage = "decrypt"%string) && _) with false by
      (symmetry; apply andb_false_iff; destruct (bool_decide _); [right; specialize (Ht eq_refl); lia|by left]).
    rewrite Hi. by destruct a.
Qed.

Section aes.
Context `{HB : Base64Laws} `{WC : WebCrypto} (HL : base64_length B) (HW : web_crypto_laws WC) (HT : aes_tag_appended WC).

(** What [crypto.aes-gcm.encrypt] produces, [crypto.aes-gcm.decrypt] takes back to the plaintext
    under the same key, nonce and additional data; the room left for the tag in the limit of a
    plaintext is what makes every ciphertext acceptable. *)
Theorem aes_gcm_roundtrip o r : aesGcmEncrypt (VObj o) = Ok r →
  ∃ ciphertext, r = VObj [(js "ciphertext", VStr ciphertext)] ∧
    aesGcmDecrypt (VObj [(js "key", js_get o (js "key")); (js "nonce", js_get o (js "nonce"));
                         (js "aad", js_get o (js "aad")); (js "ciphertext", VStr ciphertext)])
    = Ok (VObj [(js "plaintext", js_get o (js "plaintext"))]).
Proof.
  intros (o' & (Ho & _)%object_Ok & H)%rbind_Ok. injection Ho as <-.
  apply rbind_Ok in H as (a & Ha & (c & Hc & [= <-])%rbind_Ok). apply aesInputs_Ok in Ha as (raw & Hraw & Hk & Hn & Hnl & Haad & Hv & _ & Hi).
  rewrite bool_decide_eq_false_2 in Hv by done. unfold uncaught in Hc.
  destruct (encrypt _ _ _) as [c'|] eqn:Ec; [|done]. injection Hc as ->.
  destruct (law_aes_raw _ HW _ _ _ _ _ _ Hi Ec) as (k' & Hi' & Hd). destruct (law_encrypt_bytes _ HW _ _ _ _ Ec) as [Hb _].
  pose proof (HT _ _ _ _ _ Ec) as Hlen. eexists. split; [done|].
  pose proof (binary_field_Ok _ _ _ _ Hraw) as [Gk _]. pose proof (binary_field_Ok _ _ _ _ Hn) as [Gn _].
  pose proof (binary_field_Ok _ _ _ _ Haad) as [Ga _]. pose proof (binary_field_Ok _ _ _ _ Hv) as [Gv Lv].
  set (o' := [_; _; _; _]). unfold aesGcmDecrypt.
  assert (Ho : object (VObj o') (map js ["key"; "nonce"; "aad"; "ciphertext"]%string) [] = Ok o')
    by (unfold o'; rewrite Gk, Gn, Ga; reflexivity).
  rewrite Ho. cbn [rbind].
  set (a' := {| ai_key := k'; ai_nonce := ai_nonce a; ai_aad := ai_aad a; ai_value := c |}).
  assert (Ha' : aesInputs o' "ciphertext" "decrypt" = Ok a').
  { apply aesInputs_Ok. exists raw. rewrite (binary_field_ext o' o "key"), (binary_field_ext o' o "nonce"), (binary_field_ext o' o "aad") by done.
    split_and!; try done; [|intros _; cbn [ai_value a']; unfold AES_GCM_TAG_BYTES in *; lia].
    simple apply binary_field_one; [done|done| |done]. change (bool_decide ("decrypt"%string = "decrypt"%string)) with true.
    cbn [ai_value a']. unfold maxBinary in *. change (maxBinaryBytes GOFORGE_NATIVE_LIMITS) with 524288%N in *. unfold AES_GCM_TAG_BYTES in *. cbv iota. lia. }
  rewrite Ha'. cbn [rbind ai_key ai_nonce ai_aad ai_value a']. rewrite Hd. cbn [instead rbind]. unfold one_field. by rewrite Gv.
Qed.
End aes.

(** ** [dispatch] answers every request *)

Definition contract_errorb (code : jstr) (field : option jstr) : bool :=
  bool_decide (code ∈ GOFORGE_ABI_V1_ERROR_CODES) &&
  match field with Some f => match bounded_text 512 (UStr f) with Some _ => true | None => false end | None => true end.

(** A result in [P], a failure of the contract, or (where [crypto] allows it) an error of Web Crypto. *)
Definition wanted {A} (crypto : bool) (P : A → Prop) (r : res native_exn A) : Prop :=
  match r with
  | Ok a => P a
  | Err (XPayload e) => contract_errorb (pe_code e) (pe_field e) = true
  | Err (XCrypto _) => crypto = true
  | Err (XCodec _) => False
  end.

Lemma wanted_bind {A B} b (P : A → Prop) (Q : B → Prop) r k :
  wanted b P r → (∀ a, P a → wanted b Q (k a)) → wanted b Q (rbind r k).
Proof. destruct r as [a|[e|e|e]]; simpl; auto. Qed.
Lemma wanted_error {A} b (P : A → Prop) code field : contract_errorb (js code) field = true → wanted b P (payload_error code field).
Proof. done. Qed.
Lemma wanted_impl {A} b (P Q : A → Prop) r : (∀ a, P a → Q a) → wanted b P r → wanted b Q r.
Proof. intros H. destruct r as [a|[e|e|e]]; simpl; auto. Qed.

#[local] Notation anything := (λ _, True).

Lemma wanted_object b v required optional : forallb (λ k, contract_errorb (js "invalid_request") (Some (payload_path k))) required = true →
  wanted b anything (object v required optional).
Proof.
  intros H. unfold object. destruct v as [| | | | | |o|]; try by apply wanted_error.
  destruct (forallb _ (keys o)); [|by apply wanted_error]. apply (wanted_bind _ anything); [|done].
  induction required as [|k ks IH]; [done|]. cbn [check_required]. apply andb_true_iff in H as [Hk H].
  destruct (_ || _); [done|]. by apply IH.
Qed.

Lemma wanted_text b o k : wanted b anything (text o k).
Proof. unfold text. destruct (js_get o _); by try apply wanted_error. Qed.
Lemma wanted_optionalText b o k : wanted b anything (optionalText o k).
Proof. unfold optionalText. destruct (js_get o _); by try apply wanted_error. Qed.
Lemma wanted_flag b o k : wanted b anything (flag o k).
Proof. unfold flag. destruct (js_get o _); by try apply wanted_error. Qed.
Lemma wanted_integer b o k : wanted b anything (integer o k).
Proof. unfold integer. repeat case_match; by try apply wanted_error. Qed.
Lemma wanted_utf8 b s f : contract_errorb (js "invalid_utf8") (Some f) = true → wanted b anything (assertUtf8 s f).
Proof. intros H. unfold assertUtf8. by destruct (lone_surrogate _ _). Qed.
Lemma wanted_binary `{B64 : Base64} b o k limit : contract_errorb (js "invalid_base64") (Some (payload_path (js k))) = true →
  wanted b anything (binary_field o k limit).
Proof.
  intros H. apply (wanted_bind _ anything); [apply wanted_text|]. intros s _. unfold binary. repeat case_match; done.
Qed.
Lemma wanted_uncaught {A} (r : res thrown A) : wanted true anything (uncaught r).
Proof. by destruct r. Qed.
Lemma wanted_instead {A} b (r : res thrown A) e : wanted b anything e → wanted b anything (instead r e).
Proof. by destruct r. Qed.

(** Result objects an ABI response may carry. *)
Definition abi_result (v : jsval) : Prop := parsed v ∧ abi_value v = true ∧ height v ≤ 32.

Ltac wanted_step :=
  match goal with
  | |- wanted _ _ (Ok _) => simpl; done
  | |- wanted _ _ (payload_error _ _) => apply wanted_error; vm_compute; reflexivity
  | |- wanted _ _ (rbind (object _ _ _) _) => apply (wanted_bind _ anything); [apply wanted_object; vm_compute; reflexivity|intros ? _]
  | |- wanted _ _ (rbind (text _ _) _) => apply (wanted_bind _ anything); [apply wanted_text|intros ? _]
  | |- wanted _ _ (rbind (optionalText _ _) _) => apply (wanted_bind _ anything); [apply wanted_optionalText|intros ? _]
  | |- wanted _ _ (rbind (flag _ _) _) => apply (wanted_bind _ anything); [apply wanted_flag|intros ? _]
  | |- wanted _ _ (rbind (integer _ _) _) => apply (wanted_bind _ anything); [apply wanted_integer|intros ? _]
  | |- wanted _ _ (rbind (assertUtf8 _ _) _) => apply (wanted_bind _ anything); [apply wanted_utf8; vm_compute; reflexivity|intros ? _]
  | |- wanted _ _ (rbind (binary_field _ _ _) _) => apply (wanted_bind _ anything); [apply wanted_binary; vm_compute; reflexivity|intros ? _]
  | |- wanted true _ (rbind (uncaught _) _) => apply (wanted_bind _ anything); [apply wanted_uncaught|intros ? _]
  | |- wanted _ _ (rbind (instead _ _) _) => apply (wanted_bind _ anything); [apply wanted_instead|intros ? _]
  | |- wanted _ _ (if ?b then _ else _) => destruct b
  end.

Lemma one_string_result key s : reserved_key (js key) = false → abi_result (VObj [(js key, VStr s)]).
Proof. intros H. split_and!; [|simpl; by rewrite H|simpl; lia]. simpl. split; [|done]. unfold ordered. simpl. done. Qed.

Lemma wanted_decode_rules b v : wanted b anything (decode_rules v).
Proof. unfold decode_rules. repeat wanted_step. Qed.

Lemma wanted_normalize b v : wanted b abi_result (normalize v).
Proof. unfold normalize. repeat wanted_step; by apply one_string_result. Qed.

Lemma validation_result b (codes : list jstr) :
  abi_result (VObj [(js "valid", VBool b); (js "violations", VArr (map (λ code, VObj [(js "code", VStr code)]) codes))]).
Proof.
  assert (Hc : ∀ code, abi_result (VObj [(js "code", VStr code)])) by (intros; by apply one_string_result).
  split_and!.
  - simpl. split; [reflexivity|]. split_and!; try done. apply foldr_and_Forall, Forall_map, Forall_forall. intros c _. apply (Hc c).
  - simpl. rewrite andb_true_r. apply forallb_forall. intros v (c & <- & _)%in_map_iff. apply (Hc c).
  - simpl. assert (Hm : foldr (λ t n, Nat.max (S (height t)) n) 0 (map (λ code, VObj [(js "code", VStr code)]) codes) ≤ 2).
    { apply foldr_max_le, Forall_map, Forall_forall. intros c _. simpl. lia. }
    revert Hm. generalize (foldr (λ t n, Nat.max (S (height t)) n) 0 (map (λ code, VObj [(js "code", VStr code)]) codes)). lia.
Qed.

Lemma wanted_validate b v : wanted b abi_result (validate v).
Proof.
  unfold validate. apply (wanted_bind _ anything); [apply wanted_decode_rules|]. intros [value rules] _. apply validation_result.
Qed.

Section answers.
Context `{B64 : Base64} `{WC : WebCrypto}.

Lemma wanted_aes b usage field payload :
  contract_errorb (js "invalid_base64") (Some (payload_path (js field))) = true →
  contract_errorb (js "authentication_failed") (Some (payload_path (js field))) = true →
  wanted b anything (aesInputs payload field usage).
Proof.
  intros H1 H2. unfold aesInputs.
  repeat lazymatch goal with |- wanted _ _ (rbind (binary_field _ field _) _) => fail | _ => wanted_step end.
  apply (wanted_bind _ anything); [by apply wanted_binary|intros ? _]. destruct (_ && _); [by apply wanted_error|]. repeat wanted_step.
Qed.

Lemma wanted_execute operation payload :
  wanted (startsWith operation (js "crypto.")) abi_result (execute operation payload).
Proof.
  unfold execute. destruct (own_get operation handlers) as [h|] eqn:E; [|by apply wanted_error].
  unfold handlers in E. cbn [own_get] in E.
  repeat match type of E with
  | (if ?b then _ else _) = _ => destruct b eqn:?; [injection E as <-|]
  end; [..|done]; bool_inv; subst operation;
    match goal with |- wanted (startsWith ?a ?b) _ _ =>
      let v := eval vm_compute in (startsWith a b) in change (startsWith a b) with v end.
  - apply wanted_normalize.
  - apply wanted_validate.
  - unfold sha256. repeat wanted_step. by apply one_string_result.
  - unfold hmacSha256. repeat wanted_step. by apply one_string_result.
  - unfold aesGcmEncrypt. repeat wanted_step. apply (wanted_bind _ anything); [by apply wanted_aes|intros ? _].
    repeat wanted_step. by apply one_string_result.
  - unfold aesGcmDecrypt. repeat wanted_step. apply (wanted_bind _ anything); [by apply wanted_aes|intros ? _].
    repeat wanted_step. by apply one_string_result.
  - unfold base64Encode. repeat wanted_step. by apply one_string_result.
  - unfold base64Decode. repeat wanted_step. destruct (utf8_decode_fatal _); [|by apply wanted_error]. by apply one_string_result.
Qed.
End answers.

Lemma createAbiFailureResponse_ok id e : assertIdentifier (UStr id) (js "id") = Ok id → contract_errorb (pe_code e) (pe_field e) = true →
  ∃ r, failure id e = Ok r ∧ response_for id r.
Proof.
  unfold contract_errorb. intros Hid [Hc%bool_decide_eq_true Hf]%andb_true_iff. unfold failure.
  assert (∃ r, createAbiFailureResponse id {| fi_code := pe_code e; fi_field := pe_field e; fi_message := None; fi_retryable := None |} = Ok r) as [r Hr].
  { destruct (catalog_code _ Hc) as [d Hd]. unfold createAbiFailureResponse, catalog. cbn [fi_code fi_field fi_message fi_retryable].
    rewrite Hid, Hd. cbn [rbind]. destruct (pe_field e) as [f|]; [|by eexists].
    unfold assertErrorField. destruct (bounded_text 512 (UStr f)); [by eexists|done]. }
  exists r. rewrite Hr. split; [done|]. refine (createAbiFailureResponse_for _ _ _ _ Hr). exact Hc.
Qed.

Lemma createAbiSuccessResponse_ok id v : assertIdentifier (UStr id) (js "id") = Ok id → abi_result v →
  let '(h, u) := alloc v [] in createAbiSuccessResponse h id u = Ok (AbiSuccess id v).
Proof.
  intros Hid (Hp & Ha & Hh). destruct (alloc v []) as [h u] eqn:E. apply alloc_spec in E as (_ & Hok & Hr); [|done].
  unfold createAbiSuccessResponse. rewrite Hid. cbn [rbind]. unfold encodeAbiValue.
  rewrite (copy_complete h v (Hok ltac:(by intros ???))) by first [done | unfold MAX_JSON_DEPTH; lia | constructor]. done.
Qed.

(** ** What leaves [dispatch] *)

Section dispatch.
Context `{B64 : Base64} `{WC : WebCrypto}.

(** The errors that may leave the adapter: what Web Crypto throws at the digest of [crypto.sha256], at
    the import and the signature of [crypto.hmac-sha256] and at the encryption of
    [crypto.aes-gcm.encrypt], with inputs that were all accepted. *)
Definition web_crypto_error (operation : jstr) (payload : jsval) (e : thrown) : Prop :=
  (operation = js "crypto.sha256" ∧ ∃ input data,
     object payload [js "data"] [] = Ok input ∧ binary_field input "data" maxBinary = Ok data ∧ digest_sha256 data = Err e) ∨
  (operation = js "crypto.hmac-sha256" ∧ ∃ input raw data,
     object payload (map js ["key"; "data"]%string) [] = Ok input ∧ binary_field input "key" maxBinary = Ok raw ∧
     MINIMUM_HMAC_KEY_BYTES ≤ length raw ∧ binary_field input "data" maxBinary = Ok data ∧
     (importKey "raw" raw Hmac256 false ["sign"]%string = Err e ∨
      ∃ k, importKey "raw" raw Hmac256 false ["sign"]%string = Ok k ∧ sign Hmac256 k data = Err e)) ∨
  (operation = js "crypto.aes-gcm.encrypt" ∧ ∃ input a,
     object payload (map js ["key"; "nonce"; "aad"; "plaintext"]%string) [] = Ok input ∧ aesInputs input "plaintext" "encrypt" = Ok a ∧
     encrypt (AesGcmParams (ai_nonce a) (Some (ai_aad a))) (ai_key a) (ai_value a) = Err e).

Lemma no_crypto {A B} (P : A → Prop) (r : res native_exn A) (k : A → res native_exn B) e : wanted false P r →
  rbind r k = Err (XCrypto e) → ∃ a, r = Ok a ∧ k a = Err (XCrypto e).
Proof. destruct r as [a|[x|x|x]]; simpl; [by eauto|congruence..]. Qed.

Lemma uncaught_error {A B} (r : res thrown A) (k : A → res native_exn B) e : rbind (uncaught r) k = Err (XCrypto e) →
  r = Err e ∨ ∃ a, r = Ok a ∧ k a = Err (XCrypto e).
Proof. destruct r as [a|x]; simpl; [by eauto|]. intros [= ->]. by left. Qed.

Ltac accepted H :=
  apply (no_crypto (λ _, True)) in H as (? & ? & H);
    [|first [apply wanted_object; vm_compute; reflexivity|apply wanted_binary; vm_compute; reflexivity|by apply wanted_aes]].

Lemma sha256_error payload e : sha256 payload = Err (XCrypto e) → web_crypto_error (js "crypto.sha256") payload e.
Proof.
  unfold sha256. intros H. accepted H. accepted H. apply uncaught_error in H as [H|(? & _ & H)]; [|done]. left. eauto 7.
Qed.

Lemma hmac_error payload e : hmacSha256 payload = Err (XCrypto e) → web_crypto_error (js "crypto.hmac-sha256") payload e.
Proof.
  unfold hmacSha256. intros H. accepted H. accepted H. destruct (_ <? _) eqn:E; [done|]. apply Nat.ltb_ge in E. accepted H.
  right; left. split; [done|]. do 3 eexists. split_and!; [done|done|done|done|].
  apply uncaught_error in H as [H|(k & Hk & H)]; [by left|]. right. exists k. split; [done|].
  by apply uncaught_error in H as [H|(? & _ & H)].
Qed.

Lemma encrypt_error payload e : aesGcmEncrypt payload = Err (XCrypto e) → web_crypto_error (js "crypto.aes-gcm.encrypt") payload e.
Proof.
  unfold aesGcmEncrypt. intros H. accepted H. accepted H. apply uncaught_error in H as [H|(? & _ & H)]; [|done].
  right; right. eauto 7.
Qed.

Lemma decrypt_no_error payload e : aesGcmDecrypt payload ≠ Err (XCrypto e).
Proof.
  unfold aesGcmDecrypt. intros H. accepted H. accepted H. by destruct (decrypt _ _ _).
Qed.

(** An error of Web Crypto leaves [execute] only from the calls that no [catch] surrounds. *)
Lemma execute_error operation payload e : execute operation payload = Err (XCrypto e) → web_crypto_error operation payload e.
Proof.
  intros H. pose proof (wanted_execute operation payload) as Hw. rewrite H in Hw. cbn [wanted] in Hw.
  unfold execute in H. destruct (own_get operation handlers) as [h|] eqn:E; [|done].
  unfold handlers in E. cbn [own_get] in E.
  repeat match type of E with
  | (if ?b then _ else _) = _ => destruct b eqn:?; [injection E as <-|]
  end; [..|done]; bool_inv; subst operation; try (by vm_compute in Hw).
  - by apply sha256_error.
  - by apply hmac_error.
  - by apply encrypt_error.
  - by apply decrypt_no_error in H.
Qed.

(** The error of a context that was aborted, or whose deadline has passed. *)
Definition refusal (context : NativeAdapterContext) : option PayloadError :=
  if cx_aborted context then Some {| pe_code := js "cancellation_requested"; pe_field := None |}
  else if match cx_deadlineUnixMs context with Some d => num_ltb d (cx_now context) | None => false end
  then Some {| pe_code := js "deadline_exceeded"; pe_field := None |} else None.

Lemma failure_answers id e : assertIdentifier (UStr id) (js "id") = Ok id → contract_errorb (pe_code e) (pe_field e) = true →
  ∃ f, failure id e = Ok (AbiFailure id f) ∧ ae_code f = pe_code e ∧ ae_field f = pe_field e ∧ response_for id (AbiFailure id f).
Proof.
  intros Hid He. destruct (createAbiFailureResponse_ok _ e Hid He) as (r & Hf & Hr). pose proof Hf as Hf'.
  unfold failure, createAbiFailureResponse in Hf. rewrite Hid in Hf. cbn [rbind fi_code fi_field fi_message fi_retryable] in Hf.
  destruct (catalog (pe_code e)) as [[m rt]|]; [|done]. destruct (pe_field e) as [g|].
  - destruct (assertErrorField (UStr g)) as [g'|] eqn:Eg; [|done]. pose proof (assertErrorField_Ok _ _ Eg) as [= <-].
    injection Hf as <-. eexists. by split_and!.
  - injection Hf as <-. eexists. by split_and!.
Qed.

Lemma dispatch_outcome request context : dispatch request context =
  match (match refusal context with Some e => Err (XPayload e) | None => execute (rq_operation request) (rq_payload request) end) with
  | Ok result => let '(h, v) := alloc result [] in codec (createAbiSuccessResponse h (rq_id request) v)
  | Err (XPayload e) => failure (rq_id request) e
  | Err e => Err e
  end.
Proof.
  assert (Hf : ∀ e, match failure (rq_id request) e with Err (XPayload e) => failure (rq_id request) e | r => r end = failure (rq_id request) e)
    by (intros e; unfold failure, codec; by destruct (createAbiFailureResponse _ _)).
  unfold dispatch, dispatch_body, refusal. destruct (cx_aborted context); [apply Hf|].
  destruct (match cx_deadlineUnixMs context with Some d => _ | None => false end); [apply Hf|].
  destruct (execute _ _) as [v|[e|e|e]]; cbn [rbind]; try done.
  destruct (alloc v []) as [h u]. unfold codec. by destruct (createAbiSuccessResponse _ _ _).
Qed.

(** C39. [dispatch] answers.  The outcome of a request is the refusal of its context, when it was
    aborted or its deadline has passed, and what the operation returns or throws otherwise.  A
    result is answered by the success that carries it; an error of the payload by the failure with
    its code and field, with the message and the retryability of the contract's catalogue;
    a request whose id is not valid gets the error of the codec.  Only an error that Web
    Crypto throws at a digest, an HMAC or an encryption leaves the adapter as it is: a decryption that
    Web Crypto refuses is answered [authentication_failed]. *)
Theorem dispatch_answers request context :
  let id := rq_id request in
  let outcome := match refusal context with Some e => Err (XPayload e) | None => execute (rq_operation request) (rq_payload request) end in
  match outcome, assertIdentifier (UStr id) (js "id") with
  | Err (XCrypto e), _ => dispatch request context = Err (XCrypto e) ∧ web_crypto_error (rq_operation request) (rq_payload request) e
  | _, Err e => dispatch request context = Err (XCodec e)
  | Ok result, Ok _ => dispatch request context = Ok (AbiSuccess id result) ∧ response_for id (AbiSuccess id result)
  | Err (XPayload e), Ok _ => ∃ f, dispatch request context = Ok (AbiFailure id f) ∧
      ae_code f = pe_code e ∧ ae_field f = pe_field e ∧ response_for id (AbiFailure id f)
  | Err (XCodec _), Ok _ => False
  end ∧
  ∀ input a e, refusal context = None → rq_operation request = js "crypto.aes-gcm.decrypt" →
    object (rq_payload request) (map js ["key"; "nonce"; "aad"; "ciphertext"]%string) [] = Ok input →
    aesInputs input "ciphertext" "decrypt" = Ok a → decrypt (AesGcmParams (ai_nonce a) (Some (ai_aad a))) (ai_key a) (ai_value a) = Err e →
    outcome = Err (XPayload {| pe_code := js "authentication_failed"; pe_field := Some (js "payload.ciphertext") |}).
Proof.
  intros id outcome. split.
  2: { intros input a e Hc Hop Ho Ha Hd. unfold outcome. rewrite Hc, Hop. transitivity (aesGcmDecrypt (rq_payload request)); [done|].
       unfold aesGcmDecrypt. rewrite Ho. cbn [rbind]. rewrite Ha. cbn [rbind]. by rewrite Hd. }
  rewrite dispatch_outcome. fold outcome id.
  assert (Hw : wanted (startsWith (rq_operation request) (js "crypto.")) abi_result outcome).
  { unfold outcome, refusal. destruct (cx_aborted context); [done|].
    destruct (match cx_deadlineUnixMs context with Some d => _ | None => false end); [done|apply wanted_execute]. }
  assert (Hx : ∀ e, outcome = Err (XCrypto e) → web_crypto_error (rq_operation request) (rq_payload request) e).
  { unfold outcome. destruct (refusal context); [done|]. intros e. apply execute_error. }
  destruct outcome as [v|[e|e|e]].
  - destruct (assertIdentifier (UStr id) (js "id")) as [i|e] eqn:Hid.
    + pose proof (assertIdentifier_Ok _ _ _ Hid) as [= <-]. pose proof (createAbiSuccessResponse_ok _ v Hid Hw) as E.
      destruct (alloc v []) as [h u]. rewrite E. split; [done|]. destruct Hw as (_ & Ha & Hh). by split_and!.
    + destruct (alloc v []) as [h u]. unfold createAbiSuccessResponse. by rewrite Hid.
  - destruct (assertIdentifier (UStr id) (js "id")) as [i|x] eqn:Hid.
    + pose proof (assertIdentifier_Ok _ _ _ Hid) as [= <-]. by apply failure_answers.
    + unfold failure, createAbiFailureResponse. by rewrite Hid.
  - split; [done|]. by apply Hx.
  - done.
Qed.
End dispatch.

(** ** Validation *)

(** The rules as a property of a text. *)
Definition satisfies (value : jstr) (ru : rules_t) : Prop :=
  (ru_required ru = true → value ≠ []) ∧
  ((0 < ru_minBytes ru)%Z → (ru_minBytes ru <= Z.of_nat (length (utf8_encode value)))%Z) ∧
  ((0 < ru_maxBytes ru)%Z → (Z.of_nat (length (utf8_encode value)) <= ru_maxBytes ru)%Z) ∧
  ((0 < ru_minRunes ru)%Z → (ru_minRunes ru <= Z.of_nat (length (scalars value)))%Z) ∧
  ((0 < ru_maxRunes ru)%Z → (Z.of_nat (length (scalars value)) <= ru_maxRunes ru)%Z) ∧
  (ru_ascii ru = true → is_ascii value = true) ∧
  (ru_forbid_control ru = true → Forall (λ c, isGoControl c = false) value) ∧
  (ru_forbid_whitespace ru = true → Forall (λ c, isGoSpace c = false) value) ∧
  ru_prefix ru `prefix_of` value ∧ ru_suffix ru `suffix_of` value.

(** The order the violations are reported in. *)
Definition violation_order : list jstr :=
  map js ["required"; "min_bytes"; "max_bytes"; "min_runes"; "max_runes"; "ascii"; "control"; "whitespace"; "prefix"; "suffix"]%string.

(** A test that agrees on a pair and on its two surrogates agrees on code points and code units. *)
Lemma existsb_code_points (P : N → bool) value : well_formed value = true →
  (∀ c d, is_high c = true → is_low d = true → P (65536 + (c - 55296) * 1024 + (d - 56320))%N = P c || P d) →
  existsb P (code_points value) = existsb P value.
Proof.
  intros Hw HP. rewrite code_points_wf by done. revert value Hw. apply well_formed_ind; [done| |].
  - intros c s Hc Hs _ IH. simpl.
    replace (is_high c) with false by (unfold is_surrogate, is_high, in_range in *; lia).
    replace (is_low c) with false by (unfold is_surrogate, is_low, in_range in *; lia). simpl. by rewrite IH.
  - intros c d s Hc Hd _ IH. simpl. rewrite Hc, Hd. simpl. by rewrite IH, HP, orb_assoc.
Qed.

Lemma isGoSpace_high c : (12289 <= c)%N → isGoSpace c = false.
Proof. intros H. unfold isGoSpace, in_range. rewrite bool_decide_eq_false_2 by (rewrite !elem_of_cons, elem_of_nil; lia). lia. Qed.

Lemma existsb_false_Forall {A} (P : A → bool) l : existsb P l = false ↔ Forall (λ x, P x = false) l.
Proof. induction l as [|x l IH]; simpl; [done|]. rewrite orb_false_iff, Forall_cons. tauto. Qed.

Lemma decode_rules_Ok payload value ru : decode_rules payload = Ok (value, ru) →
  lone_surrogate false value = false ∧ too_long value = false ∧ 
  bad_bounds (ru_minBytes ru) (ru_maxBytes ru) (ru_minRunes ru) (ru_maxRunes ru) = false.
Proof.
  unfold decode_rules, assertUtf8. intros H.
  repeat match goal with
  | H : rbind _ _ = Ok _ |- _ => apply rbind_Ok in H as (? & ? & ?)
  | H : (if ?b then _ else _) = Ok _ |- _ => destruct b eqn:?; [discriminate H|]
  end.
  simplify_eq. cbn [ru_minBytes ru_maxBytes ru_minRunes ru_maxRunes]. by repeat match goal with H : _ || _ = false |- _ => apply orb_false_iff in H as [? ?] end.
Qed.

Lemma violations_nil value ru : well_formed value = true → violations value ru = [] ↔ satisfies value ru.
Proof.
  intros Hw. unfold violations, satisfies.
  assert (Hp : ∀ (b : bool) s (l : list jstr), (if b then [js s] else []) ++ l = [] ↔ b = false ∧ l = [])
    by (intros [] s l; simpl; split; [done|intros [? _]; done|done|intros [_ ->]; done]).
  assert (Hp' : ∀ (b : bool) s, (if b then [js s] else []) = [] ↔ b = false) by (by intros [] s).
  rewrite !Hp, Hp'.
  assert (Hsur : ∀ c d, is_high c = true → is_low d = true → (55296 <= c ∧ 55296 <= d)%N) by (unfold is_high, is_low, in_range; lia).
  rewrite (existsb_code_points (λ c, 127 <? c)%N) by first [done|intros c d Hc Hd; cbv beta; pose proof (Hsur c d Hc Hd); lia].
  rewrite (existsb_code_points isGoControl) by first [done|intros c d Hc Hd; pose proof (Hsur c d Hc Hd); unfold isGoControl, in_range; lia].
  rewrite (existsb_code_points isGoSpace) by first [done|intros c d Hc Hd; pose proof (Hsur c d Hc Hd); rewrite !isGoSpace_high by lia; done].
  rewrite code_points_wf by done. unfold byteLength, utf8_length. rewrite nat_N_Z.
  rewrite !andb_false_iff, !negb_false_iff, !bool_decide_eq_true, bool_decide_eq_false, !existsb_false_Forall.
  assert (Ha : is_ascii value = true ↔ Forall (λ c, (127 <? c)%N = false) value).
  { rewrite is_ascii_Forall. apply Forall_iff. intros c. lia. }
  assert (Hs : endsWith value (ru_suffix ru) = true ↔ ru_suffix ru `suffix_of` value).
  { unfold endsWith. rewrite startsWith_prefix. split; intros [k Hk].
    - exists (rev k). by rewrite <- (rev_involutive value), Hk, rev_app_distr, rev_involutive.
    - exists (rev k). by rewrite Hk, rev_app_distr. }
  rewrite Ha, Hs, startsWith_prefix.
  assert (Hnp : ∀ l : jstr, [] `prefix_of` l) by (intros; apply prefix_nil).
  assert (Hns : ∀ l : jstr, [] `suffix_of` l) by (intros; apply suffix_nil).
  assert (Hb : ∀ (b : bool) (P : Prop), (b = false ∨ P) ↔ (b = true → P))
    by (intros [] P; split; [by intros [?|?] ?|intros ?; right; auto|by intros ? ?|by left]).
  rewrite !Hb, !Z.ltb_lt, !Z.ltb_ge.
  assert (Hq : (ru_prefix ru = [] ∨ ru_prefix ru `prefix_of` value) ↔ ru_prefix ru `prefix_of` value)
    by (split; [intros [->|?]; [apply Hnp|done]|by right]).
  assert (Hr : (ru_suffix ru = [] ∨ ru_suffix ru `suffix_of` value) ↔ ru_suffix ru `suffix_of` value)
    by (split; [intros [->|?]; [apply Hns|done]|by right]).
  rewrite Hq, Hr. split; intros H; split_and!; try apply H; tauto.
Qed.

Lemma violations_ordered value ru : violations value ru `sublist_of` violation_order.
Proof.
  unfold violations, violation_order. cbn [map].
  assert (Hp : ∀ (b : bool) s (l l' : list jstr), l `sublist_of` l' → (if b then [js s] else []) ++ l `sublist_of` js s :: l')
    by (intros [] s l l' H; simpl; by constructor).
  do 9 apply Hp. case_match; by constructor.
Qed.

(** [text.validate] reports a text valid exactly when it satisfies every rule, measured as Go
    measures it (UTF-8 bytes, scalar values, Go's white space and control characters), and its
    violations come once each and in the order of the contract; an accepted rule set has bounds
    within the limit and no minimum above its maximum. *)
Theorem validate_correct payload value ru : code_units value → decode_rules payload = Ok (value, ru) →
  ∃ codes, validate payload = Ok (VObj [(js "valid", VBool (bool_decide (codes = [])));
      (js "violations", VArr (map (λ code, VObj [(js "code", VStr code)]) codes))]) ∧
    (codes = [] ↔ satisfies value ru) ∧ codes `sublist_of` violation_order ∧
    (0 <= ru_minBytes ru <= 65536 ∧ 0 <= ru_maxBytes ru <= 65536 ∧ 0 <= ru_minRunes ru <= 65536 ∧ 0 <= ru_maxRunes ru <= 65536)%Z ∧
    ((0 < ru_maxBytes ru → ru_minBytes ru <= ru_maxBytes ru) ∧ (0 < ru_maxRunes ru → ru_minRunes ru <= ru_maxRunes ru))%Z.
Proof.
  intros Hu Hd. pose proof (decode_rules_Ok _ _ _ Hd) as (Hl & _ & Hb).
  assert (Hw : well_formed value = true).
  { pose proof (assertUtf8_wf value [] Hu) as E. unfold assertUtf8 in E. rewrite Hl in E. by destruct (well_formed value). }
  exists (violations value ru). split_and!; [|by apply violations_nil|apply violations_ordered|..].
  { unfold validate. rewrite Hd. cbn [rbind]. do 4 f_equal.
    destruct (violations value ru); [by rewrite bool_decide_eq_true_2|by rewrite bool_decide_eq_false_2]. }
  all: unfold bad_bounds in Hb; change (Z.of_N _) with 65536%Z in Hb; lia.
Qed.

Definition demo_validate : jsval :=
  VObj [(js "value", VStr (js "a b")); (js "rules", VObj [(js "max_bytes", VNum (dbl_of_Z 2)); (js "forbid_whitespace", VBool true);
                                                          (js "prefix", VStr (js "a"))])].
Definition demo_rules : rules_t :=
  {| ru_required := false; ru_minBytes := 0; ru_maxBytes := 2; ru_minRunes := 0; ru_maxRunes := 0; ru_ascii := false;
     ru_forbid_control := false; ru_forbid_whitespace := true; ru_prefix := js "a"; ru_suffix := [] |}.

Lemma validate_correct_witness :
  validate demo_validate = Ok (VObj [(js "valid", VBool false);
    (js "violations", VArr [VObj [(js "code", VStr (js "max_bytes"))]; VObj [(js "code", VStr (js "whitespace"))]])]) ∧
  ∃ codes, validate demo_validate = Ok (VObj [(js "valid", VBool (bool_decide (codes = [])));
      (js "violations", VArr (map (λ code, VObj [(js "code", VStr code)]) codes))]) ∧
    (codes = [] ↔ satisfies (js "a b") demo_rules).
Proof.
  split; [vm_compute; reflexivity|].
  destruct (validate_correct demo_validate (js "a b") demo_rules) as (codes & H & Hs & _);
    [by repeat constructor|vm_compute; reflexivity|]. by exists codes.
Defined.

(** ** Qualification *)

Section qualification.
Context (invoke : answers).

(** The [i]-th vector is reproduced exactly. *)
Definition passes (iv : nat * GoforgeSharedVector) : Prop :=
  ∃ actual, invoke iv.1 (vector_request iv.2) = Ok actual ∧ canonical actual = canonical (vector_expected iv.2).

Lemma replay_pass covered failures iv : 
  let st := replay invoke (covered, failures) iv in
  (passes iv ∧ st.2 = failures ∧ ∀ op, op ∈ st.1 ↔ op ∈ covered ∨ op = ve_operation iv.2) ∨
  (¬ passes iv ∧ st.2 ≠ [] ∧ st.1 = covered).
Proof.
  destruct iv as [i v]. unfold replay, passes. cbn [fst snd]. destruct (invoke i (vector_request v)) as [actual|cause].
  - case_bool_decide as E; [left|right]; cbn [fst snd].
    + split_and!; [eauto|done|]. intros op. case_bool_decide as Hin; [naive_solver|]. rewrite elem_of_app, list_elem_of_singleton. done.
    + split_and!; [intros (? & [= <-] & ?); done|by destruct failures|done].
  - right. split_and!; [by intros (? & ? & _)|by destruct failures|done].
Qed.

Lemma replay_fold l : ∀ covered failures,
  let st := foldl (replay invoke) (covered, failures) l in
  (st.2 = [] ↔ failures = [] ∧ Forall passes l) ∧
  (st.2 = [] → ∀ op, op ∈ st.1 ↔ op ∈ covered ∨ ∃ iv, iv ∈ l ∧ ve_operation iv.2 = op).
Proof.
  induction l as [|iv l IH]; intros covered failures; cbn [foldl].
  { simpl. split; [split; [by intros ->|by intros [-> _]]|]. intros _ op. split; [by left|]. intros [?|(iv & Hiv & _)]; [done|by apply not_elem_of_nil in Hiv]. }
  destruct (replay invoke (covered, failures) iv) as [c f] eqn:E. specialize (IH c f) as [IH1 IH2].
  pose proof (replay_pass covered failures iv) as H. rewrite E in H. cbn [fst snd] in *. rewrite Forall_cons. split.
  - rewrite IH1. destruct H as [(Hp & -> & _)|(Hp & Hf & _)]; tauto.
  - intros Hnil op. rewrite (IH2 Hnil). apply IH1 in Hnil as [Hf _].
    destruct H as [(_ & _ & ->)|(_ & ? & _)]; [|done]. setoid_rewrite elem_of_cons. split.
    + intros [[?| ->]|(iv' & ? & ?)]; [by left|right; exists iv; auto|right; eauto].
    + intros [?|(iv' & [->|?] & <-)]; eauto.
Qed.

(** The store after a qualification: a fresh object with the fields of the adapter and the flag. *)
Definition qualified_store (st : adapter_store) (a copy : nat) : adapter_store := λ b,
  if b =? copy then {| na_name := na_name (st a); na_operations := na_operations (st a); na_parityQualified := VBool true;
                       na_invoke := na_invoke (st a); na_close := na_close (st a) |} else st b.

Lemma qualification_iff st ledger a copy vectors st' ledger' :
  qualifyNativeAdapter invoke st ledger a copy vectors = Ok (st', ledger') ↔
  vectors ≠ [] ∧ (∀ i v, vectors !! i = Some v → passes (i, v)) ∧
  (∃ l, na_operations (st a) = VArr l ∧ ∀ x, x ∈ l → ∃ v, v ∈ vectors ∧ x = VStr (ve_operation v)) ∧
  st' = qualified_store st a copy ∧ ledger' = (if isParityQualified ledger copy then ledger else ledger ++ [copy]).
Proof.
  assert (Hin : ∀ iv, iv ∈ imap pair vectors ↔ vectors !! iv.1 = Some iv.2).
  { intros [i v]. rewrite elem_of_lookup_imap. split; [by intros (i' & v' & [= -> ->] & ?)|by eexists _, _]. }
  assert (Hall : Forall passes (imap pair vectors) ↔ ∀ i v, vectors !! i = Some v → passes (i, v)).
  { rewrite Forall_forall. split; [intros H i v Hi; by apply H, (Hin (i, v))|intros H [i v] Hi; by apply H, (Hin (i, v))]. }
  unfold qualifyNativeAdapter, replay_all. pose proof (replay_fold (imap pair vectors) [] []) as [H1 H2].
  destruct (foldl _ _ _) as [covered failures]. cbn [fst snd] in *. rewrite <- Hall.
  assert (Hunc : ∀ l, filter (λ v, existsb (is_vstr v) covered = false) l = [] ↔
                      ∀ x, x ∈ l → ∃ op, op ∈ covered ∧ x = VStr op).
  { intros l.
    assert (Hx : ∀ x, existsb (is_vstr x) covered = true ↔ ∃ op, op ∈ covered ∧ x = VStr op).
    { intros x. rewrite existsb_exists. apply exist_proper. intros op. rewrite list_elem_of_In. unfold is_vstr.
      destruct x; split; intros [? Hx]; split; try done; [by apply bool_decide_eq_true in Hx as ->|].
      injection Hx as ->. by apply bool_decide_eq_true. }
    setoid_rewrite <- Hx. induction l as [|x l IH]; [split; [by intros _ x ?%not_elem_of_nil|done]|].
    rewrite filter_cons. case_decide as E.
    - split; [done|]. intros H. rewrite H in E by by left. done.
    - rewrite IH. setoid_rewrite elem_of_cons. apply not_false_is_true in E. naive_solver. }
  assert (Hrec : recordParityQualification (qualified_store st a copy) ledger copy =
                 Ok (if isParityQualified ledger copy then ledger else ledger ++ [copy])).
  { unfold recordParityQualification, qualified_store. by rewrite Nat.eqb_refl. }
  fold (qualified_store st a copy). case_bool_decide as Hv; [split; [done|by intros [? _]]|].
  case_bool_decide as Hf; cbn [negb].
  - destruct H1 as [H1 _]. destruct (H1 Hf) as [_ Hp]. specialize (H2 Hf).
    assert (Hcov : ∀ op, op ∈ covered ↔ ∃ iv, iv ∈ imap pair vectors ∧ ve_operation iv.2 = op).
    { intros op. rewrite H2. split; [intros [?%not_elem_of_nil|?]; done|by right]. }
    unfold uncovered. destruct (na_operations (st a)) as [| | | | |l| |]; cbn [rbind];
      try (split; [done|by intros (_ & _ & (? & ? & _) & _)]).
    destruct (length (filter _ l) =? 0) eqn:El; cbn [negb].
    + apply Nat.eqb_eq, length_zero_iff_nil in El. rewrite Hunc in El. rewrite Hrec. cbn [rbind]. split.
      * intros [= <- <-]. split_and!; try done. exists l. split; [done|]. intros x (op & (iv & Hi & <-)%Hcov & ->)%El.
        exists iv.2. split; [by apply Hin, list_elem_of_lookup_2 in Hi|done].
      * by intros (_ & _ & _ & -> & ->).
    + split; [done|]. intros (_ & _ & (l' & [= <-] & Hl) & _). exfalso.
      assert (E : filter (λ v, existsb (is_vstr v) covered = false) l = []).
      { apply Hunc. intros x (v & [i Hi]%list_elem_of_lookup & ->)%Hl. eexists. split; [|done]. apply Hcov. exists (i, v). by rewrite Hin. }
      by rewrite E in El.
  - split; [done|]. intros (_ & Hp & _). destruct Hf. by apply H1.
Qed.
(** C40. Qualification succeeds exactly when there are vectors, the adapter answers every one of them
    with the response the Go core gave, compared as canonical JSON, and every operation the
    adapter claims is the one of some vector; then, and only then, a copy that declares the
    qualification is recorded in the ledger. *)
Theorem qualification_exact st ledger a copy vectors st' ledger' :
  qualifyNativeAdapter invoke st ledger a copy vectors = Ok (st', ledger') ↔
  vectors ≠ [] ∧ (∀ i v, vectors !! i = Some v → passes (i, v)) ∧
  (∃ l, na_operations (st a) = VArr l ∧ ∀ x, x ∈ l → ∃ v, v ∈ vectors ∧ x = VStr (ve_operation v)) ∧
  st' = qualified_store st a copy ∧ ledger' = (if isParityQualified ledger copy then ledger else ledger ++ [copy]).
Proof. apply qualification_iff. Qed.
End qualification.

(** *** The native adapter in the registry *)

Definition native_operation (op : jstr) : Prop := op ∈ GOFORGE_ABI_V1_OPERATIONS.

(** An adapter with the fields of the native one registers, whether it is qualified or not. *)
Lemma native_registers st ledger a q : na_name (st a) = GOFORGE_NATIVE_ADAPTER_NAME →
  na_operations (st a) = VArr (map VStr GOFORGE_ABI_V1_OPERATIONS) → na_invoke (st a) = VFun (js "invoke") →
  na_parityQualified (st a) = VBool q → (q = true → isParityQualified ledger a = true) →
  register st ledger a new_registry = Ok {| nr_adapters := [(GOFORGE_NATIVE_ADAPTER_NAME, a)]; nr_closed := false |}.
Proof.
  intros Hn Ho Hi Hq Hl. unfold register, validateAdapter. cbn [nr_closed new_registry]. rewrite Hn, Ho, Hi, Hq.
  change (negb (matches adapterNamePattern GOFORGE_NATIVE_ADAPTER_NAME)) with false. cbv iota.
  cbn [map GOFORGE_ABI_V1_OPERATIONS rbind].
  match goal with |- context [foldM_res ?f [] ?l] =>
    assert (E : foldM_res f [] l = Ok GOFORGE_ABI_V1_OPERATIONS) by (vm_compute; reflexivity); rewrite E end.
  cbn [rbind]. destruct q; [rewrite Hl by done|]; reflexivity.
Qed.

Lemma native_resolves st ledger a op : na_operations (st a) = VArr (map VStr GOFORGE_ABI_V1_OPERATIONS) → native_operation op →
  resolve st ledger {| nr_adapters := [(GOFORGE_NATIVE_ADAPTER_NAME, a)]; nr_closed := false |} GOFORGE_NATIVE_ADAPTER_NAME op
    [GOFORGE_NATIVE_ADAPTER_NAME] =
  (if negb (truthy (na_parityQualified (st a))) || negb (isParityQualified ledger a)
   then adapter_err (named GOFORGE_NATIVE_ADAPTER_NAME " has not passed shared parity qualification") else Ok a).
Proof.
  intros Ho Hop. unfold resolve. cbn [nr_closed nr_adapters own_get]. rewrite bool_decide_eq_true_2 by done.
  rewrite bool_decide_eq_true_2 by by left. cbn [negb]. rewrite Ho. cbn [operations_include rbind].
  replace (existsb _ _) with true; [done|]. symmetry. apply existsb_exists. exists (VStr op). split.
  - apply in_map, list_elem_of_In, Hop.
  - unfold is_vstr. by apply bool_decide_eq_true.
Qed.

(** The path from the implementation to routing: the native adapter is not routed to as it is
    created, even when it was registered, and once the shared vectors, at least one for each of
    the eight operations, have all been reproduced, its qualified copy registers and is resolved
    for every operation. *)
Theorem native_adapter_routes invoke st ledger a copy vectors op : st a = createNativeGoforgeAdapter None →
  isParityQualified ledger a = false → native_operation op → vectors ≠ [] →
  (∀ i v, vectors !! i = Some v → passes invoke (i, v)) → (∀ o, native_operation o → ∃ v, v ∈ vectors ∧ o = ve_operation v) →
  (∃ r, register st ledger a new_registry = Ok r ∧
    resolve st ledger r GOFORGE_NATIVE_ADAPTER_NAME op [GOFORGE_NATIVE_ADAPTER_NAME]
      = adapter_err (named GOFORGE_NATIVE_ADAPTER_NAME " has not passed shared parity qualification")) ∧
  ∃ st' ledger' r, qualifyNativeAdapter invoke st ledger a copy vectors = Ok (st', ledger') ∧
    register st' ledger' copy new_registry = Ok r ∧
    resolve st' ledger' r GOFORGE_NATIVE_ADAPTER_NAME op [GOFORGE_NATIVE_ADAPTER_NAME] = Ok copy.
Proof.
  intros Ha Hl Hop Hv Hp Hcov. split.
  - eexists. split; [by apply (native_registers _ _ _ false); rewrite ?Ha|].
    rewrite native_resolves by (rewrite ?Ha; done). by rewrite Ha.
  - set (ledger' := if isParityQualified ledger copy then ledger else ledger ++ [copy]).
    assert (Hq : isParityQualified ledger' copy = true).
    { unfold ledger', isParityQualified. apply bool_decide_eq_true. case_bool_decide; [done|]. apply elem_of_app. right. by left. }
    exists (qualified_store st a copy), ledger'. eexists. split_and!.
    + apply qualification_iff. split_and!; try done. eexists. rewrite Ha. split; [done|].
      intros x (o & -> & Ho)%list_elem_of_fmap. destruct (Hcov o Ho) as (v & ? & ->). by exists v.
    + apply (native_registers _ _ _ true); unfold qualified_store; rewrite ?Nat.eqb_refl, ?Ha; done.
    + rewrite native_resolves by (unfold qualified_store; rewrite ?Nat.eqb_refl, ?Ha; done).
      unfold qualified_store at 1. by rewrite Nat.eqb_refl, Hq.
Qed.

(** ** Witnesses *)

Section native_witnesses.
#[local] Existing Instances Rfc4648.base64 Rfc4648.base64_laws Toy.crypto.

Lemma binary_exact_witness : binary (js "AAEC") (js "payload.data") 3 = Ok [0; 1; 2]%N.
Proof. apply (binary_exact rfc4648_length); [repeat constructor|split; [reflexivity|vm_compute; discriminate]]. Defined.

Lemma base64_text_roundtrip_witness :
  base64Encode (VObj [(js "text", VStr [104; 233]%N)]) = Ok (VObj [(js "encoded", VStr (js "aMOp"))]) ∧
  ∃ encoded, VObj [(js "encoded", VStr (js "aMOp"))] = VObj [(js "encoded", VStr encoded)] ∧
    base64Decode (VObj [(js "encoded", VStr encoded)]) = Ok (VObj [(js "text", VStr [104; 233]%N)]).
Proof.
  split; [vm_compute; reflexivity|].
  apply (base64_text_roundtrip rfc4648_length); [repeat constructor|reflexivity|vm_compute; reflexivity].
Defined.

Lemma toy_tag : aes_tag_appended Toy.crypto.
Proof. intros k iv aad plain cipher (-> & _)%Toy.checked_Ok. by rewrite length_app, repeat_length. Qed.

Definition demo_aes : list (jstr * jsval) :=
  [(js "key", VStr (js "AQIDBAUGBwgJCgsMDQ4PEA==")); (js "nonce", VStr (js "AQIDBAUGBwgJCgsM")); (js "aad", VStr []);
   (js "plaintext", VStr (js "aGk="))].
Definition demo_ciphertext : jstr := js "aGkAAAAAAAAAAAAAAAAAAAAA".

Lemma aes_gcm_roundtrip_witness : aesGcmEncrypt (VObj demo_aes) = Ok (VObj [(js "ciphertext", VStr demo_ciphertext)]) ∧
  ∃ ciphertext, VObj [(js "ciphertext", VStr demo_ciphertext)] = VObj [(js "ciphertext", VStr ciphertext)] ∧
    aesGcmDecrypt (VObj [(js "key", js_get demo_aes (js "key")); (js "nonce", js_get demo_aes (js "nonce"));
                         (js "aad", js_get demo_aes (js "aad")); (js "ciphertext", VStr ciphertext)])
    = Ok (VObj [(js "plaintext", js_get demo_aes (js "plaintext"))]).
Proof.
  split; [vm_compute; reflexivity|].
  apply (aes_gcm_roundtrip rfc4648_length Toy.laws toy_tag demo_aes). vm_compute. reflexivity.
Defined.

Definition demo_native_request : AbiRequestV1 :=
  {| rq_id := js "r1"; rq_operation := js "crypto.sha256"; rq_metadata := None; rq_payload := VObj [(js "data", VStr (js "????"))] |}.
Definition demo_context : NativeAdapterContext := {| cx_aborted := false; cx_deadlineUnixMs := None; cx_now := dbl_of_Z 0 |}.

(** Web Crypto refusing a ciphertext. *)
Definition forged : WebCrypto := {|
  CryptoKey := list N; generateKey _ _ _ _ := Ok ([], []); importKey _ bytes _ _ _ := Ok bytes; exportKey _ k := Ok k;
  encrypt _ _ plain := Ok plain; decrypt _ _ _ := Err (plain_Error (js "OperationError")); sign _ _ m := Ok m;
  verify _ _ _ _ := Ok true; digest_sha256 m := Ok m; deriveBits _ _ _ := Ok []; deriveKey _ k := Ok k;
|}.
Definition demo_forged : AbiRequestV1 :=
  {| rq_id := js "r2"; rq_operation := js "crypto.aes-gcm.decrypt"; rq_metadata := None;
     rq_payload := VObj [(js "key", VStr (js "AQIDBAUGBwgJCgsMDQ4PEA==")); (js "nonce", VStr (js "AQIDBAUGBwgJCgsM")); (js "aad", VStr []);
                         (js "ciphertext", VStr demo_ciphertext)] |}.

Lemma dispatch_answers_witness :
  (∃ f, dispatch demo_native_request demo_context = Ok (AbiFailure (js "r1") f) ∧
    ae_code f = js "invalid_base64" ∧ ae_field f = Some (js "payload.data") ∧ response_for (js "r1") (AbiFailure (js "r1") f)) ∧
  execute (WC := forged) (rq_operation demo_forged) (rq_payload demo_forged) =
    Err (XPayload {| pe_code := js "authentication_failed"; pe_field := Some (js "payload.ciphertext") |}).
Proof.
  split.
  - destruct (dispatch_answers demo_native_request demo_context) as [H _].
    assert (E : execute (rq_operation demo_native_request) (rq_payload demo_native_request) =
      Err (XPayload {| pe_code := js "invalid_base64"; pe_field := Some (js "payload.data") |})) by (vm_compute; reflexivity).
    cbv zeta in H. change (refusal demo_context) with (@None PayloadError) in H. cbv iota in H. rewrite E in H.
    replace (assertIdentifier _ _) with (Ok (E := exn) (js "r1")) in H by (vm_compute; reflexivity). exact H.
  - destruct (dispatch_answers (WC := forged) demo_forged demo_context) as [_ H].
    eapply H; [reflexivity|reflexivity|vm_compute; reflexivity|vm_compute; reflexivity|reflexivity].
Defined.

Definition demo_vectors : list GoforgeSharedVector :=
  map (λ op, {| ve_name := op; ve_operation := op; ve_payload := VNull; ve_id := None; ve_response := VObj [(js "ok", VBool true)] |})
    GOFORGE_ABI_V1_OPERATIONS.
Definition echo : answers := λ _ rq, Ok (VObj [(js "id", VStr (rq_id rq)); (js "ok", VBool true)]).
Definition demo_native_store : adapter_store := λ _, createNativeGoforgeAdapter None.

Lemma native_adapter_routes_witness :
  is_ok (qualifyNativeAdapter echo demo_native_store [] 0 1 demo_vectors) = true ∧
  ∃ st' ledger' r, qualifyNativeAdapter echo demo_native_store [] 0 1 demo_vectors = Ok (st', ledger') ∧
    register st' ledger' 1 new_registry = Ok r ∧
    resolve st' ledger' r GOFORGE_NATIVE_ADAPTER_NAME (js "crypto.sha256") [GOFORGE_NATIVE_ADAPTER_NAME] = Ok 1.
Proof.
  split; [vm_compute; reflexivity|].
  apply (native_adapter_routes echo demo_native_store [] 0 1 demo_vectors (js "crypto.sha256"));
    [reflexivity|reflexivity|by apply (bool_decide_eq_true_1 _); vm_compute|discriminate| |].
  - intros i v Hi%list_elem_of_lookup_2%list_elem_of_fmap. destruct Hi as (op & -> & Hop). eexists. split; [reflexivity|].
    reflexivity.
  - intros o Ho. eexists. split; [apply list_elem_of_fmap; by exists o|done].
Defined.

(** ** What the code does not do *)

(** The decoder of [encoding.base64.decode] drops a byte order mark, so a text that begins with one
    does not survive its own encoding. *)
Lemma native_bom_dropped :
  base64Encode (VObj [(js "text", VStr (65279 :: js "a")%N)]) = Ok (VObj [(js "encoded", VStr (js "77u/YQ=="))]) ∧
  base64Decode (VObj [(js "encoded", VStr (js "77u/YQ=="))]) = Ok (VObj [(js "text", VStr (js "a"))]).
Proof. split; vm_compute; reflexivity. Qed.
End native_witnesses.
