(* ===== verification/Jwt.v ===== *)
(** * security/auth and security/middlewares: JWT and cookie authentication

    jwt.ts and cookies.ts under src/security/auth, jwt.ts, cookies.ts, grpc_jwt.ts and context.ts
    under src/security/middlewares.  Web Crypto, the Base64url codec and the cookie parser are
    outside the repository: they are the parameters [Subtle], [Base64Url] and [getCookies].
    The memoised CryptoKey of a strategy is the key it was built with. *)

From S2P Require Export Encoding JsonUnicode.
Local Open Scope nat_scope.

(** What is thrown: the module's own error, the engine's errors, and what a validator, a custom
    strategy or Web Crypto rejects with. *)
Inductive jwt_error := JWTError (message : jstr) | JwtTypeError | JwtSyntaxError | JwtThrown (code : nat).

Notation jwt_result := (res jwt_error).

Class Base64Url := {
  encodeBase64Url : list N → jstr;
  (** [None]: the decoder throws. *)
  decodeBase64Url : jstr → option (list N);
}.

(** Key bytes, then the arguments of [crypto.subtle.sign] and [verify]. *)
Class Subtle := {
  hmac_sign : list N → list N → jwt_result (list N);
  hmac_verify : list N → list N → list N → jwt_result bool;
  rsa_sign : bool → list N → list N → jwt_result (list N);
  rsa_verify : bool → list N → list N → list N → jwt_result bool;
  ed25519_sign : list N → list N → jwt_result (list N);
  ed25519_verify : list N → list N → list N → jwt_result bool;
}.

Record Strategy := {
  st_algorithm : jstr;
  st_sign : list N → jwt_result (list N);
  st_verify : list N → list N → jwt_result bool;
}.

Definition Validator : Type := jsval → jwt_result unit.

Record Service := { sv_strategy : Strategy; sv_validators : list Validator }.

Record Token := { tk_raw : jstr; tk_header : jsval; tk_claims : jsval; tk_signature : list N }.

Record ServiceConfig := {
  sc_algorithm : jstr;
  sc_hmacSecret : option jstr;
  sc_rsaPrivateKey : option jstr;
  sc_rsaPublicKey : option jstr;
  sc_eddsaPrivateKey : option jstr;
  sc_eddsaPublicKey : option jstr;
  sc_sign : option (list N → jwt_result (list N));
  sc_verify : option (list N → list N → jwt_result bool);
  sc_validators : option (list Validator);
}.

(** [if (!key) throw]: an absent or an empty key. *)
Definition present (key : option jstr) : option jstr :=
  match key with Some (c :: s) => Some (c :: s) | _ => None end.

Section jwt.
Context `{B64 : Base64Url} `{Sub : Subtle}.

(** ** jwt.ts *)

Definition bytes (text : jstr) : list N := utf8_encode text.

(** [value.replace(/\+/g, "-").replace(/\//g, "_").replace(/=+$/, "")]. *)
Fixpoint strip_padding (s : jstr) : jstr :=
  match s with c :: s => if (c =? 61)%N then strip_padding s else c :: s | [] => [] end.
Definition toUrl (value : jstr) : jstr :=
  rev (strip_padding (rev (map (λ c, if (c =? 43)%N then 45%N else if (c =? 47)%N then 95%N else c) value))).

Definition decode_or_throw (s : jstr) : jwt_result (list N) :=
  match decodeBase64Url s with Some bs => Ok bs | None => Err JwtTypeError end.

Definition der (base64 : jstr) : jwt_result (list N) := decode_or_throw (toUrl base64).

Definition HMACSHA256Strategy (secret : jstr) : Strategy :=
  {| st_algorithm := js "HS256"; st_sign := hmac_sign (bytes secret);
     st_verify := λ input signature, hmac_verify (bytes secret) signature input |}.

Definition RSAStrategy (pss : bool) (privateKey publicKey : option jstr) : Strategy :=
  {| st_algorithm := if pss then js "PS256" else js "RS256";
     st_sign := λ input, match present privateKey with
                         | None => Err (JWTError (js "jwt: missing RSA private key"))
                         | Some k => let* key := der k in rsa_sign pss key input
                         end;
     st_verify := λ input signature, match present publicKey with
                                     | None => Err (JWTError (js "jwt: missing RSA public key"))
                                     | Some k => let* key := der k in rsa_verify pss key signature input
                                     end |}.

Definition Ed25519Strategy (privateKey publicKey : option jstr) : Strategy :=
  {| st_algorithm := js "EdDSA";
     st_sign := λ input, match present privateKey with
                         | None => Err (JWTError (js "jwt: missing Ed25519 private key"))
                         | Some k => let* key := der k in ed25519_sign key input
                         end;
     st_verify := λ input signature, match present publicKey with
                                     | None => Err (JWTError (js "jwt: missing Ed25519 public key"))
                                     | Some k => let* key := der k in ed25519_verify key signature input
                                     end |}.

Definition CustomStrategy (alg : jstr) (signFn : list N → jwt_result (list N))
    (verifyFn : list N → list N → jwt_result bool) : Strategy :=
  {| st_algorithm := alg; st_sign := signFn; st_verify := verifyFn |}.

Definition createService (config : ServiceConfig) : jwt_result Service :=
  let* strategy :=
    if bool_decide (sc_algorithm config = js "HS256") then
      match present (sc_hmacSecret config) with
      | None => Err (JWTError (js "jwt: HS256 requires an hmacSecret"))
      | Some secret => Ok (HMACSHA256Strategy secret)
      end
    else if bool_decide (sc_algorithm config = js "RS256") then
      Ok (RSAStrategy false (sc_rsaPrivateKey config) (sc_rsaPublicKey config))
    else if bool_decide (sc_algorithm config = js "PS256") then
      Ok (RSAStrategy true (sc_rsaPrivateKey config) (sc_rsaPublicKey config))
    else if bool_decide (sc_algorithm config = js "EdDSA") then
      Ok (Ed25519Strategy (sc_eddsaPrivateKey config) (sc_eddsaPublicKey config))
    else
      match sc_sign config, sc_verify config with
      | Some sign, Some verify => Ok (CustomStrategy (sc_algorithm config) sign verify)
      | _, _ => Err (JWTError (js "jwt: custom algorithm " ++ [34%N] ++ sc_algorithm config ++ [34%N]
                               ++ js " requires sign and verify"))
      end in
  Ok {| sv_strategy := strategy; sv_validators := default [] (sc_validators config) |}.

(** [JSON.stringify] of an object always gives a text. *)
Definition b64 (o : list (jstr * jsval)) : jstr :=
  encodeBase64Url (bytes (default [] (json_stringify (VObj o)))).

Definition decodeJSON (part : jstr) : jwt_result jsval :=
  let* bs := decode_or_throw part in
  match json_parse (utf8_decode bs) with Some v => Ok v | None => Err JwtSyntaxError end.

Definition jwt_header (s : Service) : list (jstr * jsval) :=
  [(js "typ", VStr (js "JWT")); (js "alg", VStr (st_algorithm (sv_strategy s)))].

Definition signing_input (headerPart claimsPart : jstr) : jstr := headerPart ++ [46%N] ++ claimsPart.

Definition service_sign (s : Service) (claims : list (jstr * jsval)) : jwt_result jstr :=
  let input := signing_input (b64 (jwt_header s)) (b64 claims) in
  let* signature := st_sign (sv_strategy s) (bytes input) in
  Ok (input ++ [46%N] ++ encodeBase64Url signature).

(** [header.alg]: undefined on a value that is no object; [null] has no properties. *)
Definition alg_of (header : jsval) : jwt_result jsval :=
  match header with
  | VNull | VUndef => Err JwtTypeError
  | VObj o => Ok (js_get o (js "alg"))
  | _ => Ok VUndef
  end.

Definition is_text (v : jsval) (s : jstr) : bool := match v with VStr t => bool_decide (t = s) | _ => false end.

Definition run_validators (vs : list Validator) (claims : jsval) : jwt_result unit :=
  foldM_res (λ _ validate, validate claims) tt vs.

Definition service_verify (s : Service) (token : jstr) (extra : list Validator) : jwt_result Token :=
  match split_on 46 token with
  | [headerPart; claimsPart; signaturePart] =>
      let* header := decodeJSON headerPart in
      let* alg := alg_of header in
      if negb (is_text alg (st_algorithm (sv_strategy s)))
      then Err (JWTError (js "jwt: algorithm mismatch: " ++ js_String alg))
      else
        let* signature := decode_or_throw signaturePart in
        let* ok := st_verify (sv_strategy s) (bytes (signing_input headerPart claimsPart)) signature in
        if negb ok then Err (JWTError (js "jwt: signature verification failed"))
        else
          let* claims := decodeJSON claimsPart in
          let* _ := run_validators (sv_validators s ++ extra) claims in
          Ok {| tk_raw := token; tk_header := header; tk_claims := claims; tk_signature := signature |}
  | _ => Err (JWTError (js "jwt: malformed token"))
  end.
End jwt.

(** ** cookies.ts and the middlewares *)

Section auth.
Context `{B64 : Base64Url} `{Sub : Subtle} `{CM : CaseMapping}.

(** The error a cookie service adds. *)
Inductive cookie_error := CookieError (message : jstr) | FromJwt (e : jwt_error).

Definition lift_jwt {A} (r : jwt_result A) : res cookie_error A :=
  match r with Ok a => Ok a | Err e => Err (FromJwt e) end.

Record CookieService := { ck_jwt : Service; ck_cookieName : jstr }.

Definition DEFAULT_COOKIE_NAME : jstr := js "access_token".

(** [options.cookieName?.trim() || DEFAULT_COOKIE_NAME]. *)
Definition newCookieService (jwtService : option Service) (cookieName : option jstr) : res cookie_error CookieService :=
  match jwtService with
  | None => Err (CookieError (js "cookies: jwt service is required"))
  | Some s =>
      let name := match cookieName with Some n => trim n | None => [] end in
      Ok {| ck_jwt := s; ck_cookieName := if bool_decide (name = []) then DEFAULT_COOKIE_NAME else name |}
  end.

(** [cookies] is what [getCookies] reads from the request. *)
Definition tokenFromRequest (c : CookieService) (cookies : list (jstr * jstr)) : res cookie_error jstr :=
  match present (own_get (ck_cookieName c) cookies) with
  | Some token => Ok token
  | None => Err (CookieError (js "cookies: auth cookie is required"))
  end.

Definition cookie_decode (c : CookieService) (cookies : list (jstr * jstr)) (vs : list Validator) : res cookie_error Token :=
  let* token := tokenFromRequest c cookies in lift_jwt (service_verify (ck_jwt c) token vs).

Definition cookie_read (c : CookieService) (cookies : list (jstr * jstr)) (vs : list Validator) : res cookie_error jsval :=
  let* token := cookie_decode c cookies vs in Ok (tk_claims token).

Definition validateRequest (c : CookieService) (cookies : list (jstr * jstr)) (vs : list Validator) : res cookie_error unit :=
  let* _ := cookie_decode c cookies vs in Ok tt.

(** [claimsStore], keyed by the identity of a request. *)
Definition claims_store : Type := list (nat * jsval).

Definition setClaims (req : nat) (claims : jsval) (store : claims_store) : claims_store :=
  (req, claims) :: List.filter (λ p, negb (p.1 =? req)) store.
Definition getClaims (req : nat) (store : claims_store) : option jsval := snd <$> find_first (λ p, p.1 =? req) store.

(** How a guard ends: [unauthorized(message)], or the call of [next] with the store then. *)
Inductive guarded := Unauthorized (message : jstr) | Next (store : claims_store).

Definition unauthorized_body (message : jstr) : jstr := default [] (json_stringify (VObj [(js "error", VStr message)])).

Definition cookieMiddleware (c : CookieService) (vs : list Validator) (req : nat) (cookies : list (jstr * jstr))
    (store : claims_store) : guarded :=
  match cookie_read c cookies vs with
  | Ok claims => Next (setClaims req claims store)
  | Err _ => Unauthorized (js "invalid or missing auth cookie")
  end.

(** [raw.split( , 2)] and the checks both bearer guards make. *)
Definition bearer_token (scheme raw : jstr) : option jstr :=
  match take 2 (split_on 32 raw) with
  | [prefix; token] => if bool_decide (token = []) || negb (bool_decide (toLowerCase prefix = scheme)) then None else Some token
  | _ => None
  end.

(** [header] is [req.headers.get(headerName)]. *)
Definition jwtMiddleware (s : Service) (scheme : option jstr) (vs : list Validator) (req : nat) (header : option jstr)
    (store : claims_store) : guarded :=
  match present header with
  | None => Unauthorized (js "authorization header is required")
  | Some raw =>
      match bearer_token (toLowerCase (default (js "Bearer") scheme)) raw with
      | None => Unauthorized (js "invalid authorization scheme")
      | Some token =>
          match service_verify s token vs with
          | Ok verified => Next (setClaims req (tk_claims verified) store)
          | Err _ => Unauthorized (js "invalid or expired token")
          end
      end
  end.

(** [String(ctx.metadata.get(key)[0] ?? empty)] is [raw]; the claims go to the state of the call. *)
Definition grpcJwtInterceptor (s : Service) (scheme : option jstr) (vs : list Validator) (raw : jstr) : guarded + jsval :=
  if bool_decide (raw = []) then inl (Unauthorized (js "authorization metadata is required"))
  else match bearer_token (toLowerCase (default (js "Bearer") scheme)) raw with
  | None => inl (Unauthorized (js "invalid authorization scheme"))
  | Some token =>
      match service_verify s token vs with
      | Ok verified => inr (tk_claims verified)
      | Err _ => inl (Unauthorized (js "invalid or expired token"))
      end
  end.

(** ** What verification accepts *)

Lemma decode_or_throw_Ok s bs : decode_or_throw s = Ok bs ↔ decodeBase64Url s = Some bs.
Proof. unfold decode_or_throw. destruct (decodeBase64Url s); split; congruence. Qed.

Lemma is_text_true v s : is_text v s = true ↔ v = VStr s.
Proof. destruct v; simpl; rewrite ?bool_decide_eq_true; split; congruence. Qed.

Lemma run_validators_Ok vs claims : run_validators vs claims = Ok tt ↔ Forall (λ v, v claims = Ok tt) vs.
Proof.
  unfold run_validators. induction vs as [|v vs IH]; simpl; [split; [constructor|done]|].
  rewrite Forall_cons, <- IH. destruct (v claims) as [[]|e]; simpl; [|naive_solver]. tauto.
Qed.

Lemma split_on_three c s x y z : split_on c s = [x; y; z] ↔ s = x ++ [c] ++ y ++ [c] ++ z ∧ c ∉ x ∧ c ∉ y ∧ c ∉ z.
Proof.
  split.
  - intros E. pose proof (join_split_on c s) as Hj. pose proof (split_on_no_sep c s) as Hn. rewrite E in Hj, Hn.
    simpl in Hj. rewrite !Forall_cons in Hn. destruct Hn as (? & ? & ? & _). split; [|done]. by rewrite <- Hj.
  - intros (-> & Hx & Hy & Hz). simpl. rewrite split_on_app, split_on_app, split_on_plain by done. done.
Qed.

(** C29. A token is accepted exactly when it has three parts, its header names the service's
    algorithm, the strategy verifies the signature over the two parts as they were sent, the
    claims are JSON and every validator, of the service and of the call, accepts them. *)
Theorem service_verify_exact s token extra t : service_verify s token extra = Ok t ↔
  ∃ headerPart claimsPart signaturePart,
    token = headerPart ++ [46%N] ++ claimsPart ++ [46%N] ++ signaturePart ∧
    46%N ∉ headerPart ∧ 46%N ∉ claimsPart ∧ 46%N ∉ signaturePart ∧
    decodeJSON headerPart = Ok (tk_header t) ∧
    alg_of (tk_header t) = Ok (VStr (st_algorithm (sv_strategy s))) ∧
    decodeBase64Url signaturePart = Some (tk_signature t) ∧
    st_verify (sv_strategy s) (bytes (headerPart ++ [46%N] ++ claimsPart)) (tk_signature t) = Ok true ∧
    decodeJSON claimsPart = Ok (tk_claims t) ∧
    Forall (λ v, v (tk_claims t) = Ok tt) (sv_validators s ++ extra) ∧ tk_raw t = token.
Proof.
  unfold service_verify. split.
  - destruct (split_on 46 token) as [|h [|c [|g [|]]]] eqn:E; try done. apply split_on_three in E as (-> & Hh & Hc & Hg).
    destruct (decodeJSON h) as [header|] eqn:Eh; [|done]. cbn [rbind]. destruct (alg_of header) as [alg|] eqn:Ea; [|done].
    cbn [rbind]. destruct (is_text alg _) eqn:Et; [|done]. apply is_text_true in Et as ->. cbn [negb].
    destruct (decode_or_throw g) as [sg|] eqn:Eg; [|done]. apply decode_or_throw_Ok in Eg. cbn [rbind].
    destruct (st_verify _ _ sg) as [[]|] eqn:Ev; try done. cbn [rbind negb].
    destruct (decodeJSON c) as [claims|] eqn:Ec; [|done]. cbn [rbind].
    destruct (run_validators _ claims) as [[]|] eqn:Er; [|done]. apply run_validators_Ok in Er. cbn [rbind].
    intros [= <-]. exists h, c, g. by split_and!.
  - intros (h & c & g & -> & Hh & Hc & Hg & Eh & Ea & Eg & Ev & Ec & Er & Ht).
    rewrite (proj2 (split_on_three 46 _ h c g)) by done. rewrite Eh. cbn [rbind]. rewrite Ea. cbn [rbind].
    rewrite (proj2 (is_text_true _ _) eq_refl). cbn [negb]. rewrite (proj2 (decode_or_throw_Ok _ _) Eg). cbn [rbind].
    unfold signing_input. rewrite Ev. cbn [rbind negb]. rewrite Ec. cbn [rbind]. rewrite (proj2 (run_validators_Ok _ _) Er).
    cbn [rbind]. destruct t; simpl in *. by subst.
Qed.

(** ** Signing and verifying *)

(** What the codec promises: decoding inverts encoding, and an encoding has no dot. *)
Class Base64UrlLaws := {
  url_decode_encode bs : Forall (λ b, b < 256)%N bs → decodeBase64Url (encodeBase64Url bs) = Some bs;
  url_no_dot bs : Forall (λ b, b < 256)%N bs → 46%N ∉ encodeBase64Url bs;
}.
Context `{Laws : Base64UrlLaws}.

Lemma object_text o : ∃ r, json_stringify (VObj o) = Some (123%N :: r).
Proof. simpl. eauto. Qed.

Lemma b64_ok o : json_data (VObj o) → 46%N ∉ b64 o ∧ decodeJSON (b64 o) = Ok (VObj o).
Proof.
  intros Hd. destruct (object_text o) as [r E]. unfold b64, decodeJSON, decode_or_throw, bytes. rewrite E. simpl default.
  pose proof (stringify_wf _ (json_data_units _ Hd) _ E) as Hw. pose proof (utf8_encode_bytes _ Hw) as Hb.
  split; [by apply url_no_dot|]. rewrite url_decode_encode by done. cbn [rbind].
  by rewrite (json_utf8_roundtrip _ _ Hd E).
Qed.

Lemma jwt_header_data s : code_units (st_algorithm (sv_strategy s)) → json_data (VObj (jwt_header s)).
Proof.
  intros Hu. split; [reflexivity|]. simpl. split_and!; try done; try (apply code_unitsb; reflexivity).
Qed.

(** What a service signs it verifies: for claims that are JSON data, a strategy that accepts its
    own signatures, and validators that accept the claims, [verify] of [sign] returns the claims. *)
Theorem sign_verify s claims extra signature :
  json_data (VObj claims) → code_units (st_algorithm (sv_strategy s)) →
  (let input := bytes (signing_input (b64 (jwt_header s)) (b64 claims)) in
   st_sign (sv_strategy s) input = Ok signature ∧ Forall (λ b, b < 256)%N signature ∧
   st_verify (sv_strategy s) input signature = Ok true) →
  Forall (λ v, v (VObj claims) = Ok tt) (sv_validators s ++ extra) →
  ∃ token, service_sign s claims = Ok token ∧
    service_verify s token extra = Ok {| tk_raw := token; tk_header := VObj (jwt_header s); tk_claims := VObj claims;
                                         tk_signature := signature |}.
Proof.
  intros Hd Hu (Hs & Hb & Hv) Hval. unfold service_sign. rewrite Hs. cbn [rbind]. eexists. split; [done|].
  destruct (b64_ok _ (jwt_header_data s Hu)) as [Hh1 Hh2]. destruct (b64_ok _ Hd) as [Hc1 Hc2].
  apply service_verify_exact. exists (b64 (jwt_header s)), (b64 claims), (encodeBase64Url signature). simpl.
  split_and!; try done.
  - unfold signing_input. by rewrite <- !app_assoc.
  - by apply url_no_dot.
  - by apply url_decode_encode.
Qed.

(** ** Guards *)

Lemma getClaims_set req claims store : getClaims req (setClaims req claims store) = Some claims.
Proof. unfold getClaims, setClaims. simpl. by rewrite Nat.eqb_refl. Qed.

Lemma jwt_passes s scheme vs req header store store' : jwtMiddleware s scheme vs req header store = Next store' →
  ∃ prefix token rest t, header = Some (join [32%N] (prefix :: token :: rest)) ∧
    toLowerCase prefix = toLowerCase (default (js "Bearer") scheme) ∧
    service_verify s token vs = Ok t ∧ getClaims req store' = Some (tk_claims t).
Proof.
  unfold jwtMiddleware. destruct header as [[|x raw]|]; try done. cbn [present]. unfold bearer_token.
  destruct (split_on 32 (x :: raw)) as [|prefix [|token rest]] eqn:E; try done.
  change (take 2 (prefix :: token :: rest)) with [prefix; token]. cbn match.
  destruct (bool_decide (token = []) || _) eqn:Ec; [done|]. bool_inv.
  destruct (service_verify s token vs) as [t|] eqn:Ev; [|done]. intros [= <-].
  exists prefix, token, rest, t. split_and!; try done; [|apply getClaims_set].
  by rewrite <- E, join_split_on.
Qed.

(** A request gets past a guard only with a verified token, and its handler reads exactly the
    verified claims; a request that is refused leaves the store alone. *)
Theorem guards_verify s c scheme vs req header cookies store store' :
  (jwtMiddleware s scheme vs req header store = Next store' →
     ∃ prefix token rest t, header = Some (join [32%N] (prefix :: token :: rest)) ∧
       toLowerCase prefix = toLowerCase (default (js "Bearer") scheme) ∧
       service_verify s token vs = Ok t ∧ getClaims req store' = Some (tk_claims t)) ∧
  (cookieMiddleware c vs req cookies store = Next store' →
     ∃ token t, own_get (ck_cookieName c) cookies = Some token ∧
       service_verify (ck_jwt c) token vs = Ok t ∧ getClaims req store' = Some (tk_claims t)).
Proof.
  split; [apply jwt_passes|].
  unfold cookieMiddleware, cookie_read, cookie_decode, tokenFromRequest.
  destruct (own_get _ cookies) as [[|x token]|]; try done. cbn [present rbind].
  destruct (service_verify _ _ vs) as [t|] eqn:Ev; [|done]. cbn [lift_jwt rbind]. intros [= <-].
  exists (x :: token), t. split_and!; try done. apply getClaims_set.
Qed.
End auth.

(** ** A concrete service *)

Module HexUrl.
#[export] Instance codec : Base64Url := {| encodeBase64Url := flat_map (hex_byte false); decodeBase64Url := hex_decode |}.

#[export] Instance codec_laws : Base64UrlLaws.
Proof.
  split; intros bs Hb; [by apply hex_decode_encode|]. simpl; induction Hb as [|b bs Hb _ IH].
  - by apply not_elem_of_nil.
  - destruct (hex_byte_value false b Hb) as (H1 & H2 & _). simpl. rewrite !not_elem_of_cons.
    split_and!; [intros E; by rewrite <- E in H1|intros E; by rewrite <- E in H2|exact IH].
Qed.
End HexUrl.
#[local] Existing Instances HexUrl.codec HexUrl.codec_laws.

(** A strategy whose signature is the first four bytes. *)
Definition demo_strategy : Strategy :=
  CustomStrategy (js "T4") (λ input, Ok (take 4 input)) (λ input sg, Ok (bool_decide (sg = take 4 input))).
Definition demo_service : Service := {| sv_strategy := demo_strategy; sv_validators := [λ _, Ok tt] |}.
Definition demo_claims : list (jstr * jsval) := [(js "sub", VStr (js "ana")); (js "admin", VBool true)].

Lemma sign_verify_witness : ∃ token, service_sign demo_service demo_claims = Ok token ∧
  ∃ t, service_verify demo_service token [] = Ok t ∧ tk_claims t = VObj demo_claims.
Proof.
  destruct (sign_verify demo_service demo_claims [] (js "7b22")) as (token & H1 & H2).
  - apply json_datab_correct. reflexivity.
  - apply code_unitsb. reflexivity.
  - split_and!; try (vm_compute; reflexivity). by repeat constructor.
  - by repeat constructor.
  - exists token. split; [exact H1|]. eexists. split; [exact H2|reflexivity].
Defined.
