(* ===== verification/Http.v ===== *)
(** * HTTP: messages, middleware and the router

    config/server/http/server.ts, security/middlewares/headers.ts and the guards of
    security/middlewares as middleware.  A handler is an operation on the state of the process: the
    stores keyed by request, and whatever the application keeps.  URLs and URL patterns are the
    platform's and are parameters; a listener of [Deno.serve] is the handler it was given. *)

From S2P Require Export Effect Trace Jwt.
Local Open Scope nat_scope.

(** ** Messages *)

(** What a handler throws: the [TypeError] of the platform, or any other value. *)
Inductive http_error := HttpTypeError (message : jstr) | HttpThrown (message : jstr).

(** A header list has one combined value per name, in lower case. *)
Notation header_list := (list (jstr * jstr)).

Definition is_http_space (c : N) : bool := (c =? 9)%N || (c =? 10)%N || (c =? 13)%N || (c =? 32)%N.
Fixpoint strip_space (s : jstr) : jstr := match s with c :: t => if is_http_space c then strip_space t else s | [] => [] end.
Definition normalize_value (v : jstr) : jstr := rev (strip_space (rev (strip_space v))).
Definition token_char (c : N) : bool := is_alnum c || bool_decide (c ∈ [33; 35; 36; 37; 38; 39; 42; 43; 45; 46; 94; 95; 96; 124; 126]%N).
Definition valid_name (name : jstr) : bool := negb (bool_decide (name = [])) && forallb token_char name.
Definition valid_value (v : jstr) : bool := forallb (λ c, (c <? 256)%N && negb ((c =? 0)%N || (c =? 10)%N || (c =? 13)%N)) v.

Definition header_key (name : jstr) : jstr := map ascii_lower name.

(** [headers.get(name)], [headers.set(name, value)]. *)
Definition headers_get (name : jstr) (h : header_list) : option jstr := own_get (header_key name) h.
Definition headers_set (name value : jstr) (h : header_list) : res http_error header_list :=
  let value := normalize_value value in
  if valid_name name && valid_value value then Ok (obj_set (header_key name) value h)
  else Err (HttpTypeError (js "Invalid header")).

Record HttpRequest := { hr_id : nat; hr_method : jstr; hr_url : jstr; hr_headers : header_list }.
(** The headers of a response from [Response.redirect] or [fetch] are immutable. *)
Record HttpResponse := { rs_status : Z; rs_statusText : jstr; rs_headers : header_list; rs_body : option jstr; rs_immutable : bool }.

Definition json_response (status : Z) (body : jstr) : HttpResponse :=
  {| rs_status := status; rs_statusText := []; rs_headers := [(js "content-type", js "application/json")]; rs_body := Some body; rs_immutable := false |}.

(** [JSON.stringify({ name: text })]. *)
Definition json_member (name text : string) : jstr := default [] (json_stringify (VObj [(js name, VStr (js text))])).

(** [unauthorized(message)] (security/middlewares/context.ts). *)
Definition unauthorized (message : jstr) : HttpResponse := json_response 401 (unauthorized_body message).

(** ** Handlers and middleware *)

Section handlers.
Context {S : Type}.

Definition Handler : Type := HttpRequest → eff http_error S HttpResponse.
Definition Middleware : Type := Handler → Handler.

(** [middleware.reduceRight((next, mw) => mw(next), handler)]. *)
Definition wrap (middleware : list Middleware) (handler : Handler) : Handler := foldr (λ mw next, mw next) handler middleware.
End handlers.
Arguments Handler : clear implicits.
Arguments Middleware : clear implicits.

(** ** security/middlewares/headers.ts *)

Definition DEFAULT_HEADERS : header_list :=
  [(js "X-Content-Type-Options", js "nosniff"); (js "X-Frame-Options", js "DENY"); (js "Referrer-Policy", js "no-referrer");
   (js "Strict-Transport-Security", js "max-age=31536000; includeSubDomains"); (js "X-XSS-Protection", js "0")].

(** [{ ...DEFAULT_HEADERS, ...headers }]. *)
Definition merged_headers (headers : option header_list) : header_list :=
  foldl (λ o p, obj_set p.1 p.2 o) DEFAULT_HEADERS (default [] headers).

Definition set_all (entries : header_list) (h : header_list) : res http_error header_list :=
  foldM_res (λ h p, headers_set p.1 p.2 h) h entries.

Definition securityHeaders {S} (headers : option header_list) : Middleware S := λ next req,
  eff* res := next req in
  eff* h := elift (set_all (merged_headers headers) (rs_headers res)) in
  eret {| rs_status := rs_status res; rs_statusText := rs_statusText res; rs_headers := h; rs_body := rs_body res; rs_immutable := false |}.

(** ** server.ts *)

(** [a.replace(/\/+$/, "")]. *)
Fixpoint strip_slashes (s : jstr) : jstr := match s with c :: t => if (c =? 47)%N then strip_slashes t else s | [] => [] end.
Definition strip_trailing (s : jstr) : jstr := rev (strip_slashes (rev s)).
Definition slashed (b : jstr) : jstr := if startsWith b (js "/") then b else 47%N :: b.
Definition joinPath (a b : jstr) : jstr :=
  match strip_trailing a ++ slashed b with [] => js "/" | path => path end.

Inductive Method := GET | POST | PUT | PATCH | DELETE | OPTIONS | HEAD.
Definition method_name (m : Method) : jstr :=
  js match m with GET => "GET" | POST => "POST" | PUT => "PUT" | PATCH => "PATCH" | DELETE => "DELETE" | OPTIONS => "OPTIONS" | HEAD => "HEAD" end.

(** [new URLPattern({ pathname })] is accepted, and [pattern.test(url)]. *)
Class UrlPattern := { pattern_ok : jstr → bool; pattern_test : jstr → jstr → bool }.

Section server.
Context {S : Type} `{UP : UrlPattern}.
(** [setHttpRoute(activeSpan(), method, path)]: it annotates the ambient span. *)
Context (setHttpRoute : jstr → jstr → S → S).

Record Route := { ro_method : Method; ro_path : jstr; ro_handler : Handler S }.

(** The arrays of middleware, by reference. *)
Notation arrays := (list (list (Middleware S))).

(** [sv_listening] is the middleware that the root handler of the listener was composed from. *)
Record HttpServer := {
  srv_routes : list Route; srv_global : nat; srv_port : Z; srv_hostname : jstr; srv_healthPath : jstr;
  srv_listening : option (list (Middleware S));
}.

Record HttpServerOptions := {
  so_port : option Z; so_hostname : option jstr; so_healthPath : option jstr; so_healthHandler : option (Handler S); so_middleware : option nat;
}.

Definition health_handler : Handler S := λ _, eret (json_response 200 (json_member "status" "ok")).

(** [handle]: the route with its handler wrapped; the constructor of the pattern may throw. *)
Definition server_handle (method : Method) (path : jstr) (handler : Handler S) (middleware : list (Middleware S)) (s : HttpServer) : res http_error HttpServer :=
  let wrapped := wrap middleware handler in
  if pattern_ok path then
    Ok {| srv_routes := srv_routes s ++ [{| ro_method := method; ro_path := path; ro_handler := wrapped |}]; srv_global := srv_global s;
          srv_port := srv_port s; srv_hostname := srv_hostname s; srv_healthPath := srv_healthPath s; srv_listening := srv_listening s |}
  else Err (HttpTypeError (js "Invalid pattern")).

(** The constructor: the array of the options is kept, not copied. *)
Definition newHttpServer (o : HttpServerOptions) (heap : arrays) : res http_error (HttpServer * arrays) :=
  let '(global, heap) := match so_middleware o with Some a => (a, heap) | None => (length heap, heap ++ [[]]) end in
  let s := {| srv_routes := []; srv_global := global; srv_port := default 8080%Z (so_port o); srv_hostname := default (js "0.0.0.0") (so_hostname o);
              srv_healthPath := default (js "/health") (so_healthPath o); srv_listening := None |} in
  let* s := if bool_decide (srv_healthPath s = []) then Ok s
            else server_handle GET (srv_healthPath s) (default health_handler (so_healthHandler o)) [] s in
  Ok (s, heap).

(** [use]: the middleware is pushed on the array. *)
Definition server_use (middleware : list (Middleware S)) (s : HttpServer) (heap : arrays) : arrays :=
  alter (λ a, a ++ middleware) (srv_global s) heap.

(** [#route]: the first route of the method whose pattern matches. *)
Fixpoint route (routes : list Route) (req : HttpRequest) : eff http_error S HttpResponse :=
  match routes with
  | [] => eret (json_response 404 (json_member "error" "not found"))
  | r :: routes =>
      if negb (bool_decide (method_name (ro_method r) = hr_method req)) then route routes req
      else if pattern_test (ro_path r) (hr_url req) then
        eff* _ := emodify (setHttpRoute (hr_method req) (ro_path r)) in ro_handler r req
      else route routes req
  end.

(** [handler()]: the middleware is read when it is called, the routes at each request. *)
Definition root_handler (global : list (Middleware S)) (routes : list Route) : Handler S := wrap global (route routes).
Definition server_handler (s : HttpServer) (heap : arrays) : Handler S := root_handler (default [] (heap !! srv_global s)) (srv_routes s).

Definition server_listen (s : HttpServer) (heap : arrays) : HttpServer :=
  {| srv_routes := srv_routes s; srv_global := srv_global s; srv_port := srv_port s; srv_hostname := srv_hostname s; srv_healthPath := srv_healthPath s;
     srv_listening := Some (default [] (heap !! srv_global s)) |}.

(** What the listener answers; [shutdown] stops it once its requests are answered. *)
Definition serve (s : HttpServer) : option (Handler S) := (λ global, root_handler global (srv_routes s)) <$> srv_listening s.
Definition server_shutdown (s : HttpServer) : HttpServer :=
  {| srv_routes := srv_routes s; srv_global := srv_global s; srv_port := srv_port s; srv_hostname := srv_hostname s; srv_healthPath := srv_healthPath s;
     srv_listening := None |}.

(** [get], [post], [put], [patch], [delete]. *)
Definition server_get := server_handle GET.
Definition server_post := server_handle POST.
Definition server_put := server_handle PUT.
Definition server_patch := server_handle PATCH.
Definition server_delete := server_handle DELETE.

(** ** Route groups *)

Record RouteGroup := { gr_prefix : jstr; gr_middleware : list (Middleware S) }.

Definition server_group (prefix : jstr) (middleware : list (Middleware S)) : RouteGroup := {| gr_prefix := prefix; gr_middleware := middleware |}.
Definition group_group (prefix : jstr) (middleware : list (Middleware S)) (g : RouteGroup) : RouteGroup :=
  {| gr_prefix := joinPath (gr_prefix g) prefix; gr_middleware := gr_middleware g ++ middleware |}.
Definition group_handle (g : RouteGroup) (method : Method) (path : jstr) (handler : Handler S) (middleware : list (Middleware S)) : HttpServer → res http_error HttpServer :=
  server_handle method (joinPath (gr_prefix g) path) handler (gr_middleware g ++ middleware).

Definition group_get g := group_handle g GET.
Definition group_post g := group_handle g POST.
Definition group_put g := group_handle g PUT.
Definition group_patch g := group_handle g PATCH.
Definition group_delete g := group_handle g DELETE.
End server.
Arguments Route : clear implicits.
Arguments HttpServer : clear implicits.
Arguments HttpServerOptions : clear implicits.
Arguments RouteGroup : clear implicits.

(** ** The stores of the process and the guards as middleware *)

(** [claimsStore] and [contextStore] of security/middlewares/context.ts, and what the application
    keeps. *)
Record process_state (C U : Type) := { ps_claims : claims_store; ps_contexts : list (nat * C); ps_user : U }.
Arguments ps_claims {C U}. Arguments ps_contexts {C U}. Arguments ps_user {C U}.

Section stores.
Context {C U : Type}.

Definition setRequestContext (req : nat) (context : C) (s : process_state C U) : process_state C U :=
  {| ps_claims := ps_claims s; ps_contexts := (req, context) :: List.filter (λ p, negb (p.1 =? req)) (ps_contexts s); ps_user := ps_user s |}.
Definition getRequestContext (req : nat) (s : process_state C U) : option C := snd <$> find_first (λ p, p.1 =? req) (ps_contexts s).

Definition with_claims (claims : claims_store) (s : process_state C U) : process_state C U :=
  {| ps_claims := claims; ps_contexts := ps_contexts s; ps_user := ps_user s |}.

(** A guard answers, or stores the claims and calls [next]. *)
Definition guard_middleware (guard : HttpRequest → claims_store → guarded) : Middleware (process_state C U) := λ next req,
  eff* outcome := eread (λ s, guard req (ps_claims s)) in
  match outcome with
  | Unauthorized message => eret (unauthorized message)
  | Next claims => eff* _ := emodify (with_claims claims) in next req
  end.

Context `{B64 : Base64Url} `{Sub : Subtle} `{CM : CaseMapping}.

Definition jwt_guard (s : Service) (scheme : option jstr) (vs : list Validator) (headerName : option jstr) : Middleware (process_state C U) :=
  guard_middleware (λ req, jwtMiddleware s scheme vs (hr_id req) (headers_get (default (js "authorization") headerName) (hr_headers req))).
End stores.

(** * Properties *)

(** ** The order of middleware *)

Lemma wrap_app {S} (a b : list (Middleware S)) (h : Handler S) : wrap (a ++ b) h = wrap a (wrap b h).
Proof. unfold wrap. by rewrite foldr_app. Qed.

(** Middleware that does something before the handler it wraps and something after it returns. *)
Definition layer {S} (enter leave : S → S) : Middleware S := λ next req,
  eff* _ := emodify enter in eff* res := next req in eff* _ := emodify leave in eret res.

(** Middleware is applied outermost first: around a handler that returns, the layers are
    entered in the order of the list and left in the opposite order; when the handler throws, none
    is left. *)
Theorem wrap_order {S} (layers : list ((S → S) * (S → S))) (h : Handler S) req s :
  wrap (map (λ l, layer l.1 l.2) layers) h req s =
    let (r, s') := h req (foldl (λ s l, l.1 s) s layers) in
    (r, match r with Ok _ => foldr (λ l s, l.2 s) s' layers | Err _ => s' end).
Proof.
  revert s; induction layers as [|[enter leave] layers IH]; intros s; simpl.
  - by destruct (h req s) as [[?|?] ?].
  - unfold layer at 1, ebind, emodify. cbn. fold (wrap (map (λ l, layer l.1 l.2) layers) h). rewrite IH. by destruct (h req _) as [[?|?] ?].
Qed.

(** ** Headers *)

(** The value that the last entry of a name gives it. *)
Definition last_value (entries : header_list) (key : jstr) : option jstr :=
  foldl (λ o p, if bool_decide (header_key p.1 = key) then Some (normalize_value p.2) else o) None entries.

Lemma last_value_from entries key o :
  foldl (λ o p, if bool_decide (header_key p.1 = key) then Some (normalize_value p.2) else o) o entries =
    match last_value entries key with Some v => Some v | None => o end.
Proof.
  unfold last_value. revert o. induction entries as [|p entries IH]; intros o; simpl; [done|].
  case_bool_decide; rewrite (IH o) || rewrite !(IH (Some _)); by destruct (foldl _ None entries).
Qed.

Lemma set_all_get entries : ∀ h h' key, set_all entries h = Ok h' →
  own_get key h' = match last_value entries key with Some v => Some v | None => own_get key h end.
Proof.
  induction entries as [|p entries IH]; intros h h' key; simpl; [by intros [= <-]|].
  intros (h1 & H1 & H2)%rbind_Ok. rewrite (IH _ _ key H2). unfold last_value at 2. simpl. rewrite last_value_from.
  destruct (last_value entries key); [done|]. unfold headers_set in H1. destruct (_ && _); [|done]. injection H1 as <-.
  case_bool_decide as E; [subst; apply own_get_set_eq|]. by apply own_get_set_ne.
Qed.

Lemma default_headers_accepted h : ∃ h', set_all DEFAULT_HEADERS h = Ok h'.
Proof. eexists. unfold set_all, DEFAULT_HEADERS. cbn [foldM_res fst snd]. unfold headers_set. cbn [rbind]. reflexivity. Qed.

(** Security headers: whatever the handler answers leaves with each header of the options or
    the defaults set to the last value given for its name in any case, and its other headers,
    status and body as they were; the defaults alone never turn an answer into an error. *)
Theorem security_headers_set {S} headers (next : Handler S) req s :
  (∀ res' s', securityHeaders headers next req s = (Ok res', s') →
     ∃ res, next req s = (Ok res, s') ∧ rs_status res' = rs_status res ∧ rs_body res' = rs_body res ∧ rs_statusText res' = rs_statusText res ∧
       ∀ name, headers_get name (rs_headers res') =
         match last_value (merged_headers headers) (header_key name) with Some v => Some v | None => headers_get name (rs_headers res) end) ∧
  (headers = None → ∀ res s', next req s = (Ok res, s') → ∃ res', securityHeaders headers next req s = (Ok res', s') ∧
     Forall (λ p, headers_get p.1 (rs_headers res') = Some p.2) DEFAULT_HEADERS).
Proof.
  split.
  - intros res' s' (res & s1 & Hn & (h & s2 & [Hh ->]%elift_Ok & [= <- <-])%ebind_Ok)%ebind_Ok. exists res.
    split_and!; try done. intros name. by apply set_all_get.
  - intros -> res s' Hn. destruct (default_headers_accepted (rs_headers res)) as [h Hh].
    eexists. split; [unfold securityHeaders, ebind, elift; change (merged_headers None) with DEFAULT_HEADERS; rewrite Hn, Hh; reflexivity|].
    cbn [rs_headers]. unfold headers_get. repeat constructor; cbn [fst snd]; rewrite (set_all_get _ _ _ _ Hh); vm_compute; reflexivity.
Qed.

(** ** Paths *)

Lemma strip_slashes_app s t : strip_slashes (s ++ t) = match strip_slashes s with [] => strip_slashes t | r => r ++ t end.
Proof. induction s as [|c s IH]; simpl; [by destruct (strip_slashes t)|]. by destruct (c =? 47)%N. Qed.

Lemma strip_trailing_app s t : strip_trailing (s ++ t) = match strip_trailing t with [] => strip_trailing s | r => s ++ r end.
Proof.
  unfold strip_trailing. rewrite rev_app_distr, strip_slashes_app. destruct (strip_slashes (rev t)) as [|c r] eqn:E; [done|].
  rewrite rev_app_distr, rev_involutive. cbn [rev]. by destruct (rev r).
Qed.

Lemma strip_trailing_idem s : strip_trailing (strip_trailing s) = strip_trailing s.
Proof.
  unfold strip_trailing. rewrite rev_involutive. f_equal. induction (rev s) as [|c t IH]; simpl; [done|].
  destruct (c =? 47)%N eqn:E; [done|]. simpl. by rewrite E.
Qed.

Lemma slashed_cons c b : slashed (c :: b) = if (c =? 47)%N then c :: b else 47%N :: c :: b.
Proof.
  unfold slashed. destruct (c =? 47)%N eqn:E.
  - apply N.eqb_eq in E as ->. change (47%N :: b) with (js "/" ++ b). by rewrite startsWith_app.
  - destruct (startsWith (c :: b) (js "/")) eqn:Es; [|done]. apply startsWith_prefix in Es as [r Er]. injection Er as -> _. done.
Qed.

Lemma slashed_nil : slashed [] = [47%N].
Proof. done. Qed.

Lemma slashed_ne b : slashed b ≠ [].
Proof. destruct b as [|c b]; [done|]. rewrite slashed_cons. by destruct (c =? 47)%N. Qed.

Lemma joinPath_eq a b : joinPath a b = strip_trailing a ++ slashed b.
Proof.
  unfold joinPath. destruct (strip_trailing a ++ slashed b) eqn:E; [|done]. apply app_eq_nil in E as [_ E]. by apply slashed_ne in E.
Qed.

Lemma slashed_app b t : slashed (slashed b ++ t) = slashed b ++ t.
Proof.
  destruct b as [|c b]; [rewrite slashed_nil; cbn [app]; by rewrite slashed_cons|].
  rewrite slashed_cons. destruct (c =? 47)%N eqn:E; cbn [app]; rewrite slashed_cons; [by rewrite E|done].
Qed.

Lemma strip_trailing_head c b d r : strip_trailing (c :: b) = d :: r → d = c.
Proof.
  change (c :: b) with ([c] ++ b). rewrite strip_trailing_app. destruct (strip_trailing b); [|cbn; congruence].
  unfold strip_trailing. cbn [rev app strip_slashes]. destruct (c =? 47)%N; cbn; congruence.
Qed.

Lemma strip_slashed b : strip_trailing (slashed b) = match strip_trailing b with [] => [] | r => slashed r end.
Proof.
  destruct b as [|c b]; [done|]. rewrite slashed_cons. destruct (strip_trailing (c :: b)) as [|d r] eqn:Es.
  - destruct (c =? 47)%N; [done|]. change (47%N :: c :: b) with ([47%N] ++ c :: b). by rewrite strip_trailing_app, Es.
  - pose proof (strip_trailing_head _ _ _ _ Es) as ->. rewrite slashed_cons. destruct (c =? 47)%N; [done|].
    change (47%N :: c :: b) with ([47%N] ++ c :: b). by rewrite strip_trailing_app, Es.
Qed.

(** Joining paths is associative, whatever slashes they have. *)
Lemma joinPath_assoc a b c : joinPath (joinPath a b) c = joinPath a (joinPath b c).
Proof.
  rewrite !joinPath_eq, strip_trailing_app, strip_slashed. destruct (strip_trailing b) as [|d r] eqn:Eb.
  - rewrite strip_trailing_idem. f_equal. cbn [app]. rewrite <- (app_nil_r (slashed c)) at 2. by rewrite slashed_app, app_nil_r.
  - destruct (slashed (d :: r)) as [|x y] eqn:Es; [by apply slashed_ne in Es|].
    rewrite <- (assoc_L (++)). f_equal. rewrite <- Es. cbn [app]. rewrite !slashed_cons. by destruct (d =? 47)%N.
Qed.

(** ** Routing *)

Section routing.
Context {S : Type} `{UP : UrlPattern} (setHttpRoute : jstr → jstr → S → S).
Notation dispatch := (route setHttpRoute).

Definition route_matches (req : HttpRequest) (r : Route S) : bool :=
  bool_decide (method_name (ro_method r) = hr_method req) && pattern_test (ro_path r) (hr_url req).

Lemma route_spec routes req s : dispatch routes req s =
  match find_first (route_matches req) routes with
  | Some r => ro_handler r req (setHttpRoute (hr_method req) (ro_path r) s)
  | None => (Ok (json_response 404 (json_member "error" "not found")), s)
  end.
Proof.
  induction routes as [|r routes IH]; [done|]. cbn [route find_first]. unfold route_matches at 1.
  case_bool_decide; cbn [negb andb]; [|exact IH]. destruct (pattern_test _ _); [done|exact IH].
Qed.

Lemma find_first_app {A} (P : A → bool) l k : find_first P (l ++ k) = match find_first P l with Some x => Some x | None => find_first P k end.
Proof. induction l as [|x l IH]; simpl; [done|]. by destruct (P x). Qed.

Lemma server_handle_Ok m path h mws (srv srv' : HttpServer S) : server_handle m path h mws srv = Ok srv' →
  srv_routes srv' = srv_routes srv ++ [{| ro_method := m; ro_path := path; ro_handler := wrap mws h |}] ∧
  srv_listening srv' = srv_listening srv ∧ srv_global srv' = srv_global srv.
Proof. unfold server_handle. destruct (pattern_ok path); [|done]. by intros [= <-]. Qed.

(** Dispatch: a request is answered by the first route registered for its method whose pattern
    matches, wrapped in that route's middleware outermost first, and with 404 when there is none; a
    route registered later, also while the server listens, never takes a request from an earlier
    one and gets those that no earlier route matches. *)
Theorem dispatch_first (m : Method) path (h : Handler S) mws (srv srv' : HttpServer S) req s :
  server_handle m path h mws srv = Ok srv' →
  dispatch (srv_routes srv') req s =
    match find_first (route_matches req) (srv_routes srv) with
    | Some r => dispatch (srv_routes srv) req s
    | None => if bool_decide (method_name m = hr_method req) && pattern_test path (hr_url req)
              then wrap mws h req (setHttpRoute (hr_method req) path s)
              else (Ok (json_response 404 (json_member "error" "not found")), s)
    end.
Proof.
  intros (Er & _ & _)%server_handle_Ok. rewrite Er, !route_spec, find_first_app. destruct (find_first _ (srv_routes srv)); [done|].
  cbn [find_first]. unfold route_matches. cbn [ro_method ro_path]. by destruct (_ && _).
Qed.

(** A group and the groups nested in it. *)
Definition nested (g : RouteGroup S) (inner : list (jstr * list (Middleware S))) : RouteGroup S :=
  foldl (λ g p, group_group p.1 p.2 g) g inner.

(** Groups are flat: a route registered through nested groups is the route registered on the
    server under the joined path, with the middleware of the groups, from the outer to the inner
    one, before its own. *)
Theorem groups_flatten g inner (m : Method) path (h : Handler S) mws (srv : HttpServer S) :
  group_handle (nested g inner) m path h mws srv =
    server_handle m (joinPath (gr_prefix g) (foldr joinPath path (map fst inner))) h (gr_middleware g ++ concat (map snd inner) ++ mws) srv.
Proof.
  unfold nested. revert g. induction inner as [|[p ms] inner IH]; intros g; [done|]. cbn [foldl map concat foldr fst snd]. rewrite IH.
  unfold group_group. cbn [gr_prefix gr_middleware]. by rewrite joinPath_assoc, <- !(assoc_L (++)).
Qed.

(** Middleware added while the server listens is not applied: the listener keeps the chain it was
    started with. *)
Lemma use_after_listen mws (srv : HttpServer S) heap : 
  serve setHttpRoute (server_listen srv (server_use mws srv heap)) = Some (server_handler setHttpRoute srv (server_use mws srv heap)) ∧
  serve setHttpRoute (server_listen srv heap) = Some (server_handler setHttpRoute srv heap).
Proof. done. Qed.

(** Two servers made with the same array of middleware share what either adds to it. *)
Lemma shared_array (o o' : HttpServerOptions S) a heap mws s1 s2 heap1 heap2 : so_middleware o = Some a → so_middleware o' = Some a →
  newHttpServer o heap = Ok (s1, heap1) → newHttpServer o' heap1 = Ok (s2, heap2) → 
  server_handler setHttpRoute s2 (server_use mws s1 heap2) = root_handler setHttpRoute (default [] ((λ l, l ++ mws) <$> heap !! a)) (srv_routes s2).
Proof.
  intros E1 E2 H1 H2. unfold newHttpServer in H1, H2. rewrite E1 in H1. rewrite E2 in H2.
  apply rbind_Ok in H1 as (s & Hs & [= <- <-]). apply rbind_Ok in H2 as (s' & Hs' & [= <- <-]).
  assert (∀ (t t' : HttpServer S) p g, (if bool_decide (p = []) then Ok t else server_handle GET p g [] t) = Ok t' → srv_global t' = srv_global t) as HG.
  { clear Hs Hs'. intros t t' p g. destruct (bool_decide (p = [])); [by intros [= <-]|]. by intros (_ & _ & ->)%server_handle_Ok. }
  apply HG in Hs as G1. apply HG in Hs' as G2. cbn in G1, G2.
  unfold server_handler, server_use. rewrite G1, G2, list_lookup_alter, decide_True by done. done.
Qed.
End routing.

Section protected.
Context {C U : Type} `{UP : UrlPattern} `{B64 : Base64Url} `{Sub : Subtle} `{CM : CaseMapping}.
Context (setHttpRoute : jstr → jstr → process_state C U → process_state C U).

Lemma guard_runs sv scheme vs hn (next : Handler (process_state C U)) req s :
  jwt_guard sv scheme vs hn next req s =
    match jwtMiddleware sv scheme vs (hr_id req) (headers_get (default (js "authorization") hn) (hr_headers req)) (ps_claims s) with
    | Unauthorized message => (Ok (unauthorized message), s)
    | Next claims => next req (with_claims claims s)
    end.
Proof. unfold jwt_guard, guard_middleware, ebind, eread. by destruct (jwtMiddleware _ _ _ _ _ _). Qed.

(** C30. A protected route: when the router picks a route of a group whose first middleware is the
    JWT guard, either it answers 401 and nothing but the span has changed, or the request carries a
    token that the service verifies, and the rest of the route runs with exactly the claims of that
    token stored for the request. *)
Theorem protected_route sv scheme vs hn prefix rest m path (h : Handler (process_state C U)) mws srv srv' req s :
  group_handle (server_group prefix (jwt_guard sv scheme vs hn :: rest)) m path h mws srv = Ok srv' →
  find_first (route_matches req) (srv_routes srv) = None →
  bool_decide (method_name m = hr_method req) && pattern_test (joinPath prefix path) (hr_url req) = true →
  let s1 := setHttpRoute (hr_method req) (joinPath prefix path) s in
  (∃ message, route setHttpRoute (srv_routes srv') req s = (Ok (unauthorized message), s1)) ∨
  (∃ scheme' token rest' t claims,
     headers_get (default (js "authorization") hn) (hr_headers req) = Some (join [32%N] (scheme' :: token :: rest')) ∧
     service_verify sv token vs = Ok t ∧ getClaims (hr_id req) claims = Some (tk_claims t) ∧
     route setHttpRoute (srv_routes srv') req s = wrap (rest ++ mws) h req (with_claims claims s1)).
Proof.
  intros (Er & _ & _)%server_handle_Ok Hf Hm s1. unfold server_group in Er. cbn [gr_prefix gr_middleware] in Er.
  rewrite Er, route_spec, find_first_app, Hf. cbn [find_first]. unfold route_matches. cbn [ro_method ro_path ro_handler]. rewrite Hm.
  cbn [ro_path ro_handler]. fold s1.
  change (wrap ((jwt_guard sv scheme vs hn :: rest) ++ mws) h) with (jwt_guard (C:=C) (U:=U) sv scheme vs hn (wrap (rest ++ mws) h)).
  rewrite guard_runs. destruct (jwtMiddleware _ _ _ _ _ _) as [message|claims] eqn:Eg; [left; by exists message|].
  right. apply jwt_passes in Eg as (scheme' & token & rest' & t & ? & _ & ? & ?). by exists scheme', token, rest', t, claims.
Qed.
End protected.

(** ** Examples *)

(** Patterns without wildcards, matched against the end of the URL. *)
Definition toy_patterns : UrlPattern := {| pattern_ok _ := true; pattern_test p url := endsWith url p |}.

#[local] Existing Instances toy_patterns HexUrl.codec ascii_case.

Definition toy_state : process_state unit nat := {| ps_claims := []; ps_contexts := []; ps_user := 0 |}.
Definition toy_server : HttpServer (process_state unit nat) :=
  {| srv_routes := []; srv_global := 0; srv_port := 8080; srv_hostname := js "0.0.0.0"; srv_healthPath := []; srv_listening := None |}.
Definition toy_handler : Handler (process_state unit nat) := λ _, eret (json_response 200 (js "hi")).
Definition toy_token : jstr := match service_sign demo_service demo_claims with Ok t => t | Err _ => [] end.
Definition toy_request : HttpRequest :=
  {| hr_id := 7; hr_method := js "GET"; hr_url := js "http://h/api/v1/me"; hr_headers := [(js "authorization", js "Bearer " ++ toy_token)] |}.
Definition toy_guard : Middleware (process_state unit nat) := jwt_guard demo_service None [] None.
Definition count_route (method path : jstr) (s : process_state unit nat) : process_state unit nat :=
  {| ps_claims := ps_claims s; ps_contexts := ps_contexts s; ps_user := S (ps_user s) |}.
Definition toy_served : HttpServer (process_state unit nat) :=
  match group_handle (server_group (js "/api/") [toy_guard]) GET (js "v1/me") toy_handler [] toy_server with Ok s => s | Err _ => toy_server end.

Lemma wrap_order_witness :
  wrap (map (λ l, layer l.1 l.2) [(cons 1, cons 10); (cons 2, cons 20)]) (λ _, eff* _ := emodify (cons 5) in eret (json_response 200 [])) toy_request [] =
    (Ok (json_response 200 []), [10; 20; 5; 2; 1]).
Proof. exact (wrap_order [(cons 1, cons 10); (cons 2, cons 20)] (λ _, eff* _ := emodify (cons 5) in eret (json_response 200 [])) toy_request []). Defined.

Lemma dispatch_first_witness :
  server_handle GET (js "/me") toy_handler [] toy_server = Ok (match server_handle GET (js "/me") toy_handler [] toy_server with Ok s => s | Err _ => toy_server end) ∧
  route count_route (srv_routes (match server_handle GET (js "/me") toy_handler [] toy_server with Ok s => s | Err _ => toy_server end)) toy_request toy_state
    = (Ok (json_response 200 (js "hi")), count_route [] [] toy_state).
Proof.
  split; [reflexivity|]. etransitivity; [apply (dispatch_first count_route GET (js "/me") toy_handler [] toy_server _ toy_request toy_state); reflexivity|vm_compute; reflexivity].
Defined.

Lemma protected_route_witness :
  (route count_route (srv_routes toy_served) toy_request toy_state).1 = Ok (json_response 200 (js "hi")) ∧
  ∃ token t claims, service_verify demo_service token [] = Ok t ∧ getClaims 7 claims = Some (tk_claims t) ∧
    route count_route (srv_routes toy_served) toy_request toy_state = toy_handler toy_request (with_claims claims (count_route [] [] toy_state)).
Proof.
  assert ((route count_route (srv_routes toy_served) toy_request toy_state).1 = Ok (json_response 200 (js "hi"))) as E by (vm_compute; reflexivity).
  split; [exact E|].
  destruct (protected_route count_route demo_service None [] None (js "/api/") [] GET (js "v1/me") toy_handler [] toy_server toy_served toy_request toy_state)
    as [(message & E')|(scheme & token & rest & t & claims & _ & Ev & Ec & Er)]; [reflexivity|reflexivity|vm_compute; reflexivity| |].
  - rewrite E' in E. injection E as E. discriminate E.
  - exists token, t, claims. split_and!; [exact Ev|exact Ec|exact Er].
Defined.
