(* ===== verification/Formatter.v ===== *)
(** * logger/formatter and logger/common: rendering of log entries

    An entry is the list of its own properties: after the sanitizer any of them may hold any value.
    A [Headers] object is one without own properties.  [String(v)] of an object is that of an object
    literal, and objects have no [toJSON] method.  A date is the list of its local fields. *)

From S2P Require Export JsDate JsonText.
Local Open Scope nat_scope.

Notation props := (list (jstr * jsval)).

(** What formatting throws. *)
Inductive fmt_error := TypeErr | TemplateErr (message : jstr).
Notation fmt A := (res fmt_error A).

(** [a ?? b]. *)
Definition nullish (a b : jsval) : jsval := match a with VUndef | VNull => b | _ => a end.
Definition is_null (a : jsval) : bool := match a with VUndef | VNull => true | _ => false end.

(** [v.k] of a value that is not null, for names that only plain objects have. *)
Definition item_get (v : jsval) (k : string) : jsval := match v with VObj o => js_get o (js k) | _ => VUndef end.

(** [Object.entries(v)] of a value that is not null. *)
Definition entries_of (v : jsval) : props :=
  let indexed l := imap (λ i v, (nat_to_string (N.of_nat i), v)) l in
  match v with
  | VObj o => o
  | VArr l => indexed l
  | VStr s => indexed (map (λ c, VStr [c]) s)
  | _ => []
  end.
Definition has_keys (v : jsval) : bool := negb (bool_decide (entries_of v = [])).

(** ** logger/common/enums.ts *)

Inductive LogLevel := Debug | Info | Warn | Error.

Definition level_value (l : LogLevel) : Z := match l with Debug => -4 | Info => 0 | Warn => 4 | Error => 8 end.

Definition levelName (l : LogLevel) : jstr :=
  js match l with Debug => "DEBUG" | Warn => "WARN" | Error => "ERROR" | Info => "INFO" end.

Definition parseLevel `{CaseMapping} (value : jstr) : LogLevel :=
  let v := toLowerCase (trim value) in
  if bool_decide (v = js "debug") then Debug
  else if bool_decide (v = js "warn") || bool_decide (v = js "warning") then Warn
  else if bool_decide (v = js "error") then Error
  else Info.

(** ** logger/formatter/latency.ts *)

(** [Math.round]: halves go up. *)
Definition num_round (d : dbl) : dbl :=
  match d with
  | S754_finite s m e =>
      if (0 <=? e)%Z then d
      else
        let z := ((2 * (if s then Zneg m else Zpos m) + 2 ^ (- e)) / 2 ^ (1 - e))%Z in
        if (z =? 0)%Z then S754_zero s else dbl_of_Z z
  | _ => d
  end.

Definition normalizeLatency (value : jsval) : dbl :=
  match value with
  | VNum d => if negb (isFinite d) || num_leb d (dbl_of_Z 0) then dbl_of_Z 0 else num_round d
  | _ => dbl_of_Z 0
  end.

Definition normalizeProcessLatency (item : jsval) : jsval :=
  match item with
  | VObj o =>
      match own_get (js "latency") o with
      | Some v => VObj (obj_set (js "latency") (VNum (normalizeLatency v)) o)
      | None => item
      end
  | _ => item
  end.

(** ** Entries *)

(** [v ?? []] where [map] is called on it. *)
Definition mapped (v : jsval) : fmt (list jsval) :=
  match v with VUndef | VNull => Ok [] | VArr l => Ok l | _ => Err TypeErr end.

Definition normalizeLog (log : props) : fmt props :=
  let* items := mapped (js_get log (js "process")) in
  Ok (obj_set (js "process") (VArr (map normalizeProcessLatency items))
        (obj_set (js "latency") (VNum (normalizeLatency (js_get log (js "latency")))) log)).

Definition toJSON (v : jsval) : jstr :=
  if is_null v then [] else match json_stringify v with Some s => s | None => js_String v end.

Definition textValue (v : jsval) : jstr :=
  if is_null v then [] else match v with VStr s => s | _ => toJSON v end.

(** [Object.keys(obj).sort()] into a new object. *)
Definition sortKeys (obj : props) : props :=
  of_entries (map (λ k, (k, default VUndef (own_get k obj))) (sort_strings (keys obj))).

Definition DETAIL_SLOTS : list jstr :=
  map js ["system"; "client"; "protocol"; "method"; "path"; "headers"; "request"; "response"]%string.

Definition detailExtras (d : jsval) : props :=
  List.filter (λ p, negb (bool_decide (p.1 ∈ DETAIL_SLOTS))) (entries_of d).

(** [if (c) out[k] = v]. *)
Definition put (c : jsval → bool) (k : string) (d : jsval) (out : props) : props :=
  if c (item_get d k) then obj_set (js k) (item_get d k) out else out.
Definition put_truthy : string → jsval → props → props := put truthy.
Definition put_present : string → jsval → props → props := put (λ v, negb (is_null v)).

Definition marshalDetails (d : jsval) : props :=
  let out := [(js "system", nullish (item_get d "system") (VStr []))] in
  let out := put_truthy "client" d out in
  let out := put_truthy "protocol" d out in
  let out := put_truthy "method" d out in
  let out := put_truthy "path" d out in
  let out := put (λ v, truthy v && has_keys v) "headers" d out in
  let out := put_present "request" d out in
  let out := put_present "response" d out in
  foldl (λ out p, obj_set p.1 p.2 out) out (detailExtras d).

Definition marshalProcess (s : jsval) : fmt jsval :=
  if is_null s then Err TypeErr
  else
    let out := put_truthy "traceID" s [] in
    let out := put_truthy "spanID" s out in
    let out := obj_set (js "system") (nullish (item_get s "system") (VStr [])) out in
    let out := obj_set (js "process") (nullish (item_get s "process") (VStr [])) out in
    let out := put_truthy "server" s out in
    let out := put_present "headers" s out in
    let out := put_truthy "protocol" s out in
    let out := put_truthy "method" s out in
    let out := put_truthy "code" s out in
    let out := put_truthy "path" s out in
    let out := put_present "request" s out in
    let out := put_present "response" s out in
    let out := obj_set (js "status") (nullish (item_get s "status") (VStr [])) out in
    Ok (VObj (obj_set (js "latency") (VNum (normalizeLatency (item_get s "latency"))) out)).

(** The object [marshalEntry] prints; [log.process] is an array on every entry it is given. *)
Definition marshal_object (log : props) : fmt props :=
  let get k := js_get log (js k) in
  let process := match get "process" with VArr l => l | _ => [] end in
  let* rows := mapM_res marshalProcess process in
  Ok ([(js "level", nullish (get "level") (VStr []));
       (js "timestamp", nullish (get "timestamp") (VStr []));
       (js "traceID", nullish (get "traceID") (VStr []))]
      ++ (if truthy (get "spanID") then [(js "spanID", get "spanID")] else [])
      ++ [(js "message", nullish (get "message") (VStr []));
          (js "details", VObj (marshalDetails (nullish (get "details") (VObj [(js "system", VStr [])]))))]
      ++ (if bool_decide (process = []) then [] else [(js "process", VArr rows)])
      ++ [(js "method", nullish (get "method") (VStr []));
          (js "line", nullish (get "line") (VNum (dbl_of_Z 0)));
          (js "latency", VNum (normalizeLatency (get "latency")))]).

Definition marshalEntry (log : props) : fmt jstr :=
  let* o := marshal_object log in Ok (default [] (json_stringify (VObj o))).

Definition buildDetails (d : jsval) : props := sortKeys (marshalDetails d).

Definition service_row (s : jsval) : fmt jsval :=
  if is_null s then Err TypeErr
  else
    let latency := normalizeLatency (item_get s "latency") in
    let out := put_truthy "traceID" s [] in
    let out := put_truthy "spanID" s out in
    let out := put_truthy "system" s out in
    let out := put_truthy "process" s out in
    let out := put_truthy "server" s out in
    let out := put_truthy "protocol" s out in
    let out := put_truthy "method" s out in
    let out := put_truthy "path" s out in
    let out := put_truthy "code" s out in
    let out := put_present "request" s out in
    let out := put_present "response" s out in
    let out := put_truthy "status" s out in
    let out := if num_ltb (dbl_of_Z 0) latency then obj_set (js "latency") (VNum latency) out else out in
    Ok (VObj (sortKeys out)).

Definition buildServices (items : jsval) : fmt (list jsval) :=
  let* items := mapped items in mapM_res service_row items.

(** ** The text layout *)

(** [label=value] when the field is shown. *)
Definition shown (c : jsval → bool) (print : jsval → jstr) (k : string) (s : jsval) : list jstr :=
  if c (item_get s k) then [js k ++ js "=" ++ print (item_get s k)] else [].
Definition as_text : string → jsval → list jstr := shown truthy js_String.
Definition as_json : string → jsval → list jstr := shown (λ v, negb (is_null v)) toJSON.

Definition details_fields (d : jsval) : list jstr :=
  as_text "system" d ++ as_text "client" d ++ as_text "protocol" d ++ as_text "method" d ++ as_text "path" d
  ++ shown (λ v, truthy v && has_keys v) toJSON "headers" d ++ as_json "request" d ++ as_json "response" d
  ++ map (λ p, p.1 ++ js "=" ++ textValue p.2) (detailExtras d).

Definition has_details (d : jsval) : bool :=
  existsb (λ k, truthy (item_get d k)) ["system"; "client"; "protocol"; "method"; "path"]%string
  || (truthy (item_get d "headers") && has_keys (item_get d "headers"))
  || negb (is_null (item_get d "request")) || negb (is_null (item_get d "response"))
  || negb (bool_decide (detailExtras d = [])).

Definition process_text (s : jsval) : fmt jstr :=
  if is_null s then Err TypeErr
  else
    Ok (js "{" ++ join (js ", ")
      (as_text "traceID" s ++ as_text "spanID" s ++ as_text "system" s ++ as_text "process" s ++ as_text "server" s
       ++ as_text "protocol" s ++ as_text "method" s ++ as_text "path" s ++ as_text "code" s
       ++ as_json "request" s ++ as_json "response" s ++ as_text "status" s
       ++ shown truthy (λ v, js_String v ++ js "ms") "latency" s) ++ js "}").

Definition formatText (log : props) : fmt jstr :=
  let* log := normalizeLog log in
  let text k := js_String (js_get log (js k)) in
  let out := js "[" ++ text "timestamp"%string ++ js "] [" ++ text "level"%string ++ js "] [" ++ text "traceID"%string ++ js "] "
             ++ text "method"%string ++ js ":" ++ text "line"%string ++ js " - " ++ text "message"%string in
  let out := match js_get log (js "latency") with
             | VNum l => if num_ltb (dbl_of_Z 0) l then out ++ js " latency=" ++ num_to_string l ++ js "ms" else out
             | _ => out
             end in
  let d := nullish (js_get log (js "details")) (VObj [(js "system", VStr [])]) in
  let out := if has_details d then out ++ js " | details={" ++ join (js ", ") (details_fields d) ++ js "}" else out in
  match js_get log (js "process") with
  | VArr (s :: services) =>
      let* rendered := mapM_res process_text (s :: services) in
      Ok (out ++ js " | process=[" ++ join (js ", ") rendered ++ js "]")
  | _ => Ok out
  end.

Definition formatJSON (log : props) : fmt jstr := let* log := normalizeLog log in marshalEntry log.

(** ** Templates *)

(** A value of a template: the entry itself, any value, or [Object(v)] of a primitive. *)
Inductive tval := TLog | TVal (v : jsval) | TWrap (v : jsval).

Definition ROOT_ALIASES : list (jstr * jstr) := [(js "Process", js "process")].

Definition KNOWN_ZERO : props :=
  map (λ p, (js p.1, p.2))
    [("Timestamp", VStr []); ("TraceID", VStr []); ("Level", VStr []); ("Message", VStr []); ("Method", VStr []);
     ("Line", VNum (dbl_of_Z 0)); ("Latency", VNum (dbl_of_Z 0)); ("Details", VObj []); ("Process", VArr []);
     ("System", VStr []); ("Client", VStr []); ("Protocol", VStr []); ("Path", VStr []); ("Headers", VUndef);
     ("Request", VUndef); ("Response", VUndef); ("SpanID", VStr []); ("Server", VStr []); ("Code", VNum (dbl_of_Z 0));
     ("Status", VStr [])]%string.

Definition array_prototype : list jstr :=
  map js ["at"; "concat"; "copyWithin"; "fill"; "find"; "findIndex"; "findLast"; "findLastIndex"; "lastIndexOf"; "pop";
          "push"; "reverse"; "shift"; "unshift"; "slice"; "sort"; "splice"; "includes"; "indexOf"; "join"; "keys";
          "entries"; "values"; "forEach"; "filter"; "flat"; "flatMap"; "map"; "every"; "some"; "reduce"; "reduceRight";
          "toReversed"; "toSorted"; "toSpliced"; "with"]%string.

(** [record[k]] when [k in record], for an object or array. *)
Definition inherited (class : string) (k : jstr) : option jsval :=
  if bool_decide (k ∈ object_prototype)
  then Some (VFun (if bool_decide (k = js "constructor") then js class else k)) else None.

Definition record_get (record : jsval) (k : jstr) : option jsval :=
  match record with
  | VObj o => match own_get k o with Some v => Some v | None => inherited "Object" k end
  | VArr l =>
      match array_index k with
      | Some n => nth_error l (N.to_nat n)
      | None =>
          if bool_decide (k = js "length") then Some (VNum (dbl_of_Z (Z.of_nat (length l))))
          else if bool_decide (k ∈ array_prototype) then Some (VFun k) else inherited "Array" k
      end
  | _ => None
  end.

Section template.
Context `{CM : CaseMapping}.
Context (log : props).

Fixpoint resolve_segments (root : bool) (current : jsval) (segments : list jstr) : fmt jsval :=
  match segments with
  | [] => Ok current
  | segment :: rest =>
      match current with
      | VObj _ | VArr _ =>
          let lower := toLowerCase (take 1 segment) ++ drop 1 segment in
          match record_get current segment with
          | Some v => resolve_segments false v rest
          | None =>
              match record_get current lower with
              | Some v => resolve_segments false v rest
              | None =>
                  match (if root then own_get segment ROOT_ALIASES else None) with
                  | Some alias => resolve_segments false (default VUndef (record_get current alias)) rest
                  | None =>
                      match own_get segment KNOWN_ZERO with
                      | Some v => resolve_segments false v rest
                      | None => Err (TemplateErr (js "template: can't evaluate field " ++ segment))
                      end
                  end
              end
          end
      | _ => Err (TemplateErr (js "template: can't evaluate field " ++ segment ++ js " in non-object value"))
      end
  end.

Definition resolveField (path : jstr) : fmt tval :=
  if bool_decide (path = js ".") then Ok TLog
  else let* v := resolve_segments true (VObj log) (split_on 46 (drop 1 path)) in Ok (TVal v).

(** The loop of [tokenize]. *)
Fixpoint tokenize_loop (action rest : jstr) (depth : nat) (current : jstr) (tokens : list jstr) : fmt (list jstr) :=
  let unbalanced := Err (TemplateErr (js "template: unbalanced parenthesis in " ++ json_quote action)) in
  let flushed := if bool_decide (current = []) then tokens else tokens ++ [current] in
  match rest with
  | [] => if negb (depth =? 0) then unbalanced else Ok flushed
  | c :: rest =>
      if (c =? 41)%N && (depth =? 0) then unbalanced
      else
        let depth := if (c =? 40)%N then S depth else if (c =? 41)%N then pred depth else depth in
        if (c =? 32)%N && (depth =? 0) then tokenize_loop action rest depth [] flushed
        else tokenize_loop action rest depth (current ++ [c]) tokens
  end.
Definition tokenize (action : jstr) : fmt (list jstr) := tokenize_loop action action 0 [] [].

Definition tval_json (v : tval) : jstr :=
  match v with TLog => toJSON (VObj log) | TVal v => toJSON v | TWrap v => toJSON v end.
Definition tval_value (v : tval) : jsval := match v with TLog => VObj log | TVal v | TWrap v => v end.

(** [TEMPLATE_FUNCS[head]]: the table is an object literal, so the names of [Object.prototype] are
    functions too.  They are called without a receiver: [toString] and [Object] do not need one. *)
Definition template_func (head : jstr) : option (tval → fmt tval) :=
  if bool_decide (head = js "json") then
    Some (λ v, match v with
               | TLog => let* s := marshalEntry log in Ok (TVal (VStr s))
               | _ => Ok (TVal (VStr (tval_json v)))
               end)
  else if bool_decide (head = js "buildDetails") then
    Some (λ v, Ok (TVal (VObj (buildDetails (nullish (tval_value v) (VObj [(js "system", VStr [])]))))))
  else if bool_decide (head = js "buildServices") then
    Some (λ v, let* rows := buildServices (tval_value v) in Ok (TVal (VArr rows)))
  else if bool_decide (head = js "toString") then Some (λ _, Ok (TVal (VStr (js "[object Undefined]"))))
  else if bool_decide (head = js "constructor") then
    Some (λ v, match v with
               | TVal (VUndef | VNull) => Ok (TVal (VObj []))
               | TVal ((VBool _ | VNum _ | VStr _) as p) => Ok (TWrap p)
               | _ => Ok v
               end)
  else if bool_decide (head = js "isPrototypeOf") then
    Some (λ v, match v with
               | TVal (VUndef | VNull | VBool _ | VNum _ | VStr _) => Ok (TVal (VBool false))
               | _ => Err TypeErr
               end)
  else if bool_decide (head ∈ object_prototype) then Some (λ _, Err TypeErr)
  else None.

(** [evalTokens] and [evalArg]; [fuel] bounds the nesting of parentheses. *)
Fixpoint evalTokens (fuel : nat) (tokens : list jstr) : fmt tval :=
  match fuel with
  | O => Err TypeErr
  | S fuel =>
      match tokens with
      | [] => Err TypeErr
      | head :: args =>
          if startsWith head (js ".") then
            if bool_decide (args = []) then resolveField head
            else Err (TemplateErr (js "template: unexpected arguments after " ++ head))
          else
            match template_func head with
            | None => Err (TemplateErr (js "template: function " ++ json_quote head ++ js " not defined"))
            | Some fn =>
                match args with
                | [arg] =>
                    let* v :=
                      (if startsWith arg (js "(") && endsWith arg (js ")")
                       then let* inner := tokenize (trim (slice arg 1 (length arg - 1))) in evalTokens fuel inner
                       else if startsWith arg (js ".") then resolveField arg
                       else Err (TemplateErr (js "template: unexpected argument " ++ json_quote arg))) in
                    fn v
                | _ => Err (TemplateErr (js "template: " ++ head ++ js " expects exactly one argument"))
                end
            end
      end
  end.

Definition evalAction (action : jstr) : fmt tval :=
  let* tokens := tokenize action in
  if bool_decide (tokens = []) then Err (TemplateErr (js "template: empty action"))
  else evalTokens (S (length action)) tokens.

Definition stringifyResult (value : tval) : jstr :=
  match value with
  | TVal (VUndef | VNull) => []
  | TVal (VStr s) => s
  | TVal ((VBool _ | VNum _ | VFun _) as v) => js_String v
  | _ => tval_json value
  end.

(** The text before and after the first pair of [c]. *)
Fixpoint cut_pair (c : N) (s : jstr) : option (jstr * jstr) :=
  match s with
  | a :: ((b :: r) as t) =>
      if (a =? c)%N && (b =? c)%N then Some ([], r)
      else match cut_pair c t with Some (before, after) => Some (a :: before, after) | None => None end
  | _ => None
  end.

(** The loop of [renderTemplate] on what is left of the template. *)
Fixpoint render_loop (fuel : nat) (whole tpl out : jstr) : fmt jstr :=
  match fuel with
  | O => Ok out
  | S fuel =>
      match tpl with
      | [] => Ok out
      | _ =>
          match cut_pair 123 tpl with
          | None => Ok (out ++ tpl)
          | Some (text, rest) =>
              match cut_pair 125 rest with
              | None => Err (TemplateErr (js "template: unclosed action in " ++ json_quote whole))
              | Some (action, rest) =>
                  let* v := evalAction (trim action) in
                  render_loop fuel whole rest (out ++ text ++ stringifyResult v)
              end
          end
      end
  end.
Definition renderTemplate (tpl : jstr) : fmt jstr := render_loop (length tpl) tpl tpl [].

Definition coerceEntry (parsed : props) : props :=
  let get k := js_get parsed (js k) in
  let string_or k := (js k, match get k with VStr s => VStr s | _ => VStr [] end) in
  [string_or "level"; string_or "timestamp"; string_or "traceID"]%string
  ++ match get "spanID" with VStr (_ :: _ as s) => [(js "spanID", VStr s)] | _ => [] end
  ++ [string_or "message"%string;
      (js "details", match get "details" with VObj o => VObj o | _ => VObj [(js "system", VStr [])] end);
      (js "process", match get "process" with VArr l => VArr l | _ => VArr [] end);
      string_or "method"%string;
      (js "line", match get "line" with VNum d => VNum d | _ => VNum (dbl_of_Z 0) end);
      (js "latency", VNum (normalizeLatency (get "latency")))].

Definition executeTemplate (tpl : jstr) : fmt jstr :=
  let* text := renderTemplate tpl in
  let rendered := trim text in
  match json_parse rendered with
  | Some (VObj parsed) => match marshalEntry (coerceEntry parsed) with Ok s => Ok s | Err _ => Ok rendered end
  | _ => Ok rendered
  end.
End template.

Definition formatTemplate `{CaseMapping} (template : jstr) (log : props) : fmt jstr :=
  let* log := normalizeLog log in executeTemplate log template.

(** [format] of the formatter with this template. *)
Definition format `{CaseMapping} (template : jstr) (log : props) : fmt jstr :=
  let name := toLowerCase (trim template) in
  if bool_decide (name = js "json") then formatJSON log
  else if bool_decide (name = js "text") || bool_decide (name = js "txt") || bool_decide (name = []) then formatText log
  else formatTemplate template log.

(** ** Timestamps *)

(** The local fields of a date; [dt_offset] is [getTimezoneOffset()]. *)
Record date := {
  dt_year : Z; dt_month : Z; dt_date : Z; dt_day : Z;
  dt_hours : Z; dt_minutes : Z; dt_seconds : Z; dt_millis : Z; dt_offset : Z;
}.

Definition MONTHS_SHORT : list jstr :=
  map js ["Jan"; "Feb"; "Mar"; "Apr"; "May"; "Jun"; "Jul"; "Aug"; "Sep"; "Oct"; "Nov"; "Dec"]%string.
Definition MONTHS_LONG : list jstr :=
  map js ["January"; "February"; "March"; "April"; "May"; "June"; "July"; "August"; "September"; "October"; "November";
          "December"]%string.
Definition DAYS_SHORT : list jstr := map js ["Sun"; "Mon"; "Tue"; "Wed"; "Thu"; "Fri"; "Sat"]%string.
Definition DAYS_LONG : list jstr :=
  map js ["Sunday"; "Monday"; "Tuesday"; "Wednesday"; "Thursday"; "Friday"; "Saturday"]%string.

Definition pad (value : Z) (width : nat) : jstr :=
  let s := int_to_string value in replicate (width - length s) 48%N ++ s.

Definition named_field (names : list jstr) (i : Z) : jstr := nth (Z.to_nat i) names (js "undefined").

Definition tzOffset (d : date) (zulu : bool) : jstr :=
  let offset := (- dt_offset d)%Z in
  if (offset =? 0)%Z && zulu then js "Z"
  else (if (offset <? 0)%Z then js "-" else js "+") ++ pad (Z.abs offset / 60) 2 ++ js ":" ++ pad (Z.abs offset mod 60) 2.

Definition LAYOUT_TOKENS : list (jstr * (date → jstr)) :=
  [(js "2006", λ d, pad (dt_year d) 4);
   (js ".000000", λ d, js "." ++ pad (dt_millis d) 3 ++ js "000");
   (js ".000", λ d, js "." ++ pad (dt_millis d) 3);
   (js "January", λ d, named_field MONTHS_LONG (dt_month d));
   (js "Monday", λ d, named_field DAYS_LONG (dt_day d));
   (js "Z07:00", λ d, tzOffset d true);
   (js "-07:00", λ d, tzOffset d false);
   (js "Jan", λ d, named_field MONTHS_SHORT (dt_month d));
   (js "Mon", λ d, named_field DAYS_SHORT (dt_day d));
   (js "PM", λ d, if (dt_hours d <? 12)%Z then js "AM" else js "PM");
   (js "pm", λ d, if (dt_hours d <? 12)%Z then js "am" else js "pm");
   (js "15", λ d, pad (dt_hours d) 2);
   (js "06", λ d, pad (Z.rem (dt_year d) 100) 2);
   (js "05", λ d, pad (dt_seconds d) 2);
   (js "04", λ d, pad (dt_minutes d) 2);
   (js "03", λ d, pad (if (dt_hours d mod 12 =? 0)%Z then 12 else dt_hours d mod 12) 2);
   (js "02", λ d, pad (dt_date d) 2);
   (js "01", λ d, pad (dt_month d + 1) 2)].

(** The loop of [formatTimestamp] on what is left of the layout. *)
Fixpoint layout_loop (fuel : nat) (d : date) (layout : jstr) : jstr :=
  match fuel with
  | O => []
  | S fuel =>
      match layout with
      | [] => []
      | c :: rest =>
          match find_first (λ t, startsWith layout t.1) LAYOUT_TOKENS with
          | Some (token, render) => render d ++ layout_loop fuel d (drop (length token) layout)
          | None => c :: layout_loop fuel d rest
          end
      end
  end.
Definition formatTimestamp (d : date) (layout : jstr) : jstr := layout_loop (length layout) d layout.

Definition DEFAULT_FORMAT_DATE : jstr := js "2006-01-02T15:04:05.000".

(** ** Latencies *)

(** [z] is the integer nearest to a positive number, the larger of two. *)
Definition rounds_to (d : dbl) (z : Z) : Prop :=
  match d with
  | S754_finite false m e =>
      if (0 <=? e)%Z then z = (Zpos m * 2 ^ e)%Z else (Zpos m * 2 - 2 ^ (- e) < 2 * z * 2 ^ (- e) <= Zpos m * 2 + 2 ^ (- e))%Z
  | _ => z = 0%Z
  end.

Lemma valid_mantissa s m e : valid_binary dprec demax (S754_finite s m e) = true → (Zpos m < 2 ^ 53)%Z.
Proof.
  unfold valid_binary, bounded. intros [Hc _]%andb_true_iff. unfold canonical_mantissa in Hc. apply Zeq_bool_eq in Hc.
  pose proof (digits2_bound m) as [_ Hm]. unfold fexp, dprec, demax, emin in Hc.
  assert (Z.pos (digits2_pos m) <= 53)%Z by lia.
  assert (2 ^ Z.pos (digits2_pos m) <= 2 ^ 53)%Z by (apply Z.pow_le_mono_r; lia). lia.
Qed.

Lemma num_round_spec m e : valid_binary dprec demax (S754_finite false m e) = true →
  ∃ z, dbl_to_Z (num_round (S754_finite false m e)) = Some z ∧ (0 <= z)%Z ∧ rounds_to (S754_finite false m e) z.
Proof.
  intros Hv%valid_mantissa. unfold num_round, rounds_to. destruct (0 <=? e)%Z eqn:E.
  - exists (Zpos m * 2 ^ e)%Z. simpl. rewrite E. split_and!; [done|lia|done].
  - set (p := (2 ^ (- e))%Z). assert (Hp : (2 <= p)%Z).
    { unfold p. replace 2%Z with (2 ^ 1)%Z at 1 by done. apply Z.pow_le_mono_r; lia. }
    replace (2 ^ (1 - e))%Z with (2 * p)%Z by (unfold p; rewrite <- Z.pow_succ_r by lia; f_equal; lia).
    set (z := ((2 * Zpos m + p) / (2 * p))%Z). exists z.
    assert (Hz : (2 * p * z <= 2 * Zpos m + p < 2 * p * z + 2 * p)%Z).
    { unfold z. pose proof (Z.mul_div_le (2 * Zpos m + p) (2 * p)). pose proof (Z.mul_succ_div_gt (2 * Zpos m + p) (2 * p)). lia. }
    assert (H0 : (0 <= z)%Z) by (apply Z.div_pos; lia).
    split_and!; [|done|nia|nia]. destruct (z =? 0)%Z eqn:Ez; [simpl; f_equal; lia|]. apply dbl_to_of_Z.
    assert (z < 2 ^ 53)%Z by nia. lia.
Qed.

(** A normalized latency is a non-negative integer: the nearest one, halves up, of a positive
    finite number and zero of everything else. *)
Theorem normalizeLatency_spec v : match v with VNum d => valid_binary dprec demax d = true | _ => True end →
  ∃ z, dbl_to_Z (normalizeLatency v) = Some z ∧ (0 <= z)%Z ∧ match v with VNum d => rounds_to d z | _ => z = 0%Z end.
Proof.
  intros Hv. assert (H0 : dbl_to_Z (dbl_of_Z 0) = Some 0%Z) by done.
  destruct v as [| | |d| | | |]; try (exists 0%Z; done). unfold normalizeLatency.
  destruct d as [s|s| |[] m e]; try (exists 0%Z; simpl; done).
  destruct (negb (isFinite (S754_finite false m e)) || num_leb (S754_finite false m e) (dbl_of_Z 0)) eqn:E; [done|].
  by apply num_round_spec.
Qed.

(** ** The canonical layout *)

Definition canonical_keys (spanID process : bool) : list jstr :=
  map js (["level"; "timestamp"; "traceID"]%string ++ (if spanID then ["spanID"%string] else [])
          ++ ["message"; "details"]%string ++ (if process then ["process"%string] else [])
          ++ ["method"; "line"; "latency"]%string).

(** The keys of an entry, in order; details that name their system; a latency that is a non-negative
    integer in milliseconds. *)
Record canonical (o : props) : Prop := {
  cn_keys : ∃ spanID process, keys o = canonical_keys spanID process;
  cn_details : ∃ d, own_get (js "details") o = Some (VObj d) ∧ is_Some (own_get (js "system") d);
  cn_latency : ∃ v, own_get (js "latency") o = Some (VNum (normalizeLatency v));
}.

Lemma put_keeps c k d out q : is_Some (own_get q out) → is_Some (own_get q (put c k d out)).
Proof. unfold put. destruct (c _); [|done]. rewrite own_get_set. by case_bool_decide. Qed.

Lemma sets_keep l : ∀ (out : props) q, q ∉ map fst l → own_get q (foldl (λ out p, obj_set p.1 p.2 out) out l) = own_get q out.
Proof.
  induction l as [|[k v] l IH]; intros out q Hq; [done|]. simpl in *. apply not_elem_of_cons in Hq as [H1 H2].
  rewrite IH by done. by apply own_get_set_ne.
Qed.

Lemma extras_off_slots d q : q ∈ DETAIL_SLOTS → q ∉ map fst (detailExtras d).
Proof.
  intros Hq (p & -> & Hp)%list_elem_of_fmap. unfold detailExtras in Hp. apply list_elem_of_In, filter_In in Hp as [_ Hp].
  rewrite bool_decide_true in Hp; done.
Qed.

Lemma marshalDetails_system d : is_Some (own_get (js "system") (marshalDetails d)).
Proof.
  unfold marshalDetails. rewrite sets_keep by (apply extras_off_slots; by repeat constructor).
  repeat (apply put_keeps). simpl. eauto.
Qed.

(** An attribute that is not a slot is kept. *)
Lemma marshalDetails_extra o k v : NoDup (keys o) → own_get k o = Some v → k ∉ DETAIL_SLOTS →
  own_get k (marshalDetails (VObj o)) = Some v.
Proof.
  intros Hn Hk Hs. unfold marshalDetails. generalize (put_present "response" (VObj o)
    (put_present "request" (VObj o) (put (λ v, truthy v && has_keys v) "headers" (VObj o) (put_truthy "path" (VObj o)
      (put_truthy "method" (VObj o) (put_truthy "protocol" (VObj o) (put_truthy "client" (VObj o)
        [(js "system", nullish (item_get (VObj o) "system") (VStr []))]))))))). intros out.
  assert (Hin : (k, v) ∈ detailExtras (VObj o)).
  { apply list_elem_of_In, filter_In. split; [by apply list_elem_of_In, own_get_elem|]. simpl. by rewrite bool_decide_false. }
  assert (Hd : NoDup (map fst (detailExtras (VObj o)))).
  { unfold detailExtras. simpl. clear -Hn. induction o as [|[a b] o IH]; simpl in *; [constructor|].
    apply NoDup_cons in Hn as [Ha Hn]. case_bool_decide; simpl; [by apply IH|]. constructor; [|by apply IH].
    intros (p & E & Hp)%list_elem_of_fmap. apply list_elem_of_In, filter_In in Hp as [Hp _]. apply Ha.
    rewrite E. apply list_elem_of_fmap. exists p. split; [done|]. by apply list_elem_of_In. }
  revert out Hin Hd. generalize (detailExtras (VObj o)). intros l. induction l as [|[a b] l IH]; intros out Hin Hd; [by apply not_elem_of_nil in Hin|].
  simpl in *. apply NoDup_cons in Hd as [Ha Hd]. apply elem_of_cons in Hin as [[= -> ->]|Hin]; [|by apply IH].
  rewrite sets_keep by done. apply own_get_set_eq.
Qed.

Lemma marshal_canonical log o : marshal_object log = Ok o → canonical o.
Proof.
  unfold marshal_object. destruct (mapM_res _ _) as [rows|]; [|done]. cbn [rbind]. intros [= <-]. set (rowsv := VArr rows). clearbody rowsv.
  set (d := marshalDetails _). assert (Hd : is_Some (own_get (js "system") d)) by apply marshalDetails_system. clearbody d.
  destruct (truthy _); destruct (bool_decide _); (split; [|exists d; split; [reflexivity|done]|eexists; reflexivity]).
  - by exists true, false.
  - by exists true, true.
  - by exists false, false.
  - by exists false, true.
Qed.

Lemma marshal_text log s : marshalEntry log = Ok s → ∃ o, json_stringify (VObj o) = Some s ∧ canonical o ∧ marshal_object log = Ok o.
Proof.
  unfold marshalEntry. destruct (marshal_object log) as [o|] eqn:E; [|done]. cbn [rbind]. intros [= <-].
  exists o. split; [|split; [by eapply marshal_canonical|done]]. by destruct (json_stringify (VObj o)) eqn:Es.
Qed.

(** The JSON layout is the text of an object with the canonical keys in their order, whatever
    the entry holds; its details keep every attribute that is not one of the named slots; and when
    the object is JSON data the text reads back as it. *)
Theorem formatJSON_canonical log s : formatJSON log = Ok s →
  ∃ o, json_stringify (VObj o) = Some s ∧ canonical o ∧
    (json_data (VObj o) → json_parse s = Some (VObj o)) ∧
    ∀ d k v, js_get log (js "details") = VObj d → NoDup (keys d) → own_get k d = Some v → k ∉ DETAIL_SLOTS →
      ∃ d', own_get (js "details") o = Some (VObj d') ∧ own_get k d' = Some v.
Proof.
  unfold formatJSON, normalizeLog. destruct (mapped _) as [items|]; [|done]. cbn [rbind].
  intros (o & Hs & Hc & Ho)%marshal_text. exists o. split_and!; [done|done|intros Hd; by eapply json_parse_stringify|].
  intros d k v Hd Hn Hk Hslot. exists (marshalDetails (VObj d)). split; [|by apply marshalDetails_extra].
  set (log' := obj_set _ _ _) in Ho.
  assert (Hd' : js_get log' (js "details") = VObj d) by (unfold log'; rewrite !js_get_set; exact Hd). clearbody log'.
  unfold marshal_object in Ho. destruct (mapM_res _ _) as [rows|]; [|done]. cbn [rbind] in Ho. injection Ho as <-.
  rewrite Hd'. destruct (truthy _); reflexivity.
Qed.

Lemma mapM_res_Err {E A B} (f : A → res E B) l e : mapM_res f l = Err e → Exists (λ x, is_ok (f x) = false) l.
Proof.
  induction l as [|x l IH]; simpl; [done|]. destruct (f x) eqn:E1; simpl; [|intros _; left; by rewrite E1].
  destruct (mapM_res f l) eqn:E2; simpl; [done|]. intros [= ->]. right. by apply IH.
Qed.

(** A custom template cannot change the layout: whenever its output reads as a JSON object, the
    output is the text of a canonical entry, except when the object lists a null process. *)
Theorem formatTemplate_canonical `{CM : CaseMapping} template log s parsed : formatTemplate template log = Ok s →
  json_parse s = Some (VObj parsed) →
  (∃ o, json_stringify (VObj o) = Some s ∧ canonical o) ∨
  (∃ l, js_get parsed (js "process") = VArr l ∧ Exists (λ v, is_null v = true) l).
Proof.
  unfold formatTemplate, executeTemplate. destruct (normalizeLog log) as [log'|]; [|done]. cbn [rbind].
  destruct (renderTemplate log' template) as [text|]; [|done]. cbn [rbind]. intros H Hp.
  destruct (json_parse (trim text)) as [v|] eqn:Ej; [|injection H as <-; congruence].
  destruct v as [| | | | | |p|]; try (injection H as <-; congruence).
  destruct (marshalEntry (coerceEntry p)) as [s'|e] eqn:Em; injection H as <-.
  - left. apply marshal_text in Em as (o & ? & ? & _). eauto.
  - right. rewrite Ej in Hp. injection Hp as <-. unfold marshalEntry in Em.
    destruct (marshal_object _) as [o|] eqn:Eo; [done|]. unfold marshal_object in Eo. destruct (mapM_res _ _) as [rows|e'] eqn:Er; [done|].
    apply mapM_res_Err in Er.
    assert (Hg : js_get (coerceEntry p) (js "process") = match js_get p (js "process") with VArr l => VArr l | _ => VArr [] end).
    { unfold coerceEntry. destruct (js_get p (js "spanID")) as [| | | |[|c sp]| | |]; reflexivity. }
    rewrite Hg in Er. destruct (js_get p (js "process")) as [| | | | |l| |]; try (by apply Exists_nil in Er).
    exists l. split; [done|]. eapply Exists_impl; [exact Er|]. intros x Hx. unfold marshalProcess in Hx. simpl in Hx. by destruct (is_null x).
Qed.

(** ** Templates *)

Section rendering.
Context `{CM : CaseMapping}.
Context (log : props).

Definition size (tokens : list jstr) : nat := list_sum (map (λ t, length t) tokens).

Lemma size_app a b : size (a ++ b) = size a + size b.
Proof. unfold size. by rewrite map_app, list_sum_app. Qed.

Lemma size_one t : size [t] = length t.
Proof. unfold size. simpl. lia. Qed.

Lemma tokenize_size action rest : ∀ depth current tokens out, tokenize_loop action rest depth current tokens = Ok out →
  size out ≤ size tokens + length current + length rest.
Proof.
  induction rest as [|c rest IH]; intros depth current tokens out H; cbn [tokenize_loop] in H.
  - destruct (negb _); [done|]. injection H as <-. case_bool_decide; [lia|]. rewrite size_app, size_one. simpl. lia.
  - destruct ((c =? 41)%N && (depth =? 0)); [done|]. destruct ((c =? 32)%N && _).
    + apply IH in H. case_bool_decide; simpl in *; [lia|]. rewrite size_app, size_one in H. lia.
    + apply IH in H. rewrite length_app in H. simpl in *. lia.
Qed.

Lemma trim_length s : length (trim s) ≤ length s.
Proof.
  unfold trim. destruct (trim_end_split (trim_start s)) as (w1 & E1 & _), (trim_start_split s) as (w2 & E2 & _).
  apply (f_equal length) in E1, E2. rewrite length_app in E1, E2. lia.
Qed.

(** Fuel for the nesting of parentheses: the length of the tokens is enough. *)
Lemma evalTokens_fuel fuel : ∀ fuel' tokens, size tokens < fuel → size tokens < fuel' →
  evalTokens log fuel tokens = evalTokens log fuel' tokens.
Proof.
  induction fuel as [|fuel IH]; intros [|fuel'] tokens Hf Hf'; try lia. cbn [evalTokens].
  destruct tokens as [|head args]; [done|]. destruct (startsWith head (js ".")); [done|].
  destruct (template_func log head); [|done]. destruct args as [|arg [|]]; try done.
  f_equal. destruct (startsWith arg (js "(") && endsWith arg (js ")")) eqn:Ep; [|done].
  destruct (tokenize (trim (slice arg 1 (length arg - 1)))) as [inner|] eqn:Et; [|done]. cbn [rbind].
  apply tokenize_size in Et. pose proof (trim_length (slice arg 1 (length arg - 1))) as Ht.
  assert (Ha : startsWith arg (js "(") = true) by (by destruct (startsWith arg (js "("))).
  assert (Hl : 1 ≤ length arg) by (destruct arg; [done|simpl; lia]).
  assert (Hs' : length (slice arg 1 (length arg - 1)) ≤ length arg - 2) by (unfold slice; rewrite firstn_length; lia).
  unfold size in *. simpl in *. apply IH; lia.
Qed.

Lemma cut_pair_app c t r : c ∉ t → cut_pair c (t ++ c :: c :: r) = Some (t, r).
Proof.
  induction t as [|a t IH]; intros Hc; simpl; [by rewrite N.eqb_refl|]. apply not_elem_of_cons in Hc as [Ha Hc].
  rewrite IH by done. replace (a =? c)%N with false by lia. destruct (t ++ c :: c :: r) eqn:E; [by destruct t|done].
Qed.

Lemma cut_pair_none c t : c ∉ t → cut_pair c t = None.
Proof.
  induction t as [|a t IH]; intros Hc; [done|]. apply not_elem_of_cons in Hc as [Ha Hc]. cbn [cut_pair].
  replace (a =? c)%N with false by lia. rewrite IH by done. by destruct t.
Qed.

(** A template: texts and actions, and the text after the last action. *)
Fixpoint template_text (segments : list (jstr * jstr)) (last : jstr) : jstr :=
  match segments with
  | [] => last
  | (text, action) :: rest => text ++ 123%N :: 123%N :: action ++ 125%N :: 125%N :: template_text rest last
  end.

Fixpoint template_value (segments : list (jstr * jstr)) (last : jstr) : fmt jstr :=
  match segments with
  | [] => Ok last
  | (text, action) :: rest =>
      let* v := evalAction log (trim action) in
      let* tail := template_value rest last in
      Ok (text ++ stringifyResult log v ++ tail)
  end.

Lemma render_segments segments last whole : ∀ fuel out, length (template_text segments last) ≤ fuel →
  Forall (λ p, 123%N ∉ p.1 ∧ 125%N ∉ p.2) segments → 123%N ∉ last →
  render_loop log fuel whole (template_text segments last) out = (let* s := template_value segments last in Ok (out ++ s)).
Proof.
  induction segments as [|[text action] segments IH]; intros fuel out Hl Hs Hn; simpl in *.
  - destruct fuel as [|fuel]; [destruct last; [by rewrite app_nil_r|simpl in Hl; lia]|]. simpl.
    rewrite cut_pair_none by done. destruct last; [by rewrite app_nil_r|done].
  - apply Forall_cons in Hs as [[H1 H2] Hs]. rewrite length_app in Hl. simpl in Hl. rewrite length_app in Hl. simpl in Hl.
    destruct fuel as [|fuel]; [lia|]. cbn [render_loop]. rewrite cut_pair_app, cut_pair_app by done.
    destruct (text ++ 123%N :: _) eqn:E; [by destruct text|]. destruct (evalAction log (trim action)) as [v|]; [|done]. cbn [rbind].
    rewrite IH by (done || lia). destruct (template_value segments last); [|done]. cbn [rbind]. by rewrite <- !app_assoc.
Qed.

(** Rendering a template of texts without an opening brace and actions without a closing one
    gives the texts with every action replaced by its value, in order, or the first error; an
    action's evaluation never runs out of fuel. *)
Theorem renderTemplate_segments segments last : Forall (λ p, 123%N ∉ p.1 ∧ 125%N ∉ p.2) segments → 123%N ∉ last →
  renderTemplate log (template_text segments last) = template_value segments last ∧
  ∀ action tokens fuel, tokenize action = Ok tokens → length action < fuel →
    evalTokens log fuel tokens = evalTokens log (S (length action)) tokens.
Proof.
  intros Hs Hl. split.
  - unfold renderTemplate. rewrite render_segments by done. by destruct (template_value segments last).
  - intros action tokens fuel Ht Hf. apply tokenize_size in Ht. change (size []) with 0 in Ht. simpl length in Ht. apply evalTokens_fuel; lia.
Qed.
End rendering.

(** ** Timestamps *)

Record valid_date (d : date) : Prop := {
  vd_year : (0 <= dt_year d < 10000)%Z;
  vd_month : (0 <= dt_month d < 12)%Z;
  vd_date : (1 <= dt_date d <= 31)%Z;
  vd_hours : (0 <= dt_hours d < 24)%Z;
  vd_minutes : (0 <= dt_minutes d < 60)%Z;
  vd_seconds : (0 <= dt_seconds d < 60)%Z;
  vd_millis : (0 <= dt_millis d < 1000)%Z;
}.

Definition date_fields (d : date) : list (nat * Z) :=
  [(4, dt_year d); (2, (dt_month d + 1)%Z); (2, dt_date d); (2, dt_hours d); (2, dt_minutes d); (2, dt_seconds d); (3, dt_millis d)].

Lemma pad_fixed w n : (0 <= n < 10 ^ Z.of_nat (S w))%Z → pad n (S w) = fixed (S w) n.
Proof.
  intros Hn. unfold pad. assert (E : int_to_string n = nat_to_string (Z.to_N n)) by (destruct n; [done|done|lia]).
  rewrite E. unfold nat_to_string. rewrite dec_digits_fixed, Z2N.id by (try apply size_nat_bound; try rewrite Z2N.id; lia). done.
Qed.

Definition default_text (d : date) : jstr := print_fields (date_fields d) (js "--T::.").

Lemma formatTimestamp_fields d : valid_date d → formatTimestamp d DEFAULT_FORMAT_DATE = default_text d.
Proof.
  intros [H1 H2 H3 H4 H5 H6 H7].
  assert (E : formatTimestamp d DEFAULT_FORMAT_DATE = pad (dt_year d) 4 ++ js "-" ++ pad (dt_month d + 1) 2 ++ js "-" ++ pad (dt_date d) 2
    ++ js "T" ++ pad (dt_hours d) 2 ++ js ":" ++ pad (dt_minutes d) 2 ++ js ":" ++ pad (dt_seconds d) 2
    ++ (js "." ++ pad (dt_millis d) 3) ++ []) by reflexivity.
  rewrite E. rewrite (pad_fixed 3), (pad_fixed 2), !(pad_fixed 1) by (simpl; lia).
  rewrite app_nil_r. reflexivity.
Qed.

(** The default layout prints the local date and time in ISO order with fixed widths, so that
    two dates print the same only when all their fields agree, and the texts are 23 characters. *)
Theorem formatTimestamp_default d : valid_date d →
  formatTimestamp d DEFAULT_FORMAT_DATE = print_fields (date_fields d) (js "--T::.") ∧
  length (formatTimestamp d DEFAULT_FORMAT_DATE) = 23 ∧
  ∀ d', valid_date d' → formatTimestamp d' DEFAULT_FORMAT_DATE = formatTimestamp d DEFAULT_FORMAT_DATE → date_fields d' = date_fields d.
Proof.
  intros Hd. rewrite (formatTimestamp_fields d Hd). split_and!; [done| |].
  - unfold default_text, date_fields. change (js "--T::.") with [45; 45; 84; 58; 58; 46]%N. cbn [print_fields].
    by repeat (rewrite ?length_app, ?fixed_length; cbn [length]).
  - intros d' Hd'. rewrite (formatTimestamp_fields d' Hd'). apply print_fields_inj; [done|simpl; lia|..].
    + destruct Hd'. repeat constructor; simpl; lia.
    + destruct Hd. repeat constructor; simpl; lia.
Qed.

(** ** Runs *)

#[local] Existing Instance ascii_case.

Definition sample_log : props :=
  [(js "level", VStr (js "INFO")); (js "timestamp", VStr (js "t")); (js "traceID", VStr []); (js "message", VStr (js "hi"));
   (js "details", VObj [(js "system", VStr (js "s")); (js "user", VNum (dbl_of_Z 7))]);
   (js "process", VArr [VObj [(js "system", VStr (js "db")); (js "latency", VNum (dbl_of_decimal false 15 (-1)))]]);
   (js "method", VStr (js "main")); (js "line", VNum (dbl_of_Z 3)); (js "latency", VNum (dbl_of_Z 2))].

(** A text with apostrophes for quotation marks. *)
Definition quotes (s : string) : jstr := map (λ c, if (c =? 39)%N then 34%N else c) (js s).

Definition sample_json : jstr := quotes
  "{'level':'INFO','timestamp':'t','traceID':'','message':'hi','details':{'system':'s','user':7},'process':[{'system':'db','process':'','status':'','latency':2}],'method':'main','line':3,'latency':2}".

Example formatJSON_run : formatJSON sample_log = Ok sample_json.
Proof. vm_compute. reflexivity. Qed.

Example formatText_run : formatText sample_log =
  Ok (js "[t] [INFO] [] main:3 - hi latency=2ms | details={system=s, user=7} | process=[{system=db, latency=2ms}]").
Proof. vm_compute. reflexivity. Qed.

Example template_run : format (js "{{.Level}} | {{.Message}} {{json (buildDetails .Details)}}") sample_log =
  Ok (quotes "INFO | hi {'system':'s','user':7}").
Proof. vm_compute. reflexivity. Qed.

(** A name of [Object.prototype] is taken for a function of the template language: the misspelt
    helper is not reported. *)
Theorem inherited_helper : format (js "{{toString .Level}}") sample_log = Ok (js "[object Undefined]") ∧
  format (js "{{upper .Level}}") sample_log = Err (TemplateErr (js "template: function " ++ json_quote (js "upper") ++ js " not defined")).
Proof. vm_compute. done. Qed.

Example formatJSON_canonical_witness : ∃ o, json_stringify (VObj o) = Some sample_json ∧ canonical o ∧
  (json_data (VObj o) → json_parse sample_json = Some (VObj o)) ∧
  ∀ d k v, js_get sample_log (js "details") = VObj d → NoDup (keys d) → own_get k d = Some v → k ∉ DETAIL_SLOTS →
    ∃ d', own_get (js "details") o = Some (VObj d') ∧ own_get k d' = Some v.
Proof. apply (formatJSON_canonical sample_log sample_json). vm_compute. reflexivity. Defined.

Definition json_template : jstr := quotes "{'message':{{json .Message}},'extra':1}".
Definition templated : jstr := quotes "{'level':'','timestamp':'','traceID':'','message':'hi','details':{'system':''},'method':'','line':0,'latency':0}".

Example formatTemplate_canonical_witness :
  (∃ o, json_stringify (VObj o) = Some templated ∧ canonical o) ∨
  (∃ l, js_get (default [] (match json_parse templated with Some (VObj o) => Some o | _ => None end)) (js "process") = VArr l ∧
     Exists (λ v, is_null v = true) l).
Proof.
  apply (formatTemplate_canonical json_template sample_log templated); vm_compute; reflexivity.
Defined.

Example renderTemplate_segments_witness :
  renderTemplate sample_log (template_text [(js "a ", js ".Level "); (js "b", js "json .Line")] (js "!")) = Ok (js "a INFOb3!") ∧
  evalTokens sample_log 100 [js "json"; js ".Line"] = Ok (TVal (VStr (js "3"))).
Proof.
  destruct (renderTemplate_segments sample_log [(js "a ", js ".Level "); (js "b", js "json .Line")] (js "!")) as [H1 H2].
  - repeat constructor; simpl; intros H; repeat (apply elem_of_cons in H as [H|H]; [discriminate H|]); by apply not_elem_of_nil in H.
  - simpl. intros H; repeat (apply elem_of_cons in H as [H|H]; [discriminate H|]); by apply not_elem_of_nil in H.
  - split; [rewrite H1; vm_compute; reflexivity|].
    rewrite (H2 (js "json .Line") [js "json"; js ".Line"] 100); [vm_compute; reflexivity|reflexivity|vm_compute; lia].
Defined.

Example formatTimestamp_default_witness :
  let d := {| dt_year := 2026; dt_month := 1; dt_date := 3; dt_day := 2; dt_hours := 14; dt_minutes := 5; dt_seconds := 6;
              dt_millis := 7; dt_offset := 0 |} in
  formatTimestamp d DEFAULT_FORMAT_DATE = js "2026-02-03T14:05:06.007" ∧ length (formatTimestamp d DEFAULT_FORMAT_DATE) = 23.
Proof.
  intros d. destruct (formatTimestamp_default d) as (_ & H & _); [by split; simpl; lia|]. split; [reflexivity|exact H].
Defined.

Example normalizeLatency_spec_witness : ∃ z, dbl_to_Z (normalizeLatency (VNum (dbl_of_decimal false 25 (-1)))) = Some z ∧ (0 <= z)%Z ∧
  rounds_to (dbl_of_decimal false 25 (-1)) z.
Proof. apply (normalizeLatency_spec (VNum (dbl_of_decimal false 25 (-1)))). vm_compute. reflexivity. Defined.

(** The fields of an entry are not protected from its own sanitizer: with the list of processes
    replaced by the marker text, formatting throws into the caller of the logger. *)
Theorem redacted_process_throws template log : js_get log (js "process") = VStr (js "[REDACTED]") → format template log = Err TypeErr.
Proof.
  intros H. unfold format, formatJSON, formatText, formatTemplate, normalizeLog. rewrite H. simpl. by repeat case_match.
Qed.
