(* ===== verification/FileSink.v ===== *)
(** * logger/sink/file.ts: the rotating file sink

    The directory of the sink is the list of its entries, in the order [readDirSync] gives them;
    an entry is named by its file name, its path being the name joined to the directory.  Every
    call of the file system is one step of the host: [fault] gives the message of the error it
    throws, [now] the clock, [chunk] how many bytes a [writeSync] takes.  Only this sink changes
    the directory.  The background compression of a backup is recorded, not run. *)

From S2P Require Export JsDate JsString.
Local Open Scope nat_scope.

Definition DEFAULT_MAX_SIZE_MB : Z := 10.
Definition DEFAULT_MAX_BACKUPS : Z := 5.
Definition DEFAULT_MAX_AGE_DAYS : Z := 30.

Record RotateOptions := {
  rt_enable : option bool;
  rt_maxSize : option dbl;
  rt_maxBackups : option dbl;
  rt_maxAge : option dbl;
  rt_compress : option bool;
}.

(** [rr_maxSizeBytes = None] is infinity. *)
Record ResolvedRotation := {
  rr_enable : bool;
  rr_maxSizeBytes : option Z;
  rr_maxBackups : Z;
  rr_maxAge : Z;
  rr_compress : bool;
}.

Definition nonNegativeInteger (value : option dbl) (fallback : Z) : Z :=
  match value with
  | Some v => if isFinite v && num_leb (dbl_of_Z 0) v then default 0%Z (dbl_to_Z (num_floor v)) else fallback
  | None => fallback
  end.

Definition resolveRotation (o : RotateOptions) : ResolvedRotation :=
  let maxSize := match rt_maxSize o with
                 | Some v => if isFinite v && num_ltb (dbl_of_Z 0) v then v else dbl_of_Z DEFAULT_MAX_SIZE_MB
                 | None => dbl_of_Z DEFAULT_MAX_SIZE_MB
                 end in
  {| rr_enable := default false (rt_enable o);
     rr_maxSizeBytes := Z.max 1 <$> dbl_to_Z (num_floor (num_mul (num_mul maxSize (dbl_of_Z 1024)) (dbl_of_Z 1024)));
     rr_maxBackups := nonNegativeInteger (rt_maxBackups o) DEFAULT_MAX_BACKUPS;
     rr_maxAge := nonNegativeInteger (rt_maxAge o) DEFAULT_MAX_AGE_DAYS;
     rr_compress := default false (rt_compress o) |}.

Definition normalizeFileName (fileName : jstr) : res jstr jstr :=
  let normalized := trim fileName in
  if bool_decide (normalized = []) || bool_decide (normalized = js ".") || bool_decide (normalized = js "..")
     || includes_char normalized 47 || includes_char normalized 92
  then Err (js "fileName must be a file name inside dir")
  else Ok normalized.

Definition ends_with_slash (dir : jstr) : bool :=
  match last dir with Some c => (c =? 47)%N || (c =? 92)%N | None => false end.

Definition joinPath (dir fileName : jstr) : res jstr jstr :=
  if bool_decide (trim dir = []) then Err (js "dir must not be empty")
  else Ok (if ends_with_slash dir then dir ++ fileName else dir ++ [47%N] ++ fileName).

Section sink.
Context `{CM : CaseMapping}.

Definition stripLogExtension (fileName : jstr) : jstr :=
  if endsWith (toLowerCase fileName) (js ".log") then take (length fileName - 4) fileName else fileName.

(** ** The host *)

Record file := { fl_bytes : list N; fl_modified : Z; fl_isFile : bool }.

Record sink_host := { sh_files : list (jstr * file); sh_step : nat }.

Definition file_get (name : jstr) (files : list (jstr * file)) : option file := snd <$> find_first (λ p, bool_decide (p.1 = name)) files.
Definition file_delete (name : jstr) (files : list (jstr * file)) : list (jstr * file) :=
  List.filter (λ p, negb (bool_decide (p.1 = name))) files.
Definition file_update (name : jstr) (f : file) (files : list (jstr * file)) : list (jstr * file) :=
  map (λ p, if bool_decide (p.1 = name) then (name, f) else p) files.

Context (fault : nat → option jstr) (now : nat → Z) (chunk : nat → nat).

(** A computation of the host: it may throw, keeping what it has done. *)
Definition host_io (A : Type) : Type := sink_host → sink_host * res jstr A.

Definition ret {A} (a : A) : host_io A := λ h, (h, Ok a).
Definition throw {A} (e : jstr) : host_io A := λ h, (h, Err e).
Definition bind {A B} (m : host_io A) (k : A → host_io B) : host_io B :=
  λ h, match m h with (h', Ok a) => k a h' | (h', Err e) => (h', Err e) end.

(** One call of the file system with effect [f]. *)
Definition call (f : sink_host → sink_host) : host_io unit :=
  λ h, let h' := {| sh_files := sh_files h; sh_step := S (sh_step h) |} in
       match fault (sh_step h) with Some e => (h', Err e) | None => (f h', Ok tt) end.

Definition with_files (files : list (jstr * file)) (h : sink_host) : sink_host := {| sh_files := files; sh_step := sh_step h |}.

(** [openSync] with [create]. *)
Definition create_file (name : jstr) (h : sink_host) : sink_host :=
  match file_get name (sh_files h) with
  | Some _ => h
  | None => with_files (sh_files h ++ [(name, {| fl_bytes := []; fl_modified := now (sh_step h); fl_isFile := true |})]) h
  end.

Definition append_to (name : jstr) (bs : list N) (h : sink_host) : sink_host :=
  match file_get name (sh_files h) with
  | Some f => with_files (file_update name {| fl_bytes := fl_bytes f ++ bs; fl_modified := now (sh_step h);
                                              fl_isFile := fl_isFile f |} (sh_files h)) h
  | None => h
  end.

(** [renameSync] replaces an entry of the new name. *)
Definition rename_file (old new : jstr) (h : sink_host) : sink_host :=
  match file_get old (sh_files h) with
  | Some f => with_files (file_delete old (file_delete new (sh_files h)) ++ [(new, f)]) h
  | None => h
  end.

Definition nothing (h : sink_host) : sink_host := h.

(** Opens, closes and sets the modes; [mkdirSync] finds or makes the directory. *)
Definition prepareActiveFile (active : jstr) : host_io unit :=
  bind (call nothing) (λ _, bind (call nothing) (λ _, bind (call (create_file active)) (λ _, call nothing))).

(** The [while] over [writeSync]; [room] bounds the calls. *)
Fixpoint write_all (room : nat) (active : jstr) (bs : list N) : host_io unit :=
  match room with
  | O => ret tt
  | S room =>
      match bs with
      | [] => ret tt
      | _ => λ h,
          let n := max 1 (min (chunk (sh_step h)) (length bs)) in
          bind (call (append_to active (take n bs))) (λ _, write_all room active (drop n bs)) h
      end
  end.

Definition appendBytes (active : jstr) (bs : list N) : host_io unit :=
  bind (call (create_file active)) (λ _, write_all (length bs) active bs).

(** ** Rotation *)

(** [toISOString().replace(Z, empty).replaceAll(:, -)]. *)
Definition timestamp (ms : Z) : jstr := map (λ c, if (c =? 58)%N then 45%N else c) (removelast (toISOString ms)).
Definition backup_name (prefix : jstr) (ms : Z) : jstr := prefix ++ timestamp ms ++ js ".log".

(** The [while (true)] of [nextBackupPath]: [lstatSync] throws NotFound on a free name. *)
Fixpoint next_free (fuel : nat) (prefix : jstr) (ms : Z) : host_io (option (jstr * Z)) :=
  match fuel with
  | O => ret None
  | S fuel => λ h,
      bind (call nothing) (λ _ h',
        match file_get (backup_name prefix ms) (sh_files h') with
        | None => (h', Ok (Some (backup_name prefix ms, ms)))
        | Some _ => next_free fuel prefix (ms + 1)%Z h'
        end) h
  end.

(** The name of the next backup and [lastRotationTime]. *)
Definition nextBackupPath (prefix : jstr) (lastRotationTime : Z) : host_io (option (jstr * Z)) :=
  λ h, next_free (S (length (sh_files h))) prefix (Z.max (now (sh_step h)) (lastRotationTime + 1)) h.

(** [listBackups]: names and times of the regular files with the prefix and an extension. *)
Definition is_backup (prefix : jstr) (p : jstr * file) : bool :=
  fl_isFile p.2 && startsWith p.1 prefix && (endsWith p.1 (js ".log") || endsWith p.1 (js ".log.gz")).

Fixpoint stat_all (l : list (jstr * file)) : host_io (list (jstr * Z)) :=
  match l with
  | [] => ret []
  | (name, f) :: l => bind (call nothing) (λ _, bind (stat_all l) (λ r, ret ((name, fl_modified f) :: r)))
  end.
Definition listBackups (prefix : jstr) : host_io (list (jstr * Z)) :=
  λ h, bind (call nothing) (λ _ h', stat_all (List.filter (is_backup prefix) (sh_files h')) h') h.

(** ** The sink *)

Inductive sink_line := ToTee (line : jstr) | ToConsole (line : jstr).

(** [sk_prefix] and [sk_active] are [backupPrefix] and the name of the active file; [sk_queue] are
    the backups whose compression was queued, [sk_archive] every backup made, oldest first. *)
Record sink := {
  sk_host : sink_host;
  sk_active : jstr;
  sk_prefix : jstr;
  sk_enabled : bool;
  sk_currentSize : nat;
  sk_lastRotationTime : Z;
  sk_reported : list jstr;
  sk_output : list sink_line;
  sk_queue : list jstr;
  sk_archive : list jstr;
}.

Definition with_host (h : sink_host) (s : sink) : sink :=
  {| sk_host := h; sk_active := sk_active s; sk_prefix := sk_prefix s; sk_enabled := sk_enabled s;
     sk_currentSize := sk_currentSize s; sk_lastRotationTime := sk_lastRotationTime s; sk_reported := sk_reported s;
     sk_output := sk_output s; sk_queue := sk_queue s; sk_archive := sk_archive s |}.

(** [reportFailure]: each distinct message once, to [console.error]. *)
Definition failure_message (operation detail : jstr) : jstr := js "[denoforge/logger] " ++ operation ++ js ": " ++ detail.
Definition reportFailure (operation detail : jstr) (s : sink) : sink :=
  let message := failure_message operation detail in
  if bool_decide (message ∈ sk_reported s) then s
  else {| sk_host := sk_host s; sk_active := sk_active s; sk_prefix := sk_prefix s; sk_enabled := sk_enabled s;
          sk_currentSize := sk_currentSize s; sk_lastRotationTime := sk_lastRotationTime s;
          sk_reported := sk_reported s ++ [message]; sk_output := sk_output s; sk_queue := sk_queue s;
          sk_archive := sk_archive s |}.

(** [removeBackup]: the new state and whether the file is gone. *)
Definition removeBackup (name : jstr) (s : sink) : sink * bool :=
  match call (λ h, with_files (file_delete name (sh_files h)) h) (sk_host s) with
  | (h, Ok _) => (with_host h s, true)
  | (h, Err e) => (reportFailure (js "backup removal failed") e (with_host h s), false)
  end.

(** The expiry loop: what is left of [backups]. *)
Fixpoint expire (cutoff : Z) (l : list (jstr * Z)) (s : sink) : sink * list (jstr * Z) :=
  match l with
  | [] => (s, [])
  | b :: l =>
      if (cutoff <=? b.2)%Z then let '(s', r) := expire cutoff l s in (s', b :: r)
      else
        let '(s1, gone) := removeBackup b.1 s in
        let '(s', r) := expire cutoff l s1 in (s', if gone then r else b :: r)
  end.

Definition newest_first (a b : jstr * Z) : bool := (b.2 <=? a.2)%Z.

Definition pruneBackups (r : ResolvedRotation) (s : sink) : sink :=
  match listBackups (sk_prefix s) (sk_host s) with
  | (h, Err e) => reportFailure (js "backup retention scan failed") e (with_host h s)
  | (h, Ok backups) =>
      let s := with_host h s in
      let '(s, backups) :=
        if (0 <? rr_maxAge r)%Z
        then expire (now (sh_step h) - rr_maxAge r * MILLIS_PER_DAY) backups s
        else (s, backups) in
      if (rr_maxBackups r =? 0)%Z || (Z.of_nat (length backups) <=? rr_maxBackups r)%Z then s
      else foldl (λ s b, (removeBackup b.1 s).1) s (drop (Z.to_nat (rr_maxBackups r)) (sort newest_first backups))
  end.

(** [rotateActiveFile]: an error leaves the state as far as it got.  The sink is disabled then, so
    the rotation time an error leaves behind is never read.  The loop of [nextBackupPath] always
    finds a name ([next_free_ends]): running out of fuel is an error that does not happen. *)
Definition rotateActiveFile (r : ResolvedRotation) (s : sink) : sink * res jstr unit :=
  match nextBackupPath (sk_prefix s) (sk_lastRotationTime s) (sk_host s) with
  | (h, Err e) => (with_host h s, Err e)
  | (h, Ok None) => (with_host h s, Err (js "no free backup name"))
  | (h, Ok (Some (backup, time))) =>
      let timed h := {| sk_host := h; sk_active := sk_active s; sk_prefix := sk_prefix s; sk_enabled := sk_enabled s;
                        sk_currentSize := sk_currentSize s; sk_lastRotationTime := time; sk_reported := sk_reported s;
                        sk_output := sk_output s; sk_queue := sk_queue s; sk_archive := sk_archive s |} in
      match call (rename_file (sk_active s) backup) h with
      | (h1, Err e) => (timed h1, Err e)
      | (h1, Ok _) =>
          let moved h := {| sk_host := h; sk_active := sk_active s; sk_prefix := sk_prefix s; sk_enabled := sk_enabled s;
                            sk_currentSize := sk_currentSize s; sk_lastRotationTime := time; sk_reported := sk_reported s;
                            sk_output := sk_output s; sk_queue := sk_queue s; sk_archive := sk_archive s ++ [backup] |} in
          match prepareActiveFile (sk_active s) h1 with
          | (h2, Err e) => (moved h2, Err e)
          | (h2, Ok _) =>
              let fresh := {| sk_host := h2; sk_active := sk_active s; sk_prefix := sk_prefix s;
                              sk_enabled := sk_enabled s; sk_currentSize := 0; sk_lastRotationTime := time;
                              sk_reported := sk_reported s; sk_output := sk_output s;
                              sk_queue := if rr_compress r then sk_queue s ++ [backup] else sk_queue s;
                              sk_archive := sk_archive s ++ [backup] |} in
              (pruneBackups r fresh, Ok tt)
          end
      end
  end.

Definition line_bytes (line : jstr) : list N := utf8_encode (line ++ [10%N]).

Definition exceeds (r : ResolvedRotation) (n : nat) : bool :=
  match rr_maxSizeBytes r with Some m => (m <? Z.of_nat n)%Z | None => false end.

Definition set_enabled (b : bool) (s : sink) : sink :=
  {| sk_host := sk_host s; sk_active := sk_active s; sk_prefix := sk_prefix s; sk_enabled := b;
     sk_currentSize := sk_currentSize s; sk_lastRotationTime := sk_lastRotationTime s; sk_reported := sk_reported s;
     sk_output := sk_output s; sk_queue := sk_queue s; sk_archive := sk_archive s |}.

Definition emit (l : sink_line) (s : sink) : sink :=
  {| sk_host := sk_host s; sk_active := sk_active s; sk_prefix := sk_prefix s; sk_enabled := sk_enabled s;
     sk_currentSize := sk_currentSize s; sk_lastRotationTime := sk_lastRotationTime s; sk_reported := sk_reported s;
     sk_output := sk_output s ++ [l]; sk_queue := sk_queue s; sk_archive := sk_archive s |}.

(** The [try] of the returned function: the rotation when the line does not fit, then the line. *)
Definition write_line (r : ResolvedRotation) (line : jstr) (s : sink) : sink * res jstr unit :=
  let bs := line_bytes line in
  let '(s1, rotated) :=
    if rr_enable r && negb (sk_currentSize s =? 0) && exceeds r (sk_currentSize s + length bs)
    then rotateActiveFile r s else (s, Ok tt) in
  match rotated with
  | Err e => (s1, Err e)
  | Ok _ =>
      match appendBytes (sk_active s1) bs (sk_host s1) with
      | (h, Err e) => (with_host h s1, Err e)
      | (h, Ok _) =>
          ({| sk_host := h; sk_active := sk_active s1; sk_prefix := sk_prefix s1; sk_enabled := sk_enabled s1;
              sk_currentSize := sk_currentSize s1 + length bs; sk_lastRotationTime := sk_lastRotationTime s1;
              sk_reported := sk_reported s1; sk_output := sk_output s1; sk_queue := sk_queue s1;
              sk_archive := sk_archive s1 |}, Ok tt)
      end
  end.

(** The function [newFileSink] returns; [tee] says whether there is one. *)
Definition sink_write (r : ResolvedRotation) (tee : bool) (line : jstr) (s : sink) : sink :=
  let '(s1, wroteToFile) :=
    if sk_enabled s then
      match write_line r line s with
      | (s1, Ok _) => (s1, true)
      | (s1, Err e) => (reportFailure (js "file write failed; using stdout") e (set_enabled false s1), false)
      end
    else (s, false) in
  if tee then emit (ToTee line) s1 else if wroteToFile then s1 else emit (ToConsole line) s1.

(** [newFileSink] on a directory. *)
Definition newFileSink (dir fileName : jstr) (files : list (jstr * file)) : sink :=
  let h0 := {| sh_files := files; sh_step := 0 |} in
  let start active prefix enabled size h :=
    {| sk_host := h; sk_active := active; sk_prefix := prefix; sk_enabled := enabled; sk_currentSize := size;
       sk_lastRotationTime := 0; sk_reported := []; sk_output := []; sk_queue := []; sk_archive := [] |} in
  let unavailable active prefix e h :=
    reportFailure (js "file sink unavailable; using stdout") e (start active prefix false 0 h) in
  match normalizeFileName fileName with
  | Err e => unavailable [] [] e h0
  | Ok name =>
      match joinPath dir name with
      | Err e => unavailable [] [] e h0
      | Ok _ =>
          let prefix := stripLogExtension name ++ [45%N] in
          match bind (prepareActiveFile name) (λ _, call nothing) h0 with
          | (h, Err e) => unavailable name prefix e h
          | (h, Ok _) =>
              start name prefix true (match file_get name (sh_files h) with Some f => length (fl_bytes f) | None => 0 end) h
          end
      end
  end.

Definition sink_lines (r : ResolvedRotation) (tee : bool) (lines : list jstr) (s : sink) : sink :=
  foldl (λ s line, sink_write r tee line s) s lines.

(** ** Directories *)

Lemma file_get_delete n m files : file_get n (file_delete m files) = if bool_decide (n = m) then None else file_get n files.
Proof.
  unfold file_get, file_delete. induction files as [|[k f] files IH]; simpl; [by case_bool_decide|].
  destruct (decide (k = m)) as [->|Hk].
  - rewrite bool_decide_true by done. cbn [negb]. rewrite IH. destruct (decide (n = m)) as [->|Hn].
    + by rewrite !bool_decide_true.
    + by rewrite !(bool_decide_false (_ = _)).
  - rewrite bool_decide_false by done. cbn [negb find_first fst]. destruct (decide (k = n)) as [->|Hkn].
    + rewrite (bool_decide_true (n = n)) by done. by rewrite bool_decide_false.
    + rewrite (bool_decide_false (k = n)) by done. by rewrite IH.
Qed.

Lemma file_get_update n m f files : is_Some (file_get m files) →
  file_get n (file_update m f files) = if bool_decide (n = m) then Some f else file_get n files.
Proof.
  unfold file_get, file_update. induction files as [|[k g] files IH]; intros Hs; simpl in *; [by destruct Hs|].
  destruct (decide (k = m)) as [->|Hk].
  - rewrite (bool_decide_true (m = m)) by done. simpl. destruct (decide (n = m)) as [->|Hn].
    + by rewrite !(bool_decide_true (m = m)).
    + rewrite !(bool_decide_false (m = n)), (bool_decide_false (n = m)) by done.
      clear IH Hs. induction files as [|[k' g'] files IH]; simpl; [done|].
      destruct (decide (k' = m)) as [->|Hk']; simpl.
      * rewrite (bool_decide_true (m = m)) by done. simpl. by rewrite !(bool_decide_false (m = n)).
      * rewrite (bool_decide_false (k' = m)) by done. simpl. by destruct (bool_decide (k' = n)).
  - rewrite (bool_decide_false (k = m)) in Hs |- * by done. simpl in *. destruct (decide (k = n)) as [->|Hkn].
    + rewrite !(bool_decide_true (n = n)) by done. by rewrite bool_decide_false.
    + rewrite !(bool_decide_false (k = n)) by done. by apply IH.
Qed.

Lemma file_get_snoc n m f files : file_get m files = None →
  file_get n (files ++ [(m, f)]) = if bool_decide (n = m) then Some f else file_get n files.
Proof.
  unfold file_get. induction files as [|[k g] files IH]; simpl; intros Hm.
  - destruct (decide (n = m)) as [->|Hn]; [by rewrite !bool_decide_true|]. by rewrite !bool_decide_false.
  - destruct (decide (k = m)) as [->|Hk]; [by rewrite bool_decide_true in Hm|]. rewrite bool_decide_false in Hm by done.
    destruct (decide (k = n)) as [->|Hkn].
    + rewrite !(bool_decide_true (n = n)) by done. by rewrite bool_decide_false.
    + rewrite !(bool_decide_false (k = n)) by done. by apply IH.
Qed.

Lemma file_get_elem n files : file_get n files = None ↔ n ∉ map fst files.
Proof.
  unfold file_get. induction files as [|[k g] files IH]; simpl; [split; [intros _; apply not_elem_of_nil|done]|].
  rewrite not_elem_of_cons. case_bool_decide; simpl; [split; [done|naive_solver]|]. rewrite IH. naive_solver.
Qed.

(** ** Effects of the host *)

Lemma create_file_spec name h : let h' := create_file name h in
  is_Some (file_get name (sh_files h')) ∧ (∀ n, is_Some (file_get n (sh_files h)) → file_get n (sh_files h') = file_get n (sh_files h)) ∧
  (∀ n, n ≠ name → file_get n (sh_files h') = file_get n (sh_files h)) ∧
  (file_get name (sh_files h) = None → ∃ f, file_get name (sh_files h') = Some f ∧ fl_bytes f = []).
Proof.
  simpl. unfold create_file. destruct (file_get name (sh_files h)) as [f|] eqn:E; [split_and!; eauto; naive_solver|].
  simpl. split_and!.
  - rewrite file_get_snoc by done. rewrite bool_decide_true by done. eauto.
  - intros n [g Hg]. rewrite file_get_snoc by done. rewrite bool_decide_false; [done|]. intros ->. congruence.
  - intros n Hn. rewrite file_get_snoc by done. by rewrite bool_decide_false.
  - intros _. rewrite file_get_snoc by done. rewrite bool_decide_true by done. eauto.
Qed.

(** What the directory holds under a name. *)
Definition content (n : jstr) (h : sink_host) : list N := match file_get n (sh_files h) with Some f => fl_bytes f | None => [] end.

Definition present (n : jstr) (h : sink_host) : Prop := is_Some (file_get n (sh_files h)).

(** [h'] agrees with [h] on every name but [name]. *)
Definition agree_off (name : jstr) (h h' : sink_host) : Prop := ∀ n, n ≠ name → file_get n (sh_files h') = file_get n (sh_files h).

Lemma append_to_spec name bs h : present name h → let h' := append_to name bs h in
  present name h' ∧ content name h' = content name h ++ bs ∧ agree_off name h h'.
Proof.
  intros [f Hf]. unfold present, content, agree_off, append_to. rewrite Hf. simpl.
  rewrite file_get_update, bool_decide_true by eauto. split_and!; [eauto|done|].
  intros n Hn. rewrite file_get_update by eauto. by rewrite bool_decide_false.
Qed.

(** The bytes of a write that fails are a prefix of the line. *)
Lemma write_all_spec active bs room : ∀ h, length bs ≤ room → present active h →
  let '(h', r) := write_all room active bs h in
  ∃ done, done `prefix_of` bs ∧ content active h' = content active h ++ done ∧ agree_off active h h' ∧ present active h' ∧
    match r with Ok _ => done = bs | Err _ => True end.
Proof.
  revert bs. induction room as [|room IH]; intros bs h Hl Hp; [destruct bs; [|simpl in Hl; lia]|destruct bs as [|b bs]];
    [simpl; exists []; rewrite app_nil_r; by split_and!..|].
  cbn [write_all]. set (k := max 1 (min (chunk (sh_step h)) (length (b :: bs)))). unfold bind, call.
  destruct (fault (sh_step h)); [exists []; rewrite app_nil_r; split_and!; try done; apply prefix_nil|].
  set (h0 := {| sh_files := sh_files h; sh_step := S (sh_step h) |}).
  destruct (append_to_spec active (take k (b :: bs)) h0 Hp) as (H1 & H2 & H3).
  specialize (IH (drop k (b :: bs)) (append_to active (take k (b :: bs)) h0)). rewrite length_drop in IH.
  destruct (write_all room active _ _) as [h' r]. destruct IH as (d & Hd & Hc & Ha & Hq & Hr); [unfold k; simpl in *; lia|done|].
  exists (take k (b :: bs) ++ d). split_and!.
  - rewrite <- (take_drop k (b :: bs)) at 2. by apply prefix_app.
  - rewrite Hc, H2. by rewrite <- app_assoc.
  - intros n Hn. rewrite Ha by done. by apply H3.
  - done.
  - destruct r; [|done]. by rewrite Hr, take_drop.
Qed.

Lemma create_file_content name h : let h' := create_file name h in
  present name h' ∧ agree_off name h h' ∧ content name h' = content name h.
Proof.
  destruct (create_file_spec name h) as (H1 & H2 & H3 & H4). simpl. split_and!; [done|done|]. unfold content.
  destruct (file_get name (sh_files h)) as [f|] eqn:E; [rewrite H2 by (rewrite E; eauto); by rewrite E|].
  destruct (H4 eq_refl) as (f & -> & Hf). by rewrite Hf.
Qed.

Lemma appendBytes_spec active bs h : let '(h', r) := appendBytes active bs h in
  ∃ done, done `prefix_of` bs ∧ content active h' = content active h ++ done ∧ agree_off active h h' ∧
    match r with Ok _ => done = bs ∧ present active h' | Err _ => True end.
Proof.
  unfold appendBytes, bind, call. destruct (fault (sh_step h)); [exists []; rewrite app_nil_r; split_and!; try done; apply prefix_nil|].
  destruct (create_file_content active {| sh_files := sh_files h; sh_step := S (sh_step h) |}) as (H1 & H2 & H3).
  pose proof (write_all_spec active bs (length bs) _ (Nat.le_refl _) H1) as Hw.
  destruct (write_all _ _ _ _) as [h' r]. destruct Hw as (d & Hd & Hc & Ha & Hp & Hr). exists d. split_and!; [done|..].
  - by rewrite Hc, H3.
  - intros n Hn. rewrite Ha by done. by apply H2.
  - by destruct r.
Qed.

Lemma prepare_spec active h : let '(h', r) := prepareActiveFile active h in
  agree_off active h h' ∧ content active h' = content active h ∧ match r with Ok _ => present active h' | Err _ => True end.
Proof.
  unfold prepareActiveFile, bind, call. destruct (fault (sh_step h)); simpl; [done|]. destruct (fault _); simpl; [done|].
  destruct (fault _); simpl; [done|].
  match goal with |- context [create_file active ?g] => destruct (create_file_content active g) as (H1 & H2 & H3) end.
  by destruct (fault _); simpl.
Qed.

Lemma rename_spec old new f h : file_get old (sh_files h) = Some f → new ≠ old → file_get new (sh_files h) = None →
  let h' := rename_file old new h in
  file_get new (sh_files h') = Some f ∧ file_get old (sh_files h') = None ∧
  ∀ n, n ≠ old → n ≠ new → file_get n (sh_files h') = file_get n (sh_files h).
Proof.
  intros Hf Hne Hn. simpl. unfold rename_file. rewrite Hf. simpl.
  assert (Hd : file_get new (file_delete old (file_delete new (sh_files h))) = None).
  { rewrite !file_get_delete, (bool_decide_true (new = new)) by done. by case_bool_decide. }
  rewrite !file_get_snoc by done. split_and!.
  - by rewrite bool_decide_true.
  - rewrite bool_decide_false by done. rewrite file_get_delete. by rewrite bool_decide_true.
  - intros n H1 H2. rewrite file_get_snoc by done. rewrite !file_get_delete. by rewrite !bool_decide_false.
Qed.

(** [s'] differs from [s] at most in what was reported and in entries outside [P]. *)
Record keeps (P : jstr → Prop) (s s' : sink) : Prop := {
  k_active : sk_active s' = sk_active s;
  k_prefix : sk_prefix s' = sk_prefix s;
  k_enabled : sk_enabled s' = sk_enabled s;
  k_size : sk_currentSize s' = sk_currentSize s;
  k_output : sk_output s' = sk_output s;
  k_archive : sk_archive s' = sk_archive s;
  k_files : ∀ n, P n → file_get n (sh_files (sk_host s')) = file_get n (sh_files (sk_host s));
}.

Lemma keeps_refl P s : keeps P s s.
Proof. by split. Qed.

Lemma keeps_trans P s1 s2 s3 : keeps P s1 s2 → keeps P s2 s3 → keeps P s1 s3.
Proof. intros [] []. split; try congruence. intros n Hn. rewrite k_files1, k_files0; done. Qed.

Lemma keeps_report P o e s s' : keeps P s s' → keeps P s (reportFailure o e s').
Proof. intros []. unfold reportFailure. case_bool_decide; by split. Qed.

Lemma keeps_host (P : jstr → Prop) h s : (∀ n, P n → file_get n (sh_files h) = file_get n (sh_files (sk_host s))) →
  keeps P s (with_host h s).
Proof. by split. Qed.

Lemma removeBackup_keeps (P : jstr → Prop) name s : ¬ P name → keeps P s (removeBackup name s).1.
Proof.
  intros Hn. unfold removeBackup, call. simpl. destruct (fault _); simpl.
  - apply keeps_report, keeps_host. done.
  - apply keeps_host. intros n HP. simpl. rewrite file_get_delete. rewrite bool_decide_false; [done|]. by intros ->.
Qed.

Lemma expire_keeps (P : jstr → Prop) cutoff l : ∀ s, Forall (λ b, ¬ P b.1) l →
  keeps P s (expire cutoff l s).1 ∧ Forall (λ b, ¬ P b.1) (expire cutoff l s).2.
Proof.
  induction l as [|b l IH]; intros s Hl; simpl; [split; [apply keeps_refl|done]|]. apply Forall_cons in Hl as [Hb Hl].
  destruct (cutoff <=? b.2)%Z.
  - destruct (expire cutoff l s) as [s' r] eqn:E. specialize (IH s Hl). rewrite E in IH. destruct IH. split; [done|]. by constructor.
  - destruct (removeBackup b.1 s) as [s1 gone] eqn:E1. destruct (expire cutoff l s1) as [s' r] eqn:E.
    specialize (IH s1 Hl). rewrite E in IH. destruct IH as [H1 H2]. simpl. split.
    + eapply keeps_trans; [|exact H1]. pose proof (removeBackup_keeps P b.1 s Hb) as H. by rewrite E1 in H.
    + destruct gone; [done|]. by constructor.
Qed.

Lemma remove_all_keeps (P : jstr → Prop) (l : list (jstr * Z)) : ∀ s, Forall (λ b, ¬ P b.1) l →
  keeps P s (foldl (λ s b, (removeBackup b.1 s).1) s l).
Proof.
  induction l as [|b l IH]; intros s Hl; simpl; [apply keeps_refl|]. apply Forall_cons in Hl as [Hb Hl].
  eapply keeps_trans; [by apply (removeBackup_keeps P b.1)|by apply IH].
Qed.

Lemma stat_all_spec l : ∀ h, sh_files (stat_all l h).1 = sh_files h ∧
  ∀ r, (stat_all l h).2 = Ok r → map fst r = map fst l.
Proof.
  induction l as [|[name f] l IH]; intros h; simpl; [split; [done|]; by intros r [= <-]|].
  unfold bind, call. destruct (fault (sh_step h)); simpl; [done|].
  specialize (IH {| sh_files := sh_files h; sh_step := S (sh_step h) |}).
  destruct (stat_all l _) as [h' [r|e]]; simpl in *; destruct IH as [H1 H2]; (split; [done|]); [|done].
  intros r' [= <-]. simpl. by rewrite (H2 r).
Qed.

Lemma listBackups_spec prefix h : sh_files (listBackups prefix h).1 = sh_files h ∧
  ∀ r, (listBackups prefix h).2 = Ok r → map fst r = map fst (List.filter (is_backup prefix) (sh_files h)).
Proof.
  unfold listBackups, bind, call. destruct (fault (sh_step h)); simpl; [done|].
  exact (stat_all_spec (List.filter (is_backup prefix) (sh_files h)) {| sh_files := sh_files h; sh_step := S (sh_step h) |}).
Qed.

(** Retention only removes entries whose name starts with the prefix. *)
Lemma prune_keeps r s : keeps (λ n, startsWith n (sk_prefix s) = false) s (pruneBackups r s).
Proof.
  unfold pruneBackups. destruct (listBackups_spec (sk_prefix s) (sk_host s)) as [H1 H2].
  destruct (listBackups _ _) as [h [backups|e]] eqn:E; simpl in *; [|apply keeps_report, keeps_host; intros n _; by rewrite H1].
  specialize (H2 _ eq_refl).
  set (P := λ n, startsWith n (sk_prefix s) = false).
  assert (Hb : Forall (λ b : jstr * Z, ¬ P b.1) backups).
  { apply Forall_forall. intros b Hb HP. assert (Hin : b.1 ∈ map fst backups) by (apply list_elem_of_fmap; eauto).
    rewrite H2 in Hin. apply list_elem_of_fmap in Hin as (p & Hp & Hin). apply list_elem_of_In, filter_In in Hin as [_ Hin].
    unfold is_backup in Hin. bool_inv. unfold P in HP. rewrite Hp in HP. congruence. }
  assert (Hk : keeps P s (with_host h s)) by (apply keeps_host; intros n _; by rewrite H1).
  destruct (if (0 <? rr_maxAge r)%Z then _ else _) as [s2 left] eqn:E2.
  assert (Hs2 : keeps P (with_host h s) s2 ∧ Forall (λ b : jstr * Z, ¬ P b.1) left).
  { destruct (0 <? rr_maxAge r)%Z; [|injection E2 as <- <-; split; [apply keeps_refl|done]].
    pose proof (expire_keeps P (now (sh_step h) - rr_maxAge r * MILLIS_PER_DAY) backups (with_host h s) Hb) as Hx.
    by rewrite E2 in Hx. }
  destruct Hs2 as [Hs2 Hleft]. eapply keeps_trans; [exact Hk|]. eapply keeps_trans; [exact Hs2|].
  destruct (_ || _); [apply keeps_refl|]. apply remove_all_keeps, Forall_drop.
  eapply Permutation_Forall; [symmetry; apply sort_perm|done].
Qed.

(** With both limits off, retention removes nothing. *)
Lemma prune_off r s : rr_maxAge r = 0%Z → rr_maxBackups r = 0%Z → keeps (λ _, True) s (pruneBackups r s).
Proof.
  intros Ha Hb. unfold pruneBackups. rewrite Ha, Hb. destruct (listBackups_spec (sk_prefix s) (sk_host s)) as [H1 _].
  destruct (listBackups _ _) as [h [backups|e]] eqn:E; simpl in *.
  - apply keeps_host. intros n _. by rewrite H1.
  - apply keeps_report, keeps_host. intros n _. by rewrite H1.
Qed.
(** ** Rotation *)

Lemma next_free_spec prefix fuel : ∀ ms h, let '(h', r) := next_free fuel prefix ms h in
  sh_files h' = sh_files h ∧
  match r with Ok (Some (b, t)) => b = backup_name prefix t ∧ (ms <= t)%Z ∧ file_get b (sh_files h) = None | _ => True end.
Proof.
  induction fuel as [|fuel IH]; intros ms h; simpl; [done|]. unfold bind, call. destruct (fault (sh_step h)); simpl; [done|].
  destruct (file_get (backup_name prefix ms) (sh_files h)) eqn:E; simpl; [|split_and!; done || lia].
  specialize (IH (ms + 1)%Z {| sh_files := sh_files h; sh_step := S (sh_step h) |}).
  destruct (next_free fuel prefix (ms + 1) _) as [h' [[[b t]|]|e]]; simpl in *; [|tauto..].
  destruct IH as (H1 & H2 & H3 & H4). split_and!; done || lia.
Qed.

(** The names of the backups of different times differ. *)
Lemma timestamp_fields ms : timestamp ms = print_fields (iso_fields ms) (js "--T--.").
Proof.
  unfold timestamp, toISOString. change (js "--T::.Z") with (js "--T::." ++ [90%N]). rewrite (print_fields_last (iso_fields ms) (js "--T::.") 90 eq_refl), removelast_last.
  rewrite print_fields_map; [done|]. intros c Hc. case_match; lia.
Qed.

Lemma backup_name_inj prefix a b : iso_year a → iso_year b → backup_name prefix a = backup_name prefix b → a = b.
Proof.
  unfold backup_name. intros Ha Hb E. apply app_inv_head, app_inv_tail in E. rewrite !timestamp_fields in E.
  apply print_fields_inj in E; [|done|simpl; lia|by apply iso_fields_range..]. apply toISOString_inj; [done|done|].
  unfold toISOString. by rewrite E.
Qed.

Lemma next_free_None prefix fuel : ∀ ms h, (next_free fuel prefix ms h).2 = Ok None →
  Forall (λ i, present (backup_name prefix (ms + Z.of_nat i)%Z) h) (seq 0 fuel).
Proof.
  induction fuel as [|fuel IH]; intros ms h H; simpl; [done|]. simpl in H. unfold bind, call in H. destruct (fault (sh_step h)); [done|].
  simpl in H. destruct (file_get (backup_name prefix ms) (sh_files h)) eqn:E; [|done].
  constructor; [unfold present; rewrite Z.add_0_r; eauto|]. apply IH in H. rewrite Forall_forall in H |- *.
  intros i Hi. apply elem_of_seq in Hi. specialize (H (i - 1)). unfold present in *. simpl in H.
  replace (ms + Z.of_nat i)%Z with (ms + 1 + Z.of_nat (i - 1))%Z by lia. apply H, elem_of_seq. lia.
Qed.

(** A free name is found among one more name than there are entries. *)
Lemma next_free_some prefix ms h : (0 <= ms)%Z → (ms + Z.of_nat (length (sh_files h)) < 253402300800000)%Z →
  (next_free (S (length (sh_files h))) prefix ms h).2 ≠ Ok None.
Proof.
  intros H0 H1 H%next_free_None. set (names := map (λ i, backup_name prefix (ms + Z.of_nat i)%Z) (seq 0 (S (length (sh_files h))))).
  assert (Hnd : NoDup names).
  { apply NoDup_ListNoDup, NoDup_map_NoDup_ForallPairs; [|apply seq_NoDup]. intros i j Hi%in_seq Hj%in_seq E.
    apply backup_name_inj in E; [lia|apply iso_year_range; lia..]. }
  assert (Hsub : names ⊆ map fst (sh_files h)).
  { intros n Hn. apply list_elem_of_In, in_map_iff in Hn as (i & <- & Hi). rewrite Forall_forall in H.
    apply list_elem_of_In, H in Hi as [f Hf]. destruct (decide (backup_name prefix (ms + Z.of_nat i) ∈ map fst (sh_files h))) as [|Hno]; [done|].
    apply file_get_elem in Hno. congruence. }
  apply NoDup_submseteq in Hsub; [|done]. apply submseteq_length in Hsub. unfold names in Hsub.
  rewrite !length_map, length_seq in Hsub. lia.
Qed.

(** The bytes written so far, in order: the backups, oldest first, and the active file. *)
Definition log (s : sink) : list N :=
  concat (map (λ n, content n (sk_host s)) (sk_archive s)) ++ content (sk_active s) (sk_host s).

(** What an enabled sink knows of its active file. *)
Definition sink_inv (s : sink) : Prop := sk_enabled s = true →
  startsWith (sk_active s) (sk_prefix s) = false ∧ present (sk_active s) (sk_host s) ∧
  sk_currentSize s = length (content (sk_active s) (sk_host s)).

Record archive_inv (s : sink) : Prop := {
  ai_NoDup : NoDup (sk_archive s);
  ai_present : Forall (λ n, present n (sk_host s)) (sk_archive s);
  ai_prefix : Forall (λ n, startsWith n (sk_prefix s) = true) (sk_archive s);
}.

Definition retention_off (r : ResolvedRotation) : Prop := rr_maxAge r = 0%Z ∧ rr_maxBackups r = 0%Z.

Lemma backup_name_prefix prefix t : startsWith (backup_name prefix t) prefix = true.
Proof. apply startsWith_app. Qed.

Lemma concat_content ns h h' : (∀ n, n ∈ ns → file_get n (sh_files h') = file_get n (sh_files h)) →
  map (λ n, content n h') ns = map (λ n, content n h) ns.
Proof. intros H. apply map_ext_in. intros n Hn. unfold content. by rewrite H by by apply list_elem_of_In. Qed.

Lemma archive_off_active s : startsWith (sk_active s) (sk_prefix s) = false → archive_inv s → sk_active s ∉ sk_archive s.
Proof. intros Hp [_ _ Ha] Hin. rewrite Forall_forall in Ha. apply Ha in Hin. congruence. Qed.

(** A step that keeps the backups and appends [bs] to the active file appends [bs] to the log. *)
Lemma log_active s s' bs : startsWith (sk_active s) (sk_prefix s) = false → archive_inv s →
  sk_active s' = sk_active s → sk_prefix s' = sk_prefix s → sk_archive s' = sk_archive s →
  agree_off (sk_active s) (sk_host s) (sk_host s') →
  content (sk_active s) (sk_host s') = content (sk_active s) (sk_host s) ++ bs →
  archive_inv s' ∧ log s' = log s ++ bs.
Proof.
  intros Hp Ha E1 E2 E3 Hag Hc. pose proof (archive_off_active s Hp Ha) as Hoff. destruct Ha as [A1 A2 A3]. split.
  - split; rewrite E3; [done| |by rewrite E2]. rewrite Forall_forall in A2 |- *. intros n Hn. unfold present.
    rewrite Hag; [by apply A2|]. by intros ->.
  - unfold log. rewrite E1, E3, Hc, app_assoc. f_equal. f_equal. f_equal. apply concat_content. intros n Hn. apply Hag. by intros ->.
Qed.

Lemma log_keeps s s' : keeps (λ _, True) s s' → archive_inv s → archive_inv s' ∧ log s' = log s.
Proof.
  intros [K1 K2 _ _ _ K6 K7] [A1 A2 A3]. split.
  - split; rewrite K6; [done| |by rewrite K2]. eapply Forall_impl; [exact A2|]. intros n [f Hf]. exists f. by rewrite K7.
  - unfold log. rewrite K1, K6. f_equal; [f_equal; apply concat_content; intros n _; by apply K7|]. unfold content. by rewrite K7.
Qed.

(** The state after [renameSync]: the active file is the newest backup. *)
Definition moved (backup : jstr) (time : Z) (h : sink_host) (s : sink) : sink :=
  {| sk_host := h; sk_active := sk_active s; sk_prefix := sk_prefix s; sk_enabled := sk_enabled s;
     sk_currentSize := sk_currentSize s; sk_lastRotationTime := time; sk_reported := sk_reported s;
     sk_output := sk_output s; sk_queue := sk_queue s; sk_archive := sk_archive s ++ [backup] |}.

Lemma rename_present old new h : present old h → new ≠ old → file_get new (sh_files h) = None →
  let h' := rename_file old new h in
  content new h' = content old h ∧ present new h' ∧ content old h' = [] ∧
  ∀ n, n ≠ old → n ≠ new → file_get n (sh_files h') = file_get n (sh_files h).
Proof.
  intros [f Hf] Hne Hn. destruct (rename_spec old new f h Hf Hne Hn) as (H1 & H2 & H3). unfold content, present.
  rewrite H1, H2, Hf. split_and!; eauto.
Qed.

Lemma log_moved s h backup time : startsWith (sk_active s) (sk_prefix s) = false → archive_inv s →
  sh_files h = sh_files (sk_host s) → present (sk_active s) (sk_host s) →
  file_get backup (sh_files h) = None → startsWith backup (sk_prefix s) = true →
  let s' := moved backup time (rename_file (sk_active s) backup h) s in archive_inv s' ∧ log s' = log s.
Proof.
  intros Hp Ha Hh Hpr Hfree Hb. pose proof (archive_off_active s Hp Ha) as Hoff. destruct Ha as [A1 A2 A3].
  assert (Hnew : backup ∉ sk_archive s).
  { intros Hin. rewrite Forall_forall in A2. destruct (A2 _ Hin) as [f Hf]. rewrite Hh in Hfree. congruence. }
  assert (Hpa : present (sk_active s) h) by (unfold present; by rewrite Hh).
  destruct (rename_present (sk_active s) backup h) as (R1 & R2 & R3 & R4); [done|intros E; congruence|done|].
  assert (Hsame : ∀ n, n ∈ sk_archive s → file_get n (sh_files (rename_file (sk_active s) backup h)) = file_get n (sh_files (sk_host s))).
  { intros n Hn. rewrite <- Hh. apply R4; by intros ->. }
  simpl. split.
  - split; simpl.
    + apply NoDup_app. split_and!; [done| |apply NoDup_singleton]. intros x Hx ->%list_elem_of_singleton. done.
    + apply Forall_app. split; [|by constructor]. rewrite Forall_forall in A2 |- *. intros n Hn. unfold present.
      rewrite Hsame by done. by apply A2.
    + apply Forall_app. split; [done|by constructor].
  - unfold log. simpl. rewrite map_app, concat_app. simpl. rewrite R1, R3, !app_nil_r. f_equal.
    + f_equal. by apply concat_content.
    + unfold content. by rewrite Hh.
Qed.

Definition same_sink (s s' : sink) : Prop :=
  sk_active s' = sk_active s ∧ sk_prefix s' = sk_prefix s ∧ sk_enabled s' = sk_enabled s ∧ sk_output s' = sk_output s.

(** A rotation, whether it succeeds or not, loses no byte when retention is off; one that succeeds
    leaves an empty active file. *)
Lemma rotate_spec r s : sink_inv s → sk_enabled s = true →
  let '(s', res) := rotateActiveFile r s in
  same_sink s s' ∧
  match res with Ok _ => present (sk_active s') (sk_host s') ∧ content (sk_active s') (sk_host s') = [] ∧ sk_currentSize s' = 0 | Err _ => True end ∧
  (retention_off r → archive_inv s → archive_inv s' ∧ log s' = log s).
Proof.
  intros Hinv He. destruct (Hinv He) as (Hp & Hpr & _). unfold rotateActiveFile, nextBackupPath.
  pose proof (next_free_spec (sk_prefix s) (S (length (sh_files (sk_host s)))) (Z.max (now (sh_step (sk_host s))) (sk_lastRotationTime s + 1)) (sk_host s)) as Hn.
  destruct (next_free _ _ _ _) as [h [[[backup t]|]|e]]; simpl in Hn; destruct Hn as [Hh Hn];
    [|refine (conj _ (conj _ _)); [done|done|intros _; apply log_keeps, keeps_host; intros n _; by rewrite Hh]..].
  destruct Hn as (-> & _ & Hfree). rewrite <- Hh in Hfree. set (backup := backup_name (sk_prefix s) t) in *.
  unfold call at 1. destruct (fault (sh_step h)).
  { split_and!; [done..|]. intros _ Ha. eapply (log_keeps s); [|done]. split; try done. simpl. by rewrite Hh. }
  set (h0 := {| sh_files := sh_files h; sh_step := S (sh_step h) |}).
  assert (Hmv := λ Ha, log_moved s h0 backup t Hp Ha Hh Hpr Hfree (backup_name_prefix _ _)). simpl in Hmv.
  destruct (rename_present (sk_active s) backup h0) as (_ & _ & R3 & _);
    [unfold present; simpl; by rewrite Hh|intros E; pose proof (backup_name_prefix (sk_prefix s) t); unfold backup in E; congruence|done|].
  set (h1 := rename_file (sk_active s) backup h0) in *.
  pose proof (prepare_spec (sk_active s) h1) as Hpp. destruct (prepareActiveFile (sk_active s) h1) as [h2 [[]|e]]; destruct Hpp as (P1 & P2 & P3).
  - set (fresh := {| sk_host := h2; sk_active := sk_active s; sk_prefix := sk_prefix s |}).
    pose proof (prune_keeps r fresh) as Kp. assert (Kx := Kp). destruct Kx as [K1 K2 K3 K4 K5 K6 K7]. simpl in *.
    specialize (K7 (sk_active s) Hp). split_and!; [by split_and!| | |done|].
    + unfold present. by rewrite K1, K7.
    + unfold content. rewrite K1, K7. exact (eq_trans P2 R3).
    + intros [O1 O2] Ha. destruct (Hmv Ha) as [M1 M2].
      destruct (log_active (moved backup t h1 s) fresh [] Hp M1) as [L1 L2]; try done; [by rewrite app_nil_r|].
      destruct (log_keeps _ _ (prune_off r fresh O1 O2) L1) as [L3 L4]. split; [done|]. by rewrite L4, L2, app_nil_r.
  - split_and!; [done..|]. intros _ Ha. destruct (Hmv Ha) as [M1 M2].
    destruct (log_active (moved backup t h1 s) (moved backup t h2 s) [] Hp M1) as [L1 L2]; try done; [by rewrite app_nil_r|].
    split; [exact L1|]. rewrite app_nil_r in L2. by rewrite <- M2, <- L2.
Qed.

(** ** The sink *)

(** One write, by whether the sink is still enabled after it. *)
Lemma write_line_spec r line s : sink_inv s → sk_enabled s = true →
  let '(s', res) := write_line r line s in
  same_sink s s' ∧
  match res with Ok _ => sink_inv s' | Err _ => True end ∧
  (retention_off r → archive_inv s → archive_inv s' ∧
    ∃ done, done `prefix_of` line_bytes line ∧ log s' = log s ++ done ∧ match res with Ok _ => done = line_bytes line | Err _ => True end).
Proof.
  intros Hi He. unfold write_line.
  set (p := if rr_enable r && negb (sk_currentSize s =? 0) && exceeds r (sk_currentSize s + length (line_bytes line))
            then rotateActiveFile r s else (s, Ok tt)).
  assert (Hp : let '(s1, rot) := p in same_sink s s1 ∧
    match rot with Ok _ => sink_inv s1 | Err _ => True end ∧
    (retention_off r → archive_inv s → archive_inv s1 ∧ log s1 = log s)).
  { unfold p. destruct (_ && _); [|by split_and!]. pose proof (rotate_spec r s Hi He) as Hr.
    destruct (rotateActiveFile r s) as [s1 [[]|e]]; destruct Hr as ((S1 & S2 & S3 & S4) & R & Hl); split_and!; try done.
    destruct R as (R1 & R2 & R3). intros _. split_and!; [|done|by rewrite R2, R3]. rewrite S1, S2. by destruct (Hi He). }
  destruct p as [s1 [[]|e]]; destruct Hp as (Hs & Hi1 & Hl);
    [|refine (conj Hs (conj I _)); intros Hoff Ha; destruct (Hl Hoff Ha) as [L1 L2]; split; [done|];
      exists []; rewrite app_nil_r; split_and!; [apply prefix_nil|done|done]].
  destruct Hs as (S1 & S2 & S3 & S4). destruct (Hi1 (eq_trans S3 He)) as (I1 & I2 & I3).
  pose proof (appendBytes_spec (sk_active s1) (line_bytes line) (sk_host s1)) as Hap.
  destruct (appendBytes _ _ _) as [h [u|e]]; destruct Hap as (d & D1 & D2 & D3 & D4); (split_and!; [by split_and!| |]).
  - destruct D4 as [-> D4]. intros _. simpl. split_and!; [done|done|]. by rewrite D2, length_app, I3.
  - intros Hoff Ha. destruct (Hl Hoff Ha) as [L1 L2]. 
    match goal with |- archive_inv ?x ∧ _ => destruct (log_active s1 x d I1 L1) as [M1 M2]; try done end.
    split; [exact M1|]. exists d. destruct D4 as [-> _]. split_and!; [done| |done]. by rewrite M2, L2.
  - done.
  - intros Hoff Ha. destruct (Hl Hoff Ha) as [L1 L2]. destruct (log_active s1 (with_host h s1) d I1 L1) as [M1 M2]; try done.
    split; [done|]. exists d. split_and!; [done| |done]. by rewrite M2, L2.
Qed.

(** The line as the sink hands it on. *)
Definition handed (tee wrote : bool) (line : jstr) : list sink_line :=
  if tee then [ToTee line] else if wrote then [] else [ToConsole line].

Lemma sink_write_spec r tee line s : sink_inv s → archive_inv s → retention_off r →
  let s' := sink_write r tee line s in
  sink_inv s' ∧ archive_inv s' ∧
  ∃ done, done `prefix_of` line_bytes line ∧ log s' = log s ++ done ∧
    (sk_enabled s' = true → done = line_bytes line) ∧ (sk_enabled s = false → sk_enabled s' = false ∧ done = []) ∧
    sk_output s' = sk_output s ++ handed tee (sk_enabled s') line.
Proof.
  intros Hi Ha Hoff. unfold sink_write, handed. destruct (sk_enabled s) eqn:He.
  - pose proof (write_line_spec r line s Hi He) as Hw. destruct (write_line r line s) as [s1 [u|e]];
      destruct Hw as ((S1 & S2 & S3 & S4) & W1 & W2); destruct (W2 Hoff Ha) as (A & d & D1 & D2 & D3).
    + destruct tee; simpl; rewrite S3, He; (split_and!; [exact W1|by destruct A|]); exists d;
        (split_and!; [done|done|done|done|]); simpl; rewrite S4; by rewrite ?app_nil_r.
    + set (s2 := reportFailure _ e (set_enabled false s1)).
      assert (K : keeps (λ _, True) (set_enabled false s1) s2) by apply keeps_report, keeps_refl.
      assert (A2 : archive_inv (set_enabled false s1)) by by destruct A.
      destruct (log_keeps _ _ K A2) as [L1 L2]. destruct K as [K1 K2 K3 K4 K5 K6 K7]. simpl in *.
      destruct tee; simpl; rewrite K3; (split_and!; [unfold sink_inv; simpl; congruence|by destruct L1|]); exists d;
        (split_and!; [done|by rewrite <- D2|congruence|congruence|by rewrite K5, S4]).
  - destruct tee; simpl; rewrite He; (split_and!; [unfold sink_inv; simpl; congruence|by destruct Ha|]); exists [];
      (split_and!; [apply prefix_nil|by rewrite app_nil_r|congruence|done|done]).
Qed.

(** Lines already filed or partly filed are in the log, the others were handed to the console. *)
Lemma sink_lines_spec r tee lines : ∀ s, sink_inv s → archive_inv s → retention_off r →
  let s' := sink_lines r tee lines s in
  ∃ filed rest torn, lines = filed ++ rest ∧ torn `prefix_of` flat_map line_bytes rest ∧
    log s' = log s ++ flat_map line_bytes filed ++ torn ∧
    sk_output s' = sk_output s ++ (if tee then map ToTee lines else map ToConsole rest) ∧
    (sk_enabled s' = true → rest = []) ∧ (sk_enabled s = false → sk_enabled s' = false ∧ filed = [] ∧ torn = []).
Proof.
  induction lines as [|line lines IH]; intros s Hi Ha Hoff; simpl.
  - exists [], [], []. simpl. rewrite !app_nil_r. split_and!; try done. by destruct tee; rewrite app_nil_r.
  - destruct (sink_write_spec r tee line s Hi Ha Hoff) as (Hi' & Ha' & d & D1 & D2 & D3 & D4 & D5).
    set (s1 := sink_write r tee line s) in *. destruct (IH s1 Hi' Ha' Hoff) as (filed & rest & torn & -> & R2 & R3 & R4 & R5 & R6).
    fold (sink_lines r tee (filed ++ rest) s1). destruct (sk_enabled s1) eqn:E1.
    + exists (line :: filed), rest, torn. split_and!; [done|done| | |done|].
      * rewrite R3, D2, D3 by done. simpl. by rewrite <- !app_assoc.
      * rewrite R4, D5. unfold handed. destruct tee; simpl; by rewrite <- ?app_assoc, ?app_nil_r.
      * intros He. by destruct (D4 He).
    + destruct (R6 eq_refl) as (R7 & -> & ->). exists [], (line :: rest), d. simpl in *. split_and!; [done| | | | |].
      * by apply prefix_app_r.
      * by rewrite R3, D2, app_nil_r.
      * rewrite R4, D5. unfold handed. destruct tee; simpl; by rewrite <- ?app_assoc.
      * congruence.
      * intros He. destruct (D4 He) as [_ ->]. done.
Qed.

Lemma sink_write_inv r tee line s : sink_inv s → sink_inv (sink_write r tee line s).
Proof.
  intros Hi. unfold sink_write. destruct (sk_enabled s) eqn:He.
  - pose proof (write_line_spec r line s Hi He) as Hw. destruct (write_line r line s) as [s1 [u|e]]; destruct Hw as (_ & W & _).
    + by destruct tee.
    + unfold reportFailure. case_bool_decide; destruct tee; unfold sink_inv; simpl; congruence.
  - destruct tee; unfold sink_inv; simpl; congruence.
Qed.

(** The active file never looks like one of its backups. *)
Lemma active_not_backup name : is_ascii name = true → startsWith name (stripLogExtension name ++ [45%N]) = false.
Proof.
  intros Hn. apply not_true_iff_false. intros [rest E]%startsWith_prefix. unfold stripLogExtension in E.
  destruct (endsWith (toLowerCase name) (js ".log")) eqn:Hl; [|apply (f_equal length) in E; rewrite !length_app in E; simpl in E; lia].
  rewrite toLowerCase_ascii in Hl by done. unfold endsWith in Hl. apply startsWith_prefix in Hl as [k Hk].
  apply (f_equal (λ l, rev l)) in Hk. rewrite rev_involutive, rev_app_distr, rev_involutive in Hk.
  assert (Hlen : length name = length (rev k) + 4) by (rewrite <- (length_map ascii_lower), Hk, length_app; done).
  assert (Hc : map ascii_lower (drop (length name - 4) name) = js ".log").
  { replace (length name - 4) with (length (rev k)) by lia.
    change (map ascii_lower) with (fmap (M := list) ascii_lower) in *. rewrite fmap_drop, Hk. by rewrite drop_app_length. }
  rewrite <- (take_drop (length name - 4) name) in E at 1. rewrite <- app_assoc in E. apply app_inv_head in E. rewrite E in Hc. done.
Qed.

Lemma normalizeFileName_ascii fileName name : is_ascii fileName = true → normalizeFileName fileName = Ok name → is_ascii name = true.
Proof.
  unfold normalizeFileName. intros Ha. destruct (_ || _); [done|]. intros [= <-]. rewrite is_ascii_Forall in Ha |- *.
  unfold trim. destruct (trim_start_split fileName) as (w1 & E1 & _), (trim_end_split (trim_start fileName)) as (w2 & E2 & _).
  rewrite E1, E2, !Forall_app in Ha. tauto.
Qed.

Lemma newFileSink_inv dir fileName files : is_ascii fileName = true →
  sink_inv (newFileSink dir fileName files) ∧ archive_inv (newFileSink dir fileName files).
Proof.
  intros Ha. unfold newFileSink.
  assert (Hd : ∀ s, sk_enabled s = false → sk_archive s = [] → ∀ o e, sink_inv (reportFailure o e s) ∧ archive_inv (reportFailure o e s)).
  { intros s E1 E2 o e. unfold reportFailure, sink_inv. case_bool_decide; (split; [simpl; congruence|]); split; simpl; rewrite E2; constructor. }
  destruct (normalizeFileName fileName) as [name|e] eqn:En; [|by apply Hd]. destruct (joinPath dir name) as [path|e]; [|by apply Hd].
  apply normalizeFileName_ascii in En; [|done].
  pose proof (prepare_spec name {| sh_files := files; sh_step := 0 |}) as Hp. unfold bind.
  destruct (prepareActiveFile _ _) as [h [u|e]]; [|by apply Hd]. destruct Hp as (_ & _ & Hp).
  unfold call. destruct (fault (sh_step h)); [by apply Hd|]. split; [|split; simpl; constructor].
  intros _. simpl. split_and!; [by apply active_not_backup|done|]. unfold nothing, content. simpl. by destruct Hp as [f ->].
Qed.

(** C0: with retention off, no line is lost, whatever calls of the file system fail and however
    few bytes a write takes.  The backups, oldest first, and the active file hold the bytes the
    file had, then the lines filed, in order and complete, then at most the start of the line whose
    write failed; every line the file does not hold was printed, and a sink still enabled has
    filed them all. *)
Theorem no_line_lost dir fileName files r tee lines : is_ascii fileName = true → retention_off r →
  let s := newFileSink dir fileName files in
  let s' := sink_lines r tee lines s in
  ∃ filed rest torn, lines = filed ++ rest ∧ torn `prefix_of` flat_map line_bytes rest ∧
    log s' = log s ++ flat_map line_bytes filed ++ torn ∧
    sk_output s' = sk_output s ++ (if tee then map ToTee lines else map ToConsole rest) ∧
    (sk_enabled s' = true → rest = []).
Proof.
  intros Ha Hoff. destruct (newFileSink_inv dir fileName files Ha) as [H1 H2].
  destruct (sink_lines_spec r tee lines _ H1 H2 Hoff) as (filed & rest & torn & R1 & R2 & R3 & R4 & R5 & _).
  by exists filed, rest, torn.
Qed.

(** The size after one write of an enabled sink. *)
Lemma sink_write_size r tee line s m : sink_inv s → rr_enable r = true → rr_maxSizeBytes r = Some m →
  sk_enabled (sink_write r tee line s) = true →
  (Z.of_nat (sk_currentSize (sink_write r tee line s)) <= Z.max m (Z.of_nat (length (line_bytes line))))%Z.
Proof.
  intros Hi Hen Hm. unfold sink_write. destruct (sk_enabled s) eqn:He; [|destruct tee; simpl; congruence].
  unfold write_line. set (p := if _ && _ && _ then _ else _).
  assert (Hp : match p with (s1, Ok _) => sk_currentSize s1 = 0 ∨ (sk_currentSize s1 = sk_currentSize s ∧
             (Z.of_nat (sk_currentSize s + length (line_bytes line)) <= m)%Z) | _ => True end).
  { unfold p, exceeds. rewrite Hen, Hm. simpl. destruct (sk_currentSize s =? 0) eqn:E0; simpl; [apply Nat.eqb_eq in E0; by left|].
    destruct (m <? Z.of_nat (sk_currentSize s + length (line_bytes line)))%Z eqn:Ex; [|right; split; [done|lia]].
    pose proof (rotate_spec r s Hi He) as Hr. destruct (rotateActiveFile r s) as [s1 [u|e]]; [|done].
    destruct Hr as (_ & (_ & _ & R) & _). by left. }
  destruct p as [s1 [u|e]].
  - destruct (appendBytes (sk_active s1) (line_bytes line) (sk_host s1)) as [h [u'|e]].
    + destruct tee; simpl; intros _; destruct Hp as [E|[E Hle]]; rewrite E; lia.
    + unfold reportFailure. case_bool_decide; destruct tee; simpl; congruence.
  - unfold reportFailure. case_bool_decide; destruct tee; simpl; congruence.
Qed.

(** C0: rotation bounds the active file: after a line is written to a sink still enabled, the file
    holds at most the larger of the maximum size and the length of this line. *)
Theorem rotation_bounds dir fileName files r tee lines line m : is_ascii fileName = true →
  rr_enable r = true → rr_maxSizeBytes r = Some m →
  let s := sink_lines r tee (lines ++ [line]) (newFileSink dir fileName files) in
  sk_enabled s = true →
  (Z.of_nat (length (content (sk_active s) (sk_host s))) <= Z.max m (Z.of_nat (length (line_bytes line))))%Z.
Proof.
  intros Ha Hen Hm. unfold sink_lines. rewrite foldl_app. simpl.
  destruct (newFileSink_inv dir fileName files Ha) as [H1 _].
  assert (Hi : ∀ ls s, sink_inv s → sink_inv (foldl (λ s line, sink_write r tee line s) s ls)).
  { induction ls as [|l ls IH]; intros s Hs; simpl; [done|]. by apply IH, sink_write_inv. }
  specialize (Hi lines _ H1). intros He. destruct (sink_write_inv r tee line _ Hi He) as (_ & _ & <-).
  by apply sink_write_size.
Qed.

(** C0: [nextBackupPath] ends: among one more time than the directory has entries there is one
    whose name is free.  The name it gives is free and its time is past the clock and the last
    rotation, so no backup is ever overwritten; the only other outcome is the error of a call. *)
Theorem nextBackupPath_ends prefix last h :
  let start := Z.max (now (sh_step h)) (last + 1) in
  (0 <= start)%Z → (start + Z.of_nat (length (sh_files h)) < 253402300800000)%Z →
  match (nextBackupPath prefix last h).2 with
  | Ok (Some (backup, time)) => backup = backup_name prefix time ∧ (start <= time)%Z ∧ file_get backup (sh_files h) = None
  | Ok None => False
  | Err _ => True
  end.
Proof.
  intros start H0 H1. pose proof (next_free_some prefix start h H0 H1) as Hs. unfold nextBackupPath. fold start.
  pose proof (next_free_spec prefix (S (length (sh_files h))) start h) as Hn.
  by destruct (next_free _ _ _ h) as [h' [[[b t]|]|e]]; destruct Hn as [_ Hn].
Qed.
End sink.

(** ** Runs *)

#[local] Existing Instance ascii_case.

Definition text_file (s : string) (modified : Z) : file := {| fl_bytes := js s; fl_modified := modified; fl_isFile := true |}.

(** Small limits: a rotation at 8 bytes, no retention. *)
Definition tiny : ResolvedRotation :=
  {| rr_enable := true; rr_maxSizeBytes := Some 8%Z; rr_maxBackups := 0; rr_maxAge := 0; rr_compress := false |}.

Definition clock (n : nat) : Z := 1700000000000 + Z.of_nat n.

(** Two of ten calls fail, three bytes a call. *)
Definition some_faults (n : nat) : option jstr := if bool_decide (n = 40) then Some (js "disk full") else None.

Example no_line_lost_witness : ∃ filed rest torn,
  let s := newFileSink some_faults clock (js "/var/log") (js "app.log") [(js "app.log", text_file "old" 5)] in
  let lines := [js "one"; js "second"; js "third"; js "fourth"] in
  let s' := sink_lines some_faults clock (λ _, 3) tiny false lines s in
  lines = filed ++ rest ∧ torn `prefix_of` flat_map line_bytes rest ∧
    log s' = log s ++ flat_map line_bytes filed ++ torn ∧
    sk_output s' = sk_output s ++ map ToConsole rest ∧ (sk_enabled s' = true → rest = []).
Proof.
  exact (no_line_lost some_faults clock (λ _, 3) (js "/var/log") (js "app.log") [(js "app.log", text_file "old" 5)] tiny false
           [js "one"; js "second"; js "third"; js "fourth"] eq_refl (conj eq_refl eq_refl)).
Defined.

Example rotation_bounds_witness :
  let s := sink_lines (λ _, None) clock (λ _, 3) tiny false ([js "one"; js "second"] ++ [js "third"])
             (newFileSink (λ _, None) clock (js "/var/log") (js "app.log") []) in
  sk_enabled s = true ∧ (Z.of_nat (length (content (sk_active s) (sk_host s))) <= Z.max 8 6)%Z.
Proof.
  split; [by vm_compute|].
  apply (rotation_bounds (λ _, None) clock (λ _, 3) (js "/var/log") (js "app.log") [] tiny false [js "one"; js "second"] (js "third") 8);
    by vm_compute.
Defined.

Example nextBackupPath_ends_witness :
  match (nextBackupPath (λ _, None) (λ _, 1700000000000%Z) (js "app-") 0
           {| sh_files := [(js "app-2023-11-14T22-13-20.000.log", text_file "taken" 1)]; sh_step := 0 |}).2 with
  | Ok (Some (backup, time)) => backup = backup_name (js "app-") time ∧ (1700000000000 <= time)%Z ∧
      file_get backup [(js "app-2023-11-14T22-13-20.000.log", text_file "taken" 1)] = None
  | Ok None => False
  | Err _ => True
  end.
Proof.
  apply (nextBackupPath_ends (λ _, None) (λ _, 1700000000000%Z) (λ _, 0) (js "app-") 0
           {| sh_files := [(js "app-2023-11-14T22-13-20.000.log", text_file "taken" 1)]; sh_step := 0 |}); simpl; lia.
Defined.

(** The run: one rotation leaves the old text in the backup. *)
Example rotation_run :
  let s := sink_lines (λ _, None) clock (λ _, 3) tiny false [js "one"; js "second"] (newFileSink (λ _, None) clock (js "d") (js "app.log") []) in
  (sk_archive s, content (js "app.log") (sk_host s), map (λ n, content n (sk_host s)) (sk_archive s), sk_currentSize s, sk_output s) =
  ([js "app-2023-11-14T22-13-20.008.log"], line_bytes (js "second"), [line_bytes (js "one")], 7, []).
Proof. vm_compute. reflexivity. Qed.

(** [listBackups] takes every file whose name starts with the prefix: with retention on, the sink of
    app.log removes app-worker.log, which is the active file of another sink. *)
Theorem foreign_log_removed :
  let r := {| rr_enable := true; rr_maxSizeBytes := Some 8%Z; rr_maxBackups := 1; rr_maxAge := 0; rr_compress := false |} in
  let files := [(js "app.log", text_file "12345678" 5); (js "app-worker.log", text_file "worker" 4)] in
  let s := sink_lines (λ _, None) clock (λ _, 3) r false [js "line"] (newFileSink (λ _, None) clock (js "d") (js "app.log") files) in
  file_get (js "app-worker.log") (sh_files (sk_host s)) = None ∧ sk_enabled s = true ∧ sk_reported s = [].
Proof. vm_compute. done. Qed.
