(* ===== verification/Logger.v ===== *)
(** * logger/builder/builder.ts: the logger

    A log call merges its attributes, drops the ignored headers, builds the entry, sanitizes it and
    hands the formatted line to the sink.  Attributes are the values of the sanitizer, whose objects
    are plain ones.  The date, the active span and the frames of the stack that match the pattern of
    [traceCaller] are read from the host. *)

From S2P Require Export Sanitizer Formatter FileSink.
Local Open Scope nat_scope.

Notation attrs := (list (jstr * logval)).

Definition TOP_LEVEL_ATTRS : list jstr := map js ["traceID"; "spanID"; "latency"; "services"; "process"]%string.
Definition DETAIL_ATTRS : list jstr :=
  map js ["system"; "client"; "protocol"; "method"; "path"; "headers"; "request"; "response"]%string.

Definition attr (o : attrs) (k : string) : logval := default LUndef (own_get (js k) o).
Definition is_undef (v : logval) : bool := match v with LUndef => true | _ => false end.
Definition lv_nullish (a b : logval) : logval := match a with LUndef | LNull => b | _ => a end.

(** [{...a, ...b}]. *)
Definition spread (a b : attrs) : attrs := foldl (λ o p, obj_set p.1 p.2 o) a b.

(** [normalizeLatency] and [normalizeProcessLatency] on the values of the logger. *)
Definition lv_latency (v : logval) : dbl := match v with LNum d => normalizeLatency (VNum d) | _ => dbl_of_Z 0 end.
Definition lv_process_latency (item : logval) : logval :=
  match item with
  | LObj o =>
      match own_get (js "latency") o with
      | Some v => LObj (obj_set (js "latency") (LNum (lv_latency v)) o)
      | None => item
      end
  | _ => item
  end.

Section logger.
Context `{CM : CaseMapping}.

(** ** Ignored headers *)

Definition normalizeIgnoredHeaders (headers : list jstr) : list jstr :=
  foldl (λ acc h, if bool_decide (h ∈ acc) then acc else acc ++ [h]) []
    (List.filter (λ h, negb (bool_decide (h = []))) (map (λ h, toLowerCase (trim h)) headers)).

Definition is_ignored (ignored : list jstr) (name : jstr) : bool := bool_decide (toLowerCase name ∈ ignored).

Definition filterHeaderEntries (ignored : list jstr) (entries : attrs) : attrs :=
  of_entries (List.filter (λ p, negb (is_ignored ignored p.1)) entries).

Definition header_values (entries : list (jstr * jstr)) : attrs := map (λ p, (p.1, LStr p.2)) entries.

(** The attribute whose object holds headers. *)
Definition is_headers (key : jstr) : bool := bool_decide (toLowerCase key = js "headers").

Fixpoint omitIgnoredHeadersValue (ignored : list jstr) (isHeadersAttribute : bool) (value : logval) : logval :=
  match value with
  | LHeaders entries => LObj (filterHeaderEntries ignored (header_values entries))
  | LArr l => LArr (map (omitIgnoredHeadersValue ignored false) l)
  | LObj o =>
      if isHeadersAttribute then LObj (filterHeaderEntries ignored o)
      else LObj (of_entries (map (λ p, (p.1, omitIgnoredHeadersValue ignored (is_headers p.1) p.2)) o))
  | _ => value
  end.

Definition omitIgnoredHeaders (value : logval) (ignored : list jstr) : logval :=
  if bool_decide (ignored = []) then value else omitIgnoredHeadersValue ignored false value.

Definition normalizeHeaders (value : logval) : logval :=
  match value with LHeaders entries => LObj (of_entries (header_values entries)) | _ => value end.

(** ** The caller *)

(** A matching frame: name, file and line. *)
Record frame := { fr_name : option jstr; fr_file : jstr; fr_line : Z }.
Record caller := { cl_method : jstr; cl_line : Z }.

Definition replace_char (a b : N) (s : jstr) : jstr := map (λ c, if (c =? a)%N then b else c) s.

Definition fileBaseName (file : jstr) : jstr :=
  let normalized := replace_char 92 47 file in
  match lastIndexOf normalized 47 with Some i => drop (S i) normalized | None => normalized end.

Definition isLoggerInternalFrame (file : jstr) : bool :=
  includes file (js "/logger/builder/builder.ts") || includes file (js "\logger\builder\builder.ts").

Definition DEFAULT_CALLER_SKIP_FILES : list jstr := [js "logging.ts"].
Definition shouldSkipCallerFile (file : jstr) : bool := bool_decide (fileBaseName file ∈ DEFAULT_CALLER_SKIP_FILES).

Definition unknown_caller : caller := {| cl_method := js "unknown"; cl_line := 0 |}.

(** The loop of [traceCaller]; [fallback] is the first frame outside the logger. *)
Fixpoint traceCaller (frames : list frame) (fallback : option caller) : caller :=
  match frames with
  | [] => default unknown_caller fallback
  | f :: frames =>
      if isLoggerInternalFrame (fr_file f) then traceCaller frames fallback
      else
        let c := {| cl_method := default (fileBaseName (fr_file f)) (fr_name f); cl_line := fr_line f |} in
        if shouldSkipCallerFile (fr_file f) then traceCaller frames (Some (default c fallback)) else c
  end.

(** ** The logger *)

Inductive sink_choice := SinkGiven | SinkFile (dir fileName : jstr) (rotate : RotateOptions) | SinkConsole.

Record Logger := {
  lg_level : LogLevel;
  lg_formatter : jstr;
  lg_formatDate : jstr;
  lg_sanitizer : list jstr;  (* the keys *)
  lg_ignoredHeaders : list jstr;
  lg_sink : sink_choice;
  lg_system : jstr;
  lg_base : attrs;
}.

(** The options; [lo_env] is the variable a logger without a sanitizer reads. *)
Record LoggerOptions := {
  lo_level : option LogLevel;
  lo_formatter : option jstr;
  lo_formatDate : option jstr;
  lo_sanitizer : option (list jstr);
  lo_env : option jstr;
  lo_ignoredHeaders : option (list jstr);
  lo_sink : bool;
  lo_dir : option jstr;
  lo_fileName : option jstr;
  lo_rotate : option RotateOptions;
  lo_service : option jstr;
  lo_base : option attrs;
}.

(** [a || b]. *)
Definition or_else (a b : jstr) : jstr := if bool_decide (a = []) then b else a.

Definition resolveSink (o : LoggerOptions) (serviceName : jstr) : sink_choice :=
  if lo_sink o then SinkGiven
  else
    match lo_dir o, lo_rotate o with
    | Some dir, Some rotate =>
        if negb (bool_decide (trim dir = [])) && default false (rt_enable rotate)
        then SinkFile dir (or_else (default [] (trim <$> lo_fileName o)) (or_else serviceName (js "denoforge") ++ js ".log")) rotate
        else SinkConsole
    | _, _ => SinkConsole
    end.

Definition initLogger (o : LoggerOptions) : Logger :=
  let system := default [] (lo_service o) in
  {| lg_level := default Info (lo_level o);
     lg_formatter := default [] (lo_formatter o);
     lg_formatDate := default DEFAULT_FORMAT_DATE (lo_formatDate o);
     lg_sanitizer := match lo_sanitizer o with Some keys => keys | None => sensibleKeysFromEnv (lo_env o) end;
     lg_ignoredHeaders := normalizeIgnoredHeaders (default [] (lo_ignoredHeaders o));
     lg_sink := resolveSink o system;
     lg_system := system;
     lg_base := default [] (lo_base o) |}.

Definition logger_with (lg : Logger) (a : attrs) : Logger :=
  {| lg_level := lg_level lg; lg_formatter := lg_formatter lg; lg_formatDate := lg_formatDate lg;
     lg_sanitizer := lg_sanitizer lg; lg_ignoredHeaders := lg_ignoredHeaders lg; lg_sink := lg_sink lg;
     lg_system := lg_system lg; lg_base := spread (lg_base lg) a |}.

(** What a call reads from the host: [testMode], the date, the active span and the stack. *)
Record moment := {
  mo_testMode : bool;
  mo_date : date;
  mo_span : option (jstr * jstr);
  mo_frames : list frame;
}.

Definition enabled (lg : Logger) (m : moment) (level : LogLevel) : bool :=
  negb (mo_testMode m) && (level_value (lg_level lg) <=? level_value level)%Z.

(** A key that does not go into the details as it is. *)
Definition is_lifted (k : jstr) : bool := bool_decide (k ∈ DETAIL_ATTRS) || bool_decide (k ∈ TOP_LEVEL_ATTRS).

Definition build_details (lg : Logger) (a : attrs) : attrs :=
  let details := [(js "system", match attr a "system" with LStr (_ :: _ as s) => LStr s | _ => LStr (lg_system lg) end)] in
  let details := foldl (λ d slot,
    match own_get slot a with
    | None | Some LUndef => d
    | Some v => if bool_decide (slot = js "system") then d
                else obj_set slot (if bool_decide (slot = js "headers") then normalizeHeaders v else v) d
    end) details DETAIL_ATTRS in
  foldl (λ d p, obj_set p.1 p.2 d) details
    (List.filter (λ p, negb (is_lifted p.1)) a).

Definition buildEntry (lg : Logger) (m : moment) (level : LogLevel) (message : jstr) (a : attrs) (c : caller) : attrs :=
  let services := lv_nullish (attr a "services") (attr a "process") in
  [(js "level", LStr (levelName level));
   (js "timestamp", LStr (formatTimestamp (mo_date m) (lg_formatDate lg)));
   (js "traceID", match attr a "traceID" with LStr s => LStr s | _ => LStr (default [] (fst <$> mo_span m)) end)]
  ++ match attr a "spanID" with
     | LStr s => if bool_decide (s = []) then [] else [(js "spanID", LStr s)]
     | _ => match mo_span m with
            | Some (_, spanId) => if bool_decide (spanId = []) then [] else [(js "spanID", LStr spanId)]
            | None => []
            end
     end
  ++ [(js "message", LStr message);
      (js "details", LObj (build_details lg a));
      (js "process", LArr match services with LArr l => map lv_process_latency l | _ => [] end);
      (js "method", LStr (cl_method c));
      (js "line", LNum (dbl_of_Z (cl_line c)));
      (js "latency", LNum (lv_latency (attr a "latency")))].

(** The attributes of a call over the ones of the logger, without the ignored headers. *)
Definition merged_attrs (lg : Logger) (a : attrs) : attrs :=
  match omitIgnoredHeaders (LObj (spread (lg_base lg) a)) (lg_ignoredHeaders lg) with LObj o => o | _ => [] end.

(** [#log]: the line handed to the sink, if any. *)
Definition log_line (lg : Logger) (m : moment) (level : LogLevel) (message : jstr) (a : attrs) : fmt (option jstr) :=
  if negb (enabled lg m level) then Ok None
  else
    let entry := buildEntry lg m level message (merged_attrs lg a) (traceCaller (mo_frames m) None) in
    match sanitize_value (lg_sanitizer lg) (LObj entry) with
    | LObj entry => let* line := format (lg_formatter lg) (map (λ p, (p.1, to_json p.2)) entry) in Ok (Some line)
    | _ => Ok None
    end.

(** ** Secrets *)

Section secrets.
Context (sensitive : list jstr).

(** Two property lists with the same keys in the same order, related values under each key. *)
Definition entries_rel {V} (R : jstr → V → V → Prop) (o1 o2 : list (jstr * V)) : Prop :=
  Forall2 (λ p q, p.1 = q.1 ∧ R p.1 p.2 q.2) o1 o2.

(** The values agree down to [n] levels, except under names, where both are present. *)
Fixpoint public_eq (n : nat) (v w : logval) : Prop :=
  match n with
  | O => v = w
  | S n =>
      match v, w with
      | LArr l1, LArr l2 => Forall2 (public_eq n) l1 l2
      | LObj o1, LObj o2 => entries_rel (λ k a b, if isSensitive sensitive k then is_undef a = is_undef b else public_eq n a b) o1 o2
      | LHeaders h1, LHeaders h2 => entries_rel (λ k a b, isSensitive sensitive k = false → a = b) h1 h2
      | _, _ => v = w
      end
  end.

(** The relation on the values of one object. *)
Definition under (n : nat) (k : jstr) (a b : logval) : Prop :=
  if isSensitive sensitive k then is_undef a = is_undef b else public_eq n a b.

Lemma entries_rel_refl {V} (R : jstr → V → V → Prop) o : (∀ k a, R k a a) → entries_rel R o o.
Proof. intros HR. induction o; constructor; auto. Qed.

Lemma public_eq_refl n v : public_eq n v v.
Proof.
  revert v. induction n as [|n IH]; [done|]. intros v. destruct v as [| | | | | |l|o|h]; try done; simpl.
  - by induction l; constructor.
  - apply entries_rel_refl. intros k a. by destruct (isSensitive _ _).
  - by apply entries_rel_refl.
Qed.

Lemma under_refl n k a : under n k a a.
Proof. unfold under. destruct (isSensitive _ _); [done|apply public_eq_refl]. Qed.

Lemma rel_get {V} (R : jstr → V → V → Prop) o1 o2 k : entries_rel R o1 o2 →
  match own_get k o1, own_get k o2 with Some a, Some b => R k a b | None, None => True | _, _ => False end.
Proof.
  induction 1 as [|[k1 a] [k2 b] o1 o2 [E HR] _ IH]; simpl in *; [done|]. subst k2. case_bool_decide as Hk; [by subst|done].
Qed.

Lemma rel_set {V} (R : jstr → V → V → Prop) o1 o2 k a b : R k a b → entries_rel R o1 o2 → entries_rel R (obj_set k a o1) (obj_set k b o2).
Proof.
  intros HR H. unfold obj_set. pose proof (rel_get R o1 o2 k H) as Hg.
  destruct (own_get k o1), (own_get k o2); try done; clear Hg.
  - induction H as [|[k1 x] [k2 y] o1 o2 [E Hxy] H IH]; simpl in *; [constructor|]. subst k2. case_bool_decide as Hk.
    + subst k1. by constructor.
    + by constructor.
  - induction H as [|[k1 x] [k2 y] o1 o2 [E Hxy] H IH]; simpl in *; [by repeat constructor|]. subst k2.
    destruct (match array_index k with Some n => _ | None => _ end); [by repeat constructor|]. by constructor.
Qed.

Lemma rel_sets {V} (R : jstr → V → V → Prop) l1 l2 : entries_rel R l1 l2 → ∀ o1 o2, entries_rel R o1 o2 →
  entries_rel R (foldl (λ o p, obj_set p.1 p.2 o) o1 l1) (foldl (λ o p, obj_set p.1 p.2 o) o2 l2).
Proof.
  induction 1 as [|[k a] [k2 b] l1 l2 [E HR] _ IH]; intros o1 o2 Ho; simpl in *; [done|]. subst k2. apply IH, rel_set; done.
Qed.

Lemma rel_entries {V} (R : jstr → V → V → Prop) l1 l2 : entries_rel R l1 l2 → entries_rel R (of_entries l1) (of_entries l2).
Proof. intros H. apply rel_sets; [done|constructor]. Qed.

Lemma rel_filter {V} (R : jstr → V → V → Prop) (P : jstr → bool) l1 l2 : entries_rel R l1 l2 →
  entries_rel R (List.filter (λ p, P p.1) l1) (List.filter (λ p, P p.1) l2).
Proof. induction 1 as [|[k a] [k2 b] l1 l2 [E HR] _ IH]; simpl in *; [constructor|]. subst k2. destruct (P k); [by constructor|done]. Qed.

Lemma rel_map {V W} (R : jstr → V → V → Prop) (R' : jstr → W → W → Prop) (f g : jstr → V → W) l1 l2 :
  (∀ k a b, R k a b → R' k (f k a) (g k b)) → entries_rel R l1 l2 →
  entries_rel R' (map (λ p, (p.1, f p.1 p.2)) l1) (map (λ p, (p.1, g p.1 p.2)) l2).
Proof. intros Hf. induction 1 as [|[k a] [k2 b] l1 l2 [E HR] _ IH]; simpl in *; constructor; simpl in *; subst; auto. Qed.

Lemma rel_eq {V} (l1 l2 : list (jstr * V)) : entries_rel (λ _ a b, a = b) l1 l2 → l1 = l2.
Proof. induction 1 as [|[k a] [k2 b] l1 l2 [E1 E2] _ IH]; simpl in *; [done|]. by subst. Qed.

(** Sanitizing forgets what the relation ignores. *)
Lemma redact_public n v w : public_eq n v w → redact sensitive n v = redact sensitive n w.
Proof.
  revert v w. induction n as [|n IH]; intros v w H; simpl in H; [by subst|].
  destruct v as [| | | | | |l1|o1|h1], w as [| | | | | |l2|o2|h2]; try (by injection H as ->); try done; simpl.
  - f_equal. induction H; simpl; [done|]. f_equal; auto.
  - do 2 f_equal. apply rel_eq. eapply (rel_map _ _ (λ k a, if isSensitive sensitive k then LStr REDACTED else redact sensitive n a)
      (λ k a, if isSensitive sensitive k then LStr REDACTED else redact sensitive n a)); [|exact H].
    intros k a b Hab. simpl in *. destruct (isSensitive sensitive k); [done|]. by apply IH.
  - do 2 f_equal. unfold sanitize_headers. f_equal. apply rel_eq. eapply (rel_map _ _ (λ k a, if isSensitive sensitive k then REDACTED else a)
      (λ k a, if isSensitive sensitive k then REDACTED else a)); [|exact H].
    intros k a b Hab. simpl in *. destruct (isSensitive sensitive k); [done|]. by apply Hab.
Qed.

Lemma public_eq_S n v w : public_eq n v w → public_eq (S n) v w.
Proof.
  revert v w. induction n as [|n IH]; intros v w H; [simpl in H; subst; apply public_eq_refl|].
  destruct v as [| | | | | |l1|o1|h1], w as [| | | | | |l2|o2|h2]; try (by injection H as ->); try done; cbn [public_eq] in *.
  - eapply Forall2_impl; [exact H|]. apply IH.
  - eapply Forall2_impl; [exact H|]. intros [k a] [k2 b] [E Hab]. simpl in *. split; [done|]. destruct (isSensitive _ _); [done|]. by apply IH.
Qed.

Lemma public_undef n v w : public_eq n v w → is_undef v = is_undef w.
Proof. destruct n; simpl; [by intros ->|]. by destruct v, w. Qed.

Lemma under_undef n k a b : under n k a b → is_undef a = is_undef b.
Proof. unfold under. destruct (isSensitive _ _); [done|apply public_undef]. Qed.

Lemma header_values_rel n h1 h2 : entries_rel (λ k a b, isSensitive sensitive k = false → a = b) h1 h2 →
  entries_rel (under n) (header_values h1) (header_values h2).
Proof.
  apply (rel_map _ _ (λ _ a, LStr a) (λ _ b, LStr b)). intros k a b H. unfold under. destruct (isSensitive _ _); [done|].
  rewrite H by done. apply public_eq_refl.
Qed.

Lemma omit_undef ignored b v : is_undef (omitIgnoredHeadersValue ignored b v) = is_undef v.
Proof. destruct v; simpl; try done. by destruct b. Qed.

Lemma omit_public ignored n : ∀ b v w, public_eq n v w →
  public_eq n (omitIgnoredHeadersValue ignored b v) (omitIgnoredHeadersValue ignored b w).
Proof.
  induction n as [|n IH]; intros b v w H; [simpl in H; subst; done|].
  destruct v as [| | | | | |l1|o1|h1], w as [| | | | | |l2|o2|h2]; try (injection H as ->; apply public_eq_refl); try done; cbn [public_eq omitIgnoredHeadersValue] in *.
  - induction H; simpl; constructor; auto.
  - destruct b; simpl.
    + apply (rel_entries (under n)). apply (rel_filter (under n) (λ k, negb (is_ignored ignored k))). exact H.
    + apply (rel_entries (under n)). eapply (rel_map (under n) (under n)
        (λ k a, omitIgnoredHeadersValue ignored (is_headers k) a)
        (λ k a, omitIgnoredHeadersValue ignored (is_headers k) a)); [|exact H].
      intros k x y Hxy. unfold under in *. destruct (isSensitive _ _); [by rewrite !omit_undef|by apply IH].
  - apply (rel_entries (under n)), (rel_filter (under n) (λ k, negb (is_ignored ignored k))).
    by apply header_values_rel.
Qed.

Lemma normalizeHeaders_under n k a b : under n k a b → under n k (normalizeHeaders a) (normalizeHeaders b).
Proof.
  intros H. pose proof (under_undef _ _ _ _ H) as Hu. unfold under in *. destruct (isSensitive _ _); [by destruct a, b|].
  destruct n as [|n]; [simpl in H; subst; done|].
  destruct a as [| | | | | |l1|o1|h1], b as [| | | | | |l2|o2|h2]; try done. simpl normalizeHeaders. cbn [public_eq] in *.
  apply (rel_entries (under n)). by apply header_values_rel.
Qed.

(** A text field of two related values. *)
Lemma attr_rel n a1 a2 k : entries_rel (under n) a1 a2 → under n (js k) (attr a1 k) (attr a2 k).
Proof.
  intros H. unfold attr. pose proof (rel_get _ _ _ (js k) H) as Hg.
  destruct (own_get (js k) a1), (own_get (js k) a2); try done. apply under_refl.
Qed.

Lemma build_details_rel lg n a1 a2 : entries_rel (under n) a1 a2 →
  entries_rel (under n) (build_details lg a1) (build_details lg a2).
Proof.
  intros H. unfold build_details. apply rel_sets; [by apply (rel_filter _ (λ k, negb (is_lifted k)))|].
  set (f := λ (a : attrs) d slot, match own_get slot a with None | Some LUndef => d | Some v =>
      if bool_decide (slot = js "system") then d else obj_set slot (if bool_decide (slot = js "headers") then normalizeHeaders v else v) d end).
  assert (Hf : ∀ slots d1 d2, entries_rel (under n) d1 d2 → entries_rel (under n) (foldl (f a1) d1 slots) (foldl (f a2) d2 slots)).
  { induction slots as [|slot slots IH]; intros d1 d2 Hd; [done|]. cbn [foldl]. apply IH. unfold f.
    pose proof (rel_get _ _ _ slot H) as Hg. destruct (own_get slot a1) as [v|], (own_get slot a2) as [w|]; try done.
    pose proof (under_undef _ _ _ _ Hg) as Hu.
    assert (Hs : entries_rel (under n)
      (if bool_decide (slot = js "system") then d1 else obj_set slot (if bool_decide (slot = js "headers") then normalizeHeaders v else v) d1)
      (if bool_decide (slot = js "system") then d2 else obj_set slot (if bool_decide (slot = js "headers") then normalizeHeaders w else w) d2)).
    { case_bool_decide; [done|]. apply rel_set; [|done]. case_bool_decide; [by apply normalizeHeaders_under|done]. }
    destruct v, w; try done; exact Hs. }
  apply Hf. repeat constructor. cbn [snd]. pose proof (attr_rel n a1 a2 "system" H) as Hsys. unfold under in *.
  destruct (isSensitive _ _); [by destruct (attr a1 "system") as [| | | |[]| | | |], (attr a2 "system") as [| | | |[]| | | |]|].
  destruct n as [|n]; [simpl in Hsys; rewrite Hsys; apply public_eq_refl|].
  destruct (attr a1 "system") as [| | | |s1| | | |], (attr a2 "system") as [| | | |s2| | | |]; try done; try apply public_eq_refl.
  injection Hsys as ->. apply public_eq_refl.
Qed.

Lemma lv_latency_public n v w : public_eq n v w → lv_latency v = lv_latency w.
Proof. destruct n; simpl; [by intros ->|]. by destruct v, w; simpl; intros; simplify_eq. Qed.

Lemma process_latency_public n v w : public_eq n v w → public_eq n (lv_process_latency v) (lv_process_latency w).
Proof.
  destruct n as [|n]; [simpl; by intros ->|]. intros H.
  destruct v as [| | | | | |l1|o1|h1], w as [| | | | | |l2|o2|h2]; try done; cbn [public_eq lv_process_latency] in *.
  pose proof (rel_get (under n) o1 o2 (js "latency") H) as Hg.
  destruct (own_get (js "latency") o1) as [a|], (own_get (js "latency") o2) as [b|]; try done.
  apply (rel_set (under n)); [|exact H]. unfold under in *. destruct (isSensitive _ _); [done|].
  rewrite (lv_latency_public n a b Hg). apply public_eq_refl.
Qed.

(** The entries of two calls with the same public part. *)
Lemma buildEntry_rel lg m level message n a1 a2 c :
  isSensitive sensitive (js "spanID") = false → isSensitive sensitive (js "services") = false →
  entries_rel (under n) a1 a2 →
  public_eq (S (S n)) (LObj (buildEntry lg m level message a1 c)) (LObj (buildEntry lg m level message a2 c)).
Proof.
  intros Hspan Hserv H. change (entries_rel (under (S n)) (buildEntry lg m level message a1 c) (buildEntry lg m level message a2 c)).
  assert (Htext : ∀ k, entries_rel (under n) a1 a2 → isSensitive sensitive (js k) = false →
    ∀ s, attr a1 k = LStr s ↔ attr a2 k = LStr s).
  { intros k _ Hk s. pose proof (attr_rel n a1 a2 k H) as Ha. unfold under in Ha. rewrite Hk in Ha.
    destruct n; simpl in Ha; [by rewrite Ha|]. destruct (attr a1 k), (attr a2 k); try done; by rewrite Ha. }
  unfold buildEntry. apply Forall2_app; [|apply Forall2_app].
  - repeat constructor; cbn [fst snd]; try apply under_refl. unfold under. destruct (isSensitive sensitive (js "traceID")) eqn:E.
    + by destruct (attr a1 "traceID"), (attr a2 "traceID").
    + specialize (Htext "traceID"%string H E). destruct (attr a1 "traceID") as [| | | |s1| | | |] eqn:E1.
      5: { rewrite (proj1 (Htext s1) eq_refl). apply public_eq_refl. }
      all: destruct (attr a2 "traceID") as [| | | |s2| | | |] eqn:E2; try apply public_eq_refl;
        by pose proof (proj2 (Htext s2) eq_refl).
  - specialize (Htext "spanID"%string H Hspan).
    assert (E : match attr a1 "spanID" with LStr s => Some s | _ => None end = match attr a2 "spanID" with LStr s => Some s | _ => None end).
    { destruct (attr a1 "spanID") as [| | | |s1| | | |] eqn:E1; [| | | |by rewrite (proj1 (Htext s1) eq_refl)| | | |];
        destruct (attr a2 "spanID") as [| | | |s2| | | |]; try done; by pose proof (proj2 (Htext s2) eq_refl). }
    match goal with |- Forall2 _ ?x ?y => assert (x = y) as -> end; [|apply entries_rel_refl; intros; apply under_refl].
    destruct (attr a1 "spanID"), (attr a2 "spanID"); try done. by injection E as ->.
  - constructor; [split; [done|apply under_refl]|]. constructor; [split; [done|]|].
    { unfold under. cbn [snd fst]. destruct (isSensitive sensitive (js "details")); [done|]. by apply build_details_rel. }
    constructor; [split; [done|]|].
    { unfold under. cbn [snd fst]. destruct (isSensitive sensitive (js "process")) eqn:E; [done|].
      pose proof (attr_rel n a1 a2 "services" H) as H1. pose proof (attr_rel n a1 a2 "process" H) as H2. unfold under in H1, H2.
      rewrite Hserv in H1. rewrite E in H2.
      assert (Hx : public_eq n (lv_nullish (attr a1 "services") (attr a1 "process")) (lv_nullish (attr a2 "services") (attr a2 "process"))).
      { destruct n; [simpl in *; by rewrite H1, H2|]. destruct (attr a1 "services"), (attr a2 "services"); done. }
      apply public_eq_S in Hx. set (x := lv_nullish _ _) in *. set (y := lv_nullish (attr a2 "services") _) in *. clearbody x y.
      destruct x as [| | | | | |l1|o1|h1], y as [| | | | | |l2|o2|h2]; try done; cbn [public_eq] in *; try constructor.
      induction Hx as [|v w l1 l2 Hvw _ IH]; simpl; constructor; [|done].
      by apply process_latency_public. }
    repeat constructor; cbn [fst snd]; try apply under_refl. pose proof (attr_rel n a1 a2 "latency" H) as Hl. unfold under in *.
    destruct (isSensitive sensitive (js "latency")); [done|]. rewrite (lv_latency_public n _ _ Hl). apply public_eq_refl.
Qed.

Lemma merged_rel lg n a1 a2 : entries_rel (under n) a1 a2 → entries_rel (under n) (merged_attrs lg a1) (merged_attrs lg a2).
Proof.
  intros H. assert (Hs : entries_rel (under n) (spread (lg_base lg) a1) (spread (lg_base lg) a2)).
  { apply rel_sets; [done|]. apply entries_rel_refl. intros k a. apply under_refl. }
  unfold merged_attrs, omitIgnoredHeaders. case_bool_decide; [done|].
  exact (omit_public (lg_ignoredHeaders lg) (S n) false (LObj _) (LObj _) Hs).
Qed.

Lemma redact_merged lg m level message n a1 a2 c :
  isSensitive sensitive (js "spanID") = false → isSensitive sensitive (js "services") = false → entries_rel (under n) a1 a2 →
  redact sensitive (S (S n)) (LObj (buildEntry lg m level message (merged_attrs lg a1) c)) =
  redact sensitive (S (S n)) (LObj (buildEntry lg m level message (merged_attrs lg a2) c)).
Proof. intros Hspan Hserv H. by apply redact_public, buildEntry_rel, merged_rel. Qed.
End secrets.

(** C15. A log line says nothing about the values under sensitive names: two calls whose attributes
    agree except in those values, at any depth the sanitizer reaches, give the same line, in every
    format and with every template, or throw the same error.  The names [spanID] and [services],
    which the logger lifts into properties of other names or drops when empty, must not be
    sensitive themselves. *)
Theorem log_hides_secrets lg m level message a1 a2 :
  isSensitive (lg_sanitizer lg) (js "spanID") = false → isSensitive (lg_sanitizer lg) (js "services") = false →
  entries_rel (under (lg_sanitizer lg) 30) a1 a2 → log_line lg m level message a1 = log_line lg m level message a2.
Proof.
  intros Hspan Hserv H. unfold log_line. destruct (negb (enabled lg m level)); [done|].
  unfold sanitize_value. change MAX_DEPTH with (S (S 30)).
  by rewrite (redact_merged (lg_sanitizer lg) lg m level message 30 a1 a2).
Qed.

(** ** Ignored headers *)

Fixpoint header_free (ignored : list jstr) (isHeadersAttribute : bool) (v : logval) : Prop :=
  match v with
  | LHeaders _ => False
  | LArr l => foldr (λ v P, header_free ignored false v ∧ P) True l
  | LObj o =>
      if isHeadersAttribute then Forall (λ p, is_ignored ignored p.1 = false) o
      else foldr (λ p P, header_free ignored (is_headers p.1) p.2 ∧ P) True o
  | _ => True
  end.

(** No headers to leave out. *)
Fixpoint no_headers (v : logval) : Prop :=
  match v with
  | LHeaders _ => False
  | LArr l => foldr (λ v P, no_headers v ∧ P) True l
  | LObj o => ordered o ∧ foldr (λ p P, (is_headers p.1 = false ∧ no_headers p.2) ∧ P) True o
  | _ => True
  end.

Lemma filter_entries_free ignored entries : Forall (λ p, is_ignored ignored p.1 = false) (filterHeaderEntries ignored entries).
Proof.
  apply of_entries_Forall, Forall_forall. intros p Hp. apply list_elem_of_In, filter_In in Hp as [_ Hp].
  by destruct (is_ignored ignored p.1).
Qed.

Section logval_ind.
Context (P : logval → Prop).
Context (HU : P LUndef) (HN : P LNull) (HB : ∀ b, P (LBool b)) (HD : ∀ d, P (LNum d)) (HS : ∀ s, P (LStr s))
  (HO : ∀ s, P (LOther s)) (HA : ∀ l, Forall P l → P (LArr l)) (HJ : ∀ o, Forall (λ p, P p.2) o → P (LObj o))
  (HH : ∀ h, P (LHeaders h)).

Fixpoint logval_ind' (v : logval) : P v :=
  match v with
  | LUndef => HU | LNull => HN | LBool b => HB b | LNum d => HD d | LStr s => HS s | LOther s => HO s
  | LArr l => HA l ((fix go l : Forall P l := match l with [] => List.Forall_nil _ | v :: l => List.Forall_cons _ _ _ (logval_ind' v) (go l) end) l)
  | LObj o => HJ o ((fix go o : Forall (λ p, P p.2) o :=
                       match o with [] => List.Forall_nil _ | p :: o => List.Forall_cons (λ p, P p.2) _ _ (logval_ind' p.2) (go o) end) o)
  | LHeaders h => HH h
  end.
End logval_ind.

Lemma omit_free ignored v : ∀ b, header_free ignored b (omitIgnoredHeadersValue ignored b v).
Proof.
  induction v as [| | | | | |l IH|o IH|h] using logval_ind'; intros isH; try done.
  - simpl. apply foldr_and_Forall, Forall_map. eapply Forall_impl; [exact IH|]. auto.
  - destruct isH; simpl; [apply filter_entries_free|]. apply foldr_and_Forall, of_entries_Forall, Forall_map.
    eapply Forall_impl; [exact IH|]. auto.
  - simpl. destruct isH; [apply filter_entries_free|]. apply foldr_and_Forall, of_entries_Forall, Forall_forall.
    intros p Hp. apply list_elem_of_In, filter_In in Hp as [Hp _]. apply in_map_iff in Hp as (q & <- & _). done.
Qed.

Lemma omit_same ignored v : no_headers v → omitIgnoredHeadersValue ignored false v = v.
Proof.
  induction v as [| | | | | |l IH|o IH|h] using logval_ind'; intros Hv; try done; simpl in *.
  - apply foldr_and_Forall in Hv. f_equal. induction IH as [|v l Hi _ IHl]; simpl; [done|].
    apply Forall_cons in Hv as [H1 H2]. by rewrite Hi, IHl.
  - destruct Hv as [Ho Hv]. apply foldr_and_Forall in Hv. f_equal.
    assert (E : map (λ p, (p.1, omitIgnoredHeadersValue ignored (is_headers p.1) p.2)) o = o).
    { clear Ho. induction IH as [|[k v] o Hi _ IHo]; simpl in *; [done|]. apply Forall_cons in Hv as [[H1 H2] H3]. simpl in *.
      by rewrite H1, Hi, IHo. }
    rewrite E. by apply of_entries_ordered.
Qed.

(** When headers are to be ignored, what is logged holds no [Headers] object, and every object
    under an attribute named headers, in any case and at any depth, lists none of the ignored names;
    a [Headers] value keeps only the names not ignored; values without headers are not changed. *)
Theorem omit_spec ignored v : ignored ≠ [] →
  header_free ignored false (omitIgnoredHeaders v ignored) ∧
  (∀ h, v = LHeaders h → ∃ o, omitIgnoredHeaders v ignored = LObj o ∧ Forall (λ p, is_ignored ignored p.1 = false) o) ∧
  (no_headers v → omitIgnoredHeaders v ignored = v).
Proof.
  intros Hi. unfold omitIgnoredHeaders. rewrite bool_decide_false by done.
  split_and!; [apply omit_free| |apply omit_same]. intros h ->. eexists. split; [reflexivity|]. apply filter_entries_free.
Qed.

(** ** The logger and its file *)

Record log_call := { lc_moment : moment; lc_level : LogLevel; lc_message : jstr; lc_attrs : attrs }.

Definition call_line (lg : Logger) (c : log_call) : option jstr :=
  match log_line lg (lc_moment c) (lc_level c) (lc_message c) (lc_attrs c) with Ok line => line | Err _ => None end.

(** The file sink of a logger, with the standard output as its tee, after some calls. *)
Definition file_run (fault : nat → option jstr) (now : nat → Z) (chunk : nat → nat)
  (lg : Logger) (calls : list log_call) (s : sink) (r : ResolvedRotation) : sink :=
  foldl (λ s c, match call_line lg c with Some line => sink_write fault now chunk r true line s | None => s end) s calls.

Lemma file_run_lines fault now chunk lg calls s r :
  file_run fault now chunk lg calls s r = sink_lines fault now chunk r true (omap (call_line lg) calls) s.
Proof.
  unfold file_run, sink_lines. revert s. induction calls as [|c calls IH]; intros s; [done|]. simpl. rewrite IH.
  by destruct (call_line lg c).
Qed.

(** A logger with a directory and rotation writes to a file sink; with retention off every call
    that passes the level prints its line, and the file and its backups hold the lines in order,
    all of them as long as the sink has not failed. *)
Theorem file_logger_complete fault now chunk o dir fileName rotate files calls :
  lg_sink (initLogger o) = SinkFile dir fileName rotate → is_ascii fileName = true → retention_off (resolveRotation rotate) →
  let s := newFileSink fault now dir fileName files in
  let s' := file_run fault now chunk (initLogger o) calls s (resolveRotation rotate) in
  let lines := omap (call_line (initLogger o)) calls in
  rt_enable rotate = Some true ∧ sk_output s' = sk_output s ++ map ToTee lines ∧
  ∃ filed rest torn, lines = filed ++ rest ∧ torn `prefix_of` flat_map line_bytes rest ∧
    log s' = log s ++ flat_map line_bytes filed ++ torn ∧ (sk_enabled s' = true → rest = []).
Proof.
  intros Hsink Ha Hoff. cbv zeta. rewrite file_run_lines.
  destruct (newFileSink_inv fault now dir fileName files Ha) as [H1 H2].
  destruct (sink_lines_spec fault now chunk (resolveRotation rotate) true (omap (call_line (initLogger o)) calls) _ H1 H2 Hoff)
    as (filed & rest & torn & R1 & R2 & R3 & R4 & R5 & _).
  split; [|split; [exact R4|by exists filed, rest, torn]].
  simpl in Hsink. unfold resolveSink in Hsink. destruct (lo_sink o); [done|]. destruct (lo_dir o), (lo_rotate o) as [rt|]; try done.
  destruct (negb _); [|done]. simpl in Hsink. destruct (rt_enable rt) as [[]|] eqn:E; try done. by injection Hsink as <- <- <-.
Qed.
End logger.

(** ** Runs *)

#[local] Existing Instance ascii_case.

Definition no_rotation : RotateOptions := {| rt_enable := None; rt_maxSize := None; rt_maxBackups := None; rt_maxAge := None; rt_compress := None |}.
Definition no_options : LoggerOptions :=
  {| lo_level := None; lo_formatter := Some (js "json"); lo_formatDate := None; lo_sanitizer := None; lo_env := None; lo_ignoredHeaders := None;
     lo_sink := true; lo_dir := None; lo_fileName := None; lo_rotate := None; lo_service := Some (js "svc"); lo_base := None |}.

Definition secret_logger : Logger :=
  initLogger {| lo_level := None; lo_formatter := Some (js "json"); lo_formatDate := None; lo_sanitizer := Some [js "password"]; lo_env := None;
     lo_ignoredHeaders := Some [js "Cookie"]; lo_sink := true; lo_dir := None; lo_fileName := None; lo_rotate := None;
     lo_service := Some (js "svc"); lo_base := None |}.

Definition noon : moment :=
  {| mo_testMode := false;
     mo_date := {| dt_year := 2026; dt_month := 1; dt_date := 3; dt_day := 2; dt_hours := 12; dt_minutes := 0; dt_seconds := 0;
                   dt_millis := 0; dt_offset := 0 |};
     mo_span := None;
     mo_frames := [{| fr_name := Some (js "Logger.info"); fr_file := js "/x/logger/builder/builder.ts"; fr_line := 1 |};
                   {| fr_name := Some (js "main"); fr_file := js "/x/app.ts"; fr_line := 42 |}] |}.

Definition with_password (p : string) : attrs :=
  [(js "user", LStr (js "ana")); (js "password", LStr (js p));
   (js "headers", LHeaders [(js "cookie", js "c"); (js "accept", js "text")]); (js "latency", LNum (dbl_of_Z 5))].

Example log_run : log_line secret_logger noon Info (js "hello") (with_password "hunter2") =
  Ok (Some (quotes "{'level':'INFO','timestamp':'2026-02-03T12:00:00.000','traceID':'','message':'hello','details':{'system':'svc','headers':{'accept':'text'},'user':'ana','password':'[REDACTED]'},'method':'main','line':42,'latency':5}")).
Proof. vm_compute. reflexivity. Qed.

Example log_hides_secrets_witness :
  log_line secret_logger noon Info (js "hello") (with_password "hunter2") = log_line secret_logger noon Info (js "hello") (with_password "x").
Proof.
  apply (log_hides_secrets secret_logger noon Info (js "hello") (with_password "hunter2") (with_password "x")); [by vm_compute|by vm_compute|].
  unfold with_password. by repeat constructor.
Defined.

Example omit_spec_witness :
  header_free [js "cookie"] false (omitIgnoredHeaders (LObj (with_password "p")) [js "cookie"]) ∧
  omitIgnoredHeaders (LObj [(js "user", LStr (js "ana"))]) [js "cookie"] = LObj [(js "user", LStr (js "ana"))].
Proof.
  split; [by apply (omit_spec [js "cookie"] (LObj (with_password "p")))|].
  destruct (omit_spec [js "cookie"] (LObj [(js "user", LStr (js "ana"))])) as (_ & _ & H); [done|]. apply H. simpl. by split_and!.
Defined.

Definition kept_forever : RotateOptions :=
  {| rt_enable := Some true; rt_maxSize := None; rt_maxBackups := Some (dbl_of_Z 0); rt_maxAge := Some (dbl_of_Z 0); rt_compress := None |}.
Definition file_options : LoggerOptions :=
  {| lo_level := Some Warn; lo_formatter := Some (js "{{.Level}}"); lo_formatDate := None; lo_sanitizer := None; lo_env := None;
     lo_ignoredHeaders := None; lo_sink := false; lo_dir := Some (js "/var/log"); lo_fileName := None; lo_rotate := Some kept_forever;
     lo_service := Some (js "svc"); lo_base := None |}.
Definition two_calls : list log_call :=
  [{| lc_moment := noon; lc_level := Error; lc_message := js "a"; lc_attrs := [] |};
   {| lc_moment := noon; lc_level := Info; lc_message := js "b"; lc_attrs := [] |}].

Example file_logger_complete_witness :
  let s := newFileSink (λ _, None) clock (js "/var/log") (js "svc.log") [] in
  let s' := file_run (λ _, None) clock (λ _, 3) (initLogger file_options) two_calls s (resolveRotation kept_forever) in
  sk_output s' = [ToTee (js "ERROR")] ∧ log s' = line_bytes (js "ERROR").
Proof.
  destruct (file_logger_complete (λ _, None) clock (λ _, 3) file_options (js "/var/log") (js "svc.log") kept_forever [] two_calls)
    as (_ & H & _); [by vm_compute|by vm_compute|by vm_compute|].
  cbv zeta. rewrite H. split; by vm_compute.
Defined.

(** The attribute [services] becomes the property [process] before the entry is sanitized: its values
    are written although its name is sensitive. *)
Theorem services_not_redacted :
  log_line (initLogger {| lo_level := None; lo_formatter := Some (js "json"); lo_formatDate := None; lo_sanitizer := Some [js "services"];
       lo_env := None; lo_ignoredHeaders := None; lo_sink := true; lo_dir := None; lo_fileName := None; lo_rotate := None; lo_service := None;
       lo_base := None |}) noon Info (js "m") [(js "services", LArr [LObj [(js "system", LStr (js "secret"))]])] =
  Ok (Some (quotes "{'level':'INFO','timestamp':'2026-02-03T12:00:00.000','traceID':'','message':'m','details':{'system':''},'process':[{'system':'secret','process':'','status':'','latency':0}],'method':'main','line':42,'latency':0}")).
Proof. vm_compute. reflexivity. Qed.

(** A sensitive name that matches [process] makes every log call throw. *)
Theorem process_name_throws a :
  log_line (initLogger {| lo_level := None; lo_formatter := Some (js "json"); lo_formatDate := None; lo_sanitizer := Some [js "process"];
       lo_env := None; lo_ignoredHeaders := None; lo_sink := true; lo_dir := None; lo_fileName := None; lo_rotate := None; lo_service := None;
       lo_base := None |}) noon Info (js "m") [(js "k", a)] = Err TypeErr.
Proof. destruct a; vm_compute; reflexivity. Qed.
