(* ===== verification/HttpMiddleware.v ===== *)
(** * The request context and the request log

    httpContext of config/server/http/context.ts and httpLogger of logger/middlewares/http.ts, as
    middleware of [Http].  What a request reads of its host, the active span, a fresh identifier
    and the clock, is an argument; the parent context that propagation activates while the handler
    runs is the telemetry package's and has no part in the result. *)

From S2P Require Export Http Logger.
Local Open Scope nat_scope.

(** [new URL(request.url).pathname]. *)
Class UrlParser := { url_pathname : jstr → jstr }.

(** ** The request context *)

Record HttpRequestContext := {
  cx_requestId : jstr; cx_traceparent : jstr; cx_traceId : jstr; cx_spanId : jstr; cx_traceFlags : jstr; cx_tracestate : option jstr;
  cx_startedAt : dbl; cx_method : jstr; cx_pathname : jstr; cx_attributes : attrs; cx_process : list logval; cx_skipLogging : bool;
}.

(** The factories of the options are the application's and may throw. *)
Record HttpContextOptions := {
  co_requestIdHeader : option jstr;
  co_requestIdFactory : option (HttpRequest → res http_error jstr);
  co_attributes : option (attrs + (HttpRequest → res http_error attrs));
}.

(** What one request reads of the host: the active span, [crypto.randomUUID], the result of
    [newTraceparent] and [performance.now]. *)
Record ambient := { am_span : option ForgeSpanContext; am_uuid : jstr; am_fresh : jstr; am_now : dbl }.

(** [headers.get(name)] throws on a name that is no token. *)
Definition headers_read (name : jstr) (h : header_list) : res http_error (option jstr) :=
  if valid_name name then Ok (headers_get name h) else Err (HttpTypeError (js "Invalid header name")).

(** [a || b] on texts that may be absent. *)
Definition first_text (a b : option jstr) : option jstr := match a with Some (c :: t) => Some (c :: t) | _ => b end.

(** [new Response(body, { status, statusText, headers })]: a status outside 200 to 599, as that of
    [Response.error()] or of an upgrade, is a [RangeError], and a body for a status that has none a
    [TypeError]. *)
Definition new_Response (body : option jstr) (status : Z) (statusText : jstr) (h : header_list) : res http_error HttpResponse :=
  if negb ((200 <=? status) && (status <=? 599))%Z
  then Err (HttpThrown (js "The status provided is outside the range [200, 599]"))
  else if bool_decide (status ∈ [204; 205; 304]%Z) && negb (bool_decide (body = None))
  then Err (HttpTypeError (js "Response with null body status cannot have body"))
  else Ok {| rs_status := status; rs_statusText := statusText; rs_headers := h; rs_body := body; rs_immutable := false |}.

(** The header is set, on a copy of a response whose headers are immutable; the body is one that was
    not read. *)
Definition setResponseHeader (response : HttpResponse) (name value : jstr) : res http_error HttpResponse :=
  let* h := headers_set name value (rs_headers response) in
  if rs_immutable response then new_Response (rs_body response) (rs_status response) (rs_statusText response) h
  else Ok {| rs_status := rs_status response; rs_statusText := rs_statusText response; rs_headers := h; rs_body := rs_body response; rs_immutable := false |}.

Section context.
Context {U : Type} `{UP : UrlParser}.
Notation state := (process_state HttpRequestContext U).

Definition valid_incoming (request : HttpRequest) : option jstr :=
  match headers_get (js "traceparent") (hr_headers request) with
  | Some v => if negb (bool_decide (v = [])) && isValidTraceparent v then Some v else None
  | None => None
  end.

Definition select_traceparent (amb : ambient) (request : HttpRequest) : jstr :=
  match traceparent (activeSpanContext (am_span amb)) with
  | Some t => t
  | None => default (am_fresh amb) (valid_incoming request)
  end.

Definition select_tracestate (request : HttpRequest) : option jstr :=
  match valid_incoming request, headers_get (js "tracestate") (hr_headers request) with
  | Some _, Some v => if negb (bool_decide (v = [])) && isValidTracestate v then Some v else None
  | _, _ => None
  end.

Definition buildContext (options : HttpContextOptions) (amb : ambient) (request : HttpRequest) : res http_error HttpRequestContext :=
  let tp := select_traceparent amb request in
  let parts := split_on 45 tp in
  let* header := headers_read (default (js "x-request-id") (co_requestIdHeader options)) (hr_headers request) in
  let supplied := trim <$> header in
  let* generated := match co_requestIdFactory options with Some f => let* id := f request in Ok (Some (trim id)) | None => Ok None end in
  let requestId := default (am_uuid amb) (first_text supplied (first_text generated None)) in
  let* attributes := match co_attributes options with None => Ok [] | Some (inl a) => Ok a | Some (inr f) => f request end in
  Ok {| cx_requestId := requestId; cx_traceparent := tp; cx_traceId := nth 1 parts []; cx_spanId := nth 2 parts []; cx_traceFlags := nth 3 parts [];
        cx_tracestate := select_tracestate request; cx_startedAt := am_now amb; cx_method := hr_method request; cx_pathname := url_pathname (hr_url request);
        cx_attributes := spread [] attributes; cx_process := []; cx_skipLogging := false |}.

Definition httpContext (options : HttpContextOptions) (amb : HttpRequest → ambient) : Middleware state := λ next request,
  eff* context := elift (buildContext options (amb request) request) in
  eff* _ := emodify (setRequestContext (hr_id request) context) in
  eff* response := next request in
  elift (setResponseHeader response (default (js "x-request-id") (co_requestIdHeader options)) (cx_requestId context)).

(** ** The request log *)

(** A regular expression is the test it makes of a text, without the flags that keep a position. *)
Inductive PathMatcher := MatchText (path : jstr) | MatchRegExp (test : jstr → bool).
Inductive HttpLogOutcome := Responded (response : HttpResponse) | Failed (error : http_error) (status : option Z).

Record HttpLogEntryOptions := {
  ho_requestIdHeader : option jstr; ho_skipPaths : list PathMatcher; ho_shouldLog : option (HttpRequest → HttpLogOutcome → res unit bool);
  ho_includeHeaders : option bool; ho_startedAt : option dbl; ho_process : option (list logval);
}.

Record HttpLogEntry := { en_level : LogLevel; en_message : jstr; en_details : attrs }.

(** [error instanceof Error ? error.message : String(error)]. *)
Definition error_text (e : http_error) : jstr := match e with HttpTypeError m | HttpThrown m => m end.

Definition matchesSkippedPath (pathname : jstr) (matchers : list PathMatcher) : bool :=
  existsb (λ m, match m with MatchText path => bool_decide (pathname = path) | MatchRegExp test => test pathname end) matchers.

(** [elapsed t] is [performance.now() - t]. *)
Definition log_details (options : HttpLogEntryOptions) (span : option ForgeSpanContext) (elapsed : dbl → dbl) (request : HttpRequest)
    (context : option HttpRequestContext) (idHeader : option jstr) : attrs :=
  let spanContext := activeSpanContext span in
  let traceID := match sc_traceId <$> spanContext with
                 | Some t => Some t
                 | None => match idHeader with Some t => Some t | None => cx_requestId <$> context end
                 end in
  let startedAt := match ho_startedAt options with Some t => Some t | None => cx_startedAt <$> context end in
  let latency := match startedAt with Some t => normalizeLatency (VNum (elapsed t)) | None => dbl_of_Z 0 end in
  let process := match ho_process options with Some p => Some p | None => cx_process <$> context end in
  let details := spread (spread [] (from_option cx_attributes [] context))
    ([(js "method", LStr (hr_method request)); (js "path", LStr (url_pathname (hr_url request)))] ++
     (if bool_decide (ho_includeHeaders options = Some false) then [] else [(js "headers", LHeaders (hr_headers request))]) ++
     [(js "latency", LNum latency)] ++
     match traceID with Some (c :: t) => [(js "traceID", LStr (c :: t))] | _ => [] end ++
     match sc_spanId <$> spanContext with Some (c :: t) => [(js "spanID", LStr (c :: t))] | _ => [] end ++
     match process with Some (p :: l) => [(js "process", LArr (map lv_process_latency (p :: l)))] | _ => [] end) in
  if bool_decide (ho_includeHeaders options = Some false) then List.filter (λ p, negb (bool_decide (p.1 = js "headers"))) details else details.

Definition buildHttpLogEntry (options : HttpLogEntryOptions) (span : option ForgeSpanContext) (elapsed : dbl → dbl) (request : HttpRequest)
    (outcome : HttpLogOutcome) (s : state) : res http_error (option HttpLogEntry) :=
  if matchesSkippedPath (url_pathname (hr_url request)) (ho_skipPaths options) then Ok None
  else
    let context := getRequestContext (hr_id request) s in
    if from_option cx_skipLogging false context then Ok None
    else
      let wanted := match ho_shouldLog options with Some f => match f request outcome with Ok b => b | Err _ => false end | None => true end in
      if negb wanted then Ok None
      else
        (** The header is only read when there is no span. *)
        let* idHeader := match activeSpanContext span with
                         | Some _ => Ok None
                         | None => headers_read (default (js "x-trace-id") (ho_requestIdHeader options)) (hr_headers request)
                         end in
        let details := log_details options span elapsed request context idHeader in
        Ok (Some match outcome with
            | Responded response =>
                {| en_level := Info; en_message := js "http.request"; en_details := obj_set (js "status") (LNum (dbl_of_Z (rs_status response))) details |}
            | Failed error status =>
                let details := match status with Some st => obj_set (js "status") (LNum (dbl_of_Z st)) details | None => details end in
                {| en_level := Error; en_message := js "http.request.error"; en_details := obj_set (js "error") (LStr (error_text error)) details |}
            end).

(** [logger.info] and [logger.error]. *)
Context (logger : LogLevel → jstr → attrs → eff http_error state unit).

Definition emit (entry : option HttpLogEntry) : eff http_error state unit :=
  match entry with Some e => logger (en_level e) (en_message e) (en_details e) | None => eret tt end.

Definition started (options : HttpLogEntryOptions) (startedAt : dbl) : HttpLogEntryOptions :=
  {| ho_requestIdHeader := ho_requestIdHeader options; ho_skipPaths := ho_skipPaths options; ho_shouldLog := ho_shouldLog options;
     ho_includeHeaders := ho_includeHeaders options; ho_startedAt := Some startedAt; ho_process := ho_process options |}.

(** An entry built from the state when the handler has ended, and its call of the logger. *)
Definition log_outcome (options : HttpLogEntryOptions) (span : option ForgeSpanContext) (elapsed : dbl → dbl) (req : HttpRequest)
    (outcome : HttpLogOutcome) : eff http_error state unit :=
  eff* entry := eread (buildHttpLogEntry options span elapsed req outcome) in
  eff* entry := elift entry in emit entry.

Definition httpLogger (options : HttpLogEntryOptions) (span : HttpRequest → option ForgeSpanContext) (startedAt : dbl) (elapsed : dbl → dbl) : Middleware state :=
  λ next req,
  let options := started options startedAt in
  ecatch
    (eff* res := next req in
     eff* _ := log_outcome options (span req) elapsed req (Responded res) in
     eret res)
    (λ err,
     eff* _ := log_outcome options (span req) elapsed req (Failed err None) in
     ethrow err).
End context.

(** * Properties *)

Lemma http_space_is_space c : is_http_space c = true → is_space c = true.
Proof. unfold is_http_space, is_space, in_range. lia. Qed.

Lemma strip_space_fix s : trim_start s = s → strip_space s = s.
Proof.
  destruct s as [|c t]; [done|]. intros H. apply trim_start_head in H. simpl. destruct (is_http_space c) eqn:E; [|done].
  apply http_space_is_space in E. congruence.
Qed.

Lemma normalize_trim x : normalize_value (trim x) = trim x.
Proof.
  unfold normalize_value. rewrite (strip_space_fix (trim x)) by (apply trim_start_end, trim_start_idem).
  rewrite strip_space_fix; [by rewrite rev_involutive|]. pose proof (trim_end_idem (trim_start x)) as H. fold (trim x) in H.
  unfold trim_end at 1 in H. apply (f_equal (@rev N)) in H. by rewrite rev_involutive in H.
Qed.

Section properties.
Context {U : Type} `{UP : UrlParser}.
Notation state := (process_state HttpRequestContext U).

Lemma getRequestContext_set req (cx : HttpRequestContext) (s : state) : getRequestContext req (setRequestContext req cx s) = Some cx.
Proof. unfold getRequestContext, setRequestContext. simpl. by rewrite Nat.eqb_refl. Qed.

Lemma valid_incoming_Some req t : valid_incoming req = Some t →
  headers_get (js "traceparent") (hr_headers req) = Some t ∧ isValidTraceparent t = true.
Proof. unfold valid_incoming. destruct (headers_get _ _) as [v|]; [|done]. destruct (_ && _) eqn:E; [|done]. intros [= <-]. by bool_inv. Qed.

Lemma span_traceparent span t : (∀ c, span = Some c → (sc_traceFlags c < 256)%N) →
  traceparent (activeSpanContext span) = Some t → isValidTraceparent t = true.
Proof.
  intros Hf. destruct span as [c|]; [|done]. unfold activeSpanContext. destruct (isValidSpanContext c) eqn:E; [|done].
  intros H. pose proof (traceparent_shape c) as Hs. rewrite H in Hs. apply Hs, Hf. done.
Qed.

Lemma buildContext_requestId options amb req cx : am_uuid amb = trim (am_uuid amb) → am_uuid amb ≠ [] →
  buildContext options amb req = Ok cx → cx_requestId cx ≠ [] ∧ ∃ x, cx_requestId cx = trim x.
Proof.
  intros Hu Hn (header & _ & (generated & Hg & (attributes & _ & [= <-])%rbind_Ok)%rbind_Ok)%rbind_Ok. cbn [cx_requestId].
  assert (generated = None ∨ ∃ y, generated = Some (trim y)) as Hgen.
  { destruct (co_requestIdFactory options) as [f|]; [|injection Hg as <-; by left].
    apply rbind_Ok in Hg as (y & _ & [= <-]). right. by exists y. }
  destruct header as [h|]; [destruct (trim h) as [|c r] eqn:Eh|]; cbn; rewrite ?Eh; cbn.
  2: { split; [done|by exists h]. }
  all: destruct Hgen as [->|[y ->]]; cbn; [split; [done|by exists (am_uuid amb)]|].
  all: destruct (trim y) as [|c r] eqn:Ey; cbn; [split; [done|by exists (am_uuid amb)]|split; [done|by exists y]].
Qed.

Lemma setResponseHeader_Ok response name value r : setResponseHeader response name value = Ok r →
  rs_status r = rs_status response ∧ rs_body r = rs_body response ∧ headers_set name value (rs_headers response) = Ok (rs_headers r).
Proof.
  intros (h & Hh & H)%rbind_Ok. destruct (rs_immutable response); [|by injection H as <-].
  unfold new_Response in H. destruct (negb _); [done|]. destruct (_ && _); [done|]. by injection H as <-.
Qed.

(** C32. The context of a request: when the chain answers, the handler ran with a context stored
    under its request whose traceparent is valid on the wire and is that of the active span, else
    the valid one that came in, else a fresh one; its identifiers are the parts of it; a tracestate
    is kept only if it is valid and came with a valid traceparent; and the answer carries the
    request id, which is never empty. *)
Theorem http_context_spec options amb (next : Handler state) req s res' s' :
  (∀ c, am_span (amb req) = Some c → (sc_traceFlags c < 256)%N) → isValidTraceparent (am_fresh (amb req)) = true →
  am_uuid (amb req) = trim (am_uuid (amb req)) → am_uuid (amb req) ≠ [] →
  httpContext options amb next req s = (Ok res', s') →
  ∃ cx res, next req (setRequestContext (hr_id req) cx s) = (Ok res, s') ∧ rs_status res' = rs_status res ∧ rs_body res' = rs_body res ∧
    isValidTraceparent (cx_traceparent cx) = true ∧
    (∃ ver, split_on 45 (cx_traceparent cx) = [ver; cx_traceId cx; cx_spanId cx; cx_traceFlags cx]) ∧
    (cx_traceparent cx = match traceparent (activeSpanContext (am_span (amb req))) with Some t => t | None => default (am_fresh (amb req)) (valid_incoming req) end) ∧
    (∀ ts, cx_tracestate cx = Some ts → isValidTracestate ts = true ∧ is_Some (valid_incoming req)) ∧
    cx_requestId cx ≠ [] ∧ headers_get (default (js "x-request-id") (co_requestIdHeader options)) (rs_headers res') = Some (cx_requestId cx).
Proof.
  intros Hflags Hfresh Hu Hne (cx & s1 & [Hb ->]%elift_Ok & (u & s2 & [= <- <-] & (res & s3 & Hn & [Hr <-]%elift_Ok)%ebind_Ok)%ebind_Ok)%ebind_Ok.
  exists cx, res. split; [done|]. apply setResponseHeader_Ok in Hr as (Hst & Hbd & Hh).
  destruct (buildContext_requestId _ _ _ _ Hu Hne Hb) as [Hid [x Hx]].
  apply rbind_Ok in Hb as (header & _ & (generated & _ & (attributes & _ & [= <-])%rbind_Ok)%rbind_Ok).
  cbn [cx_traceparent cx_traceId cx_spanId cx_traceFlags cx_tracestate] in *.
  assert (isValidTraceparent (select_traceparent (amb req) req) = true) as Hv.
  { unfold select_traceparent. destruct (traceparent _) as [t|] eqn:Et; [by eapply span_traceparent|].
    destruct (valid_incoming req) as [t|] eqn:Ei; [by apply valid_incoming_Some in Ei as [_ ?]|done]. }
  split_and!; try done.
  - apply isValidTraceparent_iff in Hv as (ver & t & p & f & -> & ? & ? & ? & ? & _). exists ver. by rewrite split_wire.
  - intros ts. unfold select_tracestate. destruct (valid_incoming req); [|done]. destruct (headers_get _ _); [|done].
    destruct (_ && _) eqn:E; [|done]. intros [= <-]. bool_inv. split; [done|by eexists].
  - unfold headers_set in Hh. destruct (_ && _); [|done]. injection Hh as <-. unfold headers_get. rewrite own_get_set_eq. cbn [cx_requestId] in *. by rewrite Hx, normalize_trim.
Qed.

(** ** The log of a request *)

(** Logging a request changes nothing else, as long as the logger itself does not throw: the
    chain answers or throws exactly what the handler does, and the state after it is the one the
    handler left, after at most one call of the logger. *)
Theorem http_log_transparent logger options span startedAt elapsed (next : Handler state) req s :
  valid_name (default (js "x-trace-id") (ho_requestIdHeader options)) = true →
  (∀ level message details s, ∃ s', logger level message details s = (Ok tt, s')) →
  let (r, s1) := next req s in
  ∃ entry, httpLogger logger options span startedAt elapsed next req s = (r, (emit logger entry s1).2) ∧
    match entry, r with
    | Some e, Ok res => en_message e = js "http.request" ∧ own_get (js "status") (en_details e) = Some (LNum (dbl_of_Z (rs_status res)))
    | Some e, Err err => en_message e = js "http.request.error" ∧ own_get (js "error") (en_details e) = Some (LStr (error_text err))
    | None, _ => True
    end.
Proof.
  intros Hname Hlog. destruct (next req s) as [r s1] eqn:En.
  set (o := started options startedAt).
  assert (∀ outcome, ∃ entry, buildHttpLogEntry o (span req) elapsed req outcome s1 = Ok entry ∧
    match entry with
    | None => True
    | Some e => match outcome with
                | Responded res => en_message e = js "http.request" ∧ own_get (js "status") (en_details e) = Some (LNum (dbl_of_Z (rs_status res)))
                | Failed err _ => en_message e = js "http.request.error" ∧ own_get (js "error") (en_details e) = Some (LStr (error_text err))
                end end) as Hb.
  { intros outcome. unfold buildHttpLogEntry. cbv zeta. destruct (matchesSkippedPath _ _); [by exists None|].
    destruct (from_option cx_skipLogging _ _); [by exists None|]. destruct (negb _); [by exists None|].
    replace (match activeSpanContext (span req) with Some _ => _ | None => _ end) with
      (@Ok http_error _ (match activeSpanContext (span req) with Some _ => None | None => headers_get (default (js "x-trace-id") (ho_requestIdHeader options)) (hr_headers req) end))
      by (destruct (activeSpanContext (span req)); [done|]; unfold headers_read; change (ho_requestIdHeader o) with (ho_requestIdHeader options); by rewrite Hname).
    eexists. split; [reflexivity|]. destruct outcome; cbn; (split; [reflexivity|apply own_get_set_eq]). }
  assert (∀ outcome, ∃ entry, log_outcome logger o (span req) elapsed req outcome s1 = (Ok tt, (emit logger entry s1).2) ∧
    match entry with
    | None => True
    | Some e => match outcome with
                | Responded res => en_message e = js "http.request" ∧ own_get (js "status") (en_details e) = Some (LNum (dbl_of_Z (rs_status res)))
                | Failed err _ => en_message e = js "http.request.error" ∧ own_get (js "error") (en_details e) = Some (LStr (error_text err))
                end end) as Hl.
  { intros outcome. destruct (Hb outcome) as (entry & E & H). exists entry. split; [|done].
    unfold log_outcome, ebind, eread, elift. rewrite E. destruct entry as [e|]; [|done]. simpl.
    destruct (Hlog (en_level e) (en_message e) (en_details e) s1) as [s' ->]. done. }
  unfold httpLogger, ecatch, ebind at 1. fold o. rewrite En. destruct r as [res|err].
  - destruct (Hl (Responded res)) as (entry & E & H). exists entry. split; [|by destruct entry]. unfold ebind. by rewrite E.
  - destruct (Hl (Failed err None)) as (entry & E & H). exists entry. split; [|by destruct entry]. unfold ebind. by rewrite E.
Qed.

(** The privacy boundary of the log: with [includeHeaders] off no entry has a member of that
    name, whatever the attributes of the context, the outcome and the other options say. *)
Theorem http_log_private options span elapsed req outcome (s : state) e :
  ho_includeHeaders options = Some false → buildHttpLogEntry options span elapsed req outcome s = Ok (Some e) →
  own_get (js "headers") (en_details e) = None.
Proof.
  intros Hi. unfold buildHttpLogEntry. cbv zeta. destruct (matchesSkippedPath _ _); [done|]. destruct (from_option cx_skipLogging _ _); [done|]. destruct (negb _); [done|].
  intros (idHeader & _ & [= <-])%rbind_Ok.
  assert (own_get (js "headers") (log_details options span elapsed req (getRequestContext (hr_id req) s) idHeader) = None) as H.
  { unfold log_details. rewrite Hi, !bool_decide_true by done. apply own_get_None. unfold keys. intros ([k v] & E & Hin)%list_elem_of_fmap.
    simpl in E. subst k. apply list_elem_of_In, filter_In in Hin as [_ Hin]. by rewrite bool_decide_true in Hin. }
  destruct outcome as [res|err [st|]]; cbn [en_details]; rewrite ?own_get_set_ne by (vm_compute; discriminate); done.
Qed.

(** ** Where the code does not do what it says *)

(** A logger that throws turns the answer of the handler into an error: the call of the logger is
    inside the [try] that re-throws. *)
Lemma logger_failure_loses_response logger options span startedAt elapsed (next : Handler state) req s res s1 e :
  next req s = (Ok res, s1) → (∀ level message details s, logger level message details s = (Err e, s)) →
  matchesSkippedPath (url_pathname (hr_url req)) (ho_skipPaths options) = false → getRequestContext (hr_id req) s1 = None →
  ho_shouldLog options = None → valid_name (default (js "x-trace-id") (ho_requestIdHeader options)) = true →
  httpLogger logger options span startedAt elapsed next req s = (Err e, s1).
Proof.
  intros En Hl Hs Hc Hw Hv. unfold httpLogger, ecatch, ebind. rewrite En.
  assert (∀ outcome, log_outcome logger (started options startedAt) (span req) elapsed req outcome s1 = (Err e, s1)) as H.
  { intros outcome. unfold log_outcome, ebind, eread, elift, buildHttpLogEntry, headers_read.
    cbn [ho_skipPaths ho_shouldLog ho_requestIdHeader started]. rewrite Hs, Hc, Hw, Hv. cbn [from_option negb].
    destruct (activeSpanContext _); cbn [rbind emit]; apply Hl. }
  by rewrite !H.
Qed.
End properties.

(** ** Examples *)

(** The path of a URL of the host h. *)
Definition toy_urls : UrlParser := {| url_pathname url := drop 8 url |}.
#[local] Existing Instances toy_urls ascii_case.

Notation toy_world := (process_state HttpRequestContext (list (jstr * attrs))).
Definition toy_empty : toy_world := {| ps_claims := []; ps_contexts := []; ps_user := [] |}.
Definition traced_request : HttpRequest :=
  {| hr_id := 3; hr_method := js "GET"; hr_url := js "http://h/me";
     hr_headers := [(js "traceparent", js "00-0123456789abcdef0123456789abcdef-0123456789abcdef-01"); (js "tracestate", js "a=1, b=2");
                    (js "x-request-id", js "r-1"); (js "authorization", js "Bearer t")] |}.
Definition toy_ambient : ambient :=
  {| am_span := None; am_uuid := js "u-1"; am_fresh := js "00-0123456789abcdef0123456789abcdee-0123456789abcdef-01"; am_now := dbl_of_Z 5 |}.
Definition toy_context_options : HttpContextOptions := {| co_requestIdHeader := None; co_requestIdFactory := None; co_attributes := None |}.
Definition toy_ok : Handler toy_world := λ _, eret (json_response 200 (js "hi")).
(** A logger that keeps its entries. *)
Definition toy_logger (level : LogLevel) (message : jstr) (details : attrs) : eff http_error toy_world unit :=
  emodify (λ s, {| ps_claims := ps_claims s; ps_contexts := ps_contexts s; ps_user := ps_user s ++ [(message, details)] |}).
Definition private_options : HttpLogEntryOptions :=
  {| ho_requestIdHeader := None; ho_skipPaths := [MatchText (js "/health")]; ho_shouldLog := None; ho_includeHeaders := Some false;
     ho_startedAt := None; ho_process := None |}.

Lemma http_context_spec_witness : ∃ cx res,
  isValidTraceparent (cx_traceparent cx) = true ∧ cx_requestId cx ≠ [] ∧ rs_status res = 200%Z ∧
  toy_ok traced_request (setRequestContext 3 cx toy_empty) = (Ok res, (httpContext toy_context_options (λ _, toy_ambient) toy_ok traced_request toy_empty).2).
Proof.
  destruct (httpContext toy_context_options (λ _, toy_ambient) toy_ok traced_request toy_empty) as [[res'|e] s'] eqn:E; [|vm_compute in E; discriminate E].
  destruct (http_context_spec toy_context_options (λ _, toy_ambient) toy_ok traced_request toy_empty res' s')
    as (cx & res & H1 & H2 & _ & H4 & _ & _ & _ & H8 & _).
  - intros c [=].
  - vm_compute. reflexivity.
  - vm_compute. reflexivity.
  - intros [=].
  - exact E.
  - exists cx, res. split_and!; [exact H4|exact H8| |exact H1]. rewrite <- H2. vm_compute in E. by injection E as <- _.
Defined.

Lemma http_log_transparent_witness : ∃ entry,
  httpLogger toy_logger private_options (λ _, None) (dbl_of_Z 1) (λ _, dbl_of_Z 2) toy_ok traced_request toy_empty =
    (Ok (json_response 200 (js "hi")), (emit toy_logger entry toy_empty).2).
Proof.
  destruct (http_log_transparent toy_logger private_options (λ _, None) (dbl_of_Z 1) (λ _, dbl_of_Z 2) toy_ok traced_request toy_empty) as (entry & E & _).
  - vm_compute. reflexivity.
  - intros. eexists. reflexivity.
  - exists entry. exact E.
Defined.

Lemma http_log_private_witness : ∃ e,
  buildHttpLogEntry private_options None (λ _, dbl_of_Z 2) traced_request (Responded (json_response 200 [])) toy_empty = Ok (Some e) ∧
  own_get (js "headers") (en_details e) = None.
Proof.
  eexists. split; [reflexivity|].
  apply (http_log_private private_options None (λ _, dbl_of_Z 2) traced_request (Responded (json_response 200 [])) toy_empty); reflexivity.
Defined.
