(* ===== verification/HttpClient.v ===== *)
(** * config/client/http/client.ts: the REST client

    [fetch], the body of its response and the URL class are the platform's: [Fetch] gives them as
    parameters.  An abort signal is the expression that made it. *)

From S2P Require Export Http JsonUnicode.
Local Open Scope nat_scope.

Inductive abort_signal := SignalOf (caller : nat) | SignalTimeout (ms : Z) | SignalAny (signals : list abort_signal).

(** A body as given to [fetch]: a text, or a value that is not JSON. *)
Inductive payload := PayloadText (text : jstr) | PayloadRaw (body : jsval).

Record FetchRequest := {
  fq_url : jstr; fq_method : jstr; fq_headers : header_list; fq_body : option payload; fq_signal : option abort_signal;
}.

Class Fetch (S : Type) := {
  FetchResponse : Type;
  fr_status : FetchResponse → Z;
  fr_headers : FetchResponse → header_list;
  fetch : FetchRequest → eff http_error S FetchResponse;
  fetch_text : FetchResponse → eff http_error S jstr;
  (** [new URL(base)] with the search parameters set, as a string. *)
  url_with_query : jstr → list (jstr * jstr) → res http_error jstr;
}.

Record RequestOptions := {
  qo_headers : option header_list; qo_query : option (list (jstr * jsval)); qo_signal : option abort_signal; qo_timeoutMs : option Z;
}.
Record ResponseEnvelope := { he_status : Z; he_ok : bool; he_data : jsval; he_headers : header_list }.
Record ClientOptions := { cl_baseUrl : option jstr; cl_headers : option header_list; cl_timeoutMs : option Z }.

(** [HttpClientError] with its cause, or what was thrown as it is. *)
Inductive client_error := HttpClientError (message : jstr) (cause : http_error) | ClientThrown (e : http_error).

Record ClientHTTP := { ch_baseUrl : jstr; ch_headers : header_list; ch_timeoutMs : option Z }.

Definition newClientHTTP (o : ClientOptions) : ClientHTTP :=
  {| ch_baseUrl := from_option strip_trailing [] (cl_baseUrl o); ch_headers := default [] (cl_headers o); ch_timeoutMs := cl_timeoutMs o |}.

(** [headers.append]: a second value of a name is joined to the first. *)
Definition headers_append (name value : jstr) (h : header_list) : res http_error header_list :=
  let value := normalize_value value in
  if valid_name name && valid_value value then
    Ok (obj_set (header_key name) (match own_get (header_key name) h with Some old => old ++ js ", " ++ value | None => value end) h)
  else Err (HttpTypeError (js "Invalid header")).

(** [new Headers(record)]. *)
Definition new_Headers (entries : header_list) : res http_error header_list := foldM_res (λ h p, headers_append p.1 p.2 h) [] entries.

(** [{ ...a, ...b }]. *)
Definition spread_headers (a b : header_list) : header_list := of_entries (a ++ b).

(** Combines a caller signal with a timeout. *)
Definition composeSignal (signal : option abort_signal) (timeoutMs : option Z) : option abort_signal :=
  match timeoutMs with
  | Some ms =>
      if (0 <? ms)%Z then Some (match signal with Some s => SignalAny [s; SignalTimeout ms] | None => SignalTimeout ms end)
      else signal
  | None => signal
  end.

Definition is_json (h : header_list) : bool :=
  match headers_get (js "content-type") h with Some t => includes t (js "application/json") | None => false end.

(** The headers and the payload of a body; [VUndef] is no body. *)
Definition encode_body (headers : header_list) (body : jsval) : res http_error (header_list * option payload) :=
  match body with
  | VUndef => Ok (headers, None)
  | _ =>
      let* headers := match headers_get (js "content-type") headers with
                      | Some _ => Ok headers
                      | None => headers_set (js "content-type") (js "application/json") headers
                      end in
      Ok (headers, if is_json headers then PayloadText <$> json_stringify body else Some (PayloadRaw body))
  end.

(** A text is parsed when the type says JSON and it is JSON. *)
Definition decode_body (headers : header_list) (text : jstr) : jsval :=
  if bool_decide (text = []) then VUndef
  else if is_json headers then default (VStr text) (json_parse text) else VStr text.

Section client.
Context {S : Type} `{F : !Fetch S}.

(** An operation of the platform whose error goes through. *)
Definition raw {A} (m : eff http_error S A) : eff client_error S A :=
  λ s, let (r, s') := m s in (match r with Ok a => Ok a | Err e => Err (ClientThrown e) end, s').

Definition buildUrl (c : ClientHTTP) (path : jstr) (query : option (list (jstr * jsval))) : res http_error jstr :=
  let base := if startsWith path (js "http") then path
              else ch_baseUrl c ++ (if startsWith path (js "/") then [] else js "/") ++ path in
  match query with
  | None => Ok base
  | Some q => url_with_query base (map (λ p, (p.1, js_String p.2)) q)
  end.

Definition parseBody (response : FetchResponse) : eff client_error S jsval :=
  eff* text := raw (fetch_text response) in
  eret (decode_body (fr_headers response) text).

Definition request (c : ClientHTTP) (method path : jstr) (body : jsval) (options : RequestOptions) : eff client_error S ResponseEnvelope :=
  eff* headers := raw (elift (new_Headers (spread_headers (ch_headers c) (default [] (qo_headers options))))) in
  eff* sent := raw (elift (encode_body headers body)) in
  let timeoutMs := match qo_timeoutMs options with Some ms => Some ms | None => ch_timeoutMs c end in
  let signal := composeSignal (qo_signal options) timeoutMs in
  eff* response := (λ s,
    let (r, s') := (eff* url := elift (buildUrl c path (qo_query options)) in
                    fetch {| fq_url := url; fq_method := method; fq_headers := sent.1; fq_body := sent.2; fq_signal := signal |}) s in
    (match r with Ok response => Ok response | Err cause => Err (HttpClientError (js "http client: " ++ method ++ js " " ++ path ++ js " failed") cause) end, s')) in
  eff* data := parseBody response in
  eret {| he_status := fr_status response; he_ok := (200 <=? fr_status response)%Z && (fr_status response <=? 299)%Z;
          he_data := data; he_headers := fr_headers response |}.

Definition client_get c path := request c (js "GET") path VUndef.
Definition client_post c path body := request c (js "POST") path body.
Definition client_put c path body := request c (js "PUT") path body.
Definition client_patch c path body := request c (js "PATCH") path body.
Definition client_delete c path := request c (js "DELETE") path VUndef.

(** * Properties *)

Lemma raw_Ok {A} (m : eff http_error S A) s a s' : raw m s = (Ok a, s') ↔ m s = (Ok a, s').
Proof. unfold raw. destruct (m s) as [[?|?] ?]; naive_solver. Qed.

Lemma encode_json headers v text : headers_get (js "content-type") headers = None → v ≠ VUndef → json_stringify v = Some text →
  ∃ headers', encode_body headers v = Ok (headers', Some (PayloadText text)) ∧ is_json headers' = true ∧
    ∀ name, header_key name ≠ js "content-type" → headers_get name headers' = headers_get name headers.
Proof.
  intros Hc Hv Ht. exists (obj_set (js "content-type") (js "application/json") headers).
  assert (is_json (obj_set (js "content-type") (js "application/json") headers) = true) as Hj.
  { unfold is_json, headers_get. change (header_key (js "content-type")) with (js "content-type"). rewrite own_get_set_eq. reflexivity. }
  split_and!; [|done|].
  - destruct v; [done|..]; unfold encode_body; rewrite Hc; change (headers_set (js "content-type") (js "application/json") headers) with
      (@Ok http_error _ (obj_set (js "content-type") (js "application/json") headers)); cbn [rbind]; rewrite Hj, Ht; done.
  - intros name Hn. by apply own_get_set_ne.
Qed.

(** A JSON body round-trips: what the client sends of a JSON value, to an endpoint that answers
    with the text it got as JSON, is the value in the response envelope, and a request without a
    content type of its own is sent as JSON. *)
Theorem json_body_roundtrip c method path v text options s :
  json_data v → v ≠ VUndef → json_stringify v = Some text → text ≠ [] →
  ∀ headers url, new_Headers (spread_headers (ch_headers c) (default [] (qo_headers options))) = Ok headers →
  headers_get (js "content-type") headers = None → buildUrl c path (qo_query options) = Ok url →
  (∀ q, fq_body q = Some (PayloadText text) → is_json (fq_headers q) = true → fq_url q = url → fq_method q = method →
     ∃ resp s1, fetch q s = (Ok resp, s1) ∧ is_json (fr_headers resp) = true ∧ ∃ s2, fetch_text resp s1 = (Ok text, s2)) →
  ∃ env s', request c method path v options s = (Ok env, s') ∧ he_data env = v.
Proof.
  intros Hd Hu Ht Hne headers url Hh Hc Hurl Hecho. destruct (encode_json headers v text Hc Hu Ht) as (headers' & He & Hj & _).
  set (sg := composeSignal (qo_signal options) (match qo_timeoutMs options with Some ms => Some ms | None => ch_timeoutMs c end)).
  destruct (Hecho {| fq_url := url; fq_method := method; fq_headers := headers'; fq_body := Some (PayloadText text); fq_signal := sg |})
    as (resp & s1 & Hf & Hjr & s2 & Htx); [done..|].
  eexists _, s2. unfold request, parseBody, ebind, raw, elift. rewrite Hh, He, Hurl. cbn [fst snd]. fold sg. rewrite Hf, Htx. split; [reflexivity|].
  cbn [he_data]. unfold decode_body. rewrite bool_decide_false, Hjr by done. by rewrite (json_parse_stringify _ _ Hd Ht).
Qed.

(** How a call fails: a URL that does not parse and every failure of [fetch], the network, a
    timeout or an abort, is an [HttpClientError] that names the method and the path; anything else
    comes from an invalid header or from reading the body. *)
Theorem client_failures c method path body options s e s' : request c method path body options s = (Err e, s') →
  (∃ cause, e = HttpClientError (js "http client: " ++ method ++ js " " ++ path ++ js " failed") cause ∧
     (buildUrl c path (qo_query options) = Err cause ∨ ∃ q s1 s2, fetch q s1 = (Err cause, s2) ∧ fq_method q = method)) ∨
  (∃ cause, e = ClientThrown cause ∧
     (s' = s ∨ ∃ q resp s1, fetch q s = (Ok resp, s1) ∧ fetch_text resp s1 = (Err cause, s'))).
Proof.
  unfold request, parseBody, ebind, raw, elift. destruct (new_Headers _) as [headers|e0]; [|intros [= <- <-]; right; eauto].
  destruct (encode_body headers body) as [[h p]|e0]; [|intros [= <- <-]; right; eauto]. cbn [fst snd].
  destruct (buildUrl c path _) as [url|cause] eqn:Eu; [|intros [= <- <-]; left; eauto].
  match goal with |- context [fetch ?q s] => set (rq := q); destruct (fetch rq s) as [[resp|cause] s1] eqn:Ef end; [|intros [= <- <-]; left; eexists; split; [done|right; by exists rq, s, s1]].
  destruct (fetch_text resp s1) as [[text|cause] s2] eqn:Et; [done|]. intros [= <- <-]. right. exists cause. split; [done|]. right. by exists rq, resp, s1.
Qed.

(** The address of a request: a base with any number of final slashes and a path, with a slash
    of its own or not, are joined by one slash. *)
Theorem buildUrl_one_slash (o : ClientOptions) base path : cl_baseUrl o = Some base →
  startsWith path (js "http") = false →
  buildUrl (newClientHTTP o) path None = Ok (strip_trailing base ++ slashed path) ∧
  ∀ n, buildUrl (newClientHTTP {| cl_baseUrl := Some (base ++ replicate n 47%N); cl_headers := cl_headers o; cl_timeoutMs := cl_timeoutMs o |}) path None =
    buildUrl (newClientHTTP o) path None.
Proof.
  intros Hb Hp. assert (∀ b, (b ++ (if startsWith path (js "/") then [] else js "/") ++ path) = b ++ slashed path) as E.
  { intros b. unfold slashed. by destruct (startsWith path (js "/")). }
  unfold buildUrl, newClientHTTP. rewrite Hb, Hp. cbn [ch_baseUrl cl_baseUrl from_option]. rewrite !E. split; [done|].
  intros n. rewrite E, strip_trailing_app. replace (strip_trailing (replicate n 47%N)) with (@nil N); [done|].
  induction n as [|n IH]; [done|]. rewrite replicate_S_end, strip_trailing_app. exact IH.
Qed.
End client.

(** ** Where the code does not do what it says *)

(** A header of a request whose name differs from the default's in case does not replace it: both
    values are sent. *)
Lemma header_case_combined :
  new_Headers (spread_headers [(js "Authorization", js "a")] [(js "authorization", js "b")]) = Ok [(js "authorization", js "a, b")].
Proof. vm_compute. reflexivity. Qed.

(** A relative path that begins with http is taken for an absolute address: the base is dropped. *)
Lemma http_prefix_absolute {S : Type} `{F : !Fetch S} c : buildUrl c (js "httpd/status") None = Ok (js "httpd/status").
Proof. reflexivity. Qed.

(** ** Examples *)

Module ToyFetch.
(** An endpoint that answers with the text it got. *)
#[export] Instance echo : Fetch nat := {|
  FetchResponse := jstr; fr_status _ := 200%Z; fr_headers _ := [(js "content-type", js "application/json; charset=utf-8")];
  fetch q := λ s, match fq_body q with
                  | Some (PayloadText t) => (Ok t, Datatypes.S s)
                  | _ => (Err (HttpThrown (js "network")), s)
                  end;
  fetch_text r := eret r;
  url_with_query base _ := Ok base;
|}.
End ToyFetch.
#[local] Existing Instances ToyFetch.echo.

Definition toy_client : ClientHTTP := newClientHTTP {| cl_baseUrl := Some (js "http://h//"); cl_headers := None; cl_timeoutMs := Some 1000%Z |}.
Definition no_request_options : RequestOptions := {| qo_headers := None; qo_query := None; qo_signal := None; qo_timeoutMs := None |}.
Definition toy_body : jsval := VObj [(js "a", VArr [VStr (js "x"); VBool true])].

Lemma json_body_roundtrip_witness : ∃ env s', client_post toy_client (js "v1") toy_body no_request_options 0 = (Ok env, s') ∧ he_data env = toy_body.
Proof.
  apply (json_body_roundtrip toy_client (js "POST") (js "v1") toy_body (default [] (json_stringify toy_body)) no_request_options 0) with [] (js "http://h/v1").
  - apply json_datab_correct. vm_compute. reflexivity.
  - discriminate.
  - reflexivity.
  - discriminate.
  - reflexivity.
  - reflexivity.
  - reflexivity.
  - intros q Hb _ _ _. exists (default [] (json_stringify toy_body)), 1. split; [|split; [reflexivity|by exists 1]].
    unfold fetch. cbn [ToyFetch.echo]. by rewrite Hb.
Defined.

Lemma client_failures_witness : ∃ cause s',
  client_get toy_client (js "v1") no_request_options 0 = (Err (HttpClientError (js "http client: GET v1 failed") cause), s').
Proof.
  destruct (client_failures toy_client (js "GET") (js "v1") VUndef no_request_options 0
    (HttpClientError (js "http client: GET v1 failed") (HttpThrown (js "network"))) 0) as [(cause & E & _)|(cause & E & _)].
  - reflexivity.
  - exists (HttpThrown (js "network")), 0. reflexivity.
  - discriminate E.
Defined.

Lemma buildUrl_one_slash_witness : buildUrl toy_client (js "v1") None = Ok (js "http://h/v1").
Proof.
  exact (proj1 (buildUrl_one_slash {| cl_baseUrl := Some (js "http://h//"); cl_headers := None; cl_timeoutMs := Some 1000%Z |} (js "http://h//") (js "v1") eq_refl eq_refl)).
Defined.
