(* ===== verification/Grpc.v ===== *)
(** * gRPC: interceptors, server, client and telemetry

    config/grpc/contracts.ts, config/server/grpc, config/client/grpc, telemetry/grpc.ts,
    logger/middlewares/grpc.ts and security/middlewares/grpc_jwt.ts.  A call runs on the state of
    its context, the calls made of the telemetry package, and what the application keeps.  The
    package grpc-js, its metadata and its channel, is a parameter. *)

From S2P Require Export Effect Trace Jwt Logger.
Local Open Scope nat_scope.

(** ** contracts.ts *)

(** What is thrown in a call: a [GrpcError], another error, which may have a member [code], or any
    other value. *)
Inductive rpc_error := GrpcError (code : dbl) (message : jstr) | PlainError (message : jstr) (code : option jsval) | ThrownValue (v : jsval).

Definition status_names : list (N * jstr) :=
  [(0%N, js "OK"); (1%N, js "CANCELLED"); (2%N, js "UNKNOWN"); (3%N, js "INVALID_ARGUMENT"); (4%N, js "DEADLINE_EXCEEDED"); (5%N, js "NOT_FOUND");
   (6%N, js "ALREADY_EXISTS"); (7%N, js "PERMISSION_DENIED"); (8%N, js "RESOURCE_EXHAUSTED"); (9%N, js "FAILED_PRECONDITION"); (10%N, js "ABORTED");
   (11%N, js "OUT_OF_RANGE"); (12%N, js "UNIMPLEMENTED"); (13%N, js "INTERNAL"); (14%N, js "UNAVAILABLE"); (15%N, js "DATA_LOSS"); (16%N, js "UNAUTHENTICATED")].
Definition status_codes : list (jstr * N) :=
  [(js "OK", 0%N); (js "CANCELLED", 1%N); (js "UNKNOWN", 2%N); (js "INVALID_ARGUMENT", 3%N); (js "DEADLINE_EXCEEDED", 4%N); (js "NOT_FOUND", 5%N);
   (js "ALREADY_EXISTS", 6%N); (js "PERMISSION_DENIED", 7%N); (js "RESOURCE_EXHAUSTED", 8%N); (js "FAILED_PRECONDITION", 9%N); (js "ABORTED", 10%N);
   (js "OUT_OF_RANGE", 11%N); (js "UNIMPLEMENTED", 12%N); (js "INTERNAL", 13%N); (js "UNAVAILABLE", 14%N); (js "DATA_LOSS", 15%N); (js "UNAUTHENTICATED", 16%N)].
Definition status_name (code : N) : option jstr := snd <$> find_first (λ p, (p.1 =? code)%N) status_names.
Definition status_code (name : jstr) : option N := own_get name status_codes.

Definition UNAUTHENTICATED : dbl := dbl_of_Z 16.
Definition INTERNAL : dbl := dbl_of_Z 13.

Inductive metadata_value := MdText (s : jstr) | MdBytes (bs : list N).

Class GrpcMetadata := {
  metadata : Type;
  md_new : metadata;
  md_get : jstr → metadata → list metadata_value;
  md_set : jstr → jstr → metadata → res rpc_error metadata;
}.

(** The calls made of the telemetry package, in order. *)
Inductive telemetry_call :=
  | TStartSpan (name : jstr) (server : bool) (attributes : list (jstr * jstr))
  | TStatusCode (code : dbl)
  | TSuccess
  | TError (message : jstr)
  | TDuration (server : bool) (value : dbl) (attributes : list (jstr * jstr))
  | TEnd.

(** The state of a call: the bag of its context, the telemetry, and what the application keeps. *)
Record rpc_state (U : Type) := { rc_bag : list (jstr * jsval); rc_telemetry : list telemetry_call; rc_user : U }.
Arguments rc_bag {U}. Arguments rc_telemetry {U}. Arguments rc_user {U}.

Section grpc.
Context {U : Type} `{MD : GrpcMetadata}.
Notation rpc := (eff rpc_error (rpc_state U)).

Record GrpcContext := { gx_method : jstr; gx_metadata : metadata }.
Definition UnaryHandler : Type := jsval → GrpcContext → rpc jsval.
Definition ServerInterceptor : Type := GrpcContext → rpc jsval → rpc jsval.

(** ** interceptors.ts *)

Definition error_message (e : rpc_error) : jstr := match e with GrpcError _ m | PlainError m _ => m | ThrownValue v => js_String v end.

(** The service error of grpc-js: message and code. *)
Definition toServiceError (e : rpc_error) : jstr * dbl :=
  match e with GrpcError code m => (m, code) | _ => (error_message e, INTERNAL) end.

(** What the callback gets. *)
Inductive rpc_answer := Reply (value : jsval) | ServiceError (message : jstr) (code : dbl).

Definition chain (interceptors : list ServerInterceptor) (ctx : GrpcContext) (invoke : rpc jsval) : rpc jsval :=
  foldr (λ interceptor next, interceptor ctx next) invoke interceptors.

(** [unary]: the bag of the context is new; [getPath] gives the method. *)
Definition unary (handler : UnaryHandler) (interceptors : list ServerInterceptor) (path : option jstr) (md : metadata) (request : jsval)
    (s : rpc_state U) : rpc_answer * rpc_state U :=
  let ctx := {| gx_method := default [] path; gx_metadata := md |} in
  let (r, s') := chain interceptors ctx (handler request ctx) {| rc_bag := []; rc_telemetry := rc_telemetry s; rc_user := rc_user s |} in
  (match r with Ok v => Reply v | Err e => let (m, c) := toServiceError e in ServiceError m c end, s').

(** ** grpc_jwt.ts *)

(** [String(value)]: of bytes, their decimals between commas. *)
Definition metadata_String (v : metadata_value) : jstr :=
  match v with MdText s => s | MdBytes bs => join [44%N] (map (λ b, num_to_string (dbl_of_Z (Z.of_N b))) bs) end.
Definition metadata_first (key : jstr) (md : metadata) : jstr :=
  match md_get key md with v :: _ => metadata_String v | [] => [] end.

Definition CLAIMS_KEY : jstr := js "claims".
Definition set_bag (key : jstr) (v : jsval) (s : rpc_state U) : rpc_state U :=
  {| rc_bag := obj_set key v (rc_bag s); rc_telemetry := rc_telemetry s; rc_user := rc_user s |}.
Definition grpcClaims (s : rpc_state U) : option jsval := own_get CLAIMS_KEY (rc_bag s).

Definition jwt_interceptor `{B64 : Base64Url} `{Sub : Subtle} `{CM : CaseMapping} (sv : Service) (metadataKey scheme : option jstr) (vs : list Validator) : ServerInterceptor :=
  λ ctx next,
  match grpcJwtInterceptor sv scheme vs (metadata_first (default (js "authorization") metadataKey) (gx_metadata ctx)) with
  | inl (Unauthorized message) => ethrow (GrpcError UNAUTHENTICATED message)
  | inl (Next _) => next
  | inr claims => eff* _ := emodify (set_bag CLAIMS_KEY claims) in next
  end.

(** ** logger/middlewares/grpc.ts *)

(** [latency] is the rounded time since the call began. *)
Definition grpcLogger (logger : LogLevel → jstr → attrs → rpc unit) (latency : dbl) : ServerInterceptor := λ ctx next,
  ecatch
    (eff* res := next in
     eff* _ := logger Info (js "grpc.request") [(js "method", LStr (gx_method ctx)); (js "status", LStr (js "OK")); (js "latency", LNum latency)] in
     eret res)
    (λ err,
     eff* _ := logger Error (js "grpc.request.error")
       [(js "method", LStr (gx_method ctx)); (js "latency", LNum latency); (js "error", LStr (error_message err))] in
     ethrow err).

(** ** telemetry/grpc.ts *)

Definition telemetry (c : telemetry_call) : rpc unit :=
  emodify (λ s, {| rc_bag := rc_bag s; rc_telemetry := rc_telemetry s ++ [c]; rc_user := rc_user s |}).

(** The status code of an error: its member [code] when that is a finite number. *)
Definition grpcErrorCode (e : rpc_error) : dbl :=
  let code := match e with
              | GrpcError c _ => Some (VNum c)
              | PlainError _ c => c
              | ThrownValue (VObj o) => own_get (js "code") o
              | ThrownValue _ => None
              end in
  match code with Some (VNum d) => if isFinite d then d else dbl_of_Z 2 | _ => dbl_of_Z 2 end.

(** The body both spans share: the call, its status and outcome, the duration and the end. *)
Definition in_span (server : bool) (attributes : list (jstr * jstr)) (elapsed : dbl) (call : rpc jsval) : rpc jsval :=
  efinally
    (ecatch
      (eff* result := call in
       eff* _ := telemetry (TStatusCode (dbl_of_Z 0)) in
       eff* _ := telemetry TSuccess in
       eret result)
      (λ error,
       eff* _ := telemetry (TStatusCode (grpcErrorCode error)) in
       eff* _ := telemetry (TError (error_message error)) in
       ethrow error))
    (eff* _ := telemetry (TDuration server elapsed attributes) in telemetry TEnd).

Definition grpcTelemetry (elapsed : dbl) : ServerInterceptor := λ ctx next,
  let method := or_text (gx_method ctx) "grpc.unknown" in
  let '(service, operation) := splitMethod method in
  let attributes := rpcAttributes operation service in
  eff* _ := telemetry (TStartSpan method true attributes) in
  in_span true attributes elapsed next.

(** [inject] writes the active context into the metadata, which the call then sends. *)
Definition withGrpcClientSpan (inject : metadata → res rpc_error metadata) (elapsed : dbl) (method address : jstr) (md : metadata) (call : metadata → rpc jsval) : rpc jsval :=
  let operation := or_text method "grpc.unknown" in
  let attributes := rpcAttributes operation None ++ [(js "server.address", address)] in
  eff* _ := telemetry (TStartSpan method false attributes) in
  eff* md := elift (inject md) in
  in_span false attributes elapsed (call md).

(** ** server.ts *)

Record GrpcServerOptions := { gs_interceptors : option (list ServerInterceptor); gs_telemetry : option bool }.

Definition server_interceptors (o : GrpcServerOptions) (elapsed : dbl) : list ServerInterceptor :=
  (if bool_decide (gs_telemetry o = Some false) then [] else [grpcTelemetry elapsed]) ++ default [] (gs_interceptors o).

(** [addService]: every handler of the map with the server's interceptors and those given. *)
Definition addService (o : GrpcServerOptions) (elapsed : dbl) (handlers : list (jstr * UnaryHandler)) (interceptors : list ServerInterceptor) :
    list (jstr * (option jstr → metadata → jsval → rpc_state U → rpc_answer * rpc_state U)) :=
  map (λ p, (p.1, unary p.2 (server_interceptors o elapsed ++ interceptors))) handlers.

(** ** client.ts *)

(** A method of the service client: it gets the request, the metadata and the deadline.  The methods
    are the functions that the client object has under a name, inherited ones included. *)
Definition UnaryFn : Type := jsval → metadata → option Z → rpc jsval.
Record GrpcClient := { gc_methods : list (jstr * UnaryFn); gc_target : jstr; gc_telemetry : bool }.
Record CallOptions := { cp_metadata : option (list (jstr * jstr)); cp_bearer : option jstr; cp_deadlineMs : option Z; cp_telemetry : option bool }.

Definition newGrpcClient (methods : list (jstr * UnaryFn)) (address : jstr) (telemetry : option bool) : GrpcClient :=
  {| gc_methods := methods; gc_target := address; gc_telemetry := default true telemetry |}.

(** The entries, then the bearer token. *)
Definition call_metadata (o : CallOptions) : res rpc_error metadata :=
  let* md := foldM_res (λ md p, md_set p.1 p.2 md) md_new (default [] (cp_metadata o)) in
  match cp_bearer o with
  | Some (c :: t) => md_set (js "authorization") (js "Bearer " ++ c :: t) md
  | _ => Ok md
  end.

Definition call_deadline (o : CallOptions) (now : Z) : option Z :=
  match cp_deadlineMs o with Some ms => if (0 <? ms)%Z then Some (now + ms)%Z else None | None => None end.

(** An unknown method is a rejection; metadata that grpc-js refuses is thrown by the call itself. *)
Definition client_unary (inject : metadata → res rpc_error metadata) (elapsed : dbl) (now : Z) (c : GrpcClient) (method : jstr) (request : jsval) (o : CallOptions) :
    res rpc_error (rpc jsval) :=
  match own_get method (gc_methods c) with
  | None => Ok (ethrow (PlainError (js "grpc client: unknown unary method " ++ [34%N] ++ method ++ [34%N]) None))
  | Some fn =>
      let* md := call_metadata o in
      let invoke md := fn request md (call_deadline o now) in
      if bool_decide (cp_telemetry o = Some false) || (bool_decide (cp_telemetry o = None) && negb (gc_telemetry c)) then Ok (invoke md)
      else Ok (withGrpcClientSpan inject elapsed method (gc_target c) md invoke)
  end.
End grpc.
Arguments GrpcServerOptions U {MD}. Arguments GrpcClient U {MD}. Arguments ServerInterceptor U {MD}. Arguments UnaryHandler U {MD}. Arguments UnaryFn U {MD}.

(** * Properties *)

(** The table of codes is the inverse of the table of names. *)
Lemma status_inverse code name : status_name code = Some name ↔ status_code name = Some code.
Proof.
  unfold status_name, status_code. split.
  - destruct (find_first _ status_names) as [p|] eqn:E; [|done]. intros [= <-].
    apply find_first_Some in E as [Hin Heq%N.eqb_eq]. subst code.
    assert (forallb (λ p, bool_decide (own_get p.2 status_codes = Some p.1)) status_names = true) as H by (vm_compute; reflexivity).
    exact (bool_decide_eq_true_1 _ (proj1 (forallb_forall _ _) H p (proj1 (list_elem_of_In _ _) Hin))).
  - intros Hin%own_get_elem.
    assert (forallb (λ p, bool_decide (snd <$> find_first (λ q, (q.1 =? p.2)%N) status_names = Some p.1)) status_codes = true) as H by (vm_compute; reflexivity).
    exact (bool_decide_eq_true_1 _ (proj1 (forallb_forall _ _) H _ (proj1 (list_elem_of_In _ _) Hin))).
Qed.

Section properties.
Context {U : Type} `{MD : GrpcMetadata}.
Notation rpc := (eff rpc_error (rpc_state U)).

Definition add_telemetry (l : list telemetry_call) (s : rpc_state U) : rpc_state U :=
  {| rc_bag := rc_bag s; rc_telemetry := rc_telemetry s ++ l; rc_user := rc_user s |}.

Lemma add_telemetry_app l k s : add_telemetry k (add_telemetry l s) = add_telemetry (l ++ k) s.
Proof. unfold add_telemetry. cbn. by rewrite (assoc_L (++)). Qed.

Lemma in_span_spec server attributes elapsed (call : rpc jsval) s :
  in_span server attributes elapsed call s =
    let (r, s1) := call s in
    (r, add_telemetry (match r with
                       | Ok _ => [TStatusCode (dbl_of_Z 0); TSuccess]
                       | Err e => [TStatusCode (grpcErrorCode e); TError (error_message e)]
                       end ++ [TDuration server elapsed attributes; TEnd]) s1).
Proof.
  unfold in_span, efinally, ecatch, ebind, telemetry, emodify, eret, ethrow. destruct (call s) as [[v|e] s1]; cbn; f_equal;
    unfold add_telemetry; cbn; by rewrite <- !(assoc_L (++)).
Qed.

(** A span per call: whatever the rest of the chain does, the telemetry interceptor gives its
    result or its error unchanged, and around what the chain itself records it starts one span,
    sets one status code (0, or the finite code of the error, else 2), one outcome and one
    duration, and ends the span last. *)
Theorem span_per_call elapsed ctx (next : rpc jsval) s :
  let method := or_text (gx_method ctx) "grpc.unknown" in
  let attributes := rpcAttributes (splitMethod method).2 (splitMethod method).1 in
  grpcTelemetry elapsed ctx next s =
    let (r, s1) := next (add_telemetry [TStartSpan method true attributes] s) in
    (r, add_telemetry (match r with
                       | Ok _ => [TStatusCode (dbl_of_Z 0); TSuccess]
                       | Err e => [TStatusCode (grpcErrorCode e); TError (error_message e)]
                       end ++ [TDuration true elapsed attributes; TEnd]) s1).
Proof.
  intros method attributes. unfold grpcTelemetry. fold method. destruct (splitMethod method) as [service operation] eqn:E.
  unfold attributes. cbn [fst snd]. unfold ebind at 1, telemetry at 1, emodify. apply in_span_spec.
Qed.

(** ** Authentication *)

Context `{B64 : Base64Url} `{Sub : Subtle} `{CM : CaseMapping}.

Lemma chain_app (a b : list (ServerInterceptor U)) ctx (invoke : rpc jsval) : chain (a ++ b) ctx invoke = chain a ctx (chain b ctx invoke).
Proof. unfold chain. by rewrite foldr_app. Qed.

Lemma jwt_interceptor_runs sv key scheme vs ctx (next : rpc jsval) s :
  jwt_interceptor sv key scheme vs ctx next s =
    match grpcJwtInterceptor sv scheme vs (metadata_first (default (js "authorization") key) (gx_metadata ctx)) with
    | inl (Unauthorized message) => (Err (GrpcError UNAUTHENTICATED message), s)
    | inl (Next _) => next s
    | inr claims => next (set_bag CLAIMS_KEY claims s)
    end.
Proof. unfold jwt_interceptor. by destruct (grpcJwtInterceptor _ _ _ _) as [[?|?]|?]. Qed.

Lemma grpc_passes sv scheme vs raw :
  match grpcJwtInterceptor sv scheme vs raw with
  | inl (Unauthorized _) => True
  | inl (Next _) => False
  | inr claims => ∃ prefix token rest t, raw = join [32%N] (prefix :: token :: rest) ∧ toLowerCase prefix = toLowerCase (default (js "Bearer") scheme) ∧
      service_verify sv token vs = Ok t ∧ claims = tk_claims t
  end.
Proof.
  unfold grpcJwtInterceptor. case_bool_decide; [done|]. unfold bearer_token.
  destruct (split_on 32 raw) as [|prefix [|token rest]] eqn:E; try done. change (take 2 (prefix :: token :: rest)) with [prefix; token]. cbn match.
  destruct (bool_decide (token = []) || _) eqn:Ec; [done|]. bool_inv. destruct (service_verify sv token vs) as [t|] eqn:Ev; [|done].
  exists prefix, token, rest, t. split_and!; try done. by rewrite <- E, join_split_on.
Qed.

(** A protected call: a handler behind the JWT interceptor either is not run, the callback gets
    UNAUTHENTICATED and nothing changes but the fresh bag, or its metadata has a token that the
    service verifies and the rest of the chain runs with exactly the claims of that token. *)
Theorem protected_call (sv : Service) key scheme vs (rest : list (ServerInterceptor U)) (handler : UnaryHandler U) path md request s :
  let ctx := {| gx_method := default [] path; gx_metadata := md |} in
  let fresh := {| rc_bag := []; rc_telemetry := rc_telemetry s; rc_user := rc_user s |} in
  (∃ message, unary handler (jwt_interceptor sv key scheme vs :: rest) path md request s = (ServiceError message UNAUTHENTICATED, fresh)) ∨
  (∃ prefix token rest' t s1,
     metadata_first (default (js "authorization") key) md = join [32%N] (prefix :: token :: rest') ∧ service_verify sv token vs = Ok t ∧
     grpcClaims s1 = Some (tk_claims t) ∧ rc_user s1 = rc_user s ∧
     unary handler (jwt_interceptor sv key scheme vs :: rest) path md request s =
       let (r, s2) := chain rest ctx (handler request ctx) s1 in
       (match r with Ok v => Reply v | Err e => let (m, c) := toServiceError e in ServiceError m c end, s2)).
Proof.
  intros ctx fresh. unfold unary. fold ctx fresh. unfold chain at 1 2. cbn [foldr]. fold (chain rest ctx (handler request ctx)).
  rewrite jwt_interceptor_runs. pose proof (grpc_passes sv scheme vs (metadata_first (default (js "authorization") key) (gx_metadata ctx))) as H.
  destruct (grpcJwtInterceptor _ _ _ _) as [[message|?]|claims]; [left; by exists message|done|].
  right. destruct H as (prefix & token & rest' & t & E & _ & Hv & ->). exists prefix, token, rest', t, (set_bag CLAIMS_KEY (tk_claims t) fresh).
  by split_and!.
Qed.

(** What grpc-js documents of its metadata: a value that was set is the one read. *)
Definition metadata_laws : Prop := ∀ key v md md', md_set key v md = Ok md' → md_get key md' = [MdText v].

(** C31. The client's bearer token is the one the server's guard checks: the metadata of a call with
    a token that has no space, whatever its other entries, pass the guard exactly when the service
    verifies that token, and then with its claims. *)
Theorem bearer_reaches_guard (sv : Service) vs o token md : metadata_laws → cp_bearer o = Some token → token ≠ [] → 32%N ∉ token →
  call_metadata o = Ok md →
  grpcJwtInterceptor sv None vs (metadata_first (js "authorization") md) =
    match service_verify sv token vs with
    | Ok t => inr (tk_claims t)
    | Err _ => inl (Unauthorized (js "invalid or expired token"))
    end.
Proof.
  intros HL Hb Hne Hsp (md0 & _ & Hset)%rbind_Ok. rewrite Hb in Hset. destruct token as [|c t]; [done|]. apply HL in Hset.
  unfold metadata_first. rewrite Hset. cbn [metadata_String]. unfold grpcJwtInterceptor. rewrite bool_decide_false by done.
  unfold bearer_token. change (js "Bearer " ++ c :: t) with (js "Bearer" ++ 32%N :: c :: t).
  rewrite split_on_app by (apply (bool_decide_eq_true_1 _); vm_compute; reflexivity). rewrite split_on_plain by done.
  change (take 2 [js "Bearer"; c :: t]) with [js "Bearer"; c :: t]. cbn match. cbn [default]. rewrite bool_decide_false, bool_decide_true by done. cbn [negb orb].
  by destruct (service_verify sv (c :: t) vs).
Qed.
End properties.

(** ** Where the code does not do what it says *)

(** A logger that throws turns a reply into an error: the call of the logger is inside the [try]
    that re-throws. *)
Lemma grpc_logger_failure {U} `{MD : GrpcMetadata} (logger : LogLevel → jstr → attrs → eff rpc_error (rpc_state U) unit) latency ctx next s v s1 e :
  next s = (Ok v, s1) → (∀ level message details s, logger level message details s = (Err e, s)) →
  grpcLogger logger latency ctx next s = (Err e, s1).
Proof. intros En Hl. unfold grpcLogger, ecatch, ebind. rewrite En, Hl. by rewrite Hl. Qed.

(** ** Examples *)

Module ToyMetadata.
Definition lower (key : jstr) : jstr := map ascii_lower key.
#[export] Instance map_metadata : GrpcMetadata := {|
  metadata := list (jstr * jstr); md_new := [];
  md_get key md := match own_get (lower key) md with Some v => [MdText v] | None => [] end;
  md_set key v md := Ok (obj_set (lower key) v md);
|}.

Lemma toy_metadata_laws : metadata_laws.
Proof. intros key v md md' [= <-]. simpl. by rewrite own_get_set_eq. Qed.
End ToyMetadata.

#[local] Existing Instances ToyMetadata.map_metadata HexUrl.codec ascii_case.

Definition toy_rpc_token : jstr := match service_sign demo_service demo_claims with Ok t => t | Err _ => [] end.
Definition toy_call_options : CallOptions :=
  {| cp_metadata := Some [(js "Authorization", js "other"); (js "x-id", js "1")]; cp_bearer := Some toy_rpc_token; cp_deadlineMs := None; cp_telemetry := None |}.
Definition toy_metadata : list (jstr * jstr) := match call_metadata toy_call_options with Ok md => md | Err _ => [] end.
Definition toy_rpc_state : rpc_state nat := {| rc_bag := [(js "old", VNull)]; rc_telemetry := []; rc_user := 0 |}.
(** A handler that answers with the claims of its call. *)
Definition whoami : UnaryHandler nat := λ _ _ s, (Ok (default VNull (grpcClaims s)), s).

Lemma bearer_reaches_guard_witness : ∃ t, service_verify demo_service toy_rpc_token [] = Ok t ∧
  grpcJwtInterceptor demo_service None [] (metadata_first (js "authorization") toy_metadata) = inr (tk_claims t).
Proof.
  destruct (service_verify demo_service toy_rpc_token []) as [t|e] eqn:E; [|vm_compute in E; discriminate E].
  exists t. split; [reflexivity|].
  assert (call_metadata toy_call_options = Ok toy_metadata) as Hm by (vm_compute; reflexivity).
  pose proof (bearer_reaches_guard demo_service [] toy_call_options toy_rpc_token toy_metadata ToyMetadata.toy_metadata_laws eq_refl) as H.
  rewrite E in H. apply H.
  - intros H0. vm_compute in H0. discriminate H0.
  - apply (bool_decide_eq_true_1 _). vm_compute. reflexivity.
  - exact Hm.
Defined.
