(* ===== verification/Pkcs11Uri.v ===== *)
(** * encrypt/pkcs11/uri.ts: RFC 7512 key URIs

    A URI is a JavaScript string, an attribute value its percent-decoded bytes.  [CKA_ID] is a
    list of bytes below 256.  Every failure is a [Pkcs11Error], given by its message. *)

From S2P Require Export Json.
Local Open Scope nat_scope.

Definition URI_SCHEME : jstr := js "pkcs11:".

Inductive ObjectClass := CkoData | CkoCertificate | CkoPublicKey | CkoPrivateKey | CkoSecretKey.

#[export] Instance object_class_eq_dec : EqDecision ObjectClass.
Proof. solve_decision. Defined.

(** What the lookup of a type gives: a class, or a function that the table inherits. *)
Inductive class_value := CClass (c : ObjectClass) | CInherited (name : jstr).

#[export] Instance class_value_eq_dec : EqDecision class_value.
Proof. solve_decision. Defined.

Record KeyUri := {
  ku_token : option jstr;
  ku_object : option jstr;
  ku_id : option (list N);
  ku_class : option class_value;
}.

Definition empty_uri : KeyUri := {| ku_token := None; ku_object := None; ku_id := None; ku_class := None |}.

Definition TYPE_TO_CLASS : list (jstr * ObjectClass) :=
  [(js "private", CkoPrivateKey); (js "public", CkoPublicKey); (js "secret-key", CkoSecretKey);
   (js "cert", CkoCertificate); (js "data", CkoData)].

Definition CLASS_TO_TYPE (c : ObjectClass) : option jstr :=
  fst <$> find_first (λ p, bool_decide (p.2 = c)) TYPE_TO_CLASS.

Notation uri_result := (res jstr).

Definition isKeyUri (reference : jstr) : bool := startsWith (trim reference) URI_SCHEME.

(** [TYPE_TO_CLASS[value]] follows the properties an object literal inherits. *)
Definition classFromType (value : jstr) : uri_result class_value :=
  match own_get value TYPE_TO_CLASS with
  | Some c => Ok (CClass c)
  | None => if bool_decide (value ∈ object_prototype) then Ok (CInherited value)
            else Err (js "pkcs11: unsupported object type " ++ json_quote value ++ js " in key uri")
  end.

Definition typeFromClass (value : class_value) : uri_result jstr :=
  match value with
  | CClass c => match CLASS_TO_TYPE c with
                | Some t => Ok t
                | None => Err (js "pkcs11: unsupported object class")
                end
  | CInherited _ => Err (js "pkcs11: unsupported object class")
  end.

(** ** Parsing *)

Definition pin_name (segment : jstr) : bool :=
  let name := default [] (head (split_on 61 segment)) in
  bool_decide (name = js "pin-value") || bool_decide (name = js "pin-source").

Definition rejectPinAttributes (query : jstr) : uri_result unit :=
  if bool_decide (query = []) then Ok tt
  else match find_first pin_name (split_on 38 query) with
  | Some segment =>
      Err (js "pkcs11: key uri must not carry " ++ json_quote (default [] (head (split_on 61 segment)))
           ++ js "; supply the pin with the pin option")
  | None => Ok tt
  end.

(** The bytes of one attribute value.  A character that is no escape is encoded by itself, so
    each half of a surrogate pair becomes U+FFFD. *)
Fixpoint unescapeAttribute (name raw : jstr) : uri_result (list N) :=
  match raw with
  | [] => Ok []
  | c :: rest =>
      if (c =? 37)%N then
        match rest with
        | a :: b :: rest' =>
            if is_hex a && is_hex b
            then let* out := unescapeAttribute name rest' in Ok ((hex_value a * 16 + hex_value b)%N :: out)
            else Err (js "pkcs11: decode attribute " ++ json_quote name ++ js " in key uri: invalid escape "
                      ++ json_quote (take 3 raw))
        | _ => Err (js "pkcs11: decode attribute " ++ json_quote name ++ js " in key uri: invalid escape "
                    ++ json_quote (take 3 raw))
        end
      else let* out := unescapeAttribute name rest in Ok (utf8_encode [c] ++ out)
  end.

(** The [switch] on the name of an attribute. *)
Definition set_attribute (u : KeyUri) (name : jstr) (value : list N) : uri_result KeyUri :=
  if bool_decide (name = js "token") then
    Ok {| ku_token := Some (utf8_decode value); ku_object := ku_object u; ku_id := ku_id u; ku_class := ku_class u |}
  else if bool_decide (name = js "object") then
    Ok {| ku_token := ku_token u; ku_object := Some (utf8_decode value); ku_id := ku_id u; ku_class := ku_class u |}
  else if bool_decide (name = js "id") then
    Ok {| ku_token := ku_token u; ku_object := ku_object u; ku_id := Some value; ku_class := ku_class u |}
  else if bool_decide (name = js "type") then
    let* c := classFromType (utf8_decode value) in
    Ok {| ku_token := ku_token u; ku_object := ku_object u; ku_id := ku_id u; ku_class := Some c |}
  else Ok u.

Definition parse_segment (u : KeyUri) (segment : jstr) : uri_result KeyUri :=
  if bool_decide (segment = []) then Ok u
  else match indexOf segment 61 with
  | None => Err (js "pkcs11: malformed attribute " ++ json_quote segment ++ js " in key uri")
  | Some i =>
      let name := take i segment in
      let* value := unescapeAttribute name (drop (S i) segment) in
      set_attribute u name value
  end.

(** [parsed.object || parsed.id && parsed.id.length > 0]. *)
Definition addresses_object (u : KeyUri) : bool :=
  negb (bool_decide (default [] (ku_object u) = [])) || negb (bool_decide (default [] (ku_id u) = [])).

Definition parseKeyUri (reference : jstr) : uri_result KeyUri :=
  let trimmed := trim reference in
  if negb (isKeyUri trimmed) then Err (js "pkcs11: " ++ json_quote trimmed ++ js " is not a pkcs11 uri")
  else
    let body := drop (length URI_SCHEME) trimmed in
    let* path := match indexOf body 63 with
                 | Some q => let* _ := rejectPinAttributes (drop (S q) body) in Ok (take q body)
                 | None => Ok body
                 end in
    if bool_decide (path = []) then Err (js "pkcs11: key uri " ++ json_quote trimmed ++ js " has no attributes")
    else
      let* parsed := foldM_res parse_segment empty_uri (split_on 59 path) in
      if addresses_object parsed then Ok parsed
      else Err (js "pkcs11: key uri " ++ json_quote trimmed ++ js " must set object or id").

(** ** Formatting *)

Definition attribute_punctuation : jstr := js "-._~:[]@!$'()*+,".
Definition unreservedAttributeByte (byte : N) : bool := is_alnum byte || bool_decide (byte ∈ attribute_punctuation).

Definition escape_byte (byte : N) : jstr :=
  if unreservedAttributeByte byte then [byte] else 37%N :: hex_byte true byte.
Definition escapeAttribute (value : list N) : jstr := flat_map escape_byte value.

(** [if (value) parts.push(name=...)]. *)
Definition text_part (name : string) (value : option jstr) : list jstr :=
  match value with
  | Some (c :: s) => [js name ++ [61%N] ++ escapeAttribute (utf8_encode (c :: s))]
  | _ => []
  end.
Definition id_part (id : option (list N)) : list jstr :=
  match id with
  | Some (b :: l) => [js "id" ++ [61%N] ++ escapeAttribute (b :: l)]
  | _ => []
  end.

Definition formatKeyUri (u : KeyUri) : uri_result jstr :=
  let* type_part := match ku_class u with
                    | Some c => let* t := typeFromClass c in Ok [js "type" ++ [61%N] ++ t]
                    | None => Ok []
                    end in
  Ok (URI_SCHEME ++ join [59%N]
        (text_part "token" (ku_token u) ++ text_part "object" (ku_object u) ++ id_part (ku_id u) ++ type_part)).

Definition keyUriHexId (u : KeyUri) : jstr := flat_map (hex_byte false) (default [] (ku_id u)).

(** ** Escaping *)

Lemma unreserved_shape b : unreservedAttributeByte b = true →
  (b < 128)%N ∧ b ≠ 37%N ∧ b ≠ 59%N ∧ b ≠ 61%N ∧ b ≠ 63%N ∧ is_space b = false ∧ utf8_encode [b] = [b].
Proof.
  intros H.
  assert (Hb : (b < 128)%N).
  { unfold unreservedAttributeByte, is_alnum, is_digit, is_lower, is_upper, in_range, attribute_punctuation in H.
    apply orb_true_iff in H as [H|H]; [lia|]. apply bool_decide_eq_true in H.
    assert (HF : Forall (λ c, (c < 128)%N) (js "-._~:[]@!$'()*+,")) by (vm_compute; repeat constructor).
    rewrite Forall_forall in HF. by apply HF. }
  split; [done|]. split_and!; try (by intros ->).
  - destruct (is_space b) eqn:E; [|done]. exfalso. unfold is_space in E.
    assert (Hin : b ∈ [9; 10; 11; 12; 13; 32]%N).
    { repeat (apply orb_true_iff in E as [E|E]); unfold in_range in E; try (apply bool_decide_eq_true in E); set_solver by lia. }
    repeat (apply elem_of_cons in Hin as [->|Hin]; [by vm_compute in H|]). by apply not_elem_of_nil in Hin.
  - apply is_ascii_well_formed. simpl. rewrite (proj2 (N.ltb_lt b 128) Hb). done.
Qed.

Lemma unescape_escape name bs : Forall (λ b, b < 256)%N bs → unescapeAttribute name (escapeAttribute bs) = Ok bs.
Proof.
  induction 1 as [|b bs Hb _ IH]; [done|]. unfold escapeAttribute in *. simpl. unfold escape_byte at 1.
  destruct (unreservedAttributeByte b) eqn:E.
  - apply unreserved_shape in E as (_ & H37 & _ & _ & _ & _ & He). simpl.
    rewrite (proj2 (N.eqb_neq b 37) H37), IH. simpl. by rewrite He.
  - destruct (hex_byte_value true b Hb) as (H1 & H2 & H3). unfold hex_byte. simpl. rewrite H1, H2, IH. simpl. by rewrite H3.
Qed.

(** No character of an escaped value separates attributes or ends the path. *)
Definition uri_char (c : N) : bool :=
  negb ((c =? 59)%N || (c =? 61)%N || (c =? 63)%N || is_space c).

Lemma hex_digit_uri n : (n < 16)%N → uri_char (hex_digit true n) = true.
Proof.
  intros Hn. assert (H : n ∈ [0; 1; 2; 3; 4; 5; 6; 7; 8; 9; 10; 11; 12; 13; 14; 15]%N) by (set_solver by lia).
  repeat (apply elem_of_cons in H as [->|H]; [reflexivity|]). by apply not_elem_of_nil in H.
Qed.

Lemma escape_uri bs : Forall (λ b, b < 256)%N bs → Forall (λ c, uri_char c = true) (escapeAttribute bs).
Proof.
  induction 1 as [|b bs Hb _ IH]; [constructor|]. unfold escapeAttribute in *. simpl. apply Forall_app. split; [|done].
  unfold escape_byte. destruct (unreservedAttributeByte b) eqn:E.
  - apply unreserved_shape in E as (_ & _ & H1 & H2 & H3 & H4 & _). constructor; [|constructor].
    unfold uri_char. rewrite H4. lia.
  - unfold hex_byte. repeat constructor; apply hex_digit_uri.
    + apply N.Div0.div_lt_upper_bound; lia.
    + apply N.mod_lt; lia.
Qed.

(** ** Round trip *)

Definition plain_text (s : jstr) : Prop := well_formed s = true ∧ strip_bom (utf8_encode s) = utf8_encode s.

(** The URIs [formatKeyUri] can express. *)
Record valid_uri (u : KeyUri) : Prop := {
  vu_token : ∀ t, ku_token u = Some t → plain_text t;
  vu_object : ∀ t, ku_object u = Some t → plain_text t;
  vu_id : ∀ l, ku_id u = Some l → Forall (λ b, b < 256)%N l;
  vu_class : ∀ c, ku_class u = Some c → ∃ k, c = CClass k;
  vu_object_or_id : addresses_object u = true;
}.

(** Empty attributes are not written. *)
Definition non_empty {A} (o : option (list A)) : option (list A) :=
  match o with Some (x :: l) => Some (x :: l) | _ => None end.
Definition normal_uri (u : KeyUri) : KeyUri :=
  {| ku_token := non_empty (ku_token u); ku_object := non_empty (ku_object u); ku_id := non_empty (ku_id u);
     ku_class := ku_class u |}.

Lemma parse_part u name bs : name ≠ [] → 61%N ∉ name → Forall (λ b, b < 256)%N bs →
  parse_segment u (name ++ [61%N] ++ escapeAttribute bs) = set_attribute u name bs.
Proof.
  intros Hne Hn Hb. unfold parse_segment. rewrite bool_decide_false by by destruct name.
  simpl. rewrite indexOf_app by done. rewrite take_app_length.
  replace (drop (S (length name)) (name ++ 61%N :: escapeAttribute bs)) with (escapeAttribute bs).
  - by rewrite unescape_escape.
  - by rewrite drop_S_app.
Qed.

Lemma type_text k : ∃ t, CLASS_TO_TYPE k = Some t ∧ escapeAttribute (utf8_encode t) = t ∧
  Forall (λ b, b < 256)%N (utf8_encode t) ∧ utf8_decode (utf8_encode t) = t ∧ classFromType t = Ok (CClass k).
Proof. destruct k; (eexists; split_and!; [reflexivity|vm_compute; reflexivity|vm_compute; repeat constructor|vm_compute; reflexivity|reflexivity]). Qed.

(** A printed attribute: a name without [=], and escaped bytes. *)
Definition printed (p : jstr) : Prop := ∃ name bs, p = name ++ [61%N] ++ escapeAttribute bs ∧
  name ∈ map js ["token"; "object"; "id"; "type"]%string ∧ Forall (λ b, b < 256)%N bs.

Lemma printed_chars p : printed p → p ≠ [] ∧ Forall (λ c, uri_char c = true ∨ c = 61%N) p.
Proof.
  intros (name & bs & -> & Hname & Hb). split; [by destruct name|]. apply Forall_app. split.
  - repeat (apply elem_of_cons in Hname as [->|Hname]; [repeat constructor|]). by apply not_elem_of_nil in Hname.
  - constructor; [by right|]. eapply Forall_impl; [by apply escape_uri|]. auto.
Qed.

Lemma text_part_printed name v : js name ∈ map js ["token"; "object"; "id"; "type"]%string →
  (∀ t, v = Some t → plain_text t) → Forall printed (text_part name v).
Proof.
  intros Hn Hv. destruct v as [[|c s]|]; try constructor; [|constructor].
  destruct (Hv _ eq_refl) as [Hw _]. exists (js name), (utf8_encode (c :: s)). split_and!; [done|done|].
  by apply utf8_encode_bytes.
Qed.

Lemma id_part_printed v : (∀ l, v = Some l → Forall (λ b, b < 256)%N l) → Forall printed (id_part v).
Proof.
  intros Hv. destruct v as [[|b l]|]; try constructor; [|constructor].
  exists (js "id"), (b :: l). split_and!; [done|set_solver|by apply Hv].
Qed.

Lemma joined_chars parts : Forall printed parts →
  Forall (λ c, uri_char c = true ∨ c = 61%N ∨ c = 59%N) (join [59%N] parts).
Proof.
  induction 1 as [|p parts Hp Hps IH]; [constructor|]. apply printed_chars in Hp as [_ Hp].
  assert (Hp' : Forall (λ c, uri_char c = true ∨ c = 61%N ∨ c = 59%N) p) by (eapply Forall_impl; [exact Hp|naive_solver]).
  destruct parts; [exact Hp'|]. cbn [join]. apply Forall_app. split; [done|]. constructor; [auto|exact IH].
Qed.

Lemma uri_char_space c : uri_char c = true ∨ c = 61%N ∨ c = 59%N → is_space c = false ∧ c ≠ 63%N.
Proof.
  intros [H|[-> | ->]]; [|done..]. unfold uri_char in H. destruct (is_space c); [by rewrite orb_true_r in H|].
  split; [done|]. lia.
Qed.

(** Parsing the printed attributes is a fold over them. *)
Lemma parse_printed parts : parts ≠ [] → Forall printed parts →
  parseKeyUri (URI_SCHEME ++ join [59%N] parts) =
    (let* u := foldM_res parse_segment empty_uri parts in
     if addresses_object u then Ok u
     else Err (js "pkcs11: key uri " ++ json_quote (URI_SCHEME ++ join [59%N] parts) ++ js " must set object or id")).
Proof.
  intros Hne Hp. pose proof (joined_chars _ Hp) as Hc. set (body := join [59%N] parts) in *.
  assert (Ht : trim (URI_SCHEME ++ body) = URI_SCHEME ++ body).
  { apply trim_no_space, Forall_app. split; [by repeat constructor|]. eapply Forall_impl; [exact Hc|].
    intros c ?. by apply uri_char_space. }
  unfold parseKeyUri. rewrite Ht. unfold isKeyUri. rewrite Ht, startsWith_app. cbn [negb].
  rewrite drop_app_length.
  assert (Hq : indexOf body 63 = None).
  { apply indexOf_None. intros Hin. rewrite Forall_forall in Hc. by destruct (uri_char_space _ (Hc _ Hin)). }
  rewrite Hq. cbn [rbind].
  assert (Hb : body ≠ []).
  { destruct parts as [|p parts]; [done|]. apply Forall_cons in Hp as [[Hp _]%printed_chars _]. unfold body.
    destruct parts; [done|]. cbn [join]. by destruct p. }
  rewrite bool_decide_false by done.
  assert (Hs : split_on 59 body = parts); [|by rewrite Hs].
  apply split_on_join; [done|]. eapply Forall_impl; [exact Hp|]. intros p [_ Hpc]%printed_chars Hin.
  rewrite Forall_forall in Hpc. destruct (Hpc _ Hin) as [H|H]; [by vm_compute in H|done].
Qed.

Lemma foldM_res_app {E A S} (f : S → A → res E S) l k s :
  foldM_res f s (l ++ k) = (let* s' := foldM_res f s l in foldM_res f s' k).
Proof. revert s; induction l as [|x l IH]; intros s; simpl; [done|]. destruct (f s x); simpl; [apply IH|done]. Qed.

Lemma fold_text name (set : KeyUri → jstr → KeyUri) u v :
  js name ≠ [] → 61%N ∉ js name → (∀ t, v = Some t → plain_text t) →
  (∀ u t, plain_text t → set_attribute u (js name) (utf8_encode t) = Ok (set u t)) →
  foldM_res parse_segment u (text_part name v) = Ok (match non_empty v with Some t => set u t | None => u end).
Proof.
  intros H1 H2 Hv Hset. destruct v as [[|c s]|]; try done. simpl.
  change (js name ++ 61%N :: escapeAttribute (utf8_encode (c :: s)))
    with (js name ++ [61%N] ++ escapeAttribute (utf8_encode (c :: s))).
  rewrite parse_part; [|done|done|apply utf8_encode_bytes, (Hv _ eq_refl)]. rewrite Hset by by apply Hv. done.
Qed.

Lemma fold_id u v : (∀ l, v = Some l → Forall (λ b, b < 256)%N l) →
  foldM_res parse_segment u (id_part v) = Ok (match non_empty v with
    | Some l => {| ku_token := ku_token u; ku_object := ku_object u; ku_id := Some l; ku_class := ku_class u |}
    | None => u
    end).
Proof.
  intros Hv. destruct v as [[|b l]|]; try done. unfold id_part. cbn [foldM_res].
  rewrite parse_part; [done|done|by vm_compute; set_solver|by apply Hv].
Qed.

(** What the [type] attribute prints and how it is read back. *)
Definition class_part (c : option class_value) : list jstr :=
  match c with
  | Some (CClass k) => match CLASS_TO_TYPE k with Some t => [js "type" ++ [61%N] ++ t] | None => [] end
  | _ => []
  end.

Lemma class_part_ok c : (∀ v, c = Some v → ∃ k, v = CClass k) →
  match c with
  | Some v => let* t := typeFromClass v in Ok [js "type" ++ [61%N] ++ t]
  | None => Ok []
  end = (Ok (class_part c) : uri_result (list jstr)) ∧ Forall printed (class_part c) ∧
  ∀ u, ku_class u = None → foldM_res parse_segment u (class_part c) =
    Ok {| ku_token := ku_token u; ku_object := ku_object u; ku_id := ku_id u; ku_class := c |}.
Proof.
  intros Hc. destruct c as [v|]; [|split; [done|]; split; [constructor|]; intros [] ?; simpl in *; by subst].
  destruct (Hc _ eq_refl) as [k ->]. destruct (type_text k) as (t & E & He & Hb & Hd & Hk).
  unfold class_part, typeFromClass. rewrite E. split; [done|]. split.
  - constructor; [|constructor]. exists (js "type"), (utf8_encode t). rewrite He. split; [done|]. split; [set_solver|done].
  - intros u Hu. pose proof (parse_part u (js "type") (utf8_encode t)) as Hp. rewrite He in Hp.
    cbn [foldM_res]. rewrite Hp; [|done|by vm_compute; set_solver|done].
    change (set_attribute u (js "type") (utf8_encode t)) with
      (let* c := classFromType (utf8_decode (utf8_encode t)) in
       Ok {| ku_token := ku_token u; ku_object := ku_object u; ku_id := ku_id u; ku_class := Some c |} : uri_result KeyUri).
    by rewrite Hd, Hk.
Qed.

Lemma addresses_normal u : addresses_object (normal_uri u) = addresses_object u.
Proof. destruct u as [t [[|? ?]|] [[|? ?]|] c]; done. Qed.

Lemma parts_non_empty u k : addresses_object u = true →
  text_part "token" (ku_token u) ++ text_part "object" (ku_object u) ++ id_part (ku_id u) ++ k ≠ [].
Proof.
  intros Ha E. apply app_nil in E as [_ E]. apply app_nil in E as [Eo E]. apply app_nil in E as [Ei _].
  unfold addresses_object in Ha. destruct (ku_object u) as [[|? ?]|], (ku_id u) as [[|? ?]|]; done.
Qed.

(** Round trip: a key URI with plain text labels, an [id] of arbitrary bytes and one of
    the known classes formats to a text that parses back to the same attributes; empty ones
    are dropped. *)
Theorem keyUri_roundtrip u : valid_uri u → ∃ s, formatKeyUri u = Ok s ∧ parseKeyUri s = Ok (normal_uri u).
Proof.
  intros [Ht Ho Hi Hc Ha]. destruct (class_part_ok _ Hc) as (Etp & Hprinted & Hfold).
  pose proof (parts_non_empty u (class_part (ku_class u)) Ha) as Hne.
  unfold formatKeyUri. rewrite Etp. cbn [rbind]. eexists. split; [done|]. rewrite parse_printed; [|done|].
  2: { repeat apply Forall_app_2; [apply text_part_printed; [set_solver|done]..|by apply id_part_printed|done]. }
  rewrite foldM_res_app.
  rewrite (fold_text "token" (λ u t, {| ku_token := Some t; ku_object := ku_object u; ku_id := ku_id u; ku_class := ku_class u |}));
    [|done|by vm_compute; set_solver|done|intros u' t [Hw Hb]; unfold set_attribute; simpl; by rewrite (proj1 (utf8_roundtrip t Hw Hb))].
  cbn [rbind]. rewrite foldM_res_app.
  rewrite (fold_text "object" (λ u t, {| ku_token := ku_token u; ku_object := Some t; ku_id := ku_id u; ku_class := ku_class u |}));
    [|done|by vm_compute; set_solver|done|intros u' t [Hw Hb]; unfold set_attribute; simpl; by rewrite (proj1 (utf8_roundtrip t Hw Hb))].
  cbn [rbind]. rewrite foldM_res_app, fold_id by done. cbn [rbind].
  rewrite Hfold by by destruct (non_empty (ku_token u)), (non_empty (ku_object u)), (non_empty (ku_id u)).
  cbn [rbind]. match goal with |- (if addresses_object ?v then _ else _) = _ => assert (Hv : v = normal_uri u) end.
  { unfold normal_uri. by destruct (non_empty (ku_token u)), (non_empty (ku_object u)), (non_empty (ku_id u)). }
  by rewrite Hv, addresses_normal, Ha.
Qed.

Definition sample_uri : KeyUri :=
  {| ku_token := Some (js "prod token"); ku_object := Some (js "signing/key;1"); ku_id := Some [0; 255; 37]%N;
     ku_class := Some (CClass CkoPrivateKey) |}.

Lemma keyUri_roundtrip_witness :
  formatKeyUri sample_uri = Ok (js "pkcs11:token=prod%20token;object=signing%2Fkey%3B1;id=%00%FF%25;type=private") ∧
  ∃ s, formatKeyUri sample_uri = Ok s ∧ parseKeyUri s = Ok (normal_uri sample_uri).
Proof.
  split; [by vm_compute|]. apply (keyUri_roundtrip sample_uri). split; simpl.
  - intros t [= <-]. by split; vm_compute.
  - intros t [= <-]. by split; vm_compute.
  - intros l [= <-]. repeat constructor.
  - intros c [= <-]. by eexists.
  - done.
Defined.

(** ** What an accepted URI is *)

(** A PIN never travels in a key URI, and an accepted URI addresses an object: an accepted
    reference starts with [pkcs11:] (white space apart), sets a label or an [id], and no segment
    of its query is named [pin-value] or [pin-source]. *)
Theorem parseKeyUri_sound s u : parseKeyUri s = Ok u →
  isKeyUri s = true ∧ addresses_object u = true ∧
  ∀ path query segment, trim s = URI_SCHEME ++ path ++ 63%N :: query → 63%N ∉ path →
    segment ∈ split_on 38 query → pin_name segment = false.
Proof.
  unfold parseKeyUri. intros H. unfold isKeyUri in *. rewrite trim_idem in H.
  destruct (startsWith (trim s) URI_SCHEME); [|done]. cbn [negb] in H. split; [done|].
  match type of H with (rbind ?m _ = _) => destruct m as [path|e] eqn:Eq; [|done] end. cbn [rbind] in H.
  case_bool_decide; [done|]. destruct (foldM_res _ _ _) as [v|e]; [|done]. cbn [rbind] in H.
  destruct (addresses_object v) eqn:Ea; [|done]. injection H as ->. split; [done|].
  intros path' query segment Et Hpath Hin. rewrite Et, drop_app_length, indexOf_app in Eq by done.
  rewrite drop_S_app in Eq. unfold rejectPinAttributes in Eq. case_bool_decide as Hq.
  - subst query. apply list_elem_of_singleton in Hin as ->. by vm_compute.
  - destruct (find_first pin_name (split_on 38 query)) eqn:E; [done|].
    apply find_first_None in E. rewrite Forall_forall in E. by apply E.
Qed.

Lemma parseKeyUri_sound_witness :
  isKeyUri (js "  pkcs11:object=k?module-name=m") = true ∧ addresses_object
    {| ku_token := None; ku_object := Some (js "k"); ku_id := None; ku_class := None |} = true.
Proof.
  assert (H : parseKeyUri (js "  pkcs11:object=k?module-name=m") =
    Ok {| ku_token := None; ku_object := Some (js "k"); ku_id := None; ku_class := None |}) by (by vm_compute).
  destruct (parseKeyUri_sound _ _ H) as (H1 & H2 & _). by split.
Defined.

(** A PIN in the query is refused. *)
Example pin_refused : ∃ e, parseKeyUri (js "pkcs11:object=k?module-name=m&pin-value=1234") = Err e.
Proof. by eexists; vm_compute. Qed.

(** The table of types inherits [Object.prototype]: its members are accepted as types. *)
Example inherited_type : parseKeyUri (js "pkcs11:object=k;type=constructor") =
  Ok {| ku_token := None; ku_object := Some (js "k"); ku_id := None; ku_class := Some (CInherited (js "constructor")) |}.
Proof. by vm_compute. Qed.

(** A character beyond the Basic Multilingual Plane is read as two replacement characters. *)
Example unescaped_astral : parseKeyUri (js "pkcs11:object=" ++ [55357; 56832]%N) =
  Ok {| ku_token := None; ku_object := Some [65533; 65533]%N; ku_id := None; ku_class := None |}.
Proof. by vm_compute. Qed.
