(* ===== verification/Cryptoki.v ===== *)
(** * encrypt/pkcs11/cryptoki.ts: Cryptoki constants and attribute encoding

    A constant object of the source is a record with one value; its fields carry a prefix per
    object.  Bytes are numbers below 256. *)

From S2P Require Export JsNumber.
Local Open Scope N_scope.

Record Mechanism_t := { mech_RsaPkcsKeyPairGen : N; mech_RsaPkcs : N; mech_RsaPkcsOaep : N; mech_RsaPkcsPss :
    N; mech_Sha256RsaPkcs : N; mech_Sha256RsaPkcsPss : N; mech_Sha256 : N; mech_Sha256Hmac : N;
    mech_GenericSecretKeyGen : N; mech_EcKeyPairGen : N; mech_Ecdh1Derive : N; mech_EcEdwardsKeyPairGen : N;
    mech_EdDsa : N; mech_AesKeyGen : N; mech_AesGcm : N; mech_HkdfDerive : N }.
Definition Mechanism : Mechanism_t :=
  {| mech_RsaPkcsKeyPairGen := 0; mech_RsaPkcs := 1; mech_RsaPkcsOaep := 9; mech_RsaPkcsPss := 13;
    mech_Sha256RsaPkcs := 64; mech_Sha256RsaPkcsPss := 67; mech_Sha256 := 592; mech_Sha256Hmac := 593;
    mech_GenericSecretKeyGen := 848; mech_EcKeyPairGen := 4160; mech_Ecdh1Derive := 4176;
    mech_EcEdwardsKeyPairGen := 4181; mech_EdDsa := 4183; mech_AesKeyGen := 4224; mech_AesGcm := 4231;
    mech_HkdfDerive := 16426 |}.

Record AttributeType_t := { cka_Class : N; cka_Token : N; cka_Private : N; cka_Label : N; cka_Value : N;
    cka_KeyType : N; cka_Id : N; cka_Sensitive : N; cka_Encrypt : N; cka_Decrypt : N; cka_Wrap : N; cka_Unwrap
    : N; cka_Sign : N; cka_Verify : N; cka_Derive : N; cka_Modulus : N; cka_ModulusBits : N;
    cka_PublicExponent : N; cka_PrivateExponent : N; cka_ValueLen : N; cka_Extractable : N; cka_EcParams : N;
    cka_EcPoint : N }.
Definition AttributeType : AttributeType_t :=
  {| cka_Class := 0; cka_Token := 1; cka_Private := 2; cka_Label := 3; cka_Value := 17; cka_KeyType := 256;
    cka_Id := 258; cka_Sensitive := 259; cka_Encrypt := 260; cka_Decrypt := 261; cka_Wrap := 262; cka_Unwrap
    := 263; cka_Sign := 264; cka_Verify := 266; cka_Derive := 268; cka_Modulus := 288; cka_ModulusBits := 289;
    cka_PublicExponent := 290; cka_PrivateExponent := 291; cka_ValueLen := 353; cka_Extractable := 354;
    cka_EcParams := 384; cka_EcPoint := 385 |}.

Record KeyType_t := { ckk_Rsa : N; ckk_Ec : N; ckk_GenericSecret : N; ckk_Aes : N; ckk_EcEdwards : N }.
Definition KeyType : KeyType_t :=
  {| ckk_Rsa := 0; ckk_Ec := 3; ckk_GenericSecret := 16; ckk_Aes := 31; ckk_EcEdwards := 64 |}.

Record ReturnValue_t := { ckr_Ok : N; ckr_AttributeSensitive : N; ckr_AttributeTypeInvalid : N;
    ckr_ArgumentsBad : N; ckr_BufferTooSmall : N; ckr_CryptokiAlreadyInitialized : N; ckr_DeviceRemoved : N;
    ckr_KeyHandleInvalid : N; ckr_KeyUnextractable : N; ckr_MechanismInvalid : N; ckr_MechanismParamInvalid :
    N; ckr_SessionClosed : N; ckr_SessionHandleInvalid : N; ckr_SignatureInvalid : N; ckr_UserAlreadyLoggedIn
    : N; ckr_UserNotLoggedIn : N }.
Definition ReturnValue : ReturnValue_t :=
  {| ckr_Ok := 0; ckr_AttributeSensitive := 17; ckr_AttributeTypeInvalid := 18; ckr_ArgumentsBad := 7;
    ckr_BufferTooSmall := 336; ckr_CryptokiAlreadyInitialized := 401; ckr_DeviceRemoved := 50;
    ckr_KeyHandleInvalid := 96; ckr_KeyUnextractable := 106; ckr_MechanismInvalid := 112;
    ckr_MechanismParamInvalid := 113; ckr_SessionClosed := 176; ckr_SessionHandleInvalid := 179;
    ckr_SignatureInvalid := 192; ckr_UserAlreadyLoggedIn := 256; ckr_UserNotLoggedIn := 257 |}.

Definition MECHANISM_NAMES : list (N * jstr) :=
  [(mech_RsaPkcsKeyPairGen Mechanism, js "CKM_RSA_PKCS_KEY_PAIR_GEN");
   (mech_RsaPkcs Mechanism, js "CKM_RSA_PKCS");
   (mech_RsaPkcsOaep Mechanism, js "CKM_RSA_PKCS_OAEP");
   (mech_RsaPkcsPss Mechanism, js "CKM_RSA_PKCS_PSS");
   (mech_Sha256RsaPkcs Mechanism, js "CKM_SHA256_RSA_PKCS");
   (mech_Sha256RsaPkcsPss Mechanism, js "CKM_SHA256_RSA_PKCS_PSS");
   (mech_Sha256 Mechanism, js "CKM_SHA256");
   (mech_Sha256Hmac Mechanism, js "CKM_SHA256_HMAC");
   (mech_GenericSecretKeyGen Mechanism, js "CKM_GENERIC_SECRET_KEY_GEN");
   (mech_EcKeyPairGen Mechanism, js "CKM_EC_KEY_PAIR_GEN");
   (mech_Ecdh1Derive Mechanism, js "CKM_ECDH1_DERIVE");
   (mech_EcEdwardsKeyPairGen Mechanism, js "CKM_EC_EDWARDS_KEY_PAIR_GEN");
   (mech_EdDsa Mechanism, js "CKM_EDDSA");
   (mech_AesKeyGen Mechanism, js "CKM_AES_KEY_GEN");
   (mech_AesGcm Mechanism, js "CKM_AES_GCM");
   (mech_HkdfDerive Mechanism, js "CKM_HKDF_DERIVE")].

Definition CKR_NAMES : list (N * jstr) :=
  [(1, js "CKR_CANCEL");
   (2, js "CKR_HOST_MEMORY");
   (3, js "CKR_SLOT_ID_INVALID");
   (5, js "CKR_GENERAL_ERROR");
   (6, js "CKR_FUNCTION_FAILED");
   (7, js "CKR_ARGUMENTS_BAD");
   (16, js "CKR_ATTRIBUTE_READ_ONLY");
   (17, js "CKR_ATTRIBUTE_SENSITIVE");
   (18, js "CKR_ATTRIBUTE_TYPE_INVALID");
   (19, js "CKR_ATTRIBUTE_VALUE_INVALID");
   (32, js "CKR_DATA_INVALID");
   (33, js "CKR_DATA_LEN_RANGE");
   (48, js "CKR_DEVICE_ERROR");
   (49, js "CKR_DEVICE_MEMORY");
   (50, js "CKR_DEVICE_REMOVED");
   (64, js "CKR_ENCRYPTED_DATA_INVALID");
   (65, js "CKR_ENCRYPTED_DATA_LEN_RANGE");
   (96, js "CKR_KEY_HANDLE_INVALID");
   (98, js "CKR_KEY_SIZE_RANGE");
   (99, js "CKR_KEY_TYPE_INCONSISTENT");
   (104, js "CKR_KEY_FUNCTION_NOT_PERMITTED");
   (105, js "CKR_KEY_NOT_WRAPPABLE");
   (106, js "CKR_KEY_UNEXTRACTABLE");
   (112, js "CKR_MECHANISM_INVALID");
   (113, js "CKR_MECHANISM_PARAM_INVALID");
   (130, js "CKR_OBJECT_HANDLE_INVALID");
   (144, js "CKR_OPERATION_ACTIVE");
   (145, js "CKR_OPERATION_NOT_INITIALIZED");
   (160, js "CKR_PIN_INCORRECT");
   (161, js "CKR_PIN_INVALID");
   (162, js "CKR_PIN_LEN_RANGE");
   (163, js "CKR_PIN_EXPIRED");
   (164, js "CKR_PIN_LOCKED");
   (176, js "CKR_SESSION_CLOSED");
   (177, js "CKR_SESSION_COUNT");
   (179, js "CKR_SESSION_HANDLE_INVALID");
   (181, js "CKR_SESSION_READ_ONLY");
   (192, js "CKR_SIGNATURE_INVALID");
   (193, js "CKR_SIGNATURE_LEN_RANGE");
   (208, js "CKR_TEMPLATE_INCOMPLETE");
   (209, js "CKR_TEMPLATE_INCONSISTENT");
   (224, js "CKR_TOKEN_NOT_PRESENT");
   (225, js "CKR_TOKEN_NOT_RECOGNIZED");
   (226, js "CKR_TOKEN_WRITE_PROTECTED");
   (256, js "CKR_USER_ALREADY_LOGGED_IN");
   (257, js "CKR_USER_NOT_LOGGED_IN");
   (258, js "CKR_USER_PIN_NOT_INITIALIZED");
   (259, js "CKR_USER_TYPE_INVALID");
   (336, js "CKR_BUFFER_TOO_SMALL");
   (400, js "CKR_CRYPTOKI_NOT_INITIALIZED");
   (401, js "CKR_CRYPTOKI_ALREADY_INITIALIZED")].

Definition CKG_MGF1_SHA256 : N := 2.
Definition CKZ_DATA_SPECIFIED : N := 1.
Definition CKD_NULL : N := 1.
Definition CKF_HKDF_SALT_NULL : N := 1.
Definition GCM_NONCE_BYTES : N := 12.
Definition GCM_TAG_BITS : N := 128.

Definition SHA256_DIGEST_INFO_PREFIX : list N :=
  [48; 49; 48; 13; 6; 9; 96; 134; 72; 1; 101; 3; 4; 2; 1; 5; 0; 4; 32].

Definition EC_PARAMS : list (jstr * list N) :=
  [(js "P-256", [6; 8; 42; 134; 72; 206; 61; 3; 1; 7]);
   (js "P-384", [6; 5; 43; 129; 4; 0; 34]);
   (js "P-521", [6; 5; 43; 129; 4; 0; 35]);
   (js "Ed25519", [6; 3; 43; 101; 112])].

Definition number_get {V} (k : N) (l : list (N * V)) : option V := snd <$> find_first (λ p, p.1 =? k) l.

(** [value.toString(16).toUpperCase().padStart(8, 0)]. *)
Fixpoint hex_digits (fuel : nat) (v : N) (acc : jstr) : jstr :=
  match fuel with
  | O => acc
  | S fuel => let acc' := hex_digit true (v mod 16) :: acc in
              if v <? 16 then acc' else hex_digits fuel (v / 16) acc'
  end.
Definition hex_code (v : N) : jstr :=
  let s := hex_digits (S (N.size_nat v)) v [] in replicate (8 - length s) 48 ++ s.

Definition mechanismName (value : N) : jstr :=
  match number_get value MECHANISM_NAMES with Some n => n | None => js "CKM_0x" ++ hex_code value end.

Definition returnValueName (code : N) : jstr :=
  match number_get code CKR_NAMES with Some n => n | None => js "CKR_0x" ++ hex_code code end.

(** ** Attributes *)

Record Attribute := { at_type : N; at_value : list N; at_present : bool }.

#[export] Instance attribute_eq_dec : EqDecision Attribute.
Proof. solve_decision. Defined.

Definition boolAttribute (type : N) (value : bool) : Attribute :=
  {| at_type := type; at_value := [if value then 1 else 0]; at_present := true |}.

(** [setBigUint64(0, BigInt(value), true)]: eight bytes, the value modulo 2^64. *)
Fixpoint le_encode (n : nat) (v : Z) : list N :=
  match n with
  | O => []
  | S n => Z.to_N (v mod 256) :: le_encode n (v / 256)
  end.
Definition ulongAttribute (type : N) (value : Z) : Attribute :=
  {| at_type := type; at_value := le_encode 8 value; at_present := true |}.

Definition bytesAttribute (type : N) (value : list N) : Attribute :=
  {| at_type := type; at_value := value; at_present := true |}.

Definition textAttribute (type : N) (value : jstr) : Attribute :=
  {| at_type := type; at_value := utf8_encode value; at_present := true |}.

Definition le_decode (l : list N) : N := foldr (λ b n, b + 256 * n) 0 l.

(** [Number(bigint)] rounds to a binary64 number. *)
Definition ulongValue (value : list N) : option dbl :=
  if Nat.eqb (length value) 8 then Some (dbl_of_Z (Z.of_N (le_decode value))) else None.

Definition boolValue (value : list N) : option bool :=
  match value with [b] => Some (negb (b =? 0)) | _ => None end.

Definition findAttribute (attributes : list Attribute) (type : N) : option (list N) :=
  at_value <$> find_first (λ a, (at_type a =? type) && at_present a) attributes.

Definition hasAttribute (attributes : list Attribute) (type : N) : bool :=
  match findAttribute attributes type with Some _ => true | None => false end.

(** ** Round trips *)

Lemma le_encode_length n v : length (le_encode n v) = n.
Proof. revert v; induction n as [|n IH]; intros v; simpl; [done|]. by rewrite IH. Qed.

Lemma le_encode_bytes n v : Forall (λ b, b < 256) (le_encode n v).
Proof.
  revert v; induction n as [|n IH]; intros v; simpl; constructor; [|apply IH].
  pose proof (Z.mod_pos_bound v 256 ltac:(lia)). lia.
Qed.

Lemma le_decode_encode n v : Z.of_N (le_decode (le_encode n v)) = (v mod 256 ^ Z.of_nat n)%Z.
Proof.
  revert v; induction n as [|n IH]; intros v; [by rewrite Z.mod_1_r|].
  cbn [le_encode le_decode foldr]. fold (le_decode (le_encode n (v / 256))).
  pose proof (Z.mod_pos_bound v 256 ltac:(lia)) as Hm.
  rewrite N2Z.inj_add, N2Z.inj_mul, IH, Z2N.id by lia.
  rewrite Nat2Z.inj_succ, Z.pow_succ_r by lia. rewrite Z.rem_mul_r by lia. done.
Qed.

(** Every attribute the provider writes reads back: a [CK_ULONG] below 2^64 as its binary64
    number, a [CK_BBOOL] as its boolean, whatever attributes surround it. *)
Theorem attribute_roundtrip before after type v b :
  (0 ≤ v < 2 ^ 64)%Z → Forall (λ a, at_type a ≠ type) before →
  length (at_value (ulongAttribute type v)) = 8%nat ∧
  Forall (λ b, b < 256) (at_value (ulongAttribute type v)) ∧
  (findAttribute (before ++ ulongAttribute type v :: after) type ≫= ulongValue) = Some (dbl_of_Z v) ∧
  (findAttribute (before ++ boolAttribute type b :: after) type ≫= boolValue) = Some b ∧
  ulongValue (at_value (boolAttribute type b)) = None ∧ boolValue (at_value (ulongAttribute type v)) = None.
Proof.
  intros Hv Hb. split; [done|]. split; [apply le_encode_bytes|].
  assert (Hf : ∀ a, at_type a = type → at_present a = true →
    findAttribute (before ++ a :: after) type = Some (at_value a)).
  { intros a Ha Hp. unfold findAttribute. induction Hb as [|x before Hx _ IH]; simpl.
    - by rewrite Ha, N.eqb_refl, Hp.
    - by rewrite (proj2 (N.eqb_neq _ _) Hx). }
  rewrite !Hf by done. split_and!; try done.
  - change (ulongValue (le_encode 8 v) = Some (dbl_of_Z v)). unfold ulongValue.
    rewrite le_encode_length, le_decode_encode, Z.mod_small by lia. done.
  - by destruct b.
Qed.

Lemma attribute_roundtrip_witness :
  (findAttribute [boolAttribute 1 true; ulongAttribute 353 32] 353 ≫= ulongValue) = Some (dbl_of_Z 32).
Proof. apply (attribute_roundtrip [boolAttribute 1 true] [] 353 32 true); [lia|repeat constructor; done]. Defined.

(** The names of the source's constants. *)
Example mechanism_names : mechanismName (mech_AesGcm Mechanism) = js "CKM_AES_GCM" ∧
  mechanismName 2147483649 = js "CKM_0x80000001" ∧ returnValueName 179 = js "CKR_SESSION_HANDLE_INVALID" ∧
  returnValueName 26 = js "CKR_0x0000001A".
Proof. split_and!; reflexivity. Qed.
