(* ===== verification/Pkcs11Options.v ===== *)
(** * encrypt/pkcs11/errors.ts and config.ts: the provider's errors and options

    An error is the record of what its class and constructor fix.  A PIN provider and an
    injected module are objects of the host: numbers stand for their identity. *)

From S2P Require Export Limit Pkcs11Uri.
Local Open Scope nat_scope.

(** ** errors.ts *)

Inductive pkcs11_class := Pkcs11ErrorN | Pkcs11UnavailableErrorN | Pkcs11ModuleRequiredErrorN | Pkcs11TokenRequiredErrorN
  | Pkcs11PinRequiredErrorN | Pkcs11KeyUriRequiredErrorN | Pkcs11KeyNotFoundErrorN | Pkcs11OaepHashUnsupportedErrorN
  | Pkcs11SecretNotExtractableErrorN | Pkcs11UnsupportedMechanismErrorN | Pkcs11TokenErrorN.

#[export] Instance pkcs11_class_eq_dec : EqDecision pkcs11_class.
Proof. solve_decision. Defined.

Record pkcs11_error := {
  pe_name : pkcs11_class;
  pe_message : jstr;
  pe_mechanism : option jstr;
  pe_code : option N;
  pe_ckr : option jstr;
}.

Definition plain_error (name : pkcs11_class) (message : jstr) : pkcs11_error :=
  {| pe_name := name; pe_message := message; pe_mechanism := None; pe_code := None; pe_ckr := None |}.

Definition Pkcs11Error : jstr → pkcs11_error := plain_error Pkcs11ErrorN.

Definition Pkcs11UnavailableError (reason : option jstr) : pkcs11_error :=
  plain_error Pkcs11UnavailableErrorN
    (js "pkcs11: FFI is not available in this runtime"
     ++ match reason with Some (c :: r) => js ": " ++ c :: r | _ => [] end
     ++ js "; run with --allow-ffi on a Deno runtime that supports Deno.dlopen").

Definition Pkcs11ModuleRequiredError : pkcs11_error :=
  plain_error Pkcs11ModuleRequiredErrorN (js "pkcs11: module path is required").

Definition Pkcs11TokenRequiredError : pkcs11_error :=
  plain_error Pkcs11TokenRequiredErrorN (js "pkcs11: token label or slot id is required").

Definition Pkcs11PinRequiredError : pkcs11_error :=
  plain_error Pkcs11PinRequiredErrorN (js "pkcs11: pin provider is required").

Definition Pkcs11KeyUriRequiredError : pkcs11_error :=
  plain_error Pkcs11KeyUriRequiredErrorN (js "pkcs11: key uri is required").

Definition Pkcs11KeyNotFoundError (uri : jstr) (detail : option jstr) : pkcs11_error :=
  plain_error Pkcs11KeyNotFoundErrorN
    (js "pkcs11: no object matches the key uri: "
     ++ match detail with Some (c :: d) => (c :: d) ++ js ": " | _ => [] end ++ uri).

Definition Pkcs11OaepHashUnsupportedError : pkcs11_error :=
  plain_error Pkcs11OaepHashUnsupportedErrorN
    (js "pkcs11: token does not accept RSA-OAEP with SHA-256; the parameters are fixed for "
     ++ js "cross-backend compatibility").

Definition Pkcs11SecretNotExtractableError : pkcs11_error :=
  plain_error Pkcs11SecretNotExtractableErrorN
    (js "pkcs11: token policy forbids extracting the derived secret; ECDH is unavailable on " ++ js "this token").

Definition Pkcs11UnsupportedMechanismError (mechanism : jstr) : pkcs11_error :=
  {| pe_name := Pkcs11UnsupportedMechanismErrorN;
     pe_message := js "pkcs11: token does not support mechanism " ++ mechanism;
     pe_mechanism := Some mechanism; pe_code := None; pe_ckr := None |}.

Definition Pkcs11TokenError (fn : jstr) (code : N) (ckr : jstr) : pkcs11_error :=
  {| pe_name := Pkcs11TokenErrorN; pe_message := js "pkcs11: " ++ fn ++ js " failed: " ++ ckr;
     pe_mechanism := None; pe_code := Some code; pe_ckr := Some ckr |}.

(** ** config.ts *)

Definition PROVIDER : jstr := js "pkcs11".
Definition DEFAULT_MAX_SESSIONS : num := NFin (QArith_base.inject_Z 8).

Record KeyLabelPrefix_t := { klp_Symmetric : jstr; klp_Rsa : jstr; klp_Ecdh : jstr; klp_Ed25519 : jstr; klp_Hmac : jstr }.
Definition KeyLabelPrefix : KeyLabelPrefix_t :=
  {| klp_Symmetric := js "GoForge-symmetric"; klp_Rsa := js "GoForge-rsa"; klp_Ecdh := js "GoForge-ecdh";
     klp_Ed25519 := js "GoForge-ed25519"; klp_Hmac := js "GoForge-hmac" |}.

Definition ECDH_HKDF_INFO_PREFIX : jstr := js "denoforge/ecdh/".

(** What a caller passes; an absent field is [None]. *)
Record Pkcs11Options := {
  po_modulePath : option jstr;
  po_tokenLabel : option jstr;
  po_slotId : option Z;
  po_keyUri : option jstr;
  po_maxSessions : option num;
  po_pin : option nat;
  po_allowSecretExtraction : option bool;
  po_deactivateDestroys : option bool;
  po_rotateDisablesPrevious : option bool;
  po_module : option nat;
}.

Record ResolvedOptions := {
  ro_modulePath : jstr;
  ro_tokenLabel : jstr;
  ro_slotId : option Z;
  ro_keyUri : jstr;
  ro_maxSessions : num;
  ro_pin : option nat;
  ro_allowSecretExtraction : bool;
  ro_deactivateDestroys : bool;
  ro_rotateDisablesPrevious : bool;
  ro_module : option nat;
}.

Definition resolveOptions (o : Pkcs11Options) : ResolvedOptions :=
  {| ro_modulePath := trim (default [] (po_modulePath o));
     ro_tokenLabel := trim (default [] (po_tokenLabel o));
     ro_slotId := po_slotId o;
     ro_keyUri := trim (default [] (po_keyUri o));
     ro_maxSessions := match po_maxSessions o with
                       | Some n => if exceeds_zero n then n else DEFAULT_MAX_SESSIONS
                       | None => DEFAULT_MAX_SESSIONS
                       end;
     ro_pin := po_pin o;
     ro_allowSecretExtraction := default true (po_allowSecretExtraction o);
     ro_deactivateDestroys := default false (po_deactivateDestroys o);
     ro_rotateDisablesPrevious := default false (po_rotateDisablesPrevious o);
     ro_module := po_module o |}.

Definition validateOptions (o : ResolvedOptions) : res pkcs11_error unit :=
  if bool_decide (ro_module o = None) && bool_decide (ro_modulePath o = []) then Err Pkcs11ModuleRequiredError
  else if bool_decide (ro_tokenLabel o = []) && bool_decide (ro_slotId o = None) then Err Pkcs11TokenRequiredError
  else if bool_decide (ro_pin o = None) then Err Pkcs11PinRequiredError
  else Ok tt.

(** [parseKeyUri] throws a [Pkcs11Error]. *)
Definition parse_uri (s : jstr) : res pkcs11_error KeyUri :=
  match parseKeyUri s with Ok u => Ok u | Err m => Err (Pkcs11Error m) end.

Definition resolveKeyUri (o : ResolvedOptions) (reference : jstr) : res pkcs11_error KeyUri :=
  let trimmed := trim reference in
  if negb (bool_decide (trimmed = [])) then parse_uri trimmed
  else if negb (bool_decide (ro_keyUri o = [])) then parse_uri (ro_keyUri o)
  else Err Pkcs11KeyUriRequiredError.

(** The options a resolved record stands for. *)
Definition as_options (o : ResolvedOptions) : Pkcs11Options :=
  {| po_modulePath := Some (ro_modulePath o); po_tokenLabel := Some (ro_tokenLabel o); po_slotId := ro_slotId o;
     po_keyUri := Some (ro_keyUri o); po_maxSessions := Some (ro_maxSessions o); po_pin := ro_pin o;
     po_allowSecretExtraction := Some (ro_allowSecretExtraction o);
     po_deactivateDestroys := Some (ro_deactivateDestroys o);
     po_rotateDisablesPrevious := Some (ro_rotateDisablesPrevious o); po_module := ro_module o |}.

Lemma resolved_limit_positive o : exceeds_zero (ro_maxSessions (resolveOptions o)) = true.
Proof. simpl. destruct (po_maxSessions o) as [n|]; [|done]. by destruct (exceeds_zero n) eqn:E. Qed.

(** Resolving is idempotent, and the provider can start exactly when a library or an injected
    module, a token and a PIN provider were given; otherwise the first missing one is reported. *)
Lemma resolveOptions_idem o : resolveOptions (as_options (resolveOptions o)) = resolveOptions o.
Proof.
  unfold resolveOptions at 1. simpl. rewrite !trim_idem. f_equal.
  pose proof (resolved_limit_positive o) as H. simpl in H. by rewrite H.
Qed.

Lemma validateOptions_Ok o u : validateOptions o = Ok u ↔
  (ro_module o ≠ None ∨ ro_modulePath o ≠ []) ∧ (ro_tokenLabel o ≠ [] ∨ ro_slotId o ≠ None) ∧ ro_pin o ≠ None.
Proof.
  destruct u. unfold validateOptions. repeat case_bool_decide; simpl; split; try done; intuition congruence.
Qed.
