(* ===== verification/Pkcs11Keys.v ===== *)
(** * encrypt/pkcs11/keys.ts: public keys and DER

    Bytes are numbers below 256.  An offset is a JavaScript number: [None] is NaN, and the length
    of the long form is a signed 32-bit number, as the shifts of the source make it. *)

From S2P Require Export EncryptUtil Cryptoki Pkcs11Options.
Local Open Scope nat_scope.

Definition ED25519_PUBLIC_KEY_BYTES : nat := 32.

(** ** Writing *)

(** The loop of [derLength]; five rounds end it, since [>>>] works on 32 bits. *)
Fixpoint length_bytes (fuel : nat) (value : Z) (acc : list N) : list N :=
  match fuel with
  | O => acc
  | S fuel =>
      if (0 <? value)%Z
      then length_bytes fuel (Z.shiftr (value mod 2 ^ 32) 8) (Z.to_N (Z.land value 255) :: acc)
      else acc
  end.

Definition derLength (length : nat) : list N :=
  if length <? 128 then [N.of_nat length]
  else
    let bytes := length_bytes 5 (Z.of_nat length) [] in
    N.lor 128 (N.of_nat (List.length bytes)) :: bytes.

Definition tagged (tag : N) (content : list N) : list N := tag :: derLength (length content) ++ content.
Definition sequence (content : list N) : list N := tagged 48 content.
Definition bitString (content : list N) : list N := tagged 3 (0%N :: content).

(** The leading zeros dropped: the last byte stays. *)
Fixpoint strip_zeros (magnitude : list N) : list N :=
  match magnitude with
  | b :: ((_ :: _) as rest) => if (b =? 0)%N then strip_zeros rest else magnitude
  | _ => magnitude
  end.

Definition high_bit (b : N) : bool := negb (N.land b 128 =? 0)%N.

Definition integer (magnitude : list N) : list N :=
  let trimmed := strip_zeros magnitude in
  tagged 2 (match trimmed with b :: _ => if high_bit b then 0%N :: trimmed else trimmed | [] => [] end).

(** ** Reading *)

Record DerElement := { el_tag : option N; el_start : option Z; el_end : option Z }.

Definition byte_at (bytes : list N) (i : option Z) : option N :=
  match i with Some i => if (0 <=? i)%Z then nth_error bytes (Z.to_nat i) else None | None => None end.

Definition plus (a b : option Z) : option Z := match a, b with Some a, Some b => Some (a + b)%Z | _, _ => None end.

(** [a > n]: false on NaN. *)
Definition above (a : option Z) (n : nat) : bool := match a with Some a => (Z.of_nat n <? a)%Z | None => false end.

Definition to_int32 (z : Z) : Z := let m := (z mod 2 ^ 32)%Z in if (m <? 2 ^ 31)%Z then m else (m - 2 ^ 32)%Z.

(** [(length << 8) | byte] over [count] bytes from the cursor. *)
Fixpoint read_length (bytes : list N) (count : nat) (cursor length : Z) : Z :=
  match count with
  | O => length
  | S count =>
      read_length bytes count (cursor + 1)
        (to_int32 (Z.lor (Z.shiftl length 8) (Z.of_N (default 0%N (byte_at bytes (Some cursor))))))
  end.

Definition readElement (bytes : list N) (offset : option Z) : option DerElement :=
  if above (plus offset (Some 2%Z)) (length bytes) then None
  else
    let tag := byte_at bytes offset in
    let cursor := plus offset (Some 2%Z) in
    match byte_at bytes (plus offset (Some 1%Z)) with
    | Some first =>
        if high_bit first then
          let count := N.to_nat (N.land first 127) in
          if (count =? 0) || (4 <? count) || above (plus cursor (Some (Z.of_nat count))) (length bytes) then None
          else
            match cursor with
            | Some c =>
                let len := read_length bytes count c 0 in
                let start := (c + Z.of_nat count)%Z in
                if above (Some (start + len)%Z) (length bytes) then None
                else Some {| el_tag := tag; el_start := Some start; el_end := Some (start + len)%Z |}
            | None => None
            end
        else
          let stop := plus cursor (Some (Z.of_N first)) in
          if above stop (length bytes) then None else Some {| el_tag := tag; el_start := cursor; el_end := stop |}
    | None => Some {| el_tag := tag; el_start := cursor; el_end := None |}
    end.

(** [slice(start, end)] of a typed array: negative positions count from the end. *)
Definition slice_from (n : nat) (i : option Z) : nat :=
  match i with
  | Some i => if (i <? 0)%Z then Z.to_nat (Z.max 0 (Z.of_nat n + i)) else Z.to_nat (Z.min i (Z.of_nat n))
  | None => 0
  end.
Definition slice_bytes (bytes : list N) (start stop : option Z) : list N :=
  slice bytes (slice_from (length bytes) start) (slice_from (length bytes) stop).

Definition has_tag (e : DerElement) (tag : N) : bool := bool_decide (el_tag e = Some tag).

Definition readOctetString (value : list N) : option (list N) :=
  match readElement value (Some 0%Z) with
  | Some e =>
      if has_tag e 4 && bool_decide (el_end e = Some (Z.of_nat (length value)))
      then Some (slice_bytes value (el_start e) (el_end e)) else None
  | None => None
  end.

(** The loop over the elements before the key: the cursor after them. *)
Fixpoint skip_elements (certificate : list N) (count : nat) (cursor : option Z) : option (option Z) :=
  match count with
  | O => Some cursor
  | S count => match readElement certificate cursor with Some e => skip_elements certificate count (el_end e) | None => None end
  end.

Definition pkcs11_err {A} (m : string) : res pkcs11_error A := Err (Pkcs11Error (js m)).

Definition subjectPublicKeyInfo (certificate : list N) : res pkcs11_error (list N) :=
  match readElement certificate (Some 0%Z) with
  | Some outer =>
      if negb (has_tag outer 48) then pkcs11_err "pkcs11: parse certificate: not a DER SEQUENCE"
      else
        match readElement certificate (el_start outer) with
        | Some tbs =>
            if negb (has_tag tbs 48) then pkcs11_err "pkcs11: parse certificate: no tbsCertificate"
            else
              match readElement certificate (el_start tbs) with
              | None => pkcs11_err "pkcs11: parse certificate: truncated tbsCertificate"
              | Some first =>
                  let '(remaining, cursor) := if has_tag first 160 then (6, el_end first) else (5, el_start tbs) in
                  match skip_elements certificate (remaining - 1) cursor with
                  | None => pkcs11_err "pkcs11: parse certificate: truncated tbsCertificate"
                  | Some cursor =>
                      match readElement certificate cursor with
                      | Some spki =>
                          if has_tag spki 48 then Ok (slice_bytes certificate cursor (el_end spki))
                          else pkcs11_err "pkcs11: parse certificate: no subjectPublicKeyInfo"
                      | None => pkcs11_err "pkcs11: parse certificate: no subjectPublicKeyInfo"
                      end
                  end
              end
        | None => pkcs11_err "pkcs11: parse certificate: no tbsCertificate"
        end
  | None => pkcs11_err "pkcs11: parse certificate: not a DER SEQUENCE"
  end.

(** ** Points and keys *)

Definition isPlausibleEcPoint (value : list N) : bool :=
  (length value =? ED25519_PUBLIC_KEY_BYTES)
  || (1 <? length value) && bool_decide (head value = Some 4%N) && ((length value - 1) mod 2 =? 0).

Definition decodeEcPoint (value : list N) : res pkcs11_error (list N) :=
  if length value =? 0 then pkcs11_err "pkcs11: empty CKA_EC_POINT"
  else
    match readOctetString value with
    | Some unwrapped =>
        if isPlausibleEcPoint unwrapped then Ok unwrapped
        else if isPlausibleEcPoint value then Ok value
        else pkcs11_err "pkcs11: CKA_EC_POINT is neither a wrapped nor a bare point"
    | None => if isPlausibleEcPoint value then Ok value
              else pkcs11_err "pkcs11: CKA_EC_POINT is neither a wrapped nor a bare point"
    end.

Definition ec_params (name : string) : list N := default [] (own_get (js name) EC_PARAMS).

Definition curveFromEcParams (params : list N) : res pkcs11_error jstr :=
  match find_first (λ name, bool_decide (own_get name EC_PARAMS = Some params)) (map js ["P-256"; "P-384"; "P-521"]%string) with
  | Some name => Ok name
  | None => pkcs11_err "pkcs11: unsupported curve in CKA_EC_PARAMS"
  end.

Definition isZero (value : list N) : bool := forallb (λ b, (b =? 0)%N) value.

Definition OID_RSA_ENCRYPTION : list N := [6; 9; 42; 134; 72; 134; 247; 13; 1; 1; 1]%N.
Definition OID_EC_PUBLIC_KEY : list N := [6; 7; 42; 134; 72; 206; 61; 2; 1]%N.
Definition DER_NULL : list N := [5; 0]%N.

(** [findAttribute], or the error. *)
Definition need_attribute (attributes : list Attribute) (type : N) (message : string) : res pkcs11_error (list N) :=
  match findAttribute attributes type with Some v => Ok v | None => pkcs11_err message end.

Definition ecPointFrom (attributes : list Attribute) : res pkcs11_error (list N) :=
  let* raw := need_attribute attributes (cka_EcPoint AttributeType) "pkcs11: object has no CKA_EC_POINT" in
  decodeEcPoint raw.

(** The SPKI bytes of an RSA key. *)
Definition rsa_spki (modulus exponent : list N) : list N :=
  sequence (sequence (OID_RSA_ENCRYPTION ++ DER_NULL) ++ bitString (sequence (integer modulus ++ integer exponent))).

Section keys.
Context `{B64 : Base64}.

Definition rsaPublicKeyFrom (attributes : list Attribute) : res pkcs11_error jstr :=
  let* modulus := need_attribute attributes (cka_Modulus AttributeType) "pkcs11: object has no CKA_MODULUS" in
  let* exponent := need_attribute attributes (cka_PublicExponent AttributeType) "pkcs11: object has no CKA_PUBLIC_EXPONENT" in
  if isZero modulus || isZero exponent then pkcs11_err "pkcs11: object has an unusable rsa public key"
  else Ok (toBase64 (rsa_spki modulus exponent)).

Definition ecdhPublicKeyFrom (attributes : list Attribute) : res pkcs11_error jstr :=
  let* point := ecPointFrom attributes in
  let* params := need_attribute attributes (cka_EcParams AttributeType) "pkcs11: object has no CKA_EC_PARAMS" in
  let* _ := curveFromEcParams params in
  Ok (toBase64 (sequence (sequence (OID_EC_PUBLIC_KEY ++ params) ++ bitString point))).

Definition ed25519PublicKeyFrom (attributes : list Attribute) : res pkcs11_error jstr :=
  let* point := ecPointFrom attributes in
  if negb (length point =? ED25519_PUBLIC_KEY_BYTES)
  then Err (Pkcs11Error (js "pkcs11: ed25519 public key has " ++ nat_to_string (N.of_nat (length point)) ++ js " bytes, want 32"))
  else Ok (toBase64 (sequence (sequence (ec_params "Ed25519") ++ bitString point))).

Definition certificatePublicKey (attributes : list Attribute) : res pkcs11_error jstr :=
  let* der := need_attribute attributes (cka_Value AttributeType) "pkcs11: certificate object has no CKA_VALUE" in
  let* spki := subjectPublicKeyInfo der in
  Ok (toBase64 spki).
End keys.

(** ** What is written is read *)

Local Open Scope Z_scope.

Definition be_value (l : list N) : Z := foldl (λ v b, v * 256 + Z.of_N b) 0 l.
Definition is_byte (b : N) : Prop := (b < 256)%N.

Lemma be_foldl l : ∀ acc, foldl (λ v b, v * 256 + Z.of_N b) acc l = acc * 256 ^ Z.of_nat (length l) + be_value l.
Proof.
  unfold be_value. induction l as [|b l IH]; intros acc; [simpl; lia|]. cbn [foldl]. rewrite IH, (IH (0 * 256 + Z.of_N b)).
  simpl length. rewrite Nat2Z.inj_succ, Z.pow_succ_r by lia. lia.
Qed.

Lemma be_cons b l : be_value (b :: l) = Z.of_N b * 256 ^ Z.of_nat (length l) + be_value l.
Proof. unfold be_value at 1. cbn [foldl]. by rewrite be_foldl. Qed.

Lemma be_range l : Forall is_byte l → 0 <= be_value l < 256 ^ Z.of_nat (length l).
Proof.
  induction 1 as [|b l Hb _ IH]; [done|]. rewrite be_cons. simpl length. rewrite Nat2Z.inj_succ, Z.pow_succ_r by lia. unfold is_byte in Hb. nia.
Qed.

Lemma land_255 v : 0 <= v → Z.land v 255 = v mod 256.
Proof. intros Hv. change 255 with (Z.ones 8). rewrite Z.land_ones by lia. done. Qed.

Lemma lor_byte v b : 0 <= v → 0 <= b < 256 → Z.lor (Z.shiftl v 8) b = v * 256 + b.
Proof.
  intros Hv Hb. pose proof (Z.add_lor_land (Z.shiftl v 8) b) as H. rewrite Z.shiftl_mul_pow2 in H |- * by lia.
  assert (E : Z.land (v * 2 ^ 8) b = 0); [|change (2 ^ 8) with 256 in *; lia]. apply Z.bits_inj'. intros i Hi.
  rewrite Z.land_spec, Z.bits_0. destruct (Z.lt_ge_cases i 8) as [Hlt|Hge].
  - rewrite Z.mul_pow2_bits_low by lia. done.
  - replace (Z.testbit b i) with false; [apply andb_false_r|]. symmetry. destruct (decide (b = 0)) as [->|Hnz]; [apply Z.bits_0|].
    apply Z.bits_above_log2; [lia|]. assert (Z.log2 b < 8) by (apply Z.log2_lt_pow2; lia). lia.
Qed.

Lemma length_bytes_spec fuel : ∀ v acc, 0 <= v < 2 ^ 32 → v < 256 ^ Z.of_nat fuel →
  ∃ l, length_bytes fuel v acc = l ++ acc ∧ be_value l = v ∧ Forall is_byte l ∧ (length l ≤ fuel)%nat ∧
    (∀ k, v < 256 ^ Z.of_nat k → (length l ≤ k)%nat) ∧ (0 < v → l ≠ []).
Proof.
  induction fuel as [|fuel IH]; intros v acc Hv Hf; cbn [length_bytes].
  - assert (v = 0) as -> by (simpl in Hf; lia). exists []. split_and!; done || (intros; simpl; lia) || constructor.
  - destruct (0 <? v) eqn:E; [|assert (v = 0) as -> by lia; exists []; split_and!; done || (intros; simpl; lia) || constructor].
    + rewrite Nat2Z.inj_succ, Z.pow_succ_r in Hf by lia.
      rewrite Z.shiftr_div_pow2, land_255, (Z.mod_small v) by lia. change (2 ^ 8) with 256.
      destruct (IH (v / 256) (Z.to_N (v mod 256) :: acc)) as (l & E1 & E2 & E3 & E4 & E5 & _).
      { split; [apply Z.div_pos; lia|]. apply Z.div_lt_upper_bound; lia. }
      { apply Z.div_lt_upper_bound; lia. }
      pose proof (Z.mod_pos_bound v 256 ltac:(lia)) as Hm.
      exists (l ++ [Z.to_N (v mod 256)]). split_and!.
      * by rewrite E1, <- app_assoc.
      * unfold be_value. rewrite foldl_app. cbn [foldl]. fold (be_value l). rewrite E2, Z2N.id by lia.
        rewrite (Z.div_mod v 256) at 3 by lia. lia.
      * apply Forall_app. split; [done|]. repeat constructor. unfold is_byte. lia.
      * rewrite length_app. simpl. lia.
      * intros [|k] Hk; [simpl in Hk; lia|]. rewrite Nat2Z.inj_succ, Z.pow_succ_r in Hk by lia. rewrite length_app. simpl.
        assert (length l ≤ k)%nat by (apply E5, Z.div_lt_upper_bound; lia). lia.
      * intros _ E0. by destruct l.
Qed.

Lemma byte_at_app l1 b l2 : byte_at (l1 ++ b :: l2) (Some (Z.of_nat (length l1))) = Some b.
Proof.
  unfold byte_at. replace (0 <=? Z.of_nat (length l1)) with true by lia. rewrite Nat2Z.id.
  rewrite nth_error_app2 by lia. by rewrite Nat.sub_diag.
Qed.

Lemma to_int32_small z : 0 <= z < 2 ^ 31 → to_int32 z = z.
Proof. intros Hz. unfold to_int32. rewrite Z.mod_small by lia. by replace (z <? 2 ^ 31) with true by lia. Qed.

Lemma read_length_list l : ∀ pre rest v, Forall is_byte l → 0 <= v → v * 256 ^ Z.of_nat (length l) + be_value l < 2 ^ 31 →
  read_length (pre ++ l ++ rest) (length l) (Z.of_nat (length pre)) v = v * 256 ^ Z.of_nat (length l) + be_value l.
Proof.
  induction l as [|b l IH]; intros pre rest v Hl Hv Hs; [unfold be_value; simpl; lia|]. apply Forall_cons in Hl as [Hb Hl].
  cbn [read_length length]. cbn [app]. rewrite byte_at_app. change (default 0%N (Some b)) with b. unfold is_byte in Hb.
  rewrite lor_byte by lia. rewrite be_cons in Hs |- *. simpl length in Hs. rewrite Nat2Z.inj_succ, Z.pow_succ_r in Hs |- * by lia.
  pose proof (be_range l Hl) as Hr. assert (Hp : 0 < 256 ^ Z.of_nat (length l)) by (apply Z.pow_pos_nonneg; lia).
  rewrite to_int32_small by nia.
  replace (pre ++ b :: l ++ rest) with ((pre ++ [b]) ++ l ++ rest) by (by rewrite <- app_assoc).
  replace (Z.of_nat (length pre) + 1) with (Z.of_nat (length (pre ++ [b]))) by (rewrite length_app; simpl; lia).
  rewrite IH; [nia|done|nia|nia].
Qed.

Lemma above_false a n : (a <= Z.of_nat n) → above (Some a) n = false.
Proof. intros H. simpl. lia. Qed.

(** The header of an element in front of [content], within other bytes. *)
Definition header_size (n : nat) : nat := S (length (derLength n)).

Definition small (content : list N) : Prop := Z.of_nat (length content) < 2 ^ 31.

Lemma derLength_long n : (128 ≤ n)%nat → Z.of_nat n < 2 ^ 31 →
  ∃ l, derLength n = N.lor 128 (N.of_nat (length l)) :: l ∧ be_value l = Z.of_nat n ∧ Forall is_byte l ∧ (1 ≤ length l ≤ 4)%nat.
Proof.
  intros H1 H2. unfold derLength. replace (n <? 128)%nat with false by lia.
  destruct (length_bytes_spec 5 (Z.of_nat n) []) as (l & E1 & E2 & E3 & E4 & E5 & E6); [lia|simpl; lia|].
  exists l. rewrite E1, app_nil_r. split_and!; try done.
  - assert (l ≠ []) by (apply E6; lia). destruct l; [done|simpl; lia].
  - apply E5. simpl. lia.
Qed.

Lemma readElement_tagged pre tag content rest : small content →
  readElement (pre ++ tagged tag content ++ rest) (Some (Z.of_nat (length pre))) =
  Some {| el_tag := Some tag; el_start := Some (Z.of_nat (length pre + header_size (length content)));
          el_end := Some (Z.of_nat (length pre + length (tagged tag content))) |}.
Proof.
  intros Hs. unfold readElement, header_size, tagged. cbn [app]. rewrite byte_at_app. cbn [plus].
  set (n := length content) in *.
  assert (Hlen : length (pre ++ tag :: (derLength n ++ content) ++ rest) = (length pre + 1 + length (derLength n) + n + length rest)%nat)
    by (rewrite length_app; simpl; rewrite !length_app; unfold n; lia).
  destruct (decide (n < 128)%nat) as [Hn|Hn].
  - assert (E : derLength n = [N.of_nat n]) by (unfold derLength; by replace (n <? 128)%nat with true by lia).
    rewrite E in *. cbn [app length] in *. rewrite above_false by lia.
    replace (pre ++ tag :: N.of_nat n :: content ++ rest) with ((pre ++ [tag]) ++ N.of_nat n :: content ++ rest) at 1 by (by rewrite <- app_assoc).
    replace (Z.of_nat (length pre) + 1) with (Z.of_nat (length (pre ++ [tag]))) by (rewrite length_app; simpl; lia).
    rewrite byte_at_app. assert (Hb : high_bit (N.of_nat n) = false).
    { unfold high_bit. assert (H : ∀ m, (m < 128)%nat → negb (N.land (N.of_nat m) 128 =? 0)%N = false); [|by apply H].
      intros m Hm. do 128 (destruct m as [|m]; [done|]). lia. }
    rewrite Hb. rewrite above_false by lia. do 2 f_equal; [f_equal; lia|]. f_equal. lia.
  - destruct (derLength_long n ltac:(lia) Hs) as (l & E & Hv & Hl & Hc). rewrite E in *. cbn [app length] in *.
    rewrite above_false by lia.
    set (first := N.lor 128 (N.of_nat (length l))) in *.
    replace (pre ++ tag :: first :: (l ++ content) ++ rest) with ((pre ++ [tag]) ++ first :: (l ++ content) ++ rest) at 1 by (by rewrite <- app_assoc).
    replace (Z.of_nat (length pre) + 1) with (Z.of_nat (length (pre ++ [tag]))) by (rewrite length_app; simpl; lia).
    rewrite byte_at_app.
    assert (Hf : high_bit first = true ∧ N.to_nat (N.land first 127) = length l).
    { unfold first, high_bit. destruct l as [|? [|? [|? [|? [|]]]]]; simpl in Hc; try lia; done. }
    destruct Hf as [-> ->]. replace (length l =? 0)%nat with false by lia. replace (4 <? length l)%nat with false by lia.
    rewrite above_false by lia. cbn [orb].
    assert (Hrl : read_length (pre ++ tag :: first :: (l ++ content) ++ rest) (length l) (Z.of_nat (length pre) + 2) 0 = Z.of_nat n).
    { replace (pre ++ tag :: first :: (l ++ content) ++ rest) with ((pre ++ [tag; first]) ++ l ++ (content ++ rest)) by (by rewrite <- !app_assoc).
      replace (Z.of_nat (length pre) + 2) with (Z.of_nat (length (pre ++ [tag; first]))) by (rewrite length_app; simpl; lia).
      rewrite read_length_list; [lia|done|lia|unfold small in Hs; fold n in Hs; lia]. }
    rewrite Hrl, above_false by lia. do 2 f_equal; [f_equal; lia|]. f_equal. rewrite length_app. fold n. lia.
Qed.

(** ** Certificates *)

Local Open Scope nat_scope.

Lemma tagged_length tag content : length content ≤ length (tagged tag content).
Proof. unfold tagged. simpl. rewrite length_app. lia. Qed.

Lemma slice_middle pre x rest : slice_bytes (pre ++ x ++ rest) (Some (Z.of_nat (length pre))) (Some (Z.of_nat (length pre + length x))) = x.
Proof.
  unfold slice_bytes, slice_from, slice. rewrite !length_app.
  replace (Z.of_nat (length pre) <? 0)%Z with false by lia. replace (Z.of_nat (length pre + length x) <? 0)%Z with false by lia.
  replace (Z.to_nat (Z.min (Z.of_nat (length pre)) _)) with (length pre) by lia.
  replace (Z.to_nat (Z.min (Z.of_nat (length pre + length x)) _)) with (length pre + length x) by lia.
  rewrite drop_app_length. replace (length pre + length x - length pre) with (length x) by lia. by rewrite take_app_length.
Qed.

(** The elements of a list of tags and contents. *)
Definition elements (fields : list (N * list N)) : list N := concat (map (λ f, tagged f.1 f.2) fields).

Lemma skip_elements_spec fields : ∀ pre rest, Forall (λ f, small f.2) fields →
  skip_elements (pre ++ elements fields ++ rest) (length fields) (Some (Z.of_nat (length pre))) =
  Some (Some (Z.of_nat (length pre + length (elements fields)))).
Proof.
  induction fields as [|[tag c] fields IH]; intros pre rest Hf; [simpl; do 3 f_equal; lia|].
  apply Forall_cons in Hf as [Hc Hf]. change (elements ((tag, c) :: fields)) with (tagged tag c ++ elements fields). cbn [skip_elements length].
  rewrite <- (app_assoc _ (elements fields) rest), readElement_tagged by done. cbn [el_end].
  specialize (IH (pre ++ tagged tag c) rest Hf). rewrite <- app_assoc, length_app in IH. cbn [fst snd].
  rewrite IH. do 2 f_equal. rewrite length_app. lia.
Qed.

(** A certificate: the version if any, five fields, the key, the extensions, the signature. *)
Definition certificate (version : list (N * list N)) (fields : list (N * list N)) (key extensions signature : list N) : list N :=
  sequence (sequence (elements version ++ elements fields ++ sequence key ++ extensions) ++ signature).

Lemma small_le l l' : length l ≤ length l' → small l' → small l.
Proof. unfold small. lia. Qed.

Lemma elements_small fields : Forall (λ f, length f.2 ≤ length (elements fields)) fields.
Proof.
  induction fields as [|[tag c] fields IH]; [constructor|].
  change (elements ((tag, c) :: fields)) with (tagged tag c ++ elements fields). rewrite length_app. pose proof (tagged_length tag c) as Ht.
  constructor; [cbn [snd]; lia|]. eapply Forall_impl; [exact IH|]. intros f Hf. cbn beta in *. lia.
Qed.

Lemma fields_small fields l : length (elements fields) ≤ length l → small l → Forall (λ f, small f.2) fields.
Proof. intros Hl Hs. eapply Forall_impl; [apply (elements_small fields)|]. intros f Hf. cbn beta in Hf. eapply small_le; [|exact Hs]. lia. Qed.

(** Walking a certificate with [n] elements before the element that is returned. *)
Lemma certificate_walk version fields key extensions signature cert :
  cert = certificate version fields key extensions signature → small cert →
  ∃ pre post, cert = pre ++ (elements version ++ elements fields ++ sequence key ++ extensions) ++ post ∧
    readElement cert (Some 0%Z) = Some {| el_tag := Some 48%N; el_start := Some (Z.of_nat (header_size (length (sequence (elements version ++ elements fields ++ sequence key ++ extensions) ++ signature)))); el_end := Some (Z.of_nat (length cert)) |} ∧
    ∃ stop, readElement cert (Some (Z.of_nat (header_size (length (sequence (elements version ++ elements fields ++ sequence key ++ extensions) ++ signature))))) =
      Some {| el_tag := Some 48%N; el_start := Some (Z.of_nat (length pre)); el_end := Some stop |}.
Proof.
  intros E Hs. set (body := elements version ++ elements fields ++ sequence key ++ extensions) in *.
  set (outer := sequence body ++ signature). set (head := 48%N :: derLength (length outer)).
  set (head2 := 48%N :: derLength (length body)).
  assert (Ec : cert = head ++ (head2 ++ body) ++ signature) by done.
  assert (Hh : length head = header_size (length outer)) by done.
  assert (Hso : small outer) by (eapply small_le; [|exact Hs]; rewrite E; apply tagged_length).
  assert (Hsb : small body).
  { eapply small_le; [|exact Hso]. unfold outer. rewrite length_app. pose proof (tagged_length 48 body). unfold sequence. lia. }
  exists (head ++ head2), signature. split; [by rewrite Ec, <- !app_assoc|]. split.
  - pose proof (readElement_tagged [] 48 outer [] Hso) as H. rewrite app_nil_r in H. rewrite E. exact H.
  - eexists. rewrite <- Hh. pose proof (readElement_tagged head 48 body signature Hsb) as H.
    change (tagged 48 body) with (head2 ++ body) in H. rewrite <- Ec in H. rewrite H.
    do 2 f_equal. f_equal. unfold head2, header_size. rewrite length_app. simpl. lia.
Qed.

(** From a certificate with a version, as every X.509 v3 certificate has, the provider returns
    exactly its subjectPublicKeyInfo, whatever the other fields, the extensions and the signature
    hold. *)
Theorem certificate_key version fields key extensions signature :
  length fields = 5 → small (certificate [(160%N, version)] fields key extensions signature) →
  subjectPublicKeyInfo (certificate [(160%N, version)] fields key extensions signature) = Ok (sequence key).
Proof.
  intros Hf Hs. set (cert := certificate _ _ _ _ _) in *.
  destruct (certificate_walk [(160%N, version)] fields key extensions signature cert eq_refl Hs) as (pre & post & E & R1 & stop & R2).
  assert (Hlen : length (elements [(160%N, version)] ++ elements fields ++ sequence key ++ extensions) ≤ length cert).
  { rewrite E, !length_app. lia. }
  rewrite !length_app in Hlen.
  assert (Hv : small version).
  { eapply small_le; [|exact Hs]. pose proof (tagged_length 160 version). change (elements [(160%N, version)]) with (tagged 160 version ++ []) in Hlen. rewrite app_nil_r in Hlen. lia. }
  assert (Hfs : Forall (λ f, small f.2) fields) by (eapply fields_small; [|exact Hs]; lia).
  assert (Hk : small key).
  { eapply small_le; [|exact Hs]. pose proof (tagged_length 48 key). unfold sequence in Hlen. lia. }
  unfold subjectPublicKeyInfo. rewrite R1. unfold has_tag. cbn [el_tag el_start el_end].
  rewrite (bool_decide_true (Some 48%N = Some 48%N)) by done. cbn [negb]. rewrite R2. cbn [el_tag el_start].
  rewrite (bool_decide_true (Some 48%N = Some 48%N)) by done. cbn [negb].
  assert (Hc : cert = pre ++ tagged 160 version ++ (elements fields ++ sequence key ++ extensions) ++ post).
  { rewrite E. change (elements [(160%N, version)]) with (tagged 160 version ++ []). by rewrite app_nil_r, <- !app_assoc. }
  rewrite Hc at 1. rewrite readElement_tagged by done. cbn [el_tag el_end].
  rewrite (bool_decide_true (Some 160%N = Some 160%N)) by done.
  change (6 - 1) with 5. rewrite <- Hf at 1.
  pose proof (skip_elements_spec fields (pre ++ tagged 160 version) (sequence key ++ extensions ++ post) Hfs) as Hsk.
  assert (Hc2 : cert = (pre ++ tagged 160 version) ++ elements fields ++ sequence key ++ extensions ++ post) by (rewrite Hc, <- !app_assoc; done).
  rewrite <- Hc2, length_app in Hsk. rewrite Hsk.
  set (pre3 := (pre ++ tagged 160 version) ++ elements fields).
  assert (Hc3 : cert = pre3 ++ sequence key ++ (extensions ++ post)) by (rewrite Hc2; unfold pre3; by rewrite <- !app_assoc).
  assert (Hl3 : length pre + length (tagged 160 version) + length (elements fields) = length pre3) by (unfold pre3; rewrite !length_app; lia).
  rewrite Hl3. pose proof (readElement_tagged pre3 48 key (extensions ++ post) Hk) as H. fold (sequence key) in H. rewrite <- Hc3 in H.
  rewrite H. cbn [el_tag el_end]. rewrite (bool_decide_true (Some 48%N = Some 48%N)) by done. f_equal.
  rewrite Hc3. apply slice_middle.
Qed.

(** ** Points *)

Lemma readOctetString_tagged p : small p → readOctetString (tagged 4 p) = Some p.
Proof.
  intros Hs. unfold readOctetString. pose proof (readElement_tagged [] 4 p [] Hs) as H. rewrite app_nil_r in H. cbn [app length] in H.
  change (Z.of_nat 0) with 0%Z in H. rewrite H. unfold has_tag. cbn [el_tag el_start el_end].
  rewrite !bool_decide_true by (done || (f_equal; lia)). cbn [andb]. f_equal.
  set (head := 4%N :: derLength (length p)). change (tagged 4 p) with (head ++ p). 
  etransitivity; [|exact (slice_middle head p [])]. rewrite app_nil_r, length_app. done.
Qed.

(** [decodeEcPoint] unwraps every point that a token stores as an OCTET STRING, returns a bare
    point as it is unless its bytes read as a wrapped point too, and refuses everything else. *)
Theorem decodeEcPoint_spec value :
  (∀ p, value = tagged 4 p → small p → isPlausibleEcPoint p = true → decodeEcPoint value = Ok p) ∧
  (isPlausibleEcPoint value = true → (∀ p, readOctetString value = Some p → isPlausibleEcPoint p = false) → decodeEcPoint value = Ok value) ∧
  (∀ p, decodeEcPoint value = Ok p → isPlausibleEcPoint p = true ∧ (p = value ∨ readOctetString value = Some p)).
Proof.
  unfold decodeEcPoint. split_and!.
  - intros p -> Hs Hp. rewrite readOctetString_tagged by done. rewrite Hp. done.
  - intros Hv Hn. replace (length value =? 0) with false by (symmetry; apply Nat.eqb_neq; intros E; by destruct value).
    destruct (readOctetString value) as [q|]; [rewrite (Hn q) by done|]; by rewrite Hv.
  - intros p. destruct (length value =? 0); [done|]. destruct (readOctetString value) as [q|].
    + destruct (isPlausibleEcPoint q) eqn:Eq; [intros [= <-]; auto|]. destruct (isPlausibleEcPoint value) eqn:Ev; [intros [= <-]; auto|done].
    + destruct (isPlausibleEcPoint value) eqn:Ev; [intros [= <-]; auto|done].
Qed.

(** ** RSA keys *)

(** The content of a leading element with this tag, and what follows it. *)
Definition open_element (tag : N) (bytes : list N) : option (list N * list N) :=
  match readElement bytes (Some 0%Z) with
  | Some e => if has_tag e tag then Some (slice_bytes bytes (el_start e) (el_end e), drop (slice_from (length bytes) (el_end e)) bytes) else None
  | None => None
  end.

Lemma open_tagged tag c rest : small c → open_element tag (tagged tag c ++ rest) = Some (c, rest).
Proof.
  intros Hs. unfold open_element. pose proof (readElement_tagged [] tag c rest Hs) as H. cbn [app length] in H. change (Z.of_nat 0) with 0%Z in H.
  rewrite H. unfold has_tag. cbn [el_tag el_start el_end]. rewrite bool_decide_true by done. do 2 f_equal.
  - set (head := tag :: derLength (length c)). change (tagged tag c) with (head ++ c). rewrite <- app_assoc.
    etransitivity; [|exact (slice_middle head c rest)]. rewrite length_app. done.
  - unfold slice_from. rewrite length_app. replace (Z.of_nat (0 + length (tagged tag c)) <? 0)%Z with false by lia.
    replace (Z.to_nat _) with (length (tagged tag c)) by lia. apply drop_app_length.
Qed.

Lemma strip_zeros_value m : be_value (strip_zeros m) = be_value m.
Proof.
  induction m as [|b m IH]; [done|]. destruct m as [|b' m]; [done|]. cbn [strip_zeros] in *. destruct (b =? 0)%N eqn:E; [|done].
  rewrite IH. rewrite (be_cons b). replace b with 0%N by lia. lia.
Qed.

Lemma strip_zeros_length m : length (strip_zeros m) ≤ length m.
Proof. induction m as [|b [|b' m] IH]; [done..|]. cbn [strip_zeros] in *. destruct (b =? 0)%N; simpl in *; lia. Qed.

Lemma strip_zeros_head m : match strip_zeros m with b :: _ :: _ => b ≠ 0%N | [] => m = [] | _ => True end.
Proof.
  induction m as [|b m IH]; [done|]. destruct m as [|b' m]; [done|].
  change (strip_zeros (b :: b' :: m)) with (if (b =? 0)%N then strip_zeros (b' :: m) else b :: b' :: m).
  destruct (b =? 0)%N eqn:E; [|lia]. by destruct (strip_zeros (b' :: m)) as [|c [|]].
Qed.

(** What an INTEGER holds: the same number, without a leading sign bit or a superfluous zero. *)
Definition der_integer (m content : list N) : Prop :=
  be_value content = be_value m ∧ match content with
                                  | [] => m = []
                                  | [b] => high_bit b = false
                                  | b :: b' :: _ => high_bit b = false ∧ (b = 0%N → high_bit b' = true)
                                  end.

Lemma integer_spec m : ∃ c, integer m = tagged 2 c ∧ der_integer m c ∧ length c ≤ S (length m).
Proof.
  unfold integer. eexists. split; [reflexivity|]. pose proof (strip_zeros_value m) as Hv. pose proof (strip_zeros_length m) as Hl.
  pose proof (strip_zeros_head m) as Hz.
  unfold der_integer. destruct (strip_zeros m) as [|b t]; [simpl in *; split_and!; (done || lia)|].
  destruct (high_bit b) eqn:Eb.
  - split; [split; [rewrite be_cons, <- Hv; lia|]|simpl in *; lia]. destruct t; by split_and!.
  - split; [split; [done|]|simpl in *; lia]. destruct t as [|b' t]; [done|]. split; [done|]. intros ->. done.
Qed.

(** The key built from the components of an RSA object reads back as the SPKI structure of its
    modulus and exponent: one sequence with the algorithm and a bit string without unused bits that
    holds the sequence of two INTEGERs, each the number of its component, positive and minimal. *)
Theorem rsa_spki_reads modulus exponent : (Z.of_nat (length modulus + length exponent) < 2 ^ 20)%Z →
  ∃ body algorithm bits key m e,
    open_element 48 (rsa_spki modulus exponent) = Some (body, []) ∧
    open_element 48 body = Some (algorithm, tagged 3 (0%N :: bits)) ∧ algorithm = OID_RSA_ENCRYPTION ++ DER_NULL ∧
    open_element 3 (tagged 3 (0%N :: bits)) = Some (0%N :: bits, []) ∧
    open_element 48 bits = Some (key, []) ∧
    open_element 2 key = Some (m, tagged 2 e) ∧ open_element 2 (tagged 2 e) = Some (e, []) ∧
    der_integer modulus m ∧ der_integer exponent e.
Proof.
  intros Hl. destruct (integer_spec modulus) as (m & Em & Hm & Lm), (integer_spec exponent) as (e & Ee & He & Le).
  assert (Hdl : ∀ n, (Z.of_nat n < 2 ^ 21)%Z → length (derLength n) ≤ 5).
  { intros n Hn. unfold derLength. destruct (n <? 128); [simpl; lia|].
    destruct (length_bytes_spec 5 (Z.of_nat n) []) as (l & -> & _ & _ & _ & H5 & _); [lia|lia|].
    rewrite app_nil_r. simpl. assert (length l ≤ 4); [|lia]. apply H5. change (Z.of_nat 4) with 4%Z. lia. }
  assert (Hsm : ∀ l : list N, (Z.of_nat (length l) < 2 ^ 21)%Z → small l) by (intros l H; unfold small; lia).
  assert (Hlt : ∀ t l, (Z.of_nat (length l) < 2 ^ 21)%Z → length (tagged t l) ≤ length l + 6).
  { intros t l H. unfold tagged. simpl. rewrite length_app. specialize (Hdl _ H). lia. }
  set (key := tagged 2 m ++ tagged 2 e). set (bits := tagged 48 key). set (alg := OID_RSA_ENCRYPTION ++ DER_NULL).
  assert (Hkey : length key ≤ length modulus + length exponent + 14).
  { unfold key. rewrite length_app. pose proof (Hlt 2%N m ltac:(lia)). pose proof (Hlt 2%N e ltac:(lia)). lia. }
  assert (Hbits : length bits ≤ length modulus + length exponent + 20) by (pose proof (Hlt 48%N key ltac:(lia)); unfold bits; lia).
  assert (Hbs : length (tagged 3 (0%N :: bits)) ≤ length modulus + length exponent + 27).
  { pose proof (Hlt 3%N (0%N :: bits)) as H. cbn [length] in H. specialize (H ltac:(lia)). lia. }
  assert (Hal : length (tagged 48 alg) = 15) by done.
  exists (tagged 48 alg ++ tagged 3 (0%N :: bits)), alg, bits, key, m, e.
  assert (Hopen : ∀ t c, (Z.of_nat (length c) < 2 ^ 21)%Z → open_element t (tagged t c) = Some (c, [])).
  { intros t c H. pose proof (open_tagged t c [] (Hsm c H)) as Ho. by rewrite app_nil_r in Ho. }
  split_and!; try done.
  - unfold rsa_spki, sequence, bitString. rewrite Em, Ee. fold alg key. fold bits. apply Hopen. rewrite length_app. lia.
  - apply open_tagged. by vm_compute.
  - apply Hopen. cbn [length]. lia.
  - apply Hopen. lia.
  - apply open_tagged, Hsm. lia.
  - apply Hopen. lia.
Qed.

(** ** Runs *)

Definition field (n : N) : N * list N := (48%N, [4%N; 1%N; n]).
Definition v3_certificate : list N := certificate [(160%N, [2; 1; 2]%N)] [(2%N, [7%N]); field 1; field 2; field 3; field 4] [9; 9; 9]%N [5; 0]%N [3; 1; 0]%N.

Example certificate_key_witness : subjectPublicKeyInfo v3_certificate = Ok (sequence [9; 9; 9]%N).
Proof. apply (certificate_key [2; 1; 2]%N [(2%N, [7%N]); field 1; field 2; field 3; field 4] [9; 9; 9]%N [5; 0]%N [3; 1; 0]%N); done. Defined.

Example rsa_spki_reads_witness : ∃ body algorithm bits key m e,
  open_element 48 (rsa_spki [0; 200; 1]%N [1; 0; 1]%N) = Some (body, []) ∧
  open_element 48 body = Some (algorithm, tagged 3 (0%N :: bits)) ∧ algorithm = OID_RSA_ENCRYPTION ++ DER_NULL ∧
  open_element 3 (tagged 3 (0%N :: bits)) = Some (0%N :: bits, []) ∧ open_element 48 bits = Some (key, []) ∧
  open_element 2 key = Some (m, tagged 2 e) ∧ open_element 2 (tagged 2 e) = Some (e, []) ∧
  der_integer [0; 200; 1]%N m ∧ der_integer [1; 0; 1]%N e.
Proof. by apply (rsa_spki_reads [0; 200; 1]%N [1; 0; 1]%N). Defined.

(** A version 1 certificate has no version element: the walk stops one field early and the subject
    is returned as the public key. *)
Theorem v1_subject_returned :
  subjectPublicKeyInfo (certificate [] [(2%N, [7%N]); field 1; field 2; field 3; field 4] [9; 9; 9]%N [] [3; 1; 0]%N) =
  Ok (sequence (field 4).2).
Proof. vm_compute. reflexivity. Qed.

(** A length of four bytes with the top bit set is a negative number: the element ends before it
    starts instead of being refused as longer than the input. *)
Theorem negative_length :
  readElement [48; 132; 255; 255; 255; 250]%N (Some 0%Z) = Some {| el_tag := Some 48%N; el_start := Some 6%Z; el_end := Some 0%Z |}.
Proof. vm_compute. reflexivity. Qed.

(** A bare uncompressed P-256 point whose first two coordinate bytes are 63 and 4 is taken for a
    wrapped one and loses its first two bytes. *)
Definition bare_point : list N := 4%N :: 63%N :: 4%N :: replicate 62 1%N.
Theorem bare_point_misread : length bare_point = 65 ∧ isPlausibleEcPoint bare_point = true ∧ decodeEcPoint bare_point = Ok (drop 2 bare_point).
Proof. split_and!; vm_compute; reflexivity. Qed.
