(* ===== verification/Pkcs11Session.v ===== *)
(** * encrypt/pkcs11/session.ts: library, slot and session life cycle

    The module runs on one thread: what happens between two awaits is one transition.  A session
    handle, a caller and a signal are numbers or flags of the event; the token is the source of
    the events that settle its calls.  The file follows the source from the inside out: the
    session pool, the login of a slot, the caches of libraries and slots, [withSession]. *)

From S2P Require Export Cryptoki Pkcs11Options.
Local Open Scope nat_scope.

(** ** SessionPool *)

Section pool.
(** [#size] of the pool. *)
Context (size : num).

(** [sp_woken] are the callers whose promise a wake-up has resolved and that have not run yet,
    [sp_opening] those that await [openSession], [sp_leases] the sessions handed out,
    [sp_closing] the dead sessions [release] is closing, [sp_draining] the sessions each [drain]
    is closing; [sp_lost] counts the wake-ups that an aborted caller received. *)
Record session_pool := {
  sp_open : nat;
  sp_idle : list nat;
  sp_waiters : list nat;
  sp_woken : list nat;
  sp_opening : list nat;
  sp_leases : list (nat * nat);
  sp_closing : list nat;
  sp_draining : list (list nat);
  sp_next : nat;
  sp_lost : nat;
}.

Definition new_session_pool : session_pool :=
  {| sp_open := 0; sp_idle := []; sp_waiters := []; sp_woken := []; sp_opening := []; sp_leases := [];
     sp_closing := []; sp_draining := []; sp_next := 0; sp_lost := 0 |}.

(** [#wake]: [this.#waiters.shift()?.()]. *)
Definition wake (p : session_pool) : session_pool :=
  match sp_waiters p with
  | [] => p
  | k :: ws =>
      {| sp_open := sp_open p; sp_idle := sp_idle p; sp_waiters := ws; sp_woken := sp_woken p ++ [k];
         sp_opening := sp_opening p; sp_leases := sp_leases p; sp_closing := sp_closing p;
         sp_draining := sp_draining p; sp_next := sp_next p; sp_lost := sp_lost p |}
  end.

(** One turn of the loop of [acquire], up to its await. *)
Definition attempt (k : nat) (p : session_pool) : session_pool :=
  match sp_idle p with
  | h :: idle =>
      {| sp_open := sp_open p; sp_idle := idle; sp_waiters := sp_waiters p; sp_woken := sp_woken p;
         sp_opening := sp_opening p; sp_leases := sp_leases p ++ [(k, h)]; sp_closing := sp_closing p;
         sp_draining := sp_draining p; sp_next := sp_next p; sp_lost := sp_lost p |}
  | [] =>
      if below (sp_open p) size
      then {| sp_open := S (sp_open p); sp_idle := []; sp_waiters := sp_waiters p; sp_woken := sp_woken p;
              sp_opening := sp_opening p ++ [k]; sp_leases := sp_leases p; sp_closing := sp_closing p;
              sp_draining := sp_draining p; sp_next := sp_next p; sp_lost := sp_lost p |}
      else {| sp_open := sp_open p; sp_idle := []; sp_waiters := sp_waiters p ++ [k]; sp_woken := sp_woken p;
              sp_opening := sp_opening p; sp_leases := sp_leases p; sp_closing := sp_closing p;
              sp_draining := sp_draining p; sp_next := sp_next p; sp_lost := sp_lost p |}
  end.

(** A call of [acquire]; an aborted signal throws before the loop. *)
Definition session_acquire (aborted : bool) (p : session_pool) : session_pool :=
  let p1 := {| sp_open := sp_open p; sp_idle := sp_idle p; sp_waiters := sp_waiters p; sp_woken := sp_woken p;
               sp_opening := sp_opening p; sp_leases := sp_leases p; sp_closing := sp_closing p;
               sp_draining := sp_draining p; sp_next := S (sp_next p); sp_lost := sp_lost p |} in
  if aborted then p1 else attempt (sp_next p) p1.

(** A woken caller runs: [signal?.throwIfAborted()], then the loop again. *)
Definition resume (k : nat) (aborted : bool) (p : session_pool) : option session_pool :=
  if bool_decide (k ∈ sp_woken p) then
    let p1 n := {| sp_open := sp_open p; sp_idle := sp_idle p; sp_waiters := sp_waiters p;
                   sp_woken := drop_nat k (sp_woken p); sp_opening := sp_opening p;
                   sp_leases := sp_leases p; sp_closing := sp_closing p; sp_draining := sp_draining p;
                   sp_next := sp_next p; sp_lost := n |} in
    Some (if aborted then p1 (S (sp_lost p)) else attempt k (p1 (sp_lost p)))
  else None.

(** The sessions that are idle or handed out. *)
Definition known_sessions (p : session_pool) : list nat := sp_idle p ++ map snd (sp_leases p).

(** [openSession] resolves with [h]: the token never gives the handle of such a session. *)
Definition session_opened (k h : nat) (p : session_pool) : option session_pool :=
  if bool_decide (k ∈ sp_opening p) && bool_decide (h ∉ known_sessions p) then
    Some {| sp_open := sp_open p; sp_idle := sp_idle p; sp_waiters := sp_waiters p; sp_woken := sp_woken p;
            sp_opening := drop_nat k (sp_opening p); sp_leases := sp_leases p ++ [(k, h)];
            sp_closing := sp_closing p; sp_draining := sp_draining p; sp_next := sp_next p; sp_lost := sp_lost p |}
  else None.

(** [openSession] rejects. *)
Definition open_failed (k : nat) (p : session_pool) : option session_pool :=
  if bool_decide (k ∈ sp_opening p) then
    Some (wake {| sp_open := sp_open p - 1; sp_idle := sp_idle p; sp_waiters := sp_waiters p; sp_woken := sp_woken p;
                  sp_opening := drop_nat k (sp_opening p); sp_leases := sp_leases p;
                  sp_closing := sp_closing p; sp_draining := sp_draining p; sp_next := sp_next p;
                  sp_lost := sp_lost p |})
  else None.

(** [release] of the session caller [k] holds; [dead] is [failure !== undefined &&
    sessionIsDead(failure)]. *)
Definition session_release (k : nat) (dead : bool) (p : session_pool) : option session_pool :=
  match find_first (λ q, q.1 =? k) (sp_leases p) with
  | None => None
  | Some (_, h) =>
      let leases := drop_first (λ q, q.1 =? k) (sp_leases p) in
      Some (if dead
            then {| sp_open := sp_open p - 1; sp_idle := sp_idle p; sp_waiters := sp_waiters p;
                    sp_woken := sp_woken p; sp_opening := sp_opening p; sp_leases := leases;
                    sp_closing := sp_closing p ++ [h]; sp_draining := sp_draining p; sp_next := sp_next p;
                    sp_lost := sp_lost p |}
            else wake {| sp_open := sp_open p; sp_idle := h :: sp_idle p; sp_waiters := sp_waiters p;
                         sp_woken := sp_woken p; sp_opening := sp_opening p; sp_leases := leases;
                         sp_closing := sp_closing p; sp_draining := sp_draining p; sp_next := sp_next p;
                         sp_lost := sp_lost p |})
  end.

(** [closeSession] of a dead session settles, either way. *)
Definition dead_closed (h : nat) (p : session_pool) : option session_pool :=
  if bool_decide (h ∈ sp_closing p) then
    Some (wake {| sp_open := sp_open p; sp_idle := sp_idle p; sp_waiters := sp_waiters p; sp_woken := sp_woken p;
                  sp_opening := sp_opening p; sp_leases := sp_leases p;
                  sp_closing := drop_nat h (sp_closing p); sp_draining := sp_draining p;
                  sp_next := sp_next p; sp_lost := sp_lost p |})
  else None.

(** [drain] up to its first await: with no idle session there is none. *)
Definition drain (p : session_pool) : session_pool :=
  match sp_idle p with
  | [] => wake p
  | sessions =>
      {| sp_open := sp_open p - length sessions; sp_idle := []; sp_waiters := sp_waiters p; sp_woken := sp_woken p;
         sp_opening := sp_opening p; sp_leases := sp_leases p; sp_closing := sp_closing p;
         sp_draining := sp_draining p ++ [sessions]; sp_next := sp_next p; sp_lost := sp_lost p |}
  end.

(** The oldest call of the [i]-th [drain] in progress settles; the last one ends it. *)
Definition drain_closed (i : nat) (p : session_pool) : option session_pool :=
  match sp_draining p !! i with
  | Some (_ :: rest) =>
      let p1 d := {| sp_open := sp_open p; sp_idle := sp_idle p; sp_waiters := sp_waiters p; sp_woken := sp_woken p;
                     sp_opening := sp_opening p; sp_leases := sp_leases p; sp_closing := sp_closing p;
                     sp_draining := d; sp_next := sp_next p; sp_lost := sp_lost p |} in
      Some (match rest with
            | [] => wake (p1 (delete i (sp_draining p)))
            | _ => p1 (<[i := rest]> (sp_draining p))
            end)
  | _ => None
  end.

Inductive session_event :=
  | SAcquire (aborted : bool)
  | SResume (k : nat) (aborted : bool)
  | SOpened (k h : nat)
  | SOpenFailed (k : nat)
  | SRelease (k : nat) (dead : bool)
  | SDeadClosed (h : nat)
  | SDrain
  | SDrainClosed (i : nat).

Definition session_step (p : session_pool) (ev : session_event) : option session_pool :=
  match ev with
  | SAcquire a => Some (session_acquire a p)
  | SResume k a => resume k a p
  | SOpened k h => session_opened k h p
  | SOpenFailed k => open_failed k p
  | SRelease k d => session_release k d p
  | SDeadClosed h => dead_closed h p
  | SDrain => Some (drain p)
  | SDrainClosed i => drain_closed i p
  end.

Definition session_run : session_pool → list session_event → session_pool → Prop :=
  run (λ p ev p', session_step p ev = Some p').
End pool.

(** A history, for concrete runs. *)
Definition session_exec (size : num) (evs : list session_event) : option session_pool :=
  exec (session_step size) new_session_pool evs.

(** *** The invariant of the session pool *)

(** The wake-ups still to come or on their way. *)
Definition pending_wakes (p : session_pool) : nat :=
  length (sp_woken p) + length (sp_closing p) + length (sp_draining p).

(** The sessions in use. *)
Definition in_use (p : session_pool) : nat := length (sp_leases p) + length (sp_opening p).

Definition callers (p : session_pool) : list nat :=
  sp_waiters p ++ sp_woken p ++ sp_opening p ++ map fst (sp_leases p).

(** [d] is the slack of a state about to wake a caller. *)
Record session_inv (size : num) (d : nat) (p : session_pool) : Prop := {
  si_open : sp_open p = length (sp_idle p) + in_use p;
  si_bound : sp_open p = 0 ∨ below (sp_open p - 1) size = true;
  si_handles : NoDup (known_sessions p);
  si_callers : NoDup (callers p);
  si_next : Forall (λ k, k < sp_next p) (callers p);
  si_waiting : sp_waiters p ≠ [] → below (in_use p + pending_wakes p + sp_lost p + d) size = false;
  si_draining : Forall (λ l, l ≠ []) (sp_draining p);
}.

Lemma session_inv_more size d p : session_inv size d p → session_inv size (S d) p.
Proof. intros []. split; try done. intros H. eapply not_below_mono; [by apply si_waiting0|lia]. Qed.

Lemma bound_pred size n : n = 0 ∨ below (n - 1) size = true → n - 1 = 0 ∨ below (n - 1 - 1) size = true.
Proof. intros [->|H]; [by left|]. right. eapply below_mono; [done|lia]. Qed.

Lemma wake_inv size p : session_inv size 1 p → session_inv size 0 (wake p).
Proof.
  intros [Ho Hb Hh Hc Hn Hw Hd]. unfold wake. destruct (sp_waiters p) as [|k ws] eqn:E.
  - split; done.
  - assert (Hp : callers p ≡ₚ ws ++ (sp_woken p ++ [k]) ++ sp_opening p ++ map fst (sp_leases p)).
    { unfold callers. rewrite E. solve_Permutation. }
    split; simpl; try done; unfold callers, in_use, pending_wakes in *; simpl in *; rewrite <- ?Hp; try done.
    intros _. rewrite length_app. simpl. eapply not_below_mono; [by apply Hw|lia].
Qed.

(** A caller that is in no queue runs one turn of the loop. *)
Lemma session_attempt_inv size k p : session_inv size 1 p → k ∉ callers p → k < sp_next p → session_inv size 0 (attempt size k p).
Proof.
  intros [Ho Hb Hh Hc Hn Hw Hd] Hk Hlt. unfold attempt.
  assert (Hlt' : Forall (λ j, j < sp_next p) (k :: callers p)) by by constructor.
  assert (Hnd : NoDup (k :: callers p)) by by constructor.
  destruct (sp_idle p) as [|h idle] eqn:E; [destruct (below (sp_open p) size) eqn:Eb|].
  - assert (Hp : k :: callers p ≡ₚ sp_waiters p ++ sp_woken p ++ (sp_opening p ++ [k]) ++ map fst (sp_leases p))
      by (unfold callers; solve_Permutation).
    split; unfold callers, in_use, pending_wakes, known_sessions in *; simpl in *; rewrite <- ?Hp, ?length_app; simpl; try done.
    + lia.
    + right. by rewrite Nat.sub_0_r.
    + by rewrite E in Hh.
    + intros H. eapply not_below_mono; [by apply Hw|lia].
  - assert (Hp : k :: callers p ≡ₚ (sp_waiters p ++ [k]) ++ sp_woken p ++ sp_opening p ++ map fst (sp_leases p))
      by (unfold callers; solve_Permutation).
    split; unfold callers, in_use, pending_wakes, known_sessions in *; simpl in *; rewrite <- ?Hp; simpl; try done.
    + by rewrite E in Hh.
    + intros _. eapply not_below_mono; [exact Eb|lia].
  - assert (Hp : k :: callers p ≡ₚ sp_waiters p ++ sp_woken p ++ sp_opening p ++ map fst (sp_leases p ++ [(k, h)]))
      by (unfold callers; rewrite map_app; simpl; solve_Permutation).
    assert (Hq : known_sessions p ≡ₚ idle ++ map snd (sp_leases p ++ [(k, h)]))
      by (unfold known_sessions; rewrite E, map_app; simpl; solve_Permutation).
    split; unfold callers, in_use, pending_wakes, known_sessions in *; simpl in *; rewrite <- ?Hp, <- ?Hq, ?length_app; simpl; try done.
    + lia.
    + intros H. eapply not_below_mono; [by apply Hw|lia].
Qed.

Lemma session_acquire_inv size a p : session_inv size 0 p → session_inv size 0 (session_acquire size a p).
Proof.
  intros [Ho Hb Hh Hc Hn Hw Hd]. unfold session_acquire.
  assert (Hlt : Forall (λ k, k < S (sp_next p)) (callers p)) by (eapply Forall_impl; [exact Hn|simpl; lia]).
  destruct a; [by split|]. apply session_attempt_inv; [apply session_inv_more; by split| |simpl; lia].
  intros Hin. rewrite Forall_forall in Hn. specialize (Hn _ Hin). simpl in Hn. lia.
Qed.

Lemma resume_inv size k a p p' : resume size k a p = Some p' → session_inv size 0 p → session_inv size 0 p'.
Proof.
  unfold resume. case_bool_decide as Hin; [|done]. intros [= <-] [Ho Hb Hh Hc Hn Hw Hd].
  pose proof (drop_nat_perm _ _ Hin) as Hp. pose proof (Permutation_length Hp) as Hl. simpl in Hl.
  set (w := drop_nat k (sp_woken p)) in *.
  assert (Hq : callers p ≡ₚ k :: sp_waiters p ++ w ++ sp_opening p ++ map fst (sp_leases p))
    by (unfold callers; rewrite Hp; solve_Permutation).
  rewrite Hq in Hc, Hn. apply NoDup_cons in Hc as [Hk Hc]. apply Forall_cons in Hn as [Hlt Hn].
  destruct a; [|apply session_attempt_inv; simpl; [|done|done]]; (split; simpl; try done);
    (intros H; eapply not_below_mono; [by apply Hw|unfold in_use, pending_wakes; simpl; lia]).
Qed.

Lemma session_opened_inv size k h p p' : session_opened k h p = Some p' → session_inv size 0 p → session_inv size 0 p'.
Proof.
  unfold session_opened. intros H [Ho Hb Hh Hc Hn Hw Hd].
  destruct (bool_decide _ && _) eqn:E; [|done]. bool_inv. injection H as <-.
  pose proof (drop_nat_perm _ _ H0) as Hp. pose proof (Permutation_length Hp) as Hl. simpl in Hl.
  set (o := drop_nat k (sp_opening p)) in *.
  assert (Hq : callers p ≡ₚ sp_waiters p ++ sp_woken p ++ o ++ map fst (sp_leases p ++ [(k, h)]))
    by (unfold callers; rewrite Hp, map_app; simpl; solve_Permutation).
  assert (Hks : h :: known_sessions p ≡ₚ sp_idle p ++ map snd (sp_leases p ++ [(k, h)]))
    by (unfold known_sessions; rewrite map_app; simpl; solve_Permutation).
  split; unfold callers, in_use, pending_wakes, known_sessions in *; simpl; rewrite <- ?Hq, <- ?Hks, ?length_app; simpl; try done.
  - lia.
  - by constructor.
  - intros Hne. eapply not_below_mono; [by apply Hw|lia].
Qed.

Lemma open_failed_inv size k p p' : open_failed k p = Some p' → session_inv size 0 p → session_inv size 0 p'.
Proof.
  unfold open_failed. case_bool_decide as Hin; [|done]. intros [= <-] [Ho Hb Hh Hc Hn Hw Hd]. apply wake_inv.
  pose proof (drop_nat_perm _ _ Hin) as Hp. pose proof (Permutation_length Hp) as Hl. simpl in Hl.
  set (o := drop_nat k (sp_opening p)) in *.
  assert (Hq : callers p ≡ₚ k :: sp_waiters p ++ sp_woken p ++ o ++ map fst (sp_leases p))
    by (unfold callers; rewrite Hp; solve_Permutation).
  rewrite Hq in Hc, Hn. apply NoDup_cons in Hc as [Hk Hc]. apply Forall_cons in Hn as [Hlt Hn].
  split; unfold in_use, pending_wakes in *; simpl; try done.
  - lia.
  - by apply bound_pred.
  - intros Hne. eapply not_below_mono; [by apply Hw|lia].
Qed.

Lemma session_release_inv size k dead p p' :
  session_release k dead p = Some p' → session_inv size 0 p → session_inv size 0 p'.
Proof.
  unfold session_release. destruct (find_first _ _) as [[j h]|] eqn:E; [|done]. intros [= <-] [Ho Hb Hh Hc Hn Hw Hd].
  apply drop_first_split in E as (l1 & l2 & El & Ed & _). rewrite Ed. clear Ed.
  assert (Hq : callers p ≡ₚ j :: sp_waiters p ++ sp_woken p ++ sp_opening p ++ map fst (l1 ++ l2))
    by (unfold callers; rewrite El, !map_app; simpl; solve_Permutation).
  assert (Hks : known_sessions p ≡ₚ h :: sp_idle p ++ map snd (l1 ++ l2))
    by (unfold known_sessions; rewrite El, !map_app; simpl; solve_Permutation).
  assert (Hl : length (sp_leases p) = S (length (l1 ++ l2))) by (rewrite El, !length_app; simpl; lia).
  rewrite Hq in Hc, Hn. apply NoDup_cons in Hc as [Hk Hc]. apply Forall_cons in Hn as [Hlt Hn]. rewrite Hks in Hh.
  destruct dead; [|apply wake_inv]; (split; unfold in_use, pending_wakes in *; simpl; rewrite ?length_app in *; simpl; try done;
    try lia; try by apply bound_pred); try (intros Hne; eapply not_below_mono; [by apply Hw|lia]).
  by apply NoDup_cons in Hh as [_ Hh].
Qed.

Lemma dead_closed_inv size h p p' : dead_closed h p = Some p' → session_inv size 0 p → session_inv size 0 p'.
Proof.
  unfold dead_closed. case_bool_decide as Hin; [|done]. intros [= <-] [Ho Hb Hh Hc Hn Hw Hd]. apply wake_inv.
  pose proof (Permutation_length (drop_nat_perm _ _ Hin)) as Hl. simpl in Hl.
  split; try done. unfold in_use, pending_wakes in *; simpl.
  intros Hne. eapply not_below_mono; [by apply Hw|lia].
Qed.

Lemma drain_inv size p : session_inv size 0 p → session_inv size 0 (drain p).
Proof.
  intros Hi. unfold drain. destruct (sp_idle p) as [|h idle] eqn:E; [by apply wake_inv, session_inv_more|].
  destruct Hi as [Ho Hb Hh Hc Hn Hw Hd]. rewrite E in Ho. unfold known_sessions in Hh. rewrite E in Hh.
  split; unfold in_use, pending_wakes, known_sessions in *; simpl in *; try done.
  - lia.
  - destruct Hb as [Hb|Hb]; [left; lia|]. right. eapply below_mono; [done|lia].
  - apply NoDup_cons in Hh as [_ Hh]. by apply NoDup_app in Hh as (_ & _ & Hh).
  - rewrite length_app. simpl. intros Hne. eapply not_below_mono; [by apply Hw|lia].
  - apply Forall_app. by repeat constructor.
Qed.

Lemma drain_closed_inv size i p p' : drain_closed i p = Some p' → session_inv size 0 p → session_inv size 0 p'.
Proof.
  unfold drain_closed. destruct (sp_draining p !! i) as [[|h rest]|] eqn:E; [done| |done]. intros [= <-] [Ho Hb Hh Hc Hn Hw Hd].
  pose proof (length_delete _ _ (mk_is_Some _ _ E)) as Hl. pose proof (lookup_lt_Some _ _ _ E) as Hlt.
  destruct rest as [|h' rest]; [apply wake_inv|]; (split; unfold in_use, pending_wakes in *; simpl; try done).
  - intros Hne. eapply not_below_mono; [by apply Hw|lia].
  - by apply Forall_delete.
  - rewrite length_insert. intros Hne. by apply Hw.
  - by apply Forall_insert.
Qed.

Lemma session_step_inv size p ev p' : session_inv size 0 p → session_step size p ev = Some p' → session_inv size 0 p'.
Proof.
  intros Hi. destruct ev; simpl; intros H; try (injection H as <-).
  - by apply session_acquire_inv.
  - by eapply resume_inv.
  - by eapply session_opened_inv.
  - by eapply open_failed_inv.
  - by eapply session_release_inv.
  - by eapply dead_closed_inv.
  - by apply drain_inv.
  - by eapply drain_closed_inv.
Qed.

Lemma session_run_inv size evs p : session_run size new_session_pool evs p → session_inv size 0 p.
Proof.
  intros H. refine (run_invariant _ (session_inv size 0) _ _ _ _ _ H).
  - intros s ev s' Hs He. exact (session_step_inv _ _ _ _ Hs He).
  - split; simpl; try done; by first [left|constructor].
Qed.

(** C24. Sessions are exclusive and bounded.  At any moment the pool counts exactly the sessions that
    are idle, handed out or being opened, never more than its size lets in; no session is idle
    and handed out, or handed out twice; a caller waits, is woken, opens or holds at most once. *)
Theorem sessions_exclusive size evs p : session_run size new_session_pool evs p →
  sp_open p = length (sp_idle p) + length (sp_leases p) + length (sp_opening p) ∧
  (sp_open p = 0 ∨ below (sp_open p - 1) size = true) ∧
  NoDup (known_sessions p) ∧ NoDup (callers p).
Proof. intros [Ho Hb Hh Hc _ _ _]%session_run_inv. unfold in_use in Ho. repeat split; try done. lia. Qed.

Definition two : num := NFin (QArith_base.inject_Z 2).
Definition one : num := NFin (QArith_base.inject_Z 1).

Definition busy_history : list session_event :=
  [SAcquire false; SAcquire false; SOpened 0 7; SOpened 1 8; SAcquire false].

Definition busy_pool : session_pool := default new_session_pool (session_exec two busy_history).

Lemma busy_run : session_run two new_session_pool busy_history busy_pool.
Proof. apply exec_run. vm_compute. reflexivity. Qed.

Lemma sessions_exclusive_witness :
  sp_leases busy_pool = [(0, 7); (1, 8)] ∧ sp_waiters busy_pool = [2] ∧ NoDup (known_sessions busy_pool).
Proof. split; [done|]. split; [done|]. by destruct (sessions_exclusive _ _ _ busy_run) as (_ & _ & ? & _). Defined.

(** C25. No lost wake-up without cancellation.  If no woken caller was found aborted, then whenever
    callers wait and nothing is on its way to wake one (no woken caller, no session being closed),
    every session the size allows is in use: none is idle, none may be opened, and, the size being
    at least one, some caller holds or opens a session and will wake a waiter when it ends. *)
Theorem waiters_served size evs p : session_run size new_session_pool evs p → below 0 size = true →
  sp_lost p = 0 → sp_waiters p ≠ [] → pending_wakes p = 0 →
  sp_idle p = [] ∧ below (sp_open p) size = false ∧ in_use p ≠ 0.
Proof.
  intros [Ho Hb _ _ _ Hw _]%session_run_inv Hs Hl Hne Hp. specialize (Hw Hne). rewrite Hp, Hl, !Nat.add_0_r in Hw.
  destruct (sp_idle p) as [|h idle] eqn:E; simpl in Ho.
  - rewrite Ho. split_and!; try done. intros E0. by rewrite E0, Hs in Hw.
  - exfalso. destruct Hb as [Hb|Hb]; [lia|]. rewrite (below_mono _ _ _ Hb) in Hw; [done|lia].
Qed.

Lemma waiters_served_witness : sp_waiters busy_pool ≠ [] ∧ sp_idle busy_pool = [] ∧ in_use busy_pool ≠ 0.
Proof.
  split; [done|]. destruct (waiters_served _ _ _ busy_run) as (H1 & _ & H2); done.
Defined.

(** An aborted caller consumes the wake-up it received: with one session, caller 1 is woken by
    the release of caller 0, finds its signal aborted and throws; caller 2 still waits although
    the session is idle and nothing will ever wake it. *)
Lemma abort_loses_wakeup : ∃ p,
  session_exec one [SAcquire false; SOpened 0 7; SAcquire false; SAcquire false; SRelease 0 false; SResume 1 true] = Some p ∧
  sp_waiters p = [2] ∧ sp_idle p = [7] ∧ sp_leases p = [] ∧ pending_wakes p = 0 ∧ sp_opening p = [].
Proof. eexists. split; [vm_compute; reflexivity|]. done. Qed.

(** ** SlotState *)

(** The attempt that [#login] holds. *)
Inductive login_phase := LgPin | LgToken | LgSettled.

(** [sl_logins] and [sl_resets] count the successful calls of [C_Login] and the resets of a
    logged-in slot. *)
Record slot_login := {
  sl_loggedIn : bool;
  sl_login : option login_phase;
  sl_logins : nat;
  sl_resets : nat;
}.

Definition new_slot_login : slot_login := {| sl_loggedIn := false; sl_login := None; sl_logins := 0; sl_resets := 0 |}.

Definition with_login (o : option login_phase) (s : slot_login) : slot_login :=
  {| sl_loggedIn := sl_loggedIn s; sl_login := o; sl_logins := sl_logins s; sl_resets := sl_resets s |}.

(** [login]: nothing to do, or the attempt in progress, or a new one that asks for the PIN. *)
Definition slot_login_call (s : slot_login) : slot_login :=
  if sl_loggedIn s then s
  else match sl_login s with Some _ => s | None => with_login (Some LgPin) s end.

(** [await pin(signal)] settles. *)
Definition pin_settled (ok : bool) (s : slot_login) : option slot_login :=
  match sl_login s with
  | Some LgPin => Some (with_login (Some (if ok then LgToken else LgSettled)) s)
  | _ => None
  end.

(** [await module.login(session, secret)] settles. *)
Definition token_login_settled (ok : bool) (s : slot_login) : option slot_login :=
  match sl_login s with
  | Some LgToken =>
      Some (if ok then {| sl_loggedIn := true; sl_login := Some LgSettled; sl_logins := S (sl_logins s);
                          sl_resets := sl_resets s |}
            else with_login (Some LgSettled) s)
  | _ => None
  end.

(** The [finally] of the attempt. *)
Definition login_cleared (s : slot_login) : option slot_login :=
  match sl_login s with Some LgSettled => Some (with_login None s) | _ => None end.

Definition resetLogin (s : slot_login) : slot_login :=
  {| sl_loggedIn := false; sl_login := sl_login s; sl_logins := sl_logins s;
     sl_resets := if sl_loggedIn s then S (sl_resets s) else sl_resets s |}.

Inductive login_event := LCall | LPin (ok : bool) | LToken (ok : bool) | LCleared | LReset.

Definition login_step (s : slot_login) (ev : login_event) : option slot_login :=
  match ev with
  | LCall => Some (slot_login_call s)
  | LPin ok => pin_settled ok s
  | LToken ok => token_login_settled ok s
  | LCleared => login_cleared s
  | LReset => Some (resetLogin s)
  end.

Definition login_run : slot_login → list login_event → slot_login → Prop :=
  run (λ s ev s', login_step s ev = Some s').

Definition login_inv (s : slot_login) : Prop :=
  sl_logins s = sl_resets s + (if sl_loggedIn s then 1 else 0) ∧
  (sl_login s = Some LgPin ∨ sl_login s = Some LgToken → sl_loggedIn s = false).

Lemma login_step_inv s ev s' : login_inv s → login_step s ev = Some s' → login_inv s'.
Proof.
  destruct s as [b o n r]. intros [H1 H2] H. simpl in *.
  destruct ev, b, o as [[]|]; simpl in H; try done; try (specialize (H2 ltac:(auto)); done);
    try (destruct ok); injection H as <-; unfold login_inv; simpl; split; try lia; intros [|]; done.
Qed.

(** A token is logged in once.  However calls of [login], settling PIN providers, settling
    [C_Login] calls and resets interleave, an attempt is never under way while the slot is logged
    in, and the token has accepted exactly one login per reset, plus one while logged in. *)
Theorem login_once evs s : login_run new_slot_login evs s →
  sl_logins s = sl_resets s + (if sl_loggedIn s then 1 else 0) ∧
  (sl_login s = Some LgPin ∨ sl_login s = Some LgToken → sl_loggedIn s = false).
Proof.
  intros H. refine (run_invariant _ login_inv _ _ _ _ _ H).
  - intros ??? Hs He. exact (login_step_inv _ _ _ Hs He).
  - split; done.
Qed.

Definition login_history : list login_event := [LCall; LCall; LPin true; LCall; LToken true; LCleared; LReset; LCall; LPin false].

Lemma login_once_witness : ∃ s, login_run new_slot_login login_history s ∧ sl_logins s = 1 ∧ sl_resets s = 1 ∧
  sl_logins s = sl_resets s + (if sl_loggedIn s then 1 else 0).
Proof.
  assert (H : login_run new_slot_login login_history (default new_slot_login (exec login_step new_slot_login login_history)))
    by (apply exec_run; vm_compute; reflexivity).
  eexists. split; [exact H|]. split; [done|]. split; [done|]. apply (login_once _ _ H).
Defined.

(** [supports] and [requireMechanism]. *)
Definition supports (mechanisms : list N) (mechanism : N) : bool := bool_decide (mechanism ∈ mechanisms).
Definition requireMechanism (mechanisms : list N) (mechanism : N) : res pkcs11_error unit :=
  if supports mechanisms mechanism then Ok tt
  else Err (Pkcs11UnsupportedMechanismError (mechanismName mechanism)).

(** ** The caches of libraries and slots

    [registry], [injected] and the [slots] of an entry are the same code: a map from a key to the
    promise of a load; a load that fails is removed by its [catch] callback, by key. *)

Section cache.
Context {K : Type} `{EqDecision K}.

(** A promise: pending, resolved, rejected with its [catch] still to run, or rejected and done. *)
Inductive load_state := LdWaiting | LdReady | LdRejected | LdEvicted.

(** A load is known by its position in [ch_loads]. *)
Record cache := { ch_map : list (K * nat); ch_loads : list (K * load_state) }.

Definition empty_cache : cache := {| ch_map := []; ch_loads := [] |}.

Definition cache_lookup (key : K) (c : cache) : option nat :=
  snd <$> find_first (λ p, bool_decide (p.1 = key)) (ch_map c).

(** [get(key) ?? set(key, load())]: the cache and the load whose promise the caller gets. *)
Definition cache_get (key : K) (c : cache) : cache * nat :=
  match cache_lookup key c with
  | Some i => (c, i)
  | None => ({| ch_map := ch_map c ++ [(key, length (ch_loads c))]; ch_loads := ch_loads c ++ [(key, LdWaiting)] |},
             length (ch_loads c))
  end.

Definition cache_delete (key : K) (c : cache) : cache :=
  {| ch_map := filter (λ p, p.1 ≠ key) (ch_map c); ch_loads := ch_loads c |}.

Definition set_load_state (i : nat) (st : load_state) (c : cache) : cache :=
  {| ch_map := ch_map c; ch_loads := alter (λ p, (p.1, st)) i (ch_loads c) |}.

Definition cache_settled (i : nat) (ok : bool) (c : cache) : option cache :=
  match ch_loads c !! i with
  | Some (_, LdWaiting) => Some (set_load_state i (if ok then LdReady else LdRejected) c)
  | _ => None
  end.

(** [entry.catch(() => map.delete(key))]. *)
Definition cache_catch (i : nat) (c : cache) : option cache :=
  match ch_loads c !! i with
  | Some (key, LdRejected) => Some (set_load_state i LdEvicted (cache_delete key c))
  | _ => None
  end.

Inductive cache_event := CGet (key : K) | CSettled (i : nat) (ok : bool) | CCatch (i : nat) | CDelete (key : K).

Definition cache_step (c : cache) (ev : cache_event) : option cache :=
  match ev with
  | CGet key => Some (cache_get key c).1
  | CSettled i ok => cache_settled i ok c
  | CCatch i => cache_catch i c
  | CDelete key => Some (cache_delete key c)
  end.

Definition cache_run : cache → list cache_event → cache → Prop := run (λ c ev c', cache_step c ev = Some c').

Definition live (st : load_state) : bool := match st with LdEvicted => false | _ => true end.

(** Without deletions the map holds exactly the loads that did not fail, one per key. *)
Record cache_inv (c : cache) : Prop := {
  ch_nodup : NoDup (map fst (ch_map c));
  ch_mapped : ∀ key i, (key, i) ∈ ch_map c ↔ ∃ st, ch_loads c !! i = Some (key, st) ∧ live st = true;
}.

Lemma cache_lookup_Some key c i : cache_lookup key c = Some i → (key, i) ∈ ch_map c.
Proof.
  unfold cache_lookup. destruct (find_first _ _) as [[k j]|] eqn:E; [|done]. intros [= <-].
  apply find_first_Some in E as [Hin Hk%bool_decide_eq_true]. simpl in Hk. by subst k.
Qed.

Lemma cache_lookup_None key c : cache_lookup key c = None → key ∉ map fst (ch_map c).
Proof.
  unfold cache_lookup. destruct (find_first _ _) as [|] eqn:E; [done|]. intros _ Hin.
  apply list_elem_of_fmap in Hin as ([k j] & -> & Hin). apply find_first_None in E. rewrite Forall_forall in E.
  specialize (E _ Hin). simpl in E. by rewrite bool_decide_true in E.
Qed.

Lemma cache_get_inv key c : cache_inv c → cache_inv (cache_get key c).1.
Proof.
  intros [Hn Hm]. unfold cache_get. destruct (cache_lookup key c) as [i|] eqn:E; [by split|]. simpl.
  apply cache_lookup_None in E. split; simpl.
  - rewrite map_app. apply NoDup_app. split; [done|]. split; [|apply NoDup_singleton].
    intros k Hk ->%list_elem_of_singleton. done.
  - intros k i. rewrite elem_of_app, list_elem_of_singleton, Hm. split.
    + intros [(st & Hi & Hl)|[= -> ->]].
      * exists st. split; [|done]. by apply lookup_app_l_Some.
      * exists LdWaiting. split; [|done]. by apply list_lookup_middle.
    + intros (st & Hi & Hl). apply lookup_app_Some in Hi as [Hi|[Hlt Hi]]; [left; eauto|]. right.
      apply list_lookup_singleton_Some in Hi as [Hz Hp]. injection Hp as <- <-. f_equal. lia.
Qed.

Lemma set_load_state_lookup i st c key st0 j : ch_loads c !! i = Some (key, st0) →
  ch_loads (set_load_state i st c) !! j = if decide (j = i) then Some (key, st) else ch_loads c !! j.
Proof.
  intros Hi. simpl. destruct (decide (j = i)) as [->|Hne].
  - by rewrite list_lookup_alter_eq, Hi.
  - by rewrite list_lookup_alter_ne.
Qed.

Lemma cache_settled_inv i ok c c' : cache_settled i ok c = Some c' → cache_inv c → cache_inv c'.
Proof.
  unfold cache_settled. destruct (ch_loads c !! i) as [[key []]|] eqn:E; try done. intros [= <-] [Hn Hm].
  split; [done|]. intros k j. erewrite set_load_state_lookup by exact E. simpl. rewrite Hm.
  case_decide as Hj; [|done]. subst j. rewrite E. split; intros (st & [= -> <-] & _); eexists; (split; [done|]); by destruct ok.
Qed.

Lemma cache_catch_inv i c c' : cache_catch i c = Some c' → cache_inv c → cache_inv c'.
Proof.
  unfold cache_catch. destruct (ch_loads c !! i) as [[key []]|] eqn:E; try done. intros [= <-] [Hn Hm].
  assert (Hone : ∀ j st, ch_loads c !! j = Some (key, st) → live st = true → j = i).
  { intros j st Hj Hl. assert (H1 : (key, j) ∈ ch_map c) by (apply Hm; eauto).
    assert (H2 : (key, i) ∈ ch_map c) by (apply Hm; eauto).
    apply list_elem_of_lookup in H1 as [a Ha], H2 as [b Hb].
    assert (Hab : a = b).
    { eapply (NoDup_lookup _ a b key Hn); rewrite list_lookup_fmap; [by rewrite Ha|by rewrite Hb]. }
    subst b. rewrite Ha in Hb. by injection Hb. }
  split; simpl.
  - eapply sublist_NoDup; [exact Hn|]. apply fmap_sublist, sublist_filter.
  - intros k j. rewrite list_elem_of_filter, Hm. simpl.
    change (alter _ i (ch_loads c)) with (ch_loads (set_load_state i LdEvicted c)).
    erewrite set_load_state_lookup by exact E. case_decide as Hj.
    + subst j. rewrite E. split; [intros (Hk & st & [= -> _] & _); done|intros (st & [= -> <-] & ?); done].
    + split; [intros (_ & H); exact H|]. intros (st & Hst & Hl). split; [|eauto].
      intros ->. apply Hj. by eapply Hone.
Qed.

(** The events of a cache whose entries nobody else deletes. *)
Definition no_delete (ev : cache_event) : Prop := match ev with CDelete _ => False | _ => True end.

Lemma cache_run_inv evs c : cache_run empty_cache evs c → Forall no_delete evs → cache_inv c.
Proof.
  unfold cache_run. intros H. remember empty_cache as c0. induction H as [c|c evs c1 ev c2 Hr IH Hs]; intros Hf.
  - subst. split; simpl; [constructor|]. intros k i. split; [by intros ?%elem_of_nil|by intros (st & ? & _)].
  - apply Forall_app in Hf as [Hf Hev]. specialize (IH Heqc0 Hf). inversion Hev as [|? ? Hn _]; subst.
    destruct ev; simpl in Hs; [injection Hs as <-; by apply cache_get_inv|by eapply cache_settled_inv|by eapply cache_catch_inv|done].
Qed.

(** One load per key.  Whatever calls, settlings and [catch] callbacks interleave, a key has at
    most one load whose failure has not been dealt with, and a caller gets that load, in progress
    or settled; a key without one is loaded again. *)
Theorem cache_single_flight evs c : cache_run empty_cache evs c → Forall no_delete evs →
  (∀ key i j st st', ch_loads c !! i = Some (key, st) → ch_loads c !! j = Some (key, st') →
     live st = true → live st' = true → i = j) ∧
  (∀ key i st, ch_loads c !! i = Some (key, st) → live st = true → cache_get key c = (c, i)) ∧
  (∀ key, (∀ i st, ch_loads c !! i = Some (key, st) → live st = false) →
     ch_loads (cache_get key c).1 = ch_loads c ++ [(key, LdWaiting)]).
Proof.
  intros H Hf. destruct (cache_run_inv _ _ H Hf) as [Hn Hm].
  assert (Hget : ∀ key i st, ch_loads c !! i = Some (key, st) → live st = true → cache_lookup key c = Some i).
  { intros key i st Hi Hl. assert (Hin : (key, i) ∈ ch_map c) by (apply Hm; eauto).
    destruct (cache_lookup key c) as [j|] eqn:E.
    - apply cache_lookup_Some in E. apply list_elem_of_lookup in Hin as [a Ha], E as [b Hb].
      assert (Hab : a = b) by (eapply (NoDup_lookup _ a b key Hn); rewrite list_lookup_fmap; [by rewrite Ha|by rewrite Hb]).
      subst b. rewrite Ha in Hb. by injection Hb as ->.
    - apply cache_lookup_None in E. destruct E. apply list_elem_of_fmap. by exists (key, i). }
  split; [|split].
  - intros key i j st st' Hi Hj Hl Hl'. pose proof (Hget _ _ _ Hi Hl) as H1. rewrite (Hget _ _ _ Hj Hl') in H1. by injection H1.
  - intros key i st Hi Hl. unfold cache_get. by rewrite (Hget _ _ _ Hi Hl).
  - intros key Hk. unfold cache_get. destruct (cache_lookup key c) as [i|] eqn:E; [|done].
    apply cache_lookup_Some, Hm in E as (st & Hi & Hl). by rewrite (Hk _ _ Hi) in Hl.
Qed.
End cache.
Arguments cache K : clear implicits.
Arguments cache_event K : clear implicits.

Definition cache_history : list (cache_event nat) := [CGet 5; CGet 5; CGet 6; CSettled 0 false; CCatch 0; CGet 5; CSettled 1 true].
Definition cache_demo : cache nat := default empty_cache (exec cache_step empty_cache cache_history).

Lemma cache_single_flight_witness :
  ch_map cache_demo = [(6, 1); (5, 2)] ∧ ch_loads cache_demo = [(5, LdEvicted); (6, LdReady); (5, LdWaiting)] ∧
  cache_get 5 cache_demo = (cache_demo, 2).
Proof.
  assert (H : cache_run empty_cache cache_history cache_demo) by (apply exec_run; vm_compute; reflexivity).
  split; [reflexivity|]. split; [reflexivity|].
  destruct (cache_single_flight _ _ H) as (_ & Hg & _); [by repeat constructor|]. by apply (Hg 5 2 LdWaiting).
Defined.

(** A release in between breaks it: the [catch] of a load that [releaseModule] has already
    forgotten removes the entry of the load that replaced it, and the library is loaded twice. *)
Lemma stale_failure_evicts : ∃ c : cache nat,
  exec cache_step empty_cache [CGet 5; CDelete 5; CGet 5; CSettled 0 false; CSettled 1 true; CCatch 0; CGet 5] = Some c ∧
  ch_loads c = [(5, LdEvicted); (5, LdReady); (5, LdWaiting)].
Proof. by eexists. Qed.

(** ** Libraries, slots and [withSession] *)

(** [Deno.realPathSync]: [None] when it throws. *)
Section module.
Context (realPath : jstr → option jstr).

Definition canonicalPath (path : jstr) : jstr := default path (realPath path).

(** The entry [acquireModule] looks up: an injected module is never registered. *)
Inductive module_key := InjectedModule (m : nat) | RegisteredLibrary (path : jstr).

Definition acquireModule (o : ResolvedOptions) : module_key :=
  match ro_module o with
  | Some m => InjectedModule m
  | None => RegisteredLibrary (canonicalPath (ro_modulePath o))
  end.

(** What [releaseModule] does, in order. *)
Inductive release_effect := RForget (path : jstr) | RDrain (slot : nat) | RResetLogin (slot : nat) | RFinalize.

(** [entry] is the registered promise and how it settles: [None] when it rejects, else the slots
    of the library, [None] for one that could not be resolved. *)
Definition releaseModule (path : jstr) (entry : option (option (list (option nat)))) (finalize : bool)
    : list release_effect :=
  match entry with
  | None => []
  | Some resolved =>
      RForget (canonicalPath path) ::
      match resolved with
      | None => []
      | Some slots =>
          flat_map (λ s, match s with Some s => [RDrain s; RResetLogin s] | None => [] end) slots
          ++ (if finalize then [RFinalize] else [])
      end
  end.
End module.

Record SlotInfo := { si_id : Z; si_tokenLabel : jstr; si_tokenPresent : bool; si_maxSessions : num }.

(** The key of a slot in the cache of its library. *)
Definition slot_key (o : ResolvedOptions) : jstr :=
  if bool_decide (ro_tokenLabel o = [])
  then js "slot:" ++ match ro_slotId o with Some z => int_to_string z | None => js "undefined" end
  else js "label:" ++ ro_tokenLabel o.

Definition select_slot (o : ResolvedOptions) (slots : list SlotInfo) : option SlotInfo :=
  if bool_decide (ro_tokenLabel o = [])
  then find_first (λ s, bool_decide (Some (si_id s) = ro_slotId o)) slots
  else find_first (λ s, bool_decide (si_tokenLabel s = ro_tokenLabel o)) slots.

(** The load behind [resolveSlot]: the token's id, its mechanisms and the size of its pool. *)
Definition resolveSlot (o : ResolvedOptions) (slots : res pkcs11_error (list SlotInfo))
    (mechanisms : Z → res pkcs11_error (list N)) : res pkcs11_error (Z * list N * num) :=
  let* slots := slots in
  match select_slot o slots with
  | None =>
      Err (Pkcs11Error (if bool_decide (ro_tokenLabel o = [])
        then js "pkcs11: no token in slot " ++ match ro_slotId o with Some z => int_to_string z | None => js "undefined" end
        else js "pkcs11: no token with label " ++ json_quote (ro_tokenLabel o)))
  | Some m =>
      let* ms := mechanisms (si_id m) in
      let bound := if exceeds_zero (si_maxSessions m) then limit_min (ro_maxSessions o) (si_maxSessions m)
                   else ro_maxSessions o in
      Ok (si_id m, ms, max_one bound)
  end.

(** [(failure as { ckr }).ckr] is one of the four. *)
Definition sessionIsDead (ckr : option jstr) : bool :=
  match ckr with
  | Some c => bool_decide (c ∈ map js ["CKR_SESSION_CLOSED"; "CKR_SESSION_HANDLE_INVALID"; "CKR_DEVICE_REMOVED";
                                       "CKR_CRYPTOKI_NOT_INITIALIZED"]%string)
  | None => false
  end.

Section with_session.
(** The values the operations throw, and the [ckr] they carry. *)
Context {F A : Type} (ckr : F → option jstr).

Inductive session_effect :=
  | EfAcquire
  | EfLogin
  | EfOperation
  | EfRelease (failure : option F)
  | EfResetLogin.

(** [withSession] over the outcomes of what it awaits, in order.  [release] never rejects: it
    swallows the failures of [closeSession]. *)
Definition withSession (aborted entry slot session login : res F unit) (operation : res F A)
    : list session_effect * res F A :=
  match aborted, entry, slot with
  | Err e, _, _ | Ok _, Err e, _ | Ok _, Ok _, Err e => ([], Err e)
  | Ok _, Ok _, Ok _ =>
      match session with
      | Err e => ([EfAcquire], Err e)
      | Ok _ =>
          let failed done failure :=
            (EfAcquire :: EfLogin :: done ++ EfRelease (Some failure) ::
               (if sessionIsDead (ckr failure) then [EfResetLogin] else []), Err failure) in
          match login with
          | Err failure => failed [] failure
          | Ok _ =>
              match operation with
              | Err failure => failed [EfOperation] failure
              | Ok result => ([EfAcquire; EfLogin; EfOperation; EfRelease None], Ok result)
              end
          end
      end
  end.

Definition is_release (e : session_effect) : bool := match e with EfRelease _ => true | _ => false end.

(** C27. A session that was handed out goes back exactly once, on every path: with the failure when
    the login or the operation failed and without one otherwise; no operation runs without a
    successful login; the login is forgotten exactly when the session is dead. *)
Theorem withSession_releases aborted entry slot session login operation :
  let '(effects, result) := withSession aborted entry slot session login operation in
  (count is_release effects =
     match aborted, entry, slot, session with Ok _, Ok _, Ok _, Ok _ => 1 | _, _, _, _ => 0 end) ∧
  (∀ f, EfRelease f ∈ effects → f = match result with Err e => Some e | Ok _ => None end) ∧
  (EfOperation ∈ effects → login = Ok tt) ∧
  (EfResetLogin ∈ effects → ∃ e, result = Err e ∧ sessionIsDead (ckr e) = true) ∧
  (∀ e, EfRelease (Some e) ∈ effects → sessionIsDead (ckr e) = true → last effects = Some EfResetLogin).
Proof.
  destruct aborted, entry, slot, session as [[]|], login as [[]|f], operation as [|f']; simpl;
    try destruct (sessionIsDead (ckr f)) eqn:Ef; try destruct (sessionIsDead (ckr f')) eqn:Ef'; simpl;
    (split; [done|]; split_and!; intros; repeat match goal with
      | H : _ ∈ _ :: _ |- _ => apply elem_of_cons in H as [H|H]
      | H : _ ∈ [] |- _ => by apply elem_of_nil in H
      | H : EfRelease _ = EfRelease _ |- _ => injection H as ->
      end; try done; eauto; congruence).
Qed.
End with_session.

Lemma bound_not_nan n m : exceeds_zero n = true → (if exceeds_zero m then limit_min n m else n) ≠ NNan.
Proof. unfold exceeds_zero. destruct n, m; simpl; try done; by case_match. Qed.

(** With options resolved by [resolveOptions] the pool of a slot always lets a first session in. *)
Lemma resolveSlot_size o slots mechanisms id ms size :
  resolveSlot (resolveOptions o) slots mechanisms = Ok (id, ms, size) → below 0 size = true.
Proof.
  unfold resolveSlot. destruct slots as [slots|]; [|done]. cbn [rbind]. destruct (select_slot _ _) as [m|]; [|done].
  destruct (mechanisms _) as [l|]; [|done]. cbn [rbind]. intros H. injection H as _ _ <-.
  apply below_max_one, bound_not_nan, resolved_limit_positive.
Qed.
