(* ===== verification/Pkcs11Repository.v ===== *)
(** * encrypt/pkcs11/repository.ts and the lookups of keys.ts: the PKCS#11 provider

    The token behind the seam [Pkcs11Module] (interface.ts) is a parameter that answers every call
    from the calls made before.  An operation is a value of [tok]: it extends the log of calls and
    gives its result or what it throws.  What a session needs before an operation runs (the
    library, the mechanisms, a session, the login) is the record [token_env]. *)

From S2P Require Export LocalProvider Pkcs11Keys Pkcs11Session.
Local Open Scope nat_scope.

(** ** interface.ts: the seam *)

Inductive MechanismParams :=
  | GcmParams (iv aad : list N) (tagBits : N)
  | OaepParams (hashAlg mgf source : N)
  | PssParams (hashAlg mgf saltLen : N)
  | Ecdh1Params (kdf : N) (sharedData publicData : list N)
  | HkdfParams (extract expand : bool) (prf saltType : N) (info : list N)
  | EddsaParams (phFlag : bool).

(** A call of the token with its arguments, after the session; the calls that create objects keep
    what they returned. *)
Inductive token_call :=
  | TFindObjects (template : list Attribute)
  | TGetAttributes (object : Z) (types : list N)
  | TSetAttributes (object : Z) (template : list Attribute)
  | TDestroyObject (object : Z)
  | TGenerateKey (mechanism : N) (template : list Attribute)
  | TGenerateKeyPair (mechanism : N) (publicTemplate privateTemplate : list Attribute)
  | TDeriveKey (mechanism : N) (params : option MechanismParams) (base : Z) (template : list Attribute) (derived : option Z)
  | TEncrypt (mechanism : N) (params : option MechanismParams) (key : Z) (plaintext : list N)
  | TDecrypt (mechanism : N) (params : option MechanismParams) (key : Z) (ciphertext : list N)
  | TSign (mechanism : N) (params : option MechanismParams) (key : Z) (message : list N).

(** The answers, from the calls made before and the arguments; the first number is the session. *)
Class Pkcs11Module := {
  m_findObjects : list token_call → Z → list Attribute → res thrown (list Z);
  m_getAttributes : list token_call → Z → Z → list N → res thrown (list Attribute);
  m_setAttributes : list token_call → Z → Z → list Attribute → res thrown unit;
  m_destroyObject : list token_call → Z → Z → res thrown unit;
  m_generateKey : list token_call → Z → N → list Attribute → res thrown Z;
  m_generateKeyPair : list token_call → Z → N → list Attribute → list Attribute → res thrown (Z * Z);
  m_deriveKey : list token_call → Z → N → option MechanismParams → Z → list Attribute → res thrown Z;
  m_encrypt : list token_call → Z → N → option MechanismParams → Z → list N → res thrown (list N);
  m_decrypt : list token_call → Z → N → option MechanismParams → Z → list N → res thrown (list N);
  m_sign : list token_call → Z → N → option MechanismParams → Z → list N → res thrown (list N);
  (** The methods throw what their promises should reject with, as those of the FFI binding do. *)
  m_synchronous : bool;
}.

(** ** Operations on the token *)

Definition tok (A : Type) : Type := list token_call → list token_call * res thrown A.

Definition tret {A} (a : A) : tok A := λ h, (h, Ok a).
Definition tlift {A} (r : res thrown A) : tok A := λ h, (h, r).
Definition tbind {A B} (m : tok A) (k : A → tok B) : tok B :=
  λ h, let '(h', r) := m h in match r with Ok a => k a h' | Err e => (h', Err e) end.
(** [try { m } catch (failure) { k }]. *)
Definition tcatch {A} (m : tok A) (k : thrown → tok A) : tok A :=
  λ h, let '(h', r) := m h in match r with Ok a => (h', Ok a) | Err e => k e h' end.
(** [try { m } finally { await cleanup.catch(() => {}) }]: what a method throws by itself is not
    caught, and takes the place of the result. *)
Definition tfinally `{PM : Pkcs11Module} {A} (m : tok A) (cleanup : tok unit) : tok A :=
  λ h, let '(h1, r) := m h in
       let '(h2, c) := cleanup h1 in
       (h2, match c with Err e => if m_synchronous then Err e else r | Ok _ => r end).
(** A call of the token: it is logged, with what the answer adds to the entry. *)
Definition invoke {A} (call : res thrown A → token_call) (answer : list token_call → res thrown A) : tok A :=
  λ h, (h ++ [call (answer h)], answer h).

Notation "'do*' x ':=' m 'in' k" := (tbind m (λ x, k)) (at level 10, x pattern, m at level 100, k at level 200).

(** The value thrown for an error of the provider. *)
Definition class_name (c : pkcs11_class) : jstr :=
  js match c with
     | Pkcs11ErrorN => "Pkcs11Error" | Pkcs11UnavailableErrorN => "Pkcs11UnavailableError"
     | Pkcs11ModuleRequiredErrorN => "Pkcs11ModuleRequiredError" | Pkcs11TokenRequiredErrorN => "Pkcs11TokenRequiredError"
     | Pkcs11PinRequiredErrorN => "Pkcs11PinRequiredError" | Pkcs11KeyUriRequiredErrorN => "Pkcs11KeyUriRequiredError"
     | Pkcs11KeyNotFoundErrorN => "Pkcs11KeyNotFoundError" | Pkcs11OaepHashUnsupportedErrorN => "Pkcs11OaepHashUnsupportedError"
     | Pkcs11SecretNotExtractableErrorN => "Pkcs11SecretNotExtractableError"
     | Pkcs11UnsupportedMechanismErrorN => "Pkcs11UnsupportedMechanismError" | Pkcs11TokenErrorN => "Pkcs11TokenError"
     end%string.
Definition throw (e : pkcs11_error) : thrown :=
  {| th_name := class_name (pe_name e); th_message := pe_message e; th_code := pe_code e; th_ckr := pe_ckr e; th_encrypt := true |}.

Definition lift_pkcs11 {A} (r : res pkcs11_error A) : res thrown A := match r with Ok a => Ok a | Err e => Err (throw e) end.
Definition lift_uri {A} (r : uri_result A) : res thrown A := match r with Ok a => Ok a | Err m => Err (throw (Pkcs11Error m)) end.
Definition pfail {A} (message : jstr) : res thrown A := Err (throw (Pkcs11Error message)).

(** ** Plans and templates *)

Definition OBJECT_ID_BYTES : nat := 16.
Definition RSA_PUBLIC_EXPONENT : list N := [1; 0; 1]%N.
Definition SHA256_BYTES : N := 32.
Definition DEACTIVATABLE_ATTRIBUTES : list N :=
  map (λ f, f AttributeType) [cka_Encrypt; cka_Decrypt; cka_Sign; cka_Verify; cka_Wrap; cka_Unwrap; cka_Derive].

(** The number of an object class. *)
Definition class_number (c : ObjectClass) : Z :=
  match c with CkoData => 0 | CkoCertificate => 1 | CkoPublicKey => 2 | CkoPrivateKey => 3 | CkoSecretKey => 4 end.

(** [ulongAttribute(AttributeType.Class, ...)]: a function that the type table inherits is no
    number, and [BigInt] throws. *)
Definition class_attribute (c : class_value) : res thrown Attribute :=
  match c with
  | CClass c => Ok (ulongAttribute (cka_Class AttributeType) (class_number c))
  | CInherited _ => Err (plain_Error (js "Cannot convert a function to a BigInt"))
  end.

(** A [CK_ULONG] read as a number and written back. *)
Definition ulong_of (d : dbl) : Z := default 0%Z (dbl_to_Z d).
Definition positive_or (parsed : option dbl) (fallback : Z) : Z :=
  match parsed with Some d => if num_ltb (dbl_of_Z 0) d then ulong_of d else fallback | None => fallback end.
Definition is_key_type (d : dbl) (t : N) : bool := num_eqb d (dbl_of_Z (Z.of_N t)).

Definition newObjectLabel (now : Z) (prefix : jstr) (uid : option jstr) : jstr :=
  match uid with
  | Some (c :: u) => prefix ++ js "-" ++ c :: u
  | _ => prefix ++ js "-" ++ int_to_string now
  end.

Definition flag (f : AttributeType_t → N) (value : bool) : Attribute := boolAttribute (f AttributeType) value.

Definition tokenKeyTemplate (label : jstr) (id : list N) : list Attribute :=
  [flag cka_Token true; flag cka_Private true; flag cka_Sensitive true; flag cka_Extractable false;
   textAttribute (cka_Label AttributeType) label; bytesAttribute (cka_Id AttributeType) id].

Definition publicKeyTemplate (label : jstr) (id : list N) : list Attribute :=
  [flag cka_Token true; flag cka_Private false;
   textAttribute (cka_Label AttributeType) label; bytesAttribute (cka_Id AttributeType) id].

Definition aesValueLen (size : Z) : res thrown Z :=
  if (size =? Key128Bits SizeSymmetricKey)%Z || (size =? Key256Bits SizeSymmetricKey)%Z then Ok size
  else pfail (js "pkcs11: unsupported symmetric key size: " ++ int_to_string size).

Definition rsaModulusBits (size : Z) : res thrown Z :=
  if (size =? Key2048Bits SizeAsymmetricKey)%Z || (size =? Key3072Bits SizeAsymmetricKey)%Z || (size =? Key4096Bits SizeAsymmetricKey)%Z
  then Ok size else pfail (js "pkcs11: unsupported rsa key size: " ++ int_to_string size).

Definition ecParamsForCurve (curve : Z) : res thrown (list N) :=
  match own_get (curveName curve) EC_PARAMS with
  | Some params => Ok params
  | None => pfail (js "pkcs11: unsupported ecc curve: " ++ int_to_string curve)
  end.

Definition keyDataFor (uri : KeyUri) (publicKey : jstr) : res thrown KeyData :=
  let* ref := lift_uri (formatKeyUri uri) in
  Ok {| kd_publicKey := publicKey; kd_keyId := keyUriHexId uri; kd_keyRef := ref; kd_provider := Pkcs11Options.PROVIDER |}.

Definition generated_uri (label : jstr) (id : list N) (c : ObjectClass) : KeyUri :=
  {| ku_token := None; ku_object := Some label; ku_id := Some id; ku_class := Some (CClass c) |}.

Definition rotationLabelBase (attributes : list Attribute) (uri : KeyUri) : jstr :=
  let label := match findAttribute attributes (cka_Label AttributeType) with
               | Some (b :: raw) => textOf (b :: raw)
               | _ => default [] (ku_object uri)
               end in
  default label
    (find_first (λ prefix, startsWith label prefix)
       (map (λ f, f KeyLabelPrefix) [klp_Symmetric; klp_Rsa; klp_Ecdh; klp_Ed25519; klp_Hmac])).

Definition gcm (iv : list N) (additional : option jstr) : MechanismParams :=
  GcmParams iv (match additional with Some (c :: a) => bytesOf (c :: a) | _ => [] end) GCM_TAG_BITS.

Definition supportsInHardwareEcdh (mechanisms : list N) : bool :=
  supports mechanisms (mech_Ecdh1Derive Mechanism) && supports mechanisms (mech_HkdfDerive Mechanism)
  && supports mechanisms (mech_AesGcm Mechanism).

Definition isMechanismParamError (failure : thrown) : bool :=
  bool_decide (th_code failure = Some (ckr_MechanismParamInvalid ReturnValue))
  || bool_decide (th_code failure = Some (ckr_ArgumentsBad ReturnValue)).

Record SignPlan := {
  sp_mechanism : N;
  sp_params : option MechanismParams;
  sp_retryParams : option MechanismParams;
  sp_prepare : jstr → res thrown (list N);
}.

Section plans.
Context `{WC : WebCrypto}.

Definition identityMessage (message : jstr) : res thrown (list N) := Ok (bytesOf message).
Definition sha256Digest (message : jstr) : res thrown (list N) := digest_sha256 (bytesOf message).
Definition sha256DigestInfo (message : jstr) : res thrown (list N) :=
  let* digest := sha256Digest message in Ok (SHA256_DIGEST_INFO_PREFIX ++ digest).

Definition unsupported {A} (mechanism : N) : res thrown A := Err (throw (Pkcs11UnsupportedMechanismError (mechanismName mechanism))).

Definition planRsaPkcs1v15 (mechanisms : list N) : res thrown SignPlan :=
  if supports mechanisms (mech_Sha256RsaPkcs Mechanism)
  then Ok {| sp_mechanism := mech_Sha256RsaPkcs Mechanism; sp_params := None; sp_retryParams := None; sp_prepare := identityMessage |}
  else if supports mechanisms (mech_RsaPkcs Mechanism)
  then Ok {| sp_mechanism := mech_RsaPkcs Mechanism; sp_params := None; sp_retryParams := None; sp_prepare := sha256DigestInfo |}
  else unsupported (mech_Sha256RsaPkcs Mechanism).

Definition pss_params : MechanismParams := PssParams (mech_Sha256 Mechanism) CKG_MGF1_SHA256 SHA256_BYTES.

Definition planRsaPss (mechanisms : list N) : res thrown SignPlan :=
  if supports mechanisms (mech_Sha256RsaPkcsPss Mechanism)
  then Ok {| sp_mechanism := mech_Sha256RsaPkcsPss Mechanism; sp_params := Some pss_params; sp_retryParams := None; sp_prepare := identityMessage |}
  else if supports mechanisms (mech_RsaPkcsPss Mechanism)
  then Ok {| sp_mechanism := mech_RsaPkcsPss Mechanism; sp_params := Some pss_params; sp_retryParams := None; sp_prepare := sha256Digest |}
  else unsupported (mech_Sha256RsaPkcsPss Mechanism).

Definition planEd25519 (mechanisms : list N) : res thrown SignPlan :=
  let* _ := lift_pkcs11 (requireMechanism mechanisms (mech_EdDsa Mechanism)) in
  Ok {| sp_mechanism := mech_EdDsa Mechanism; sp_params := None; sp_retryParams := Some (EddsaParams false); sp_prepare := identityMessage |}.
End plans.

(** ** keys.ts: lookups *)

Section token.
Context `{B64 : Base64} `{WC : WebCrypto} `{PM : Pkcs11Module}.
Context (session : Z).

Definition findObjects (template : list Attribute) : tok (list Z) :=
  invoke (λ _, TFindObjects template) (λ h, m_findObjects h session template).
Definition getAttributes (object : Z) (types : list N) : tok (list Attribute) :=
  invoke (λ _, TGetAttributes object types) (λ h, m_getAttributes h session object types).
Definition setAttributes (object : Z) (template : list Attribute) : tok unit :=
  invoke (λ _, TSetAttributes object template) (λ h, m_setAttributes h session object template).
Definition destroyObject (object : Z) : tok unit :=
  invoke (λ _, TDestroyObject object) (λ h, m_destroyObject h session object).
Definition token_generateKey (mechanism : N) (template : list Attribute) : tok Z :=
  invoke (λ _, TGenerateKey mechanism template) (λ h, m_generateKey h session mechanism template).
Definition token_generateKeyPair (mechanism : N) (publicTemplate privateTemplate : list Attribute) : tok (Z * Z) :=
  invoke (λ _, TGenerateKeyPair mechanism publicTemplate privateTemplate) (λ h, m_generateKeyPair h session mechanism publicTemplate privateTemplate).
Definition token_deriveKey (mechanism : N) (params : option MechanismParams) (base : Z) (template : list Attribute) : tok Z :=
  invoke (λ r, TDeriveKey mechanism params base template (match r with Ok o => Some o | Err _ => None end))
         (λ h, m_deriveKey h session mechanism params base template).
Definition token_encrypt (mechanism : N) (params : option MechanismParams) (key : Z) (plaintext : list N) : tok (list N) :=
  invoke (λ _, TEncrypt mechanism params key plaintext) (λ h, m_encrypt h session mechanism params key plaintext).
Definition token_decrypt (mechanism : N) (params : option MechanismParams) (key : Z) (ciphertext : list N) : tok (list N) :=
  invoke (λ _, TDecrypt mechanism params key ciphertext) (λ h, m_decrypt h session mechanism params key ciphertext).
Definition token_sign (mechanism : N) (params : option MechanismParams) (key : Z) (message : list N) : tok (list N) :=
  invoke (λ _, TSign mechanism params key message) (λ h, m_sign h session mechanism params key message).

Definition not_found {A} (uri : KeyUri) (detail : option jstr) : tok A :=
  tlift (let* text := lift_uri (formatKeyUri uri) in Err (throw (Pkcs11KeyNotFoundError text detail))).

Definition find_template (uri : KeyUri) (objectClass : option class_value) : res thrown (list Attribute) :=
  let* class := match objectClass with Some c => let* a := class_attribute c in Ok [a] | None => Ok [] end in
  Ok (class
      ++ (match ku_object uri with Some (c :: o) => [bytesAttribute (cka_Label AttributeType) (utf8_encode (c :: o))] | _ => [] end)
      ++ (match ku_id uri with Some (b :: i) => [bytesAttribute (cka_Id AttributeType) (b :: i)] | _ => [] end)).

Definition findObject (uri : KeyUri) (objectClass : option class_value) : tok Z :=
  do* template := tlift (find_template uri objectClass) in
  do* handles := findObjects template in
  match handles with [] => not_found uri None | o :: _ => tret o end.

Definition resolveObject (uri : KeyUri) (fallback : ObjectClass) : tok Z :=
  match ku_class uri with
  | Some c => findObject uri (Some c)
  | None => tcatch (findObject uri (Some (CClass fallback))) (λ _, findObject uri None)
  end.

Definition attempt_find (candidate : KeyUri) (objectClass : ObjectClass) : tok (option (Z * ObjectClass)) :=
  tcatch (do* o := findObject candidate (Some (CClass objectClass)) in tret (Some (o, objectClass))) (λ _, tret None).

Definition or_else {A} (m : tok (option A)) (k : tok A) : tok A :=
  do* found := m in match found with Some a => tret a | None => k end.

Definition publicObjectFor (uri : KeyUri) : tok (Z * ObjectClass) :=
  or_else (attempt_find uri CkoPublicKey)
    (let last := or_else (attempt_find uri CkoCertificate) (not_found uri (Some (js "no public key or certificate"))) in
     match ku_id uri with
     | Some (b :: i) =>
         let byId := {| ku_token := ku_token uri; ku_object := None; ku_id := Some (b :: i); ku_class := None |} in
         or_else (attempt_find byId CkoPublicKey) (or_else (attempt_find byId CkoCertificate) last)
     | _ => last
     end).

(** ** repository.ts: what the methods share *)

Definition publicKeyFromAttributes (attributes : list Attribute) : res thrown jstr :=
  match findAttribute attributes (cka_KeyType AttributeType) with
  | None => pfail (js "pkcs11: object has no CKA_KEY_TYPE")
  | Some raw =>
      match ulongValue raw with
      | None => pfail (js "pkcs11: CKA_KEY_TYPE is not a CK_ULONG")
      | Some decoded =>
          if is_key_type decoded (ckk_Rsa KeyType) then lift_pkcs11 (rsaPublicKeyFrom attributes)
          else if is_key_type decoded (ckk_Ec KeyType) then lift_pkcs11 (ecdhPublicKeyFrom attributes)
          else if is_key_type decoded (ckk_EcEdwards KeyType) then lift_pkcs11 (ed25519PublicKeyFrom attributes)
          else pfail (js "pkcs11: unsupported key type " ++ num_to_string decoded)
      end
  end.

Definition require (mechanisms : list N) (f : Mechanism_t → N) : tok unit :=
  tlift (lift_pkcs11 (requireMechanism mechanisms (f Mechanism))).

Definition generate_aes (mechanisms : list N) (label : jstr) (id : list N) (valueLen : Z) : tok KeyData :=
  do* _ := require mechanisms mech_AesKeyGen in
  do* _ := token_generateKey (mech_AesKeyGen Mechanism)
             (tokenKeyTemplate label id ++
              [ulongAttribute (cka_KeyType AttributeType) (Z.of_N (ckk_Aes KeyType));
               ulongAttribute (cka_Class AttributeType) (class_number CkoSecretKey);
               ulongAttribute (cka_ValueLen AttributeType) valueLen; flag cka_Encrypt true; flag cka_Decrypt true]) in
  tlift (keyDataFor (generated_uri label id CkoSecretKey) []).

(** A key pair: the public half's attributes give the public key. *)
Definition generate_pair (label : jstr) (id : list N) (mechanism : N) (publicTemplate privateTemplate : list Attribute)
    (types : list (AttributeType_t → N)) (publicKey : list Attribute → res pkcs11_error jstr) : tok KeyData :=
  do* (publicHandle, _) := token_generateKeyPair mechanism publicTemplate privateTemplate in
  do* attributes := getAttributes publicHandle (map (λ f, f AttributeType) types) in
  tlift (let* key := lift_pkcs11 (publicKey attributes) in keyDataFor (generated_uri label id CkoPrivateKey) key).

(** [wrap]: the usages that only [generateRSAKeys] sets. *)
Definition generate_rsa (mechanisms : list N) (wrap : bool) (label : jstr) (id : list N) (modulusBits : Z) : tok KeyData :=
  do* _ := require mechanisms mech_RsaPkcsKeyPairGen in
  generate_pair label id (mech_RsaPkcsKeyPairGen Mechanism)
    (publicKeyTemplate label id ++
     [ulongAttribute (cka_ModulusBits AttributeType) modulusBits;
      bytesAttribute (cka_PublicExponent AttributeType) RSA_PUBLIC_EXPONENT; flag cka_Encrypt true; flag cka_Verify true]
     ++ (if wrap then [flag cka_Wrap true] else []))
    (tokenKeyTemplate label id ++ [flag cka_Decrypt true; flag cka_Sign true] ++ (if wrap then [flag cka_Unwrap true] else []))
    [cka_Modulus; cka_PublicExponent] rsaPublicKeyFrom.

Definition generateReplacement (mechanisms : list N) (attributes : list Attribute) (label : jstr) (id : list N) : tok KeyData :=
  match findAttribute attributes (cka_KeyType AttributeType) with
  | None => tlift (pfail (js "pkcs11: cannot rotate an object without CKA_KEY_TYPE"))
  | Some raw =>
      match ulongValue raw with
      | None => tlift (pfail (js "pkcs11: CKA_KEY_TYPE is not a CK_ULONG"))
      | Some decoded =>
          if is_key_type decoded (ckk_Aes KeyType) then
            generate_aes mechanisms label id
              (positive_or (findAttribute attributes (cka_ValueLen AttributeType) ≫= ulongValue) (Key256Bits SizeSymmetricKey))
          else if is_key_type decoded (ckk_Rsa KeyType) then
            generate_rsa mechanisms false label id
              (positive_or (findAttribute attributes (cka_ModulusBits AttributeType) ≫= ulongValue) (Key2048Bits SizeAsymmetricKey))
          else if is_key_type decoded (ckk_Ec KeyType) || is_key_type decoded (ckk_EcEdwards KeyType) then
            match findAttribute attributes (cka_EcParams AttributeType) with
            | None => tlift (pfail (js "pkcs11: cannot rotate an ec key without CKA_EC_PARAMS"))
            | Some ecParams =>
                let edwards := is_key_type decoded (ckk_EcEdwards KeyType) in
                let mechanism := if edwards then mech_EcEdwardsKeyPairGen Mechanism else mech_EcKeyPairGen Mechanism in
                do* _ := tlift (lift_pkcs11 (requireMechanism mechanisms mechanism)) in
                generate_pair label id mechanism
                  (publicKeyTemplate label id ++ [bytesAttribute (cka_EcParams AttributeType) ecParams])
                  (tokenKeyTemplate label id ++ [flag cka_Derive (negb edwards); flag cka_Sign edwards])
                  [cka_EcPoint; cka_EcParams] (if edwards then ed25519PublicKeyFrom else ecdhPublicKeyFrom)
            end
          else tlift (pfail (js "pkcs11: cannot rotate key type " ++ num_to_string decoded))
      end
  end.

Definition disableObject (handle : Z) : tok unit :=
  do* present := getAttributes handle DEACTIVATABLE_ATTRIBUTES in
  let template := map (λ type, boolAttribute type false) (List.filter (hasAttribute present) DEACTIVATABLE_ATTRIBUTES) in
  if bool_decide (template = []) then tlift (pfail (js "pkcs11: object carries no usage attribute to clear"))
  else setAttributes handle template.

Definition ecdh_params (peerPoint : list N) : option MechanismParams := Some (Ecdh1Params CKD_NULL [] peerPoint).

Definition secret_template (sensitive : bool) (usages : list Attribute) : list Attribute :=
  [ulongAttribute (cka_Class AttributeType) (class_number CkoSecretKey);
   ulongAttribute (cka_KeyType AttributeType) (Z.of_N (ckk_GenericSecret KeyType));
   flag cka_Token false; flag cka_Sensitive sensitive; flag cka_Extractable (negb sensitive)] ++ usages.

Definition decryptEcdhInHardware (privateKey : Z) (peerPoint info nonce ciphertext : list N) : tok (list N) :=
  do* secretHandle := token_deriveKey (mech_Ecdh1Derive Mechanism) (ecdh_params peerPoint) privateKey
                        (secret_template true [flag cka_Derive true]) in
  tfinally
    (do* aesHandle := token_deriveKey (mech_HkdfDerive Mechanism)
                        (Some (HkdfParams true true (mech_Sha256 Mechanism) CKF_HKDF_SALT_NULL info)) secretHandle
                        [ulongAttribute (cka_Class AttributeType) (class_number CkoSecretKey);
                         ulongAttribute (cka_KeyType AttributeType) (Z.of_N (ckk_Aes KeyType));
                         ulongAttribute (cka_ValueLen AttributeType) (Key256Bits SizeSymmetricKey);
                         flag cka_Token false; flag cka_Sensitive true; flag cka_Extractable false; flag cka_Decrypt true] in
     tfinally (token_decrypt (mech_AesGcm Mechanism) (Some (gcm nonce None)) aesHandle ciphertext) (destroyObject aesHandle))
    (destroyObject secretHandle).

Definition deriveExtractableSecret (privateKey : Z) (peerPoint : list N) : tok (list N) :=
  do* handle := token_deriveKey (mech_Ecdh1Derive Mechanism) (ecdh_params peerPoint) privateKey (secret_template false []) in
  tfinally
    (do* attributes := getAttributes handle [cka_Value AttributeType] in
     match findAttribute attributes (cka_Value AttributeType) with
     | Some (b :: secret) => tret (b :: secret)
     | _ => tlift (Err (throw Pkcs11SecretNotExtractableError))
     end)
    (destroyObject handle).
End token.

Section crypto.
Context `{B64 : Base64} `{WC : WebCrypto}.

Definition ecdhPeerPoint (encoded curve : jstr) : res thrown (list N) :=
  let* der := fromBase64 encoded in
  let* key := importKey "spki" der (Ecdh curve) true [] in
  exportKey "raw" key.

Definition decryptWithSharedSecret (shared : list N) (curve : jstr) (info nonce ciphertext : list N) : res thrown (list N) :=
  if bool_decide (own_get curve EC_PARAMS = None) && negb (bool_decide (curve ∈ object_prototype))
  then pfail (js "pkcs11: unsupported ECDH curve: " ++ curve)
  else
    let* hkdfKey := importKey "raw" shared Hkdf false ["deriveKey"]%string in
    let* aesKey := deriveKey info hkdfKey in
    decrypt (AesGcmParams nonce None) aesKey ciphertext.
End crypto.

(** ** The provider *)

(** What the library, the slot and the session answer before an operation can run. *)
Record token_env := {
  te_entry : res thrown unit;
  te_mechanisms : res thrown (list N);
  te_session : res thrown Z;
  te_login : res thrown unit;
}.

Definition void {A} (r : res thrown A) : res thrown unit := let* _ := r in Ok tt.

(** A rejection or an abort hides the result of an operation, not its calls; nothing runs when the
    signal is aborted before. *)
Definition tok_signal {A} (s : signal) (m : tok A) : tok A :=
  λ h, match s with
       | AlreadyAborted reason => (h, Err (abort_error reason))
       | _ => let '(h', r) := m h in (h', runWithSignal s r)
       end.

Section provider.
Context `{B64 : Base64} `{WC : WebCrypto} `{PM : Pkcs11Module}.
Context (encodeHex : list N → jstr) (nobleBlake3 : list N → list N).
(** The options, the token, the clock and the randomness of the call; the signal as a second step
    of the call finds it. *)
Context (o : ResolvedOptions) (env : token_env) (now : Z) (rd : randomness) (later : signal).

Definition onToken {A} (s : signal) (operation : list N → Z → tok A) : tok A :=
  tok_signal s (λ h,
    match validateOptions o with
    | Err e => (h, Err (throw e))
    | Ok _ =>
        let '(h', r) := match te_entry env, te_mechanisms env, te_session env, te_login env with
                        | Ok _, Ok mechanisms, Ok session, Ok _ => operation mechanisms session h
                        | _, _, _, _ => (h, Err (plain_Error []))
                        end in
        (h', snd (withSession th_ckr (Ok tt) (te_entry env) (void (te_mechanisms env)) (void (te_session env)) (te_login env) r))
    end).

Definition routesToToken (reference : jstr) : bool :=
  isKeyUri reference || bool_decide (trim reference = []) && negb (bool_decide (ro_keyUri o = [])).

Definition resolve (reference : jstr) : tok KeyUri := tlift (lift_pkcs11 (resolveKeyUri o reference)).

Definition fetchPublicKey (uri : KeyUri) (s : signal) : tok jstr :=
  onToken s (λ _ session,
    do* (handle, objectClass) := publicObjectFor session uri in
    if bool_decide (objectClass = CkoCertificate)
    then do* attributes := getAttributes session handle [cka_Value AttributeType] in
         tlift (lift_pkcs11 (certificatePublicKey attributes))
    else do* attributes := getAttributes session handle
               (map (λ f, f AttributeType) [cka_KeyType; cka_Modulus; cka_PublicExponent; cka_EcPoint; cka_EcParams]) in
         tlift (publicKeyFromAttributes attributes)).

Definition fetchVerificationKey (reference : jstr) (s : signal) : tok jstr :=
  do* uri := resolve reference in fetchPublicKey uri s.

Definition new_id : list N := rd_bytes rd OBJECT_ID_BYTES.

Definition generateSymmetricKeys (input : GenerateSymmetricKeyRequest) : tok KeyData :=
  let label := newObjectLabel now (klp_Symmetric KeyLabelPrefix) (gs_uid input) in
  onToken (gs_signal input) (λ mechanisms session,
    do* valueLen := tlift (aesValueLen (gs_size input)) in
    generate_aes session mechanisms label new_id valueLen).

Definition encryptAES (input : EncryptAESRequest) : tok jstr :=
  if negb (routesToToken (ea_secretKey input)) then tlift (LocalProvider.encryptAES (rd_bytes rd LocalProvider.GCM_NONCE_BYTES) input)
  else
    let nonce := rd_bytes rd (N.to_nat GCM_NONCE_BYTES) in
    onToken (ea_signal input) (λ mechanisms session,
      do* uri := resolve (ea_secretKey input) in
      do* _ := require mechanisms mech_AesGcm in
      do* handle := resolveObject session uri CkoSecretKey in
      do* ciphertext := token_encrypt session (mech_AesGcm Mechanism) (Some (gcm nonce (ea_additional input))) handle (bytesOf (ea_value input)) in
      tret (toBase64 (nonce ++ ciphertext))).

Definition decryptAES (input : DecryptAESRequest) : tok jstr :=
  if negb (routesToToken (da_secretKey input)) then tlift (LocalProvider.decryptAES input)
  else
    onToken (da_signal input) (λ mechanisms session,
      do* uri := resolve (da_secretKey input) in
      do* _ := require mechanisms mech_AesGcm in
      do* raw := tlift (fromBase64 (da_cipherValue input)) in
      if length raw <=? N.to_nat GCM_NONCE_BYTES then tlift (pfail (js "pkcs11: ciphertext is shorter than the nonce"))
      else
        do* handle := resolveObject session uri CkoSecretKey in
        do* plaintext := token_decrypt session (mech_AesGcm Mechanism)
              (Some (gcm (take (N.to_nat GCM_NONCE_BYTES) raw) (da_additional input))) handle (drop (N.to_nat GCM_NONCE_BYTES) raw) in
        tret (textOf plaintext)).

Definition generateRSAKeys (input : GenerateRSAKeyRequest) : tok KeyData :=
  let label := newObjectLabel now (klp_Rsa KeyLabelPrefix) (gr_uid input) in
  onToken (gr_signal input) (λ mechanisms session,
    do* modulusBits := tlift (rsaModulusBits (gr_size input)) in
    generate_rsa session mechanisms true label new_id modulusBits).

Definition generateECDHCurveKeys (input : GenerateECDHCurveKeyRequest) : tok KeyData :=
  let label := newObjectLabel now (klp_Ecdh KeyLabelPrefix) (ge_uid input) in
  onToken (ge_signal input) (λ mechanisms session,
    do* ecParams := tlift (ecParamsForCurve (ge_curve input)) in
    do* _ := require mechanisms mech_EcKeyPairGen in
    generate_pair session label new_id (mech_EcKeyPairGen Mechanism)
      (publicKeyTemplate label new_id ++ [bytesAttribute (cka_EcParams AttributeType) ecParams])
      (tokenKeyTemplate label new_id ++ [flag cka_Derive true]) [cka_EcPoint; cka_EcParams] ecdhPublicKeyFrom).

Definition rsaOaepEncode (input : RSAOAEPEncodeRequest) : tok jstr :=
  if negb (routesToToken (oe_publicKey input)) then tlift (LocalProvider.rsaOaepEncode input)
  else
    do* publicKey := fetchVerificationKey (oe_publicKey input) (oe_signal input) in
    tlift (LocalProvider.rsaOaepEncode {| oe_publicKey := publicKey; oe_text := oe_text input; oe_signal := later |}).

Definition rsaOaepDecode (input : RSAOAEPDecodeRequest) : tok jstr :=
  if negb (routesToToken (od_privateKey input)) then tlift (LocalProvider.rsaOaepDecode input)
  else
    onToken (od_signal input) (λ mechanisms session,
      do* uri := resolve (od_privateKey input) in
      do* _ := require mechanisms mech_RsaPkcsOaep in
      do* handle := resolveObject session uri CkoPrivateKey in
      let params := OaepParams (mech_Sha256 Mechanism) CKG_MGF1_SHA256 CKZ_DATA_SPECIFIED in
      tcatch (do* ciphertext := tlift (fromBase64 (od_cipherText input)) in
              do* plain := token_decrypt session (mech_RsaPkcsOaep Mechanism) (Some params) handle ciphertext in
              tret (textOf plain))
        (λ cause, tlift (Err (if isMechanismParamError cause then throw Pkcs11OaepHashUnsupportedError else cause)))).

Definition ecdhEncode (input : ECDHEncodeRequest) : tok jstr :=
  let nonce := rd_bytes rd LocalProvider.GCM_NONCE_BYTES in
  if negb (routesToToken (ee_publicKey input)) then tlift (LocalProvider.ecdhEncode (rd_entropy rd) nonce input)
  else
    do* publicKey := fetchVerificationKey (ee_publicKey input) (ee_signal input) in
    tlift (LocalProvider.ecdhEncode (rd_entropy rd) nonce {| ee_publicKey := publicKey; ee_text := ee_text input; ee_signal := later |}).

(** A plaintext, or a secret to finish with. *)
Inductive EcdhOutcome := Plaintext (plaintext : list N) | Shared (shared : list N).

Definition ecdh_operation (uri : KeyUri) (peerPoint info nonce ciphertext : list N) (mechanisms : list N) (session : Z) : tok EcdhOutcome :=
  do* _ := require mechanisms mech_Ecdh1Derive in
  do* privateKey := resolveObject session uri CkoPrivateKey in
  let extract := if negb (ro_allowSecretExtraction o) then tlift (Err (throw Pkcs11SecretNotExtractableError))
                 else do* shared := deriveExtractableSecret session privateKey peerPoint in tret (Shared shared) in
  if supportsInHardwareEcdh mechanisms
  then tcatch (do* plaintext := decryptEcdhInHardware session privateKey peerPoint info nonce ciphertext in tret (Plaintext plaintext))
         (λ failure, if negb (ro_allowSecretExtraction o) then tlift (Err failure) else extract)
  else extract.

Definition ecdhDecode (input : ECDHDecodeRequest) : tok jstr :=
  if negb (routesToToken (ed_privateKey input)) then tlift (LocalProvider.ecdhDecode input)
  else
    tok_signal (ed_signal input)
      (do* uri := resolve (ed_privateKey input) in
       do* payload := tlift (decodeECCCipherPayload (ed_cipherText input)) in
       do* peerPoint := tlift (ecdhPeerPoint (ep_ephemeralPublicKey payload) (ep_curve payload)) in
       do* nonce := tlift (fromBase64 (ep_nonce payload)) in
       do* ciphertext := tlift (fromBase64 (ep_cipherText payload)) in
       let info := bytesOf (ECDH_HKDF_INFO_PREFIX ++ ep_curve payload) in
       do* outcome := onToken later (ecdh_operation uri peerPoint info nonce ciphertext) in
       match outcome with
       | Plaintext plaintext => tret (textOf plaintext)
       | Shared shared =>
           do* plain := tlift (decryptWithSharedSecret shared (ep_curve payload) info nonce ciphertext) in tret (textOf plain)
       end).

(** ** Key management *)

Definition rotateKey (input : KeyRequest) : tok KeyData :=
  onToken (kr_signal input) (λ mechanisms session,
    do* uri := resolve (kr_keyId input) in
    do* handle := resolveObject session uri CkoPrivateKey in
    do* attributes := getAttributes session handle
          (map (λ f, f AttributeType) [cka_Class; cka_KeyType; cka_Label; cka_ValueLen; cka_ModulusBits; cka_EcParams]) in
    let label := newObjectLabel now (rotationLabelBase attributes uri) (kr_uid input) in
    do* rotated := generateReplacement session mechanisms attributes label new_id in
    do* _ := (if ro_rotateDisablesPrevious o then disableObject session handle else tret tt) in
    tret rotated).

Definition resolved_uri (uri : KeyUri) (attributes : list Attribute) : KeyUri :=
  {| ku_token := ku_token uri;
     ku_object := match findAttribute attributes (cka_Label AttributeType) with Some (b :: l) => Some (textOf (b :: l)) | _ => ku_object uri end;
     ku_id := match findAttribute attributes (cka_Id AttributeType) with Some (b :: l) => Some (b :: l) | _ => ku_id uri end;
     ku_class := ku_class uri |}.

Definition getKey (input : KeyRequest) : tok KeyData :=
  do* resolved := onToken (kr_signal input) (λ _ session,
        do* uri := resolve (kr_keyId input) in
        do* handle := resolveObject session uri CkoPrivateKey in
        do* attributes := getAttributes session handle (map (λ f, f AttributeType) [cka_Label; cka_Id; cka_Class]) in
        tret (resolved_uri uri attributes)) in
  do* publicKey := tcatch (fetchPublicKey resolved later) (λ _, tret []) in
  tlift (keyDataFor resolved publicKey).

Definition deactivateKey (input : KeyRequest) : tok unit :=
  onToken (kr_signal input) (λ _ session,
    do* uri := resolve (kr_keyId input) in
    do* handle := resolveObject session uri CkoPrivateKey in
    tcatch (disableObject session handle)
      (λ failure, if negb (ro_deactivateDestroys o) then tlift (Err failure) else destroyObject session handle)).

(** ** Hashing and signatures *)

Definition hmac (secretKey message : jstr) (s : signal) : tok jstr :=
  if negb (routesToToken secretKey) then tlift (LocalProvider.hmac secretKey message s)
  else
    onToken s (λ mechanisms session,
      do* uri := resolve secretKey in
      do* _ := require mechanisms mech_Sha256Hmac in
      do* handle := resolveObject session uri CkoSecretKey in
      do* mac := token_sign session (mech_Sha256Hmac Mechanism) None handle (bytesOf message) in
      tret (toBase64 mac)).

Definition sha256Hex (message : jstr) (s : signal) : tok jstr := tlift (LocalProvider.sha256Hex encodeHex message s).
Definition blake3 (message : jstr) (s : signal) : tok jstr := tlift (LocalProvider.blake3 nobleBlake3 message s).

Definition generateEd25519Keys (s : signal) : tok KeyData :=
  let label := newObjectLabel now (klp_Ed25519 KeyLabelPrefix) None in
  onToken s (λ mechanisms session,
    do* _ := require mechanisms mech_EcEdwardsKeyPairGen in
    generate_pair session label new_id (mech_EcEdwardsKeyPairGen Mechanism)
      (publicKeyTemplate label new_id ++ [bytesAttribute (cka_EcParams AttributeType) (ec_params "Ed25519"); flag cka_Verify true])
      (tokenKeyTemplate label new_id ++ [flag cka_Sign true]) [cka_EcPoint] ed25519PublicKeyFrom).

Definition signWithToken (reference message : jstr) (plan : list N → res thrown SignPlan) (s : signal) : tok jstr :=
  onToken s (λ mechanisms session,
    do* uri := resolve reference in
    do* chosen := tlift (plan mechanisms) in
    do* handle := resolveObject session uri CkoPrivateKey in
    do* payload := tlift (sp_prepare chosen message) in
    let sign_with params :=
      do* sig := token_sign session (sp_mechanism chosen) params handle payload in tret (toBase64 sig) in
    tcatch (sign_with (sp_params chosen))
      (λ failure, match sp_retryParams chosen with
                  | Some retry => if isMechanismParamError failure then sign_with (Some retry) else tlift (Err failure)
                  | None => tlift (Err failure)
                  end)).

Definition signEd25519 (privateKey text : jstr) (s : signal) : tok jstr :=
  if negb (routesToToken privateKey) then tlift (LocalProvider.signEd25519 privateKey text s)
  else signWithToken privateKey text planEd25519 s.

Definition signRSAPSS (privateKey text : jstr) (s : signal) : tok jstr :=
  if negb (routesToToken privateKey) then tlift (LocalProvider.signRSAPSS privateKey text s)
  else signWithToken privateKey text planRsaPss s.

Definition signRSAPKCS1v15SHA256 (privateKey data : jstr) (s : signal) : tok jstr :=
  if negb (routesToToken privateKey) then tlift (LocalProvider.signRSAPKCS1v15SHA256 privateKey data s)
  else signWithToken privateKey data planRsaPkcs1v15 s.

Definition verifyEd25519 (publicKey text signature : jstr) (s : signal) : tok unit :=
  if negb (routesToToken publicKey) then tlift (LocalProvider.verifyEd25519 publicKey text signature s)
  else do* fetched := fetchVerificationKey publicKey s in tlift (LocalProvider.verifyEd25519 fetched text signature later).

Definition verifyRSAPSS (publicKey text signature : jstr) (s : signal) : tok unit :=
  if negb (routesToToken publicKey) then tlift (LocalProvider.verifyRSAPSS publicKey text signature s)
  else do* fetched := fetchVerificationKey publicKey s in tlift (LocalProvider.verifyRSAPSS fetched text signature later).

Definition verifyRSAPKCS1v15SHA256 (data publicKey signature : jstr) (s : signal) : tok unit :=
  if negb (routesToToken publicKey) then tlift (LocalProvider.verifyRSAPKCS1v15SHA256 data publicKey signature s)
  else do* fetched := fetchVerificationKey publicKey s in tlift (LocalProvider.verifyRSAPKCS1v15SHA256 data fetched signature later).

(** [close]: what it does to the registered library. *)
Definition close (realPath : jstr → option jstr) (entry : option (option (list (option nat)))) (finalize : bool) : list release_effect :=
  match ro_module o with
  | Some _ => []
  | None => if bool_decide (ro_modulePath o = []) then [] else releaseModule realPath (ro_modulePath o) entry finalize
  end.

Definition tok_key (m : tok KeyData) : tok provider_result := do* k := m in tret (RKey k).
Definition tok_text (m : tok jstr) : tok provider_result := do* t := m in tret (RText t).
Definition tok_void (m : tok unit) : tok provider_result := do* _ := m in tret RVoid.

Definition Pkcs11Provider (c : provider_call) : tok provider_result :=
  match c with
  | GenerateSymmetricKeys input => tok_key (generateSymmetricKeys input)
  | EncryptAES input => tok_text (encryptAES input)
  | DecryptAES input => tok_text (decryptAES input)
  | GenerateRSAKeys input => tok_key (generateRSAKeys input)
  | GenerateECDHCurveKeys input => tok_key (generateECDHCurveKeys input)
  | RsaOaepEncode input => tok_text (rsaOaepEncode input)
  | RsaOaepDecode input => tok_text (rsaOaepDecode input)
  | EcdhEncode input => tok_text (ecdhEncode input)
  | EcdhDecode input => tok_text (ecdhDecode input)
  | RotateKey input => tok_key (rotateKey input)
  | GetKey input => tok_key (getKey input)
  | DeactivateKey input => tok_void (deactivateKey input)
  | Hmac secretKey message s => tok_text (hmac secretKey message s)
  | Sha256Hex message s => tok_text (sha256Hex message s)
  | Blake3 message s => tok_text (blake3 message s)
  | GenerateEd25519Keys s => tok_key (generateEd25519Keys s)
  | SignEd25519 privateKey text s => tok_text (signEd25519 privateKey text s)
  | VerifyEd25519 publicKey text signature s => tok_void (verifyEd25519 publicKey text signature s)
  | SignRSAPSS privateKey text s => tok_text (signRSAPSS privateKey text s)
  | VerifyRSAPSS publicKey text signature s => tok_void (verifyRSAPSS publicKey text signature s)
  | SignRSAPKCS1v15SHA256 privateKey data s => tok_text (signRSAPKCS1v15SHA256 privateKey data s)
  | VerifyRSAPKCS1v15SHA256 data publicKey signature s => tok_void (verifyRSAPKCS1v15SHA256 data publicKey signature s)
  end.
End provider.

(** ** What an operation logs

    [logs Q m]: the calls [m] adds to the log satisfy [Q].  [Q] is closed under concatenation, so
    the rules follow the combinators. *)

Section logs.
Context (Q : list token_call → Prop) (Qnil : Q []) (Qapp : ∀ l1 l2, Q l1 → Q l2 → Q (l1 ++ l2)).

Definition logs {A} (m : tok A) : Prop := ∀ h, ∃ l, fst (m h) = h ++ l ∧ Q l.

Lemma logs_lift {A} (r : res thrown A) : logs (tlift r).
Proof. intros h. exists []. by rewrite app_nil_r. Qed.

Lemma logs_ret {A} (a : A) : logs (tret a).
Proof. apply (logs_lift (Ok a)). Qed.

Lemma logs_bind {A B} (m : tok A) (k : A → tok B) : logs m → (∀ a, logs (k a)) → logs (tbind m k).
Proof.
  intros Hm Hk h. destruct (Hm h) as (l & E & HQ). unfold tbind. destruct (m h) as [h' [a|e]]; simpl in *; subst h'; [|by exists l].
  destruct (Hk a (h ++ l)) as (l' & -> & HQ'). exists (l ++ l'). rewrite app_assoc. auto.
Qed.

Lemma logs_catch {A} (m : tok A) (k : thrown → tok A) : logs m → (∀ e, logs (k e)) → logs (tcatch m k).
Proof.
  intros Hm Hk h. destruct (Hm h) as (l & E & HQ). unfold tcatch. destruct (m h) as [h' [a|e]]; simpl in *; subst h'; [by exists l|].
  destruct (Hk e (h ++ l)) as (l' & -> & HQ'). exists (l ++ l'). rewrite app_assoc. auto.
Qed.

Lemma logs_invoke {A} (call : res thrown A → token_call) answer : (∀ r, Q [call r]) → logs (invoke call answer).
Proof. intros H h. by exists [call (answer h)]. Qed.

Lemma logs_signal {A} s (m : tok A) : logs m → logs (tok_signal s m).
Proof.
  intros Hm h. unfold tok_signal. destruct s; [|exists []; by rewrite app_nil_r|];
    (destruct (Hm h) as (l & E & HQ); destruct (m h) as [h' r]; simpl in *; subst h'; by exists l).
Qed.

Lemma logs_onToken o env {A} s (op : list N → Z → tok A) : (∀ ms se, logs (op ms se)) → logs (onToken o env s op).
Proof.
  intros Hop. apply logs_signal. intros h. destruct (validateOptions o); [|exists []; by rewrite app_nil_r].
  destruct (te_entry env), (te_mechanisms env) as [ms|], (te_session env) as [se|], (te_login env); simpl;
    try (exists []; by rewrite app_nil_r).
  destruct (Hop ms se h) as (l & E & HQ). destruct (op ms se h) as [h' r]. simpl in *. subst h'. by exists l.
Qed.

(** A derived object that a [finally] destroys. *)
Lemma logs_derive `{PM : Pkcs11Module} se mech params base template {A} (k : Z → tok A) :
  Q [TDeriveKey mech params base template None] →
  (∀ obj l, Q l → Q (TDeriveKey mech params base template (Some obj) :: l ++ [TDestroyObject obj])) →
  (∀ obj, logs (k obj)) →
  logs (do* obj := token_deriveKey se mech params base template in tfinally (k obj) (destroyObject se obj)).
Proof.
  intros Hfail Hok Hk h. unfold tbind, token_deriveKey, invoke at 1. destruct (m_deriveKey h se mech params base template) as [obj|e]; [|by eexists].
  set (h1 := h ++ [_]). destruct (Hk obj h1) as (l & E & HQ). unfold tfinally. destruct (k obj h1) as [h2 r]. simpl in *. subst h2.
  exists (TDeriveKey mech params base template (Some obj) :: l ++ [TDestroyObject obj]).
  split; [|by apply Hok]. subst h1. by rewrite <- !app_assoc.
Qed.
End logs.

(** ** The rules of the provider *)

Definition flag_of (template : list Attribute) (f : AttributeType_t → N) : option (list N) := findAttribute template (f AttributeType).

(** An object on the token that is sensitive and cannot be read out. *)
Definition hardware_template (template : list Attribute) : Prop :=
  flag_of template cka_Token = Some [1%N] ∧ flag_of template cka_Private = Some [1%N] ∧
  flag_of template cka_Sensitive = Some [1%N] ∧ flag_of template cka_Extractable = Some [0%N].

(** A derived object lives in the session only, and can be read out only when that is allowed. *)
Definition derived_template (extraction : bool) (template : list Attribute) : Prop :=
  flag_of template cka_Token = Some [0%N] ∧
  (flag_of template cka_Sensitive = Some [1%N] ∧ flag_of template cka_Extractable = Some [0%N] ∨ extraction = true).

(** The calls that neither derive nor change an object. *)
Definition harmless (e : token_call) : Prop :=
  match e with
  | TGenerateKey _ t | TGenerateKeyPair _ _ t => hardware_template t
  | TSetAttributes _ _ | TDestroyObject _ | TDeriveKey _ _ _ _ _ => False
  | TGetAttributes _ types => cka_PrivateExponent AttributeType ∉ types
  | _ => True
  end.

Definition may_disable (o : ResolvedOptions) (c : provider_call) : Prop :=
  match c with DeactivateKey _ => True | RotateKey _ => ro_rotateDisablesPrevious o = true | _ => False end.
Definition may_destroy (o : ResolvedOptions) (c : provider_call) : Prop :=
  match c with DeactivateKey _ => ro_deactivateDestroys o = true | _ => False end.

(** The logs a call of the provider can make. *)
Record log_rules (o : ResolvedOptions) (c : provider_call) (Q : list token_call → Prop) : Prop := {
  lr_nil : Q [];
  lr_app : ∀ l1 l2, Q l1 → Q l2 → Q (l1 ++ l2);
  lr_harmless : ∀ e, harmless e → Q [e];
  lr_not_derived : ∀ m p b t, derived_template (ro_allowSecretExtraction o) t → Q [TDeriveKey m p b t None];
  lr_derived : ∀ m p b t obj l, derived_template (ro_allowSecretExtraction o) t → Q l →
    Q (TDeriveKey m p b t (Some obj) :: l ++ [TDestroyObject obj]);
  lr_disabled : may_disable o c → ∀ obj t, Q [TSetAttributes obj t];
  lr_destroyed : may_destroy o c → ∀ obj, Q [TDestroyObject obj];
}.

(** The steps of an operation one by one; a call of the token is left with its rule. *)
Ltac logs_steps :=
  repeat first
    [ simple apply logs_lift; [assumption] | simple apply logs_ret; [assumption]
    | simple apply logs_bind; [assumption| |intros ?]
    | simple apply logs_catch; [assumption| |intros ?]
    | simple apply logs_onToken; [assumption|intros ? ?]
    | simple apply logs_signal; [assumption|]
    | match goal with |- logs _ (match ?x with _ => _ end) => destruct x eqn:? end ].

(** The private exponent is not among the attributes an operation reads. *)
Ltac not_read := cbn [harmless]; apply (bool_decide_eq_true_1 _); vm_compute; reflexivity.

Section rules.
Context `{B64 : Base64} `{WC : WebCrypto} `{PM : Pkcs11Module}.
Context (o : ResolvedOptions) (env : token_env).
Context (c : provider_call) (Q : list token_call → Prop) (HQ : log_rules o c Q).

Let Qnil := lr_nil _ _ _ HQ.
Let Qapp := lr_app _ _ _ HQ.

Lemma invoke_harmless {A} (e : token_call) (answer : list token_call → res thrown A) : harmless e → logs Q (invoke (λ _, e) answer).
Proof. intros He. apply logs_invoke. intros _. by apply (lr_harmless _ _ _ HQ). Qed.

Lemma logs_find se u k : logs Q (findObject se u k).
Proof using HQ. unfold findObject, not_found. logs_steps; by apply invoke_harmless. Qed.

Lemma logs_resolve se u k : logs Q (resolveObject se u k).
Proof using HQ. unfold resolveObject. logs_steps; apply logs_find. Qed.

Lemma logs_attempt se u k : logs Q (attempt_find se u k).
Proof using HQ. unfold attempt_find. logs_steps; apply logs_find. Qed.

Lemma logs_public se u : logs Q (publicObjectFor se u).
Proof using HQ. unfold publicObjectFor, or_else, not_found. logs_steps; apply logs_attempt. Qed.

Lemma logs_fetch u s : logs Q (fetchPublicKey o env u s).
Proof using HQ.
  unfold fetchPublicKey. logs_steps; first [apply logs_public | apply invoke_harmless; not_read].
Qed.

Lemma logs_pair se label id mech pt rest types key :
  hardware_template (tokenKeyTemplate label id ++ rest) → cka_PrivateExponent AttributeType ∉ map (λ f, f AttributeType) types →
  logs Q (generate_pair se label id mech pt (tokenKeyTemplate label id ++ rest) types key).
Proof using HQ. intros Ht Hp. unfold generate_pair. logs_steps; by apply invoke_harmless. Qed.

Lemma hardware label id rest : hardware_template (tokenKeyTemplate label id ++ rest).
Proof. done. Qed.

Lemma logs_aes se ms label id n : logs Q (generate_aes se ms label id n).
Proof using HQ. unfold generate_aes, require. logs_steps; by apply invoke_harmless. Qed.

Lemma logs_rsa se ms w label id n : logs Q (generate_rsa se ms w label id n).
Proof using HQ.
  unfold generate_rsa, require. logs_steps; (apply logs_pair; [apply hardware|not_read]).
Qed.

Lemma logs_replacement se ms attrs label id : logs Q (generateReplacement se ms attrs label id).
Proof using HQ.
  unfold generateReplacement. logs_steps;
    first [apply logs_aes | apply logs_rsa | apply logs_pair; [apply hardware|not_read]].
Qed.

Lemma logs_disable se obj : may_disable o c → logs Q (disableObject se obj).
Proof using HQ.
  intros Hd. unfold disableObject. logs_steps; [apply invoke_harmless; not_read|].
  apply logs_invoke. intros _. by apply (lr_disabled _ _ _ HQ).
Qed.

Lemma logs_hardware se k p i n x : logs Q (decryptEcdhInHardware se k p i n x).
Proof using HQ.
  unfold decryptEcdhInHardware.
  apply logs_derive; [apply (lr_not_derived _ _ _ HQ)|intros; apply (lr_derived _ _ _ HQ); [|done]|intros obj]; try by (split; [|left]).
  apply logs_derive; [apply (lr_not_derived _ _ _ HQ)|intros; apply (lr_derived _ _ _ HQ); [|done]|intros obj']; try by (split; [|left]).
  by apply invoke_harmless.
Qed.

Lemma logs_extract se k p : ro_allowSecretExtraction o = true → logs Q (deriveExtractableSecret se k p).
Proof using HQ.
  intros He. unfold deriveExtractableSecret.
  apply logs_derive; [apply (lr_not_derived _ _ _ HQ)|intros; apply (lr_derived _ _ _ HQ); [|done]|intros obj]; try by (split; [|right]).
  logs_steps. apply invoke_harmless. not_read.
Qed.

Lemma logs_ecdh u p i n x ms se : logs Q (ecdh_operation o u p i n x ms se).
Proof using HQ.
  unfold ecdh_operation, require. destruct (ro_allowSecretExtraction o) eqn:Ee; cbn [negb]; logs_steps;
    first [apply logs_resolve | apply logs_hardware | by apply logs_extract].
Qed.

Lemma logs_sign r m plan s : logs Q (signWithToken o env r m plan s).
Proof using HQ. unfold signWithToken, resolve. logs_steps; first [apply logs_resolve | by apply invoke_harmless]. Qed.

Lemma logs_verification r s : logs Q (fetchVerificationKey o env r s).
Proof using HQ. unfold fetchVerificationKey, resolve. logs_steps. apply logs_fetch. Qed.

End rules.

(** What any call of the provider logs. *)
Lemma provider_logs `{B64 : Base64} `{WC : WebCrypto} `{PM : Pkcs11Module} encodeHex nobleBlake3 o env now rd later c Q :
  log_rules o c Q → logs Q (Pkcs11Provider encodeHex nobleBlake3 o env now rd later c).
Proof.
  intros HQ. pose proof (lr_nil _ _ _ HQ) as Qnil. pose proof (lr_app _ _ _ HQ) as Qapp.
  assert (Hdis : may_disable o c → ∀ se obj, logs Q (disableObject se obj)) by (intros; by eapply logs_disable).
  pose proof (lr_destroyed _ _ _ HQ) as Hdes.
  destruct c; cbn [Pkcs11Provider]; unfold tok_key, tok_text, tok_void, generateSymmetricKeys, encryptAES, decryptAES, generateRSAKeys, generateECDHCurveKeys, rsaOaepEncode, rsaOaepDecode,
    ecdhEncode, ecdhDecode, rotateKey, getKey, deactivateKey, hmac, sha256Hex, blake3, generateEd25519Keys, signEd25519,
    signRSAPSS, signRSAPKCS1v15SHA256, verifyEd25519, verifyRSAPSS, verifyRSAPKCS1v15SHA256, resolve, require, may_disable, may_destroy in *;
    logs_steps;
    first [simple eapply logs_resolve; exact HQ | simple eapply logs_aes; exact HQ | simple eapply logs_rsa; exact HQ | simple eapply logs_sign; exact HQ | by eapply logs_verification
          | simple eapply logs_fetch; exact HQ | simple eapply logs_ecdh; exact HQ | simple eapply logs_replacement; exact HQ | simple apply Hdis; done
          | simple eapply logs_pair; [exact HQ|apply hardware|not_read]
          | by eapply (invoke_harmless _ _ _ HQ) | eapply (invoke_harmless _ _ _ HQ); not_read
          | apply logs_invoke; intros _; apply Hdes; by apply negb_false_iff].
Qed.

(** ** Keys stay in the token *)

Definition keeps_secrets (extraction : bool) (e : token_call) : Prop :=
  match e with
  | TGenerateKey _ t | TGenerateKeyPair _ _ t => hardware_template t
  | TDeriveKey _ _ _ t _ => derived_template extraction t
  | TGetAttributes _ types => cka_PrivateExponent AttributeType ∉ types
  | _ => True
  end.

(** C10. Whatever the provider is asked, every secret or private key it makes the token create is on
    the token, private, sensitive and not extractable; a derived secret is never stored and can be
    read out only when the options allow extraction; a private exponent is never read. *)
Theorem keys_stay_in_token `{B64 : Base64} `{WC : WebCrypto} `{PM : Pkcs11Module} encodeHex nobleBlake3 o env now rd later c h :
  ∃ calls, fst (Pkcs11Provider encodeHex nobleBlake3 o env now rd later c h) = h ++ calls ∧
    Forall (keeps_secrets (ro_allowSecretExtraction o)) calls.
Proof.
  apply provider_logs. split.
  - done.
  - intros l1 l2 H1 H2. by apply Forall_app.
  - intros e He. apply Forall_singleton. by destruct e.
  - intros. by apply Forall_singleton.
  - intros m p b t obj l Ht Hl. constructor; [done|]. apply Forall_app. split; [done|]. by apply Forall_singleton.
  - intros. by apply Forall_singleton.
  - intros. by apply Forall_singleton.
Qed.

(** Every derived object is destroyed, and what else is changed or destroyed was asked for. *)
Record objects_kept (o : ResolvedOptions) (c : provider_call) (l : list token_call) : Prop := {
  ok_derived : ∀ i m p b t obj, l !! i = Some (TDeriveKey m p b t (Some obj)) → ∃ j, i < j ∧ l !! j = Some (TDestroyObject obj);
  ok_destroyed : ∀ j obj, l !! j = Some (TDestroyObject obj) →
    (∃ i m p b t, i < j ∧ l !! i = Some (TDeriveKey m p b t (Some obj))) ∨ may_destroy o c;
  ok_changed : ∀ j obj t, l !! j = Some (TSetAttributes obj t) → may_disable o c;
}.

Lemma objects_kept_app o c l1 l2 : objects_kept o c l1 → objects_kept o c l2 → objects_kept o c (l1 ++ l2).
Proof.
  intros [A1 B1 C1] [A2 B2 C2]. split.
  - intros i m p b t obj [Hi|[Hle Hi]]%lookup_app_Some.
    + destruct (A1 _ _ _ _ _ _ Hi) as (j & Hj & E). exists j. split; [done|by apply lookup_app_l_Some].
    + destruct (A2 _ _ _ _ _ _ Hi) as (j & Hj & E). exists (length l1 + j). split; [lia|].
      rewrite lookup_app_r by lia. by replace (length l1 + j - length l1) with j by lia.
  - intros j obj [Hj|[Hle Hj]]%lookup_app_Some.
    + destruct (B1 _ _ Hj) as [(i & m & p & b & t & Hi & E)|]; [left|by right]. exists i, m, p, b, t. split; [done|by apply lookup_app_l_Some].
    + destruct (B2 _ _ Hj) as [(i & m & p & b & t & Hi & E)|]; [left|by right]. exists (length l1 + i), m, p, b, t. split; [lia|].
      rewrite lookup_app_r by lia. by replace (length l1 + i - length l1) with i by lia.
  - intros j obj t [Hj|[_ Hj]]%lookup_app_Some; eauto.
Qed.

Lemma objects_kept_single o c e : match e with
    | TDeriveKey _ _ _ _ (Some _) => False | TDestroyObject _ => may_destroy o c | TSetAttributes _ _ => may_disable o c | _ => True end →
  objects_kept o c [e].
Proof. intros He. split; intros [|?]; intros; simplify_eq/=; try done. by right. Qed.

Lemma objects_kept_derived o c m p b t obj l : objects_kept o c l →
  objects_kept o c (TDeriveKey m p b t (Some obj) :: l ++ [TDestroyObject obj]).
Proof.
  intros [A B C]. split.
  - intros [|i] m' p' b' t' obj' H; simpl in H.
    + injection H as -> -> -> -> ->. exists (S (length l)). split; [lia|]. simpl. by rewrite lookup_app_r, Nat.sub_diag by lia.
    + apply lookup_app_Some in H as [H|[_ H]]; [|by destruct (i - length l) as [|[]]].
      destruct (A _ _ _ _ _ _ H) as (j & Hj & E). exists (S j). split; [lia|]. simpl. by apply lookup_app_l_Some.
  - intros [|j] obj' H; simpl in H; [done|]. apply lookup_app_Some in H as [H|[Hle H]].
    + destruct (B _ _ H) as [(i & m' & p' & b' & t' & Hi & E)|]; [left|by right]. exists (S i), m', p', b', t'. split; [lia|].
      simpl. by apply lookup_app_l_Some.
    + destruct (j - length l) as [|[]]; [|done..]. injection H as <-. left. exists 0, m, p, b, t. split; [lia|done].
  - intros [|j] obj' t' H; simpl in H; [done|]. apply lookup_app_Some in H as [H|[_ H]]; [eauto|by destruct (j - length l) as [|[]]].
Qed.

(** C11. Whatever the provider is asked, the objects it derives it destroys, on every path; it
    destroys no other object unless it deactivates a key with [deactivateDestroys], and changes one
    only to deactivate it or to rotate it with [rotateDisablesPrevious]. *)
Theorem token_objects_kept `{B64 : Base64} `{WC : WebCrypto} `{PM : Pkcs11Module} encodeHex nobleBlake3 o env now rd later c h :
  ∃ calls, fst (Pkcs11Provider encodeHex nobleBlake3 o env now rd later c h) = h ++ calls ∧ objects_kept o c calls.
Proof.
  apply provider_logs. split.
  - split; by intros [].
  - apply objects_kept_app.
  - intros e He. apply objects_kept_single. by destruct e.
  - intros. by apply objects_kept_single.
  - intros. by apply objects_kept_derived.
  - intros. by apply objects_kept_single.
  - intros. by apply objects_kept_single.
Qed.

(** ** Routing *)

(** The reference that decides where a call runs; without one, it runs on the token. *)
Definition call_reference (c : provider_call) : option jstr :=
  match c with
  | EncryptAES input => Some (ea_secretKey input)
  | DecryptAES input => Some (da_secretKey input)
  | RsaOaepEncode input => Some (oe_publicKey input)
  | RsaOaepDecode input => Some (od_privateKey input)
  | EcdhEncode input => Some (ee_publicKey input)
  | EcdhDecode input => Some (ed_privateKey input)
  | Hmac secretKey _ _ => Some secretKey
  | SignEd25519 k _ _ | SignRSAPSS k _ _ | SignRSAPKCS1v15SHA256 k _ _ => Some k
  | VerifyEd25519 k _ _ _ | VerifyRSAPSS k _ _ _ | VerifyRSAPKCS1v15SHA256 _ k _ _ => Some k
  | _ => None
  end.

Definition runs_locally (o : ResolvedOptions) (c : provider_call) : bool :=
  match c with
  | Sha256Hex _ _ | Blake3 _ _ => true
  | _ => match call_reference c with Some r => negb (routesToToken o r) | None => false end
  end.

Section routing.
Context `{B64 : Base64} `{WC : WebCrypto} `{PM : Pkcs11Module}.
Context (encodeHex : list N → jstr) (nobleBlake3 : list N → list N).
Context (o : ResolvedOptions) (env : token_env) (now : Z) (rd : randomness) (later : signal).

Lemma tbind_lift {A B} (r : res thrown A) (k : A → B) h : (do* a := tlift r in tret (k a)) h = (h, let* a := r in Ok (k a)).
Proof. by destruct r. Qed.

(** The token cannot be used: something that comes before the operation fails. *)
Definition token_unusable : Prop :=
  (∃ e, validateOptions o = Err e) ∨ (∃ e, te_entry env = Err e) ∨ (∃ e, te_mechanisms env = Err e) ∨
  (∃ e, te_session env = Err e) ∨ ∃ e, te_login env = Err e.

Definition fails {A} (m : tok A) : Prop := ∀ h, ∃ h' e, m h = (h', Err e).

Lemma fails_bind {A B} (m : tok A) (k : A → tok B) : fails m ∨ (∀ a, fails (k a)) → fails (tbind m k).
Proof.
  intros [Hm|Hk] h; unfold tbind.
  - destruct (Hm h) as (h' & e & ->). eauto.
  - destruct (m h) as [h' [a|e]]; [apply Hk|eauto].
Qed.

Lemma fails_signal {A} s (m : tok A) : fails m → fails (tok_signal s m).
Proof. intros Hm h. unfold tok_signal. destruct (Hm h) as (h' & e & E). rewrite E. destruct s as [|?|[?|]]; simpl; eauto. Qed.

Lemma onToken_unusable {A} s (op : list N → Z → tok A) : token_unusable → fails (onToken o env s op).
Proof.
  intros Hu. apply fails_signal. intros h. destruct (validateOptions o) as [[]|] eqn:?; [|eauto].
  destruct (te_entry env) as [[]|] eqn:?, (te_mechanisms env) eqn:?, (te_session env) eqn:?, (te_login env) as [[]|] eqn:?; simpl; eauto.
  destruct Hu as [[? Hu]|[[? Hu]|[[? Hu]|[[? Hu]|[? Hu]]]]]; congruence.
Qed.

Lemma fetch_unusable r s : token_unusable → fails (fetchVerificationKey o env r s).
Proof. intros Hu. apply fails_bind. right. intros u. by apply onToken_unusable. Qed.

Lemma ecdh_unusable input : token_unusable → routesToToken o (ed_privateKey input) = true → fails (ecdhDecode o env later input).
Proof.
  intros Hu Hr. unfold ecdhDecode. rewrite Hr. cbn [negb]. apply fails_signal. do 5 (apply fails_bind; right; intros ?).
  apply fails_bind. left. by apply onToken_unusable.
Qed.

(** C12. Routing: a call whose reference is key material is exactly a call of the local provider and
    touches no token; a call addressed to the token fails when the token cannot be used: it is
    never completed in software. *)
Theorem token_routing c h :
  (runs_locally o c = true →
     Pkcs11Provider encodeHex nobleBlake3 o env now rd later c h = (h, LocalProvider encodeHex nobleBlake3 rd c)) ∧
  (runs_locally o c = false → token_unusable →
     ∃ h' e, Pkcs11Provider encodeHex nobleBlake3 o env now rd later c h = (h', Err e)).
Proof.
  split.
  - unfold runs_locally. destruct c; cbn [call_reference]; try done; intros Hr; cbn [Pkcs11Provider LocalProvider];
      unfold tok_text, tok_void, encryptAES, decryptAES, rsaOaepEncode, rsaOaepDecode, ecdhEncode, ecdhDecode, hmac, sha256Hex, blake3,
        signEd25519, signRSAPSS, signRSAPKCS1v15SHA256, verifyEd25519, verifyRSAPSS, verifyRSAPKCS1v15SHA256; try rewrite Hr; apply tbind_lift.
  - unfold runs_locally. intros Hr Hu. revert h. change (fails (Pkcs11Provider encodeHex nobleBlake3 o env now rd later c)).
    destruct c; cbn [call_reference] in Hr; try done; try apply negb_false_iff in Hr; cbn [Pkcs11Provider]; apply fails_bind; left;
      first [by apply ecdh_unusable
            | unfold encryptAES, decryptAES, rsaOaepEncode, rsaOaepDecode, ecdhEncode, hmac, getKey,
                signEd25519, signRSAPSS, signRSAPKCS1v15SHA256, verifyEd25519, verifyRSAPSS, verifyRSAPKCS1v15SHA256; try rewrite Hr; cbn [negb];
              first [by apply onToken_unusable | apply fails_bind; left; first [by apply fetch_unusable | by apply onToken_unusable]]].
Qed.
End routing.

(** ** Errors *)

Section errors.
Context `{B64 : Base64} `{WC : WebCrypto} `{PM : Pkcs11Module}.

Definition rejects_well {A} (m : tok A) : Prop := ∀ h h' e, m h = (h', Err e) → th_encrypt e = true.

Lemma rejects_bind {A B} (m : tok A) (k : A → tok B) : rejects_well m → (∀ a, rejects_well (k a)) → rejects_well (tbind m k).
Proof.
  intros Hm Hk h h' e. unfold tbind. destruct (m h) as [h1 [a|e1]] eqn:E; [apply Hk|]. intros [= <- <-]. by eapply Hm.
Qed.

Lemma rejects_signal {A} s (m : tok A) : rejects_well (tok_signal s m).
Proof.
  intros h h' e. unfold tok_signal. destruct s as [|reason|abort].
  - destruct (m h) as [h1 r]. intros [= <- H]. exact (runWithSignal_Err NoSignal r e H).
  - intros [= <- H]. exact (runWithSignal_Err (AlreadyAborted reason) (Ok tt) e (f_equal _ H)).
  - destruct (m h) as [h1 r]. intros [= <- H]. exact (runWithSignal_Err (Pending abort) r e H).
Qed.

Lemma rejects_lift {A} (r : res thrown A) : (∀ e, r = Err e → th_encrypt e = true) → rejects_well (tlift r).
Proof. intros Hr h h' e [= <- H]. by apply Hr. Qed.

Lemma rejects_ret {A} (a : A) : rejects_well (tret a).
Proof. by intros h h' e H. Qed.

Lemma rejects_local {A} s (op : res thrown A) : rejects_well (tlift (runWithSignal s op)).
Proof. apply rejects_lift. intros e. apply runWithSignal_Err. Qed.

Lemma rejects_resolve o r : rejects_well (resolve o r).
Proof. apply rejects_lift. intros e. destruct (resolveKeyUri o r); simpl; intros [= <-]. done. Qed.

Lemma rejects_keyData u k : rejects_well (tlift (keyDataFor u k)).
Proof. apply rejects_lift. intros e. unfold keyDataFor. destruct (formatKeyUri u); simpl; intros [= <-]. done. Qed.

Ltac rejects_steps :=
  repeat first
    [ simple apply rejects_ret | simple apply rejects_resolve | simple apply rejects_keyData | apply rejects_signal
    | simple apply rejects_bind; [|intros ?] | apply rejects_local
    | match goal with |- rejects_well (match ?x with _ => _ end) => destruct x eqn:? end ].

(** C19. Every rejection of the providers is an [EncryptError], whatever failed: the token, Web
    Crypto, an argument or the signal. *)
Theorem provider_rejections encodeHex nobleBlake3 o env now rd later c :
  (∀ h h' e, Pkcs11Provider encodeHex nobleBlake3 o env now rd later c h = (h', Err e) → th_encrypt e = true) ∧
  (∀ e, LocalProvider encodeHex nobleBlake3 rd c = Err e → th_encrypt e = true).
Proof.
  split; [|intros e; apply local_rejects].
  change (rejects_well (Pkcs11Provider encodeHex nobleBlake3 o env now rd later c)).
  destruct c; cbn [Pkcs11Provider]; unfold tok_key, tok_text, tok_void, encryptAES, decryptAES, rsaOaepEncode, rsaOaepDecode,
    ecdhEncode, hmac, sha256Hex, blake3, signEd25519, signRSAPSS, signRSAPKCS1v15SHA256, verifyEd25519, verifyRSAPSS,
    verifyRSAPKCS1v15SHA256, ecdhDecode, getKey, fetchVerificationKey; rejects_steps.
  intros h h' e. unfold tcatch, tret. destruct (fetchPublicKey _ _ _ _ _) as [? []]; intros [=].
Qed.
End errors.

(** ** One envelope for both providers *)

Section envelope.
Context `{B64 : Base64} `{WC : WebCrypto} `{PM : Pkcs11Module}.

Lemma tbind_Ok {A B} (m : tok A) (k : A → tok B) h h' b : tbind m k h = (h', Ok b) →
  ∃ h1 a, m h = (h1, Ok a) ∧ k a h1 = (h', Ok b).
Proof. unfold tbind. destruct (m h) as [h1 [a|e]]; [eauto|done]. Qed.

Lemma tbind_run {A B} (m : tok A) (k : A → tok B) h h1 a : m h = (h1, Ok a) → tbind m k h = k a h1.
Proof. unfold tbind. by intros ->. Qed.

Lemma onToken_Ok o env {A} s (op : list N → Z → tok A) h h' a : onToken o env s op h = (h', Ok a) →
  ∃ ms se, op ms se h = (h', Ok a).
Proof.
  unfold onToken, tok_signal. destruct s as [|?|[?|]]; try done; destruct (validateOptions o); try done;
    destruct (te_entry env), (te_mechanisms env) as [ms|], (te_session env) as [se|], (te_login env); try done;
    simpl; destruct (op ms se h) as [h1 [b|e]] eqn:E; simpl; intros [= <- <-]; eauto.
Qed.

(** The session is available. *)
Definition token_ready (o : ResolvedOptions) (env : token_env) (ms : list N) (se : Z) : Prop :=
  validateOptions o = Ok tt ∧ te_entry env = Ok tt ∧ te_mechanisms env = Ok ms ∧ te_session env = Ok se ∧ te_login env = Ok tt.

Lemma onToken_run o env {A} s (op : list N → Z → tok A) ms se h h' a : signal_live s = true → token_ready o env ms se →
  op ms se h = (h', Ok a) → onToken o env s op h = (h', Ok a).
Proof.
  intros Hs (Ho & He & Hm & Hse & Hl) Hop. unfold onToken, tok_signal. rewrite Ho, He, Hm, Hse, Hl, Hop.
  by destruct s as [|?|[?|]].
Qed.

(** C_FindObjects: the objects that have every attribute of the template, with its value. *)
Definition has_attribute (attributes : list Attribute) (a : Attribute) : bool :=
  bool_decide (findAttribute attributes (at_type a) = Some (at_value a)).
Definition matching (template : list Attribute) (objects : list (Z * list Attribute)) : list Z :=
  map fst (filter (λ x, forallb (has_attribute x.2) template = true) objects).

(** What a key URI asks of a secret key: its CKA_CLASS (0) is CKO_SECRET_KEY (4), its CKA_LABEL (3)
    the object name and its CKA_ID (0x102) the id, when the URI has one. *)
Definition named (u : KeyUri) (attributes : list Attribute) : Prop :=
  findAttribute attributes 0%N = Some [4; 0; 0; 0; 0; 0; 0; 0]%N ∧
  (∀ name, ku_object u = Some name → name ≠ [] → findAttribute attributes 3%N = Some (utf8_encode name)) ∧
  (∀ id, ku_id u = Some id → id ≠ [] → findAttribute attributes 258%N = Some id).

(** Exactly one object on the token is the secret key that the URI names. *)
Definition addresses (u : KeyUri) (obj : Z) (objects : list (Z * list Attribute)) : Prop :=
  (∃ attributes, (obj, attributes) ∈ objects ∧ named u attributes) ∧
  ∀ other attributes, (other, attributes) ∈ objects → named u attributes → other = obj.

(** A token finds its objects, the object [obj] on it is the AES key [raw], and it computes AES-GCM.
    [objects] are the objects on the token after the calls made before. *)
Record token_holds (raw : list N) (obj : Z) (objects : list token_call → list (Z * list Attribute)) : Prop := {
  th_finds : ∀ h se t, m_findObjects h se t = Ok (matching t (objects h));
  th_encrypts : ∀ h se iv aad plain cipher,
    m_encrypt h se (mech_AesGcm Mechanism) (Some (GcmParams iv aad GCM_TAG_BITS)) obj plain = Ok cipher →
    ∃ k, importKey "raw" raw AesGcm false ["encrypt"]%string = Ok k ∧ encrypt (AesGcmParams iv (Some aad)) k plain = Ok cipher;
  th_decrypts : ∀ h se iv aad k cipher plain, importKey "raw" raw AesGcm false ["decrypt"]%string = Ok k →
    decrypt (AesGcmParams iv (Some aad)) k cipher = Ok plain →
    m_decrypt h se (mech_AesGcm Mechanism) (Some (GcmParams iv aad GCM_TAG_BITS)) obj cipher = Ok plain;
}.

(** No additional data is empty additional data. *)
Definition no_additional_data : Prop := ∀ iv k x,
  encrypt (AesGcmParams iv None) k x = encrypt (AesGcmParams iv (Some [])) k x ∧
  decrypt (AesGcmParams iv None) k x = decrypt (AesGcmParams iv (Some [])) k x.

Definition aad_of (additional : option jstr) : list N := match additional with Some (c :: a) => bytesOf (c :: a) | _ => [] end.

Lemma same_aad : no_additional_data → ∀ additional iv k x,
  encrypt (AesGcmParams iv (bytesOf <$> additional)) k x = encrypt (AesGcmParams iv (Some (aad_of additional))) k x ∧
  decrypt (AesGcmParams iv (bytesOf <$> additional)) k x = decrypt (AesGcmParams iv (Some (aad_of additional))) k x.
Proof. intros Hn [[|c a]|] iv k x; [done..|apply Hn]. Qed.

Lemma template_named u template : find_template u (Some (CClass CkoSecretKey)) = Ok template →
  ∀ attributes, forallb (has_attribute attributes) template = true ↔ named u attributes.
Proof.
  intros [= <-] attributes. unfold named. cbn [app forallb]. rewrite forallb_app, !andb_true_iff.
  unfold has_attribute at 1. rewrite bool_decide_eq_true. cbn [at_type at_value ulongAttribute].
  change (cka_Class AttributeType) with 0%N. change (le_encode 8 (class_number CkoSecretKey)) with [4; 0; 0; 0; 0; 0; 0; 0]%N.
  apply and_iff_compat_l. f_equiv.
  - destruct (ku_object u) as [[|c t]|]; cbn [forallb]; rewrite ?andb_true_r; unfold has_attribute; rewrite ?bool_decide_eq_true; naive_solver.
  - destruct (ku_id u) as [[|c t]|]; cbn [forallb]; rewrite ?andb_true_r; unfold has_attribute; rewrite ?bool_decide_eq_true; naive_solver.
Qed.

Definition names_secret_key (u : KeyUri) : Prop := ku_class u = None ∨ ku_class u = Some (CClass CkoSecretKey).

Lemma matching_addressed u template obj objects : find_template u (Some (CClass CkoSecretKey)) = Ok template →
  addresses u obj objects → ∃ rest, matching template objects = obj :: rest.
Proof.
  intros Ht [(attrs & Hin & Hn) Honly]. unfold matching.
  assert (Hall : ∀ x, x ∈ filter (λ x : Z * list Attribute, forallb (has_attribute x.2) template = true) objects → x.1 = obj).
  { intros [o a] [Ha Hx]%list_elem_of_filter. apply (template_named _ _ Ht) in Ha. by eapply Honly. }
  assert (Hmem : (obj, attrs) ∈ filter (λ x : Z * list Attribute, forallb (has_attribute x.2) template = true) objects).
  { apply list_elem_of_filter. split; [|done]. by apply (template_named _ _ Ht). }
  destruct (filter _ objects) as [|x l]; [by apply not_elem_of_nil in Hmem|]. exists (map fst l). simpl. f_equal. apply Hall. constructor.
Qed.

Lemma resolve_finds raw obj objects se u h : token_holds raw obj objects → names_secret_key u → addresses u obj (objects h) →
  ∃ h', resolveObject se u CkoSecretKey h = (h', Ok obj).
Proof.
  intros Ht Hc Ha. destruct (find_template u (Some (CClass CkoSecretKey))) as [template|] eqn:Et; [|done].
  destruct (matching_addressed _ _ _ _ Et Ha) as [rest Em].
  assert (∃ h', findObject se u (Some (CClass CkoSecretKey)) h = (h', Ok obj)) as [h' Hf].
  { unfold findObject, findObjects, invoke, tbind, tlift. rewrite Et, (th_finds _ _ _ Ht), Em. by eexists. }
  unfold resolveObject. destruct Hc as [-> | ->]; [unfold tcatch; rewrite Hf|]; eauto.
Qed.

Lemma resolve_only raw obj objects se u h h' x : token_holds raw obj objects → names_secret_key u → addresses u obj (objects h) →
  resolveObject se u CkoSecretKey h = (h', Ok x) → x = obj.
Proof. intros Ht Hc Ha. destruct (resolve_finds raw obj objects se u h Ht Hc Ha) as [h1 ->]. congruence. Qed.

Section same_key.
Context (HB : base64_inverse B64) (HW : web_crypto_laws WC) (Hno : no_additional_data).
Context (raw : list N) (obj : Z) (objects : list token_call → list (Z * list Attribute)) (Ht : token_holds raw obj objects) (Hraw : Forall (λ b, b < 256)%N raw).
Context (o : ResolvedOptions) (env : token_env) (rd : randomness).
Context (Hl : length (rd_bytes rd 12) = 12) (Hnb : Forall (λ b, b < 256)%N (rd_bytes rd 12)).

Lemma token_to_local reference additional value c s s' h h' u : signal_live s' = true → routesToToken o reference = true →
  resolveKeyUri o reference = Ok u → names_secret_key u → addresses u obj (objects h) →
  encryptAES o env rd {| ea_secretKey := reference; ea_value := value; ea_additional := additional; ea_signal := s |} h = (h', Ok c) →
  LocalProvider.decryptAES {| da_secretKey := toBase64 raw; da_cipherValue := c; da_additional := additional; da_signal := s' |} =
    Ok (textOf (bytesOf value)).
Proof using HB HW Hno Ht Hraw Hl Hnb.
  intros Hs' Hr Hu Hc Haddr. unfold encryptAES. cbn [ea_secretKey ea_value ea_additional ea_signal]. rewrite Hr. cbn [negb].
  change (N.to_nat GCM_NONCE_BYTES) with 12.
  intros (ms & se & (h1 & u' & [= <- Hu'] & (h2 & [] & [= <- _] & (h3 & x & Hx & (h4 & ct & [= <- Ec] & [= <- <-])%tbind_Ok)%tbind_Ok)%tbind_Ok)%tbind_Ok)%onToken_Ok.
  rewrite Hu in Hu'. injection Hu' as <-.
  apply (resolve_only _ _ _ _ _ _ _ _ Ht Hc Haddr) in Hx as ->. apply (th_encrypts _ _ _ Ht) in Ec as (k & Ek & Ec).
  change (match additional with Some (c :: a) => bytesOf (c :: a) | _ => [] end) with (aad_of additional) in Ec.
  rewrite <- (proj1 (same_aad Hno _ _ _ _)) in Ec.
  apply (aes_decrypts HB HW (rd_bytes rd 12) _ _ _ NoSignal s'); [done..|]. unfold LocalProvider.encryptAES.
  cbn [ea_secretKey ea_value ea_additional ea_signal runWithSignal]. rewrite (fromBase64_toBase64 HB raw Hraw). cbn [rbind].
  rewrite Ek. cbn [rbind]. rewrite Ec. cbn [rbind runEncryptOperation]. unfold concatBytes. cbn [concat]. by rewrite app_nil_r.
Qed.

(** What [LocalProvider.encryptAES] returned, apart. *)
Lemma local_envelope additional value c s :
  LocalProvider.encryptAES (rd_bytes rd 12) {| ea_secretKey := toBase64 raw; ea_value := value; ea_additional := additional; ea_signal := s |} = Ok c →
  ∃ ct, fromBase64 c = Ok (rd_bytes rd 12 ++ ct) ∧ ct ≠ [] ∧
    ∀ h se, m_decrypt h se (mech_AesGcm Mechanism) (Some (gcm (rd_bytes rd 12) additional)) obj ct = Ok (bytesOf value).
Proof using HB HW Hno Ht Hraw Hnb.
  intros [_ He]%runWithSignal_Ok. cbn [ea_secretKey ea_value ea_additional ea_signal] in He.
  rewrite (fromBase64_toBase64 HB raw Hraw) in He. cbn [rbind] in He. apply rbind_Ok in He as (k & Ek & (ct & Ec & [= <-])%rbind_Ok).
  destruct (law_aes_raw _ HW _ _ _ _ _ _ Ek Ec) as (k' & Ek' & Ed). rewrite (proj2 (same_aad Hno _ _ _ _)) in Ed.
  pose proof (law_encrypt_bytes _ HW _ _ _ _ Ec) as [Hct Hne]. exists ct. unfold concatBytes. cbn [concat]. rewrite app_nil_r. split_and!.
  - apply fromBase64_toBase64; [done|]. by apply Forall_app.
  - done.
  - intros h se. unfold gcm. exact (th_decrypts _ _ _ Ht h se _ _ _ _ _ Ek' Ed).
Qed.

Lemma local_to_token reference additional value c s s' h ms se u : signal_live s' = true → routesToToken o reference = true →
  LocalProvider.encryptAES (rd_bytes rd 12) {| ea_secretKey := toBase64 raw; ea_value := value; ea_additional := additional; ea_signal := s |} = Ok c →
  token_ready o env ms se → mech_AesGcm Mechanism ∈ ms → resolveKeyUri o reference = Ok u → names_secret_key u → addresses u obj (objects h) →
  snd (decryptAES o env {| da_secretKey := reference; da_cipherValue := c; da_additional := additional; da_signal := s' |} h) =
    Ok (textOf (bytesOf value)).
Proof using HB HW Hno Ht Hraw Hl Hnb.
  intros Hs' Hr (ct & Hblob & Hne & Hdec)%local_envelope Hready Hm Hu Hc Haddr. unfold decryptAES.
  cbn [da_secretKey da_cipherValue da_additional da_signal]. rewrite Hr. cbn [negb].
  destruct (resolve_finds _ _ _ se u h Ht Hc Haddr) as [h1 Ex].
  erewrite (onToken_run _ _ _ _ ms se); [reflexivity|done..|]. unfold resolve. rewrite Hu, Hblob. unfold require, requireMechanism, supports.
  rewrite bool_decide_true by done. cbn [lift_pkcs11]. unfold tbind at 1 2 3, tlift. change (N.to_nat GCM_NONCE_BYTES) with 12.
  replace (length (rd_bytes rd 12 ++ ct) <=? 12) with false by (rewrite length_app; destruct ct; simpl; [done|lia]).
  rewrite (tbind_run _ _ _ _ _ Ex), take_app_length', drop_app_length' by done.
  unfold tbind, token_decrypt, invoke. by rewrite Hdec.
Qed.
End same_key.

(** C13. The envelope of an AES ciphertext is the same on the token and in software: when the key URI
    names exactly one secret key of the token, and that is the key in software, each side decrypts
    what the other encrypted. *)
Theorem envelope_shared (HB : base64_inverse B64) (HW : web_crypto_laws WC) (Hno : no_additional_data) raw obj objects
    (Ht : token_holds raw obj objects) o env rd reference additional value c s s' h u :
  Forall (λ b, b < 256)%N raw → length (rd_bytes rd 12) = 12 → Forall (λ b, b < 256)%N (rd_bytes rd 12) →
  well_formed value = true → strip_bom (utf8_encode value) = utf8_encode value → signal_live s' = true →
  routesToToken o reference = true → resolveKeyUri o reference = Ok u → names_secret_key u → addresses u obj (objects h) →
  (∀ h', encryptAES o env rd {| ea_secretKey := reference; ea_value := value; ea_additional := additional; ea_signal := s |} h = (h', Ok c) →
     LocalProvider.decryptAES {| da_secretKey := toBase64 raw; da_cipherValue := c; da_additional := additional; da_signal := s' |} = Ok value) ∧
  (∀ ms se, LocalProvider.encryptAES (rd_bytes rd 12) {| ea_secretKey := toBase64 raw; ea_value := value; ea_additional := additional; ea_signal := s |} = Ok c →
     token_ready o env ms se → mech_AesGcm Mechanism ∈ ms →
     snd (decryptAES o env {| da_secretKey := reference; da_cipherValue := c; da_additional := additional; da_signal := s' |} h) = Ok value).
Proof.
  intros Hraw Hl Hnb Hw Hbom Hs' Hr Hu Hc Ha. assert (Hv : textOf (bytesOf value) = value) by by apply utf8_roundtrip. split.
  - intros h' He. etransitivity; [by eapply token_to_local|by f_equal].
  - intros ms se He Hready Hm. etransitivity; [by eapply local_to_token|by f_equal].
Qed.
End envelope.

(** ** A concrete token *)

Module ToyToken.
#[local] Existing Instances Hex.codec Toy.crypto.

(** The attributes of an RSA private key as tokens describe it, given for every object. *)
Definition object_7 (type : N) : Attribute :=
  {| at_type := type; at_value := if (type =? cka_KeyType AttributeType)%N then le_encode 8 0 else [];
     at_present := (type =? cka_KeyType AttributeType)%N |}.

(** Two secret keys; [7] is the one with the label k. *)
Definition secret (label : jstr) : list Attribute :=
  [ulongAttribute (cka_Class AttributeType) 4; textAttribute (cka_Label AttributeType) label].
Definition objects : list (Z * list Attribute) := [(6%Z, secret (js "other")); (7%Z, secret (js "k"))].

#[export] Instance token : Pkcs11Module := {|
  m_findObjects _ _ t := Ok (matching t objects);
  m_getAttributes _ _ _ types := Ok (map object_7 types);
  m_setAttributes _ _ _ _ := Ok tt;
  m_destroyObject _ _ _ := Ok tt;
  m_generateKey _ _ _ _ := Ok 8%Z;
  m_generateKeyPair _ _ _ _ _ := Ok (8%Z, 9%Z);
  m_deriveKey _ _ _ _ _ _ := Ok 10%Z;
  m_encrypt _ _ _ _ _ plain := Toy.checked (plain ++ repeat 0%N 16);
  m_decrypt _ _ _ _ _ cipher := Ok (take (length cipher - 16) cipher);
  m_sign _ _ _ _ _ m := Ok m;
  m_synchronous := false;
|}.

Lemma holds : token_holds [1; 2]%N 7 (λ _, objects).
Proof.
  split; [done| |].
  - intros h se iv aad plain cipher E. by eexists.
  - intros h se iv aad k cipher plain _ E. exact E.
Qed.

Definition options : ResolvedOptions :=
  resolveOptions {| po_modulePath := Some (js "/lib/token.so"); po_tokenLabel := Some (js "t"); po_slotId := None; po_keyUri := None;
                    po_maxSessions := None; po_pin := Some 1; po_allowSecretExtraction := None; po_deactivateDestroys := None;
                    po_rotateDisablesPrevious := None; po_module := None |}.
Definition env : token_env := {| te_entry := Ok tt; te_mechanisms := Ok [mech_AesGcm Mechanism]; te_session := Ok 1%Z; te_login := Ok tt |}.
Definition rd : randomness := {| rd_bytes n := replicate n 5%N; rd_entropy := 3; rd_uuid := js "u" |}.

Definition uri : KeyUri := {| ku_token := None; ku_object := Some (js "k"); ku_id := None; ku_class := None |}.

Lemma addressed : addresses uri 7 objects.
Proof.
  split.
  - exists (secret (js "k")). split; [by right; left|]. split_and!; [reflexivity|by intros ? [= <-] _|done].
  - intros other attributes Hin (_ & Hn & _). specialize (Hn _ eq_refl ltac:(done)).
    unfold objects in Hin. rewrite !elem_of_cons, elem_of_nil in Hin. destruct Hin as [[= -> ->]|[[= -> ->]|[]]]; [discriminate Hn|done].
Qed.
End ToyToken.

Section toy_token.
#[local] Existing Instances Hex.codec Toy.crypto ToyToken.token.

Lemma envelope_shared_witness :
  snd (encryptAES ToyToken.options ToyToken.env ToyToken.rd
         {| ea_secretKey := js "pkcs11:object=k"; ea_value := js "hi"; ea_additional := None; ea_signal := NoSignal |} [])
    = Ok (js "050505050505050505050505686900000000000000000000000000000000") ∧
  LocalProvider.decryptAES {| da_secretKey := js "0102"; da_cipherValue := js "050505050505050505050505686900000000000000000000000000000000"; da_additional := None;
                              da_signal := NoSignal |} = Ok (js "hi") ∧
  snd (decryptAES ToyToken.options ToyToken.env {| da_secretKey := js "pkcs11:object=k"; da_cipherValue := js "050505050505050505050505686900000000000000000000000000000000";
         da_additional := None; da_signal := NoSignal |} []) = Ok (js "hi").
Proof.
  destruct (envelope_shared Hex.inverse Toy.laws (λ iv k x, conj eq_refl eq_refl) [1; 2]%N 7 (λ _, ToyToken.objects) ToyToken.holds ToyToken.options ToyToken.env ToyToken.rd
              (js "pkcs11:object=k") None (js "hi") (js "050505050505050505050505686900000000000000000000000000000000") NoSignal NoSignal [] ToyToken.uri) as [Hout Hin];
    [by repeat (constructor; [reflexivity|]); constructor|reflexivity|by repeat (constructor; [reflexivity|]); constructor|reflexivity|
     reflexivity|reflexivity|reflexivity|vm_compute; reflexivity|by left|exact ToyToken.addressed|].
  split; [vm_compute; reflexivity|]. split.
  - eapply Hout. vm_compute. reflexivity.
  - apply (Hin [mech_AesGcm Mechanism] 1%Z); [vm_compute; reflexivity|done|by left].
Defined.
End toy_token.


(** ** What the code does not do *)

Section findings.
Context `{B64 : Base64} `{WC : WebCrypto} `{PM : Pkcs11Module}.

(** A token describes an RSA private key by [CKA_MODULUS], not by [CKA_MODULUS_BITS]: the
    replacement of any RSA key, of 4096 bits too, has 2048 bits. *)
Theorem rotation_downgrades se ms attributes label id raw :
  findAttribute attributes (cka_KeyType AttributeType) = Some raw → ulongValue raw = Some (dbl_of_Z 0) →
  findAttribute attributes (cka_ModulusBits AttributeType) = None →
  generateReplacement se ms attributes label id = generate_rsa se ms false label id 2048.
Proof. intros Hk Hr Hm. unfold generateReplacement. by rewrite Hk, Hr, Hm. Qed.

(** Only the labels of the provider lose the timestamp of the last rotation. *)
Theorem rotation_label_grows : let rotated label now := newObjectLabel now (rotationLabelBase [textAttribute (cka_Label AttributeType) label] empty_uri) None in
  rotated (rotated (js "billing") 1%Z) 2%Z = js "billing-1-2" ∧ rotated (rotated (js "GoForge-rsa") 1%Z) 2%Z = js "GoForge-rsa-2".
Proof. split; vm_compute; reflexivity. Qed.

(** When the signal is aborted before the public key is read, the request resolves all the same. *)
Theorem abort_hidden o env reason input u h h' ref :
  onToken o env (kr_signal input) (λ _ session,
        do* uri := resolve o (kr_keyId input) in
        do* handle := resolveObject session uri CkoPrivateKey in
        do* attributes := getAttributes session handle (map (λ f, f AttributeType) [cka_Label; cka_Id; cka_Class]) in
        tret (resolved_uri uri attributes)) h = (h', Ok u) →
  formatKeyUri u = Ok ref →
  getKey o env (AlreadyAborted reason) input h =
    (h', Ok {| kd_publicKey := []; kd_keyId := keyUriHexId u; kd_keyRef := ref; kd_provider := Pkcs11Options.PROVIDER |}).
Proof. intros Hu Hf. unfold getKey. rewrite (tbind_run _ _ _ _ _ Hu). unfold keyDataFor. by rewrite Hf. Qed.

(** With the methods of the FFI binding, a derived object that cannot be destroyed hides the
    plaintext the hardware gave: the caller's [catch] then extracts the secret. *)
Theorem destroy_failure_hides_plaintext se k p i n x h e : m_synchronous = true → (∀ h o, m_destroyObject h se o = Err e) →
  ∃ e', snd (decryptEcdhInHardware se k p i n x h) = Err e'.
Proof.
  intros Hs Hd. unfold decryptEcdhInHardware, tbind, token_deriveKey, invoke. destruct (m_deriveKey _ _ _ _ _ _) as [o|]; [|by eexists].
  unfold tfinally at 1. destruct (match m_deriveKey _ _ _ _ _ _ with Ok _ => _ | Err _ => _ end) as [h1 r].
  unfold destroyObject, invoke. rewrite Hd, Hs. by eexists.
Qed.

(** A URI that names several objects gives the first. *)
Theorem ambiguous_uri se u k template a b rest h : find_template u k = Ok template → m_findObjects h se template = Ok (a :: b :: rest) →
  findObject se u k h = (h ++ [TFindObjects template], Ok a).
Proof. intros Ht Hf. unfold findObject, findObjects, invoke, tbind, tlift. by rewrite Ht, Hf. Qed.
End findings.

(** On the concrete token, rotating the RSA key asks for 2048 bits. *)
Example rotation_asks_2048 :
  nth_error (fst (rotateKey (B64 := Hex.codec) (PM := ToyToken.token) ToyToken.options
      {| te_entry := Ok tt; te_mechanisms := Ok [mech_RsaPkcsKeyPairGen Mechanism]; te_session := Ok 1%Z; te_login := Ok tt |}
      1 ToyToken.rd {| kr_keyId := js "pkcs11:object=k"; kr_uid := None; kr_signal := NoSignal |} [])) 3
  = Some (TGenerateKeyPair (mech_RsaPkcsKeyPairGen Mechanism)
      (publicKeyTemplate (js "k-1") (replicate 16 5%N) ++
       [ulongAttribute (cka_ModulusBits AttributeType) 2048; bytesAttribute (cka_PublicExponent AttributeType) RSA_PUBLIC_EXPONENT;
        flag cka_Encrypt true; flag cka_Verify true])
      (tokenKeyTemplate (js "k-1") (replicate 16 5%N) ++ [flag cka_Decrypt true; flag cka_Sign true])).
Proof. vm_compute. reflexivity. Qed.
