(* ===== verification/Ffi.v ===== *)
(** * encrypt/pkcs11/ffi.ts: the binding of a Cryptoki library

    The library is a parameter: a function of the call, the memory and its own state.  The memory
    is the list of the byte buffers that were allocated, a buffer is its position in the list,
    and [address] is where the engine puts it.  A call changes the bytes of buffers and never
    their sizes.  The log of the calls is a ghost field. *)

From S2P Require Export Pkcs11Repository.
Local Open Scope nat_scope.

(** ** Constants *)

Definition SESSION_FLAGS : Z := Z.lor 4 2.
Definition OS_LOCKING_OK : Z := 2.
Definition USER_TYPE_USER : Z := 1.
Definition SLOT_FLAG_TOKEN_PRESENT : N := 1.
Definition UNAVAILABLE_INFORMATION : N := 18446744073709551615.
Definition POINTER_SIZE : nat := 8.
Definition ULONG_SIZE : nat := 8.
Definition ATTRIBUTE_SIZE : nat := 24.
Definition MECHANISM_SIZE : nat := 24.
Definition FIND_BATCH : nat := 32.

Inductive FunctionName :=
  | C_Initialize | C_Finalize | C_GetSlotList | C_GetSlotInfo | C_GetTokenInfo | C_GetMechanismList | C_OpenSession
  | C_CloseSession | C_Login | C_Logout | C_DestroyObject | C_GetAttributeValue | C_SetAttributeValue | C_FindObjectsInit
  | C_FindObjects | C_FindObjectsFinal | C_EncryptInit | C_Encrypt | C_DecryptInit | C_Decrypt | C_SignInit | C_Sign
  | C_VerifyInit | C_Verify | C_GenerateKey | C_GenerateKeyPair | C_DeriveKey.

#[export] Instance FunctionName_eq_dec : EqDecision FunctionName.
Proof. solve_decision. Defined.

Definition FUNCTION_INDEX : list (FunctionName * nat) :=
  [(C_Initialize, 1); (C_Finalize, 2); (C_GetSlotList, 5); (C_GetSlotInfo, 6); (C_GetTokenInfo, 7);
   (C_GetMechanismList, 8); (C_OpenSession, 13); (C_CloseSession, 14); (C_Login, 19); (C_Logout, 20);
   (C_DestroyObject, 23); (C_GetAttributeValue, 25); (C_SetAttributeValue, 26); (C_FindObjectsInit, 27);
   (C_FindObjects, 28); (C_FindObjectsFinal, 29); (C_EncryptInit, 30); (C_Encrypt, 31); (C_DecryptInit, 34);
   (C_Decrypt, 35); (C_SignInit, 43); (C_Sign, 44); (C_VerifyInit, 49); (C_Verify, 50); (C_GenerateKey, 59);
   (C_GenerateKeyPair, 60); (C_DeriveKey, 63)].

Definition fn_name (f : FunctionName) : string :=
  match f with
  | C_Initialize => "C_Initialize" | C_Finalize => "C_Finalize" | C_GetSlotList => "C_GetSlotList"
  | C_GetSlotInfo => "C_GetSlotInfo" | C_GetTokenInfo => "C_GetTokenInfo" | C_GetMechanismList => "C_GetMechanismList"
  | C_OpenSession => "C_OpenSession" | C_CloseSession => "C_CloseSession" | C_Login => "C_Login" | C_Logout => "C_Logout"
  | C_DestroyObject => "C_DestroyObject" | C_GetAttributeValue => "C_GetAttributeValue"
  | C_SetAttributeValue => "C_SetAttributeValue" | C_FindObjectsInit => "C_FindObjectsInit"
  | C_FindObjects => "C_FindObjects" | C_FindObjectsFinal => "C_FindObjectsFinal" | C_EncryptInit => "C_EncryptInit"
  | C_Encrypt => "C_Encrypt" | C_DecryptInit => "C_DecryptInit" | C_Decrypt => "C_Decrypt" | C_SignInit => "C_SignInit"
  | C_Sign => "C_Sign" | C_VerifyInit => "C_VerifyInit" | C_Verify => "C_Verify" | C_GenerateKey => "C_GenerateKey"
  | C_GenerateKeyPair => "C_GenerateKeyPair" | C_DeriveKey => "C_DeriveKey"
  end.

(** The native types of the parameters; every result is a [u64]. *)
Inductive native_type := pointer | u64 | u8.
#[export] Instance native_type_eq_dec : EqDecision native_type.
Proof. solve_decision. Defined.

Definition SIGNATURES (f : FunctionName) : list native_type :=
  match f with
  | C_Initialize | C_Finalize => [pointer]
  | C_GetSlotList => [u8; pointer; pointer]
  | C_GetSlotInfo | C_GetTokenInfo => [u64; pointer]
  | C_GetMechanismList => [u64; pointer; pointer]
  | C_OpenSession => [u64; u64; pointer; pointer; pointer]
  | C_CloseSession | C_Logout | C_FindObjectsFinal => [u64]
  | C_Login => [u64; u64; pointer; u64]
  | C_DestroyObject => [u64; u64]
  | C_GetAttributeValue | C_SetAttributeValue => [u64; u64; pointer; u64]
  | C_FindObjectsInit => [u64; pointer; u64]
  | C_FindObjects => [u64; pointer; u64; pointer]
  | C_EncryptInit | C_DecryptInit | C_SignInit | C_VerifyInit => [u64; pointer; u64]
  | C_Encrypt | C_Decrypt | C_Sign => [u64; pointer; u64; pointer; pointer]
  | C_Verify => [u64; pointer; u64; pointer; u64]
  | C_GenerateKey => [u64; pointer; pointer; u64; pointer]
  | C_GenerateKeyPair => [u64; pointer; pointer; u64; pointer; u64; pointer; pointer]
  | C_DeriveKey => [u64; pointer; u64; pointer; u64; pointer]
  end.

(** An argument of a call: an address (0 is null), a 64-bit or an 8-bit integer. *)
Inductive native_arg := APtr (p : N) | AU64 (v : Z) | AU8 (v : Z).

Definition arg_type (a : native_arg) : native_type := match a with APtr _ => pointer | AU64 _ => u64 | AU8 _ => u8 end.

(** ** The world of a call *)

Notation memory := (list (list N)).

Class Native := {
  Library : Type;
  (** The answer of the library: the return value, the memory and its state after the call. *)
  cryptoki : FunctionName → list native_arg → memory → Library → N * memory * Library;
  (** Where the engine puts a buffer, how many buffers have a place, and the longest typed array. *)
  address : nat → N;
  capacity : nat;
  max_length : N;
}.

Inductive ffi_exn :=
  | XToken (e : pkcs11_error)
  | XRange.

(** Bytes written at an offset of a buffer. *)
Definition put_at (off : nat) (new bytes : list N) : list N := take off bytes ++ new ++ drop (off + length new) bytes.
Definition le64 (v : N) : list N := le_encode 8 (Z.of_N v).
(** The eight bytes at an offset, as a number. *)
Definition get64 (off : nat) (bytes : list N) : N := le_decode (take 8 (drop off bytes)).

(** [Number(v)] of a 64-bit integer: the nearest double. *)
Definition Number (v : N) : Z := default 0%Z (dbl_to_Z (dbl_of_Z (Z.of_N v))).

Section ffi.
Context `{NT : Native}.

Record world := { w_mem : memory; w_lib : Library; w_calls : list (FunctionName * list native_arg) }.

Definition ffi (A : Type) : Type := world → res ffi_exn A * world.

Definition fret {A} (a : A) : ffi A := λ w, (Ok a, w).
Definition fthrow {A} (e : ffi_exn) : ffi A := λ w, (Err e, w).
Definition fbind {A B} (m : ffi A) (k : A → ffi B) : ffi B :=
  λ w, match m w with (Ok a, w') => k a w' | (Err e, w') => (Err e, w') end.
(** [try { m } finally { cleanup }], with a cleanup that does not throw. *)
Definition ffinally {A} (m : ffi A) (cleanup : ffi unit) : ffi A :=
  λ w, let '(r, w') := m w in let '(_, w'') := cleanup w' in (r, w'').

#[local] Notation "'ffi*' x ':=' m 'in' k" := (fbind m (λ x, k)) (at level 10, x pattern, m at level 100, k at level 200).

Fixpoint fmap_list {A B} (f : A → ffi B) (l : list A) : ffi (list B) :=
  match l with
  | [] => fret []
  | a :: l => ffi* b := f a in ffi* bs := fmap_list f l in fret (b :: bs)
  end.

(** *** Buffers *)

(** A buffer with these bytes. *)
Definition new_buffer (bytes : list N) : ffi nat := λ w,
  (Ok (length (w_mem w)), {| w_mem := w_mem w ++ [bytes]; w_lib := w_lib w; w_calls := w_calls w |}).

(** [alloc(size)]: a zeroed buffer; a size the engine has no array for is a [RangeError]. *)
Definition alloc (size : N) : ffi nat :=
  if (max_length <? size)%N then fthrow XRange else new_buffer (repeat 0%N (N.to_nat size)).

(** A copy of the bytes, or one byte when there is none. *)
Definition own (value : list N) : ffi nat := new_buffer (match value with [] => [0%N] | _ => value end).

Definition buffer (b : nat) (w : world) : list N := default [] (w_mem w !! b).
Definition read_buffer (b : nat) : ffi (list N) := λ w, (Ok (buffer b w), w).
(** [view.getBigUint64(offset, true)]. *)
Definition getBigUint64 (b off : nat) : ffi N :=
  ffi* bytes := read_buffer b in
  if length bytes <? off + 8 then fthrow XRange else fret (get64 off bytes).
Definition fill_zero (b : nat) : ffi unit := λ w,
  (Ok tt, {| w_mem := <[b := repeat 0%N (length (buffer b w))]> (w_mem w); w_lib := w_lib w; w_calls := w_calls w |}).

Definition readUlong (b off : nat) : ffi Z := ffi* v := getBigUint64 b off in fret (Number v).

(** *** Calls *)

Definition invoke (f : FunctionName) (args : list native_arg) : ffi N := λ w,
  let '(code, mem, lib) := cryptoki f args (w_mem w) (w_lib w) in
  (Ok code, {| w_mem := imap (λ i old, take (length old) (default [] (mem !! i) ++ drop (length (default [] (mem !! i))) old)) (w_mem w);
               w_lib := lib; w_calls := w_calls w ++ [(f, args)] |}).

Definition ok (code : N) : bool := (Number code =? Z.of_N (ckr_Ok ReturnValue))%Z.
Definition check (fn : FunctionName) (code : N) : ffi unit :=
  if ok code then fret tt
  else let value := Z.to_N (Number code) in
       fthrow (XToken (Pkcs11TokenError (js (fn_name fn)) value (returnValueName value))).
Definition checked_call (f : FunctionName) (args : list native_arg) : ffi unit := ffi* code := invoke f args in check f code.

(** ** Encoding *)

Definition trimmedText (bytes : list N) : jstr := trim_end (filter (λ c, c ≠ 0%N) (utf8_decode bytes)).

(** The stores into a zeroed buffer of a size: eight bytes of a number, or one byte. *)
Inductive store := S64 (off : nat) (v : N) | S8 (off : nat) (v : N).
Definition store_bytes (bytes : list N) (s : store) : list N :=
  match s with S64 off v => put_at off (le64 v) bytes | S8 off v => put_at off [v] bytes end.
Definition fill_block (size : nat) (stores : list store) : list N := foldl store_bytes (repeat 0%N size) stores.

Definition length64 (l : list N) : N := N.of_nat (length l).
Definition bit (b : bool) : N := if b then 1 else 0.

(** A block is filled before anything else sees it, so the buffer is made with its final bytes. *)
Definition encodeParams (params : MechanismParams) : ffi nat :=
  match params with
  | GcmParams iv aad tagBits =>
      ffi* ivb := own iv in
      ffi* aadb := own aad in
      new_buffer (fill_block 48 [S64 0 (address ivb); S64 8 (length64 iv); S64 16 (length64 iv * 8); S64 24 (address aadb);
                           S64 32 (length64 aad); S64 40 tagBits])
  | OaepParams hashAlg mgf source =>
      new_buffer (fill_block 40 [S64 0 hashAlg; S64 8 mgf; S64 16 source; S64 24 0; S64 32 0])
  | PssParams hashAlg mgf saltLen => new_buffer (fill_block 24 [S64 0 hashAlg; S64 8 mgf; S64 16 saltLen])
  | Ecdh1Params kdf sharedData publicData =>
      ffi* shared := own sharedData in
      ffi* public := own publicData in
      new_buffer (fill_block 40 [S64 0 kdf; S64 8 (length64 sharedData);
                           S64 16 (if 0 <? length sharedData then address shared else 0%N);
                           S64 24 (length64 publicData); S64 32 (address public)])
  | HkdfParams extract expand prf saltType info =>
      ffi* infob := own info in
      new_buffer (fill_block 64 [S8 0 (bit extract); S8 1 (bit expand); S64 8 prf; S64 16 saltType; S64 24 0; S64 32 0; S64 40 0;
                           S64 48 (address infob); S64 56 (length64 info)])
  | EddsaParams phFlag => new_buffer (fill_block 24 [S8 0 (bit phFlag); S64 8 0; S64 16 0])
  end.

Definition encodeMechanism (mechanism : N) (params : option MechanismParams) : ffi nat :=
  match params with
  | None => new_buffer (fill_block MECHANISM_SIZE [S64 0 mechanism; S64 8 0; S64 16 0])
  | Some params =>
      ffi* encoded := encodeParams params in
      ffi* bytes := read_buffer encoded in
      new_buffer (fill_block MECHANISM_SIZE [S64 0 mechanism; S64 8 (address encoded); S64 16 (length64 bytes)])
  end.

Definition attribute_stores (index : nat) (attribute : Attribute) (value : nat) : list store :=
  let offset := index * ATTRIBUTE_SIZE in
  [S64 offset (at_type attribute); S64 (offset + 8) (address value); S64 (offset + 16) (length64 (at_value attribute))].

Definition encodeTemplate (template : list Attribute) : ffi nat :=
  ffi* values := fmap_list (λ a, own (at_value a)) template in
  new_buffer (fill_block (ATTRIBUTE_SIZE * Nat.max (length template) 1)
                (concat (imap (λ i p, attribute_stores i p.1 p.2) (zip template values)))).

(** ** The size-then-fill convention *)

(** [call] gets the address of the output, 0 for null, and the address of the length. *)
Definition twoPhase (name : FunctionName) (call : N → N → ffi N) (elementSize : nat) : ffi (list N) :=
  ffi* len := alloc (N.of_nat ULONG_SIZE) in
  ffi* code := call 0%N (address len) in
  ffi* _ := check name code in
  ffi* wanted := readUlong len 0 in
  ffi* out := alloc (N.max (Z.to_N wanted * N.of_nat elementSize) 1) in
  ffi* code := call (address out) (address len) in
  ffi* _ := check name code in
  ffi* written := readUlong len 0 in
  ffi* bytes := read_buffer out in
  fret (take (N.to_nat (N.min (Z.to_N written * N.of_nat elementSize) (length64 bytes))) bytes).

(** ** The module *)

(** The count 0, which the provider reads as no limit. *)
Definition no_limit : num := NFin (QArith_base.inject_Z 0).

Definition initialize : ffi unit :=
  ffi* args := new_buffer (fill_block 48 [S64 32 (Z.to_N OS_LOCKING_OK)]) in
  ffi* code := invoke C_Initialize [APtr (address args)] in
  if negb (ok code) && negb (Number code =? Z.of_N (ckr_CryptokiAlreadyInitialized ReturnValue))%Z
  then check C_Initialize code else fret tt.

(** [close] is the closing of the library; it is called whatever [C_Finalize] returns. *)
Definition finalize (close : ffi unit) : ffi unit :=
  ffi* code := invoke C_Finalize [APtr 0] in
  ffi* _ := close in
  check C_Finalize code.

(** [#slotInfo]. *)
Definition slotInfo (slot : N) : ffi SlotInfo :=
  let absent := {| si_id := Number slot; si_tokenLabel := []; si_tokenPresent := false; si_maxSessions := no_limit |} in
  ffi* slotb := alloc 112 in
  ffi* code := invoke C_GetSlotInfo [AU64 (Z.of_N slot); APtr (address slotb)] in
  ffi* present := (if ok code then ffi* flags := getBigUint64 slotb 96 in
                                   fret (negb (N.land flags SLOT_FLAG_TOKEN_PRESENT =? 0)%N) else fret false) in
  if negb present then fret absent
  else
    ffi* tokenb := alloc 224 in
    ffi* code := invoke C_GetTokenInfo [AU64 (Z.of_N slot); APtr (address tokenb)] in
    if ok code then
      ffi* bytes := read_buffer tokenb in
      ffi* maxSessions := getBigUint64 tokenb 104 in
      fret {| si_id := Number slot; si_tokenLabel := trimmedText (take 32 bytes); si_tokenPresent := true;
              si_maxSessions := if (maxSessions =? UNAVAILABLE_INFORMATION)%N then no_limit
                                else NFin (QArith_base.inject_Z (Number maxSessions)) |}
    else fret {| si_id := Number slot; si_tokenLabel := []; si_tokenPresent := true; si_maxSessions := no_limit |}.

(** A number of loop turns given as a double, cut at a bound. *)
Definition turns (n : Z) (bound : nat) : nat := Z.to_nat (Z.min n (Z.of_nat bound)).

Definition slots (tokenPresent : bool) : ffi (list SlotInfo) :=
  let flag := AU8 (if tokenPresent then 1 else 0) in
  ffi* count := alloc (N.of_nat ULONG_SIZE) in
  ffi* _ := checked_call C_GetSlotList [flag; APtr 0; APtr (address count)] in
  ffi* total := readUlong count 0 in
  if (total =? 0)%Z then fret []
  else
    ffi* ids := alloc (Z.to_N total * N.of_nat ULONG_SIZE) in
    ffi* _ := checked_call C_GetSlotList [flag; APtr (address ids); APtr (address count)] in
    ffi* resolved := readUlong count 0 in
    fmap_list (λ index, ffi* slot := getBigUint64 ids (index * ULONG_SIZE) in slotInfo slot)
      (seq 0 (Z.to_nat (Z.min total resolved))).

(** The loop of [mechanisms] over the whole words of a block. *)
Fixpoint words (n : nat) (bytes : list N) : list N :=
  match n with
  | O => []
  | S n => if length bytes <? ULONG_SIZE then [] else get64 0 bytes :: words n (drop ULONG_SIZE bytes)
  end.

Definition mechanisms (slot : Z) : ffi (list Z) :=
  ffi* raw := twoPhase C_GetMechanismList (λ out len, invoke C_GetMechanismList [AU64 slot; APtr out; APtr len]) ULONG_SIZE in
  fret (map Number (words (length raw) raw)).

(** The handle a call writes into a new buffer. *)
Definition with_handle (f : FunctionName) (args : list native_arg) : ffi Z :=
  ffi* handle := alloc (N.of_nat ULONG_SIZE) in
  ffi* _ := checked_call f (args ++ [APtr (address handle)]) in
  readUlong handle 0.

Definition openSession (slot : Z) : ffi Z := with_handle C_OpenSession [AU64 slot; AU64 SESSION_FLAGS; APtr 0; APtr 0].
Definition closeSession (session : Z) : ffi unit := checked_call C_CloseSession [AU64 session].
Definition logout (session : Z) : ffi unit := checked_call C_Logout [AU64 session].

Definition login (session : Z) (pin : jstr) : ffi unit :=
  ffi* pinb := own (utf8_encode pin) in
  ffinally
    (ffi* code := invoke C_Login [AU64 session; AU64 USER_TYPE_USER; APtr (address pinb); AU64 (Z.of_nat (length (utf8_encode pin)))] in
     if negb (ok code) && negb (Number code =? Z.of_N (ckr_UserAlreadyLoggedIn ReturnValue))%Z
     then check C_Login code else fret tt)
    (fill_zero pinb).

(** The loop of [findObjects], followed for [fuel] batches: [None] is a loop that goes on after
    these.  [found] may exceed the batch, and then a read is out of range. *)
Fixpoint find_loop (fuel : nat) (session : Z) (batch count : nat) (handles : list Z) : ffi (option (list Z)) :=
  match fuel with
  | O => fret None
  | S fuel =>
      ffi* _ := checked_call C_FindObjects [AU64 session; APtr (address batch); AU64 (Z.of_nat FIND_BATCH); APtr (address count)] in
      ffi* found := readUlong count 0 in
      ffi* more := fmap_list (λ index, readUlong batch (index * ULONG_SIZE)) (seq 0 (turns found (S FIND_BATCH))) in
      if (found <? Z.of_nat FIND_BATCH)%Z then fret (Some (handles ++ more)) else find_loop fuel session batch count (handles ++ more)
  end.

(** [try { loop } finally { cleanup }] around a loop that may still go on: then nothing follows. *)
Definition loop_finally {A} (m : ffi (option A)) (cleanup : ffi unit) : ffi (option A) :=
  λ w, match m w with (Ok None, w') => (Ok None, w') | (r, w') => let '(_, w'') := cleanup w' in (r, w'') end.

(** The first [fuel] batches of the call; [None] when it is still searching. *)
Definition findObjects (fuel : nat) (session : Z) (template : list Attribute) : ffi (option (list Z)) :=
  ffi* encoded := encodeTemplate template in
  ffi* _ := checked_call C_FindObjectsInit [AU64 session; APtr (address encoded); AU64 (Z.of_nat (length template))] in
  loop_finally
    (ffi* batch := alloc (N.of_nat (FIND_BATCH * ULONG_SIZE)) in
     ffi* count := alloc (N.of_nat ULONG_SIZE) in
     find_loop fuel session batch count [])
    (ffi* _ := invoke C_FindObjectsFinal [AU64 session] in fret tt).

(** What the first pass of [getAttributes] read for an attribute: its length unless unavailable,
    and the buffer made for its value. *)
Record sized := { sz_type : N; sz_length : option N; sz_buffer : nat }.

Definition size_attribute (sizes : nat) (it : nat * N) : ffi sized :=
  let '(index, type) := it in
  ffi* length := getBigUint64 sizes (index * ATTRIBUTE_SIZE + 16) in
  let unavailable := (length =? UNAVAILABLE_INFORMATION)%N in
  let size := if unavailable then 0%N else Z.to_N (Number length) in
  ffi* buffer := alloc (N.max size 1) in
  fret {| sz_type := type; sz_length := if unavailable then None else Some size; sz_buffer := buffer |}.

Definition sized_stores (index : nat) (s : sized) : list store :=
  let offset := index * ATTRIBUTE_SIZE in
  [S64 offset (sz_type s);
   S64 (offset + 8) (match sz_length s with Some _ => address (sz_buffer s) | None => 0%N end);
   S64 (offset + 16) (default UNAVAILABLE_INFORMATION (sz_length s))].

Definition read_sized (fillb : nat) (it : nat * sized) : ffi Attribute :=
  let '(index, s) := it in
  ffi* length := getBigUint64 fillb (index * ATTRIBUTE_SIZE + 16) in
  if (length =? UNAVAILABLE_INFORMATION)%N then fret {| at_type := sz_type s; at_value := []; at_present := false |}
  else ffi* bytes := read_buffer (sz_buffer s) in
       fret {| at_type := sz_type s; at_value := take (N.to_nat (N.min (Z.to_N (Number length)) (length64 bytes))) bytes; at_present := true |}.

Definition getAttributes (session object : Z) (types : list N) : ffi (list Attribute) :=
  let size := ATTRIBUTE_SIZE * Nat.max (length types) 1 in
  let call b := invoke C_GetAttributeValue [AU64 session; AU64 object; APtr (address b); AU64 (Z.of_nat (length types))] in
  ffi* sizes := new_buffer (fill_block size (concat (imap (λ i type, [S64 (i * ATTRIBUTE_SIZE) type]) types))) in
  ffi* _ := call sizes in
  ffi* sized := fmap_list (size_attribute sizes) (imap pair types) in
  ffi* fillb := new_buffer (fill_block size (concat (imap sized_stores sized))) in
  ffi* _ := (if existsb (λ s, match sz_length s with Some _ => true | None => false end) sized
             then ffi* _ := call fillb in fret tt else fret tt) in
  fmap_list (read_sized fillb) (imap pair sized).

Definition setAttributes (session object : Z) (template : list Attribute) : ffi unit :=
  ffi* encoded := encodeTemplate template in
  checked_call C_SetAttributeValue [AU64 session; AU64 object; APtr (address encoded); AU64 (Z.of_nat (length template))].

Definition destroyObject (session object : Z) : ffi unit := checked_call C_DestroyObject [AU64 session; AU64 object].

Definition generateKey (session : Z) (mechanism : N) (template : list Attribute) : ffi Z :=
  ffi* mech := encodeMechanism mechanism None in
  ffi* encoded := encodeTemplate template in
  with_handle C_GenerateKey [AU64 session; APtr (address mech); APtr (address encoded); AU64 (Z.of_nat (length template))].

Definition generateKeyPair (session : Z) (mechanism : N) (publicTemplate privateTemplate : list Attribute) : ffi (Z * Z) :=
  ffi* mech := encodeMechanism mechanism None in
  ffi* publicEncoded := encodeTemplate publicTemplate in
  ffi* privateEncoded := encodeTemplate privateTemplate in
  ffi* publicHandle := alloc (N.of_nat ULONG_SIZE) in
  ffi* privateHandle := alloc (N.of_nat ULONG_SIZE) in
  ffi* _ := checked_call C_GenerateKeyPair
      [AU64 session; APtr (address mech); APtr (address publicEncoded); AU64 (Z.of_nat (length publicTemplate));
       APtr (address privateEncoded); AU64 (Z.of_nat (length privateTemplate)); APtr (address publicHandle);
       APtr (address privateHandle)] in
  ffi* public := readUlong publicHandle 0 in
  ffi* private := readUlong privateHandle 0 in
  fret (public, private).

Definition deriveKey (session : Z) (mechanism : N) (params : option MechanismParams) (base : Z) (template : list Attribute) : ffi Z :=
  ffi* mech := encodeMechanism mechanism params in
  ffi* encoded := encodeTemplate template in
  with_handle C_DeriveKey [AU64 session; APtr (address mech); AU64 base; APtr (address encoded); AU64 (Z.of_nat (length template))].

(** The single-part operations: an initialisation with the mechanism and the key, then the data. *)
Definition crypt_init (f : FunctionName) (session : Z) (mechanism : N) (params : option MechanismParams) (key : Z) : ffi unit :=
  ffi* mech := encodeMechanism mechanism params in
  checked_call f [AU64 session; APtr (address mech); AU64 key].
Definition single_part (init f : FunctionName) (session : Z) (mechanism : N) (params : option MechanismParams) (key : Z)
    (data : list N) : ffi (list N) :=
  ffi* _ := crypt_init init session mechanism params key in
  ffi* input := own data in
  twoPhase f (λ out len, invoke f [AU64 session; APtr (address input); AU64 (Z.of_nat (length data)); APtr out; APtr len]) 1.

Definition encrypt := single_part C_EncryptInit C_Encrypt.
Definition decrypt := single_part C_DecryptInit C_Decrypt.
Definition sign := single_part C_SignInit C_Sign.

Definition verify (session : Z) (mechanism : N) (params : option MechanismParams) (key : Z) (message signature : list N) : ffi unit :=
  ffi* _ := crypt_init C_VerifyInit session mechanism params key in
  ffi* input := own message in
  ffi* tag := own signature in
  checked_call C_Verify [AU64 session; APtr (address input); AU64 (Z.of_nat (length message)); APtr (address tag);
                         AU64 (Z.of_nat (length signature))].
End ffi.

(** ** Loading the library *)

(** What the runtime answers: whether it is Windows, whether it has [dlopen], what [dlopen] throws,
    what [C_GetFunctionList] returns and writes, and the words at the list it gives. *)
Record loader := {
  ld_windows : bool;
  ld_has_dlopen : bool;
  ld_open : res jstr unit;
  ld_code : N;
  ld_list : N;
  ld_word : nat → N;
}.

(** The functions bound, and whether the library was opened and closed again. *)
Record binding := { bd_result : res pkcs11_error (list (FunctionName * N)); bd_opened : bool; bd_closed : bool }.

Definition unavailable (reason : jstr) : res pkcs11_error (list (FunctionName * N)) := Err (Pkcs11UnavailableError (Some reason)).

Fixpoint bind_functions (word : nat → N) (index : list (FunctionName * nat)) : res pkcs11_error (list (FunctionName * N)) :=
  match index with
  | [] => Ok []
  | (name, slot) :: index =>
      if (word slot =? 0)%N then unavailable (js "the module does not implement " ++ js (fn_name name))
      else let* rest := bind_functions word index in Ok ((name, word slot) :: rest)
  end.

Definition bindFunctionList (ld : loader) : binding :=
  let refused r := {| bd_result := r; bd_opened := false; bd_closed := false |} in
  if ld_windows ld
  then refused (unavailable (js "Cryptoki on Windows uses a 4-byte CK_ULONG and packed structs, which this binding " ++ js "does not encode"))
  else match ld_open ld with
  | Err message => refused (unavailable message)
  | Ok _ =>
      if negb (Number (ld_code ld) =? Z.of_N (ckr_Ok ReturnValue))%Z
      then let value := Z.to_N (Number (ld_code ld)) in
           {| bd_result := Err (Pkcs11TokenError (js "C_GetFunctionList") value (returnValueName value)); bd_opened := true; bd_closed := false |}
      else if (ld_list ld =? 0)%N
      then {| bd_result := unavailable (js "C_GetFunctionList returned a null function list"); bd_opened := true; bd_closed := true |}
      else let r := bind_functions (ld_word ld) FUNCTION_INDEX in
           {| bd_result := r; bd_opened := true; bd_closed := negb (is_ok r) |}
  end.

Definition loadModule (ld : loader) : binding :=
  if negb (ld_has_dlopen ld)
  then {| bd_result := unavailable (js "Deno.dlopen is not implemented by this runtime"); bd_opened := false; bd_closed := false |}
  else bindFunctionList ld.

(** ** The layout of C structures on LP64 *)

Inductive ctype := CBool | CULong | CPtr.
Definition c_size (t : ctype) : nat := match t with CBool => 1 | _ => 8 end.
Definition align_up (n a : nat) : nat := (n + a - 1) / a * a.

(** The offsets of the members: each at the next multiple of its size. *)
Fixpoint c_offsets (at_ : nat) (members : list ctype) : list nat :=
  match members with
  | [] => []
  | t :: members => align_up at_ (c_size t) :: c_offsets (align_up at_ (c_size t) + c_size t) members
  end.
Definition c_sizeof (members : list ctype) : nat :=
  align_up (foldl (λ at_ t, align_up at_ (c_size t) + c_size t) 0 members) 8.

Definition c_member (bytes : list N) (t : ctype) (off : nat) : N :=
  match t with CBool => default 0%N (bytes !! off) | _ => get64 off bytes end.

(** The members a library compiled for this structure finds in a block. *)
Definition c_struct (members : list ctype) (bytes : list N) : option (list N) :=
  if length bytes =? c_sizeof members then Some (zip_with (c_member bytes) members (c_offsets 0 members)) else None.

(** The structures of the standard. *)
Definition CK_MECHANISM : list ctype := [CULong; CPtr; CULong].
Definition CK_ATTRIBUTE : list ctype := [CULong; CPtr; CULong].
Definition CK_GCM_PARAMS : list ctype := [CPtr; CULong; CULong; CPtr; CULong; CULong].
Definition CK_RSA_PKCS_OAEP_PARAMS : list ctype := [CULong; CULong; CULong; CPtr; CULong].
Definition CK_RSA_PKCS_PSS_PARAMS : list ctype := [CULong; CULong; CULong].
Definition CK_ECDH1_DERIVE_PARAMS : list ctype := [CULong; CULong; CPtr; CULong; CPtr].
Definition CK_HKDF_PARAMS : list ctype := [CBool; CBool; CULong; CULong; CPtr; CULong; CULong; CPtr; CULong].
Definition CK_EDDSA_PARAMS : list ctype := [CBool; CULong; CPtr].

(** The functions of [CK_FUNCTION_LIST] in the order of the standard, after its version. *)
Definition CK_FUNCTION_LIST : list string :=
  ["C_Initialize"; "C_Finalize"; "C_GetInfo"; "C_GetFunctionList"; "C_GetSlotList"; "C_GetSlotInfo"; "C_GetTokenInfo";
   "C_GetMechanismList"; "C_GetMechanismInfo"; "C_InitToken"; "C_InitPIN"; "C_SetPIN"; "C_OpenSession"; "C_CloseSession";
   "C_CloseAllSessions"; "C_GetSessionInfo"; "C_GetOperationState"; "C_SetOperationState"; "C_Login"; "C_Logout";
   "C_CreateObject"; "C_CopyObject"; "C_DestroyObject"; "C_GetObjectSize"; "C_GetAttributeValue"; "C_SetAttributeValue";
   "C_FindObjectsInit"; "C_FindObjects"; "C_FindObjectsFinal"; "C_EncryptInit"; "C_Encrypt"; "C_EncryptUpdate";
   "C_EncryptFinal"; "C_DecryptInit"; "C_Decrypt"; "C_DecryptUpdate"; "C_DecryptFinal"; "C_DigestInit"; "C_Digest";
   "C_DigestUpdate"; "C_DigestKey"; "C_DigestFinal"; "C_SignInit"; "C_Sign"; "C_SignUpdate"; "C_SignFinal";
   "C_SignRecoverInit"; "C_SignRecover"; "C_VerifyInit"; "C_Verify"; "C_VerifyUpdate"; "C_VerifyFinal";
   "C_VerifyRecoverInit"; "C_VerifyRecover"; "C_DigestEncryptUpdate"; "C_DecryptDigestUpdate"; "C_SignEncryptUpdate";
   "C_DecryptVerifyUpdate"; "C_GenerateKey"; "C_GenerateKeyPair"; "C_WrapKey"; "C_UnwrapKey"; "C_DeriveKey"].

(** *** Stores and reads *)

Lemma put_length off new bytes : off + length new ≤ length bytes → length (put_at off new bytes) = length bytes.
Proof. intros H. unfold put_at. rewrite !length_app, length_take, length_drop. lia. Qed.

Lemma le64_length v : length (le64 v) = 8.
Proof. apply le_encode_length. Qed.

Lemma le64_decode v : (v < 2 ^ 64)%N → le_decode (le64 v) = v.
Proof.
  intros H. apply N2Z.inj. unfold le64. rewrite le_decode_encode. rewrite Z.mod_small; [done|].
  change (256 ^ Z.of_nat 8)%Z with (2 ^ 64)%Z. lia.
Qed.

Lemma slice_put_eq off new bytes : off + length new ≤ length bytes → take (length new) (drop off (put_at off new bytes)) = new.
Proof.
  intros H. unfold put_at. rewrite drop_app_length' by (rewrite length_take; lia). by rewrite take_app_length.
Qed.

Lemma slice_put_before off n off' new bytes : off + n ≤ off' → off' + length new ≤ length bytes →
  take n (drop off (put_at off' new bytes)) = take n (drop off bytes).
Proof.
  intros H H'. unfold put_at. rewrite drop_app_le by (rewrite length_take; lia).
  rewrite take_app_le by (rewrite length_drop, length_take; lia).
  rewrite <- (take_drop off' bytes) at 2. rewrite (drop_app_le (take off' bytes)) by (rewrite length_take; lia).
  by rewrite take_app_le by (rewrite length_drop, length_take; lia).
Qed.

Definition store_off (s : store) : nat := match s with S64 off _ | S8 off _ => off end.
Definition store_len (s : store) : nat := match s with S64 _ _ => 8 | S8 _ _ => 1 end.

(** Stores one after the other, within a size. *)
Fixpoint in_sequence (from : nat) (stores : list store) (size : nat) : Prop :=
  match stores with
  | [] => from ≤ size
  | s :: stores => from ≤ store_off s ∧ in_sequence (store_off s + store_len s) stores size
  end.

Lemma in_sequence_from from stores size : in_sequence from stores size → from ≤ size.
Proof. revert from; induction stores as [|s stores IH]; intros from; simpl; [done|]. intros [H1 H2%IH]. lia. Qed.

Lemma store_bytes_length bytes s : store_off s + store_len s ≤ length bytes → length (store_bytes bytes s) = length bytes.
Proof. destruct s; simpl; intros H; apply put_length; rewrite ?le64_length; simpl; lia. Qed.

Lemma fold_length stores : ∀ from bytes, in_sequence from stores (length bytes) → length (foldl store_bytes bytes stores) = length bytes.
Proof.
  induction stores as [|s stores IH]; intros from bytes; simpl; [done|]. intros [H1 H2].
  pose proof (in_sequence_from _ _ _ H2). pose proof (store_bytes_length bytes s) as Hl.
  rewrite (IH (store_off s + store_len s)); rewrite ?Hl by lia; done.
Qed.

Lemma slice_fold stores : ∀ from bytes off n, in_sequence from stores (length bytes) → off + n ≤ from →
  take n (drop off (foldl store_bytes bytes stores)) = take n (drop off bytes).
Proof.
  induction stores as [|s stores IH]; intros from bytes off n; simpl; [done|]. intros [H1 H2] Hn.
  pose proof (in_sequence_from _ _ _ H2). pose proof (store_bytes_length bytes s) as Hl.
  rewrite (IH (store_off s + store_len s)) by (rewrite ?Hl by lia; done || lia).
  destruct s; simpl in *; apply slice_put_before; rewrite ?le64_length; simpl; lia.
Qed.

(** Every store of a sequence is found where it was put_at. *)
Lemma fold_reads stores : ∀ from bytes s, in_sequence from stores (length bytes) → s ∈ stores →
  take (store_len s) (drop (store_off s) (foldl store_bytes bytes stores)) = match s with S64 _ v => le64 v | S8 _ v => [v] end.
Proof.
  induction stores as [|t stores IH]; intros from bytes s; simpl; [by intros _ ?%not_elem_of_nil|]. intros [H1 H2] Hs.
  pose proof (in_sequence_from _ _ _ H2). pose proof (store_bytes_length bytes t) as Hl.
  apply elem_of_cons in Hs as [->|Hs].
  - rewrite (slice_fold stores (store_off t + store_len t)) by (rewrite ?Hl by lia; done || lia).
    destruct t as [off v|off v]; cbn [store_bytes store_len store_off] in *.
    + rewrite <- (le64_length v). apply slice_put_eq. rewrite le64_length. lia.
    + apply (slice_put_eq off [v]). simpl. lia.
  - apply (IH (store_off t + store_len t)); rewrite ?Hl by lia; done.
Qed.

Lemma fill_length size stores : in_sequence 0 stores size → length (fill_block size stores) = size.
Proof. intros H. unfold fill_block. rewrite (fold_length _ 0); rewrite repeat_length; done. Qed.

Lemma fill_get64 size stores off v : in_sequence 0 stores size → S64 off v ∈ stores → (v < 2 ^ 64)%N → get64 off (fill_block size stores) = v.
Proof.
  intros Hs Hin Hv. unfold get64, fill_block.
  pose proof (fold_reads stores 0 (repeat 0%N size) (S64 off v)) as E. rewrite repeat_length in E.
  cbn [store_len store_off] in E. rewrite E by done. by apply le64_decode.
Qed.

Lemma fill_get8 size stores off v : in_sequence 0 stores size → S8 off v ∈ stores → fill_block size stores !! off = Some v.
Proof.
  intros Hs Hin. pose proof (fold_reads stores 0 (repeat 0%N size) (S8 off v)) as E. rewrite repeat_length in E.
  specialize (E Hs Hin). cbn [store_len store_off] in E. fold (fill_block size stores) in E.
  rewrite <- (Nat.add_0_r off), <- lookup_drop. destruct (drop off (fill_block size stores)); simpl in *; congruence.
Qed.

(** *** What the library reads *)

(** What the engine guarantees of the addresses of buffers. *)
Record native_laws (NT : Native) : Prop := {
  address_range : ∀ b, b < capacity → (0 < address b < 2 ^ 64)%N;
  address_inj : ∀ b b', b < capacity → b' < capacity → address b = address b' → b = b';
}.

Section layout.
Context `{NT : Native} (HN : native_laws NT).

(** The bytes an address leads to. *)
Definition points (mem : memory) (p : N) (bytes : list N) : Prop :=
  ∃ b rest, p = address b ∧ mem !! b = Some (bytes ++ rest).

(** The buffer a library finds at an address. *)
Definition deref (mem : memory) (p : N) : option (list N) :=
  find_first (λ b, (address b =? p)%N) (seq 0 (length mem)) ≫= λ b, mem !! b.

Lemma points_deref mem p bytes : length mem ≤ capacity → points mem p bytes → p ≠ 0%N ∧ ∃ rest, deref mem p = Some (bytes ++ rest).
Proof.
  intros Hc (b & rest & -> & Hb). pose proof (lookup_lt_Some _ _ _ Hb) as Hlt.
  split; [pose proof (address_range _ HN b ltac:(lia)); lia|]. exists rest. unfold deref.
  assert (E : find_first (λ b', (address b' =? address b)%N) (seq 0 (length mem)) = Some b); [|by rewrite E].
  destruct (find_first _ _) as [b'|] eqn:E.
  - destruct (drop_first_split _ _ _ E) as (l1 & l2 & El & _ & Ha). apply N.eqb_eq in Ha. f_equal.
    assert (b' ∈ seq 0 (length mem)) as Hb' by (rewrite El; apply elem_of_app; right; by left).
    apply elem_of_seq in Hb'. apply (address_inj _ HN); lia || done.
  - exfalso. assert (Hin : b ∈ seq 0 (length mem)) by (apply elem_of_seq; lia).
    revert E Hin. generalize (seq 0 (length mem)). intros l. induction l as [|x l IH]; [by intros _ ?%not_elem_of_nil|].
    cbn [find_first]. destruct (address x =? address b)%N eqn:Ex; [done|]. intros E [->|Hin]%elem_of_cons; [by rewrite N.eqb_refl in Ex|by apply IH].
Qed.

Definition fits (v : N) : Prop := (v < 2 ^ 64)%N.

(** A block of parameters as the structure of its mechanism, with what its pointers lead to. *)
Definition c_params (mem : memory) (params : MechanismParams) (bytes : list N) : Prop :=
  match params with
  | GcmParams iv aad tagBits => ∃ pIv pAAD,
      c_struct CK_GCM_PARAMS bytes = Some [pIv; length64 iv; (length64 iv * 8)%N; pAAD; length64 aad; tagBits] ∧
      points mem pIv iv ∧ points mem pAAD aad
  | OaepParams hashAlg mgf source => c_struct CK_RSA_PKCS_OAEP_PARAMS bytes = Some [hashAlg; mgf; source; 0; 0]%N
  | PssParams hashAlg mgf saltLen => c_struct CK_RSA_PKCS_PSS_PARAMS bytes = Some [hashAlg; mgf; saltLen]
  | Ecdh1Params kdf sharedData publicData => ∃ pShared pPublic,
      c_struct CK_ECDH1_DERIVE_PARAMS bytes = Some [kdf; length64 sharedData; pShared; length64 publicData; pPublic] ∧
      (sharedData = [] → pShared = 0%N) ∧ (sharedData ≠ [] → points mem pShared sharedData) ∧ points mem pPublic publicData
  | HkdfParams extract expand prf saltType info => ∃ pInfo,
      c_struct CK_HKDF_PARAMS bytes = Some [bit extract; bit expand; prf; saltType; 0%N; 0%N; 0%N; pInfo; length64 info] ∧
      points mem pInfo info
  | EddsaParams phFlag => c_struct CK_EDDSA_PARAMS bytes = Some [bit phFlag; 0; 0]%N
  end.

(** Numbers that fit a [CK_ULONG]. *)
Definition params_fit (params : MechanismParams) : Prop :=
  match params with
  | GcmParams iv aad tagBits => fits (length64 iv * 8) ∧ fits (length64 aad) ∧ fits tagBits
  | OaepParams hashAlg mgf source => fits hashAlg ∧ fits mgf ∧ fits source
  | PssParams hashAlg mgf saltLen => fits hashAlg ∧ fits mgf ∧ fits saltLen
  | Ecdh1Params kdf sharedData publicData => fits kdf ∧ fits (length64 sharedData) ∧ fits (length64 publicData)
  | HkdfParams _ _ prf saltType info => fits prf ∧ fits saltType ∧ fits (length64 info)
  | EddsaParams _ => True
  end.

(** Only new buffers differ between two memories, and nothing was called. *)
Definition extends (w w' : world) (new : memory) : Prop :=
  w_mem w' = w_mem w ++ new ∧ w_lib w' = w_lib w ∧ w_calls w' = w_calls w.

Lemma extends_trans w w1 w2 n1 n2 : extends w w1 n1 → extends w1 w2 n2 → extends w w2 (n1 ++ n2).
Proof. intros (H1 & H2 & H3) (K1 & K2 & K3). split_and!; [by rewrite K1, H1, app_assoc|congruence|congruence]. Qed.

Lemma points_mono mem new p bytes : points mem p bytes → points (mem ++ new) p bytes.
Proof. intros (b & rest & -> & H). exists b, rest. split; [done|]. by apply lookup_app_l_Some. Qed.

Lemma fbind_Ok {A B} (m : ffi A) (k : A → ffi B) w b w' :
  fbind m k w = (Ok b, w') ↔ ∃ a w1, m w = (Ok a, w1) ∧ k a w1 = (Ok b, w').
Proof.
  unfold fbind. destruct (m w) as [[a|e] w1]; split; try done; [by eauto|by intros (? & ? & [= <- <-] & ?)|by intros (? & ? & ? & ?)].
Qed.

Lemma new_buffer_Ok bytes w b w' : new_buffer bytes w = (Ok b, w') → extends w w' [bytes] ∧ w_mem w' !! b = Some bytes.
Proof.
  intros [= <- <-]. split; [done|]. cbn [w_mem]. by rewrite lookup_app_r, Nat.sub_diag.
Qed.

Lemma own_Ok value w b w' : own value w = (Ok b, w') →
  (∃ new, extends w w' new) ∧ points (w_mem w') (address b) value ∧ b < length (w_mem w').
Proof.
  intros [He Hb]%new_buffer_Ok. split; [by eexists|]. split; [|by eapply lookup_lt_Some]. exists b.
  destruct value as [|c v]; [exists [0%N]|exists []]; rewrite ?app_nil_r; by split.
Qed.

Lemma extends_le w w' new : extends w w' new → length (w_mem w) ≤ length (w_mem w').
Proof. intros [-> _]. rewrite length_app. lia. Qed.

Lemma address_fits b : b < capacity → fits (address b).
Proof. intros H. by apply (address_range _ HN). Qed.

(** Reading a structure out of a filled block. *)
Lemma c_struct_fill members size stores : size = c_sizeof members → in_sequence 0 stores size →
  c_struct members (fill_block size stores) = Some (zip_with (c_member (fill_block size stores)) members (c_offsets 0 members)).
Proof. intros -> Hs. unfold c_struct. by rewrite fill_length, Nat.eqb_refl by done. Qed.

Lemma cons_congr {A} (x y : A) l k : x = y → l = k → x :: l = y :: k.
Proof. by intros -> ->. Qed.

Ltac in_list := first [simple apply list_elem_of_here | simple apply list_elem_of_further; in_list].
Ltac read_member :=
  cbn [c_member];
  lazymatch goal with
  | |- default _ _ = _ => erewrite fill_get8; [reflexivity|simpl; lia|in_list]
  | |- get64 _ _ = _ => simple apply fill_get64; [simpl; lia|in_list|first [done|apply address_fits; lia|unfold fits in *; lia]]
  end.
Ltac read_struct :=
  rewrite c_struct_fill by (first [reflexivity|simpl; lia]);
  match goal with |- context [c_offsets 0 ?m] => let v := eval vm_compute in (c_offsets 0 m) in change (c_offsets 0 m) with v end;
  unfold CK_MECHANISM, CK_GCM_PARAMS, CK_RSA_PKCS_OAEP_PARAMS, CK_RSA_PKCS_PSS_PARAMS, CK_ECDH1_DERIVE_PARAMS, CK_HKDF_PARAMS, CK_EDDSA_PARAMS;
  cbn [zip_with]; apply (f_equal Some); repeat (simple apply cons_congr; [read_member|]); reflexivity.

Lemma encodeParams_layout params w b w' : params_fit params → encodeParams params w = (Ok b, w') → length (w_mem w') ≤ capacity →
  (∃ new, extends w w' new) ∧ ∃ bytes, w_mem w' !! b = Some bytes ∧ c_params (w_mem w') params bytes ∧ fits (length64 bytes).
Proof.
  intros Hf Henc Hcap. revert Henc. assert (H0 : fits 0) by (unfold fits; lia).
  assert (Hb : ∀ x, fits (bit x)) by (intros []; unfold fits; simpl; lia).
  assert (Hl : ∀ size stores, size ≤ 64 → in_sequence 0 stores size → fits (length64 (fill_block size stores)))
    by (intros size stores Hs Hq; unfold fits, length64; rewrite fill_length by done; lia).
  destruct params as [iv aad tagBits|hashAlg mgf source|hashAlg mgf saltLen|kdf sharedData publicData|extract expand prf saltType info|phFlag];
    cbn [encodeParams params_fit] in *.
  - intros (ivb & w1 & ([n1 E1] & Piv & Liv)%own_Ok & (aadb & w2 & ([n2 E2] & Paad & Laad)%own_Ok & [He Hn]%new_buffer_Ok)%fbind_Ok)%fbind_Ok.
    pose proof (extends_le _ _ _ E2). pose proof (extends_le _ _ _ He).
    split; [eexists; eapply extends_trans, extends_trans; eauto|]. eexists. split; [exact Hn|].
    rewrite (proj1 He). split; [|apply Hl; simpl; lia]. exists (address ivb), (address aadb).
    split_and!; [|apply points_mono; rewrite (proj1 E2); by apply points_mono|by apply points_mono].
    unfold fits in *. read_struct.
  - intros [He Hn]%new_buffer_Ok. split; [by eexists|]. eexists. split; [exact Hn|]. split; [|apply Hl; simpl; lia].
    unfold c_params. destruct Hf as (? & ? & ?). read_struct.
  - intros [He Hn]%new_buffer_Ok. split; [by eexists|]. eexists. split; [exact Hn|]. split; [|apply Hl; simpl; lia].
    unfold c_params. destruct Hf as (? & ? & ?). read_struct.
  - intros (sb & w1 & ([n1 E1] & Ps & Ls)%own_Ok & (pb & w2 & ([n2 E2] & Pp & Lp)%own_Ok & [He Hn]%new_buffer_Ok)%fbind_Ok)%fbind_Ok.
    pose proof (extends_le _ _ _ E2). pose proof (extends_le _ _ _ He).
    split; [eexists; eapply extends_trans, extends_trans; eauto|]. eexists. split; [exact Hn|].
    rewrite (proj1 He). split; [|apply Hl; simpl; lia]. destruct Hf as (? & ? & ?).
    exists (if 0 <? length sharedData then address sb else 0%N), (address pb).
    split_and!; [|by intros ->| |by apply points_mono].
    + assert (fits (if 0 <? length sharedData then address sb else 0%N)) by (case_match; [apply address_fits; lia|done]). read_struct.
    + intros Hne. destruct sharedData as [|c sd]; [done|]. apply points_mono. rewrite (proj1 E2). by apply points_mono.
  - intros (ib & w1 & ([n1 E1] & Pi & Li)%own_Ok & [He Hn]%new_buffer_Ok)%fbind_Ok. pose proof (extends_le _ _ _ He).
    split; [eexists; eapply extends_trans; eauto|]. eexists. split; [exact Hn|].
    rewrite (proj1 He). split; [|apply Hl; simpl; lia]. destruct Hf as (? & ? & ?).
    exists (address ib). split; [|by apply points_mono]. read_struct.
  - intros [He Hn]%new_buffer_Ok. split; [by eexists|]. eexists. split; [exact Hn|]. split; [|apply Hl; simpl; lia].
    unfold c_params. read_struct.
Qed.

Lemma c_params_mono mem new params bytes : c_params mem params bytes → c_params (mem ++ new) params bytes.
Proof. destruct params; simpl; naive_solver eauto using points_mono. Qed.

(** C20. A mechanism reaches the library intact: at the address of the block [encodeMechanism] makes, a
    library compiled for LP64 reads a [CK_MECHANISM] with the mechanism, and through its pointer
    the parameter structure of the standard, of the size it states, with the values, lengths and
    bytes that were given; no buffer that existed before changes, and nothing is called. *)
Theorem mechanism_layout mechanism params w b w' : fits mechanism → (∀ p, params = Some p → params_fit p) →
  encodeMechanism mechanism params w = (Ok b, w') → length (w_mem w') ≤ capacity →
  (∃ new, extends w w' new) ∧
  ∃ bytes pParameter ulParameterLen, w_mem w' !! b = Some bytes ∧
    c_struct CK_MECHANISM bytes = Some [mechanism; pParameter; ulParameterLen] ∧
    match params with
    | None => pParameter = 0%N ∧ ulParameterLen = 0%N
    | Some p => ∃ pb block, pParameter = address pb ∧ w_mem w' !! pb = Some block ∧
                            ulParameterLen = length64 block ∧ c_params (w_mem w') p block
    end.
Proof.
  intros Hm Hp Henc Hcap. revert Henc. assert (H0 : fits 0) by (unfold fits; lia). destruct params as [p|]; cbn [encodeMechanism].
  - intros (pb & w1 & H1 & (block & w2 & [= <- <-] & [He Hn]%new_buffer_Ok)%fbind_Ok)%fbind_Ok.
    pose proof (extends_le _ _ _ He) as Hle.
    apply encodeParams_layout in H1 as ([n1 E1] & block' & Hpb & Hc & Hf); [|by apply Hp|lia].
    pose proof (lookup_lt_Some _ _ _ Hpb).
    assert (Hbuf : buffer pb w1 = block') by (unfold buffer; by rewrite Hpb). rewrite Hbuf in He, Hn.
    split; [eexists; eapply extends_trans; eauto|]. eexists _, (address pb), (length64 block'). split_and!; [exact Hn|..].
    + unfold MECHANISM_SIZE. read_struct.
    + exists pb, block'. rewrite (proj1 He). split_and!; [done|by apply lookup_app_l_Some|done|by apply c_params_mono].
  - intros [He Hn]%new_buffer_Ok. split; [by eexists|]. eexists _, 0%N, 0%N. split_and!; [exact Hn| |done..].
    unfold MECHANISM_SIZE. read_struct.
Qed.

Lemma values_Ok template : ∀ w values w', fmap_list (λ a, own (at_value a)) template w = (Ok values, w') →
  (∃ new, extends w w' new) ∧ Forall2 (λ a v, points (w_mem w') (address v) (at_value a) ∧ v < length (w_mem w')) template values.
Proof.
  induction template as [|a template IH]; intros w values w'; cbn [fmap_list].
  - intros [= <- <-]. split; [exists []|constructor]. split_and!; by rewrite ?app_nil_r.
  - intros (v & w1 & ([n1 E1] & Pv & Lv)%own_Ok & (vs & w2 & ([n2 E2] & HF)%IH & [= <- <-])%fbind_Ok)%fbind_Ok.
    split; [eexists; by eapply extends_trans|]. constructor; [|done]. split; [rewrite (proj1 E2); by apply points_mono|].
    pose proof (extends_le _ _ _ E2). lia.
Qed.

Lemma attributes_in_sequence l : ∀ i size, ATTRIBUTE_SIZE * (i + length l) ≤ size →
  in_sequence (ATTRIBUTE_SIZE * i) (concat (imap (λ j p, attribute_stores (i + j) p.1 p.2) l)) size.
Proof.
  induction l as [|p l IH]; intros i size Hs; cbn [imap concat].
  - simpl in *. rewrite Nat.add_0_r in Hs. exact Hs.
  - unfold attribute_stores at 1. cbn [app in_sequence store_off store_len]. rewrite Nat.add_0_r.
    unfold ATTRIBUTE_SIZE in *. cbn [length] in Hs. split_and!; try lia.
    specialize (IH (S i) size ltac:(lia)).
    rewrite (imap_ext _ (λ j p0, attribute_stores (S i + j) p0.1 p0.2)) by (intros j p0 _; cbn [compose]; f_equal; lia).
    replace (i * 24 + 16 + 8) with (24 * S i) by lia. exact IH.
Qed.

(** An attribute template reaches the library intact: at index [i] it reads a [CK_ATTRIBUTE] whose
    members are the type, an address that leads to the bytes of the value, and their number. *)
Theorem template_layout template w b w' : Forall (λ a, fits (at_type a) ∧ fits (length64 (at_value a))) template →
  encodeTemplate template w = (Ok b, w') → length (w_mem w') ≤ capacity →
  (∃ new, extends w w' new) ∧
  ∃ bytes, w_mem w' !! b = Some bytes ∧ length bytes = c_sizeof CK_ATTRIBUTE * Nat.max (length template) 1 ∧
    ∀ i a, template !! i = Some a → ∃ pValue,
      c_struct CK_ATTRIBUTE (take (c_sizeof CK_ATTRIBUTE) (drop (c_sizeof CK_ATTRIBUTE * i) bytes))
        = Some [at_type a; pValue; length64 (at_value a)] ∧ points (w_mem w') pValue (at_value a).
Proof.
  intros Hf Henc Hcap. apply fbind_Ok in Henc as (values & w1 & [[n1 E1] HF]%values_Ok & [He Hn]%new_buffer_Ok).
  pose proof (extends_le _ _ _ He).
  split; [eexists; eapply extends_trans; eauto|]. eexists. split; [exact Hn|].
  change (c_sizeof CK_ATTRIBUTE) with ATTRIBUTE_SIZE.
  set (size := ATTRIBUTE_SIZE * Nat.max (length template) 1). set (stores := concat _).
  pose proof (Forall2_length _ _ _ HF) as Hlen.
  assert (Hseq : in_sequence 0 stores size).
  { apply (attributes_in_sequence (zip template values) 0). rewrite length_zip_with_l by lia. unfold size. lia. }
  split; [by apply fill_length|]. intros i a Hi. destruct (Forall2_lookup_l _ _ _ _ _ HF Hi) as (v & Hv & Pv & Lv).
  exists (address v). split; [|rewrite (proj1 He); by apply points_mono].
  rewrite Forall_lookup in Hf. destruct (Hf i a Hi) as [Ht Hl].
  assert (Hin : ∀ s, s ∈ attribute_stores i a v → s ∈ stores).
  { intros s Hs. apply list_elem_of_In, in_concat. exists (attribute_stores i a v). split; [|by apply list_elem_of_In].
    apply list_elem_of_In, elem_of_lookup_imap. exists i, (a, v). split; [done|]. by rewrite lookup_zip_with, Hi, Hv. }
  assert (Hi' : i < length template) by by eapply lookup_lt_Some.
  assert (Hsub : ∀ off, off + 8 ≤ 24 → get64 off (take 24 (drop (24 * i) (fill_block size stores))) = get64 (i * 24 + off) (fill_block size stores)).
  { intros off Ho. unfold get64. rewrite skipn_firstn_comm, drop_drop, take_take. f_equal. f_equal; [lia|]. f_equal; lia. }
  unfold c_struct. rewrite length_take, length_drop, fill_length by done.
  replace (_ `min` _ =? _) with true by (symmetry; apply Nat.eqb_eq; unfold size, ATTRIBUTE_SIZE; change (c_sizeof CK_ATTRIBUTE) with 24; lia).
  change (c_offsets 0 CK_ATTRIBUTE) with [0; 8; 16]. unfold CK_ATTRIBUTE, ATTRIBUTE_SIZE in *. cbn [zip_with c_member].
  rewrite !Hsub by lia. rewrite (fill_get64 _ _ _ (at_type a)), (fill_get64 _ _ _ (address v)), (fill_get64 _ _ _ (length64 (at_value a)));
    first [done|apply address_fits; lia|apply Hin; unfold attribute_stores, ATTRIBUTE_SIZE; rewrite ?Nat.add_0_r; in_list].
Qed.
End layout.

(** The index of every function is its place in the list of the standard. *)
Lemma function_index_standard : Forall (λ p, CK_FUNCTION_LIST !! (p.2 - 1) = Some (fn_name p.1) ∧ 1 ≤ p.2) FUNCTION_INDEX.
Proof. repeat constructor. Qed.

(** ** Calls *)

Section calls.
Context `{NT : Native}.

Definition sig_ok (c : FunctionName * list native_arg) : Prop := map arg_type c.2 = SIGNATURES c.1.

(** A computation whose calls, appended to the log, all have a property. *)
Definition adds (P : FunctionName * list native_arg → Prop) {A} (m : ffi A) : Prop :=
  ∀ w, ∃ new, w_calls (m w).2 = w_calls w ++ new ∧ Forall P new.

Section adds.
Context (P : FunctionName * list native_arg → Prop).

Lemma adds_none {A} (m : ffi A) : (∀ w, w_calls (m w).2 = w_calls w) → adds P m.
Proof. intros H w. exists []. by rewrite H, app_nil_r. Qed.
Lemma adds_ret {A} (a : A) : adds P (fret a).
Proof. by apply adds_none. Qed.
Lemma adds_throw {A} e : adds P (fthrow (A := A) e).
Proof. by apply adds_none. Qed.
Lemma adds_bind {A B} (m : ffi A) (k : A → ffi B) : adds P m → (∀ a, adds P (k a)) → adds P (fbind m k).
Proof.
  intros Hm Hk w. unfold fbind. specialize (Hm w) as (n1 & E1 & F1). destruct (m w) as [[a|e] w']; cbn [snd] in *; [|eauto].
  destruct (Hk a w') as (n2 & E2 & F2). exists (n1 ++ n2). split; [by rewrite E2, E1, app_assoc|by apply Forall_app].
Qed.
Lemma adds_finally {A} (m : ffi A) c : adds P m → adds P c → adds P (ffinally m c).
Proof.
  intros Hm Hc w. unfold ffinally. specialize (Hm w) as (n1 & E1 & F1). destruct (m w) as [r w']. cbn [snd] in *.
  specialize (Hc w') as (n2 & E2 & F2). destruct (c w') as [r' w'']. cbn [snd] in *.
  exists (n1 ++ n2). split; [by rewrite E2, E1, app_assoc|by apply Forall_app].
Qed.
Lemma adds_loop {A} (m : ffi (option A)) c : adds P m → adds P c → adds P (loop_finally m c).
Proof.
  intros Hm Hc w. unfold loop_finally. specialize (Hm w) as (n1 & E1 & F1). destruct (m w) as [r w']. cbn [snd] in *.
  specialize (Hc w') as (n2 & E2 & F2). destruct (c w') as [r' w'']. cbn [snd] in *.
  destruct r as [[a|]|e]; cbn [snd]; [|by exists n1|]; exists (n1 ++ n2); (split; [by rewrite E2, E1, app_assoc|by apply Forall_app]).
Qed.
Lemma adds_list {A B} (f : A → ffi B) l : (∀ a, adds P (f a)) → adds P (fmap_list f l).
Proof.
  intros Hf. induction l as [|a l IH]; cbn [fmap_list]; [apply adds_ret|].
  apply adds_bind; [done|]. intros b. apply adds_bind; [done|]. intros bs. apply adds_ret.
Qed.
Lemma adds_new bytes : adds P (new_buffer bytes).
Proof. by apply adds_none. Qed.
Lemma adds_read b : adds P (read_buffer b).
Proof. by apply adds_none. Qed.
Lemma adds_zero b : adds P (fill_zero b).
Proof. by apply adds_none. Qed.
Lemma adds_invoke f args : P (f, args) → adds P (invoke f args).
Proof.
  intros Hs w. unfold invoke. destruct (cryptoki _ _ _ _) as [[code mem] lib]. cbn [snd w_calls]. exists [(f, args)].
  split; [done|by constructor].
Qed.
End adds.

Ltac adds_step :=
  match goal with
  | |- adds _ (fbind _ _) => simple apply adds_bind; [|intros ?]
  | |- adds _ (ffinally _ _) => simple apply adds_finally
  | |- adds _ (loop_finally _ _) => simple apply adds_loop
  | |- adds _ (fret _) => simple apply adds_ret
  | |- adds _ (fthrow _) => simple apply adds_throw
  | |- adds _ (fmap_list _ _) => simple apply adds_list; intros ?
  | |- adds _ (new_buffer _) => simple apply adds_new
  | |- adds _ (read_buffer _) => simple apply adds_read
  | |- adds _ (fill_zero _) => simple apply adds_zero
  | |- adds _ (invoke _ _) => simple apply adds_invoke; exact eq_refl
  | |- adds _ (if ?b then _ else _) => destruct b
  | |- adds _ (match ?b with _ => _ end) => destruct b
  | |- adds _ (alloc _) => unfold alloc
  | |- adds _ (own _) => unfold own
  | |- adds _ (check _ _) => unfold check
  | |- adds _ (checked_call _ _) => unfold checked_call
  | |- adds _ (readUlong _ _) => unfold readUlong
  | |- adds _ (getBigUint64 _ _) => unfold getBigUint64
  | |- adds _ (encodeMechanism _ _) => unfold encodeMechanism
  | |- adds _ (encodeParams _) => unfold encodeParams
  | |- adds _ (encodeTemplate _) => unfold encodeTemplate
  | |- adds _ (crypt_init _ _ _ _ _) => unfold crypt_init
  | |- adds _ (slotInfo _) => unfold slotInfo
  | |- adds _ (let _ := _ in _) => cbv zeta
  end.

Lemma adds_twoPhase P name call size : (∀ out len, adds P (call out len)) → adds P (twoPhase name call size).
Proof. intros Hc. unfold twoPhase. repeat first [apply Hc|adds_step]. Qed.

Lemma adds_handle f args : map arg_type args ++ [pointer] = SIGNATURES f → adds sig_ok (with_handle f args).
Proof. intros Hs. unfold with_handle. repeat adds_step. apply adds_invoke. unfold sig_ok. cbn [fst snd]. by rewrite map_app. Qed.

Lemma adds_find P fuel session batch count : (∀ args, map arg_type args = SIGNATURES C_FindObjects → P (C_FindObjects, args)) →
  ∀ handles, adds P (find_loop fuel session batch count handles).
Proof.
  intros HP. induction fuel as [|fuel IH]; intros handles; cbn [find_loop]; repeat first [apply IH|adds_step].
  apply adds_invoke. by apply HP.
Qed.

Lemma adds_single init f session mechanism params key data :
  SIGNATURES init = [u64; pointer; u64] → SIGNATURES f = [u64; pointer; u64; pointer; pointer] →
  adds sig_ok (single_part init f session mechanism params key data).
Proof.
  intros Hi Hf. unfold single_part, crypt_init. repeat first [apply adds_twoPhase; intros ? ?|adds_step]; apply adds_invoke; unfold sig_ok; by rewrite ?Hi, ?Hf.
Qed.

Lemma encodeTemplate_total template w : ∃ b w', encodeTemplate template w = (Ok b, w').
Proof.
  assert (Hv : ∀ w, ∃ vs w', fmap_list (λ a, own (at_value a)) template w = (Ok vs, w')).
  { clear w. induction template as [|a template IH]; intros w; cbn [fmap_list]; [by eexists _, _|].
    unfold fbind at 1. cbn [own new_buffer]. match goal with |- context [fbind _ _ ?w1] => destruct (IH w1) as (vs & w' & E) end.
    unfold fbind. rewrite E. by eexists _, _. }
  unfold encodeTemplate, fbind. destruct (Hv w) as (vs & w' & ->). by eexists _, _.
Qed.

Lemma adds_False_calls {A} (m : ffi A) w : adds (λ _, False) m → w_calls (m w).2 = w_calls w.
Proof.
  intros Ha. destruct (Ha w) as (new & Hn & HF). destruct new; [by rewrite Hn, app_nil_r|]. by apply Forall_cons in HF as [[] _].
Qed.

(** A step that calls nothing. *)
Lemma silent {A} (m : ffi A) w r w' : adds (λ _, False) m → m w = (r, w') → w_calls w' = w_calls w.
Proof. intros Ha E. rewrite <- (adds_False_calls m w Ha). by rewrite E. Qed.

(** A loop that goes on after [fuel] batches has asked for as many. *)
Lemma find_loop_running fuel session batch count : ∀ handles w w', find_loop fuel session batch count handles w = (Ok None, w') →
  ∃ fs, w_calls w' = w_calls w ++ fs ∧ length fs = fuel.
Proof.
  induction fuel as [|fuel IH]; intros handles w w' E; cbn [find_loop] in E.
  { injection E as <-. exists []. by rewrite app_nil_r. }
  apply fbind_Ok in E as ([] & w1 & E1 & (found & w2 & E2 & (more & w3 & E3 & E)%fbind_Ok)%fbind_Ok).
  assert (H1 : ∃ args, w_calls w1 = w_calls w ++ [(C_FindObjects, args)]).
  { apply fbind_Ok in E1 as (code & wa & Ea & Ec). unfold check in Ec. destruct (ok code); [|done]. injection Ec as <-.
    unfold invoke in Ea. destruct (cryptoki _ _ _ _) as [[? ?] ?]. injection Ea as _ <-. by eexists. }
  assert (H2 : w_calls w2 = w_calls w1).
  { eapply silent, E2. repeat adds_step. }
  assert (H3 : w_calls w3 = w_calls w2).
  { eapply silent, E3. repeat adds_step. }
  destruct (found <? _)%Z; [done|]. apply IH in E as (fs & Hfs & <-). destruct H1 as [args H1].
  exists ((C_FindObjects, args) :: fs). split; [|done]. by rewrite Hfs, H3, H2, H1, <- app_assoc.
Qed.

(** The part of [findObjects] after a [C_FindObjectsInit] that succeeded. *)
Lemma body_finalized fuel session init (w w1 w' : world) r : w_calls w1 = w_calls w ++ [init] →
  loop_finally
    (fbind (alloc (N.of_nat (FIND_BATCH * ULONG_SIZE))) (λ batch,
     fbind (alloc (N.of_nat ULONG_SIZE)) (λ count, find_loop fuel session batch count [])))
    (fbind (invoke C_FindObjectsFinal [AU64 session]) (λ _, fret tt)) w1 = (r, w') →
  ∃ finds, Forall (λ c, c.1 = C_FindObjects) finds ∧
    match r with
    | Ok None => w_calls w' = w_calls w ++ init :: finds ∧ length finds = fuel
    | _ => w_calls w' = w_calls w ++ init :: finds ++ [(C_FindObjectsFinal, [AU64 session])]
    end.
Proof.
  intros H1 E. unfold loop_finally in E. match type of E with context [match ?m w1 with _ => _ end] => set (body := m) in E end.
  assert (Hb : adds (λ c, c.1 = C_FindObjects) body) by (unfold body; repeat first [apply adds_find; by intros|adds_step]).
  destruct (Hb w1) as (fs & Hfs & HF). destruct (body w1) as [r2 w2] eqn:Eb. cbn [snd] in Hfs.
  assert (Hfin : ∀ r3, (let '(_, w'') := fbind (invoke C_FindObjectsFinal [AU64 session]) (λ _, fret tt) w2 in (r3, w'')) = (r, w') →
     w_calls w' = w_calls w ++ init :: fs ++ [(C_FindObjectsFinal, [AU64 session])] ∧ r = r3).
  { intros r3. unfold fbind, invoke, fret. destruct (cryptoki C_FindObjectsFinal _ _ _) as [[code' mem'] lib'].
    intros [= <- <-]. cbn [w_calls]. split; [|done]. by rewrite Hfs, H1, <- !app_assoc. }
  exists fs. split; [done|]. destruct r2 as [[l|]|e]; [by apply Hfin in E as [? ->]| |by apply Hfin in E as [? ->]].
  injection E as <- <-. split; [by rewrite Hfs, H1, <- app_assoc|].
  unfold body in Eb. apply fbind_Ok in Eb as (batch & wa & Ea & (count & wb & Ec & Eb)%fbind_Ok).
  apply find_loop_running in Eb as (fs' & Hfs' & <-).
  assert (Ha : w_calls wa = w_calls w1) by (eapply silent, Ea; repeat adds_step).
  assert (Hc : w_calls wb = w_calls wa) by (eapply silent, Ec; repeat adds_step).
  rewrite Hfs', Hc, Ha in Hfs. by apply app_inv_head in Hfs as ->.
Qed.

(** C23. A search that was begun is ended.  With [code] what the library answers to the
    [C_FindObjectsInit] that [findObjects] makes: when it is an error, the call throws it and calls
    nothing more; when it is [CKR_OK], [C_FindObjects] calls follow and then, as soon as the call
    resolves or throws, exactly one [C_FindObjectsFinal] of the session; a call that does
    neither is in its loop, with as many full batches behind it as it was followed for. *)
Theorem search_finalized fuel session template w : ∃ encoded w0,
  encodeTemplate template w = (Ok encoded, w0) ∧
  let args := [AU64 session; APtr (address encoded); AU64 (Z.of_nat (length template))] in
  let code := (cryptoki C_FindObjectsInit args (w_mem w0) (w_lib w0)).1.1 in
  let '(r, w') := findObjects fuel session template w in
  (ok code = false ∧ w_calls w' = w_calls w ++ [(C_FindObjectsInit, args)] ∧
     r = Err (XToken (Pkcs11TokenError (js "C_FindObjectsInit") (Z.to_N (Number code)) (returnValueName (Z.to_N (Number code)))))) ∨
  (ok code = true ∧ ∃ finds, Forall (λ c, c.1 = C_FindObjects) finds ∧
     match r with
     | Ok None => w_calls w' = w_calls w ++ (C_FindObjectsInit, args) :: finds ∧ length finds = fuel
     | _ => w_calls w' = w_calls w ++ (C_FindObjectsInit, args) :: finds ++ [(C_FindObjectsFinal, [AU64 session])]
     end).
Proof.
  destruct (encodeTemplate_total template w) as (encoded & w0 & E0). exists encoded, w0. split; [done|]. intros args code.
  assert (H0 : w_calls w0 = w_calls w).
  { eapply silent, E0. repeat adds_step. }
  destruct (findObjects fuel session template w) as [r w'] eqn:E.
  unfold findObjects, fbind at 1 in E. rewrite E0 in E. fold args in E.
  unfold checked_call in E. unfold fbind at 1 in E. unfold fbind at 1 in E. unfold invoke at 1 in E.
  unfold code in *. clear code. destruct (cryptoki _ args _ _) as [[code mem] lib]. cbn [fst].
  set (w1 := {| w_mem := _; w_lib := lib; w_calls := _ |}) in E.
  assert (H1 : w_calls w1 = w_calls w ++ [(C_FindObjectsInit, args)]) by (unfold w1; cbn [w_calls]; by rewrite H0).
  unfold check at 1 in E. destruct (ok code); cbv zeta in E; unfold fret at 1 in E || unfold fthrow at 1 in E.
  2: { injection E as <- <-. by left. }
  right. split; [done|]. by eapply body_finalized.
Qed.

(** The operations of the module. *)
Inductive module_call :=
  | MInitialize | MFinalize
  | MSlots (tokenPresent : bool)
  | MMechanisms (slot : Z)
  | MOpenSession (slot : Z) | MCloseSession (session : Z)
  | MLogin (session : Z) (pin : jstr) | MLogout (session : Z)
  | MFindObjects (fuel : nat) (session : Z) (template : list Attribute)
  | MGetAttributes (session object : Z) (types : list N)
  | MSetAttributes (session object : Z) (template : list Attribute)
  | MDestroyObject (session object : Z)
  | MGenerateKey (session : Z) (mechanism : N) (template : list Attribute)
  | MGenerateKeyPair (session : Z) (mechanism : N) (publicTemplate privateTemplate : list Attribute)
  | MDeriveKey (session : Z) (mechanism : N) (params : option MechanismParams) (base : Z) (template : list Attribute)
  | MEncrypt (session : Z) (mechanism : N) (params : option MechanismParams) (key : Z) (plaintext : list N)
  | MDecrypt (session : Z) (mechanism : N) (params : option MechanismParams) (key : Z) (ciphertext : list N)
  | MSign (session : Z) (mechanism : N) (params : option MechanismParams) (key : Z) (message : list N)
  | MVerify (session : Z) (mechanism : N) (params : option MechanismParams) (key : Z) (message signature : list N).

Definition ignore {A} (m : ffi A) : ffi unit := fbind m (λ _, fret tt).

Definition FfiModule (c : module_call) : ffi unit :=
  match c with
  | MInitialize => initialize
  | MFinalize => finalize (fret tt)
  | MSlots tokenPresent => ignore (slots tokenPresent)
  | MMechanisms slot => ignore (mechanisms slot)
  | MOpenSession slot => ignore (openSession slot)
  | MCloseSession session => closeSession session
  | MLogin session pin => login session pin
  | MLogout session => logout session
  | MFindObjects fuel session template => ignore (findObjects fuel session template)
  | MGetAttributes session object types => ignore (getAttributes session object types)
  | MSetAttributes session object template => setAttributes session object template
  | MDestroyObject session object => destroyObject session object
  | MGenerateKey session mechanism template => ignore (generateKey session mechanism template)
  | MGenerateKeyPair session mechanism public private => ignore (generateKeyPair session mechanism public private)
  | MDeriveKey session mechanism params base template => ignore (deriveKey session mechanism params base template)
  | MEncrypt session mechanism params key plaintext => ignore (encrypt session mechanism params key plaintext)
  | MDecrypt session mechanism params key ciphertext => ignore (decrypt session mechanism params key ciphertext)
  | MSign session mechanism params key message => ignore (sign session mechanism params key message)
  | MVerify session mechanism params key message signature => verify session mechanism params key message signature
  end.

(** A history of calls, each whatever the ones before returned. *)
Definition module_history (w : world) (calls : list module_call) : world := foldl (λ w c, (FfiModule c w).2) w calls.

Lemma FfiModule_adds c : adds sig_ok (FfiModule c).
Proof.
  destruct c; cbn [FfiModule]; unfold ignore, initialize, finalize, slots, mechanisms, openSession, closeSession, login, logout,
    findObjects, getAttributes, setAttributes, destroyObject, generateKey, generateKeyPair, deriveKey, encrypt, decrypt, sign, verify,
    size_attribute, read_sized;
    repeat first [apply adds_twoPhase; intros ? ?|apply adds_handle; reflexivity|apply adds_find; by intros|apply adds_single; reflexivity|adds_step].
Qed.

(** C21. Every foreign call of the module is made with the arguments its declared signature asks for,
    in number and in kind, in every history of operations and whatever the library answers: no
    call is refused by the foreign function interface, and no integer is passed for a pointer. *)
Theorem calls_match_signatures w calls : Forall sig_ok (w_calls w) → Forall sig_ok (w_calls (module_history w calls)).
Proof.
  unfold module_history. revert w; induction calls as [|c calls IH]; intros w Hw; [done|]. cbn [foldl].
  apply IH. destruct (FfiModule_adds c w) as (new & -> & Hn). by apply Forall_app.
Qed.
End calls.

(** ** What the operations return *)

Section behaviour.
Context `{NT : Native} (HN : native_laws NT).

Lemma Number_exact v : (v < 2 ^ 53)%N → Number v = Z.of_N v.
Proof. intros H. unfold Number. rewrite dbl_to_of_Z by lia. done. Qed.

Lemma get64_le64 v rest : fits v → get64 0 (le64 v ++ rest) = v.
Proof. intros H. unfold get64. rewrite drop_0, <- (le64_length v), take_app_length. by apply le64_decode. Qed.

(** A call whose memory keeps the sizes of the buffers leaves exactly this memory. *)
Lemma invoke_same f args w code mem lib : cryptoki f args (w_mem w) (w_lib w) = (code, mem, lib) →
  map length mem = map length (w_mem w) →
  invoke f args w = (Ok code, {| w_mem := mem; w_lib := lib; w_calls := w_calls w ++ [(f, args)] |}).
Proof.
  intros Hc Hl. unfold invoke. rewrite Hc. do 2 f_equal. apply list_eq. intros i. rewrite list_lookup_imap.
  assert (Hi : (length <$> mem) !! i = (length <$> w_mem w) !! i) by exact (f_equal (λ l : list nat, l !! i) Hl).
  rewrite !list_lookup_fmap in Hi.
  destruct (w_mem w !! i) as [old|], (mem !! i) as [new|]; simpl in *; try done. f_equal. injection Hi as Hi.
  rewrite drop_ge, app_nil_r by lia. by rewrite <- Hi, firstn_all.
Qed.

Lemma lengths_insert (mem : memory) b bytes old : mem !! b = Some old → length bytes = length old →
  map length (<[b := bytes]> mem) = map length mem.
Proof.
  intros Hb Hl. apply list_eq. intros i. change (map length ?l) with (length <$> l). rewrite !list_lookup_fmap.
  destruct (decide (i = b)) as [->|Hne]; [|by rewrite list_lookup_insert_ne].
  rewrite list_lookup_insert_eq by by eapply lookup_lt_Some. by rewrite Hb; simpl; rewrite Hl.
Qed.

Lemma alloc_Ok size w b w' : alloc size w = (Ok b, w') → extends w w' [repeat 0%N (N.to_nat size)] ∧
  w_mem w' !! b = Some (repeat 0%N (N.to_nat size)) ∧ b = length (w_mem w).
Proof.
  unfold alloc. destruct (_ <? _)%N; [done|]. intros H. pose proof H as [= Hb _]. apply new_buffer_Ok in H as [? ?]. by subst b.
Qed.

Lemma alloc_some size w : (size <= max_length)%N → alloc size w =
  (Ok (length (w_mem w)), {| w_mem := w_mem w ++ [repeat 0%N (N.to_nat size)]; w_lib := w_lib w; w_calls := w_calls w |}).
Proof. intros H. unfold alloc. by replace (_ <? _)%N with false by lia. Qed.

Lemma readUlong_at b off v w bytes : w_mem w !! b = Some bytes → off + 8 ≤ length bytes → get64 off bytes = v →
  (v < 2 ^ 53)%N → readUlong b off w = (Ok (Z.of_N v), w).
Proof.
  intros Hb Ho Hv Hs. unfold readUlong, getBigUint64, fbind, read_buffer, buffer. rewrite Hb. simpl.
  replace (length bytes <? off + 8) with false by (symmetry; apply Nat.ltb_ge; lia). simpl. by rewrite Hv, Number_exact.
Qed.

(** *** [findObjects] *)

(** A library finds this template at an address: an array of [CK_ATTRIBUTE], each with the type of
    its attribute, a pointer to the bytes of its value and their number. *)
Definition reads_template (mem : memory) (p : N) (template : list Attribute) : Prop :=
  ∃ b bytes, p = address b ∧ mem !! b = Some bytes ∧
    ∀ i a, template !! i = Some a → ∃ pValue,
      c_struct CK_ATTRIBUTE (take (c_sizeof CK_ATTRIBUTE) (drop (c_sizeof CK_ATTRIBUTE * i) bytes))
        = Some [at_type a; pValue; length64 (at_value a)] ∧ points mem pValue (at_value a).

(** A library that searches as the standard says: in a session without a search ([idle]) it begins
    one for the template it reads in memory, whose results are the objects the session sees that
    have all the values of the template; [searching] says which handles a search still has to
    give, and [C_FindObjects] gives the next ones, at most the number it is asked for. *)
Record search_library (idle : Library → Z → Prop) (objects : Library → Z → list (Z * list Attribute))
    (searching : Library → Z → list N → Prop) : Prop := {
  search_init : ∀ session p template mem lib, idle lib session → reads_template mem p template →
    ∃ lib', cryptoki C_FindObjectsInit [AU64 session; APtr p; AU64 (Z.of_nat (length template))] mem lib = (0%N, mem, lib') ∧
      searching lib' session (map Z.to_N (matching template (objects lib session)));
  search_next : ∀ session batch count mem lib rest b c, searching lib session rest → batch ≠ count →
    mem !! batch = Some b → length b = 256 → mem !! count = Some c → length c = 8 →
    ∃ lib', cryptoki C_FindObjects [AU64 session; APtr (address batch); AU64 32; APtr (address count)] mem lib =
      (0%N, <[count := le64 (N.of_nat (length (take 32 rest)))]> (<[batch := put_at 0 (flat_map le64 (take 32 rest)) b]> mem), lib') ∧
      searching lib' session (drop 32 rest);
}.

Lemma flat_le64_length l : length (flat_map le64 l) = 8 * length l.
Proof. induction l as [|v l IH]; [done|]. cbn [flat_map length]. rewrite length_app, le64_length, IH. lia. Qed.

Lemma get64_flat l rest i v : l !! i = Some v → fits v → get64 (i * 8) (flat_map le64 l ++ rest) = v.
Proof.
  revert i; induction l as [|x l IH]; intros [|i] Hi Hv; try done; cbn [flat_map]; rewrite <- app_assoc.
  - injection Hi as ->. by apply get64_le64.
  - unfold get64. rewrite drop_app_ge by (rewrite le64_length; lia). rewrite le64_length.
    replace (S i * 8 - 8) with (i * 8) by lia. by apply IH.
Qed.

Lemma fmap_list_pure {A B} (f : A → ffi B) (g : A → B) l w : (∀ a, a ∈ l → f a w = (Ok (g a), w)) →
  fmap_list f l w = (Ok (map g l), w).
Proof.
  induction l as [|a l IH]; intros H; cbn [fmap_list]; [done|]. unfold fbind at 1. rewrite H by by left. cbn [map].
  unfold fbind. rewrite IH by (intros; apply H; by right). done.
Qed.

Lemma find_loop_all idle objects searching session batch count :
  search_library idle objects searching → batch ≠ count → ∀ fuel rest handles w b c,
  length rest / 32 < fuel → Forall (λ v, v < 2 ^ 53)%N rest → searching (w_lib w) session rest →
  w_mem w !! batch = Some b → length b = 256 → w_mem w !! count = Some c → length c = 8 →
  ∃ w', find_loop fuel session batch count handles w = (Ok (Some (handles ++ map Z.of_N rest)), w').
Proof.
  intros HS Hbc. induction fuel as [|fuel IH]; intros rest handles w b c Hf Hv Hs Hb Lb Hc Lc; [lia|].
  destruct (search_next _ _ _ HS session batch count (w_mem w) (w_lib w) rest b c Hs Hbc Hb Lb Hc Lc) as (lib' & Hcall & Hs').
  assert (Ht : length (take 32 rest) ≤ 32) by (rewrite length_take; lia).
  set (b' := put_at 0 (flat_map le64 (take 32 rest)) b) in *.
  set (c' := le64 (N.of_nat (length (take 32 rest)))) in *.
  assert (Lb' : length b' = 256) by (unfold b'; rewrite put_length; [done|rewrite flat_le64_length; lia]).
  set (mem' := <[count := c']> (<[batch := b']> (w_mem w))) in *.
  assert (Hcount : mem' !! count = Some c') by (apply list_lookup_insert_eq; rewrite length_insert; by eapply lookup_lt_Some).
  assert (Hbatch : mem' !! batch = Some b').
  { unfold mem'. rewrite list_lookup_insert_ne by done. apply list_lookup_insert_eq. by eapply lookup_lt_Some. }
  cbn [find_loop]. change (Z.of_nat FIND_BATCH) with 32%Z. unfold checked_call, fbind at 1. unfold fbind at 1.
  rewrite (invoke_same _ _ w _ _ _ Hcall).
  2: { unfold mem'. rewrite (lengths_insert _ _ _ c); [by eapply lengths_insert; [done|rewrite Lb'; lia]|by rewrite list_lookup_insert_ne|unfold c'; by rewrite le64_length]. }
  change (check C_FindObjects 0) with (fret (A := unit) tt). unfold fret at 1. cbv iota.
  set (w' := {| w_mem := mem'; w_lib := lib'; w_calls := _ |}).
  unfold fbind at 1. rewrite (readUlong_at count 0 (N.of_nat (length (take 32 rest))) w' c' Hcount) by
    (first [lia|unfold c'; rewrite le64_length; lia|rewrite <- (app_nil_r c'); apply get64_le64; unfold fits; lia]).
  set (n := length (take 32 rest)) in *.
  replace (turns (Z.of_N (N.of_nat n)) (S FIND_BATCH)) with n by (unfold turns, FIND_BATCH; lia).
  unfold fbind at 1. rewrite (fmap_list_pure _ (λ i, Z.of_N (default 0%N (take 32 rest !! i)))).
  2: { intros i Hi%elem_of_seq. destruct (lookup_lt_is_Some_2 (take 32 rest) i) as [v Hi']; [lia|]. rewrite Hi'. cbn [default].
       assert (Hv' : (v < 2 ^ 53)%N) by (rewrite Forall_lookup in Hv; apply (Hv i); rewrite lookup_take in Hi'; case_decide; done).
       unfold ULONG_SIZE. apply (readUlong_at _ _ _ _ b'); [done|lia| |done].
       unfold b', put_at. cbn [take app]. rewrite take_0. cbn [app]. apply get64_flat; [done|]. unfold fits. by eapply N.lt_trans; [exact Hv'|]. }
  replace (map _ (seq 0 n)) with (map Z.of_N (take 32 rest)).
  2: { apply list_eq. intros i. change (map ?f ?l) with (f <$> l). rewrite !list_lookup_fmap.
       destruct (decide (i < n)) as [Hi|Hi].
       - rewrite lookup_seq_lt by done. simpl. by destruct (lookup_lt_is_Some_2 (take 32 rest) i Hi) as [v ->].
       - rewrite lookup_seq_ge, lookup_ge_None_2 by lia. done. }
  destruct (Z.of_N (N.of_nat n) <? 32)%Z eqn:En.
  - assert (Hall : take 32 rest = rest) by (apply take_ge; unfold n in En; rewrite length_take in En; lia).
    rewrite Hall. by eexists.
  - assert (Hlen : 32 ≤ length rest) by (unfold n in En; rewrite length_take in En; lia).
    destruct (IH (drop 32 rest) (handles ++ map Z.of_N (take 32 rest)) w' b' c') as [w2 E2]; try done.
    + rewrite length_drop. pose proof (Nat.div_add_l 1 32 (length rest - 32) ltac:(lia)) as E.
      replace (1 * 32 + (length rest - 32)) with (length rest) in E by lia. lia.
    + by apply Forall_drop.
    + rewrite E2. exists w2. by rewrite <- app_assoc, <- map_app, take_drop.
Qed.

Lemma values_length template : ∀ w values w', fmap_list (λ a, own (at_value a)) template w = (Ok values, w') →
  length (w_mem w') = length (w_mem w) + length template.
Proof.
  induction template as [|a template IH]; intros w values w'; cbn [fmap_list].
  - intros [= _ <-]. simpl. lia.
  - intros (v & w1 & [= _ <-] & (vs & w2 & H%IH & [= _ <-])%fbind_Ok)%fbind_Ok. rewrite H. cbn [w_mem]. rewrite length_app. simpl. lia.
Qed.

(** The template that [encodeTemplate] makes is found by the library, and the library is as before. *)
Lemma encoded_template template w : Forall (λ a, fits (at_type a) ∧ fits (length64 (at_value a))) template →
  length (w_mem w) + length template < capacity →
  ∃ b w', encodeTemplate template w = (Ok b, w') ∧ reads_template (w_mem w') (address b) template ∧ w_lib w' = w_lib w.
Proof.
  intros Hf Hcap. destruct (encodeTemplate_total template w) as (b & w' & E). exists b, w'. split; [done|].
  assert (Hl : length (w_mem w') ≤ capacity).
  { unfold encodeTemplate in E. apply fbind_Ok in E as (vs & w1 & H%values_length & [= _ <-]). cbn [w_mem]. rewrite length_app. simpl. lia. }
  destruct (template_layout HN _ _ _ _ Hf E Hl) as ([new (_ & Hlib & _)] & bytes & Hb & _ & Hr). split; [|done]. by exists b, bytes.
Qed.

(** C22. [findObjects] returns all the objects of the token that have the values of the template, and no
    other, in the order of a conforming library and however many batches of 32 that takes, when
    their handles are below 2^53: the loop ends, and the fuel it needs is the number of batches.
    The library finds the template in the memory that [encodeTemplate] wrote. *)
Theorem findObjects_complete idle objects searching fuel session template w :
  search_library idle objects searching → idle (w_lib w) session →
  let found := matching template (objects (w_lib w) session) in
  Forall (λ a, fits (at_type a) ∧ fits (length64 (at_value a))) template → length (w_mem w) + length template < capacity →
  Forall (λ v, 0 <= v < 2 ^ 53)%Z found → (256 <= max_length)%N → length found / 32 < fuel →
  ∃ w', findObjects fuel session template w = (Ok (Some found), w').
Proof.
  intros HS Hidle found Hfit Hcap Hv Hmax Hf. unfold findObjects.
  destruct (encoded_template template w Hfit Hcap) as (encoded & w0 & E0 & Hr & Hlib).
  unfold fbind at 1. rewrite E0. rewrite <- Hlib in Hidle.
  destruct (search_init _ _ _ HS session _ template (w_mem w0) (w_lib w0) Hidle Hr) as (lib1 & H1 & Hs1).
  rewrite Hlib in Hs1. fold found in Hs1.
  unfold fbind at 1, checked_call, fbind at 1.
  rewrite (invoke_same _ _ w0 _ _ _ H1) by done. change (check C_FindObjectsInit 0) with (fret (A := unit) tt).
  unfold fret at 1. cbv iota.
  set (w1 := {| w_mem := w_mem w0; w_lib := lib1; w_calls := _ |}).
  unfold loop_finally, fbind at 1. rewrite alloc_some by (unfold FIND_BATCH, ULONG_SIZE; lia). cbv iota.
  unfold fbind at 1. rewrite alloc_some by (unfold ULONG_SIZE; lia). cbv iota. cbn [w_mem w_lib w_calls].
  match goal with |- context [find_loop fuel session ?bb ?cc [] ?w2] =>
    destruct (find_loop_all idle objects searching session bb cc HS) with (fuel := fuel) (rest := map Z.to_N found) (handles := @nil Z) (w := w2)
      (b := repeat 0%N 256) (c := repeat 0%N 8) as [w3 E3] end; try done.
  - rewrite length_app. simpl. lia.
  - by rewrite length_map.
  - apply Forall_map. eapply Forall_impl; [exact Hv|]. intros v [H0 Hlt]. apply N2Z.inj_lt. by rewrite Z2N.id.
  - cbn [w_mem]. rewrite lookup_app_l by (rewrite length_app; simpl; lia). by rewrite lookup_app_r, Nat.sub_diag by lia.
  - cbn [w_mem]. by rewrite lookup_app_r, Nat.sub_diag by lia.
  - rewrite E3. cbn [app]. destruct (fbind _ _ w3) as [? w4]. exists w4. do 3 f_equal.
    rewrite map_map. rewrite <- (map_id found) at 2. apply map_ext_in. intros v Hin%list_elem_of_In.
    rewrite Forall_forall in Hv. apply Hv in Hin. lia.
Qed.

(** *** The size-then-fill convention *)

(** A function that gives [data], [count] elements of a size, under the convention: asked with a
    null output it tells a number of elements that is enough, and given that room it writes the
    data and tells how many there are. *)
Record fills (name : FunctionName) (args : N → N → list native_arg) (elementSize : nat) (count told : N) (data : list N) : Prop := {
  fills_length : length64 data = (count * N.of_nat elementSize)%N;
  fills_enough : (count <= told)%N;
  fills_tells : ∀ len mem lib c, mem !! len = Some c → length c = 8 →
    ∃ lib', cryptoki name (args 0%N (address len)) mem lib = (0%N, <[len := le64 told]> mem, lib');
  fills_writes : ∀ out len mem lib o c, out ≠ len → mem !! out = Some o → mem !! len = Some c → c = le64 told →
    (told * N.of_nat elementSize <= length64 o)%N →
    ∃ lib', cryptoki name (args (address out) (address len)) mem lib = (0%N, <[len := le64 count]> (<[out := put_at 0 data o]> mem), lib');
}.

Lemma get64_whole v : fits v → get64 0 (le64 v) = v.
Proof. intros H. rewrite <- (app_nil_r (le64 v)). by apply get64_le64. Qed.

Lemma small_fits v : (v < 2 ^ 53)%N → fits v.
Proof. intros H. unfold fits. by eapply N.lt_trans; [exact H|]. Qed.

(** The size-then-fill convention returns exactly the data of a conforming function, in whichever
    unit the function counts: the buffer has room for every element the function was told of. *)
Theorem twoPhase_exact name args elementSize count told data w : fills name args elementSize count told data →
  (told < 2 ^ 53)%N → (N.max (told * N.of_nat elementSize) 8 <= max_length)%N →
  ∃ w', twoPhase name (λ out len, invoke name (args out len)) elementSize w = (Ok data, w').
Proof.
  intros [Hlen Hle Htell Hwrite] Ht Hmax. assert (Hc : (count < 2 ^ 53)%N) by (by eapply N.le_lt_trans; [exact Hle|]).
  unfold twoPhase. unfold fbind at 1. rewrite alloc_some by (unfold ULONG_SIZE; lia). cbv iota.
  change (N.to_nat (N.of_nat ULONG_SIZE)) with 8. set (len := length (w_mem w)). set (w1 := {| w_mem := _; w_lib := _; w_calls := _ |}).
  assert (H1 : w_mem w1 !! len = Some (repeat 0%N 8)) by (unfold w1, len; cbn [w_mem]; by rewrite lookup_app_r, Nat.sub_diag by lia).
  destruct (Htell len (w_mem w1) (w_lib w1) _ H1 eq_refl) as (lib2 & E2).
  unfold fbind at 1. rewrite (invoke_same _ _ w1 _ _ _ E2) by (eapply lengths_insert; [exact H1|apply le64_length]).
  unfold fbind at 1. change (check name 0) with (fret (A := unit) tt). unfold fret at 1. cbv iota.
  set (w2 := {| w_mem := _; w_lib := lib2; w_calls := _ |}).
  assert (L2 : length (w_mem w2) = S len) by (unfold w2; cbn [w_mem]; rewrite length_insert; unfold w1; cbn [w_mem]; rewrite length_app; simpl; lia).
  assert (H2 : w_mem w2 !! len = Some (le64 told)) by (unfold w2; cbn [w_mem]; apply list_lookup_insert_eq; by eapply lookup_lt_Some).
  unfold fbind at 1. rewrite (readUlong_at len 0 told w2 _ H2) by first [done|rewrite le64_length; lia|by apply get64_whole, small_fits].
  rewrite N2Z.id. unfold fbind at 1. rewrite alloc_some by lia. cbv iota. rewrite L2.
  set (o := repeat 0%N _). set (w3 := {| w_mem := w_mem w2 ++ _; w_lib := _; w_calls := _ |}).
  assert (H3 : w_mem w3 !! len = Some (le64 told)) by (unfold w3; cbn [w_mem]; by apply lookup_app_l_Some).
  assert (H3' : w_mem w3 !! S len = Some o) by (unfold w3; cbn [w_mem]; by rewrite lookup_app_r, L2, Nat.sub_diag by lia).
  assert (Lo : length64 o = N.max (told * N.of_nat elementSize) 1) by (unfold length64, o; rewrite repeat_length; lia).
  assert (Hroom : (count * N.of_nat elementSize <= told * N.of_nat elementSize)%N) by (apply N.mul_le_mono_r; done).
  destruct (Hwrite (S len) len (w_mem w3) (w_lib w3) o _ ltac:(lia) H3' H3 eq_refl ltac:(lia)) as (lib4 & E4).
  assert (Lp : length (put_at 0 data o) = length o) by (apply put_length; unfold length64 in *; lia).
  unfold fbind at 1. rewrite (invoke_same _ _ w3 _ _ _ E4).
  2: { rewrite (lengths_insert _ _ _ (le64 told)); [by eapply lengths_insert|by rewrite list_lookup_insert_ne by lia|by rewrite !le64_length]. }
  unfold fbind at 1. change (check name 0) with (fret (A := unit) tt). unfold fret at 1. cbv iota.
  set (w4 := {| w_mem := _; w_lib := lib4; w_calls := _ |}).
  assert (H4 : w_mem w4 !! len = Some (le64 count)).
  { unfold w4; cbn [w_mem]. apply list_lookup_insert_eq. rewrite length_insert. by eapply lookup_lt_Some. }
  assert (H4' : w_mem w4 !! S len = Some (put_at 0 data o)).
  { unfold w4; cbn [w_mem]. rewrite list_lookup_insert_ne by lia. apply list_lookup_insert_eq. by eapply lookup_lt_Some. }
  unfold fbind at 1. rewrite (readUlong_at len 0 count w4 _ H4) by first [done|rewrite le64_length; lia|by apply get64_whole, small_fits].
  rewrite N2Z.id. unfold fbind, read_buffer, buffer. rewrite H4'. cbn [default]. exists w4. unfold fret. do 2 f_equal.
  unfold id. replace (N.to_nat (N.min _ _)) with (length data) by (unfold length64 in *; rewrite Lp; lia).
  unfold put_at. rewrite take_0. cbn [app]. by rewrite take_app_length.
Qed.

Lemma words_le64 ms : Forall fits ms → ∀ n, length ms ≤ n → words n (flat_map le64 ms) = ms.
Proof.
  induction 1 as [|m ms Hm _ IH]; intros [|n] Hn; simpl length in Hn; try done; try lia.
  cbn [words flat_map]. rewrite length_app, le64_length. replace (8 + _ <? ULONG_SIZE) with false by (symmetry; apply Nat.ltb_ge; unfold ULONG_SIZE; lia).
  rewrite get64_le64 by done. f_equal. unfold ULONG_SIZE. rewrite <- (le64_length m), drop_app_length. apply IH. lia.
Qed.

(** [mechanisms] returns what the token advertises. *)
Lemma mechanisms_exact slot ms w : Forall (λ m, m < 2 ^ 53)%N ms →
  fills C_GetMechanismList (λ out len, [AU64 slot; APtr out; APtr len]) ULONG_SIZE (length64 ms) (length64 ms) (flat_map le64 ms) →
  (length64 ms < 2 ^ 53)%N → (N.max (length64 ms * 8) 8 <= max_length)%N →
  ∃ w', mechanisms slot w = (Ok (map Z.of_N ms), w').
Proof.
  intros Hms Hf H1 H2. destruct (twoPhase_exact _ _ _ _ _ _ w Hf H1 H2) as [w' E]. unfold mechanisms, fbind. rewrite E.
  exists w'. unfold fret. do 2 f_equal. rewrite words_le64.
  - apply map_ext_in. intros m Hm%list_elem_of_In. rewrite Forall_forall in Hms. by apply Number_exact, Hms.
  - eapply Forall_impl; [exact Hms|]. intros m. apply small_fits.
  - rewrite flat_le64_length. lia.
Qed.

(** *** Handles *)

(** Handles survive the numbers of the language below 2^53, and not above. *)
Lemma handle_exact v : (v < 2 ^ 53)%N → Number v = Z.of_N v.
Proof. apply Number_exact. Qed.
End behaviour.

Example handle_rounded : Number (2 ^ 53 + 1) = (2 ^ 53)%Z.
Proof. vm_compute. reflexivity. Qed.

(** ** PIN, attributes, loading *)

Section more.
Context `{NT : Native}.

Lemma invoke_memory f args w code w' : invoke f args w = (Ok code, w') → map length (w_mem w') = map length (w_mem w).
Proof.
  unfold invoke. destruct (cryptoki _ _ _ _) as [[c mem] lib]. intros [= _ <-]. cbn [w_mem].
  apply list_eq. intros i. change (map length ?l) with (length <$> l). rewrite !list_lookup_fmap, list_lookup_imap.
  destruct (w_mem w !! i) as [old|]; [|done]. simpl. f_equal. rewrite length_take, length_app, length_drop. lia.
Qed.

(** The PIN does not stay in the memory of the binding: after [login], whether it resolves or throws
    and whatever the library does, the one buffer that was made holds only zeros. *)
Theorem login_wipes_pin session pin w : ∃ n,
  w_mem (login session pin w).2 !! length (w_mem w) = Some (repeat 0%N n) ∧
  length (w_mem (login session pin w).2) = S (length (w_mem w)).
Proof.
  destruct (login session pin w) as [r w'] eqn:E. cbn [snd]. unfold login in E. unfold fbind at 1 in E.
  destruct (own (utf8_encode pin) w) as [[b|] w1] eqn:E1; [|done]. injection E1 as <- <-. set (w1 := {| w_mem := _; w_lib := _; w_calls := _ |}) in E.
  unfold ffinally in E. match type of E with context [let '(_, _) := ?m w1 in _] => set (body := m) in E end.
  assert (Hm : map length (w_mem (body w1).2) = map length (w_mem w1)).
  { unfold body, fbind. destruct (invoke _ _ w1) as [[code|e] w2] eqn:Ei.
    - apply invoke_memory in Ei. rewrite <- Ei. unfold check. destruct (_ && _); [|done]. by destruct (ok code).
    - revert Ei. unfold invoke. by destruct (cryptoki _ _ _ _) as [[? ?] ?]. }
  destruct (body w1) as [r2 w2]. unfold fill_zero in E. injection E as _ <-. cbn [w_mem snd] in *.
  assert (Hl : length (w_mem w2) = S (length (w_mem w))).
  { rewrite <- (length_map length), Hm, length_map. unfold w1. cbn [w_mem]. rewrite length_app. simpl. lia. }
  eexists. split; [|by rewrite length_insert]. apply list_lookup_insert_eq. lia.
Qed.

End more.

(** The binding: what a loaded module may be called through. *)
Lemma bind_functions_Ok word index calls : bind_functions word index = Ok calls ↔
  calls = map (λ p, (p.1, word p.2)) index ∧ Forall (λ p, word p.2 ≠ 0%N) index.
Proof.
  revert calls; induction index as [|[f i] index IH]; intros calls; cbn [bind_functions map fst snd].
  - split; [by intros [= <-]|by intros [-> _]].
  - rewrite Forall_cons. cbn [fst snd]. destruct (word i =? 0)%N eqn:E.
    + apply N.eqb_eq in E. split; [done|]. by intros (_ & ? & _).
    + apply N.eqb_neq in E. rewrite rbind_Ok. split.
      * intros (rest & [-> HF]%IH & [= <-]). done.
      * intros (-> & _ & HF). eexists. split; [by apply IH|done].
Qed.

(** Loading binds each of the 27 functions to the word at its place in the standard's function list,
    and only when every one is implemented; a library that was opened and then refused is closed
    again, except when [C_GetFunctionList] itself fails. *)
Theorem loadModule_binds ld : 
  (∀ calls, bd_result (loadModule ld) = Ok calls ↔
     ld_has_dlopen ld = true ∧ ld_windows ld = false ∧ ld_open ld = Ok tt ∧ Number (ld_code ld) = 0%Z ∧ ld_list ld ≠ 0%N ∧
     calls = map (λ p, (p.1, ld_word ld p.2)) FUNCTION_INDEX ∧ Forall (λ p, ld_word ld p.2 ≠ 0%N) FUNCTION_INDEX) ∧
  Forall (λ p, CK_FUNCTION_LIST !! (p.2 - 1) = Some (fn_name p.1) ∧ 1 ≤ p.2) FUNCTION_INDEX ∧
  (bd_opened (loadModule ld) = true → Number (ld_code ld) = 0%Z →
   bd_closed (loadModule ld) = negb (is_ok (bd_result (loadModule ld)))) ∧
  (bd_opened (loadModule ld) = true → Number (ld_code ld) ≠ 0%Z → bd_closed (loadModule ld) = false).
Proof.
  split; [|split; [by repeat constructor|]].
  - intros calls. unfold loadModule, bindFunctionList. destruct (ld_has_dlopen ld); cbn [negb]; [|split; [done|by intros (? & _)]].
    destruct (ld_windows ld); [split; [done|by intros (_ & ? & _)]|].
    destruct (ld_open ld) as [[]|m]; [|split; [done|by intros (_ & _ & ? & _)]].
    change (Z.of_N (ckr_Ok ReturnValue)) with 0%Z. destruct (Number (ld_code ld) =? 0)%Z eqn:Ec; cbn [negb].
    2: { apply Z.eqb_neq in Ec. split; [done|]. by intros (_ & _ & _ & ? & _). }
    apply Z.eqb_eq in Ec. destruct (ld_list ld =? 0)%N eqn:El.
    { apply N.eqb_eq in El. split; [done|]. by intros (_ & _ & _ & _ & ? & _). }
    apply N.eqb_neq in El. cbn [bd_result]. rewrite bind_functions_Ok. naive_solver.
  - unfold loadModule, bindFunctionList. change (Z.of_N (ckr_Ok ReturnValue)) with 0%Z.
    destruct (ld_has_dlopen ld); cbn [negb]; [|by split]. destruct (ld_windows ld); [by split|].
    destruct (ld_open ld) as [[]|m]; [|by split].
    destruct (Number (ld_code ld) =? 0)%Z eqn:Ec; cbn [negb bd_opened bd_closed bd_result].
    + apply Z.eqb_eq in Ec. destruct (ld_list ld =? 0)%N; by split.
    + apply Z.eqb_neq in Ec. by split.
Qed.

(** ** A concrete library

    One token with three mechanisms, and a search that gives the handles it was created with. *)

Module ToyLibrary.
Definition advertised : list N := [4160; 4231; 592]%N.
Definition write (mem : memory) (p : N) (bytes : list N) : memory :=
  match mem !! (N.to_nat p - 1) with
  | Some old => <[N.to_nat p - 1 := put_at 0 bytes old]> mem
  | None => mem
  end.

(** The template that begins at an address, as a library reads it. *)
Definition buffer_at (mem : memory) (p : N) : list N := default [] (mem !! (N.to_nat p - 1)).
Definition template_at (mem : memory) (p : N) (count : Z) : list Attribute :=
  map (λ i, let entry := take 24 (drop (24 * i) (buffer_at mem p)) in
            {| at_type := get64 0 entry; at_value := take (N.to_nat (get64 16 entry)) (buffer_at mem (get64 8 entry)); at_present := true |})
    (seq 0 (Z.to_nat count)).

(** Seventy keys with the label k among others. *)
Definition key (label : jstr) : list Attribute := [textAttribute (cka_Label AttributeType) label; boolAttribute (cka_Token AttributeType) true].
Definition objects : list (Z * list Attribute) :=
  (100%Z, key (js "other")) :: map (λ n, (Z.of_nat n, key (js "k"))) (seq 1 70).

(** The state is the rest of the search, when there is one. *)
Definition answer (f : FunctionName) (args : list native_arg) (mem : memory) (search : option (list N)) : N * memory * option (list N) :=
  match f, args with
  | C_FindObjectsInit, [AU64 _; APtr p; AU64 count] =>
      match search with
      | Some _ => (144%N, mem, search)
      | None => (0%N, mem, Some (map Z.to_N (matching (template_at mem p count) objects)))
      end
  | C_FindObjects, [AU64 _; APtr batch; AU64 _; APtr count] =>
      match search with
      | Some rest => (0%N, write (write mem batch (flat_map le64 (take 32 rest))) count (le64 (N.of_nat (length (take 32 rest)))), Some (drop 32 rest))
      | None => (145%N, mem, search)
      end
  | C_FindObjectsFinal, _ => (0%N, mem, None)
  | C_GetMechanismList, [AU64 _; APtr out; APtr len] =>
      (0%N, write (if (out =? 0)%N then mem else write mem out (flat_map le64 advertised)) len (le64 (length64 advertised)), search)
  | C_GetAttributeValue, _ => (179%N, mem, search)
  | _, _ => (0%N, mem, search)
  end.

#[export] Instance native : Native :=
  {| Library := option (list N); cryptoki := answer; address b := N.of_nat (S b); capacity := 1000; max_length := 2 ^ 32 |}.
End ToyLibrary.

Section toy_library.
#[local] Existing Instance ToyLibrary.native.

Lemma toy_laws : native_laws ToyLibrary.native.
Proof. split; cbn [address capacity ToyLibrary.native]; intros; [|lia]. assert (1001 < 2 ^ 64)%N by done. lia. Qed.

Lemma toy_write mem b bytes old : mem !! b = Some old → ToyLibrary.write mem (address b) bytes = <[b := put_at 0 bytes old]> mem.
Proof.
  intros Hb. unfold ToyLibrary.write. cbn [address ToyLibrary.native]. rewrite Nat2N.id. replace (S b - 1) with b by lia. by rewrite Hb.
Qed.

Lemma toy_put_count v c : length c = 8 → put_at 0 (le64 v) c = le64 v.
Proof. intros Hc. unfold put_at. rewrite drop_ge by (rewrite le64_length; lia). by rewrite take_0, app_nil_r. Qed.

Definition toy_world : world := {| w_mem := []; w_lib := None; w_calls := [] |}.

Definition toy_template : list Attribute := [textAttribute (cka_Label AttributeType) (js "k"); boolAttribute (cka_Token AttributeType) true].
Definition toy_idle (lib : Library) (_ : Z) : Prop := lib = None.
Definition toy_searching (lib : Library) (_ : Z) (rest : list N) : Prop := lib = Some rest.

Lemma toy_buffer mem b bytes : mem !! b = Some bytes → ToyLibrary.buffer_at mem (address b) = bytes.
Proof.
  intros Hb. unfold ToyLibrary.buffer_at. cbn [address ToyLibrary.native]. rewrite Nat2N.id. replace (S b - 1) with b by lia. by rewrite Hb.
Qed.

(** The template it reads is the one that is there. *)
Lemma toy_reads mem p template : reads_template mem p template →
  Forall2 (λ a a', at_type a = at_type a' ∧ at_value a = at_value a') (ToyLibrary.template_at mem p (Z.of_nat (length template))) template.
Proof.
  intros (b & bytes & -> & Hb & H). apply Forall2_same_length_lookup. unfold ToyLibrary.template_at. rewrite Nat2Z.id.
  split; [by rewrite length_map, length_seq|]. intros i a a' Ha Ha'. change (map ?f ?l) with (f <$> l) in Ha.
  rewrite list_lookup_fmap, lookup_seq_lt in Ha by by eapply lookup_lt_Some.
  rewrite (toy_buffer _ _ _ Hb) in Ha. injection Ha as <-. cbn [at_type at_value].
  destruct (H i a' Ha') as (p & Hs & bv & rest & Hp & Hv). change (c_sizeof CK_ATTRIBUTE) with 24 in Hs.
  unfold c_struct in Hs. destruct (length _ =? _); [|done].
  change (c_offsets 0 CK_ATTRIBUTE) with [0; 8; 16] in Hs. unfold CK_ATTRIBUTE in Hs. cbn [zip_with c_member] in Hs.
  injection Hs as -> -> ->. rewrite Hp, (toy_buffer _ _ _ Hv). split; [done|]. unfold length64. by rewrite Nat2N.id, take_app_length.
Qed.

Lemma matching_same t t' objects : Forall2 (λ a a', at_type a = at_type a' ∧ at_value a = at_value a') t t' → matching t objects = matching t' objects.
Proof.
  intros HF. unfold matching. f_equal. apply list_filter_iff. intros [h attrs]. cbn [snd].
  enough (forallb (has_attribute attrs) t = forallb (has_attribute attrs) t') as -> by done.
  induction HF as [|a a' t t' [H1 H2] _ IH]; [done|]. cbn [forallb]. rewrite IH. f_equal. unfold has_attribute. by rewrite H1, H2.
Qed.

Lemma toy_searches : search_library toy_idle (λ _ _, ToyLibrary.objects) toy_searching.
Proof.
  split.
  - unfold toy_idle, toy_searching. intros session p template mem lib -> Hr. eexists. split; [reflexivity|].
    do 2 f_equal. by apply matching_same, toy_reads.
  - unfold toy_searching. intros session batch count mem lib rest b c -> Hbc Hb Lb Hc Lc. eexists. split; [|done].
    cbn [cryptoki ToyLibrary.native ToyLibrary.answer]. rewrite (toy_write mem batch _ b Hb).
    rewrite (toy_write _ count _ c) by by rewrite list_lookup_insert_ne. by rewrite toy_put_count.
Qed.

Lemma findObjects_complete_witness : is_ok (findObjects 3 5 toy_template toy_world).1 = true ∧
  ∃ w', findObjects 3 5 toy_template toy_world = (Ok (Some (map Z.of_nat (seq 1 70))), w').
Proof.
  split; [vm_compute; reflexivity|].
  change (map Z.of_nat (seq 1 70)) with (matching toy_template ToyLibrary.objects).
  apply (findObjects_complete toy_laws toy_idle (λ _ _, ToyLibrary.objects) toy_searching 3 5 toy_template toy_world toy_searches).
  - reflexivity.
  - by repeat constructor.
  - vm_compute. lia.
  - apply (bool_decide_eq_true_1 _). vm_compute. reflexivity.
  - vm_compute. discriminate.
  - vm_compute. lia.
Defined.

Definition toy_bytes : list N := flat_map le64 ToyLibrary.advertised.

Lemma toy_fills : fills C_GetMechanismList (λ out len, [AU64 0; APtr out; APtr len]) ULONG_SIZE 3 3 toy_bytes.
Proof.
  split; [done|done| |].
  - intros len mem lib c Hc Lc. eexists. cbn [cryptoki ToyLibrary.native ToyLibrary.answer].
    change (0 =? 0)%N with true. cbv iota. rewrite (toy_write mem len _ c Hc). by rewrite toy_put_count.
  - intros out len mem lib o c Hne Ho Hc -> _. eexists. cbn [cryptoki ToyLibrary.native ToyLibrary.answer].
    replace (address out =? 0)%N with false by (symmetry; apply N.eqb_neq; cbn; lia). rewrite (toy_write mem out _ o Ho).
    rewrite (toy_write _ len _ (le64 3)) by by rewrite list_lookup_insert_ne. by rewrite toy_put_count.
Qed.

Lemma twoPhase_exact_witness : ∃ w', twoPhase C_GetMechanismList (λ out len, invoke C_GetMechanismList [AU64 0; APtr out; APtr len]) 8 toy_world
  = (Ok toy_bytes, w').
Proof.
  apply (twoPhase_exact C_GetMechanismList (λ out len, [AU64 0; APtr out; APtr len]) 8 3 3 toy_bytes toy_world toy_fills);
    vm_compute; [reflexivity|discriminate].
Defined.

Lemma calls_match_signatures_witness :
  length (w_calls (module_history toy_world [MInitialize; MMechanisms 0; MFindObjects 3 1 []; MFinalize])) = 9 ∧
  Forall sig_ok (w_calls (module_history toy_world [MInitialize; MMechanisms 0; MFindObjects 3 1 []; MFinalize])).
Proof. split; [vm_compute; reflexivity|]. apply (calls_match_signatures toy_world). constructor. Defined.

Definition toy_gcm : MechanismParams := GcmParams [1; 2; 3]%N [] 128.

Lemma mechanism_layout_witness : ∃ b w', encodeMechanism 4231 (Some toy_gcm) toy_world = (Ok b, w') ∧
  (∃ new, extends toy_world w' new) ∧
  ∃ bytes pParameter ulParameterLen, w_mem w' !! b = Some bytes ∧
    c_struct CK_MECHANISM bytes = Some [4231%N; pParameter; ulParameterLen] ∧
    ∃ pb block, pParameter = address pb ∧ w_mem w' !! pb = Some block ∧
                ulParameterLen = length64 block ∧ c_params (w_mem w') toy_gcm block.
Proof.
  eexists _, _. split; [reflexivity|].
  apply (mechanism_layout toy_laws 4231 (Some toy_gcm) toy_world); [done| |reflexivity|vm_compute; lia].
  by intros p [= <-].
Defined.

Lemma template_layout_witness : ∃ b w', encodeTemplate toy_template toy_world = (Ok b, w') ∧
  ∃ bytes, w_mem w' !! b = Some bytes ∧ length bytes = 48 ∧
    ∀ i a, toy_template !! i = Some a → ∃ pValue,
      c_struct CK_ATTRIBUTE (take (c_sizeof CK_ATTRIBUTE) (drop (c_sizeof CK_ATTRIBUTE * i) bytes))
        = Some [at_type a; pValue; length64 (at_value a)] ∧ points (w_mem w') pValue (at_value a).
Proof.
  eexists _, _. split; [reflexivity|].
  apply (template_layout toy_laws toy_template toy_world); [by repeat constructor|reflexivity|vm_compute; lia].
Defined.

Lemma loadModule_binds_witness :
  let ld := {| ld_windows := false; ld_has_dlopen := true; ld_open := Ok tt; ld_code := 5; ld_list := 0; ld_word := λ _, 0%N |} in
  bd_opened (loadModule ld) = true ∧ bd_closed (loadModule ld) = false.
Proof. split; [reflexivity|]. apply (loadModule_binds {| ld_windows := false; ld_has_dlopen := true; ld_open := Ok tt; ld_code := 5; ld_list := 0; ld_word := λ _, 0%N |}); [reflexivity|vm_compute; discriminate]. Defined.

(** ** What the code does not do *)

(** On a session the token no longer knows, [getAttributes] reports every attribute as present and
    empty: it never looks at the return value of [C_GetAttributeValue]. *)
Example dead_session_attributes :
  (getAttributes 1 2 [cka_Label AttributeType; cka_KeyType AttributeType] toy_world).1 =
  Ok [{| at_type := cka_Label AttributeType; at_value := []; at_present := true |};
      {| at_type := cka_KeyType AttributeType; at_value := []; at_present := true |}].
Proof. vm_compute. reflexivity. Qed.

(** A library whose [C_GetFunctionList] fails stays open. *)
Example library_left_open :
  let ld := {| ld_windows := false; ld_has_dlopen := true; ld_open := Ok tt; ld_code := 5; ld_list := 0; ld_word := λ _, 0%N |} in
  is_ok (bd_result (loadModule ld)) = false ∧ bd_opened (loadModule ld) = true ∧ bd_closed (loadModule ld) = false.
Proof. by vm_compute. Qed.
End toy_library.
